(* ===== verification/_CoqProject ===== *)
-Q . S2P
Prelude.v
Text.v
AppError.v
Cors.v
Base64.v
Utf8.v
StringUtil.v
Jwks.v
NetIP.v
RealIP.v
Keyed.v
DList.v
CacheIface.v
Linked.v
Lru.v
Fifo.v
Lfu.v
Sampled.v
TypedCache.v
CacheThreads.v
CacheRaces.v
Breaker.v
Consecutive.v
Float64.v
Strconv.v
Env.v
RedMetrics.v
SecHeaders.v
Sql.v
PgLimiter.v
Logger.v
Ratio.v
TokenBucket.v
SlidingWindow.v
RateLimit.v
Idempotency.v
PgStore.v
GinIdempotency.v
Recorder.v
Web.v
Pipeline.v
WorkerPool.v
Async.v
Shutdown.v
Health.v
Retry.v
FakeClock.v
Clocks.v
Fsm.v
Rbac.v
Gin.v
Jwt.v
DayBounds.v
Calendar.v
Paging.v
Cursor.v
HttpClient.v
ClientTime.v
Options.v
Spans.v
Validation.v
Quotes.v
Items.v
Microservice.v
Tasks.v
Lifecycle.v
Instruments.v
LoadGen.v
