(* ===== verification/Prelude.v ===== *)
(** * Verification of go-libs

    go-libs is a collection of Go packages for HTTP services. This library
    models the packages that carry state or algorithms of their own and proves
    what they promise. A package is translated function by function: a Go
    method that changes its receiver is a function that returns the new
    receiver, a failing one returns a sum or an option, concurrent code is a
    step relation.

    ** Parts and files

    - Prelude.v (this file): 64-bit integers with wrap-around, package [time]
      ([Time] counts nanoseconds since the zero time, [Duration] is an int64,
      [Sub] saturates), errors and [errors.Is], shared lemmas and tactics.
      Text.v: the functions of package [strings] in use, on ASCII strings.
      Float64.v: binary64 arithmetic on the Standard Library's [spec_float].
      Utf8.v: strings as sequences of runes. Strconv.v: numbers, booleans and
      durations in texts.
    - cache/ (cache.go, lru.go, fifo.go, lfu.go). CacheIface.v states the
      interface [Cache] as a class, the contract [CacheContract] of a backend
      (a map that may forget) and the body of [GetOrFetch] that three backends
      repeat. DList.v is the doubly linked list with its pointers, Linked.v
      what LRU and FIFO share, Lru.v, Fifo.v and Lfu.v the backends with a
      reference policy each, Keyed.v the lemmas on lists of keyed entries.
      Sampled.v is the SampledLRU policy of [TypedCache], TypedCache.v the
      options, the initialisation and the dispatch to the policy in force.
      CacheThreads.v runs the SampledLRU methods, their evictions, the fetches
      in flight and the sweeper as goroutines that interleave at every access to
      the map, the counter and the striped locks; package singleflight is the
      class [SingleFlight]. CacheRaces.v has its invariants and theorems.
    - circuitbreaker/ (circuitbreaker.go, consecutive.go, ratio.go). Breaker.v
      has the state machine both breakers repeat (the record [gate]), the class
      [Breaker] of the three methods [Execute] is made of, the laws
      [BreakerLaws] and the interleavings of concurrent calls; Consecutive.v
      and Ratio.v are the two breakers and discharge the laws.
    - ratelimit/ (token_bucket.go, sliding_window.go, limiter.go,
      ratelimit.go, realip.go): TokenBucket.v, SlidingWindow.v, RateLimit.v for
      the interface [Limiter] and the handlers of the middleware, and RealIP.v
      for the client's address behind proxies, over NetIP.v, what package [net]
      does with addresses and networks.
    - idempotency/ (store.go, memory.go, middleware.go, postgres.go):
      Idempotency.v has the memory store and the middleware, Recorder.v the
      response recorder over the writer of net/http, PgStore.v the PostgreSQL
      store, whose calls are sequences of atomic statements on a shared table.
      ginmw/idempotency.go: GinIdempotency.v, over the memory store.
    - db/ratelimit.go: PgLimiter.v, the rate limiter as one statement per
      request. Sql.v is what the two PostgreSQL parts share.
    - ginmw/ (jwt.go, rbac.go, tenant.go, ratelimit.go): Gin.v. Gin is used
      through the class [Gin], what it documents of a chain of handlers, and
      the JWT library through the function that accepts a token. Jwt.v adds
      [GenerateToken], over the class [JWT] of what the library documents.
      Pipeline.v has the other adapters (requestid.go, security.go, cors.go,
      recovery.go, logger.go, telemetry.go, error_handler.go, bodylimit.go,
      response.go, red_metrics.go) with panics, over the class [Engine];
      RedMetrics.v the counters of red_metrics.go under concurrent requests.
      jwks/jwks.go: Jwks.v, over the answers of the endpoint.
    - logger/ (redactor.go, sampler.go): Logger.v, the handlers around another
      slog handler. logger/middleware.go, requestid/ and recovery/: Web.v, over
      the writer of Recorder.v. logger/logger.go, and telemetry/middleware.go
      with recovery/ in both orders: Spans.v. apperror/ and
      httputil/response.go: AppError.v. httputil/cors.go and ginmw/cors.go:
      Cors.v. securityheaders/ and bodylimit/: SecHeaders.v.
    - async/parallel.go: Async.v; shutdown/shutdown.go: Shutdown.v; both are
      transition systems whose steps the scheduler chooses. health/health.go:
      Health.v.
    - workerpool/workerpool.go: WorkerPool.v, a step relation over submitters,
      [Stop] and the workers.
    - retry/retry.go: Retry.v. clock/fake.go: FakeClock.v; Clocks.v has the
      interface [Clock] as a class and clock/real.go, over timers and tickers as
      package [time] documents them, woken by any [Scheduler]. fsm/fsm.go: Fsm.v.
      rbac/engine.go and rbaccontext/rbaccontext.go: Rbac.v.
      timeutil/timeutil.go: DayBounds.v (days in a location, parsing) and
      Calendar.v (business days, whose [AddDate] is package time's in a
      location). pagination/, sliceutil/ and maputil/: Paging.v, with Base64.v
      and, for the cursors in requests, Cursor.v. stringutil/ and cryptoutil/: StringUtil.v.
      env/: Env.v. validation/ and uuidutil/: Validation.v.
    - httpclient/roundtripper.go: HttpClient.v composes a limiter, a breaker and
      the attempts around a transport, through the classes [Limiter] and
      [Breaker]; ClientTime.v runs the whole [RoundTrip] in time, with the
      reading of the body, contexts, timeouts, waits, metrics and spans, over
      the class [Transport]. Options.v:
      how the client (options.go, client.go), the rate limiting middleware, the
      worker pool, the recovery middlewares, the access log, the authentication
      middleware, the tracer provider and database connections (db/) are built
      from their options.
    - examples/microservice/ composes the packages. main.go: Quotes.v (the
      quotes endpoint: a breaker around retries around the HTTP client),
      Items.v (the cached items endpoints), Microservice.v (configuration,
      metrics, the middleware stack, the tasks and metrics endpoints), Tasks.v
      (requests for tasks, within the rate limit and over it, interleaved with
      the workers and the shutdown),
      Lifecycle.v (the wiring of NewApp and [main]: the server, the signal and
      the shutdown hooks, interleaved with all of the above). Instruments.v:
      metrics/metrics.go, with the atomic counters of main.go as instances of
      its interfaces. loadgen/main.go: LoadGen.v.

    ** What the theorems show

    - Caches. [lru_history_refines] and [lfu_history_refines], and the lemma
      [fifo_history_refines]: the pointer structures implement their reference
      policies on every history of calls. [typed_history]: every configuration
      of [TypedCache] is a map that may forget, within its capacity. The lemmas
      [typed_GetOrFetch], [sampled_victim] and [sweeper_tick]: what a fetch
      stores, and which entries the sampled search and the sweeper remove.
      In every interleaving of goroutines: [conc_len], the counter is exact;
      [conc_capacity], stores that have returned leave the cache within its
      capacity; [conc_cleanup], the clean-up takes only what has expired;
      [conc_progress], there is no deadlock; the lemma [conc_flights], one fetch
      of a key at a time. The lemmas [unbounded_cleanup_loses] and
      [delete_overshoots] are runs where hypotheses of these fail.
    - Circuit breakers. [breaker_safety] and [breaker_not_frozen] hold for both
      breakers in every interleaving; [ratio_trips] and the lemma
      [consecutive_trips] say exactly when each opens; the lemma [stale_probes]
      shows what goes wrong with several probes.
    - Rate limits. [token_rate] and [middleware_rate] bound what is granted,
      [sliding_counts] says what the sliding window counts, and each has the
      cases where a limit is exceeded; [pg_rate] bounds what all replicas grant
      together; the lemma [gin_limits] says which adapters stop a request;
      [real_ip_unforgeable] that a client cannot choose its address.
    - Idempotency. [at_most_once] for the memory store, with the settings that
      break it; [gin_idempotent] for the gin middleware; [pg_exclusive] and
      the lemma [pg_replay] for the PostgreSQL store under any interleaving of
      clients; the lemma [recorder_exact] for what is stored against what was
      sent.
    - Access. [gin_guarded]: a protected route runs only for an accepted token
      with the permission, and in which tenant it runs. [token_round_trip]: a
      minted token is accepted, with its claims, until it expires.
      [jwks_published]: every key was published. [match_glob]: permission
      patterns. The lemmas [random_strings]: drawing ends and is without bias;
      [cors_origins]: which origins are allowed.
    - Logs and errors. [log_redacted]: masking is complete on attributes, and
      what escapes it; the lemmas [access_log]: what is logged of a request and
      how a panic is answered, and [domain_errors]: the reply to an error.
      [gin_pipeline]: what recovery, logs, metrics and the error handler do for
      every chain, and where their order matters; the lemmas [red_metrics]: the
      counters are exact in every interleaving, and [server_spans] for net/http.
    - Concurrency. [pool_safety] for the worker pool, [parallel_exact],
      [shutdown_exact] and the lemma [health_exact] for tasks, hooks and
      checkers, with termination.
    - Retry: [retry_loop]. Calendar: [business_days], [day_bounds]. Pages:
      [pages_are_chunks]; cursors: [cursor_roundtrip]. HTTP client:
      [client_pipeline], and [client_deadlines] for its timeouts. Clocks:
      [clocks_agree], the fake clock against the real one. Construction:
      [options_wellformed]. Lemmas [clock_fires], [fsm_exact], [text_masks],
      [env_values], [FormatErrors_spec] for the fake clock, fsm, stringutil, env
      and validation.
    - The service. [app_stack]: what the middleware stack does to a request, and
      what a panic or a refusal by the limiter does to it; [tasks_accounted]: the
      tasks the pool accepts are those executed, also over a shutdown, and how
      each request is answered; [graceful_shutdown]: what a shutdown without an error has finished;
      [quotes_shared_breaker]: the breaker that two layers share; the lemmas
      [items_transparent]: the cache does not show in the answers,
      [loadgen_accounts] and [reports_exact]: the generator's requests, counters
      and reports, and [atomic_sum]: what the counters of the service hold.

    ** Conventions

    - The clock is an argument: an operation takes the readings it makes, in
      order, and theorems that need time not to go back say so. The iteration
      order of Go maps is a parameter ([RangeOrder], [MapOrder], [FirstKey])
      that may be any permutation.
    - A method that runs under one mutex is one atomic step. [Execute] of the
      breakers and the middleware of idempotency are split where they call
      foreign code, since other calls run in between; the worker pool and
      the cache of CacheThreads.v are split at every lock, channel and shared
      memory operation. The callbacks of the breakers are
      steps of their own, after the mutex is released, so they may come in
      another order than the changes ([callbacks_reordered]). A call of the
      token bucket is one step, though the source takes the mutex of the
      limiter and then that of the bucket: [detached_bucket] is the run that
      differs. A request of the service submits its task in one step
      ([Submit_run] relates it to the steps of the pool) and is answered in
      another.
    - SQL statements are atomic and may be executed without their answer
      arriving, or not executed at all; timestamps have microseconds, counts 32
      bits. A call of [Lock] is one statement per step, so all clients
      interleave between its statements.
    - [option] results of the linked structures are nil dereferences; the
      theorems show that they do not occur. Metrics are counters in the state.
    - Fuel: [evictLoop] gets one more than the number of entries, since every
      round but the last removes one; [tickLoop] the number of periods up to
      the target; [skipLoop] three days for every business day and seven more.
      The theorems on these loops state that the result is reached, the last
      one where the clock time exists on the days in between. [PgStore.Lock]
      gets four statements, which [pg_replay] shows to be enough when nobody interleaves.
      [rand.Int] gets a round for every byte of the reader and one more, since a
      round reads at least one; a duration has at most as many units as
      characters. The loop of retry is structural in the attempts left; the transition
      systems of Async.v and Shutdown.v have a measure that every step lowers.

    ** Not modelled

    Strings beyond ASCII in rbac, cors, logger and in the trimming of header
    values; JSON texts, of which only the contents are kept; the Custom claims
    of a token; stack traces; the words of log lines other than the access log.
    The bodies of libraries are parameters or classes with what they document:
    gin, the JWT library, bcrypt, the validator, uuid, pgx and PostgreSQL,
    singleflight, OpenTelemetry, package [time]'s locations and layouts, and
    the transport and the server of net/http. The interleaving is that of
    sequentially consistent memory. LRU, FIFO and LFU hold one lock for a whole
    method and are not interleaved further. Of the load generator, the tuning
    of the transport and the layout of its printed lines. *)

From stdpp Require Export gmap strings list fin_maps relations.
From Stdlib Require Export ZArith Lia Sorted.

#[export] Set Default Goal Selector "!".

Declare Scope go_scope.
Delimit Scope go_scope with go.

Open Scope Z_scope.

(** ** 64-bit integers *)

(** Go's [int], [int64] and [time.Duration] are two's-complement 64-bit
    integers whose arithmetic wraps around silently. *)
Definition maxInt64 : Z := 9223372036854775807.
Definition minInt64 : Z := -9223372036854775808.

Definition wrap64 (z : Z) : Z := (z + 2 ^ 63) mod 2 ^ 64 - 2 ^ 63.

Definition in_int64 (z : Z) : Prop := minInt64 <= z <= maxInt64.

Notation "a +! b" := (wrap64 (a + b)) (at level 50, left associativity) : go_scope.
Notation "a -! b" := (wrap64 (a - b)) (at level 50, left associativity) : go_scope.
Notation "a *! b" := (wrap64 (a * b)) (at level 40, left associativity) : go_scope.
Open Scope go_scope.

(** Integer division truncates towards zero; [MinInt64 / -1] wraps. *)
Definition go_div (a b : Z) : Z := wrap64 (Z.quot a b).
Definition go_rem (a b : Z) : Z := Z.rem a b.

(** ** Time *)

(** A [time.Time] is the number of nanoseconds since the zero time
    (January 1, year 1, 00:00:00 UTC), a [time.Duration] an [int64]. *)
Definition Time := Z.
Definition Duration := Z.

Definition Nanosecond : Duration := 1.
Definition Second : Duration := 1000000000.
Definition Minute : Duration := 60 * Second.

(** The zero time is 62135596800 seconds before the Unix epoch. *)
Definition unixEpoch : Time := 62135596800 * Second.

(** [Time.Sub] saturates at the ends of the [Duration] range. *)
Definition time_Sub (t u : Time) : Duration :=
  Z.max minInt64 (Z.min maxInt64 (t - u)).

Definition time_Add (t : Time) (d : Duration) : Time := t + d.
Definition time_Before (t u : Time) : bool := t <? u.
Definition time_After (t u : Time) : bool := u <? t.
Definition time_Equal (t u : Time) : bool := t =? u.
Definition time_IsZero (t : Time) : bool := t =? 0.

(** [Time.UnixNano] is an [int64]; it wraps outside the years 1678-2262. *)
Definition UnixNano (t : Time) : Z := wrap64 (t - unixEpoch).

(** [Time.Truncate] rounds down to a multiple of [d] since the zero time. *)
Definition time_Truncate (t : Time) (d : Duration) : Time :=
  if d <=? 0 then t else t - t mod d.

(** ** Errors *)

(** An [error] value: the two context errors, a sentinel or formatted error,
    and the two ways of wrapping, [fmt.Errorf("...%w")] and [errors.Join]. *)
Inductive error : Type :=
| Canceled
| DeadlineExceeded
| ErrNew (msg : string)
| ErrWrap (msg : string) (e : error)
| ErrJoin (e1 e2 : error).

#[global] Instance error_eq_dec : EqDecision error.
Proof. solve_decision. Defined.

(** [errors.Is]: the target occurs in the tree of wrapped errors. *)
Fixpoint errors_Is (err target : error) : bool :=
  bool_decide (err = target) ||
  match err with
  | ErrWrap _ e => errors_Is e target
  | ErrJoin e1 e2 => errors_Is e1 target || errors_Is e2 target
  | _ => false
  end.

(** ** Tactics and hints *)

Create HintDb golibs.

(** Turns the boolean tests of the code into facts [lia] can use. *)
Ltac bool_to_prop :=
  repeat match goal with
  | H : _ && _ = true |- _ => apply andb_true_iff in H; destruct H
  | H : _ && _ = false |- _ => apply andb_false_iff in H
  | H : _ || _ = true |- _ => apply orb_true_iff in H
  | H : _ || _ = false |- _ => apply orb_false_iff in H; destruct H
  | H : negb _ = true |- _ => apply negb_true_iff in H
  | H : negb _ = false |- _ => apply negb_false_iff in H
  | H : (_ <=? _) = true |- _ => apply Z.leb_le in H
  | H : (_ <=? _) = false |- _ => apply Z.leb_gt in H
  | H : (_ <? _) = true |- _ => apply Z.ltb_lt in H
  | H : (_ <? _) = false |- _ => apply Z.ltb_ge in H
  | H : (_ =? _) = true |- _ => apply Z.eqb_eq in H
  | H : (_ =? _) = false |- _ => apply Z.eqb_neq in H
  | H : bool_decide _ = true |- _ => apply bool_decide_eq_true in H
  | H : bool_decide _ = false |- _ => apply bool_decide_eq_false in H
  end.

(** Case analysis on the tests and matches of the goal. *)
Ltac cases :=
  repeat (case_match; simplify_eq/=); bool_to_prop.

(** ** Machine integers *)

Lemma wrap64_id z : in_int64 z → wrap64 z = z.
Proof.
  unfold in_int64, wrap64, minInt64, maxInt64. intros Hz.
  rewrite Z.mod_small; lia.
Qed.

Lemma wrap64_range z : in_int64 (wrap64 z).
Proof.
  unfold in_int64, wrap64, minInt64, maxInt64.
  pose proof (Z.mod_pos_bound (z + 2 ^ 63) (2 ^ 64)). lia.
Qed.

Lemma time_Sub_exact t u : in_int64 (t - u) → time_Sub t u = t - u.
Proof. unfold in_int64, time_Sub. lia. Qed.

Lemma time_Sub_range t u : in_int64 (time_Sub t u).
Proof. unfold in_int64, time_Sub, minInt64, maxInt64. lia. Qed.

#[export] Hint Resolve wrap64_range time_Sub_range : golibs.

(** ** Lists and maps *)

Section lists.
Context {A B : Type}.
Implicit Types l : list A.

Lemma last_cons_app l x y : last (x :: l ++ [y]) = Some y.
Proof. rewrite app_comm_cons. apply last_snoc. Qed.

Lemma prefix_snoc_inv l p x : p `prefix_of` l ++ [x] → p `prefix_of` l ∨ p = l ++ [x].
Proof.
  intros [k Hk]. destruct k as [|y k _] using rev_ind; [right; by rewrite app_nil_r in Hk|].
  left. rewrite app_assoc in Hk. apply app_inj_tail in Hk as [-> _]. by apply prefix_app_r.
Qed.

Lemma elem_of_split_NoDup l x :
  x ∈ l → NoDup l → ∃ l1 l2, l = l1 ++ x :: l2 ∧ x ∉ l1 ∧ x ∉ l2.
Proof.
  intros (l1 & l2 & ->)%list_elem_of_split Hnd. exists l1, l2.
  apply NoDup_app in Hnd as (_ & Hd & Hnd). apply NoDup_cons in Hnd as [? _].
  split_and!; [done | | done]. intros Hx. by apply (Hd x Hx), list_elem_of_here.
Qed.

Lemma NoDup_fmap_middle (f : A → B) l1 x l2 :
  NoDup (f <$> l1 ++ x :: l2) →
  f x ∉ f <$> l1 ∧ f x ∉ f <$> l2 ∧ NoDup (f <$> l1 ++ l2).
Proof.
  rewrite !fmap_app, fmap_cons, <-Permutation_middle. intros [Hn ?]%NoDup_cons. set_solver.
Qed.

Lemma filter_all (P : A → Prop) `{∀ x, Decision (P x)} l :
  (∀ x, x ∈ l → P x) → filter P l = l.
Proof.
  induction l as [|x l IH]; intros HP; [done|].
  rewrite filter_cons_True by (apply HP; left).
  f_equal. apply IH. intros; apply HP; by right.
Qed.

Lemma filter_none (P : A → Prop) `{∀ x, Decision (P x)} l :
  (∀ x, x ∈ l → ¬ P x) → filter P l = [].
Proof.
  induction l as [|x l IH]; intros HP; [done|].
  rewrite filter_cons_False by (apply HP; left).
  apply IH. intros; apply HP; by right.
Qed.
End lists.

Section maps.
Context `{Countable K} {A : Type}.
Implicit Types l : list (K * A).

Lemma list_to_map_middle l1 l2 k x :
  k ∉ l1.*1 →
  (list_to_map (l1 ++ (k, x) :: l2) : gmap K A) = <[k:=x]> (list_to_map (l1 ++ l2)).
Proof.
  induction l1 as [|[k' x'] l1 IH]; intros Hk; csimpl; [done|].
  rewrite IH by set_solver. apply insert_insert_ne. set_solver.
Qed.

Lemma delete_list_to_map_middle l1 l2 k x :
  k ∉ l1.*1 → k ∉ l2.*1 →
  delete k (list_to_map (l1 ++ (k, x) :: l2) : gmap K A) = list_to_map (l1 ++ l2).
Proof.
  intros H1 H2. rewrite list_to_map_middle by done.
  rewrite delete_insert_id; [done|].
  apply not_elem_of_list_to_map_1. rewrite fmap_app. set_solver.
Qed.
End maps.
