(* ===== verification/Text.v ===== *)
(** The functions of Go's [strings] package the components use, on strings of
    ASCII characters. *)
From S2P Require Import Prelude.

(** [strings.TrimSpace], on ASCII white space. *)
Definition isSpace (a : Ascii.ascii) : bool :=
  let n := Z.of_nat (Ascii.nat_of_ascii a) in ((9 <=? n) && (n <=? 13)) || (n =? 32).

Fixpoint trimLeft (s : string) : string :=
  match s with
  | String a s' => if isSpace a then trimLeft s' else s
  | EmptyString => EmptyString
  end.
Definition TrimSpace (s : string) : string := String.rev (trimLeft (String.rev (trimLeft s))).

(** [strings.ToLower]. *)
Definition lower (a : Ascii.ascii) : Ascii.ascii :=
  let n := Ascii.nat_of_ascii a in
  if (65 <=? Z.of_nat n) && (Z.of_nat n <=? 90) then Ascii.ascii_of_nat (n + 32) else a.

Fixpoint ToLower (s : string) : string :=
  match s with
  | EmptyString => EmptyString
  | String a s' => String (lower a) (ToLower s')
  end.

(** [strings.ToUpper]. *)
Definition upper (a : Ascii.ascii) : Ascii.ascii :=
  let n := Ascii.nat_of_ascii a in
  if (97 <=? Z.of_nat n) && (Z.of_nat n <=? 122) then Ascii.ascii_of_nat (n - 32) else a.

Fixpoint ToUpper (s : string) : string :=
  match s with
  | EmptyString => EmptyString
  | String a s' => String (upper a) (ToUpper s')
  end.

(** A JSON string, and the JSON object with an error and its code. *)
Definition quoted (s : string) : string :=
  let q := String (Ascii.ascii_of_nat 34) EmptyString in (q +:+ s +:+ q)%string.

Definition errorJSON (msg code : string) : string :=
  ("{" +:+ quoted "error" +:+ ":" +:+ quoted msg +:+ "," +:+ quoted "code" +:+ ":" +:+ quoted code +:+ "}")%string.

(** [strings.Split] with a separator of one character. *)
Fixpoint Split (s : string) (sep : Ascii.ascii) : list string :=
  match s with
  | EmptyString => [EmptyString]
  | String a s' =>
      if bool_decide (a = sep) then EmptyString :: Split s' sep
      else match Split s' sep with
           | w :: ws => String a w :: ws
           | [] => [String a EmptyString]
           end
  end.

(** [strings.Join] with a separator of one character. *)
Fixpoint Join (ws : list string) (sep : Ascii.ascii) : string :=
  match ws with
  | [] => EmptyString
  | [w] => w
  | w :: ws' => w +:+ String sep (Join ws' sep)
  end.

(** ** Searching and cutting *)

Definition hasChar (c : Ascii.ascii) (s : string) : bool :=
  existsb (λ a, bool_decide (a = c)) (String.list_ascii_of_string s).

(** The text before and after the first, or the last, occurrence. *)
Fixpoint cutFirst (c : Ascii.ascii) (s : string) : option (string * string) :=
  match s with
  | EmptyString => None
  | String a s' =>
      if bool_decide (a = c) then Some (EmptyString, s')
      else '(l, r) ← cutFirst c s'; Some (String a l, r)
  end.

Fixpoint cutLast (c : Ascii.ascii) (s : string) : option (string * string) :=
  match s with
  | EmptyString => None
  | String a s' =>
      match cutLast c s' with
      | Some (l, r) => Some (String a l, r)
      | None => if bool_decide (a = c) then Some (EmptyString, s') else None
      end
  end.

(** [strings.Trim] and the like: removes the characters of a set at both ends. *)
Fixpoint trimLeftBy (p : Ascii.ascii → bool) (s : string) : string :=
  match s with
  | String a s' => if p a then trimLeftBy p s' else s
  | EmptyString => EmptyString
  end.
Definition TrimBy (p : Ascii.ascii → bool) (s : string) : string :=
  String.rev (trimLeftBy p (String.rev (trimLeftBy p s))).

(** [strings.HasPrefix], [strings.HasSuffix], [strings.Contains]. *)
Definition HasPrefix (s pre : string) : bool := String.prefix pre s.
Definition HasSuffix (s suf : string) : bool := String.prefix (String.rev suf) (String.rev s).

Fixpoint Contains (s sub : string) : bool :=
  String.prefix sub s || match s with String _ s' => Contains s' sub | EmptyString => false end.

(** [strings.Join]. *)
Fixpoint JoinWith (ws : list string) (sep : string) : string :=
  match ws with
  | [] => EmptyString
  | [w] => w
  | w :: ws' => w +:+ sep +:+ JoinWith ws' sep
  end.

Lemma Split_nonempty s sep : Split s sep ≠ [].
Proof.
  destruct s as [|a s]; simpl; [done|]. case_bool_decide; [done|]. by destruct (Split s sep).
Qed.

(** Splitting loses nothing. *)
Lemma Join_Split s sep : Join (Split s sep) sep = s.
Proof.
  induction s as [|a s IH]; [done|]. cbn [Split]. pose proof (Split_nonempty s sep) as Hne.
  case_bool_decide as Ha; destruct (Split s sep) as [|w ws] eqn:E; try done.
  - rewrite Ha. change (String sep (Join (w :: ws) sep) = String sep s). by rewrite IH.
  - rewrite <-IH. by destruct ws.
Qed.

Lemma Split_inj s t sep : Split s sep = Split t sep → s = t.
Proof. intros E. rewrite <-(Join_Split s sep), E. apply Join_Split. Qed.

(** Splitting a text with a separator in the middle. *)
Lemma Split_app s t sep : Split (s +:+ String sep t) sep = Split s sep ++ Split t sep.
Proof.
  induction s as [|a s IH].
  - change (Split (String sep t) sep = [EmptyString] ++ Split t sep). cbn [Split]. by rewrite bool_decide_eq_true_2.
  - change (Split (String a (s +:+ String sep t)) sep = Split (String a s) sep ++ Split t sep). cbn [Split]. rewrite IH.
    case_bool_decide; [done|]. pose proof (Split_nonempty s sep). by destruct (Split s sep).
Qed.

Lemma append_nonempty s c t : s +:+ String c t ≠ EmptyString.
Proof. by destruct s. Qed.

Lemma append_empty_r s : s +:+ "" = s.
Proof. induction s as [|a s IH]; [done|]. change (String a (s +:+ "") = String a s). by rewrite IH. Qed.

Lemma append_assoc' s t u : (s +:+ t) +:+ u = s +:+ (t +:+ u).
Proof.
  induction s as [|a s IH]; [done|]. change (String a ((s +:+ t) +:+ u) = String a (s +:+ (t +:+ u))). by rewrite IH.
Qed.
