(* ===== verification/AppError.v ===== *)
(** Application errors and their HTTP replies (apperror/apperror.go,
    httputil/response.go). *)
From S2P Require Import Prelude Text.

Inductive Code :=
| CodeBadRequest | CodeUnauthorized | CodeForbidden | CodeNotFound
| CodeConflict | CodeUnprocessable | CodeInternal | CodeUnavailable
| CodeOther (s : string).

Definition codeString (c : Code) : string :=
  match c with
  | CodeBadRequest => "BAD_REQUEST" | CodeUnauthorized => "UNAUTHORIZED" | CodeForbidden => "FORBIDDEN"
  | CodeNotFound => "NOT_FOUND" | CodeConflict => "CONFLICT" | CodeUnprocessable => "UNPROCESSABLE"
  | CodeInternal => "INTERNAL" | CodeUnavailable => "UNAVAILABLE" | CodeOther s => s
  end.

(** Errors: an [*apperror.Error], an error of another type that implements
    [APIError], a plain one, [fmt.Errorf] with %w, and [errors.Join]. *)
Inductive goerr :=
| AppErr (code : Code) (msg : string) (details : option string) (cause : option goerr)
| OtherAPI (text : string) (status : Z) (code : string)
| Plain (text : string)
| Wrapf (text : string) (inner : goerr)
| Joined (e1 e2 : goerr).

Section apperror.
Definition New (code : Code) (msg : string) : goerr := AppErr code msg None None.
Definition NewWithDetails (code : Code) (msg details : string) : goerr := AppErr code msg (Some details) None.
Definition Wrap (err : option goerr) (code : Code) (msg : string) : goerr := AppErr code msg None err.
Definition NotFound (msg : string) : goerr := New CodeNotFound msg.
Definition BadRequest (msg : string) : goerr := New CodeBadRequest msg.
Definition Unauthorized (msg : string) : goerr := New CodeUnauthorized msg.
Definition Forbidden (msg : string) : goerr := New CodeForbidden msg.
Definition Conflict (msg : string) : goerr := New CodeConflict msg.
Definition Unprocessable (msg : string) : goerr := New CodeUnprocessable msg.
Definition Internal (msg : string) : goerr := New CodeInternal msg.
Definition Unavailable (msg : string) : goerr := New CodeUnavailable msg.
End apperror.

(** [GetStatus]. *)
Definition GetStatus (c : Code) : Z :=
  let s := codeString c in
  if bool_decide (s = "BAD_REQUEST") then 400
  else if bool_decide (s = "UNAUTHORIZED") then 401
  else if bool_decide (s = "FORBIDDEN") then 403
  else if bool_decide (s = "NOT_FOUND") then 404
  else if bool_decide (s = "CONFLICT") then 409
  else if bool_decide (s = "UNPROCESSABLE") then 422
  else if bool_decide (s = "UNAVAILABLE") then 503
  else 500.

(** [Error()]; the text of a join has the parts on lines of their own. *)
Definition newline : string := String (Ascii.ascii_of_nat 10) EmptyString.
Fixpoint errorText (e : goerr) : string :=
  match e with
  | AppErr code msg _ (Some err) => codeString code +:+ ": " +:+ msg +:+ ": " +:+ errorText err
  | AppErr code msg _ None => codeString code +:+ ": " +:+ msg
  | OtherAPI text _ _ => text
  | Plain text => text
  | Wrapf text _ => text
  | Joined e1 e2 => errorText e1 +:+ newline +:+ errorText e2
  end.

(** [errors.As]: the first match, the error itself before what it wraps, and
    the parts of a join in their order. *)
Fixpoint errors_As {A} (target : goerr → option A) (e : goerr) : option A :=
  match target e with
  | Some a => Some a
  | None =>
      match e with
      | AppErr _ _ _ (Some err) => errors_As target err
      | Wrapf _ err => errors_As target err
      | Joined e1 e2 => match errors_As target e1 with Some a => Some a | None => errors_As target e2 end
      | _ => None
      end
  end.

(** The targets [*apperror.Error] and [httputil.APIError], the latter with the
    results of its methods. *)
Definition asAppError (e : goerr) : option Code :=
  match e with AppErr code _ _ _ => Some code | _ => None end.

Definition asAPIError (e : goerr) : option (string * Z * string) :=
  match e with
  | AppErr code _ _ _ => Some (errorText e, GetStatus code, codeString code)
  | OtherAPI text status code => Some (text, status, code)
  | _ => None
  end.

Definition Is (err : goerr) (code : Code) : bool :=
  match errors_As asAppError err with
  | None => false
  | Some c => bool_decide (codeString c = codeString code)
  end.
Definition CodeOf (err : goerr) : string :=
  match errors_As asAppError err with None => "" | Some c => codeString c end.

(** The errors of the components as errors of a domain. *)
Fixpoint goerrOf (e : error) : goerr :=
  match e with
  | Canceled => Plain "context canceled"
  | DeadlineExceeded => Plain "context deadline exceeded"
  | ErrNew m => Plain m
  | ErrWrap m e => Wrapf m (goerrOf e)
  | ErrJoin e1 e2 => Joined (goerrOf e1) (goerrOf e2)
  end.

(** ** Replies *)

Record ErrResponse := mkErr { EError : string; ECode : string }.
Record httpReply := mkReply { rStatus : Z; rHeaders : list (string * string); rBody : ErrResponse }.

(** [WriteJSON] of an error body, on a fresh writer. *)
Definition WriteJSON (status : Z) (v : ErrResponse) : httpReply :=
  mkReply status [("Content-Type", "application/json; charset=utf-8"); ("X-Content-Type-Options", "nosniff")] v.

Definition Error (msg : string) (status : Z) : httpReply := WriteJSON status (mkErr msg "").
Definition ValidationError (msg : string) : httpReply := WriteJSON 400 (mkErr msg "VALIDATION_ERROR").

Definition ErrorFromDomain (err : goerr) : httpReply :=
  match errors_As asAPIError err with
  | Some (text, status, code) => WriteJSON status (mkErr text code)
  | None => WriteJSON 500 (mkErr (errorText err) "INTERNAL_ERROR")
  end.

(** ** What the client sees *)

(** The errors in a chain, in the order [errors.As] visits them. *)
Fixpoint chain (e : goerr) : list goerr :=
  e :: match e with
       | AppErr _ _ _ (Some err) => chain err
       | Wrapf _ err => chain err
       | Joined e1 e2 => chain e1 ++ chain e2
       | _ => []
       end.

Fixpoint firstSome {A B} (f : A → option B) (l : list A) : option B :=
  match l with [] => None | x :: l' => match f x with Some b => Some b | None => firstSome f l' end end.

Lemma firstSome_app {A B} (f : A → option B) l1 l2 :
  firstSome f (l1 ++ l2) = match firstSome f l1 with Some b => Some b | None => firstSome f l2 end.
Proof. induction l1 as [|x l1 IH]; cbn; [done|]. by destruct (f x). Qed.

Section goerr_ind.
Context (P : goerr → Prop)
  (HA : ∀ c m d, P (AppErr c m d None)) (HW : ∀ c m d e, P e → P (AppErr c m d (Some e)))
  (HO : ∀ t s c, P (OtherAPI t s c)) (HP : ∀ t, P (Plain t))
  (HF : ∀ t e, P e → P (Wrapf t e)) (HJ : ∀ e1 e2, P e1 → P e2 → P (Joined e1 e2)).

Fixpoint goerr_ind' (e : goerr) : P e :=
  match e with
  | AppErr c m d None => HA c m d
  | AppErr c m d (Some e) => HW c m d e (goerr_ind' e)
  | OtherAPI t s c => HO t s c
  | Plain t => HP t
  | Wrapf t e => HF t e (goerr_ind' e)
  | Joined e1 e2 => HJ e1 e2 (goerr_ind' e1) (goerr_ind' e2)
  end.
End goerr_ind.

Lemma errors_As_chain {A} (target : goerr → option A) e : errors_As target e = firstSome target (chain e).
Proof.
  induction e as [c m d|c m d e IH|t s c|t|t e IH|e1 e2 IH1 IH2] using goerr_ind'; cbn; destruct (target _); try done.
  rewrite firstSome_app, IH1, IH2. done.
Qed.

(** A text is contained in another. *)
Lemma prefix_app s t : String.prefix s (s +:+ t) = true.
Proof.
  induction s as [|a s IH]; [by destruct t|]. change (String a s +:+ t) with (String a (s +:+ t)).
  cbn. destruct (Ascii.ascii_dec a a); [exact IH|congruence].
Qed.

Lemma Contains_prefix s sub : String.prefix sub s = true → Contains s sub = true.
Proof. destruct s; cbn [Contains]; by intros ->. Qed.

Lemma Contains_app s sub t : Contains (s +:+ sub +:+ t) sub = true.
Proof.
  induction s as [|a s IH]; [change (Contains (sub +:+ t) sub = true); apply Contains_prefix, prefix_app|].
  change (String a s +:+ sub +:+ t) with (String a (s +:+ sub +:+ t)). cbn. rewrite IH. apply orb_true_r.
Qed.

Lemma Contains_end s sub : Contains (s +:+ sub) sub = true.
Proof. rewrite <-(append_empty_r sub) at 1. apply Contains_app. Qed.

(** The reply to an error is that of the first error in its chain (the error
    itself, then what it wraps, joined errors in their order) that is an API
    error: its status, its code and its text, with 500 and INTERNAL_ERROR when
    there is none, so wrapping with %w never changes the status; CodeOf and Is agree with it for *apperror.Error, and the
    status of each code is the documented one, 500 for any other. The text is
    not the client-safe message, though: it contains the text of the wrapped
    cause, and for other errors the internal text itself. *)
Lemma domain_errors err :
  (let reply := ErrorFromDomain err in
   match firstSome asAPIError (chain err) with
   | Some (text, status, code) => rStatus reply = status ∧ rBody reply = mkErr text code
   | None => rStatus reply = 500 ∧ rBody reply = mkErr (errorText err) "INTERNAL_ERROR"
   end) ∧
  (∀ t, firstSome asAPIError (chain err) ≠ None → ErrorFromDomain (Wrapf t err) = ErrorFromDomain err) ∧
  (∀ c m d cause, head (chain err) = Some (AppErr c m d cause) →
     CodeOf err = codeString c ∧ Is err c = true ∧
     rStatus (ErrorFromDomain err) = GetStatus c ∧ ECode (rBody (ErrorFromDomain err)) = codeString c) ∧
  map GetStatus [CodeBadRequest; CodeUnauthorized; CodeForbidden; CodeNotFound; CodeConflict;
                 CodeUnprocessable; CodeInternal; CodeUnavailable] = [400; 401; 403; 404; 409; 422; 500; 503] ∧
  (∀ code msg, Contains (EError (rBody (ErrorFromDomain (Wrap (Some err) code msg)))) (errorText err) = true).
Proof.
  split_and!.
  - unfold ErrorFromDomain. rewrite errors_As_chain. by destruct (firstSome _ _) as [[[text status] code]|].
  - intros t Hs. unfold ErrorFromDomain. rewrite !errors_As_chain. cbn.
    by destruct (firstSome asAPIError (chain err)) as [[[? ?] ?]|].
  - intros c m d cause Hh. destruct err as [c' m' d' cause'| | | |]; cbn in Hh; simplify_eq.
    unfold CodeOf, Is, ErrorFromDomain. rewrite !errors_As_chain. cbn. by rewrite bool_decide_true.
  - reflexivity.
  - intros code msg. unfold ErrorFromDomain. cbn. rewrite <-!append_assoc'. apply Contains_end.
Qed.
