(* ===== verification/Cors.v ===== *)
(** Cross-origin requests (httputil/cors.go, ginmw/cors.go). *)
From S2P Require Import Prelude Text.

Record CORSConfig := mkCORS {
  AllowedOrigins : list string;
  AllowedMethods : list string;
  AllowedHeaders : list string;
  ExposeHeaders : list string;
  AllowCredentials : bool;
}.

Definition DefaultCORSConfig (allowedOrigins : list string) : CORSConfig :=
  mkCORS allowedOrigins
    ["GET"; "POST"; "PUT"; "PATCH"; "DELETE"; "OPTIONS"]
    ["Content-Type"; "Authorization"; "X-Requested-With"; "Idempotency-Key"]
    ["Content-Disposition"; "Content-Type"; "Content-Length"; "X-RateLimit-Remaining"] true.

(** [trimmed[1:]] of a text that starts with "*.". *)
Definition tail_ (s : string) : string := match s with String _ s' => s' | EmptyString => EmptyString end.
Definition suffixMatch (trimmed origin : string) : bool :=
  HasPrefix trimmed "*." && HasSuffix origin (tail_ trimmed).

(** (allowed, isWildcard). *)
Fixpoint checkOrigin (origin : string) (allowedOrigins : list string) (allowCredentials : bool) : bool * bool :=
  match allowedOrigins with
  | [] => (false, false)
  | o :: os =>
      let trimmed := TrimSpace o in
      if bool_decide (trimmed = "*") then
        if allowCredentials then checkOrigin origin os allowCredentials else (true, true)
      else if bool_decide (trimmed = origin) then (true, false)
      else if suffixMatch trimmed origin then (true, false)
      else checkOrigin origin os allowCredentials
  end.

Local Notation header := (gmap string (list string)).

(** [Header.Set] when the value is not empty. *)
Definition setNonEmpty (k v : string) (h : header) : header := if bool_decide (v = "") then h else <[k := [v]]> h.

(** The middleware, for the header Origin and the method: the response headers
    it sets on [h], and whether it answers 204 by itself. *)
Definition CORS (cfg : CORSConfig) (origin method : string) (h : header) : header * bool :=
  let methods := JoinWith (AllowedMethods cfg) ", " in
  let headers := JoinWith (AllowedHeaders cfg) ", " in
  let exposed := JoinWith (ExposeHeaders cfg) ", " in
  let h1 :=
    if bool_decide (origin = "") then h
    else
      let '(allowed, isStar) := checkOrigin origin (AllowedOrigins cfg) (AllowCredentials cfg) in
      if allowed then
        let h1 :=
          if isStar then <["Access-Control-Allow-Origin" := ["*"]]> h
          else
            let h1 := <["Access-Control-Allow-Origin" := [origin]]> h in
            if AllowCredentials cfg then <["Access-Control-Allow-Credentials" := ["true"]]> h1 else h1 in
        setNonEmpty "Access-Control-Expose-Headers" exposed
          (setNonEmpty "Access-Control-Allow-Headers" headers
            (setNonEmpty "Access-Control-Allow-Methods" methods h1))
      else h in
  (h1, bool_decide (method = "OPTIONS")).

(** ginmw/cors.go. *)
Fixpoint isOriginAllowed (origin : string) (allowedOrigins : list string) : bool :=
  match allowedOrigins with
  | [] => false
  | o :: os =>
      let trimmed := TrimSpace o in
      if bool_decide (trimmed = origin) then true
      else if suffixMatch trimmed origin then true
      else isOriginAllowed origin os
  end.

Definition ginCORS (allowedOrigins : list string) (origin method : string) (h : header) : header * bool :=
  let h1 := if negb (bool_decide (origin = "")) && isOriginAllowed origin allowedOrigins
            then <["Access-Control-Allow-Origin" := [origin]]> h else h in
  (<["Access-Control-Expose-Headers" := ["Content-Disposition, Content-Type, Content-Length"]]>
     (<["Access-Control-Allow-Credentials" := ["true"]]>
       (<["Access-Control-Allow-Headers" := ["Content-Type, Authorization"]]>
         (<["Access-Control-Allow-Methods" := ["GET, POST, PUT, PATCH, DELETE, OPTIONS"]]> h1))),
   bool_decide (method = "OPTIONS")).

(** ** Which origins are allowed *)

(** An entry names the origin, or a domain suffix of it. *)
Definition names (o origin : string) : Prop :=
  TrimSpace o ≠ "*" ∧ (TrimSpace o = origin ∨ suffixMatch (TrimSpace o) origin = true).

Lemma checkOrigin_spec origin os cred :
  (∃ star, checkOrigin origin os cred = (true, star) ∧ (star = true → cred = false ∧ ∃ o, o ∈ os ∧ TrimSpace o = "*") ∧
     (star = false → ∃ o, o ∈ os ∧ names o origin)) ∨
  (checkOrigin origin os cred = (false, false) ∧
   ∀ o, o ∈ os → ¬ names o origin ∧ (TrimSpace o = "*" → cred = true)).
Proof.
  induction os as [|o os IH]; cbn; [right; set_solver|].
  assert (Hskip : (¬ names o origin ∧ (TrimSpace o = "*" → cred = true)) →
    (∃ star, checkOrigin origin os cred = (true, star) ∧ (star = true → cred = false ∧ ∃ o', o' ∈ o :: os ∧ TrimSpace o' = "*") ∧
     (star = false → ∃ o', o' ∈ o :: os ∧ names o' origin)) ∨
    (checkOrigin origin os cred = (false, false) ∧
     ∀ o', o' ∈ o :: os → ¬ names o' origin ∧ (TrimSpace o' = "*" → cred = true))).
  { intros Ho. destruct IH as [(star & E & H1 & H2)|[E Hn]]; [left|right].
    - exists star. split_and!; [done| |]; intros Hs; [destruct (H1 Hs) as [? (o' & ? & ?)]|destruct (H2 Hs) as (o' & ? & ?)];
        [split; [done|]|]; exists o'; set_solver.
    - split; [done|]. intros o' [->|Ho']%elem_of_cons; auto. }
  case_bool_decide as Hst.
  { destruct cred; [apply Hskip; unfold names; naive_solver|].
    left. exists true. split_and!; [done| |done]. intros _. split; [done|]. exists o. set_solver. }
  case_bool_decide as Heq.
  { left. exists false. split_and!; [done|done|]. intros _. exists o. unfold names. set_solver. }
  destruct (suffixMatch (TrimSpace o) origin) eqn:Es.
  { left. exists false. split_and!; [done|done|]. intros _. exists o. unfold names. set_solver. }
  apply Hskip. unfold names. naive_solver congruence.
Qed.

Lemma lookup_setNonEmpty k v k' (h : header) : k ≠ k' → setNonEmpty k v h !! k' = h !! k'.
Proof. intros. unfold setNonEmpty. case_bool_decide; [done|]. by apply lookup_insert_ne. Qed.

Lemma gin_origins origin os :
  isOriginAllowed origin os = true ↔ ∃ o, o ∈ os ∧ (TrimSpace o = origin ∨ suffixMatch (TrimSpace o) origin = true).
Proof.
  induction os as [|o os IH]; cbn; [set_solver|].
  case_bool_decide as Heq; [split; [intros _; exists o; set_solver|done]|].
  destruct (suffixMatch (TrimSpace o) origin) eqn:Es; [split; [intros _; exists o; set_solver|done]|].
  rewrite IH. split; [set_solver|]. intros (o' & [->|?]%elem_of_cons & ?); [naive_solver congruence|]. by exists o'.
Qed.

(** On a response without CORS headers the middleware allows an origin
    exactly when an entry of the configuration names it (the origin itself or a
    "*." suffix of it) or a "*" entry applies, which it does not with
    credentials: then the origin is reflected, or "*" is sent, and "*" is never sent
    together with Access-Control-Allow-Credentials; an origin that is not allowed gets no CORS
    header at all. The gin middleware allows the same named origins, but sends
    the credentials header to every request, and every OPTIONS request is answered by both. *)
Lemma cors_origins cfg origin method : origin ≠ "" → origin ≠ "*" →
  let h := (CORS cfg origin method ∅).1 in
  let named := ∃ o, o ∈ AllowedOrigins cfg ∧ names o origin in
  let star := AllowCredentials cfg = false ∧ ∃ o, o ∈ AllowedOrigins cfg ∧ TrimSpace o = "*" in
  (is_Some (h !! "Access-Control-Allow-Origin") ↔ named ∨ star) ∧
  (h !! "Access-Control-Allow-Origin" = Some [origin] → named) ∧
  (h !! "Access-Control-Allow-Origin" = Some ["*"] → star ∧ h !! "Access-Control-Allow-Credentials" = None) ∧
  (¬ named → ¬ star → h = ∅) ∧
  (let g := (ginCORS (AllowedOrigins cfg) origin method ∅).1 in
   (g !! "Access-Control-Allow-Origin" = Some [origin] ↔ named) ∧
   g !! "Access-Control-Allow-Credentials" = Some ["true"]).
Proof.
  intros Hne Hst. cbv zeta.
  assert (Hgin : (∃ o, o ∈ AllowedOrigins cfg ∧ names o origin) ↔ isOriginAllowed origin (AllowedOrigins cfg) = true).
  { rewrite gin_origins. unfold names. split; intros (o & ? & Ho); exists o; [naive_solver|]. split; [done|]. split; [|done].
    intros E. rewrite E in Ho. destruct Ho as [?|Hs]; [congruence|]. by vm_compute in Hs. }
  assert (HG : let g := (ginCORS (AllowedOrigins cfg) origin method ∅).1 in
    (g !! "Access-Control-Allow-Origin" = Some [origin] ↔ ∃ o, o ∈ AllowedOrigins cfg ∧ names o origin) ∧
    g !! "Access-Control-Allow-Credentials" = Some ["true"]).
  { cbv zeta. rewrite Hgin. unfold ginCORS. rewrite (bool_decide_false (origin = "")) by done.
    by destruct (isOriginAllowed origin (AllowedOrigins cfg)). }
  split_and!; [..|exact (proj1 HG)|exact (proj2 HG)]; unfold CORS; rewrite (bool_decide_false (origin = "")) by done; cbn [fst].
  all: destruct (checkOrigin_spec origin (AllowedOrigins cfg) (AllowCredentials cfg))
    as [([] & E & H1 & H2)|[E Hn]]; rewrite E; rewrite ?lookup_setNonEmpty by done.
  all: try destruct (H1 eq_refl) as [Hc Ho]; try pose proof (H2 eq_refl) as Ho.
  - split; [auto|eauto].
  - split; [by left|intros _]. destruct (AllowCredentials cfg); [rewrite lookup_insert_ne by done|]; rewrite lookup_insert_eq; eauto.
  - split; [by intros [? ?]|]. intros [(o & Hin & Ho)|[Hc (o & Hin & Ho)]]; destruct (Hn o Hin) as [? Hs]; [done|].
    specialize (Hs Ho). congruence.
  - rewrite lookup_insert_eq. congruence.
  - done.
  - done.
  - done.
  - destruct (AllowCredentials cfg); [rewrite lookup_insert_ne by done|]; rewrite lookup_insert_eq; congruence.
  - done.
  - intros _ Hs. by destruct Hs.
  - intros Hs. by destruct Hs.
  - done.
Qed.

Lemma cors_origins_witness :
  let cfg := DefaultCORSConfig ["*"; "*.example.com"] in
  let h := (CORS cfg "https://app.example.com" "GET" ∅).1 in
  h !! "Access-Control-Allow-Origin" = Some ["https://app.example.com"] ∧
  ∃ o, o ∈ AllowedOrigins cfg ∧ names o "https://app.example.com".
Proof.
  intros cfg h. assert (E : h !! "Access-Control-Allow-Origin" = Some ["https://app.example.com"]) by (by vm_compute).
  split; [exact E|].
  exact (proj1 (proj2 (cors_origins cfg "https://app.example.com" "GET" ltac:(done) ltac:(done))) E).
Defined.
