(* ===== verification/Base64.v ===== *)
(** encoding/base64's [RawURLEncoding], which the cursors of package pagination
    and the keys of package jwks use. A string is a sequence of bytes. *)
From S2P Require Import Prelude.

(** Bytes as numbers. *)
Definition byteOf (a : Ascii.ascii) : Z := Z.of_nat (Ascii.nat_of_ascii a).
Definition ofByte (z : Z) : Ascii.ascii := Ascii.ascii_of_nat (Z.to_nat z).

(** The alphabet: A-Z, a-z, 0-9, [-], [_]. *)
Definition digit (d : Z) : Ascii.ascii :=
  ofByte (if d <? 26 then d + 65 else if d <? 52 then d + 71 else if d <? 62 then d - 4
          else if d =? 62 then 45 else 95).

Definition undigit (a : Ascii.ascii) : option Z :=
  let n := byteOf a in
  if (65 <=? n) && (n <=? 90) then Some (n - 65)
  else if (97 <=? n) && (n <=? 122) then Some (n - 71)
  else if (48 <=? n) && (n <=? 57) then Some (n + 4)
  else if n =? 45 then Some 62 else if n =? 95 then Some 63 else None.

(** [EncodeToString]: three bytes are four digits; one or two bytes at the end
    are two or three, without padding. *)
Fixpoint EncodeToString (s : string) : string :=
  match s with
  | EmptyString => EmptyString
  | String a EmptyString =>
      let x := byteOf a in
      String (digit (x / 4)) (String (digit (x mod 4 * 16)) EmptyString)
  | String a (String b EmptyString) =>
      let x := byteOf a in let y := byteOf b in
      String (digit (x / 4)) (String (digit (x mod 4 * 16 + y / 16))
        (String (digit (y mod 16 * 4)) EmptyString))
  | String a (String b (String c s')) =>
      let x := byteOf a in let y := byteOf b in let z := byteOf c in
      String (digit (x / 4)) (String (digit (x mod 4 * 16 + y / 16))
        (String (digit (y mod 16 * 4 + z / 64)) (String (digit (z mod 64)) (EncodeToString s'))))
  end.

(** The decoder skips line breaks ... *)
Fixpoint skipBreaks (s : string) : string :=
  match s with
  | EmptyString => EmptyString
  | String a s' => if (byteOf a =? 10) || (byteOf a =? 13) then skipBreaks s' else String a (skipBreaks s')
  end.

(** ... and reads four digits at a time; the rest is none, two or three, whose
    last bits are not looked at. *)
Fixpoint decodeGroups (s : string) : option string :=
  match s with
  | EmptyString => Some EmptyString
  | String _ EmptyString => None
  | String a (String b EmptyString) =>
      p ← undigit a; q ← undigit b;
      Some (String (ofByte (p * 4 + q / 16)) EmptyString)
  | String a (String b (String c EmptyString)) =>
      p ← undigit a; q ← undigit b; r ← undigit c;
      Some (String (ofByte (p * 4 + q / 16)) (String (ofByte (q mod 16 * 16 + r / 4)) EmptyString))
  | String a (String b (String c (String d s'))) =>
      p ← undigit a; q ← undigit b; r ← undigit c; t ← undigit d; rest ← decodeGroups s';
      Some (String (ofByte (p * 4 + q / 16)) (String (ofByte (q mod 16 * 16 + r / 4))
             (String (ofByte (r mod 4 * 64 + t)) rest)))
  end.

Definition DecodeString (s : string) : option string := decodeGroups (skipBreaks s).

(** ** Round trip *)

Lemma byteOf_range a : 0 <= byteOf a < 256.
Proof. unfold byteOf. pose proof (Ascii.nat_ascii_bounded a). lia. Qed.

Lemma ofByte_byteOf a : ofByte (byteOf a) = a.
Proof. unfold ofByte, byteOf. rewrite Nat2Z.id. apply Ascii.ascii_nat_embedding. Qed.

Lemma byteOf_ofByte z : 0 <= z < 256 → byteOf (ofByte z) = z.
Proof. intros Hz. unfold byteOf, ofByte. rewrite Ascii.nat_ascii_embedding; lia. Qed.

(** What is needed of the 64 digits is checked by going through them. *)
Definition digitOk (d : Z) : bool :=
  match undigit (digit d) with Some d' => d' =? d | None => false end
  && negb ((byteOf (digit d) =? 10) || (byteOf (digit d) =? 13)).

Lemma digits_ok : forallb digitOk (seqZ 0 64) = true.
Proof. vm_compute. reflexivity. Qed.

Lemma digit_ok d : 0 <= d < 64 → undigit (digit d) = Some d ∧ (byteOf (digit d) =? 10) || (byteOf (digit d) =? 13) = false.
Proof.
  intros Hd. pose proof digits_ok as Hall. rewrite forallb_forall in Hall.
  assert (digitOk d = true) as Hok by (apply Hall, list_elem_of_In, elem_of_seqZ; lia).
  unfold digitOk in Hok. apply andb_true_iff in Hok as [H1 H2]. apply negb_true_iff in H2.
  destruct (undigit (digit d)); [|done]. apply Z.eqb_eq in H1 as ->. done.
Qed.

Lemma skip_digit d s : 0 <= d < 64 → skipBreaks (String (digit d) s) = String (digit d) (skipBreaks s).
Proof. intros Hd. cbn [skipBreaks]. by rewrite (proj2 (digit_ok d Hd)). Qed.

Lemma undigit_digit d : 0 <= d < 64 → undigit (digit d) = Some d.
Proof. intros Hd. apply (digit_ok d Hd). Qed.

(** The groups of bits fit in a digit, and put the bytes together again. *)
Lemma group_ranges x y z : 0 <= x < 256 → 0 <= y < 256 → 0 <= z < 256 →
  0 <= x / 4 < 64 ∧ 0 <= x mod 4 * 16 < 64 ∧ 0 <= x mod 4 * 16 + y / 16 < 64 ∧
  0 <= y mod 16 * 4 < 64 ∧ 0 <= y mod 16 * 4 + z / 64 < 64 ∧ 0 <= z mod 64 < 64.
Proof. intros. Z.to_euclidean_division_equations. lia. Qed.

Lemma group_first x y : 0 <= y < 256 → x / 4 * 4 + (x mod 4 * 16 + y / 16) / 16 = x.
Proof. intros. Z.to_euclidean_division_equations. lia. Qed.

Lemma group_first_end x : x / 4 * 4 + x mod 4 * 16 / 16 = x.
Proof. Z.to_euclidean_division_equations. lia. Qed.

Lemma group_second x y z : 0 <= y < 256 → 0 <= z < 256 →
  (x mod 4 * 16 + y / 16) mod 16 * 16 + (y mod 16 * 4 + z / 64) / 4 = y.
Proof. intros. Z.to_euclidean_division_equations. lia. Qed.

Lemma group_second_end x y : 0 <= y < 256 →
  (x mod 4 * 16 + y / 16) mod 16 * 16 + y mod 16 * 4 / 4 = y.
Proof. intros. Z.to_euclidean_division_equations. lia. Qed.

Lemma group_third y z : 0 <= z < 256 → (y mod 16 * 4 + z / 64) mod 4 * 64 + z mod 64 = z.
Proof. intros. Z.to_euclidean_division_equations. lia. Qed.

(** Induction in steps of three characters. *)
Lemma string_ind3 (P : string → Prop) :
  P EmptyString → (∀ a, P (String a EmptyString)) → (∀ a b, P (String a (String b EmptyString))) →
  (∀ a b c s, P s → P (String a (String b (String c s)))) → ∀ s, P s.
Proof.
  intros H0 H1 H2 H3. fix IH 1. intros [|a [|b [|c s]]]; [apply H0|apply H1|apply H2|].
  apply H3, IH.
Qed.

Lemma DecodeString_EncodeToString s : DecodeString (EncodeToString s) = Some s.
Proof.
  unfold DecodeString. induction s as [|a|a b|a b c s IH] using string_ind3; [done|..]; cbn [EncodeToString];
    pose proof (byteOf_range a) as Ha; try pose proof (byteOf_range b) as Hb; try pose proof (byteOf_range c) as Hc.
  - destruct (group_ranges _ _ _ Ha Ha Ha) as (? & ? & _). rewrite !skip_digit by done.
    cbn [skipBreaks decodeGroups]. rewrite !undigit_digit by done. simpl.
    by rewrite group_first_end, ofByte_byteOf.
  - destruct (group_ranges _ _ _ Ha Hb Ha) as (? & _ & ? & ? & _). rewrite !skip_digit by done.
    cbn [skipBreaks decodeGroups]. rewrite !undigit_digit by done. simpl.
    by rewrite group_first, group_second_end, !ofByte_byteOf.
  - destruct (group_ranges _ _ _ Ha Hb Hc) as (? & _ & ? & _ & ? & ?). rewrite !skip_digit by done.
    cbn [decodeGroups]. rewrite !undigit_digit by done. simpl.
    by rewrite IH, group_first, group_second, group_third, !ofByte_byteOf.
Qed.

(** Every character of an encoding is a letter, a digit, [-] or [_]. *)
Fixpoint allChars (p : Ascii.ascii → bool) (s : string) : bool :=
  match s with EmptyString => true | String a s' => p a && allChars p s' end.

Definition urlSafe (a : Ascii.ascii) : bool := match undigit a with Some _ => true | None => false end.

Lemma EncodeToString_urlSafe s : allChars urlSafe (EncodeToString s) = true.
Proof.
  assert (∀ d, 0 <= d < 64 → urlSafe (digit d) = true) as Hd by (intros d ?; unfold urlSafe; by rewrite undigit_digit).
  induction s as [|a|a b|a b c s IH] using string_ind3; [done|..]; cbn [EncodeToString allChars];
    pose proof (byteOf_range a) as Ha; try pose proof (byteOf_range b) as Hb; try pose proof (byteOf_range c) as Hc.
  - destruct (group_ranges _ _ _ Ha Ha Ha) as (? & ? & _). by rewrite !Hd.
  - destruct (group_ranges _ _ _ Ha Hb Ha) as (? & _ & ? & ? & _). by rewrite !Hd.
  - destruct (group_ranges _ _ _ Ha Hb Hc) as (? & _ & ? & _ & ? & ?). by rewrite !Hd, IH.
Qed.

Lemma string_ind4 (P : string → Prop) :
  P EmptyString → (∀ a, P (String a EmptyString)) → (∀ a b, P (String a (String b EmptyString))) →
  (∀ a b c, P (String a (String b (String c EmptyString)))) →
  (∀ a b c d s, P s → P (String a (String b (String c (String d s))))) → ∀ s, P s.
Proof.
  intros H0 H1 H2 H3 H4. fix IH 1. intros [|a [|b [|c [|d s]]]]; [apply H0|apply H1|apply H2|apply H3|].
  apply H4, IH.
Qed.

Lemma undigit_urlSafe a : is_Some (undigit a) ↔ urlSafe a = true.
Proof. unfold urlSafe. destruct (undigit a); split; intros H; try done; by destruct H. Qed.

Lemma decodeGroups_domain s :
  is_Some (decodeGroups s) ↔ allChars urlSafe s = true ∧ (String.length s mod 4 ≠ 1)%nat.
Proof.
  assert (∀ {A B} (o : option A) (f : A → option B),
    is_Some (o ≫= f) ↔ ∃ x, o = Some x ∧ is_Some (f x)) as Hbind.
  { intros A B o f. destruct o as [x|]; simpl; [naive_solver|]. split; [by intros []|by intros (? & ? & _)]. }
  induction s as [|a|a b|a b c|a b c d s IH] using string_ind4; cbn [decodeGroups allChars String.length].
  - split; [done|]. by eauto.
  - split; [by intros []|]. intros [_ []]. done.
  - rewrite !andb_true_iff, <-!undigit_urlSafe. setoid_rewrite Hbind. setoid_rewrite Hbind. split.
    + intros (x & Hx & y & Hy & _). rewrite Hx, Hy. done.
    + intros ([[x Hx] [[y Hy] _]] & _). eauto 10.
  - rewrite !andb_true_iff, <-!undigit_urlSafe. repeat setoid_rewrite Hbind. split.
    + intros (x & Hx & y & Hy & z & Hz & _). rewrite Hx, Hy, Hz. done.
    + intros ([[x Hx] [[y Hy] [[z Hz] _]]] & _). eauto 10.
  - assert ((S (S (S (S (String.length s)))) mod 4 = String.length s mod 4)%nat) as ->.
    { replace (S (S (S (S (String.length s)))))%nat with (String.length s + 1 * 4)%nat by lia.
      apply Nat.Div0.mod_add. }
    rewrite !andb_true_iff, <-!undigit_urlSafe. repeat setoid_rewrite Hbind. split.
    + intros (x & Hx & y & Hy & z & Hz & t & Ht & r & Hr & _). rewrite Hx, Hy, Hz, Ht.
      destruct IH as [IH _]. destruct IH; [by eauto|]. by eauto 10.
    + intros ([[x Hx] [[y Hy] [[z Hz] [[t Ht] Hs]]]] & Hl). destruct IH as [_ IH].
      destruct IH as [r Hr]; [done|]. eauto 20.
Qed.

(** ** Cursors *)

(** pagination/cursor.go. *)
Definition EncodeCursor (val : string) : string := EncodeToString val.
Definition DecodeCursor (cursor : string) : option string := DecodeString cursor.
