(* ===== verification/Utf8.v ===== *)
(** Go's conversions between strings, which are bytes, and slices of runes. *)
From S2P Require Import Prelude Base64.

(** The bytes of a string as numbers. *)
Definition bytesOf (s : string) : list Z := byteOf <$> String.list_ascii_of_string s.
Definition ofBytes (l : list Z) : string := String.string_of_list_ascii (ofByte <$> l).

Definition RuneError : Z := 65533.
Definition MaxRune : Z := 1114111.

(** The scalar values: no surrogates. *)
Definition validRune (r : Z) : bool :=
  (0 <=? r) && (r <=? MaxRune) && negb ((55296 <=? r) && (r <=? 57343)).

Definition cont (b : Z) : bool := (128 <=? b) && (b <=? 191).

(** The runes of sequences of two, three and four bytes. *)
Definition rune2 (a b : Z) : Z := a mod 32 * 64 + b mod 64.
Definition rune3 (a b c : Z) : Z := a mod 16 * 4096 + b mod 64 * 64 + c mod 64.
Definition rune4 (a b c d : Z) : Z := a mod 8 * 262144 + b mod 64 * 4096 + c mod 64 * 64 + d mod 64.

Definition is2 (a b : Z) : bool := (192 <=? a) && (a <? 224) && cont b && (127 <? rune2 a b).
Definition is3 (a b c : Z) : bool :=
  (224 <=? a) && (a <? 240) && cont b && cont c && (2047 <? rune3 a b c) &&
  negb ((55296 <=? rune3 a b c) && (rune3 a b c <=? 57343)).
Definition is4 (a b c d : Z) : bool :=
  (240 <=? a) && (a <? 248) && cont b && cont c && cont d && (65535 <? rune4 a b c d) && (rune4 a b c d <=? MaxRune).

(** [[]rune(s)]: a byte that starts no valid sequence is one [RuneError]. *)
Fixpoint runes (l : list Z) : list Z :=
  match l with
  | [] => []
  | a :: l1 =>
      if a <? 128 then a :: runes l1
      else
        match l1 with
        | [] => RuneError :: runes l1
        | b :: l2 =>
            if is2 a b then rune2 a b :: runes l2
            else
              match l2 with
              | [] => RuneError :: runes l1
              | c :: l3 =>
                  if is3 a b c then rune3 a b c :: runes l3
                  else
                    match l3 with
                    | [] => RuneError :: runes l1
                    | d :: l4 => if is4 a b c d then rune4 a b c d :: runes l4 else RuneError :: runes l1
                    end
              end
        end
  end.

(** [string(rs)]: an invalid rune is encoded as [RuneError]. *)
Definition encodeRune (r0 : Z) : list Z :=
  let r := if validRune r0 then r0 else RuneError in
  if r <=? 127 then [r]
  else if r <=? 2047 then [192 + r / 64; 128 + r mod 64]
  else if r <=? 65535 then [224 + r / 4096; 128 + r / 64 mod 64; 128 + r mod 64]
  else [240 + r / 262144; 128 + r / 4096 mod 64; 128 + r / 64 mod 64; 128 + r mod 64].

Definition encode (rs : list Z) : list Z := rs ≫= encodeRune.

Definition runesOf (s : string) : list Z := runes (bytesOf s).
Definition ofRunes (rs : list Z) : string := ofBytes (encode rs).

(** ** Bytes *)

Definition isByte (b : Z) : Prop := 0 <= b < 256.

Lemma bytesOf_range s : Forall isByte (bytesOf s).
Proof.
  unfold bytesOf. apply Forall_fmap, Forall_true. intros a. apply byteOf_range.
Qed.

Lemma ofBytes_bytesOf s : ofBytes (bytesOf s) = s.
Proof.
  unfold ofBytes, bytesOf. rewrite <-list_fmap_compose.
  rewrite (list_fmap_ext _ id); [|intros i a _; apply ofByte_byteOf].
  rewrite list_fmap_id. apply String.string_of_list_ascii_of_string.
Qed.

Lemma bytesOf_ofBytes l : Forall isByte l → bytesOf (ofBytes l) = l.
Proof.
  intros Hl. unfold ofBytes, bytesOf. rewrite String.list_ascii_of_string_of_list_ascii, <-list_fmap_compose.
  induction Hl as [|b l Hb Hl IH]; [done|]. rewrite fmap_cons, IH. cbn. by rewrite byteOf_ofByte.
Qed.

Lemma bytesOf_app s t : bytesOf (s +:+ t) = bytesOf s ++ bytesOf t.
Proof.
  unfold bytesOf. induction s as [|a s IH]; [done|]. change ((String a s) +:+ t) with (String a (s +:+ t)).
  cbn [String.list_ascii_of_string]. rewrite fmap_cons, IH. done.
Qed.

Lemma bytesOf_inj s t : bytesOf s = bytesOf t → s = t.
Proof. intros E. by rewrite <-(ofBytes_bytesOf s), E, ofBytes_bytesOf. Qed.

Lemma ofBytes_app l1 l2 : ofBytes (l1 ++ l2) = ofBytes l1 +:+ ofBytes l2.
Proof.
  unfold ofBytes. rewrite fmap_app. induction l1 as [|b l1 IH]; [done|].
  cbn. by rewrite IH.
Qed.

(** ** Round trips *)

Lemma validRune_spec r : validRune r = true ↔ 0 <= r <= MaxRune ∧ ¬ (55296 <= r <= 57343).
Proof. unfold validRune. rewrite !andb_true_iff, negb_true_iff, andb_false_iff, !Z.leb_le, !Z.leb_gt. lia. Qed.

Lemma cont_spec b : cont b = true ↔ 128 <= b <= 191.
Proof. unfold cont. rewrite andb_true_iff, !Z.leb_le. lia. Qed.

(** The sequences of the encoder are recognised, and give the rune back. *)
Lemma encode2 r : 128 <= r <= 2047 →
  let a := 192 + r / 64 in let b := 128 + r mod 64 in
  rune2 a b = r ∧ is2 a b = true ∧ 128 <= a.
Proof.
  intros Hr a b. assert (rune2 a b = r) as E.
  { unfold rune2, a, b. Z.to_euclidean_division_equations. lia. }
  split_and!; [done| |unfold a; Z.to_euclidean_division_equations; lia].
  unfold is2, cont. rewrite E, !andb_true_iff, !Z.leb_le, !Z.ltb_lt.
  unfold a, b. Z.to_euclidean_division_equations. lia.
Qed.

Lemma encode3 r : 2048 <= r <= 65535 → ¬ (55296 <= r <= 57343) →
  let a := 224 + r / 4096 in let b := 128 + r / 64 mod 64 in let c := 128 + r mod 64 in
  rune3 a b c = r ∧ is2 a b = false ∧ is3 a b c = true ∧ 128 <= a.
Proof.
  intros Hr Hs a b c. assert (rune3 a b c = r) as E.
  { unfold rune3, a, b, c. Z.to_euclidean_division_equations. lia. }
  assert (224 <= a < 240) as Ha by (unfold a; Z.to_euclidean_division_equations; lia).
  split_and!; [done| | |lia].
  - unfold is2. by rewrite (proj2 (Z.ltb_ge a 224)), andb_false_r by lia.
  - unfold is3, cont. rewrite E, !andb_true_iff, negb_true_iff, andb_false_iff, !Z.leb_le, !Z.leb_gt, !Z.ltb_lt.
    unfold b, c. Z.to_euclidean_division_equations. lia.
Qed.

Lemma encode4 r : 65536 <= r <= MaxRune →
  let a := 240 + r / 262144 in let b := 128 + r / 4096 mod 64 in
  let c := 128 + r / 64 mod 64 in let d := 128 + r mod 64 in
  rune4 a b c d = r ∧ is2 a b = false ∧ is3 a b c = false ∧ is4 a b c d = true ∧ 128 <= a.
Proof.
  intros Hr a b c d. unfold MaxRune in Hr. assert (rune4 a b c d = r) as E.
  { unfold rune4, a, b, c, d. Z.to_euclidean_division_equations. lia. }
  assert (240 <= a < 248) as Ha by (unfold a; Z.to_euclidean_division_equations; lia).
  split_and!; [done| | | |lia].
  - unfold is2. by rewrite (proj2 (Z.ltb_ge a 224)), andb_false_r by lia.
  - unfold is3. by rewrite (proj2 (Z.ltb_ge a 240)), andb_false_r by lia.
  - unfold is4, cont, MaxRune. rewrite E, !andb_true_iff, !Z.leb_le, !Z.ltb_lt.
    unfold b, c, d. Z.to_euclidean_division_equations. lia.
Qed.

Lemma runes_encodeRune r l : validRune r = true → runes (encodeRune r ++ l) = r :: runes l.
Proof.
  intros Hv. unfold encodeRune. rewrite Hv. apply validRune_spec in Hv as [Hr Hs].
  destruct (Z.leb_spec r 127); [cbn; by rewrite (proj2 (Z.ltb_lt r 128)) by lia|].
  destruct (Z.leb_spec r 2047).
  { destruct (encode2 r) as (E & H2 & Ha); [lia|]. cbn [app runes].
    by rewrite (proj2 (Z.ltb_ge _ 128)), H2, E by lia. }
  destruct (Z.leb_spec r 65535).
  - destruct (encode3 r) as (E & H2 & H3 & Ha); [lia..|]. cbn [app runes].
    by rewrite (proj2 (Z.ltb_ge _ 128)), H2, H3, E by lia.
  - destruct (encode4 r) as (E & H2 & H3 & H4 & Ha); [lia..|]. cbn [app runes].
    by rewrite (proj2 (Z.ltb_ge _ 128)), H2, H3, H4, E by lia.
Qed.

Lemma runes_encode rs l : Forall (λ r, validRune r = true) rs → runes (encode rs ++ l) = rs ++ runes l.
Proof.
  intros Hrs. induction Hrs as [|r rs Hr Hrs IH]; [done|].
  unfold encode. rewrite bind_cons. rewrite <-app_assoc, runes_encodeRune by done. cbn. by rewrite <-IH.
Qed.

(** Decoding makes valid runes of any bytes. *)
Lemma rune_ranges a b c d :
  0 <= rune2 a b ∧ rune2 a b <= 2047 ∧ 0 <= rune3 a b c <= 65535 ∧ 0 <= rune4 a b c d.
Proof.
  unfold rune2, rune3, rune4.
  pose proof (Z.mod_pos_bound a 32). pose proof (Z.mod_pos_bound a 16). pose proof (Z.mod_pos_bound a 8).
  pose proof (Z.mod_pos_bound b 64). pose proof (Z.mod_pos_bound c 64). pose proof (Z.mod_pos_bound d 64). lia.
Qed.

Lemma runes_valid n : ∀ l, (length l <= n)%nat → Forall isByte l → Forall (λ r, validRune r = true) (runes l).
Proof.
  induction n as [|n IH]; intros [|a l] Hn Hl; try done; [simpl in Hn; lia|].
  apply Forall_cons in Hl as [Ha Hl]. cbn [length] in Hn.
  assert (Herr : Forall (λ r, validRune r = true) (RuneError :: runes l)) by (constructor; [done|apply IH; [lia|done]]).
  cbn [runes]. destruct (Z.ltb_spec a 128).
  { constructor; [|apply IH; [lia|done]]. apply validRune_spec. unfold isByte, MaxRune in *. lia. }
  destruct l as [|b l2]; [done|]. destruct (is2 a b) eqn:E2.
  { apply Forall_cons in Hl as [_ Hl]. cbn in Hn. constructor; [|apply IH; [lia|done]].
    destruct (rune_ranges a b 0 0). apply validRune_spec. unfold MaxRune. lia. }
  destruct l2 as [|c l3]; [done|]. destruct (is3 a b c) eqn:E3.
  { apply Forall_cons in Hl as [_ Hl]. apply Forall_cons in Hl as [_ Hl]. cbn in Hn.
    constructor; [|apply IH; [lia|done]]. destruct (rune_ranges a b c 0) as (_ & _ & ? & _).
    unfold is3 in E3. bool_to_prop. apply validRune_spec. unfold MaxRune. lia. }
  destruct l3 as [|d l4]; [done|]. destruct (is4 a b c d) eqn:E4; [|done].
  do 3 apply Forall_cons in Hl as [_ Hl]. cbn in Hn. constructor; [|apply IH; [lia|done]].
  destruct (rune_ranges a b c d) as (_ & _ & _ & ?).
  unfold is4 in E4. bool_to_prop. apply validRune_spec. lia.
Qed.

Lemma runesOf_valid s : Forall (λ r, validRune r = true) (runesOf s).
Proof. apply (runes_valid (length (bytesOf s))); [done|apply bytesOf_range]. Qed.

Lemma encodeRune_bytes r : Forall isByte (encodeRune r).
Proof.
  unfold encodeRune. set (r' := if validRune r then r else RuneError).
  assert (0 <= r' <= MaxRune) as Hr.
  { unfold r'. destruct (validRune r) eqn:E; [apply validRune_spec in E; lia|unfold RuneError, MaxRune; lia]. }
  clearbody r'. unfold MaxRune in Hr. cbv zeta.
  destruct (Z.leb_spec r' 127); [|destruct (Z.leb_spec r' 2047); [|destruct (Z.leb_spec r' 65535)]];
    repeat constructor; unfold isByte; Z.to_euclidean_division_equations; lia.
Qed.

Lemma encode_bytes rs : Forall isByte (encode rs).
Proof.
  unfold encode. induction rs as [|r rs IH]; [done|]. rewrite bind_cons. apply Forall_app.
  split; [apply encodeRune_bytes|done].
Qed.

(** The runes of a string that was made from valid ones, and of a longer one. *)
Lemma runesOf_ofRunes rs : Forall (λ r, validRune r = true) rs → runesOf (ofRunes rs) = rs.
Proof.
  intros Hrs. unfold runesOf, ofRunes. rewrite bytesOf_ofBytes by apply encode_bytes.
  rewrite <-(app_nil_r (encode rs)), runes_encode by done. apply app_nil_r.
Qed.

Lemma runesOf_ofRunes_app rs s :
  Forall (λ r, validRune r = true) rs → runesOf (ofRunes rs +:+ s) = rs ++ runesOf s.
Proof.
  intros Hrs. unfold runesOf, ofRunes. rewrite bytesOf_app, bytesOf_ofBytes by apply encode_bytes.
  by apply runes_encode.
Qed.

(** A string is valid UTF-8 when it is the encoding of some runes. *)
Definition ValidString (s : string) : Prop := ofRunes (runesOf s) = s.

Lemma ValidString_iff s : ValidString s ↔ ∃ rs, Forall (λ r, validRune r = true) rs ∧ s = ofRunes rs.
Proof.
  split.
  - intros E. exists (runesOf s). split; [apply runesOf_valid|done].
  - intros (rs & Hrs & ->). unfold ValidString. by rewrite runesOf_ofRunes.
Qed.
