(* ===== verification/StringUtil.v ===== *)
(** String helpers (stringutil/stringutil.go) and temporary passwords
    (cryptoutil/cryptoutil.go): truncation and masking by runes, and random
    strings drawn by the rejection sampling of crypto/rand. *)
From S2P Require Import Prelude Text Base64 Utf8.

(** ** Runes *)

Definition OrDefault (s defaultVal : string) : string := if bool_decide (s = "") then defaultVal else s.

Definition runeCount (rs : list Z) : Z := Z.of_nat (length rs).

Definition Truncate (s : string) (n : Z) : string :=
  if n <=? 0 then ""
  else
    let rs := runesOf s in
    if runeCount rs <=? n then s else ofRunes (take (Z.to_nat n) rs).

(** [strings.Repeat("*", n)]. *)
Definition star : Z := 42.
Definition stars (n : Z) : string := ofRunes (replicate (Z.to_nat n) star).

Definition atSign : Ascii.ascii := ofByte 64.

Definition MaskEmail (email : string) : string :=
  match cutLast atSign email with
  | None => "**@**"
  | Some (local, domain) =>
      if bool_decide (local = "") then "**@**"
      else
        let rs := runesOf local in
        let visible := if runeCount rs <? 2 then runeCount rs else 2 in
        ofRunes (take (Z.to_nat visible) rs) +:+ stars (runeCount rs - visible) +:+ String atSign domain
  end.

Definition plus : Z := 43.

(** The last four runes. *)
Definition last4 (rs : list Z) : list Z := drop (length rs - 4) rs.

Definition MaskPhone (phone : string) : string :=
  let rs := runesOf phone in
  if runeCount rs <? 4 then "****"
  else
    if bool_decide (head rs = Some plus) then
      if runeCount rs <? 5 then "****"
      else "+" +:+ stars (runeCount rs - 5) +:+ ofRunes (last4 rs)
    else stars (runeCount rs - 4) +:+ ofRunes (last4 rs).

Definition TrimAndLower (s : string) : string := ToLower (TrimSpace s).
Definition IsBlank (s : string) : bool := bool_decide (TrimSpace s = "").

Fixpoint ContainsAny (s : string) (subs : list string) : bool :=
  match subs with
  | [] => false
  | sub :: subs' => if Contains s sub then true else ContainsAny s subs'
  end.

(** ** Random strings *)

(** A reader: the bytes it still delivers before it fails. *)
Definition Reader := list Z.

(** [io.ReadFull] of [k] bytes: an error when fewer are left. *)
Definition ReadFull (k : nat) (r : Reader) : option (list Z * Reader) :=
  if (k <=? length r)%nat then Some (take k r, drop k r) else None.

Definition BitLen (n : Z) : Z := if n <=? 0 then 0 else Z.log2 n + 1.

(** [SetBytes]: big-endian. *)
Definition SetBytes (bs : list Z) : Z := foldl (λ acc b, acc * 256 + b) 0 bs.

(** [bytes[0] &= uint8(int(1<<b) - 1)]. *)
Definition maskFirst (b : Z) (bs : list Z) : list Z :=
  match bs with [] => [] | x :: bs' => Z.land x (Z.ones b) :: bs' end.

(** A draw: a number and the rest of the reader, an error of the reader, or no
    fuel left. *)
Inductive draw := Drawn (n : Z) (rest : Reader) | ReadError | OutOfFuel.

#[global] Instance draw_eq_dec : EqDecision draw.
Proof. solve_decision. Defined.

(** The loop of [rand.Int]. *)
Fixpoint intLoop (fuel : nat) (max : Z) (k : nat) (b : Z) (r : Reader) : draw :=
  match fuel with
  | O => OutOfFuel
  | S fuel' =>
      match ReadFull k r with
      | None => ReadError
      | Some (bs, rest) =>
          let n := SetBytes (maskFirst b bs) in
          if n <? max then Drawn n rest else intLoop fuel' max k b rest
      end
  end.

(** The bytes a draw reads, and the bits it keeps of the first one. *)
Definition drawBytes (max : Z) : nat := Z.to_nat ((BitLen (max - 1) + 7) / 8).
Definition drawBits (max : Z) : Z := let b := BitLen (max - 1) mod 8 in if b =? 0 then 8 else b.

(** [rand.Int]. A round reads at least one byte, so a round for every byte and
    one more are enough. *)
Definition Int (r : Reader) (max : Z) : draw :=
  if BitLen (max - 1) =? 0 then Drawn 0 r
  else intLoop (S (length r)) max (drawBytes max) (drawBits max) r.

(** What [RandomStringFromReader] does: a string, one of its errors, or a panic
    ([make] of a negative length). *)
Inductive randomResult := RandomString (s : string) (rest : Reader) | EmptyCharset | ReaderFailed | NegativeLength | NoFuel.

(** The loop over the positions; [acc] has the bytes drawn so far. *)
Fixpoint passwordLoop (n : nat) (charset : string) (acc : list Z) (r : Reader) : randomResult :=
  match n with
  | O => RandomString (ofBytes acc) r
  | S n' =>
      match Int r (Z.of_nat (String.length charset)) with
      | ReadError => ReaderFailed
      | OutOfFuel => NoFuel
      | Drawn i rest => passwordLoop n' charset (acc ++ [nth (Z.to_nat i) (bytesOf charset) 0]) rest
      end
  end.

Definition RandomStringFromReader (r : Reader) (length : Z) (charset : string) : randomResult :=
  if bool_decide (charset = "") then EmptyCharset
  else if length <? 0 then NegativeLength
  else passwordLoop (Z.to_nat length) charset [] r.

Definition alphanumeric : string := "abcdefghijklmnopqrstuvwxyzABCDEFGHIJKLMNOPQRSTUVWXYZ0123456789".
Definition RandomSecureString (r : Reader) (length : Z) : randomResult :=
  RandomStringFromReader r length (alphanumeric +:+ "!@#$").
Definition RandomAlphanumeric (r : Reader) (length : Z) : randomResult :=
  RandomStringFromReader r length alphanumeric.

(** ** cryptoutil *)

Definition passwordChars : string :=
  "ABCDEFGHJKLMNPQRSTUVWXYZ" +:+ "abcdefghijkmnpqrstuvwxyz" +:+ "23456789" +:+ "!@#$%^&*".

(** [GenerateTempPassword]; [None] is [ErrPasswordTooShort]. *)
Definition GenerateTempPassword (r : Reader) (length : Z) : option randomResult :=
  if length <? 8 then None else Some (RandomStringFromReader r length passwordChars).

Definition ErrInvalidHash : error := ErrNew "cryptoutil: invalid password hash".

(** bcrypt's [CompareHashAndPassword] (its error), and its mismatch error. *)
Section bcrypt.
Context (CompareHashAndPassword : string → string → option error) (ErrMismatched : error).

Definition ComparePassword (hash password : string) : option error :=
  match CompareHashAndPassword hash password with
  | None => None
  | Some err => if errors_Is err ErrMismatched then Some err else Some (ErrJoin ErrInvalidHash err)
  end.

Definition IsCorrectPassword (hash password : string) : bool := bool_decide (ComparePassword hash password = None).

(** [HashPassword] over bcrypt's [GenerateFromPassword]. *)
Context (GenerateFromPassword : string → Z → string + error).
Definition BcryptCost : Z := 12.
Definition HashPassword (password : string) : string + error := GenerateFromPassword password BcryptCost.

(** What bcrypt documents: a hash compares equal to its own password, and to
    another one it reports the mismatch. *)
Hypothesis compare_hash : ∀ p h cost, GenerateFromPassword p cost = inl h →
  ∀ p', CompareHashAndPassword h p' = None ∨ CompareHashAndPassword h p' = Some ErrMismatched.
Hypothesis compare_own : ∀ p h cost, GenerateFromPassword p cost = inl h → CompareHashAndPassword h p = None.

(** A hash made by [HashPassword] is accepted for its password, and a wrong
    password is told from a damaged hash. *)
Lemma password_accepted p h : HashPassword p = inl h →
  IsCorrectPassword h p = true ∧ ∀ p', ComparePassword h p' = None ∨ ComparePassword h p' = Some ErrMismatched.
Proof.
  intros Hh. unfold IsCorrectPassword, ComparePassword. rewrite (compare_own _ _ _ Hh). split; [done|].
  intros p'. destruct (compare_hash _ _ _ Hh p') as [->| ->]; [by left|right].
  destruct (errors_Is ErrMismatched ErrMismatched) eqn:E; [done|]. destruct ErrMismatched; cbn in E; by rewrite bool_decide_true in E.
Qed.
End bcrypt.

(** ** Truncation and masks *)

Lemma take_valid n s : Forall (λ r, validRune r = true) (take n (runesOf s)).
Proof. apply Forall_take, runesOf_valid. Qed.

Lemma stars_valid n : Forall (λ r, validRune r = true) (replicate n star).
Proof. by apply Forall_replicate. Qed.

(** The runes of runes, stars and a rest. *)
Lemma masked_runes rs n t :
  Forall (λ r, validRune r = true) rs →
  runesOf (ofRunes rs +:+ stars n +:+ t) = rs ++ replicate (Z.to_nat n) star ++ runesOf t.
Proof. intros Hrs. unfold stars. by rewrite !runesOf_ofRunes_app by (done || apply stars_valid). Qed.

Lemma ofRunes_app rs1 rs2 : ofRunes (rs1 ++ rs2) = ofRunes rs1 +:+ ofRunes rs2.
Proof. unfold ofRunes, encode. rewrite bind_app. apply ofBytes_app. Qed.

Lemma Truncate_runes s n : runesOf (Truncate s n) = take (Z.to_nat n) (runesOf s).
Proof.
  unfold Truncate, runeCount. destruct (Z.leb_spec n 0); [by replace (Z.to_nat n) with 0%nat by lia|].
  cbv zeta. destruct (Z.leb_spec (Z.of_nat (length (runesOf s))) n).
  - by rewrite take_ge by lia.
  - by rewrite runesOf_ofRunes by apply take_valid.
Qed.

Lemma Truncate_valid s n : ValidString s → ValidString (Truncate s n) ∧ ∃ t, s = Truncate s n +:+ t.
Proof.
  intros Hs. split.
  - unfold Truncate. destruct (n <=? 0); [done|]. cbv zeta. destruct (_ <=? n); [done|].
    unfold ValidString. by rewrite runesOf_ofRunes by apply take_valid.
  - unfold Truncate. destruct (n <=? 0); [by exists s|]. cbv zeta. destruct (_ <=? n).
    + exists "". by rewrite append_empty_r.
    + exists (ofRunes (drop (Z.to_nat n) (runesOf s))). by rewrite <-ofRunes_app, take_drop.
Qed.

(** The mask of an address: two runes of the local part, a star for each of the
    others, and the domain. *)
Lemma MaskEmail_runes email local domain :
  cutLast atSign email = Some (local, domain) → local ≠ "" →
  let rs := runesOf local in
  MaskEmail email = ofRunes (take 2 rs) +:+ stars (runeCount rs - 2) +:+ String atSign domain.
Proof.
  intros E Hl. cbv zeta. unfold MaskEmail. rewrite E, bool_decide_false by done. cbv zeta.
  destruct (Z.ltb_spec (runeCount (runesOf local)) 2) as [H|H]; [|done].
  unfold runeCount in *. rewrite Nat2Z.id, !take_ge by lia. unfold stars.
  by replace (Z.to_nat _) with 0%nat by lia; replace (Z.to_nat (_ - 2)) with 0%nat by lia.
Qed.

Lemma cutLast_app c s l r : cutLast c s = Some (l, r) → s = l +:+ String c r.
Proof.
  revert l. induction s as [|a s IH]; intros l; cbn; [done|].
  destruct (cutLast c s) as [[l' r']|]; [|by case_bool_decide; intros [= <- <-]; subst].
  intros [= <- <-]. change (String a s = String a (l' +:+ String c r')). f_equal. by apply IH.
Qed.

Lemma last4_valid s : Forall (λ r, validRune r = true) (last4 (runesOf s)).
Proof. apply Forall_drop, runesOf_valid. Qed.

(** What is left of a phone number. *)
Definition phoneShown (rs : list Z) : list Z :=
  if (runeCount rs <? 4) || bool_decide (head rs = Some plus) && (runeCount rs <? 5) then replicate 4 star
  else if bool_decide (head rs = Some plus) then plus :: replicate (length rs - 5) star ++ last4 rs
  else replicate (length rs - 4) star ++ last4 rs.

Lemma MaskPhone_runes phone : runesOf (MaskPhone phone) = phoneShown (runesOf phone).
Proof.
  unfold MaskPhone, phoneShown. cbv zeta. pose proof (last4_valid phone) as Hv. set (rs := runesOf phone) in *.
  unfold runeCount. destruct (Z.ltb_spec (Z.of_nat (length rs)) 4); [done|]. cbn [orb].
  destruct (bool_decide (head rs = Some plus)); cbn [andb].
  - destruct (Z.ltb_spec (Z.of_nat (length rs)) 5); [done|].
    change "+" with (ofRunes [plus]). rewrite masked_runes, runesOf_ofRunes by (done || by repeat constructor).
    cbn. by replace (Z.to_nat (Z.of_nat (length rs) - 5)) with (length rs - 5)%nat by lia.
  - pose proof (masked_runes [] (Z.of_nat (length rs) - 4) (ofRunes (last4 rs)) ltac:(done)) as E.
    change (ofRunes [] +:+ ?t) with t in E. rewrite E, runesOf_ofRunes by done.
    cbn. by replace (Z.to_nat (Z.of_nat (length rs) - 4)) with (length rs - 4)%nat by lia.
Qed.

(** Truncation and masks work on runes, whatever bytes the string has.
    [Truncate] keeps the first [n] runes, and of valid UTF-8 a prefix that is
    valid again. The mask of an address has two runes of the local part, a star
    for each other one and the domain, so it depends only on those and the
    number of runes; with a local part of one or two runes nothing is masked.
    The mask of a phone number shows the last four runes, the number of the
    others and a leading plus sign, and nothing of a shorter one. *)
Lemma text_masks :
  (∀ s n, runesOf (Truncate s n) = take (Z.to_nat n) (runesOf s) ∧
     (ValidString s → ValidString (Truncate s n) ∧ ∃ t, s = Truncate s n +:+ t)) ∧
  (∀ email local domain, cutLast atSign email = Some (local, domain) → local ≠ "" →
     let rs := runesOf local in
     runesOf (MaskEmail email) = take 2 rs ++ replicate (length rs - 2) star ++ runesOf (String atSign domain) ∧
     (∀ email' local', cutLast atSign email' = Some (local', domain) → local' ≠ "" →
        take 2 (runesOf local') = take 2 rs → length (runesOf local') = length rs → MaskEmail email' = MaskEmail email) ∧
     (ValidString local → (length rs <= 2)%nat → MaskEmail email = email)) ∧
  (∀ email, (∀ local domain, cutLast atSign email = Some (local, domain) → local = "") → MaskEmail email = "**@**") ∧
  (∀ phone, runesOf (MaskPhone phone) = phoneShown (runesOf phone)) ∧
  (∀ phone phone', length (runesOf phone') = length (runesOf phone) → last4 (runesOf phone') = last4 (runesOf phone) →
     (head (runesOf phone') = Some plus ↔ head (runesOf phone) = Some plus) → MaskPhone phone' = MaskPhone phone).
Proof.
  split_and!.
  - intros s n. split; [apply Truncate_runes|apply Truncate_valid].
  - intros email local domain E Hl rs. pose proof (MaskEmail_runes _ _ _ E Hl) as Em. cbv zeta in Em. fold rs in Em.
    split_and!.
    + rewrite Em, masked_runes by apply take_valid. unfold runeCount.
      by replace (Z.to_nat (Z.of_nat (length rs) - 2)) with (length rs - 2)%nat by lia.
    + intros email' local' E' Hl' Ht Hn. rewrite Em, (MaskEmail_runes _ _ _ E' Hl'). unfold runeCount. by rewrite Ht, Hn.
    + intros Hv Hn. rewrite Em, take_ge by done. unfold stars, runeCount.
      replace (Z.to_nat _) with 0%nat by lia. unfold rs. rewrite Hv. symmetry. by apply cutLast_app.
  - intros email He. unfold MaskEmail. destruct (cutLast atSign email) as [[l d]|]; [|done].
    by rewrite (He l d eq_refl).
  - apply MaskPhone_runes.
  - intros phone phone' Hn H4 Hp. unfold MaskPhone, runeCount. rewrite Hn, H4. by rewrite (bool_decide_ext _ _ Hp).
Qed.

(** An address with an accent in the local part and a phone number. *)
Lemma text_masks_witness :
  let email := ofRunes [106; 233; 116] +:+ "@example.com" in
  cutLast atSign email = Some (ofRunes [106; 233; 116], "example.com") ∧
  runesOf (MaskEmail email) = [106; 233; 42] ++ runesOf "@example.com" ∧
  MaskPhone "+15551234567" = "+*******4567".
Proof.
  intros email. assert (E : cutLast atSign email = Some (ofRunes [106; 233; 116], "example.com")) by (vm_compute; reflexivity).
  split; [exact E|]. split; [|vm_compute; reflexivity].
  rewrite (proj1 (proj1 (proj2 text_masks) email _ _ E ltac:(vm_compute; discriminate))). vm_compute. reflexivity.
Defined.

(** ** Drawing *)

Lemma ReadFull_spec k r bs rest : ReadFull k r = Some (bs, rest) → r = bs ++ rest ∧ length bs = k.
Proof.
  unfold ReadFull. destruct (Nat.leb_spec k (length r)); [|done]. intros [= <- <-].
  split; [by rewrite take_drop|]. rewrite length_take. lia.
Qed.

Lemma SetBytes_nonneg bs : Forall isByte bs → 0 <= SetBytes bs.
Proof.
  unfold SetBytes. intros Hbs. assert (∀ acc, 0 <= acc → 0 <= foldl (λ acc b, acc * 256 + b) acc bs) as H; [|by apply H].
  induction Hbs as [|b bs Hb Hbs IH]; intros acc Hacc; [done|]. cbn. apply IH. unfold isByte in Hb. lia.
Qed.

Lemma maskFirst_bytes b bs : 0 <= b → Forall isByte bs → Forall isByte (maskFirst b bs).
Proof.
  intros Hb Hbs. destruct Hbs as [|x bs Hx Hbs]; [done|]. constructor; [|done].
  rewrite Z.land_ones by done. unfold isByte in *.
  pose proof (Z.mod_pos_bound x (2 ^ b) ltac:(lia)). pose proof (Z.mod_le x (2 ^ b) ltac:(lia) ltac:(lia)). lia.
Qed.

(** A draw that ends has a number below the bound, and reads whole rounds. *)
Lemma intLoop_spec fuel max k b r :
  (0 < k)%nat → 0 <= b → Forall isByte r → (length r < fuel)%nat →
  match intLoop fuel max k b r with
  | Drawn n rest => 0 <= n < max ∧ rest `suffix_of` r
  | ReadError => True
  | OutOfFuel => False
  end.
Proof.
  intros Hk Hb. revert r. induction fuel as [|fuel IH]; intros r Hr Hf; [lia|]. cbn [intLoop].
  destruct (ReadFull k r) as [[bs rest]|] eqn:E; [|done]. apply ReadFull_spec in E as [-> Hl]. cbv zeta.
  apply Forall_app in Hr as [Hbs Hrest]. rewrite length_app in Hf.
  destruct (Z.ltb_spec (SetBytes (maskFirst b bs)) max).
  - split; [|by exists bs]. pose proof (SetBytes_nonneg _ (maskFirst_bytes b bs Hb Hbs)). lia.
  - specialize (IH rest Hrest ltac:(lia)). destruct (intLoop fuel max k b rest); [|done|done].
    destruct IH as [? Hs]. split; [done|]. etrans; [exact Hs|]. by exists bs.
Qed.

Lemma drawBytes_pos max : BitLen (max - 1) ≠ 0 → (0 < drawBytes max)%nat.
Proof.
  intros H. unfold drawBytes, BitLen in *. destruct (Z.leb_spec (max - 1) 0); [done|].
  pose proof (Z.log2_nonneg (max - 1)). Z.to_euclidean_division_equations. lia.
Qed.

Lemma drawBits_range max : 1 <= drawBits max <= 8.
Proof.
  unfold drawBits. cbv zeta. pose proof (Z.mod_pos_bound (BitLen (max - 1)) 8 ltac:(lia)).
  destruct (Z.eqb_spec (BitLen (max - 1) mod 8) 0); lia.
Qed.

Lemma Int_spec r max : 0 < max → Forall isByte r →
  match Int r max with
  | Drawn n rest => 0 <= n < max ∧ rest `suffix_of` r
  | ReadError => True
  | OutOfFuel => False
  end.
Proof.
  intros Hm Hr. unfold Int. destruct (Z.eqb_spec (BitLen (max - 1)) 0); [split; [lia|done]|].
  apply intLoop_spec; [by apply drawBytes_pos|pose proof (drawBits_range max); lia|done|lia].
Qed.

Lemma length_bytesOf s : length (bytesOf s) = String.length s.
Proof. unfold bytesOf. rewrite length_fmap. induction s as [|a s IH]; cbn; [done|by rewrite IH]. Qed.

(** The loop over the positions. *)
Lemma passwordLoop_spec n charset acc r :
  charset ≠ "" → Forall isByte r → Forall (λ x, x ∈ bytesOf charset) acc →
  match passwordLoop n charset acc r with
  | RandomString s rest => length (bytesOf s) = (length acc + n)%nat ∧ Forall (λ x, x ∈ bytesOf charset) (bytesOf s) ∧ rest `suffix_of` r
  | ReaderFailed => True
  | _ => False
  end.
Proof.
  intros Hc. revert acc r. induction n as [|n IH]; intros acc r Hr Hacc; cbn [passwordLoop].
  - rewrite bytesOf_ofBytes; [split_and!; [lia|done|done]|]. eapply Forall_impl; [done|]. intros x Hx.
    pose proof (bytesOf_range charset) as Hb. by rewrite Forall_forall in Hb; apply Hb.
  - assert (0 < Z.of_nat (String.length charset)) as Hlen by (destruct charset; [done|cbn; lia]).
    pose proof (Int_spec r _ Hlen Hr) as HI. destruct (Int r _) as [i rest| |]; [|done|done].
    destruct HI as [Hi [pre ->]]. apply Forall_app in Hr as [_ Hrest].
    specialize (IH (acc ++ [nth (Z.to_nat i) (bytesOf charset) 0]) rest Hrest).
    destruct (passwordLoop n charset _ rest); try (apply IH; apply Forall_app; split; [done|]; repeat constructor);
      try (apply list_elem_of_In, nth_In; rewrite length_bytesOf; lia).
    destruct IH as (Hl & Hs & Hsuf).
    { apply Forall_app. split; [done|]. repeat constructor. apply list_elem_of_In, nth_In. rewrite length_bytesOf. lia. }
    rewrite length_app in Hl. cbn in Hl. split_and!; [lia|done|]. etrans; [exact Hsuf|]. by exists pre.
Qed.

(** ** Uniformity *)

(** In a block of residues every one occurs once. *)
Lemma count_block a d i : 0 < d → 0 <= i < d → a mod d = 0 →
  length (filter (λ x, x mod d = i) (seqZ a d)) = 1%nat.
Proof.
  intros Hd Hi Ha. assert (seqZ a d = seqZ a i ++ [a + i] ++ seqZ (a + i + 1) (d - i - 1)) as ->.
  { replace d with (i + (1 + (d - i - 1))) at 1 by lia. rewrite !seqZ_app by lia. done. }
  rewrite !filter_app.
  assert (Hmod : ∀ x, a <= x < a + d → x mod d = x - a).
  { intros x Hx. pose proof (Z.div_mod a d ltac:(lia)). symmetry. apply (Z.mod_unique _ _ (a / d)); lia. }
  rewrite (filter_none _ (seqZ a i)), (filter_none _ (seqZ _ (d - i - 1))).
  - rewrite filter_cons_True by (rewrite Hmod; lia). done.
  - intros x Hx. apply elem_of_seqZ in Hx. rewrite Hmod; lia.
  - intros x Hx. apply elem_of_seqZ in Hx. rewrite Hmod; lia.
Qed.

Lemma count_residues (m : nat) d i : 0 < d → 0 <= i < d →
  length (filter (λ x, x mod d = i) (seqZ 0 (Z.of_nat m * d))) = m.
Proof.
  intros Hd Hi. induction m as [|m IH]; [done|].
  replace (Z.of_nat (S m) * d) with (Z.of_nat m * d + d) by lia.
  rewrite seqZ_app, filter_app, length_app, IH by nia.
  rewrite count_block; [lia|done|done|]. rewrite Z.add_0_l. by apply Z.mod_mul; lia.
Qed.

(** A charset of at most 256 bytes is drawn from one byte at a time. *)
Lemma small_draw max : 2 <= max <= 256 →
  BitLen (max - 1) ≠ 0 ∧ drawBytes max = 1%nat ∧ drawBits max = BitLen (max - 1) ∧
  1 <= BitLen (max - 1) <= 8 ∧ max <= 2 ^ BitLen (max - 1).
Proof.
  intros Hm. assert (1 <= BitLen (max - 1) <= 8 ∧ max <= 2 ^ BitLen (max - 1)) as [Hb Hp].
  { unfold BitLen. rewrite (proj2 (Z.leb_gt _ _)) by lia. pose proof (Z.log2_nonneg (max - 1)).
    pose proof (Z.log2_spec (max - 1) ltac:(lia)) as [_ Hs].
    assert (Z.log2 (max - 1) <= 7).
    { change 7 with (Z.log2 255). apply Z.log2_le_mono. lia. }
    unfold Z.succ in Hs. lia. }
  split_and!; try lia.
  - unfold drawBytes. assert ((BitLen (max - 1) + 7) / 8 = 1) as ->; [|done].
    symmetry. apply (Z.div_unique _ _ _ (BitLen (max - 1) - 1)); lia.
  - unfold drawBits. cbv zeta. destruct (Z.eqb_spec (BitLen (max - 1) mod 8) 0) as [E|E].
    + Z.to_euclidean_division_equations. lia.
    + assert (BitLen (max - 1) ≠ 8) by (intros E'; by rewrite E' in E). rewrite Z.mod_small; lia.
Qed.

(** One byte: its low bits, when they are below the bound. *)
Lemma Int_byte x rest max : 2 <= max <= 256 →
  let n := x mod 2 ^ BitLen (max - 1) in
  Int (x :: rest) max = if n <? max then Drawn n rest else intLoop (S (length rest)) max 1 (BitLen (max - 1)) rest.
Proof.
  intros Hm. destruct (small_draw max Hm) as (H0 & H1 & H2 & Hb & _). unfold Int.
  rewrite (proj2 (Z.eqb_neq _ _) H0), H1, H2. cbn [intLoop length ReadFull]. unfold ReadFull. cbn [Nat.leb length].
  cbn [take drop]. cbv zeta. unfold maskFirst, SetBytes. cbn [foldl]. rewrite Z.land_ones by lia.
  by rewrite Z.mul_0_l, Z.add_0_l.
Qed.

Lemma Int_uniform max i : 2 <= max <= 256 → 0 <= i < max →
  Z.of_nat (length (filter (λ x, Int [x] max = Drawn i []) (seqZ 0 256))) = 2 ^ (8 - BitLen (max - 1)).
Proof.
  intros Hm Hi. destruct (small_draw max Hm) as (_ & _ & _ & Hb & Hp).
  set (b := BitLen (max - 1)) in *.
  rewrite (list_filter_iff _ (λ x, x mod 2 ^ b = i)).
  - replace 256 with (Z.of_nat (Z.to_nat (2 ^ (8 - b))) * 2 ^ b).
    + rewrite count_residues by lia. pose proof (Z.pow_nonneg 2 (8 - b)). lia.
    + rewrite Z2Nat.id by (apply Z.pow_nonneg; lia). rewrite <-Z.pow_add_r by lia. by replace (8 - b + b) with 8 by lia.
  - intros x. rewrite (Int_byte x [] max Hm). fold b. cbv zeta.
    destruct (Z.ltb_spec (x mod 2 ^ b) max); [naive_solver|]. cbn. split; [done|]. lia.
Qed.

(** The 64 characters of a temporary password need no rejection. *)
Definition passwordByte (x : Z) : Z := nth (Z.to_nat (x mod 64)) (bytesOf passwordChars) 0.

Lemma Int_64 x rest : Int (x :: rest) 64 = Drawn (x mod 64) rest.
Proof.
  rewrite Int_byte by lia. change (2 ^ BitLen (64 - 1)) with 64. cbv zeta.
  by rewrite (proj2 (Z.ltb_lt _ _)) by (apply Z.mod_pos_bound; lia).
Qed.

Lemma passwordLoop_64 n acc r : (n <= length r)%nat →
  passwordLoop n passwordChars acc r = RandomString (ofBytes (acc ++ (passwordByte <$> take n r))) (drop n r).
Proof.
  revert acc r. induction n as [|n IH]; intros acc r Hn.
  - cbn [passwordLoop take]. by rewrite app_nil_r.
  - destruct r as [|x r]; [cbn in Hn; lia|]. cbn in Hn. cbn [passwordLoop].
    change (Z.of_nat (String.length passwordChars)) with 64. rewrite Int_64, IH by lia.
    cbn [take fmap list_fmap drop]. by rewrite <-app_assoc.
Qed.

(** Random strings. On any reader the drawing ends: with a string of the
    wanted length whose bytes all come from the charset, or with the
    reader's error. A byte of the reader decides a position of a charset of 2
    to 256 bytes without bias: the same number of byte values lead to each
    position, the others are rejected. A temporary password has at least 8
    characters, is made of one byte of the reader per character, and its 64
    characters are distinct and without 0, O, I and l. *)
Lemma random_strings :
  (∀ r length charset, Forall isByte r → charset ≠ "" → 0 <= length →
     match RandomStringFromReader r length charset with
     | RandomString s rest => Z.of_nat (String.length s) = length ∧ Forall (λ x, x ∈ bytesOf charset) (bytesOf s) ∧ rest `suffix_of` r
     | ReaderFailed => True
     | _ => False
     end) ∧
  (∀ max i, 2 <= max <= 256 → 0 <= i < max →
     Z.of_nat (List.length (filter (λ x, Int [x] max = Drawn i []) (seqZ 0 256))) = 2 ^ (8 - BitLen (max - 1))) ∧
  (∀ r n, n < 8 → GenerateTempPassword r n = None) ∧
  (∀ r n, 8 <= n <= Z.of_nat (List.length r) →
     GenerateTempPassword r n =
     Some (RandomString (ofBytes (passwordByte <$> take (Z.to_nat n) r)) (drop (Z.to_nat n) r))) ∧
  (NoDup (bytesOf passwordChars) ∧ Forall (λ x, x ∉ bytesOf "0OIl") (bytesOf passwordChars)).
Proof.
  split_and!.
  - intros r n charset Hr Hc Hn. unfold RandomStringFromReader.
    rewrite bool_decide_false, (proj2 (Z.ltb_ge _ _)) by done.
    pose proof (passwordLoop_spec (Z.to_nat n) charset [] r Hc Hr (Forall_nil_2 _)) as H.
    destruct (passwordLoop _ _ _ _); try done. destruct H as (Hl & ? & ?). rewrite length_bytesOf in Hl.
    split_and!; [cbn in Hl; lia|done|done].
  - apply Int_uniform.
  - intros r n Hn. unfold GenerateTempPassword. by rewrite (proj2 (Z.ltb_lt _ _)).
  - intros r n Hn. unfold GenerateTempPassword, RandomStringFromReader.
    rewrite (proj2 (Z.ltb_ge n 8)), bool_decide_false, (proj2 (Z.ltb_ge n 0)) by (lia || done).
    by rewrite passwordLoop_64 by lia.
  - by apply (bool_decide_unpack _); vm_compute.
  - by apply (bool_decide_unpack _); vm_compute.
Qed.

Lemma random_strings_witness :
  RandomStringFromReader [255; 3; 4] 2 "abcde" = RandomString "de" [] ∧ Forall (λ x, x ∈ bytesOf "abcde") (bytesOf "de") ∧
  Z.of_nat (List.length (filter (λ x, Int [x] 5 = Drawn 4 []) (seqZ 0 256))) = 32.
Proof.
  assert (E : RandomStringFromReader [255; 3; 4] 2 "abcde" = RandomString "de" []) by (vm_compute; reflexivity).
  split; [exact E|]. split.
  - pose proof (proj1 random_strings [255; 3; 4] 2 "abcde" ltac:(repeat constructor; unfold isByte; lia) ltac:(discriminate) ltac:(lia)) as H.
    rewrite E in H. exact (proj1 (proj2 H)).
  - rewrite (proj1 (proj2 random_strings) 5 4); [reflexivity|lia|lia].
Defined.
