(* ===== verification/Jwks.v ===== *)
(** Public keys of token issuers (jwks/jwks.go): the cached resolver. *)
From S2P Require Import Prelude Text Base64.

Record Key := mkKey { KID : string; KTY : string; Alg : string; Crv : string; X : string; Y : string }.

(** A point: its coordinates. *)
Record PublicKey := mkPub { pubX : Z; pubY : Z }.

#[global] Instance PublicKey_eq_dec : EqDecision PublicKey.
Proof. solve_decision. Defined.

(** [big.Int.SetBytes]: big-endian. *)
Definition SetBytes (s : string) : Z := foldl (λ n a, n * 256 + byteOf a) 0 (String.list_ascii_of_string s).

Definition parseECP256Key (k : Key) : option PublicKey :=
  match DecodeString (X k), DecodeString (Y k) with
  | Some x, Some y => Some (mkPub (SetBytes x) (SetBytes y))
  | _, _ => None
  end.

Record Resolver := mkResolver {
  cache : gmap string PublicKey;
  lastFetch : Time;
  cacheTTL : Duration;
  defaultJWKSURL : string;
}.

Definition NewResolver : Resolver := mkResolver ∅ 0 (120 * Minute) "".

(** The two environment variables. *)
Record environ := mkEnv { AUTH_JWKS_URL : string; AUTH_ISSUER_URL : string }.

Definition slash : Ascii.ascii := Ascii.ascii_of_nat 47.
Definition trimSlash (s : string) : string :=
  match String.rev s with
  | String a s' => if bool_decide (a = slash) then String.rev s' else s
  | EmptyString => s
  end.

Definition resolveJWKSURL (r : Resolver) (env : environ) (jwksURL : string) : option string :=
  if negb (bool_decide (jwksURL = "")) then Some jwksURL
  else if negb (bool_decide (defaultJWKSURL r = "")) then Some (defaultJWKSURL r)
  else if negb (bool_decide (AUTH_JWKS_URL env = "")) then Some (TrimSpace (AUTH_JWKS_URL env))
  else if negb (bool_decide (AUTH_ISSUER_URL env = "")) then
    Some (trimSlash (TrimSpace (AUTH_ISSUER_URL env)) +:+ "/.well-known/jwks.json")
  else None.

(** The loop over the keys of a document. *)
Definition cacheKey (m : gmap string PublicKey) (k : Key) : gmap string PublicKey :=
  if bool_decide (KTY k = "EC") && bool_decide (Crv k = "P-256") then
    match parseECP256Key k with Some pub => <[KID k := pub]> m | None => m end
  else m.
Definition cacheKeys (m : gmap string PublicKey) (ks : list Key) : gmap string PublicKey := foldl cacheKey m ks.

(** [fetchAndCacheKeys]: what the endpoint answers is the keys of a document, or an error
    (of the transport, the status or the decoding). *)
Definition fetchAndCacheKeys (r : Resolver) (answer : option (list Key)) (now : Time) : bool * Resolver :=
  match answer with
  | None => (false, r)
  | Some ks => (true, mkResolver (cacheKeys (cache r) ks) now (cacheTTL r) (defaultJWKSURL r))
  end.

Definition getCachedKey (r : Resolver) (kid : string) (now : Time) : option PublicKey :=
  match cache r !! kid with
  | Some key => if time_Sub now (lastFetch r) <? cacheTTL r then Some key else None
  | None => None
  end.

(** The first key of Go's [range] over the map: any of them. *)
Class FirstKey := {
  firstKey : gmap string PublicKey → option PublicKey;
  firstKey_some : ∀ m k, firstKey m = Some k → ∃ kid, m !! kid = Some k;
  firstKey_none : ∀ m, firstKey m = None → m = ∅;
}.

Section resolver.
Context `{FirstKey}.

(** [GetECPublicKey], with the endpoint's answers by URL: the key or an error, and whether
    the endpoint was asked. *)
Definition GetECPublicKey (r : Resolver) (env : environ) (fetch : string → option (list Key))
    (kid jwksURL : string) (now : Time) : option PublicKey * bool * Resolver :=
  match getCachedKey r kid now with
  | Some key => (Some key, false, r)
  | None =>
      match resolveJWKSURL r env jwksURL with
      | None => (None, false, r)
      | Some url =>
          let '(ok, r1) := fetchAndCacheKeys r (fetch url) now in
          if ok then
            match cache r1 !! kid with
            | Some found => (Some found, true, r1)
            | None => (firstKey (cache r1), true, r1)
            end
          else (cache r1 !! kid, true, r1)
      end
  end.

(** A history of calls: the results, and the documents that were fetched. *)
Record jcall := JCall { j_env : environ; j_fetch : string → option (list Key); j_kid : string; j_url : string; j_now : Time }.

Definition fetched (r : Resolver) (c : jcall) : list (list Key) :=
  match getCachedKey r (j_kid c) (j_now c), resolveJWKSURL r (j_env c) (j_url c) with
  | None, Some url => option_list (j_fetch c url)
  | _, _ => []
  end.

Fixpoint history (r : Resolver) (cs : list jcall) : list (option PublicKey) * list (list Key) * Resolver :=
  match cs with
  | [] => ([], [], r)
  | c :: cs' =>
      let '(res, _, r1) := GetECPublicKey r (j_env c) (j_fetch c) (j_kid c) (j_url c) (j_now c) in
      let '(rs, ds, r2) := history r1 cs' in (res :: rs, fetched r c ++ ds, r2)
  end.
End resolver.

(** ** What is published *)

(** The point an entry of a document publishes. *)
Definition publishes (k : Key) : option PublicKey :=
  if bool_decide (KTY k = "EC") && bool_decide (Crv k = "P-256") then parseECP256Key k else None.

(** The point published last under a name, by documents in their order. *)
Definition latest (kid : string) (ks : list Key) : option PublicKey :=
  foldl (λ acc k, if bool_decide (KID k = kid) then match publishes k with Some p => Some p | None => acc end else acc)
    None ks.

Lemma cacheKeys_app m ks1 ks2 : cacheKeys m (ks1 ++ ks2) = cacheKeys (cacheKeys m ks1) ks2.
Proof. apply foldl_app. Qed.

Lemma cacheKey_publishes m k :
  cacheKey m k = match publishes k with Some p => <[KID k := p]> m | None => m end.
Proof. unfold cacheKey, publishes. by destruct (_ && _). Qed.

Lemma cacheKeys_latest ks kid : cacheKeys ∅ ks !! kid = latest kid ks.
Proof.
  induction ks as [|k ks IH] using rev_ind; [done|]. unfold latest in *. rewrite cacheKeys_app, foldl_app. cbn.
  rewrite cacheKey_publishes, <-IH. destruct (publishes k); [|by case_bool_decide].
  case_bool_decide as Hk; [rewrite <-Hk; apply lookup_insert_eq|by apply lookup_insert_ne].
Qed.

Lemma latest_published kid ks p :
  latest kid ks = Some p → ∃ k, k ∈ ks ∧ KID k = kid ∧ publishes k = Some p.
Proof.
  unfold latest. induction ks as [|k ks IH] using rev_ind; [done|]. rewrite foldl_app. cbn.
  case_bool_decide as Hk; [destruct (publishes k) as [p'|] eqn:Ep|].
  - intros [= ->]. exists k. set_solver.
  - intros (k' & ? & ? & ?)%IH. exists k'. set_solver.
  - intros (k' & ? & ? & ?)%IH. exists k'. set_solver.
Qed.

(** ** Calls *)

Section calls.
Context `{FirstKey}.

Lemma firstKey_singleton kid p : firstKey {[kid := p]} = Some p.
Proof.
  destruct (firstKey {[kid := p]}) as [p'|] eqn:E.
  - apply firstKey_some in E as (kid' & Hk). by apply lookup_singleton_Some in Hk as [_ ->].
  - apply firstKey_none in E. by apply map_non_empty_singleton in E.
Qed.

(** The cache holds what the documents so far published last. *)
Definition cached (r : Resolver) (ks : list Key) : Prop := cache r = cacheKeys ∅ ks.

Lemma call_cached r c ks :
  cached r ks →
  let '(res, asked, r1) := GetECPublicKey r (j_env c) (j_fetch c) (j_kid c) (j_url c) (j_now c) in
  let ks1 := ks ++ concat (fetched r c) in
  cached r1 ks1 ∧
  (∀ p, res = Some p →
     match latest (j_kid c) ks1 with Some p' => p = p' | None => ∃ kid, latest kid ks1 = Some p end).
Proof.
  intros Hc. unfold GetECPublicKey, fetched. destruct (getCachedKey r (j_kid c) (j_now c)) as [key|] eqn:Ek.
  { cbn. rewrite app_nil_r. split; [done|]. intros p [= <-]. unfold getCachedKey in Ek.
    rewrite <-cacheKeys_latest, <-Hc. destruct (cache r !! j_kid c); [|done]. by destruct (_ <? _); simplify_eq. }
  destruct (resolveJWKSURL _ _ _) as [url|]; [|cbn; by rewrite app_nil_r].
  unfold fetchAndCacheKeys. destruct (j_fetch c url) as [doc|]; cbn.
  - rewrite app_nil_r. set (r1 := mkResolver (cacheKeys (cache r) doc) _ _ _).
    assert (Hc1 : cached r1 (ks ++ doc)) by (unfold cached; cbn; by rewrite cacheKeys_app, Hc).
    destruct (cacheKeys (cache r) doc !! j_kid c) as [found|] eqn:Ef; cbn; (split; [exact Hc1|]); intros p Hp.
    + rewrite <-cacheKeys_latest, <-Hc1. unfold r1; cbn. rewrite Ef. congruence.
    + rewrite <-cacheKeys_latest, <-Hc1. unfold r1; cbn. rewrite Ef.
      destruct (firstKey_some _ _ Hp) as [kid Hkid]. exists kid. by rewrite <-cacheKeys_latest, <-Hc1.
  - rewrite app_nil_r. split; [done|]. intros p Hp. rewrite <-cacheKeys_latest, <-Hc, Hp. done.
Qed.

Lemma history_cached cs : ∀ r ks,
  cached r ks →
  let '(rs, ds, r') := history r cs in cached r' (ks ++ concat ds).
Proof.
  induction cs as [|c cs IH]; intros r ks Hc; cbn; [by rewrite app_nil_r|].
  pose proof (call_cached r c ks Hc) as H1. destruct (GetECPublicKey _ _ _ _ _ _) as [[res asked] r1].
  cbv zeta in H1. destruct H1 as [Hc1 _]. specialize (IH r1 _ Hc1). destruct (history r1 cs) as [[rs ds] r2].
  by rewrite concat_app, app_assoc.
Qed.
End calls.

(** ** Example documents *)

Definition entry (kid x : string) : Key := mkKey kid "EC" "ES256" "P-256" x "AQ".
Definition serving (ks : list Key) : string → option (list Key) := λ _, Some ks.
Definition noEnv : environ := mkEnv "" "".

Lemma forged_served `{FirstKey} :
  (GetECPublicKey NewResolver noEnv (serving [entry "k1" "Ag"]) "forged" "u" (200 * Minute)).1.1 = Some (mkPub 2 1).
Proof.
  assert (E : cacheKeys ∅ [entry "k1" "Ag"] = {["k1" := mkPub 2 1]}) by (by vm_compute).
  unfold GetECPublicKey.
  change (getCachedKey NewResolver "forged" (200 * Minute)) with (@None PublicKey).
  change (resolveJWKSURL NewResolver noEnv "u") with (Some "u").
  unfold fetchAndCacheKeys, serving. cbn [cache NewResolver]. rewrite E.
  rewrite lookup_singleton_ne by done. cbn [fst]. apply firstKey_singleton.
Qed.

(** C22: Every key the resolver returns was published by the endpoint: for a key
    ID that the documents fetched so far name, it is the point published last under that ID, in whatever
    order calls, failures and expirations came; within the TTL a known ID is
    served without a request, and when the endpoint fails an ID that was
    fetched before is still served. But a key that the endpoint has withdrawn is never
    dropped from the cache, and an ID that was never published is answered with
    some other key of the cache instead of an error. *)
Theorem jwks_published `{FirstKey} cs c :
  let '(_, ds, r) := history NewResolver cs in
  let '(res, asked, r1) := GetECPublicKey r (j_env c) (j_fetch c) (j_kid c) (j_url c) (j_now c) in
  let published := concat ds ++ concat (fetched r c) in
  (∀ p, res = Some p →
     match latest (j_kid c) published with Some p' => p = p' | None => ∃ kid, latest kid published = Some p end) ∧
  (∀ p, res = Some p → ∃ k, k ∈ published ∧ publishes k = Some p) ∧
  (is_Some (cache r !! j_kid c) → time_Sub (j_now c) (lastFetch r) < cacheTTL r → asked = false ∧ res = cache r !! j_kid c) ∧
  ((∀ url, j_fetch c url = None) → j_url c ≠ "" → res = cache r !! j_kid c) ∧
  (let '(rs, _, _) := history NewResolver
     [JCall noEnv (serving [entry "old" "Ag"; entry "new" "Aw"]) "old" "u" (200 * Minute);
      JCall noEnv (serving [entry "new" "Aw"]) "old" "u" (400 * Minute)] in
   rs = [Some (mkPub 2 1); Some (mkPub 2 1)]) ∧
  (GetECPublicKey NewResolver noEnv (serving [entry "k1" "Ag"]) "forged" "u" (200 * Minute)).1.1 = Some (mkPub 2 1).
Proof.
  pose proof (history_cached cs NewResolver [] eq_refl) as Hc. destruct (history NewResolver cs) as [[rs ds] r].
  cbn in Hc. pose proof (call_cached r c _ Hc) as H1.
  destruct (GetECPublicKey r _ _ _ _ _) as [[res asked] r1] eqn:E. cbv zeta in H1. destruct H1 as [Hc1 Hres].
  split_and!.
  - done.
  - intros p Hp. specialize (Hres p Hp).
    assert (∃ kid, latest kid (concat ds ++ concat (fetched r c)) = Some p) as [kid Hk].
    { destruct (latest (j_kid c) _) eqn:El; [subst; by exists (j_kid c)|done]. }
    apply latest_published in Hk as (k & ? & _ & ?). by exists k.
  - intros [key Hk] Ht. unfold GetECPublicKey, getCachedKey in E. rewrite Hk in E.
    rewrite (proj2 (Z.ltb_lt _ _) Ht) in E. by simplify_eq.
  - intros Hf Hu. unfold GetECPublicKey in E. destruct (getCachedKey r (j_kid c) (j_now c)) as [key|] eqn:Ek.
    + simplify_eq. unfold getCachedKey in Ek. destruct (cache r1 !! j_kid c); [|done]. by destruct (_ <? _).
    + unfold resolveJWKSURL in E. rewrite bool_decide_false in E by done. cbn in E. rewrite Hf in E. by simplify_eq/=.
  - by vm_compute.
  - apply forged_served.
Qed.

(** One iteration order. *)
Program Definition mapFirst : FirstKey := {| firstKey m := snd <$> head (map_to_list m) |}.
Next Obligation.
  intros m k Hf. cbn in Hf. destruct (map_to_list m) as [|[kid k'] l] eqn:E; cbn in Hf; simplify_eq. exists kid.
  apply elem_of_map_to_list. rewrite E. set_solver.
Qed.
Next Obligation.
  intros m Hf. cbn in Hf. destruct (map_to_list m) as [|[kid k'] l] eqn:E; cbn in Hf; simplify_eq.
  by apply map_to_list_empty_iff.
Qed.

Lemma jwks_published_witness :
  let c := JCall noEnv (serving [entry "k1" "Ag"]) "k1" "u" (200 * Minute) in
  ∃ k, k ∈ [entry "k1" "Ag"] ∧ publishes k = Some (mkPub 2 1).
Proof.
  intros c. pose proof (@jwks_published mapFirst [] c) as H.
  destruct (@GetECPublicKey mapFirst NewResolver (j_env c) (j_fetch c) (j_kid c) (j_url c) (j_now c))
    as [[res asked] r1] eqn:E.
  assert (Er : res = Some (mkPub 2 1)) by (vm_compute in E; by simplify_eq).
  change (history NewResolver []) with (@nil (option PublicKey), @nil (list Key), NewResolver) in H. cbv beta iota in H.
  rewrite E in H. destruct H as (_ & H & _). exact (H _ Er).
Defined.
