(* ===== verification/NetIP.v ===== *)
(** The part of package net that the client address needs: addresses, their
    text, networks. *)
From S2P Require Import Prelude Text Base64.
From stdpp Require Import pretty.
#[local] Open Scope Z_scope.

Definition chr (n : nat) : Ascii.ascii := Ascii.ascii_of_nat n.
Definition dot : Ascii.ascii := chr 46.
Definition colonChar : Ascii.ascii := chr 58.
Definition slash : Ascii.ascii := chr 47.

(** An address: 32 or 128 bits. An IPv4-mapped IPv6 address is an IPv4 one, as
    [To4] has it. *)
Inductive IP := V4 (n : Z) | V6 (n : Z).

#[global] Instance IP_eq_dec : EqDecision IP.
Proof. solve_decision. Defined.

(** ** Parsing *)

Definition decDigit (a : Ascii.ascii) : option Z :=
  let n := byteOf a in if (48 <=? n) && (n <=? 57) then Some (n - 48) else None.

Definition hexDigit (a : Ascii.ascii) : option Z :=
  let n := byteOf a in
  if (48 <=? n) && (n <=? 57) then Some (n - 48)
  else if (97 <=? n) && (n <=? 102) then Some (n - 87)
  else if (65 <=? n) && (n <=? 70) then Some (n - 55) else None.

(** A number in base [b], all of whose characters are digits. *)
Fixpoint number (b : Z) (val : Ascii.ascii → option Z) (s : string) (acc : Z) : option Z :=
  match s with
  | EmptyString => Some acc
  | String a s' => d ← val a; number b val s' (acc * b + d)
  end.

(** A field of an IPv4 address: up to 255, without leading zeros. *)
Definition octet (s : string) : option Z :=
  match s with
  | EmptyString => None
  | String a (String _ _) =>
      if bool_decide (a = chr 48) then None
      else n ← number 10 decDigit s 0; if n <=? 255 then Some n else None
  | _ => number 10 decDigit s 0
  end.

Definition parseIPv4 (s : string) : option Z :=
  match Split s dot with
  | [a; b; c; d] =>
      x ← octet a; y ← octet b; z ← octet c; t ← octet d;
      Some (((x * 256 + y) * 256 + z) * 256 + t)
  | _ => None
  end.

(** A field of an IPv6 address: one to four hexadecimal digits. *)
Definition hexField (s : string) : option Z :=
  if (1 <=? Z.of_nat (String.length s)) && (Z.of_nat (String.length s) <=? 4)
  then number 16 hexDigit s 0 else None.

(** The 16-bit fields; the last one may be an IPv4 address where [v4] says so. *)
Fixpoint fields (v4 : bool) (gs : list string) : option (list Z) :=
  match gs with
  | [] => Some []
  | [g] => if v4 && hasChar dot g
           then n ← parseIPv4 g; Some [n / 65536; n mod 65536]
           else n ← hexField g; Some [n]
  | g :: gs' => n ← hexField g; ns ← fields v4 gs'; Some (n :: ns)
  end.

Definition fieldsOf (v4 : bool) (s : string) : option (list Z) :=
  match s with EmptyString => Some [] | _ => fields v4 (Split s colonChar) end.

(** The text around the first [::]. *)
Fixpoint cutDouble (s : string) : option (string * string) :=
  match s with
  | EmptyString => None
  | String a s' =>
      match s' with
      | String b s'' =>
          if bool_decide (a = colonChar) && bool_decide (b = colonChar) then Some (EmptyString, s'')
          else '(l, r) ← cutDouble s'; Some (String a l, r)
      | EmptyString => None
      end
  end.

Definition joinFields (ns : list Z) : Z := foldl (λ acc n, acc * 65536 + n) 0 ns.

Definition parseIPv6 (s : string) : option Z :=
  match cutDouble s with
  | None => ns ← fields true (Split s colonChar);
            if (length ns =? 8)%nat then Some (joinFields ns) else None
  | Some (l, r) =>
      ls ← fieldsOf false l; rs ← fieldsOf true r;
      if (length ls + length rs <? 8)%nat
      then Some (joinFields (ls ++ repeat 0 (8 - length ls - length rs)%nat ++ rs)) else None
  end.

(** The first of the characters [.], [:] and [%] decides the family. *)
Fixpoint family (s : string) : option bool :=
  match s with
  | EmptyString => None
  | String a s' =>
      if bool_decide (a = dot) then Some false
      else if bool_decide (a = colonChar) then Some true
      else if bool_decide (a = chr 37) then None else family s'
  end.

(** [netip.ParseAddr] without zones: the family and the bits. *)
Definition parseAddr (s : string) : option (bool * Z) :=
  match family s with
  | None => None
  | Some false => n ← parseIPv4 s; Some (false, n)
  | Some true => n ← parseIPv6 s; Some (true, n)
  end.

Definition mapped (n : Z) : bool := n / 2 ^ 32 =? 65535.

Definition ParseIP (s : string) : option IP :=
  match parseAddr s with
  | Some (true, n) => Some (if mapped n then V4 (n mod 2 ^ 32) else V6 n)
  | Some (false, n) => Some (V4 n)
  | None => None
  end.

(** ** Printing *)

Definition hexChar (d : Z) : Ascii.ascii := ofByte (if d <? 10 then d + 48 else d + 87).

(** Lower case, without leading zeros. *)
Definition printField (n : Z) : string :=
  let d i := hexChar (n / 16 ^ i mod 16) in
  if n <? 16 then String (d 0) EmptyString
  else if n <? 256 then String (d 1) (String (d 0) EmptyString)
  else if n <? 4096 then String (d 2) (String (d 1) (String (d 0) EmptyString))
  else String (d 3) (String (d 2) (String (d 1) (String (d 0) EmptyString))).

Definition splitFields (n : Z) : list Z := (λ i, n / 65536 ^ (7 - i) mod 65536) <$> seqZ 0 8.

(** How many fields are zero from here on, and the first of the longest runs of
    at least two: its start and its length. *)
Fixpoint zeros (ns : list Z) : nat :=
  match ns with n :: ns' => if n =? 0 then S (zeros ns') else O | [] => O end.
Fixpoint longest (i : nat) (ns : list Z) (best : option (nat * nat)) : option (nat * nat) :=
  match ns with
  | [] => best
  | _ :: ns' =>
      let l := zeros ns in
      let b := match best with Some (_, m) => m | None => O end in
      longest (S i) ns' (if (2 <=? l)%nat && (b <? l)%nat then Some (i, l) else best)
  end.

Definition IPString (ip : IP) : string :=
  match ip with
  | V4 n =>
      let o i := pretty (n / 256 ^ i mod 256) in
      o 3 +:+ String dot (o 2 +:+ String dot (o 1 +:+ String dot (o 0)))
  | V6 n =>
      let ns := splitFields n in
      match longest 0 ns None with
      | None => Text.Join (printField <$> ns) colonChar
      | Some (i, l) =>
          Text.Join (printField <$> take i ns) colonChar +:+
          String colonChar (String colonChar (Text.Join (printField <$> drop (i + l) ns) colonChar))
      end
  end.

(** ** Networks *)

(** [*net.IPNet]: the family, the address and the length of the prefix. *)
Record IPNet := mkIPNet { net6 : bool; netBase : Z; netOnes : Z }.

(** The first [ones] of [bits] bits. *)
Definition prefixBits (bits ones n : Z) : Z := n / 2 ^ (bits - ones).

Definition NetContains (n : IPNet) (ip : IP) : bool :=
  match net6 n, ip with
  | false, V4 a => prefixBits 32 (netOnes n) a =? prefixBits 32 (netOnes n) (netBase n)
  | true, V6 a => prefixBits 128 (netOnes n) a =? prefixBits 128 (netOnes n) (netBase n)
  | _, _ => false
  end.

(** [net.ParseCIDR]; a mapped network of at least 96 bits is an IPv4 one. *)
Definition ParseCIDR (s : string) : option IPNet :=
  '(addr, mask) ← cutFirst slash s;
  match parseAddr addr, mask with
  | None, _ | _, EmptyString => None
  | Some (v6, n), _ =>
      ones ← number 10 decDigit mask 0;
      if (if v6 then 128 else 32) <? ones then None
      else if v6 && mapped n && (96 <=? ones) then Some (mkIPNet false (n mod 2 ^ 32) (ones - 96))
      else Some (mkIPNet v6 n ones)
  end.

(** [net.SplitHostPort]; [None] is its error. *)
Definition SplitHostPort (s : string) : option (string * string) :=
  let lb := chr 91 in let rb := chr 93 in
  match s with
  | String a s' =>
      if bool_decide (a = lb) then
        '(host, rest) ← cutFirst rb s';
        match rest with
        | String c port =>
            if bool_decide (c = colonChar) && negb (hasChar colonChar port)
               && negb (hasChar lb (host +:+ rest)) && negb (hasChar rb rest)
            then Some (host, port) else None
        | EmptyString => None
        end
      else
        '(host, port) ← cutLast colonChar s;
        if hasChar colonChar host || hasChar lb s || hasChar rb s then None else Some (host, port)
  | EmptyString => None
  end.

(** An address has a text. *)
Lemma Join_nonempty w w' ws c : Text.Join (w :: w' :: ws) c ≠ EmptyString.
Proof. apply append_nonempty. Qed.

Lemma IPString_nonempty ip : IPString ip ≠ EmptyString.
Proof.
  destruct ip as [n|n]; [apply append_nonempty|]. unfold IPString.
  destruct (longest 0 (splitFields n) None) as [[i l]|]; [apply append_nonempty|]. apply Join_nonempty.
Qed.
