(* ===== verification/RealIP.v ===== *)
(** The client address (ratelimit/realip.go): which forwarding headers are
    believed, and the proof that a client cannot forge its address. *)
From S2P Require Import Prelude Text NetIP.

(** The parts of the request in use: the address of the peer, the values of
    X-Forwarded-For, and the value of X-Real-IP (empty when absent). *)
Record httpRequest := Request { RemoteAddr : string; xForwardedFor : list string; xRealIP : string }.

(** [trimSpace]. *)
Definition blank (a : Ascii.ascii) : bool :=
  bool_decide (a = chr 32) || bool_decide (a = chr 9) || bool_decide (a = chr 13) || bool_decide (a = chr 10).
Definition trimSpace (s : string) : string := TrimBy blank s.

Definition bracket (a : Ascii.ascii) : bool := bool_decide (a = chr 91) || bool_decide (a = chr 93).

Definition ExtractIP (remoteAddr : string) : string :=
  let addr := TrimSpace remoteAddr in
  if bool_decide (addr = "") then ""
  else
    let host := match SplitHostPort addr with Some (h, _) => h | None => addr end in
    TrimBy bracket host.

Definition IsTrusted (ip : IP) (trusted : list IPNet) : bool := existsb (λ n, NetContains n ip) trusted.

Definition ParseCIDRorIP (s0 : string) : option IPNet :=
  let s := TrimSpace s0 in
  if bool_decide (s = "") then None
  else if hasChar slash s then ParseCIDR s
  else match ParseIP s with
       | None => None
       | Some (V4 _) => ParseCIDR (s +:+ "/32")
       | Some (V6 _) => ParseCIDR (s +:+ "/128")
       end.

Definition comma : Ascii.ascii := chr 44.

Definition ParseTrustedProxies (cidrs : list string) : list IPNet :=
  omap (λ c0, let c := TrimSpace c0 in if bool_decide (c = "") then None else ParseCIDRorIP c)
       (raw ← cidrs; Split raw comma).

Definition DefaultTrustedCIDRs : list string :=
  ["127.0.0.1/8"; "10.0.0.0/8"; "172.16.0.0/12"; "192.168.0.0/16"; "::1/128"; "fc00::/7"].

(** The parts of X-Forwarded-For, in order. *)
Definition xffParts (r : httpRequest) : list string :=
  filter (λ p, p ≠ "") (trimSpace <$> (h ← xForwardedFor r; Split h comma)).

(** The loop of [parseXFF], over the parts from right to left. *)
Fixpoint xffLoop (trusted : list IPNet) (parts : list string) (leftmostValid : string) : string :=
  match parts with
  | [] => leftmostValid
  | p :: parts' =>
      match ParseIP (ExtractIP p) with
      | None => xffLoop trusted parts' leftmostValid
      | Some ip => if IsTrusted ip trusted then xffLoop trusted parts' (IPString ip) else IPString ip
      end
  end.

Definition parseXFF (r : httpRequest) (trusted : list IPNet) : string :=
  xffLoop trusted (reverse (xffParts r)) "".

Definition RealIP (r : httpRequest) (trusted : list IPNet) : string :=
  let remoteIP := ExtractIP (RemoteAddr r) in
  if bool_decide (length trusted = 0%nat) then remoteIP
  else
    match ParseIP remoteIP with
    | None => remoteIP
    | Some directIP =>
        if negb (IsTrusted directIP trusted) then remoteIP
        else
          let ip := parseXFF r trusted in
          if bool_decide (ip = "") then
            if bool_decide (xRealIP r = "") then remoteIP
            else match ParseIP (ExtractIP (trimSpace (xRealIP r))) with
                 | Some ip => IPString ip
                 | None => remoteIP
                 end
          else ip
    end.

(** [RealIPWithProxies] and the methods of [TrustedProxies]. *)
Definition RealIPWithProxies (r : httpRequest) (trustedCIDRs : list string) : string :=
  RealIP r (ParseTrustedProxies trustedCIDRs).

(** ** The proxy chain *)

(** The addresses of X-Forwarded-For, leftmost first. *)
Definition hops (r : httpRequest) : list IP := omap (λ p, ParseIP (ExtractIP p)) (xffParts r).

Definition untrusted (trusted : list IPNet) (ip : IP) : Prop := IsTrusted ip trusted = false.
#[global] Instance untrusted_dec trusted ip : Decision (untrusted trusted ip).
Proof. unfold untrusted. apply _. Defined.

(** The peer is one of the trusted proxies. *)
Definition peerTrusted (r : httpRequest) (trusted : list IPNet) : Prop :=
  ∃ ip, ParseIP (ExtractIP (RemoteAddr r)) = Some ip ∧ IsTrusted ip trusted = true.

#[global] Instance peerTrusted_dec r trusted : Decision (peerTrusted r trusted).
Proof.
  destruct (ParseIP (ExtractIP (RemoteAddr r))) as [ip|] eqn:E.
  - destruct (IsTrusted ip trusted) eqn:Et; [left; by exists ip|right; intros (ip' & E' & Et')]. congruence.
  - right. intros (ip & E' & _). congruence.
Defined.

(** The client of a chain: the rightmost address that is not a trusted proxy,
    the leftmost address when all are. *)
Definition chainClient (trusted : list IPNet) (hs : list IP) : option IP :=
  match last (filter (untrusted trusted) hs) with
  | Some ip => Some ip
  | None => head hs
  end.

Lemma xffLoop_spec trusted parts ip0 :
  xffLoop trusted (reverse parts) ip0 =
  from_option IPString ip0 (chainClient trusted (omap (λ p, ParseIP (ExtractIP p)) parts)).
Proof.
  revert ip0. induction parts as [|p parts IH] using rev_ind; intros ip0; [done|].
  rewrite reverse_app. cbn [reverse rev_append app xffLoop]. rewrite omap_app. cbn [omap list_omap].
  destruct (ParseIP (ExtractIP p)) as [ip|] eqn:E; [|by rewrite app_nil_r, IH].
  unfold chainClient. rewrite filter_app. cbn [filter list_filter].
  destruct (IsTrusted ip trusted) eqn:Et.
  - rewrite decide_False by (unfold untrusted; congruence). rewrite app_nil_r, IH. unfold chainClient.
    destruct (last _); [done|]. by destruct (omap _ parts).
  - rewrite decide_True by done. by rewrite last_snoc.
Qed.

(** What [RealIP] returns when the peer is a trusted proxy. *)
Lemma RealIP_trusted r trusted :
  peerTrusted r trusted →
  RealIP r trusted =
  match chainClient trusted (hops r), ParseIP (ExtractIP (trimSpace (xRealIP r))) with
  | Some ip, _ => IPString ip
  | None, Some ip => if bool_decide (xRealIP r = "") then ExtractIP (RemoteAddr r) else IPString ip
  | None, None => ExtractIP (RemoteAddr r)
  end.
Proof.
  intros (ip & Hip & Ht). unfold RealIP. rewrite Hip, Ht. cbn [negb].
  rewrite bool_decide_eq_false_2 by (intros E; by rewrite (nil_length_inv _ E) in Ht).
  unfold parseXFF. rewrite xffLoop_spec. fold (hops r).
  destruct (chainClient trusted (hops r)) as [c|]; simpl.
  - by rewrite bool_decide_eq_false_2 by apply IPString_nonempty.
  - destruct (ParseIP (ExtractIP (trimSpace (xRealIP r)))); by repeat case_bool_decide.
Qed.

(** More text on the left of X-Forwarded-For only adds addresses on the left. *)
Lemma hops_forged addr xri forged pre v vs :
  ∃ extra, hops (Request addr (forged ++ (pre +:+ String comma v) :: vs) xri) =
           extra ++ hops (Request addr (v :: vs) xri).
Proof.
  unfold hops, xffParts. cbn [xForwardedFor]. rewrite bind_app. cbn [mbind list_bind].
  rewrite Split_app, <-!app_assoc, (app_assoc (_ ≫= _)), fmap_app, filter_app, omap_app. by eexists.
Qed.

Lemma chainClient_app trusted extra hs :
  Exists (untrusted trusted) hs → chainClient trusted (extra ++ hs) = chainClient trusted hs.
Proof.
  intros Hex. unfold chainClient. rewrite filter_app, last_app.
  destruct (last (filter _ hs)) as [ip|] eqn:E; [done|]. exfalso.
  apply last_None in E. apply Exists_exists in Hex as (ip & Hin & Hu).
  assert (ip ∈ filter (untrusted trusted) hs) as Hf by by apply list_elem_of_filter.
  rewrite E in Hf. by apply elem_of_nil in Hf.
Qed.

(** C18: the client address cannot be forged. Without trusted proxies, or when
    the peer is not one of them, the address is the peer's, whatever the
    headers say. Behind a trusted proxy it is the rightmost address of
    X-Forwarded-For that is not a trusted proxy, the leftmost when all are,
    then X-Real-IP, then the peer. And once the chain that the proxies wrote
    has an address outside the trusted networks, nothing a client puts in
    front of it, in the same header or in others, changes the result. *)
Theorem real_ip_unforgeable trusted :
  (∀ r, trusted = [] ∨ ¬ peerTrusted r trusted → RealIP r trusted = ExtractIP (RemoteAddr r)) ∧
  (∀ r, peerTrusted r trusted →
     RealIP r trusted =
     match chainClient trusted (hops r), ParseIP (ExtractIP (trimSpace (xRealIP r))) with
     | Some ip, _ => IPString ip
     | None, Some ip => if bool_decide (xRealIP r = "") then ExtractIP (RemoteAddr r) else IPString ip
     | None, None => ExtractIP (RemoteAddr r)
     end) ∧
  (∀ addr xri xri' forged pre v vs,
     Exists (untrusted trusted) (hops (Request addr (v :: vs) xri)) →
     RealIP (Request addr (forged ++ (pre +:+ String comma v) :: vs) xri') trusted =
     RealIP (Request addr (v :: vs) xri) trusted).
Proof.
  assert (∀ r, trusted = [] ∨ ¬ peerTrusted r trusted → RealIP r trusted = ExtractIP (RemoteAddr r)) as Hdirect.
  { intros r Hr. unfold RealIP. case_bool_decide as El; [done|].
    destruct Hr as [->|Hr]; [done|]. destruct (ParseIP (ExtractIP (RemoteAddr r))) as [ip|] eqn:E; [|done].
    destruct (IsTrusted ip trusted) eqn:Et; [|done]. destruct Hr. by exists ip. }
  split_and!; [done|by intros r; apply RealIP_trusted|].
  intros addr xri xri' forged pre v vs Hex. set (r := Request _ (forged ++ _) _). set (r' := Request _ (v :: vs) _).
  destruct (decide (peerTrusted r' trusted)) as [Hp|Hp].
  - rewrite (RealIP_trusted r'), (RealIP_trusted r) by done.
    destruct (hops_forged addr xri forged pre v vs) as [extra E].
    change (hops r) with (hops (Request addr (forged ++ (pre +:+ String comma v) :: vs) xri)).
    rewrite E, chainClient_app by done. fold r'.
    destruct (chainClient trusted (hops r')) as [ip|] eqn:Ec; [done|]. exfalso.
    unfold chainClient in Ec. destruct (last _); [done|]. fold r' in Hex. destruct (hops r'); [by inversion Hex|done].
  - by rewrite !Hdirect by (right; done).
Qed.

Lemma real_ip_unforgeable_witness :
  let trusted := ParseTrustedProxies DefaultTrustedCIDRs in
  RealIP (Request "10.0.0.7:443" ["6.6.6.6, 203.0.113.9, 192.168.1.1"] "") trusted = "203.0.113.9" ∧
  RealIP (Request "203.0.113.50:9999" ["127.0.0.1"] "127.0.0.1") trusted = "203.0.113.50".
Proof.
  intros trusted. pose proof (real_ip_unforgeable trusted) as (H1 & _ & H3). split.
  - etransitivity; [apply (H3 "10.0.0.7:443" "" "" [] "6.6.6.6" " 203.0.113.9, 192.168.1.1" [])|].
    2: vm_compute; reflexivity.
    assert (hops (Request "10.0.0.7:443" [" 203.0.113.9, 192.168.1.1"] "") = [V4 3405803785; V4 3232235777]) as ->
      by (vm_compute; reflexivity).
    apply Exists_cons_hd. vm_compute. reflexivity.
  - rewrite (H1 (Request "203.0.113.50:9999" ["127.0.0.1"] "127.0.0.1")); [vm_compute; reflexivity|].
    right. intros (ip & Hip & Ht). vm_compute in Hip. injection Hip as <-. vm_compute in Ht. discriminate Ht.
Defined.
