(* ===== verification/Keyed.v ===== *)
(** Sequences of entries with a string key, the abstract states of the cache
    policies: lookup, removal, and the finite map a client sees. *)
From S2P Require Import Prelude.

Section definitions.
Context {E V : Type} (key : E → string) (val : E → V).
Implicit Types es : list E.

Definition keys es : list string := key <$> es.

(** The first entry of a key, and the sequence without the key. *)
Fixpoint findEntry (k : string) es : option E :=
  match es with
  | [] => None
  | e :: es' => if bool_decide (key e = k) then Some e else findEntry k es'
  end.

Definition without (k : string) es : list E := filter (λ e, key e ≠ k) es.

Definition viewOf es : gmap string V := list_to_map ((λ e, (key e, val e)) <$> es).
End definitions.

Section lookup.
Context {E : Type} {key : E → string}.
Implicit Types es : list E.

Abbreviation keys := (keys key).
Abbreviation findEntry := (findEntry key).
Abbreviation without := (without key).

Lemma findEntry_None k es : findEntry k es = None ↔ k ∉ keys es.
Proof.
  induction es as [|e es IH]; simpl; [set_solver|].
  case_bool_decide; set_solver.
Qed.

Lemma findEntry_middle k es1 e es2 :
  key e = k → k ∉ keys es1 → findEntry k (es1 ++ e :: es2) = Some e.
Proof.
  induction es1 as [|e1 es1 IH]; simpl; intros Hk Hn.
  - by rewrite bool_decide_eq_true_2.
  - rewrite bool_decide_eq_false_2 by set_solver. apply IH; set_solver.
Qed.

Lemma findEntry_key k es e : findEntry k es = Some e → key e = k.
Proof.
  induction es as [|e' es IH]; simpl; [done|]. case_bool_decide; naive_solver.
Qed.

Lemma without_notin k es : k ∉ keys es → without k es = es.
Proof.
  intros Hk. apply filter_all. intros e He <-. apply Hk.
  by apply list_elem_of_fmap_2.
Qed.

Lemma without_middle k es1 e es2 :
  key e = k → k ∉ keys es1 → k ∉ keys es2 → without k (es1 ++ e :: es2) = es1 ++ es2.
Proof.
  intros Hk H1 H2. unfold Keyed.without. rewrite filter_app, filter_cons_False by naive_solver.
  f_equal; by apply without_notin.
Qed.

Lemma findEntry_without k k' es :
  findEntry k' (without k es) = if decide (k' = k) then None else findEntry k' es.
Proof.
  unfold Keyed.without. induction es as [|e es IH]; simpl; [by case_decide|].
  destruct (decide (key e = k)) as [He|He].
  - rewrite filter_cons_False by naive_solver. rewrite IH.
    case_decide; [done|]. by rewrite bool_decide_eq_false_2 by congruence.
  - rewrite filter_cons_True by done. simpl. rewrite IH. case_decide; [|done].
    by rewrite bool_decide_eq_false_2 by congruence.
Qed.

(** Dropping entries of other keys. *)
Lemma findEntry_drop k es1 e es2 :
  findEntry k (es1 ++ es2) = findEntry k (es1 ++ e :: es2) ∨ key e = k.
Proof.
  destruct (decide (key e = k)) as [|Hne]; [by right|left].
  induction es1 as [|e1 es1 IH]; simpl.
  - by rewrite bool_decide_eq_false_2.
  - by rewrite IH.
Qed.

Lemma findEntry_removelast k es :
  findEntry k (removelast es) = findEntry k es ∨ findEntry k (removelast es) = None.
Proof.
  destruct es as [|x es _] using rev_ind; [by left|]. rewrite removelast_last.
  induction es as [|e es IH]; simpl; [by right|]. case_bool_decide; [by left | done].
Qed.

End lookup.

Section views.
Context {E V : Type} {key : E → string} {val : E → V}.
Implicit Types es : list E.

Abbreviation keys := (keys key).
Abbreviation findEntry := (findEntry key).
Abbreviation without := (without key).
Abbreviation viewOf := (viewOf key val).

Lemma viewOf_lookup es k : viewOf es !! k = val <$> findEntry k es.
Proof.
  induction es as [|e es IH]; [done|]. unfold Keyed.viewOf in *. csimpl.
  rewrite lookup_insert, IH. repeat case_decide; simplify_eq/=;
    by rewrite ?bool_decide_eq_true_2, ?bool_decide_eq_false_2 by congruence.
Qed.

Lemma viewOf_without k es : viewOf (without k es) = delete k (viewOf es).
Proof.
  apply map_eq. intros k'. rewrite viewOf_lookup, findEntry_without, lookup_delete, viewOf_lookup.
  repeat case_decide; simplify_eq; done.
Qed.

(** Moving the entry of [k] to the front, possibly with other data. *)
Lemma viewOf_front k es e e' :
  findEntry k es = Some e → key e' = k → val e' = val e →
  viewOf (e' :: without k es) = viewOf es.
Proof.
  intros He Hk Hv. apply map_eq. intros k'. rewrite !viewOf_lookup. simpl.
  case_bool_decide; [by simplify_eq; rewrite He; simpl; rewrite Hv|].
  by rewrite findEntry_without, decide_False by congruence.
Qed.

Lemma viewOf_cons_eq e es k x : key e = k → val e = x → viewOf (e :: es) !! k = Some x.
Proof. intros <- <-. rewrite viewOf_lookup. simpl. by rewrite bool_decide_eq_true_2. Qed.

Lemma viewOf_cons_ne e es k : k ≠ key e → viewOf (e :: es) !! k = viewOf es !! k.
Proof. intros Hk. rewrite !viewOf_lookup. simpl. by rewrite bool_decide_eq_false_2. Qed.

Lemma viewOf_size es : NoDup (keys es) → size (viewOf es) = length es.
Proof.
  intros Hnd. unfold Keyed.viewOf. rewrite map_size_list_to_map.
  - by rewrite length_fmap.
  - unfold Keyed.keys in Hnd. by rewrite <-list_fmap_compose.
Qed.
End views.

(** ** The key index of a sequence of nodes *)

(** [map[string]*node]: the nodes (addresses [L]) of a sequence, by key. *)
Section index.
Context {L E : Type} {key : E → string}.
Implicit Types lns : list (L * E).

Abbreviation keys := (keys key).

Definition indexed (items : gmap string L) lns : Prop :=
  NoDup (keys lns.*2) ∧ items = list_to_map ((λ p, (key p.2, p.1)) <$> lns).

Lemma indexed_keys lns : ((λ p : L * E, (key p.2, p.1)) <$> lns).*1 = keys lns.*2.
Proof. unfold Keyed.keys. rewrite <-!list_fmap_compose. by apply list_fmap_ext. Qed.

Lemma indexed_nil : indexed ∅ [].
Proof. split; [constructor | done]. Qed.

Lemma indexed_size m lns : indexed m lns → size m = length lns.
Proof.
  intros (Hnd & ->). rewrite map_size_list_to_map.
  - by rewrite length_fmap.
  - by rewrite indexed_keys.
Qed.

Lemma indexed_None m lns k : indexed m lns → m !! k = None → k ∉ keys lns.*2.
Proof.
  intros (_ & ->) Hk%not_elem_of_list_to_map_2. by rewrite indexed_keys in Hk.
Qed.

Lemma indexed_Some m lns k n :
  indexed m lns → m !! k = Some n →
  ∃ lns1 e lns2, lns = lns1 ++ (n, e) :: lns2 ∧ key e = k ∧
    k ∉ keys lns1.*2 ∧ k ∉ keys lns2.*2.
Proof.
  intros (Hnd & ->) Hk%elem_of_list_to_map_2.
  apply list_elem_of_fmap in Hk as ([n' e] & [= -> ->] & Hin).
  apply list_elem_of_split in Hin as (lns1 & lns2 & ->).
  rewrite fmap_app, fmap_cons in Hnd. apply (NoDup_fmap_middle key) in Hnd as (? & ? & _).
  by exists lns1, e, lns2.
Qed.

Lemma indexed_perm m lns lns' : lns ≡ₚ lns' → indexed m lns → indexed m lns'.
Proof.
  intros Hperm [Hnd ->]. split.
  - unfold Keyed.keys. by rewrite <-Hperm.
  - apply list_to_map_proper; [by rewrite indexed_keys | by rewrite Hperm].
Qed.

Lemma indexed_delete m lns1 n e lns2 :
  indexed m (lns1 ++ (n, e) :: lns2) → indexed (delete (key e) m) (lns1 ++ lns2).
Proof.
  intros [Hnd ->]. rewrite fmap_app, fmap_cons in Hnd. simpl in Hnd.
  apply (NoDup_fmap_middle key) in Hnd as (? & ? & ?).
  split; [by rewrite fmap_app|]. rewrite fmap_app, fmap_cons, fmap_app. simpl.
  apply delete_list_to_map_middle; by rewrite indexed_keys.
Qed.

Lemma indexed_insert m lns n e :
  indexed m lns → key e ∉ keys lns.*2 → indexed (<[key e := n]> m) ((n, e) :: lns).
Proof.
  intros [Hnd ->] Hk. split; [|done]. unfold Keyed.keys in *. rewrite !fmap_cons.
  by constructor.
Qed.

Lemma indexed_replace m lns1 n e e' lns2 :
  key e' = key e → indexed m (lns1 ++ (n, e) :: lns2) → indexed m (lns1 ++ (n, e') :: lns2).
Proof.
  intros Hk [Hnd ->]. unfold indexed, Keyed.keys in *. rewrite !fmap_app, !fmap_cons in *.
  simpl in *. by rewrite Hk.
Qed.
End index.
Arguments indexed {L E} key items lns.
