(* ===== verification/DList.v ===== *)
(** The intrusive doubly linked list of the cache backends: the pointer
    updates of [addToFront] and [removeNode] (cache/lru.go, and word for word
    in cache/fifo.go and, with a length counter, cache/lfu.go), over an
    explicit heap, and their specification on the sequence of nodes. *)
From S2P Require Import Prelude.

(** Node addresses. *)
Abbreviation loc := positive.

(** A node: the data fields of [lruNode], [fifoNode] or [lfuNode] as the
    payload, and the two pointers; [None] is [nil]. *)
Record node (P : Type) := Node {
  payload : P;
  prev : option loc;
  next : option loc;
}.
Arguments Node {P} _ _ _.
Arguments payload {P} _.
Arguments prev {P} _.
Arguments next {P} _.

(** The [head] and [tail] fields of a list. *)
Record dlist := DList {
  head : option loc;
  tail : option loc;
}.

Definition emptyList : dlist := DList None None.

Section operations.
Context {P : Type}.
Implicit Types h : gmap loc (node P).

(** Writing a field through a pointer; [None] is a nil dereference. *)
Definition setPrev h (n : loc) (p : option loc) : option (gmap loc (node P)) :=
  nd ← h !! n; Some (<[n := Node (payload nd) p (next nd)]> h).

Definition setNext h (n : loc) (q : option loc) : option (gmap loc (node P)) :=
  nd ← h !! n; Some (<[n := Node (payload nd) (prev nd) q]> h).

(** [node.prev = nil; node.next = c.head; if c.head != nil { c.head.prev = node };
    c.head = node; if c.tail == nil { c.tail = node }]. *)
Definition addToFront h (l : dlist) (n : loc) : option (gmap loc (node P) * dlist) :=
  h1 ← setPrev h n None;
  h2 ← setNext h1 n (head l);
  h3 ← match head l with
       | Some hd => setPrev h2 hd (Some n)
       | None => Some h2
       end;
  Some (h3, DList (Some n)
                  (match tail l with None => Some n | Some t => Some t end)).

(** The unlinking of a node, each field read when the code reads it. *)
Definition removeNode h (l : dlist) (n : loc) : option (gmap loc (node P) * dlist) :=
  nd ← h !! n;
  '(h1, l1) ← match prev nd with
              | Some p => h' ← setNext h p (next nd); Some (h', l)
              | None => Some (h, DList (next nd) (tail l))
              end;
  nd1 ← h1 !! n;
  '(h2, l2) ← match next nd1 with
              | Some q => h' ← setPrev h1 q (prev nd1); Some (h', l1)
              | None => Some (h1, DList (head l1) (prev nd1))
              end;
  h3 ← setPrev h2 n None;
  h4 ← setNext h3 n None;
  Some (h4, l2).
End operations.

(** ** Representation *)

Section representation.
Context {P : Type}.
Implicit Types h : gmap loc (node P).
Implicit Types ns : list loc.

(** First node of [ns], or the node after the segment. *)
Definition first_of ns (q : option loc) : option loc :=
  match ns with [] => q | n :: _ => Some n end.

(** Last node of [ns], or the node before the segment. *)
Definition last_of (p : option loc) ns : option loc :=
  match last ns with None => p | Some n => Some n end.

(** The nodes [ns] are linked in order, between [p] and [q]. *)
Fixpoint seg h (p : option loc) ns (q : option loc) : Prop :=
  match ns with
  | [] => True
  | n :: ns' =>
      (∃ x, h !! n = Some (Node x p (first_of ns' q))) ∧ seg h (Some n) ns' q
  end.

Definition dll h (l : dlist) ns : Prop :=
  NoDup ns ∧ head l = first_of ns None ∧ tail l = last_of None ns ∧
  seg h None ns None.

(** The data fields of the nodes, which no pointer update changes. *)
Definition payloads h : gmap loc P := payload <$> h.

(** What an update of the list [ns] leaves alone. *)
Definition frame ns h h' : Prop :=
  payloads h' = payloads h ∧ ∀ m, m ∉ ns → h' !! m = h !! m.

Lemma last_of_None ns : last_of None ns = None → ns = [].
Proof. unfold last_of. case_match eqn:E; [done|]. by apply last_None in E. Qed.

Lemma first_of_None ns : first_of ns None = None → ns = [].
Proof. by destruct ns. Qed.

Lemma last_of_cons p n ns : last_of p (n :: ns) = last_of (Some n) ns.
Proof. unfold last_of. rewrite last_cons. by destruct (last ns). Qed.

Lemma last_of_app p ns1 ns2 : last_of p (ns1 ++ ns2) = last_of (last_of p ns1) ns2.
Proof.
  unfold last_of. rewrite last_app. by destruct (last ns2).
Qed.

Lemma first_of_app ns1 ns2 q : first_of (ns1 ++ ns2) q = first_of ns1 (first_of ns2 q).
Proof. by destruct ns1. Qed.

Lemma seg_app h p ns1 ns2 q :
  seg h p (ns1 ++ ns2) q ↔
  seg h p ns1 (first_of ns2 q) ∧ seg h (last_of p ns1) ns2 q.
Proof.
  revert p. induction ns1 as [|n ns1 IH]; intros p; simpl; [naive_solver|].
  rewrite IH, last_of_cons, first_of_app. naive_solver.
Qed.

Lemma seg_ext h h' p ns q :
  (∀ n, n ∈ ns → h' !! n = h !! n) → seg h p ns q → seg h' p ns q.
Proof.
  revert p. induction ns as [|n ns IH]; intros p Hext; simpl; [done|].
  intros [[x Hx] Hseg]. split.
  - exists x. rewrite Hext; [done | left].
  - apply IH; [|done]. intros m Hm. apply Hext. by right.
Qed.

(** Writing the data fields of a node keeps the links. *)
Lemma seg_payload h p ns q n x p0 q0 :
  h !! n = Some (Node x p0 q0) → ∀ y, seg h p ns q → seg (<[n := Node y p0 q0]> h) p ns q.
Proof.
  intros Hn y. revert p. induction ns as [|m ns IH]; intros p; simpl; [done|].
  intros [[z Hz] Hs]. split; [|by apply IH].
  destruct (decide (n = m)) as [<-|]; simplify_map_eq; eauto.
Qed.

Lemma seg_lookup h p ns q n : seg h p ns q → n ∈ ns → is_Some (h !! n).
Proof.
  revert p. induction ns as [|m ns IH]; intros p; simpl; [set_solver|].
  intros [[x Hx] Hseg] [->|Hn]%elem_of_cons; [eauto | by eapply IH].
Qed.

(** Redirecting the pointer that enters a segment from the left or leaves it
    on the right. *)
Lemma seg_set_first h p p' n ns q x :
  n ∉ ns → h !! n = Some (Node x p (first_of ns q)) → seg h (Some n) ns q →
  seg (<[n := Node x p' (first_of ns q)]> h) p' (n :: ns) q.
Proof.
  intros Hn Hx Hseg. simpl. split; [exists x; by simplify_map_eq|].
  eapply seg_ext; [|done]. intros m Hm. rewrite lookup_insert_ne; set_solver.
Qed.

Lemma seg_set_last h p ns n q q' x :
  n ∉ ns → h !! n = Some (Node x (last_of p ns) q) → seg h p ns (Some n) →
  seg (<[n := Node x (last_of p ns) q']> h) p (ns ++ [n]) q'.
Proof.
  intros Hn Hx Hseg. apply seg_app. simpl. split.
  - eapply seg_ext; [|done]. intros m Hm. rewrite lookup_insert_ne; set_solver.
  - split; [exists x; by simplify_map_eq | done].
Qed.

Lemma dll_lookup h l ns n : dll h l ns → n ∈ ns → is_Some (h !! n).
Proof. intros (_ & _ & _ & Hseg). by eapply seg_lookup. Qed.

Lemma dll_frame h h' l ns :
  (∀ n, n ∈ ns → h' !! n = h !! n) → dll h l ns → dll h' l ns.
Proof.
  intros Hext (? & ? & ? & ?). split_and!; try done. by eapply seg_ext.
Qed.

Lemma dll_empty h : dll h emptyList [].
Proof. split_and!; [constructor | done | done | done]. Qed.

(** ** Field writes *)

Lemma setPrev_spec h n x p q p' :
  h !! n = Some (Node x p q) → setPrev h n p' = Some (<[n := Node x p' q]> h).
Proof. intros Hn. unfold setPrev. by rewrite Hn. Qed.

Lemma setNext_spec h n x p q q' :
  h !! n = Some (Node x p q) → setNext h n q' = Some (<[n := Node x p q']> h).
Proof. intros Hn. unfold setNext. by rewrite Hn. Qed.

Lemma payloads_insert h n nd x :
  payload <$> h !! n = Some (payload nd) → payload nd = x →
  payloads (<[n := nd]> h) = payloads h.
Proof.
  intros Hn <-. unfold payloads. rewrite fmap_insert. apply insert_id.
  by rewrite lookup_fmap.
Qed.

Lemma frame_refl ns h : frame ns h h.
Proof. by split. Qed.

Lemma frame_trans ns h1 h2 h3 : frame ns h1 h2 → frame ns h2 h3 → frame ns h1 h3.
Proof.
  intros [Hp1 Hf1] [Hp2 Hf2]. split; [congruence|].
  intros m Hm. rewrite Hf2 by done. by apply Hf1.
Qed.

Lemma frame_mono ns ns' h h' : (∀ n, n ∈ ns → n ∈ ns') → frame ns h h' → frame ns' h h'.
Proof. intros Hsub [Hp Hf]. split; [done|]. intros m Hm. apply Hf. naive_solver. Qed.

Lemma frame_insert ns h n nd0 nd :
  n ∈ ns → h !! n = Some nd0 → payload nd = payload nd0 →
  frame ns h (<[n := nd]> h).
Proof.
  intros Hn Hl Hp. split.
  - apply (payloads_insert _ _ _ (payload nd)); [|done]. by rewrite Hl, Hp.
  - intros m Hm. rewrite lookup_insert_ne; [done | set_solver].
Qed.

(** Redirecting what follows, or precedes, a segment. *)
Lemma relink_left h ns q q' :
  NoDup ns → seg h None ns q →
  ∃ h1, match last_of None ns with Some p => setNext h p q' | None => Some h end
          = Some h1 ∧ seg h1 None ns q' ∧ frame ns h h1.
Proof.
  destruct ns as [|p ns0 _] using rev_ind.
  - intros _ _. exists h. split_and!; [done | done | apply frame_refl].
  - intros [_ [Hd _]]%NoDup_app Hseg.
    assert (p ∉ ns0) by set_solver.
    apply seg_app in Hseg as [Hseg0 [[x Hx] _]]. simpl in *.
    unfold last_of at 1. rewrite last_snoc, (setNext_spec _ _ _ _ _ _ Hx).
    eexists; split_and!; [done | by eapply seg_set_last |].
    eapply frame_insert; [set_solver | done | done].
Qed.

Lemma relink_right h ns p p' :
  NoDup ns → seg h p ns None →
  ∃ h1, match first_of ns None with Some q => setPrev h q p' | None => Some h end
          = Some h1 ∧ seg h1 p' ns None ∧ frame ns h h1.
Proof.
  destruct ns as [|q ns]; simpl.
  - intros _ _. exists h. split_and!; [done | done | apply frame_refl].
  - intros [Hq Hnd]%NoDup_cons [[x Hx] Hseg].
    rewrite (setPrev_spec _ _ _ _ _ _ Hx).
    eexists; split; [done|]; split; [by eapply (seg_set_first h p p')|].
    eapply frame_insert; [set_solver | done | done].
Qed.

(** ** The operations *)

Lemma addToFront_spec h l ns n :
  dll h l ns → n ∉ ns → is_Some (h !! n) →
  ∃ h' l', addToFront h l n = Some (h', l') ∧ dll h' l' (n :: ns) ∧
           frame (n :: ns) h h'.
Proof.
  intros (Hnd & Hh & Ht & Hseg) Hn [[x p0 q0] Hx]. unfold addToFront.
  rewrite (setPrev_spec _ _ _ _ _ _ Hx). simpl.
  rewrite (setNext_spec _ _ x None q0) by (by simplify_map_eq). simpl.
  rewrite insert_insert_eq, Hh.
  set (h2 := <[n := Node x None (first_of ns None)]> h).
  assert (seg h2 None ns None) as Hseg2.
  { eapply seg_ext; [|done]. intros m Hm. unfold h2. rewrite lookup_insert_ne; set_solver. }
  destruct (relink_right h2 ns None (Some n) Hnd Hseg2) as (h3 & E & Hs & Hf).
  rewrite E. simpl. do 2 eexists. split_and!; [done | |].
  - split_and!; [by constructor | done | |].
    + rewrite Ht, last_of_cons. unfold last_of. simpl. by destruct (last ns).
    + split; [|done]. exists x. destruct Hf as [_ Hf]. rewrite Hf by done.
      unfold h2. by rewrite lookup_insert_eq.
  - eapply frame_trans; [|eapply frame_mono; [|done]; set_solver].
    eapply frame_insert; [left | done | done].
Qed.

Lemma removeNode_spec h l ns1 n ns2 :
  dll h l (ns1 ++ n :: ns2) →
  ∃ h' l', removeNode h l n = Some (h', l') ∧ dll h' l' (ns1 ++ ns2) ∧
           frame (ns1 ++ n :: ns2) h h'.
Proof.
  intros (Hnd & Hh & Ht & Hseg).
  apply NoDup_app in Hnd as (Hnd1 & Hd & [Hn2 Hnd2]%NoDup_cons).
  assert (n ∉ ns1) as Hn1 by (intros ?; eapply (Hd n); [done|left]).
  apply seg_app in Hseg as [Hs1 [[x Hx] Hs2]]. simpl in *.
  unfold removeNode. rewrite Hx. simpl.
  destruct (relink_left h ns1 (Some n) (first_of ns2 None) Hnd1 Hs1) as (h1 & E1 & Hs1' & Hf1).
  assert (h1 !! n = Some (Node x (last_of None ns1) (first_of ns2 None))) as Hx1.
  { destruct Hf1 as [_ Hf1]. by rewrite Hf1. }
  assert (seg h1 (Some n) ns2 None) as Hs2'.
  { eapply seg_ext; [|done]. intros m Hm. apply Hf1. intros Hm1.
    by apply (Hd m Hm1), list_elem_of_further. }
  destruct (relink_right h1 ns2 (Some n) (last_of None ns1) Hnd2 Hs2') as (h2 & E2 & Hs2'' & Hf2).
  assert (h2 !! n = Some (Node x (last_of None ns1) (first_of ns2 None))) as Hx2.
  { destruct Hf2 as [_ Hf2]. by rewrite Hf2. }
  pose (h4 := <[n := Node x None None]> h2).
  assert (∀ m, m ∈ ns1 ++ ns2 → h4 !! m = h2 !! m) as Hh4.
  { intros m Hm. unfold h4. rewrite lookup_insert_ne; set_solver. }
  exists h4, (DList (first_of (ns1 ++ ns2) None) (last_of None (ns1 ++ ns2))).
  split_and!.
  - assert (∀ l' : dlist, (h3 ← setPrev h2 n None; h4' ← setNext h3 n None; Some (h4', l'))
                  = Some (h4, l')) as E4.
    { intros l'. rewrite (setPrev_spec _ _ _ _ _ _ Hx2). simpl.
      erewrite setNext_spec by apply lookup_insert_eq.
      by rewrite insert_insert_eq. }
    rewrite last_of_app, first_of_app. destruct l as [hd tl]; simpl in *; subst.
    rewrite last_of_app, last_of_cons, first_of_app. simpl.
    destruct (last_of None ns1) as [p|] eqn:El.
    2: apply last_of_None in El; subst ns1; injection E1 as ->.
    all: rewrite ?E1; simpl; rewrite Hx1; simpl.
    all: destruct (first_of ns2 None) as [q|] eqn:Ef.
    2,4: apply first_of_None in Ef; subst ns2; injection E2 as ->.
    all: rewrite ?E2; simpl; rewrite E4; do 3 f_equal.
    all: try (destruct ns1; [discriminate | reflexivity]).
    all: destruct ns2; [discriminate | by rewrite ?last_of_cons].
  - split_and!; [|done|done|].
    + apply NoDup_app. split_and!; [done | | done].
      intros m Hm1 Hm2. by apply (Hd m Hm1), list_elem_of_further.
    + eapply seg_ext; [apply Hh4|]. apply seg_app. split; [|done].
      eapply seg_ext; [|done]. intros m Hm. apply Hf2. intros Hm2.
      by apply (Hd m Hm), list_elem_of_further.
  - apply (frame_trans _ _ h2); [|eapply frame_insert; [|done|done]; set_solver].
    apply (frame_trans _ _ h1); [eapply frame_mono, Hf1 | eapply frame_mono, Hf2];
      set_solver.
Qed.
End representation.

#[export] Hint Resolve frame_refl : golibs.
#[export] Hint Resolve list_elem_of_here : golibs.
