(* ===== verification/CacheIface.v ===== *)
(** What the cache backends share: the metrics counters, expiry times, the
    operations of the [Cache] interface and the contract every backend is
    proved to satisfy, and the singleflight-protected [GetOrFetch], whose text
    is the same in cache/lru.go, cache/lfu.go and cache/fifo.go. *)
From S2P Require Import Prelude.

(** [cache.Metrics]: the number of [Inc] calls made on each collector. *)
Record Metrics := mkMetrics { Hits : Z; Misses : Z; Evictions : Z }.

Definition noMetrics : Metrics := mkMetrics 0 0 0.
Definition incHits (m : Metrics) : Metrics := mkMetrics (Hits m + 1) (Misses m) (Evictions m).
Definition incMisses (m : Metrics) : Metrics := mkMetrics (Hits m) (Misses m + 1) (Evictions m).
Definition incEvictions (m : Metrics) : Metrics := mkMetrics (Hits m) (Misses m) (Evictions m + 1).

(** [var exp int64; if len(ttl) > 0 && ttl[0] > 0 { exp = now.Add(ttl[0]).UnixNano() }]. *)
Definition expiry (ttl : list Duration) (now : Time) : Z :=
  match ttl with
  | d :: _ => if 0 <? d then UnixNano (time_Add now d) else 0
  | [] => 0
  end.

(** [expiration > 0 && expiration <= now.UnixNano()]. *)
Definition expired (exp : Z) (now : Time) : bool :=
  (0 <? exp) && (exp <=? UnixNano now).

(** The clock readings one call makes, in order. *)
Definition readings := nat → Time.

(** Readings between 1970 and 2262 that do not go back. *)
Definition steady (clk : readings) : Prop :=
  (∀ i, 0 < UnixNano (clk i) < maxInt64) ∧
  (∀ i j, (i <= j)%nat → UnixNano (clk i) <= UnixNano (clk j)).

(** Stored expiration times are not negative: [now + ttl] is before 2262. *)
Definition expiryOk (ttl : list Duration) (now : Time) : Prop := 0 <= expiry ttl now.

(** The operations of the [Cache] interface on a backend of type [B]; the
    outer [option] is [None] when the code would dereference a nil pointer. *)
Class CacheBackend (B T : Type) := {
  cget : B → string → readings → option (option T * B);
  cset : B → string → T → list Duration → readings → option B;
  cdelete : B → string → option B;
  clen : B → Z;
}.

(** The value a lookup may return: the stored one, unless it has expired. *)
Definition live {T} (now : Time) (o : option (T * Z)) : option T :=
  match o with
  | Some (v, e) => if expired e now then None else Some v
  | None => None
  end.

(** The contract of [Cache[T]] (cache/cache.go), on the set of stored entries
    [view]: no operation fails; [Get] returns the live entry and drops an
    expired one; [Set] stores the entry, evicts at most other keys and adds
    none; [Delete] removes the key only; [Len] counts, within the capacity
    (if there is one). *)
Class CacheContract (B T : Type) `{CacheBackend B T} := {
  inv : B → Prop;
  view : B → gmap string (T * Z);
  bound : B → option Z;
  contract_get : ∀ b k clk, inv b → steady clk →
    ∃ b', cget b k clk = Some (live (clk 0%nat) (view b !! k), b') ∧ inv b' ∧
      bound b' = bound b ∧
      view b' = match view b !! k with
                | Some (_, e) => if expired e (clk 0%nat) then delete k (view b) else view b
                | None => view b
                end;
  contract_set : ∀ b k v ttl clk, inv b → steady clk → expiryOk ttl (clk 0%nat) →
    ∃ b', cset b k v ttl clk = Some b' ∧ inv b' ∧ bound b' = bound b ∧
      view b' !! k = Some (v, expiry ttl (clk 0%nat)) ∧
      ∀ k', k' ≠ k → view b' !! k' = view b !! k' ∨ view b' !! k' = None;
  contract_delete : ∀ b k, inv b →
    ∃ b', cdelete b k = Some b' ∧ inv b' ∧ bound b' = bound b ∧ view b' = delete k (view b);
  contract_len : ∀ b, inv b →
    clen b = Z.of_nat (size (view b)) ∧ ∀ n, bound b = Some n → clen b <= n;
}.

(** ** Histories *)

(** One call of the interface, with the clock readings the call makes. *)
Inductive op (T : Type) :=
| OpGet (k : string) (clk : readings)
| OpSet (k : string) (v : T) (ttl : list Duration) (clk : readings)
| OpDelete (k : string)
| OpLen.
Arguments OpGet {T} _ _.
Arguments OpSet {T} _ _ _ _.
Arguments OpDelete {T} _.
Arguments OpLen {T}.

Inductive resp (T : Type) := RGet (o : option T) | RDone | RLen (n : Z).
Arguments RGet {T} _.
Arguments RDone {T}.
Arguments RLen {T} _.

Section histories.
Context {B T : Type} `{CacheBackend B T}.

Definition step (b : B) (o : op T) : option (resp T * B) :=
  match o with
  | OpGet k clk => '(r, b') ← cget b k clk; Some (RGet r, b')
  | OpSet k v ttl clk => b' ← cset b k v ttl clk; Some (RDone, b')
  | OpDelete k => b' ← cdelete b k; Some (RDone, b')
  | OpLen => Some (RLen (clen b), b)
  end.

Fixpoint run (b : B) (os : list (op T)) : option (list (resp T) * B) :=
  match os with
  | [] => Some ([], b)
  | o :: os' => '(r, b1) ← step b o; '(rs, b2) ← run b1 os'; Some (r :: rs, b2)
  end.

(** A step-by-step simulation of a reference policy extends to histories. *)
Context {S : Type} (specStep : S → op T → resp T * S) (R : B → S → Prop).

Fixpoint specRun (s : S) (os : list (op T)) : list (resp T) * S :=
  match os with
  | [] => ([], s)
  | o :: os' =>
      let '(r, s1) := specStep s o in let '(rs, s2) := specRun s1 os' in (r :: rs, s2)
  end.

Lemma run_refines :
  (∀ b s o, R b s → ∃ b', step b o = Some ((specStep s o).1, b') ∧ R b' (specStep s o).2) →
  ∀ os b s, R b s → ∃ b', run b os = Some ((specRun s os).1, b') ∧ R b' (specRun s os).2.
Proof.
  intros Hsim os. induction os as [|o os IH]; intros b s HR; simpl; [by eauto|].
  destruct (Hsim b s o HR) as (b1 & -> & HR1). simpl.
  destruct (specStep s o) as [r s1]. simpl in *.
  destruct (IH b1 s1 HR1) as (b2 & -> & HR2). destruct (specRun s1 os) as [rs s2].
  simpl in *. eauto.
Qed.
End histories.

(** ** What any client may rely on *)

(** A cache is a map that may forget: the steps of a map of entries in which a
    write may drop other keys, but no step invents or alters an entry. *)
Inductive lossyStep {T} (limit : option Z) :
    gmap string (T * Z) → op T → resp T → gmap string (T * Z) → Prop :=
| LossyGet m k clk :
    lossyStep limit m (OpGet k clk) (RGet (live (clk 0%nat) (m !! k)))
      (match m !! k with
       | Some (_, e) => if expired e (clk 0%nat) then delete k m else m
       | None => m
       end)
| LossySet m m' k v ttl clk :
    m' !! k = Some (v, expiry ttl (clk 0%nat)) →
    (∀ k', k' ≠ k → m' !! k' = m !! k' ∨ m' !! k' = None) →
    lossyStep limit m (OpSet k v ttl clk) RDone m'
| LossyDelete m k : lossyStep limit m (OpDelete k) RDone (delete k m)
| LossyLen m :
    (∀ n, limit = Some n → Z.of_nat (size m) <= n) →
    lossyStep limit m OpLen (RLen (Z.of_nat (size m))) m.

Inductive lossyRun {T} (limit : option Z) :
    gmap string (T * Z) → list (op T) → list (resp T) → gmap string (T * Z) → Prop :=
| LossyNil m : lossyRun limit m [] [] m
| LossyCons m1 o r m2 os rs m3 :
    lossyStep limit m1 o r m2 → lossyRun limit m2 os rs m3 →
    lossyRun limit m1 (o :: os) (r :: rs) m3.

(** The clock readings of a call are in range and do not go back. *)
Definition opOk {T} (o : op T) : Prop :=
  match o with
  | OpGet _ clk => steady clk
  | OpSet _ _ ttl clk => steady clk ∧ expiryOk ttl (clk 0%nat)
  | _ => True
  end.

Section clients.
Context {B T : Type} `{CacheContract B T}.

Lemma contract_step b (o : op T) :
  inv b → opOk o →
  ∃ r b', step b o = Some (r, b') ∧ inv b' ∧ bound b' = bound b ∧
          lossyStep (bound b) (view b) o r (view b').
Proof.
  intros Hb Ho. destruct o as [k clk|k v ttl clk|k|]; simpl in *.
  - destruct (contract_get b k clk Hb Ho) as (b' & -> & ? & ? & Hv). simpl.
    do 2 eexists; split_and!; try done. rewrite Hv. constructor.
  - destruct Ho as [Hc He].
    destruct (contract_set b k v ttl clk Hb Hc He) as (b' & -> & ? & ? & ? & ?). simpl.
    do 2 eexists; split_and!; try done. by constructor.
  - destruct (contract_delete b k Hb) as (b' & -> & ? & ? & Hv). simpl.
    do 2 eexists; split_and!; try done. rewrite Hv. constructor.
  - destruct (contract_len b Hb) as [Hlen Hle].
    do 2 eexists; split_and!; try done. rewrite Hlen in *. by constructor.
Qed.

Lemma contract_run os b :
  inv b → Forall opOk os →
  ∃ rs b', run b os = Some (rs, b') ∧ inv b' ∧ bound b' = bound b ∧
           lossyRun (bound b) (view b) os rs (view b').
Proof.
  intros Hb Hos. revert b Hb. induction Hos as [|o os Ho Hos IH]; intros b Hb; simpl.
  { do 2 eexists; split_and!; try done. constructor. }
  destruct (contract_step b o Hb Ho) as (r & b1 & -> & Hb1 & Hbd & Hst). simpl.
  destruct (IH b1 Hb1) as (rs & b2 & -> & ? & ? & ?). simpl.
  do 2 eexists; split_and!; try done; [congruence|]. econstructor; [done|]. by rewrite <-Hbd.
Qed.
End clients.

(** ** GetOrFetch *)

(** golang.org/x/sync/singleflight's [DoChan]: either this call is the leader
    and its function runs, or it joins a call in flight for the same key and
    receives the result of that one. *)
Inductive flight (T : Type) :=
| Leader
| Joined (r : T + error).
Arguments Leader {T}.
Arguments Joined {T} _.

Section getOrFetch.
Context {B T : Type} `{CacheBackend B T}.

(** The function passed to [DoChan]: fetch, and store the value on success. *)
Definition fetchAndSet (b : B) (k : string) (ttl : Duration) (fetched : T + error)
    (clk : readings) : option ((T + error) * B) :=
  match fetched with
  | inr e => Some (inr e, b)
  | inl v => b' ← cset b k v [ttl] clk; Some (inl v, b')
  end.

(** The body of [GetOrFetch], which lru.go, lfu.go and fifo.go repeat over
    their own [Get] and [Set]: [ctxErr] is [ctx.Err()] on entry, [done] is [ctx.Err()] when
    the final [select] takes the [ctx.Done()] branch (the leader's function
    then still runs to its end), [clk1] and [clk2] are the clock readings of
    [Get] and of [Set]. *)
Definition getOrFetch (b : B) (ctxErr : option error) (k : string) (ttl : Duration)
    (fetched : T + error) (fl : flight T) (done : option error) (clk1 clk2 : readings)
    : option ((T + error) * B) :=
  match ctxErr with
  | Some e => Some (inr e, b)
  | None =>
      '(r, b1) ← cget b k clk1;
      match r with
      | Some v => Some (inl v, b1)
      | None =>
          '(res, b2) ← match fl with
                       | Leader => fetchAndSet b1 k ttl fetched clk2
                       | Joined res => Some (res, b1)
                       end;
          Some (match done with Some e => inr e | None => res end, b2)
      end
  end.

Context `{!CacheContract B T}.

(** The guarantee of [GetOrFetch] on the stored entries [m], and on [m'] after
    it, for the call that leads the flight. *)
Definition fetchSpec (m m' : gmap string (T * Z)) (ctxErr : option error) (k : string)
    (ttl : Duration) (fetched : T + error) (done : option error) (t1 t2 : Time)
    (r : T + error) : Prop :=
  match ctxErr, live t1 (m !! k) with
  | Some e, _ => r = inr e ∧ m' = m
  | None, Some v => r = inl v ∧ m' = m
  | None, None =>
      r = match done with Some e => inr e | None => fetched end ∧
      match fetched with
      | inl v =>
          m' !! k = Some (v, expiry [ttl] t2) ∧
          ∀ k', k' ≠ k → m' !! k' = m !! k' ∨ m' !! k' = None
      | inr _ => live t1 (m' !! k) = None ∧ ∀ k', k' ≠ k → m' !! k' = m !! k'
      end
  end.

Lemma getOrFetch_contract b ctxErr k ttl fetched done clk1 clk2 :
  inv b → steady clk1 → steady clk2 → expiryOk [ttl] (clk2 0%nat) →
  ∃ r b', getOrFetch b ctxErr k ttl fetched Leader done clk1 clk2 = Some (r, b') ∧ inv b' ∧
    bound b' = bound b ∧
    fetchSpec (view b) (view b') ctxErr k ttl fetched done (clk1 0%nat) (clk2 0%nat) r.
Proof.
  intros Hb Hc1 Hc2 Hexp. unfold getOrFetch, fetchSpec. destruct ctxErr as [e|]; [by eauto 8|].
  destruct (contract_get b k clk1 Hb Hc1) as (b1 & -> & Hb1 & Hbd1 & Hv1). simpl.
  assert (∀ k', k' ≠ k → view b1 !! k' = view b !! k') as Hother.
  { intros k' Hk'. rewrite Hv1. destruct (view b !! k) as [[? ?]|]; [|done].
    case_match; [by apply lookup_delete_ne | done]. }
  destruct (live _ (view b !! k)) as [v|] eqn:Elive; simpl.
  { do 2 eexists; split_and!; try done. unfold live in Elive. rewrite Hv1. by cases. }
  destruct fetched as [w|err]; simpl.
  - destruct (contract_set b1 k w [ttl] clk2 Hb1 Hc2 Hexp) as (b2 & -> & ? & ? & ? & Hk).
    simpl. do 2 eexists; split_and!; try done; [congruence|].
    intros k' Hk'. rewrite <-Hother by done. by apply Hk.
  - do 2 eexists; split_and!; try done. rewrite Hv1. unfold live in *.
    destruct (view b !! k) as [[v e]|] eqn:Ek; [|by rewrite Ek].
    destruct (expired e (clk1 0%nat)) eqn:Ex; simplify_eq. by rewrite lookup_delete_eq.
Qed.
End getOrFetch.
