(* ===== verification/Linked.v ===== *)
(** The part the LRU and FIFO backends have in common: a map from keys to the
    nodes of one doubly linked list, newest node first. cache/fifo.go repeats
    the text of cache/lru.go for these operations. *)
From S2P Require Import Prelude Keyed DList CacheIface.

(** The data fields of [lruNode] and [fifoNode]. *)
Record entry (T : Type) := Entry {
  key : string;
  value : T;
  expiration : Z;
}.
Arguments Entry {T} _ _ _.
Arguments key {T} _.
Arguments value {T} _.
Arguments expiration {T} _.

(** [lruBackend], [fifoBackend]: [nodes] is the memory of the nodes, [brk] the
    next unused address. The mutex makes each method one atomic step. *)
Record backend (T : Type) := Backend {
  capacity : Z;
  items : gmap string loc;
  nodes : gmap loc (node (entry T));
  brk : loc;
  lst : dlist;
  metrics : Metrics;
}.
Arguments Backend {T} _ _ _ _ _ _.
Arguments capacity {T} _.
Arguments items {T} _.
Arguments nodes {T} _.
Arguments brk {T} _.
Arguments lst {T} _.
Arguments metrics {T} _.

Section operations.
Context {T : Type}.
Implicit Types c : backend T.

Definition withList c h l : backend T := Backend (capacity c) (items c) h (brk c) l (metrics c).
Definition withItems c m : backend T := Backend (capacity c) m (nodes c) (brk c) (lst c) (metrics c).
Definition withMetrics c m : backend T := Backend (capacity c) (items c) (nodes c) (brk c) (lst c) m.

(** [newLRUBackend], [newFIFOBackend]: a non-positive capacity becomes 128. *)
Definition newBackend (cap : Z) : backend T :=
  Backend (if cap <=? 0 then 128 else cap) ∅ ∅ 1%positive emptyList noMetrics.

Definition addToFront c (n : loc) : option (backend T) :=
  '(h, l) ← DList.addToFront (nodes c) (lst c) n; Some (withList c h l).

Definition removeNode c (n : loc) : option (backend T) :=
  '(h, l) ← DList.removeNode (nodes c) (lst c) n; Some (withList c h l).

(** [if c.head == node { return }; c.removeNode(node); c.addToFront(node)]. *)
Definition moveToFront c (n : loc) : option (backend T) :=
  if bool_decide (head (lst c) = Some n) then Some c
  else c1 ← removeNode c n; addToFront c1 n.

Definition evictOldest c : option (backend T) :=
  match tail (lst c) with
  | None => Some c
  | Some oldest =>
      c1 ← removeNode c oldest;
      nd ← nodes c1 !! oldest;
      Some (withMetrics (withItems c1 (delete (key (payload nd)) (items c1)))
                        (incEvictions (metrics c1)))
  end.

(** [&lruNode[T]{key: key, value: value, expiration: exp}]. *)
Definition newNode c (e : entry T) : loc * backend T :=
  (brk c, Backend (capacity c) (items c) (<[brk c := Node e None None]> (nodes c))
                  (Pos.succ (brk c)) (lst c) (metrics c)).

(** [node.value = value; node.expiration = exp]. *)
Definition writeNode c (n : loc) (v : T) (exp : Z) : option (backend T) :=
  nd ← nodes c !! n;
  Some (withList c (<[n := Node (Entry (key (payload nd)) v exp) (prev nd) (next nd)]> (nodes c))
                 (lst c)).

(** The branch of [Get] for an expired node. *)
Definition dropExpired c (n : loc) (k : string) : option (backend T) :=
  c1 ← removeNode c n;
  Some (withMetrics (withItems c1 (delete k (items c1)))
                    (incMisses (incEvictions (metrics c1)))).

(** The end of [Set] for a key that is not in the map. *)
Definition insertNew c (e : entry T) : option (backend T) :=
  c1 ← (if capacity c <=? Z.of_nat (size (items c)) then evictOldest c else Some c);
  let '(n, c2) := newNode c1 e in
  c3 ← addToFront c2 n;
  Some (withItems c3 (<[key e := n]> (items c3))).

Definition Delete c (k : string) : option (backend T) :=
  match items c !! k with
  | None => Some c
  | Some n => c1 ← removeNode c n; Some (withItems c1 (delete k (items c1)))
  end.

Definition Len c : Z := Z.of_nat (size (items c)).

(** The stored entries, as the client sees them. *)
Definition entryOf c (n : loc) : option (T * Z) :=
  nd ← nodes c !! n; Some (value (payload nd), expiration (payload nd)).

Definition contents c : gmap string (T * Z) := omap (entryOf c) (items c).
End operations.

(** ** The sequence of entries *)

Abbreviation keys := (Keyed.keys key).
Abbreviation findEntry := (Keyed.findEntry key).
Abbreviation without := (Keyed.without key).
Abbreviation viewOf := (Keyed.viewOf key (λ e, (value e, expiration e))).

(** ** Representation *)

Section representation.
Context {T : Type}.
Implicit Types c : backend T.
Implicit Types lns : list (loc * entry T).

(** The list is linked in the memory, and unused addresses are unused. *)
Definition chain c (ns : list loc) : Prop :=
  dll (nodes c) (lst c) ns ∧ ∀ n, is_Some (nodes c !! n) → (n < brk c)%positive.

(** Each node of the list holds its entry, and the map finds the nodes. *)
Definition linked c lns : Prop :=
  chain c lns.*1 ∧
  (∀ n e, (n, e) ∈ lns → payloads (nodes c) !! n = Some e) ∧
  indexed key (items c) lns.

Definition repr c (es : list (entry T)) : Prop := ∃ lns, linked c lns ∧ lns.*2 = es.

Lemma linked_size c lns : linked c lns → size (items c) = length lns.
Proof. intros (_ & _ & Hi). by eapply indexed_size. Qed.

Lemma linked_node c lns1 n e lns2 :
  linked c (lns1 ++ (n, e) :: lns2) →
  ∃ p q, nodes c !! n = Some (Node e p q).
Proof.
  intros (_ & Hp & _). assert (payloads (nodes c) !! n = Some e) as He
    by (apply Hp; set_solver).
  unfold payloads in He. rewrite lookup_fmap in He.
  destruct (nodes c !! n) as [[x p q]|]; simplify_eq/=. eauto.
Qed.

Lemma chain_withList c h l ns' ns :
  (∀ n, is_Some (nodes c !! n) → (n < brk c)%positive) →
  frame ns (nodes c) h → dll h l ns' → chain (withList c h l) ns'.
Proof.
  intros Hb [Hp _] Hd. split; [done|]. simpl. intros n Hn. apply Hb.
  assert (is_Some (payloads h !! n)) as Hs by (unfold payloads; by rewrite lookup_fmap, fmap_is_Some).
  rewrite Hp in Hs. unfold payloads in Hs. by rewrite lookup_fmap, fmap_is_Some in Hs.
Qed.

Lemma removeNode_chain c ns1 n ns2 :
  chain c (ns1 ++ n :: ns2) →
  ∃ h l, removeNode c n = Some (withList c h l) ∧ chain (withList c h l) (ns1 ++ ns2) ∧
         payloads h = payloads (nodes c).
Proof.
  intros [Hd Hb].
  destruct (removeNode_spec _ _ _ _ _ Hd) as (h & l & Er & Hd' & Hf).
  exists h, l. unfold removeNode. rewrite Er. split_and!; [done | | apply Hf].
  by eapply chain_withList.
Qed.

Lemma addToFront_chain c ns n :
  chain c ns → n ∉ ns → is_Some (nodes c !! n) →
  ∃ h l, addToFront c n = Some (withList c h l) ∧ chain (withList c h l) (n :: ns) ∧
         payloads h = payloads (nodes c).
Proof.
  intros [Hd Hb] Hn Hs.
  destruct (addToFront_spec _ _ _ _ Hd Hn Hs) as (h & l & Er & Hd' & Hf).
  exists h, l. unfold addToFront. rewrite Er. split_and!; [done | | apply Hf].
  by eapply chain_withList.
Qed.

(** Moving a node to the front, however it is linked. *)
Lemma moveToFront_chain c ns1 n ns2 :
  chain c (ns1 ++ n :: ns2) →
  ∃ h l, moveToFront c n = Some (withList c h l) ∧ chain (withList c h l) (n :: ns1 ++ ns2) ∧
         payloads h = payloads (nodes c).
Proof.
  intros Hc. unfold moveToFront. case_bool_decide as Hh.
  - exists (nodes c), (lst c). split_and!; [by destruct c | | done].
    destruct Hc as [(Hnd & Hh' & Hrest) Hb]. destruct ns1 as [|m ns1]; [done|].
    exfalso. rewrite Hh' in Hh. simplify_eq/=. apply NoDup_cons in Hnd. set_solver.
  - destruct (removeNode_chain _ _ _ _ Hc) as (h1 & l1 & -> & Hc1 & Hp1). simpl.
    destruct (addToFront_chain (withList c h1 l1) (ns1 ++ ns2) n) as (h2 & l2 & -> & Hc2 & Hp2).
    + done.
    + destruct Hc as [(Hnd & _) _]. rewrite <-Permutation_middle in Hnd.
      by apply NoDup_cons in Hnd as [? _].
    + apply (f_equal (.!! n)) in Hp1. unfold payloads in Hp1. rewrite !lookup_fmap in Hp1.
      destruct Hc as [Hd _]. destruct (dll_lookup _ _ _ n Hd) as [nd Hnd]; [set_solver|].
      rewrite Hnd in Hp1. simpl. by destruct (h1 !! n).
    + exists h2, l2. simpl in *. split_and!; [done | done | congruence].
Qed.

(** ** Updates of the represented sequence *)

Lemma linked_remove c lns1 n e lns2 :
  linked c (lns1 ++ (n, e) :: lns2) →
  ∃ c1, removeNode c n = Some c1 ∧ capacity c1 = capacity c ∧ metrics c1 = metrics c ∧
    items c1 = items c ∧ payloads (nodes c1) = payloads (nodes c) ∧
    linked (withItems c1 (delete (key e) (items c1))) (lns1 ++ lns2).
Proof.
  intros (Hc & Hp & Hi). rewrite fmap_app, fmap_cons in Hc. simpl in Hc.
  destruct (removeNode_chain _ _ _ _ Hc) as (h & l & -> & Hc' & Hpl).
  eexists. split_and!; try done. split_and!.
  - by rewrite fmap_app.
  - simpl. intros m em Hm. rewrite Hpl. apply Hp. set_solver.
  - by eapply indexed_delete.
Qed.

Lemma linked_front c lns1 n e lns2 :
  linked c (lns1 ++ (n, e) :: lns2) →
  ∃ c1, moveToFront c n = Some c1 ∧ capacity c1 = capacity c ∧ metrics c1 = metrics c ∧
    items c1 = items c ∧ linked c1 ((n, e) :: lns1 ++ lns2).
Proof.
  intros (Hc & Hp & Hi). rewrite fmap_app, fmap_cons in Hc. simpl in Hc.
  destruct (moveToFront_chain _ _ _ _ Hc) as (h & l & -> & Hc' & Hpl).
  eexists. split_and!; try done. split_and!.
  - rewrite fmap_cons, fmap_app. done.
  - simpl. intros m em Hm. rewrite Hpl. apply Hp. set_solver.
  - eapply indexed_perm; [|done]. by rewrite <-Permutation_middle.
Qed.

Lemma linked_write c lns1 n e lns2 v exp :
  linked c (lns1 ++ (n, e) :: lns2) →
  ∃ c1, writeNode c n v exp = Some c1 ∧ capacity c1 = capacity c ∧ metrics c1 = metrics c ∧
    items c1 = items c ∧ linked c1 (lns1 ++ (n, Entry (key e) v exp) :: lns2).
Proof.
  intros HL. destruct (linked_node _ _ _ _ _ HL) as (p & q & Hn).
  destruct HL as ([Hd Hb] & Hp & Hi). unfold writeNode. rewrite Hn. simpl.
  eexists. split_and!; try done. split_and!.
  - split.
    + rewrite fmap_app, fmap_cons in *. simpl in *.
      destruct Hd as (Hd1 & Hd2 & Hd3 & Hd4). split_and!; try done.
      by eapply seg_payload.
    + intros m. simpl. rewrite lookup_insert. case_decide; naive_solver.
  - simpl. intros m em Hm. unfold payloads. rewrite fmap_insert.
    destruct Hd as (Hndn & _). rewrite fmap_app, fmap_cons in Hndn. simpl in Hndn.
    apply NoDup_app in Hndn as (_ & Hdj & [Hn2 _]%NoDup_cons).
    apply elem_of_app in Hm as [Hm|[[= <- <-]|Hm]%elem_of_cons]; simpl.
    1,3: rewrite lookup_insert_ne by (apply list_elem_of_fmap_2 with (f := fst) in Hm; set_solver);
      apply Hp; set_solver.
    by rewrite lookup_insert_eq.
  - by eapply indexed_replace, Hi.
Qed.

Lemma linked_evict c lns n e :
  linked c (lns ++ [(n, e)]) →
  ∃ c1, evictOldest c = Some c1 ∧ capacity c1 = capacity c ∧
    metrics c1 = incEvictions (metrics c) ∧ linked c1 lns.
Proof.
  intros HL. pose proof HL as ([(_ & _ & Ht & _) _] & Hp & _).
  unfold evictOldest. rewrite Ht, fmap_app. unfold last_of. simpl.
  rewrite last_snoc. destruct (linked_remove _ _ _ _ _ HL) as (c1 & -> & Hcap & Hm & _ & Hpl & HL1).
  simpl. rewrite app_nil_r in HL1.
  assert (payloads (nodes c1) !! n = Some e) as He by (rewrite Hpl; apply Hp; set_solver).
  unfold payloads in He. rewrite lookup_fmap in He.
  destruct (nodes c1 !! n) as [nd|] eqn:En; simplify_eq/=.
  eexists. split_and!; [done | done | by rewrite <-Hm | done].
Qed.

Lemma linked_insert c lns e :
  linked c lns → key e ∉ keys lns.*2 →
  ∃ n c1, (let '(n, c2) := newNode c e in
           c3 ← addToFront c2 n; Some (withItems c3 (<[key e := n]> (items c3)))) = Some c1 ∧
    capacity c1 = capacity c ∧ metrics c1 = metrics c ∧ linked c1 ((n, e) :: lns).
Proof.
  intros ([Hd Hb] & Hp & Hi) Hk. simpl.
  assert (nodes c !! brk c = None) as Hfresh.
  { apply eq_None_not_Some. intros Hs%Hb. lia. }
  set (c2 := Backend _ _ _ _ _ _ : backend T).
  destruct (addToFront_chain c2 lns.*1 (brk c)) as (h & l & -> & Hc' & Hpl).
  - split.
    + eapply dll_frame; [|done]. intros m Hm. simpl. apply lookup_insert_ne.
      intros <-. destruct (dll_lookup _ _ _ _ Hd Hm). congruence.
    + simpl. intros m. rewrite lookup_insert. case_decide; [lia|]. intros ?%Hb. lia.
  - intros Hm. destruct (dll_lookup _ _ _ _ Hd Hm). congruence.
  - simpl. rewrite lookup_insert_eq. eauto.
  - exists (brk c). simpl. eexists. split_and!; try done. split_and!.
    + done.
    + intros m em Hm. simpl. rewrite Hpl. simpl. unfold payloads. rewrite fmap_insert.
      apply elem_of_cons in Hm as [[= -> ->]|Hm]; [by rewrite lookup_insert_eq|].
      rewrite lookup_insert_ne; [by apply Hp|]. intros <-.
      apply Hp in Hm. unfold payloads in Hm. rewrite lookup_fmap, Hfresh in Hm. done.
    + by apply indexed_insert.
Qed.

Lemma repr_insertNew c es e :
  repr c es → key e ∉ keys es → 1 <= capacity c →
  ∃ c1, insertNew c e = Some c1 ∧ capacity c1 = capacity c ∧
    (if capacity c <=? Z.of_nat (length es)
     then repr c1 (e :: removelast es) ∧ metrics c1 = incEvictions (metrics c)
     else repr c1 (e :: es) ∧ metrics c1 = metrics c).
Proof.
  intros (lns & HL & <-) Hk Hcap. unfold insertNew.
  rewrite (linked_size _ _ HL), length_fmap. destruct (_ <=? _) eqn:Efull; bool_to_prop.
  - destruct lns as [|[n en] lns _] using rev_ind; [simpl in *; lia|].
    destruct (linked_evict _ _ _ _ HL) as (c1 & -> & Hcap1 & Hm1 & HL1). simpl.
    rewrite fmap_app in *. simpl in *. rewrite removelast_last.
    destruct (linked_insert _ _ e HL1) as (m & c2 & E2 & Hcap2 & Hm2 & HL2);
      [unfold Keyed.keys in *; rewrite fmap_app in Hk; set_solver|].
    simpl in E2. rewrite E2. eexists. split_and!; [done | congruence | | congruence].
    by exists ((m, e) :: lns).
  - simpl. destruct (linked_insert _ _ e HL Hk) as (m & c2 & E2 & Hcap2 & Hm2 & HL2).
    simpl in E2. rewrite E2. eexists. split_and!; [done | congruence | | congruence].
    by exists ((m, e) :: lns).
Qed.

(** ** Lookups, removals and updates of represented backends *)

Lemma repr_lookup c es k :
  repr c es →
  match items c !! k with
  | None => findEntry k es = None ∧ without k es = es
  | Some n =>
      ∃ es1 e es2 p q, es = es1 ++ e :: es2 ∧ key e = k ∧ nodes c !! n = Some (Node e p q) ∧
        findEntry k es = Some e ∧ without k es = es1 ++ es2 ∧
        (∃ lns1 lns2, linked c (lns1 ++ (n, e) :: lns2) ∧ lns1.*2 = es1 ∧ lns2.*2 = es2)
  end.
Proof.
  intros (lns & HL & <-). destruct (items c !! k) as [n|] eqn:Ek.
  - destruct (indexed_Some _ _ _ _ (proj2 (proj2 HL)) Ek) as (lns1 & e & lns2 & -> & Hk & Hk1 & Hk2).
    destruct (linked_node _ _ _ _ _ HL) as (p & q & Hn).
    exists lns1.*2, e, lns2.*2, p, q. rewrite fmap_app, fmap_cons. simpl.
    rewrite findEntry_middle, without_middle by done. split_and!; try done. by exists lns1, lns2.
  - pose proof (indexed_None _ _ _ (proj2 (proj2 HL)) Ek). by rewrite findEntry_None, without_notin.
Qed.

Lemma repr_size c es : repr c es → Z.of_nat (size (items c)) = Z.of_nat (length es).
Proof. intros (lns & HL & <-). by rewrite (linked_size _ _ HL), length_fmap. Qed.

Lemma repr_new cap : repr (newBackend cap : backend T) [].
Proof.
  exists []. split; [|done]. split_and!; [split; [apply dll_empty|] | | apply indexed_nil].
  - intros n [x Hx]. done.
  - set_solver.
Qed.
End representation.

(** ** The client's view *)

Section views.
Context {T : Type}.
Implicit Types c : backend T.
Implicit Types es : list (entry T).

Lemma repr_NoDup c es : repr c es → NoDup (keys es).
Proof. by intros (lns & (_ & _ & Hnd & _) & <-). Qed.

Lemma repr_contents c es : repr c es → contents c = viewOf es.
Proof.
  intros HR. apply map_eq. intros k. unfold contents. rewrite lookup_omap, viewOf_lookup.
  pose proof (repr_lookup c es k HR) as Hl. destruct (items c !! k) as [n|]; simpl.
  - destruct Hl as (es1 & e & es2 & p & q & _ & _ & Hn & -> & _).
    unfold entryOf. by rewrite Hn.
  - by destruct Hl as [-> _].
Qed.
End views.
