(* ===== verification/Lru.v ===== *)
(** The strict LRU backend (cache/lru.go): the pointer-level operations, the
    reference policy on the sequence of entries in recency order, and the
    refinement between them. *)
From S2P Require Import Prelude Keyed DList CacheIface Linked.

(** A type of its own, so that its policy is found by its type. *)
Definition lruBackend (T : Type) : Type := backend T.
Definition newLRUBackend {T} (cap : Z) : lruBackend T := newBackend cap.

Section operations.
Context {T : Type}.
Implicit Types c : lruBackend T.

(** [Get]: a hit moves the node to the front; an expired node is removed. *)
Definition Get c (k : string) (now : Time) : option (option T * lruBackend T) :=
  match items c !! k with
  | None => Some (None, withMetrics c (incMisses (metrics c)))
  | Some n =>
      nd ← nodes c !! n;
      if expired (expiration (payload nd)) now then
        c1 ← dropExpired c n k; Some (None, c1)
      else
        c1 ← moveToFront c n;
        nd1 ← nodes c1 !! n;
        Some (Some (value (payload nd1)), withMetrics c1 (incHits (metrics c1)))
  end.

(** [Set]: an existing node is overwritten and moved to the front, a new one
    goes to the front after evicting the tail of a full list. *)
Definition Set_ c (k : string) (v : T) (ttl : list Duration) (now : Time) : option (lruBackend T) :=
  let exp := expiry ttl now in
  match items c !! k with
  | Some n => c1 ← writeNode c n v exp; moveToFront c1 n
  | None => insertNew c (Entry k v exp)
  end.

Definition Delete c (k : string) : option (lruBackend T) := Linked.Delete c k.
Definition Len c : Z := Linked.Len c.
End operations.

#[global] Typeclasses Opaque lruBackend.

#[export] Instance lru_backend {T} : CacheBackend (lruBackend T) T := {|
  cget c k clk := Get c k (clk 0%nat);
  cset c k v ttl clk := Set_ c k v ttl (clk 0%nat);
  cdelete := Delete; clen := Len;
|}.

Definition GetOrFetch {T} (c : lruBackend T) (ctxErr : option error) (k : string) (ttl : Duration)
    (fetched : T + error) (fl : flight T) (done : option error) (clk1 clk2 : readings)
    : option ((T + error) * lruBackend T) :=
  getOrFetch c ctxErr k ttl fetched fl done clk1 clk2.

(** ** The reference policy *)

(** The entries, most recently used first, and the counters. *)
Record lruSpec (T : Type) := LruSpec { recency : list (entry T); counters : Metrics }.
Arguments LruSpec {T} _ _.
Arguments recency {T} _.
Arguments counters {T} _.

Section reference.
Context {T : Type}.
Implicit Types s : lruSpec T.

Definition specGet s (k : string) (now : Time) : option T * lruSpec T :=
  match findEntry k (recency s) with
  | None => (None, LruSpec (recency s) (incMisses (counters s)))
  | Some e =>
      if expired (expiration e) now
      then (None, LruSpec (without k (recency s)) (incMisses (incEvictions (counters s))))
      else (Some (value e), LruSpec (e :: without k (recency s)) (incHits (counters s)))
  end.

Definition specSet (cap : Z) s (k : string) (v : T) (ttl : list Duration) (now : Time)
    : lruSpec T :=
  let e := Entry k v (expiry ttl now) in
  match findEntry k (recency s) with
  | Some _ => LruSpec (e :: without k (recency s)) (counters s)
  | None =>
      if cap <=? Z.of_nat (length (recency s))
      then LruSpec (e :: removelast (recency s)) (incEvictions (counters s))
      else LruSpec (e :: recency s) (counters s)
  end.

Definition specDelete s (k : string) : lruSpec T :=
  LruSpec (without k (recency s)) (counters s).
End reference.

(** ** Refinement *)

Section refinement.
Context {T : Type}.
Implicit Types c : lruBackend T.
Implicit Types s : lruSpec T.

Definition refines (cap : Z) c s : Prop :=
  repr c (recency s) ∧ metrics c = counters s ∧ capacity c = cap ∧
  1 <= cap ∧ Z.of_nat (length (recency s)) <= cap.

Lemma refines_new cap :
  refines (if cap <=? 0 then 128 else cap) (newLRUBackend cap : lruBackend T) (LruSpec [] noMetrics).
Proof.
  split_and!; try done.
  - apply repr_new.
  - case_match; bool_to_prop; lia.
  - case_match; bool_to_prop; simpl; lia.
Qed.

Lemma Get_refines cap c s k now :
  refines cap c s →
  ∃ c', Get c k now = Some ((specGet s k now).1, c') ∧ refines cap c' (specGet s k now).2.
Proof.
  intros (HR & Hm & Hcap & H1 & Hlen). unfold Get, specGet.
  pose proof (repr_lookup _ _ k HR) as Hl. destruct (items c !! k) as [n|].
  - destruct Hl as (es1 & e & es2 & p & q & Hes & Hk & Hn & -> & -> & lns1 & lns2 & HL & <- & <-).
    rewrite Hn. simpl. rewrite Hes, length_app in Hlen. simpl in Hlen.
    destruct (expired _ _); simpl.
    + unfold dropExpired. destruct (linked_remove _ _ _ _ _ HL) as (c1 & -> & ? & ? & ? & _ & HL1).
      simpl. eexists; split; [done|]. split_and!; simpl; try congruence; try lia.
      * eexists; split; [rewrite <-Hk; apply HL1|]. by rewrite fmap_app.
      * by rewrite length_app; lia.
    + destruct (linked_front _ _ _ _ _ HL) as (c1 & -> & ? & ? & ? & HL1). simpl.
      destruct (linked_node _ [] _ _ _ HL1) as (p1 & q1 & ->). simpl.
      eexists; split; [done|]. split_and!; simpl; try congruence; try lia.
      * eexists; split; [apply HL1|]. by rewrite fmap_cons, fmap_app.
      * rewrite length_app. lia.
  - destruct Hl as [-> _]. simpl. eexists; split; [done|]. by split_and!; simpl; try congruence.
Qed.

Lemma Set_refines cap c s k v ttl now :
  refines cap c s →
  ∃ c', Set_ c k v ttl now = Some c' ∧ refines cap c' (specSet cap s k v ttl now).
Proof.
  intros (HR & Hm & Hcap & H1 & Hlen). unfold Set_, specSet.
  pose proof (repr_lookup _ _ k HR) as Hl. destruct (items c !! k) as [n|].
  - destruct Hl as (es1 & e & es2 & p & q & Hes & Hk & Hn & -> & -> & lns1 & lns2 & HL & <- & <-).
    destruct (linked_write _ _ _ _ _ v (expiry ttl now) HL) as (c1 & -> & ? & ? & ? & HL1). simpl.
    destruct (linked_front _ _ _ _ _ HL1) as (c2 & -> & ? & ? & ? & HL2).
    rewrite Hes, length_app in Hlen. simpl in Hlen.
    eexists; split; [done|]. split_and!; simpl; try congruence; try lia.
    + eexists; split; [apply HL2|]. by rewrite fmap_cons, fmap_app, Hk.
    + rewrite length_app. lia.
  - destruct Hl as [Hf _]. rewrite Hf. apply findEntry_None in Hf. subst cap.
    destruct (repr_insertNew c (recency s) (Entry k v (expiry ttl now)) HR Hf H1)
      as (c1 & -> & Hcap1 & Hins).
    destruct (_ <=? _) eqn:Efull; bool_to_prop; destruct Hins as [HR1 Hm1];
      eexists; split; try done; split_and!; simpl; try congruence; try done; try lia.
    destruct (recency s) as [|x es _] using rev_ind; [simpl in *; lia|].
    rewrite removelast_last. rewrite length_app in *. simpl in *. lia.
Qed.

Lemma Delete_refines cap c s k :
  refines cap c s → ∃ c', Delete c k = Some c' ∧ refines cap c' (specDelete s k).
Proof.
  intros (HR & Hm & Hcap & H1 & Hlen). unfold Delete, Linked.Delete, specDelete.
  pose proof (repr_lookup _ _ k HR) as Hl. destruct (items c !! k) as [n|].
  - destruct Hl as (es1 & e & es2 & p & q & Hes & Hk & Hn & _ & Hw & lns1 & lns2 & HL & <- & <-).
    destruct (linked_remove _ _ _ _ _ HL) as (c1 & -> & ? & ? & ? & _ & HL1).
    rewrite Hes, length_app in Hlen. simpl in *.
    eexists; split; [done|]. split_and!; simpl; rewrite ?Hw; try congruence; try lia.
    + eexists; split; [rewrite <-Hk; apply HL1|]. by rewrite fmap_app.
    + rewrite length_app. lia.
  - destruct Hl as [_ Hw]. eexists; split; [done|]. split_and!; simpl; rewrite ?Hw; done.
Qed.

Lemma Len_refines cap c s : refines cap c s → Len c = Z.of_nat (length (recency s)).
Proof. intros (HR & _). by apply repr_size. Qed.
End refinement.

(** ** The interface contract *)

Section contract.
Context {T : Type}.
Implicit Types c : lruBackend T.

Definition lruInv c : Prop := ∃ s, refines (capacity c) c s.

Lemma refines_contents cap c s : refines cap c s → contents c = viewOf (recency s).
Proof. intros (HR & _). by apply repr_contents. Qed.

Lemma refines_capacity cap c s : refines cap c s → Some (capacity c) = Some cap.
Proof. by intros (_ & _ & ? & _); f_equal. Qed.

Lemma refines_inv cap c s : refines cap c s → lruInv c.
Proof. intros HR. exists s. by injection (refines_capacity _ _ _ HR) as ->. Qed.
End contract.

#[export] Hint Resolve refines_inv refines_capacity : golibs.

#[export] Program Instance lru_contract {T} : CacheContract (lruBackend T) T := {|
  inv := lruInv; view := contents; bound c := Some (capacity c);
|}.
Next Obligation.
  intros T c k clk [s HR] _. destruct (Get_refines _ _ _ k (clk 0%nat) HR) as (c' & E & HR').
  exists c'. rewrite (refines_contents _ _ _ HR), (refines_contents _ _ _ HR'), viewOf_lookup.
  simpl. rewrite E. unfold specGet. destruct (findEntry k (recency s)) as [e|] eqn:Ef; simpl.
  - destruct (expired _ _); split_and!; eauto with golibs; simpl.
    + by rewrite viewOf_without.
    + eapply viewOf_front; eauto using findEntry_key.
  - split_and!; eauto with golibs.
Qed.
Next Obligation.
  intros T c k v ttl clk [s HR] _ _. destruct (Set_refines _ _ _ k v ttl (clk 0%nat) HR) as (c' & E & HR').
  exists c'. rewrite (refines_contents _ _ _ HR), (refines_contents _ _ _ HR'). simpl. rewrite E.
  split_and!; eauto with golibs.
  - unfold specSet. repeat case_match; by apply viewOf_cons_eq.
  - intros k' Hk'. unfold specSet. repeat case_match; simpl; rewrite viewOf_cons_ne by done.
    + left. by rewrite viewOf_without, lookup_delete_ne.
    + rewrite !viewOf_lookup. destruct (findEntry_removelast (key := key) k' (recency s)) as [->| ->]; auto.
    + by left.
Qed.
Next Obligation.
  intros T c k [s HR]. destruct (Delete_refines _ _ _ k HR) as (c' & E & HR').
  exists c'. rewrite (refines_contents _ _ _ HR), (refines_contents _ _ _ HR'). simpl. rewrite E.
  split_and!; eauto with golibs. apply viewOf_without.
Qed.
Next Obligation.
  intros T c [s HR]. rewrite (refines_contents _ _ _ HR), viewOf_size
    by (eapply repr_NoDup, HR). simpl.
  rewrite (Len_refines _ _ _ HR). split; [done|]. intros n [= <-]. apply HR.
Qed.

(** ** Histories *)

Section history.
Context {T : Type}.

Definition specStep (cap : Z) (s : lruSpec T) (o : op T) : resp T * lruSpec T :=
  match o with
  | OpGet k clk => let '(r, s') := specGet s k (clk 0%nat) in (RGet r, s')
  | OpSet k v ttl clk => (RDone, specSet cap s k v ttl (clk 0%nat))
  | OpDelete k => (RDone, specDelete s k)
  | OpLen => (RLen (Z.of_nat (length (recency s))), s)
  end.

Lemma step_refines cap c (s : lruSpec T) o :
  refines cap c s →
  ∃ c', step c o = Some ((specStep cap s o).1, c') ∧ refines cap c' (specStep cap s o).2.
Proof.
  intros HR. destruct o as [k clk|k v ttl clk|k|]; simpl.
  - destruct (Get_refines _ _ _ k (clk 0%nat) HR) as (c' & -> & ?). simpl.
    destruct (specGet s k (clk 0%nat)). eauto.
  - destruct (Set_refines _ _ _ k v ttl (clk 0%nat) HR) as (c' & -> & ?). eauto.
  - destruct (Delete_refines _ _ _ k HR) as (c' & -> & ?). eauto.
  - rewrite (Len_refines _ _ _ HR). eauto.
Qed.

(** C1: on every history of calls the linked-list LRU backend never follows a
    nil or dangling pointer, answers exactly like the reference policy "keep
    the entries in recency order, evict the last", counts hits, misses and
    evictions alike, and never holds more than its capacity. *)
Theorem lru_history_refines (cap : Z) (os : list (op T)) :
  let cap' := if cap <=? 0 then 128 else cap in
  let '(rs, s) := specRun (specStep cap') (LruSpec [] noMetrics) os in
  ∃ c, run (newLRUBackend cap) os = Some (rs, c) ∧ repr c (recency s) ∧
       metrics c = counters s ∧ Len c = Z.of_nat (length (recency s)) ∧ Len c <= cap'.
Proof.
  intros cap'.
  destruct (run_refines (specStep cap') (refines cap') (step_refines cap') os
              (newLRUBackend cap) (LruSpec [] noMetrics) (refines_new cap)) as (c & E & HR).
  destruct (specRun _ _ _) as [rs s]. simpl in *. exists c.
  rewrite (Len_refines _ _ _ HR). split_and!; try done; apply HR.
Qed.
End history.
