(* ===== verification/Fifo.v ===== *)
(** The FIFO backend (cache/fifo.go): the pointer-level operations, the
    reference policy on the sequence of entries in insertion order, and the
    refinement between them. *)
From S2P Require Import Prelude Keyed DList CacheIface Linked.

(** A type of its own, so that its policy is found by its type. *)
Definition fifoBackend (T : Type) : Type := backend T.
Definition newFIFOBackend {T} (cap : Z) : fifoBackend T := newBackend cap.

Section operations.
Context {T : Type}.
Implicit Types c : fifoBackend T.

(** [Get]: the position in the queue does not change; an expired node is
    removed. *)
Definition Get c (k : string) (now : Time) : option (option T * fifoBackend T) :=
  match items c !! k with
  | None => Some (None, withMetrics c (incMisses (metrics c)))
  | Some n =>
      nd ← nodes c !! n;
      if expired (expiration (payload nd)) now then
        c1 ← dropExpired c n k; Some (None, c1)
      else
        Some (Some (value (payload nd)), withMetrics c (incHits (metrics c)))
  end.

(** [Set]: an existing node is overwritten in place, a new one goes to the
    front after evicting the tail of a full list. *)
Definition Set_ c (k : string) (v : T) (ttl : list Duration) (now : Time) : option (fifoBackend T) :=
  let exp := expiry ttl now in
  match items c !! k with
  | Some n => writeNode c n v exp
  | None => insertNew c (Entry k v exp)
  end.

Definition Delete c (k : string) : option (fifoBackend T) := Linked.Delete c k.
Definition Len c : Z := Linked.Len c.
End operations.

#[global] Typeclasses Opaque fifoBackend.

#[export] Instance fifo_backend {T} : CacheBackend (fifoBackend T) T := {|
  cget c k clk := Get c k (clk 0%nat);
  cset c k v ttl clk := Set_ c k v ttl (clk 0%nat);
  cdelete := Delete; clen := Len;
|}.

Definition GetOrFetch {T} (c : fifoBackend T) (ctxErr : option error) (k : string) (ttl : Duration)
    (fetched : T + error) (fl : flight T) (done : option error) (clk1 clk2 : readings)
    : option ((T + error) * fifoBackend T) :=
  getOrFetch c ctxErr k ttl fetched fl done clk1 clk2.

(** ** The reference policy *)

(** The entries, newest first, and the counters. *)
Record fifoSpec (T : Type) := FifoSpec { queue : list (entry T); counters : Metrics }.
Arguments FifoSpec {T} _ _.
Arguments queue {T} _.
Arguments counters {T} _.

Section reference.
Context {T : Type}.
Implicit Types s : fifoSpec T.

Definition replace (e : entry T) (es : list (entry T)) : list (entry T) :=
  (λ e', if bool_decide (key e' = key e) then e else e') <$> es.

Definition specGet s (k : string) (now : Time) : option T * fifoSpec T :=
  match findEntry k (queue s) with
  | None => (None, FifoSpec (queue s) (incMisses (counters s)))
  | Some e =>
      if expired (expiration e) now
      then (None, FifoSpec (without k (queue s)) (incMisses (incEvictions (counters s))))
      else (Some (value e), FifoSpec (queue s) (incHits (counters s)))
  end.

Definition specSet (cap : Z) s (k : string) (v : T) (ttl : list Duration) (now : Time)
    : fifoSpec T :=
  let e := Entry k v (expiry ttl now) in
  match findEntry k (queue s) with
  | Some _ => FifoSpec (replace e (queue s)) (counters s)
  | None =>
      if cap <=? Z.of_nat (length (queue s))
      then FifoSpec (e :: removelast (queue s)) (incEvictions (counters s))
      else FifoSpec (e :: queue s) (counters s)
  end.

Definition specDelete s (k : string) : fifoSpec T :=
  FifoSpec (without k (queue s)) (counters s).

Lemma replace_notin e es : key e ∉ keys es → replace e es = es.
Proof.
  intros Hk. unfold replace. induction es as [|e' es IH]; [done|]. csimpl.
  rewrite bool_decide_eq_false_2 by set_solver. by rewrite IH by set_solver.
Qed.

Lemma replace_middle e es1 e' es2 :
  key e' = key e → key e ∉ keys es1 → key e ∉ keys es2 →
  replace e (es1 ++ e' :: es2) = es1 ++ e :: es2.
Proof.
  intros Hk H1 H2. unfold replace. rewrite fmap_app, fmap_cons.
  rewrite bool_decide_eq_true_2 by done.
  f_equal; [by apply replace_notin | f_equal; by apply replace_notin].
Qed.

Lemma findEntry_replace e es k :
  findEntry k (replace e es) =
  if decide (k = key e) then (λ _, e) <$> findEntry k es else findEntry k es.
Proof.
  unfold replace. induction es as [|e' es IH]; [by case_decide|]. csimpl. rewrite IH.
  repeat (case_bool_decide || case_decide); simplify_eq/=; congruence.
Qed.
End reference.

(** ** Refinement *)

Section refinement.
Context {T : Type}.
Implicit Types c : fifoBackend T.
Implicit Types s : fifoSpec T.

Definition refines (cap : Z) c s : Prop :=
  repr c (queue s) ∧ metrics c = counters s ∧ capacity c = cap ∧
  1 <= cap ∧ Z.of_nat (length (queue s)) <= cap.

Lemma fifo_refines_new cap :
  refines (if cap <=? 0 then 128 else cap) (newFIFOBackend cap : fifoBackend T) (FifoSpec [] noMetrics).
Proof.
  split_and!; try done.
  - apply repr_new.
  - case_match; bool_to_prop; lia.
  - case_match; bool_to_prop; simpl; lia.
Qed.

Lemma fifo_Get_refines cap c s k now :
  refines cap c s →
  ∃ c', Get c k now = Some ((specGet s k now).1, c') ∧ refines cap c' (specGet s k now).2.
Proof.
  intros (HR & Hm & Hcap & H1 & Hlen). unfold Get, specGet.
  pose proof (repr_lookup _ _ k HR) as Hl. destruct (items c !! k) as [n|].
  - destruct Hl as (es1 & e & es2 & p & q & Hes & Hk & Hn & -> & -> & lns1 & lns2 & HL & <- & <-).
    rewrite Hn. simpl. rewrite Hes, length_app in Hlen. simpl in Hlen.
    destruct (expired _ _); simpl.
    + unfold dropExpired. destruct (linked_remove _ _ _ _ _ HL) as (c1 & -> & ? & ? & ? & _ & HL1).
      simpl. eexists; split; [done|]. split_and!; simpl; try congruence; try lia.
      * eexists; split; [rewrite <-Hk; apply HL1|]. by rewrite fmap_app.
      * by rewrite length_app; lia.
    + eexists; split; [done|]. split_and!; simpl; try congruence; try done.
      rewrite Hes, length_app. simpl. lia.
  - destruct Hl as [-> _]. simpl. eexists; split; [done|]. by split_and!; simpl; try congruence.
Qed.

Lemma fifo_Set_refines cap c s k v ttl now :
  refines cap c s →
  ∃ c', Set_ c k v ttl now = Some c' ∧ refines cap c' (specSet cap s k v ttl now).
Proof.
  intros (HR & Hm & Hcap & H1 & Hlen). unfold Set_, specSet.
  pose proof (repr_lookup _ _ k HR) as Hl. destruct (items c !! k) as [n|].
  - destruct Hl as (es1 & e & es2 & p & q & Hes & Hk & Hn & -> & _ & lns1 & lns2 & HL & <- & <-).
    destruct (linked_write _ _ _ _ _ v (expiry ttl now) HL) as (c1 & -> & ? & ? & ? & HL1). simpl.
    pose proof (repr_NoDup _ _ HR) as Hnd. rewrite Hes in Hnd. rewrite Hes, length_app in Hlen.
    apply (NoDup_fmap_middle key) in Hnd as (Hk1 & Hk2 & _). simpl in Hlen.
    rewrite Hk in Hk1, Hk2. rewrite Hes, (replace_middle (Entry k v _)) by done.
    eexists; split; [done|]. split_and!; simpl; try congruence; try lia.
    + eexists; split; [apply HL1|]. by rewrite fmap_app, fmap_cons, Hk.
    + rewrite length_app. simpl. lia.
  - destruct Hl as [Hf _]. rewrite Hf. apply findEntry_None in Hf. subst cap.
    destruct (repr_insertNew c (queue s) (Entry k v (expiry ttl now)) HR Hf H1)
      as (c1 & -> & Hcap1 & Hins).
    destruct (_ <=? _) eqn:Efull; bool_to_prop; destruct Hins as [HR1 Hm1];
      eexists; split; try done; split_and!; simpl; try congruence; try done; try lia.
    destruct (queue s) as [|x es _] using rev_ind; [simpl in *; lia|].
    rewrite removelast_last. rewrite length_app in *. simpl in *. lia.
Qed.

Lemma fifo_Delete_refines cap c s k :
  refines cap c s → ∃ c', Delete c k = Some c' ∧ refines cap c' (specDelete s k).
Proof.
  intros (HR & Hm & Hcap & H1 & Hlen). unfold Delete, Linked.Delete, specDelete.
  pose proof (repr_lookup _ _ k HR) as Hl. destruct (items c !! k) as [n|].
  - destruct Hl as (es1 & e & es2 & p & q & Hes & Hk & Hn & _ & Hw & lns1 & lns2 & HL & <- & <-).
    destruct (linked_remove _ _ _ _ _ HL) as (c1 & -> & ? & ? & ? & _ & HL1).
    rewrite Hes, length_app in Hlen. simpl in *.
    eexists; split; [done|]. split_and!; simpl; rewrite ?Hw; try congruence; try lia.
    + eexists; split; [rewrite <-Hk; apply HL1|]. by rewrite fmap_app.
    + rewrite length_app. lia.
  - destruct Hl as [_ Hw]. eexists; split; [done|]. split_and!; simpl; rewrite ?Hw; done.
Qed.

Lemma fifo_Len_refines cap c s : refines cap c s → Len c = Z.of_nat (length (queue s)).
Proof. intros (HR & _). by apply repr_size. Qed.
End refinement.

(** ** The interface contract *)

Section contract.
Context {T : Type}.
Implicit Types c : fifoBackend T.

Definition fifoInv c : Prop := ∃ s, refines (capacity c) c s.

Lemma fifo_refines_contents cap c s : refines cap c s → contents c = viewOf (queue s).
Proof. intros (HR & _). by apply repr_contents. Qed.

Lemma fifo_refines_capacity cap c s : refines cap c s → Some (capacity c) = Some cap.
Proof. by intros (_ & _ & ? & _); f_equal. Qed.

Lemma fifo_refines_inv cap c s : refines cap c s → fifoInv c.
Proof. intros HR. exists s. by injection (fifo_refines_capacity _ _ _ HR) as ->. Qed.
End contract.

#[export] Hint Resolve fifo_refines_inv fifo_refines_capacity : golibs.

#[export] Program Instance fifo_contract {T} : CacheContract (fifoBackend T) T := {|
  inv := fifoInv; view := contents; bound c := Some (capacity c);
|}.
Next Obligation.
  intros T c k clk [s HR] _. destruct (fifo_Get_refines _ _ _ k (clk 0%nat) HR) as (c' & E & HR').
  exists c'. rewrite (fifo_refines_contents _ _ _ HR), (fifo_refines_contents _ _ _ HR'), viewOf_lookup.
  simpl. rewrite E. unfold specGet. destruct (findEntry k (queue s)) as [e|] eqn:Ef; simpl.
  - destruct (expired _ _); split_and!; eauto with golibs; simpl.
    by rewrite viewOf_without.
  - split_and!; eauto with golibs.
Qed.
Next Obligation.
  intros T c k v ttl clk [s HR] _ _. destruct (fifo_Set_refines _ _ _ k v ttl (clk 0%nat) HR) as (c' & E & HR').
  exists c'. rewrite (fifo_refines_contents _ _ _ HR), (fifo_refines_contents _ _ _ HR'). simpl. rewrite E.
  split_and!; eauto with golibs.
  - unfold specSet. destruct (findEntry k (queue s)) as [e|] eqn:Ef; simpl.
    + by rewrite viewOf_lookup, findEntry_replace, decide_True, Ef.
    + repeat case_match; by apply viewOf_cons_eq.
  - intros k' Hk'. unfold specSet. destruct (findEntry k (queue s)) as [e|] eqn:Ef; simpl.
    + left. by rewrite !viewOf_lookup, findEntry_replace, decide_False.
    + case_match; simpl; rewrite viewOf_cons_ne by done; [|by left].
      rewrite !viewOf_lookup. destruct (findEntry_removelast (key := key) k' (queue s)) as [->| ->]; auto.
Qed.
Next Obligation.
  intros T c k [s HR]. destruct (fifo_Delete_refines _ _ _ k HR) as (c' & E & HR').
  exists c'. rewrite (fifo_refines_contents _ _ _ HR), (fifo_refines_contents _ _ _ HR'). simpl. rewrite E.
  split_and!; eauto with golibs. apply viewOf_without.
Qed.
Next Obligation.
  intros T c [s HR]. rewrite (fifo_refines_contents _ _ _ HR), viewOf_size
    by (eapply repr_NoDup, HR). simpl.
  rewrite (fifo_Len_refines _ _ _ HR). split; [done|]. intros n [= <-]. apply HR.
Qed.

(** ** Histories *)

Section history.
Context {T : Type}.

Definition specStep (cap : Z) (s : fifoSpec T) (o : op T) : resp T * fifoSpec T :=
  match o with
  | OpGet k clk => let '(r, s') := specGet s k (clk 0%nat) in (RGet r, s')
  | OpSet k v ttl clk => (RDone, specSet cap s k v ttl (clk 0%nat))
  | OpDelete k => (RDone, specDelete s k)
  | OpLen => (RLen (Z.of_nat (length (queue s))), s)
  end.

Lemma fifo_step_refines cap c (s : fifoSpec T) o :
  refines cap c s →
  ∃ c', step c o = Some ((specStep cap s o).1, c') ∧ refines cap c' (specStep cap s o).2.
Proof.
  intros HR. destruct o as [k clk|k v ttl clk|k|]; simpl.
  - destruct (fifo_Get_refines _ _ _ k (clk 0%nat) HR) as (c' & -> & ?). simpl.
    destruct (specGet s k (clk 0%nat)). eauto.
  - destruct (fifo_Set_refines _ _ _ k v ttl (clk 0%nat) HR) as (c' & -> & ?). eauto.
  - destruct (fifo_Delete_refines _ _ _ k HR) as (c' & -> & ?). eauto.
  - rewrite (fifo_Len_refines _ _ _ HR). eauto.
Qed.

(** On every history of calls the linked-list FIFO backend never follows a
    nil or dangling pointer, answers exactly like the reference policy "keep
    the entries in insertion order, overwrite in place, evict the oldest",
    counts hits, misses and evictions alike, and never exceeds its capacity. *)
Lemma fifo_history_refines (cap : Z) (os : list (op T)) :
  let cap' := if cap <=? 0 then 128 else cap in
  let '(rs, s) := specRun (specStep cap') (FifoSpec [] noMetrics) os in
  ∃ c, run (newFIFOBackend cap) os = Some (rs, c) ∧ repr c (queue s) ∧
       metrics c = counters s ∧ Len c = Z.of_nat (length (queue s)) ∧ Len c <= cap'.
Proof.
  intros cap'.
  destruct (run_refines (specStep cap') (refines cap') (fifo_step_refines cap') os
              (newFIFOBackend cap) (FifoSpec [] noMetrics) (fifo_refines_new cap)) as (c & E & HR).
  destruct (specRun _ _ _) as [rs s]. simpl in *. exists c.
  rewrite (fifo_Len_refines _ _ _ HR). split_and!; try done; apply HR.
Qed.
End history.
