(* ===== verification/Lfu.v ===== *)
(** The LFU backend (cache/lfu.go): one doubly linked list per access
    frequency, a [minFreq] cursor, and the proof that it implements "evict the
    least frequently used entry, the least recently used one among equals". *)
From S2P Require Import Prelude Keyed DList CacheIface.

(** The data fields of [lfuNode]. *)
Record entry (T : Type) := Entry {
  key : string;
  value : T;
  freq : Z;
  expiration : Z;
}.
Arguments Entry {T} _ _ _ _.
Arguments key {T} _.
Arguments value {T} _.
Arguments freq {T} _.
Arguments expiration {T} _.

(** [lfuList]: head and tail, and the number of nodes. *)
Record lfuList := LfuList { links : dlist; len : Z }.

Section lists.
Context {P : Type}.
Implicit Types h : gmap loc (node P).

Definition pushFront h (l : lfuList) (n : loc) : option (gmap loc (node P) * lfuList) :=
  '(h', d) ← DList.addToFront h (links l) n; Some (h', LfuList d (len l + 1)).

Definition remove h (l : lfuList) (n : loc) : option (gmap loc (node P) * lfuList) :=
  '(h', d) ← DList.removeNode h (links l) n; Some (h', LfuList d (len l - 1)).

Definition popTail h (l : lfuList) : option (option loc * (gmap loc (node P) * lfuList)) :=
  match tail (links l) with
  | None => Some (None, (h, l))
  | Some t => '(h', l') ← remove h l t; Some (Some t, (h', l'))
  end.
End lists.

(** [lfuBackend]: [nodes] is the memory of the nodes, [brk] the next unused
    address; each bucket pointer is only reachable through [freqBuckets]. *)
Record lfuBackend (T : Type) := Backend {
  capacity : Z;
  minFreq : Z;
  items : gmap string loc;
  freqBuckets : gmap Z lfuList;
  nodes : gmap loc (node (entry T));
  brk : loc;
  metrics : Metrics;
}.
Arguments Backend {T} _ _ _ _ _ _ _.
Arguments capacity {T} _.
Arguments minFreq {T} _.
Arguments items {T} _.
Arguments freqBuckets {T} _.
Arguments nodes {T} _.
Arguments brk {T} _.
Arguments metrics {T} _.

Section operations.
Context {T : Type}.
Implicit Types c : lfuBackend T.

Definition withMin c m : lfuBackend T :=
  Backend (capacity c) m (items c) (freqBuckets c) (nodes c) (brk c) (metrics c).
Definition withItems c i : lfuBackend T :=
  Backend (capacity c) (minFreq c) i (freqBuckets c) (nodes c) (brk c) (metrics c).
Definition withBucket c f b h : lfuBackend T :=
  Backend (capacity c) (minFreq c) (items c) (<[f := b]> (freqBuckets c)) h (brk c) (metrics c).
Definition withNodes c h : lfuBackend T :=
  Backend (capacity c) (minFreq c) (items c) (freqBuckets c) h (brk c) (metrics c).
Definition withMetrics c m : lfuBackend T :=
  Backend (capacity c) (minFreq c) (items c) (freqBuckets c) (nodes c) (brk c) m.

(** [newLFUBackend]: a non-positive capacity becomes 128. *)
Definition newLFUBackend (cap : Z) : lfuBackend T :=
  Backend (if cap <=? 0 then 128 else cap) 0 ∅ ∅ ∅ 1%positive noMetrics.

(** [getBucket]: the list of a frequency, created when absent. *)
Definition getBucket c (f : Z) : lfuList * lfuBackend T :=
  match freqBuckets c !! f with
  | Some b => (b, c)
  | None => (LfuList emptyList 0, withBucket c f (LfuList emptyList 0) (nodes c))
  end.

(** [removeNode]: unlinks the node from its bucket and moves [minFreq] up when
    that bucket was the minimum and is now empty. *)
Definition removeNode c (n : loc) : option (lfuBackend T) :=
  nd ← nodes c !! n;
  let f := freq (payload nd) in
  match freqBuckets c !! f with
  | None => Some c
  | Some bucket =>
      '(h, bucket') ← remove (nodes c) bucket n;
      let c1 := withBucket c f bucket' h in
      Some (if (f =? minFreq c) && (len bucket' =? 0) then withMin c1 (minFreq c + 1) else c1)
  end.

(** [incrementFreq]: from its bucket to the front of the next one. *)
Definition incrementFreq c (n : loc) : option (lfuBackend T) :=
  c1 ← removeNode c n;
  nd ← nodes c1 !! n;
  let e := payload nd in
  let e' := Entry (key e) (value e) (freq e + 1) (expiration e) in
  let c2 := withNodes c1 (<[n := Node e' (prev nd) (next nd)]> (nodes c1)) in
  let '(bucket, c3) := getBucket c2 (freq e') in
  '(h, bucket') ← pushFront (nodes c3) bucket n;
  Some (withBucket c3 (freq e') bucket' h).

(** [evictMinFreq]: pops the tail of the [minFreq] bucket, if any. *)
Definition evictMinFreq c : option (lfuBackend T) :=
  match freqBuckets c !! minFreq c with
  | None => Some c
  | Some bucket =>
      if len bucket =? 0 then Some c
      else
        '(victim, (h, bucket')) ← popTail (nodes c) bucket;
        let c1 := withBucket c (minFreq c) bucket' h in
        match victim with
        | None => Some c1
        | Some v =>
            nd ← nodes c1 !! v;
            Some (withMetrics (withItems c1 (delete (key (payload nd)) (items c1)))
                              (incEvictions (metrics c1)))
        end
  end.

Definition Get c (k : string) (now : Time) : option (option T * lfuBackend T) :=
  match items c !! k with
  | None => Some (None, withMetrics c (incMisses (metrics c)))
  | Some n =>
      nd ← nodes c !! n;
      if expired (expiration (payload nd)) now then
        c1 ← removeNode c n;
        Some (None, withMetrics (withItems c1 (delete k (items c1)))
                                (incMisses (incEvictions (metrics c1))))
      else
        c1 ← incrementFreq c n;
        nd1 ← nodes c1 !! n;
        Some (Some (value (payload nd1)), withMetrics c1 (incHits (metrics c1)))
  end.

(** [node.value = value; node.expiration = exp]. *)
Definition writeNode c (n : loc) (v : T) (exp : Z) : option (lfuBackend T) :=
  nd ← nodes c !! n;
  let e := payload nd in
  Some (withNodes c (<[n := Node (Entry (key e) v (freq e) exp) (prev nd) (next nd)]> (nodes c))).

(** The end of [Set] for a key that is not in the map. *)
Definition insertNew c (e : entry T) : option (lfuBackend T) :=
  c1 ← (if capacity c <=? Z.of_nat (size (items c)) then evictMinFreq c else Some c);
  let n := brk c1 in
  let c2 := Backend (capacity c1) (minFreq c1) (<[key e := n]> (items c1)) (freqBuckets c1)
                    (<[n := Node e None None]> (nodes c1)) (Pos.succ n) (metrics c1) in
  let '(bucket, c3) := getBucket c2 1 in
  '(h, bucket') ← pushFront (nodes c3) bucket n;
  Some (withMin (withBucket c3 1 bucket' h) 1).

Definition Set_ c (k : string) (v : T) (ttl : list Duration) (now : Time) : option (lfuBackend T) :=
  let exp := expiry ttl now in
  match items c !! k with
  | Some n => c1 ← writeNode c n v exp; incrementFreq c1 n
  | None => insertNew c (Entry k v 1 exp)
  end.

Definition Delete c (k : string) : option (lfuBackend T) :=
  match items c !! k with
  | None => Some c
  | Some n => c1 ← removeNode c n; Some (withItems c1 (delete k (items c1)))
  end.

Definition Len c : Z := Z.of_nat (size (items c)).

(** The stored entries, as the client sees them. *)
Definition entryOf c (n : loc) : option (T * Z) :=
  nd ← nodes c !! n; Some (value (payload nd), expiration (payload nd)).

Definition contents c : gmap string (T * Z) := omap (entryOf c) (items c).
End operations.

#[export] Instance lfu_backend {T} : CacheBackend (lfuBackend T) T := {|
  cget c k clk := Get c k (clk 0%nat);
  cset c k v ttl clk := Set_ c k v ttl (clk 0%nat);
  cdelete := Delete; clen := Len;
|}.

Definition GetOrFetch {T} (c : lfuBackend T) (ctxErr : option error) (k : string) (ttl : Duration)
    (fetched : T + error) (fl : flight T) (done : option error) (clk1 clk2 : readings)
    : option ((T + error) * lfuBackend T) :=
  getOrFetch c ctxErr k ttl fetched fl done clk1 clk2.

(** ** The reference policy *)

(** The entries, most recently used first, and the counters. *)
Record lfuSpec (T : Type) := LfuSpec { recency : list (entry T); counters : Metrics }.
Arguments LfuSpec {T} _ _.
Arguments recency {T} _.
Arguments counters {T} _.

Abbreviation keys := (Keyed.keys key).
Abbreviation findEntry := (Keyed.findEntry key).
Abbreviation without := (Keyed.without key).
Abbreviation viewOf := (Keyed.viewOf key (λ e, (value e, expiration e))).

Section reference.
Context {T : Type}.
Implicit Types es : list (entry T).
Implicit Types s : lfuSpec T.

(** One more access of an entry. *)
Definition touched (e : entry T) : entry T :=
  Entry (key e) (value e) (freq e + 1) (expiration e).

(** The least frequency, and the entries without the least recent of it. *)
Definition lowest es : Z :=
  match es with
  | [] => 0
  | e :: es' => foldr (λ e m, Z.min (freq e) m) (freq e) es'
  end.

Fixpoint dropLast (f : Z) es : list (entry T) :=
  match es with
  | [] => []
  | e :: es' =>
      if bool_decide (freq e = f ∧ f ∉ freq <$> es') then es' else e :: dropLast f es'
  end.

Definition evictLfu es : list (entry T) := dropLast (lowest es) es.

Definition specGet s (k : string) (now : Time) : option T * lfuSpec T :=
  match findEntry k (recency s) with
  | None => (None, LfuSpec (recency s) (incMisses (counters s)))
  | Some e =>
      if expired (expiration e) now
      then (None, LfuSpec (without k (recency s)) (incMisses (incEvictions (counters s))))
      else (Some (value e), LfuSpec (touched e :: without k (recency s)) (incHits (counters s)))
  end.

Definition specSet (cap : Z) s (k : string) (v : T) (ttl : list Duration) (now : Time)
    : lfuSpec T :=
  match findEntry k (recency s) with
  | Some e =>
      LfuSpec (Entry k v (freq e + 1) (expiry ttl now) :: without k (recency s)) (counters s)
  | None =>
      let e := Entry k v 1 (expiry ttl now) in
      if cap <=? Z.of_nat (length (recency s))
      then LfuSpec (e :: evictLfu (recency s)) (incEvictions (counters s))
      else LfuSpec (e :: recency s) (counters s)
  end.

Definition specDelete s (k : string) : lfuSpec T :=
  LfuSpec (without k (recency s)) (counters s).
End reference.

(** ** Representation *)

Section representation.
Context {T : Type}.
Implicit Types c : lfuBackend T.
Implicit Types lns : list (loc * entry T).
Implicit Types h : gmap loc (node (entry T)).
Implicit Types fb : gmap Z lfuList.

(** The nodes of a frequency, in recency order. *)
Definition bucketLocs (f : Z) lns : list loc := (filter (λ p, freq p.2 = f) lns).*1.

Definition buckets h fb lns : Prop := ∀ f,
  match fb !! f with
  | Some b => dll h (links b) (bucketLocs f lns) ∧ len b = Z.of_nat (length (bucketLocs f lns))
  | None => bucketLocs f lns = []
  end.

(** All of the state but the [minFreq] cursor. *)
Definition core c lns : Prop :=
  NoDup lns.*1 ∧
  (∀ n e, (n, e) ∈ lns → payloads (nodes c) !! n = Some e ∧ 1 <= freq e) ∧
  (∀ n, is_Some (nodes c !! n) → (n < brk c)%positive) ∧
  indexed key (items c) lns ∧
  buckets (nodes c) (freqBuckets c) lns.

(** [minFreq] is a lower bound; when the cache is full its bucket is not empty.
    (After a deletion the cursor may point at an empty bucket.) *)
Definition cursor c (es : list (entry T)) : Prop :=
  (∀ e, e ∈ es → minFreq c <= freq e) ∧
  (Z.of_nat (length es) = capacity c → minFreq c ∈ freq <$> es).

Lemma bucketLocs_app f lns1 lns2 :
  bucketLocs f (lns1 ++ lns2) = bucketLocs f lns1 ++ bucketLocs f lns2.
Proof. unfold bucketLocs. by rewrite filter_app, fmap_app. Qed.

Lemma bucketLocs_cons f n e lns :
  bucketLocs f ((n, e) :: lns) =
  if decide (freq e = f) then n :: bucketLocs f lns else bucketLocs f lns.
Proof. unfold bucketLocs. rewrite filter_cons. simpl. by repeat case_decide. Qed.

Lemma bucketLocs_sub f lns n : n ∈ bucketLocs f lns → n ∈ lns.*1.
Proof.
  unfold bucketLocs. intros ([? ?] & -> & [_ Hin]%list_elem_of_filter)%list_elem_of_fmap.
  by apply (list_elem_of_fmap_2 fst) in Hin.
Qed.

Lemma bucketLocs_disjoint f g lns n :
  NoDup lns.*1 → n ∈ bucketLocs f lns → n ∈ bucketLocs g lns → f = g.
Proof.
  induction lns as [|[m e] lns IH]; [by rewrite elem_of_nil|].
  rewrite fmap_cons, NoDup_cons, !bucketLocs_cons. simpl. intros [Hm Hnd].
  repeat case_decide; rewrite ?elem_of_cons; try (by apply IH).
  all: intuition (subst; try congruence; exfalso; by eauto using bucketLocs_sub).
Qed.

(** Updating one bucket leaves the others linked. *)
Lemma buckets_update h h' fb lns lns' f b (ns : list loc) :
  buckets h fb lns → NoDup lns.*1 →
  (∀ g, g ≠ f → bucketLocs g lns' = bucketLocs g lns) →
  (∀ m, m ∉ ns → h' !! m = h !! m) →
  (∀ m g, m ∈ ns → m ∈ bucketLocs g lns → g = f) →
  dll h' (links b) (bucketLocs f lns') → len b = Z.of_nat (length (bucketLocs f lns')) →
  buckets h' (<[f := b]> fb) lns'.
Proof.
  intros Hb Hnd Hother Hf Hdis Hd Hlen g. rewrite lookup_insert. case_decide; [by subst|].
  rewrite Hother by done. specialize (Hb g). destruct (fb !! g); [|done].
  destruct Hb as [Hb ?]. split; [|done]. eapply dll_frame; [|done].
  intros m Hm. apply Hf. intros Hm'. by specialize (Hdis m g Hm' Hm).
Qed.

Lemma buckets_remove h fb lns1 n e lns2 :
  buckets h fb (lns1 ++ (n, e) :: lns2) → NoDup (lns1 ++ (n, e) :: lns2).*1 →
  ∃ b h' b', fb !! freq e = Some b ∧ remove h b n = Some (h', b') ∧
    buckets h' (<[freq e := b']> fb) (lns1 ++ lns2) ∧ payloads h' = payloads h ∧
    len b' = Z.of_nat (length (bucketLocs (freq e) (lns1 ++ lns2))).
Proof.
  intros Hb Hnd. pose proof (Hb (freq e)) as Hf.
  rewrite bucketLocs_app, bucketLocs_cons, decide_True in Hf by done.
  destruct (fb !! freq e) as [b|] eqn:Eb; [|by destruct (bucketLocs (freq e) lns1)].
  destruct Hf as [Hd Hlen]. destruct (removeNode_spec _ _ _ _ _ Hd) as (h' & d & Er & Hd' & Hfr).
  exists b, h', (LfuList d (len b - 1)). unfold remove. rewrite Er. simpl.
  assert (len b - 1 = Z.of_nat (length (bucketLocs (freq e) (lns1 ++ lns2)))) as Hl.
  { rewrite Hlen, bucketLocs_app, !length_app. simpl. lia. }
  split_and!; try done; [|apply Hfr].
  eapply buckets_update; [done|done| |apply Hfr| |by rewrite bucketLocs_app|done].
  - intros g Hg. rewrite !bucketLocs_app, bucketLocs_cons, decide_False by done. done.
  - intros m g Hm Hg. eapply bucketLocs_disjoint; [done..|].
    by rewrite bucketLocs_app, bucketLocs_cons, decide_True by done.
Qed.

Lemma buckets_push h fb lns n e :
  buckets h fb lns → NoDup lns.*1 → n ∉ lns.*1 → is_Some (h !! n) →
  ∃ h' b', pushFront h (default (LfuList emptyList 0) (fb !! freq e)) n = Some (h', b') ∧
    buckets h' (<[freq e := b']> fb) ((n, e) :: lns) ∧ payloads h' = payloads h.
Proof.
  intros Hb Hnd Hn Hs. set (b := default _ _).
  assert (dll h (links b) (bucketLocs (freq e) lns) ∧
          len b = Z.of_nat (length (bucketLocs (freq e) lns))) as [Hd Hlen].
  { specialize (Hb (freq e)). unfold b. destruct (fb !! freq e); [done|]. simpl.
    rewrite Hb. split; [apply dll_empty | done]. }
  assert (n ∉ bucketLocs (freq e) lns) as Hn' by (intros ?%bucketLocs_sub; done).
  destruct (addToFront_spec _ _ _ _ Hd Hn' Hs) as (h' & d & Er & Hd' & Hfr).
  exists h', (LfuList d (len b + 1)). unfold pushFront. rewrite Er. split_and!; [done| |apply Hfr].
  eapply buckets_update; [done|done| |apply Hfr| | |].
  - intros g Hg. by rewrite bucketLocs_cons, decide_False.
  - intros m g [->|Hm]%elem_of_cons Hg; [by apply bucketLocs_sub in Hg|].
    by eapply bucketLocs_disjoint.
  - by rewrite bucketLocs_cons, decide_True.
  - rewrite bucketLocs_cons, decide_True by done. simpl. lia.
Qed.

(** Writing the data of a node outside the buckets, or without changing its
    frequency, keeps the buckets. *)
Lemma buckets_outside h fb lns n nd :
  buckets h fb lns → n ∉ lns.*1 → buckets (<[n := nd]> h) fb lns.
Proof.
  intros Hb Hn f. specialize (Hb f). destruct (fb !! f); [|done]. destruct Hb as [Hb ?].
  split; [|done]. eapply dll_frame; [|done]. intros m Hm. apply lookup_insert_ne.
  intros ->. by apply Hn, bucketLocs_sub with f.
Qed.

Lemma buckets_same h fb lns lns' :
  (∀ f, bucketLocs f lns' = bucketLocs f lns) → buckets h fb lns → buckets h fb lns'.
Proof. intros Heq Hb f. rewrite Heq. apply Hb. Qed.

Lemma buckets_payload h fb lns n e e' p q :
  buckets h fb lns → h !! n = Some (Node e p q) → buckets (<[n := Node e' p q]> h) fb lns.
Proof.
  intros Hb Hn f. specialize (Hb f). destruct (fb !! f); [|done].
  destruct Hb as [(? & ? & ? & ?) ?]. split; [|done]. split_and!; try done.
  by eapply seg_payload.
Qed.

Lemma bucketLocs_nil f lns : bucketLocs f lns = [] ↔ f ∉ freq <$> lns.*2.
Proof.
  induction lns as [|[n e] lns IH]; [set_solver|]. rewrite bucketLocs_cons. csimpl.
  case_decide; set_solver.
Qed.

(** ** The operations on represented states *)

(** The cursor after unlinking [e] and leaving [es]. *)
Definition cursorAfter (m : Z) (e : entry T) (es : list (entry T)) : Z :=
  if bool_decide (freq e = m ∧ freq e ∉ freq <$> es) then m + 1 else m.

Lemma core_removeNode c lns1 n e lns2 :
  core c (lns1 ++ (n, e) :: lns2) →
  ∃ c1, removeNode c n = Some c1 ∧ capacity c1 = capacity c ∧ metrics c1 = metrics c ∧
    items c1 = items c ∧ brk c1 = brk c ∧ payloads (nodes c1) = payloads (nodes c) ∧
    buckets (nodes c1) (freqBuckets c1) (lns1 ++ lns2) ∧
    minFreq c1 = cursorAfter (minFreq c) e (lns1 ++ lns2).*2.
Proof.
  intros (Hnd & Hp & Hb & Hi & Hbk). unfold removeNode.
  destruct (Hp n e) as [He _]; [set_solver|].
  unfold payloads in He. rewrite lookup_fmap in He.
  destruct (nodes c !! n) as [nd|] eqn:En; simplify_eq/=.
  destruct (buckets_remove _ _ _ _ _ _ Hbk Hnd) as (b & h' & b' & -> & -> & Hbk' & Hpl & Hlen).
  simpl. eexists. split; [done|]. unfold cursorAfter. rewrite Hlen.
  pose proof (bucketLocs_nil (freq (payload nd)) (lns1 ++ lns2)) as Hnil.
  destruct (freq (payload nd) =? minFreq c) eqn:Ef; bool_to_prop; simpl;
    [destruct (bucketLocs _ (lns1 ++ lns2)) eqn:Eb; simpl|].
  - by rewrite bool_decide_eq_true_2 by naive_solver.
  - by rewrite bool_decide_eq_false_2 by naive_solver.
  - by rewrite bool_decide_eq_false_2 by naive_solver.
Qed.

Lemma core_unlink c c1 lns1 n e lns2 :
  core c (lns1 ++ (n, e) :: lns2) → items c1 = items c → brk c1 = brk c →
  payloads (nodes c1) = payloads (nodes c) → buckets (nodes c1) (freqBuckets c1) (lns1 ++ lns2) →
  core (withItems c1 (delete (key e) (items c1))) (lns1 ++ lns2).
Proof.
  intros (Hnd & Hp & Hb & Hi & Hbk) Hi1 Hb1 Hpl Hbk1. split_and!; simpl.
  - rewrite fmap_app, fmap_cons in Hnd. simpl in Hnd. rewrite <-Permutation_middle in Hnd.
    rewrite fmap_app. by apply NoDup_cons in Hnd as [_ ?].
  - intros m em Hm. rewrite Hpl. apply Hp. set_solver.
  - intros m Hm. rewrite Hb1. apply Hb. apply (f_equal (.!! m)) in Hpl.
    unfold payloads in Hpl. rewrite !lookup_fmap in Hpl. destruct Hm as [x Hm].
    rewrite Hm in Hpl. by destruct (nodes c !! m).
  - rewrite Hi1. by eapply indexed_delete.
  - done.
Qed.

(** Linking a node that is in no bucket at the front of its bucket. *)
Lemma core_push c lns n e h :
  NoDup lns.*1 → n ∉ lns.*1 → indexed key (items c) ((n, e) :: lns) →
  (∀ m em, (m, em) ∈ (n, e) :: lns → payloads (nodes c) !! m = Some em ∧ 1 <= freq em) →
  (∀ m, is_Some (nodes c !! m) → (m < brk c)%positive) →
  nodes c = h → buckets h (freqBuckets c) lns →
  ∃ c1, (let '(b, c3) := getBucket c (freq e) in
         '(h', b') ← pushFront (nodes c3) b n; Some (withBucket c3 (freq e) b' h')) = Some c1 ∧
    core c1 ((n, e) :: lns) ∧ capacity c1 = capacity c ∧ metrics c1 = metrics c ∧
    minFreq c1 = minFreq c.
Proof.
  intros Hnd Hn Hi Hp Hb <- Hbk.
  assert (is_Some (nodes c !! n)) as Hs.
  { destruct (Hp n e) as [He _]; [left|]. unfold payloads in He. rewrite lookup_fmap in He.
    by destruct (nodes c !! n). }
  destruct (buckets_push _ _ _ _ e Hbk Hnd Hn Hs) as (h' & b' & Epush & Hbk' & Hpl).
  assert (∃ c3 b, getBucket c (freq e) = (b, c3) ∧ b = default (LfuList emptyList 0) (freqBuckets c !! freq e)
    ∧ withBucket c3 (freq e) b' h' = withBucket c (freq e) b' h' ∧ nodes c3 = nodes c) as
    (c3 & b & -> & -> & Ew & ->).
  { unfold getBucket. destruct (freqBuckets c !! freq e); [by eauto 6|].
    do 2 eexists; split_and!; [done|done| |done]. unfold withBucket. simpl.
    by rewrite insert_insert_eq. }
  rewrite Epush. simpl. rewrite Ew. eexists; split; [done|]. split; [|done].
  split_and!; simpl.
  - by constructor.
  - intros m em Hm. rewrite Hpl. by apply Hp.
  - intros m Hm. apply Hb. apply (f_equal (.!! m)) in Hpl.
    unfold payloads in Hpl. rewrite !lookup_fmap in Hpl. destruct Hm as [x Hm].
    rewrite Hm in Hpl. by destruct (nodes c !! m).
  - done.
  - done.
Qed.

Lemma core_increment c lns1 n e lns2 :
  core c (lns1 ++ (n, e) :: lns2) →
  ∃ c1, incrementFreq c n = Some c1 ∧ core c1 ((n, touched e) :: lns1 ++ lns2) ∧
    capacity c1 = capacity c ∧ metrics c1 = metrics c ∧
    minFreq c1 = cursorAfter (minFreq c) e (lns1 ++ lns2).*2.
Proof.
  intros HC. destruct (core_removeNode _ _ _ _ _ HC) as (c1 & E1 & Hcap & Hm & Hi1 & Hb1 & Hpl & Hbk & Hmin).
  unfold incrementFreq. rewrite E1. simpl.
  pose proof (core_unlink _ _ _ _ _ _ HC Hi1 Hb1 Hpl Hbk) as (Hnd & _ & Hb & _ & _). simpl in Hb.
  destruct HC as (Hnd0 & Hp & _ & Hi & _).
  assert (payloads (nodes c1) !! n = Some e) as He by (rewrite Hpl; apply Hp; set_solver).
  assert (n ∉ (lns1 ++ lns2).*1) as Hn.
  { rewrite fmap_app, fmap_cons in Hnd0. simpl in Hnd0. rewrite <-Permutation_middle in Hnd0.
    rewrite fmap_app. by apply NoDup_cons in Hnd0 as [? _]. }
  pose proof He as He'. unfold payloads in He'. rewrite lookup_fmap in He'.
  destruct (nodes c1 !! n) as [nd|] eqn:En; simplify_eq/=. fold (touched (payload nd)).
  set (c2 := withNodes c1 _).
  destruct (core_push c2 (lns1 ++ lns2) n (touched (payload nd)) (nodes c2)) as (c3 & E3 & HC3 & ? & ? & ?);
    try done; simpl.
  - rewrite Hi1. apply (indexed_perm _ (lns1 ++ (n, touched (payload nd)) :: lns2));
      [by rewrite <-Permutation_middle|]. by apply (indexed_replace _ _ _ (payload nd)).
  - intros m em [[= -> ->]|Hm']%elem_of_cons; simpl.
    + unfold payloads. rewrite fmap_insert, lookup_insert_eq. split; [done|].
      destruct (Hp n (payload nd)); [set_solver | lia].
    + unfold payloads. rewrite fmap_insert, lookup_insert_ne.
      * rewrite <-Hpl in Hp. apply Hp. set_solver.
      * intros ->. by apply (list_elem_of_fmap_2 fst), Hn in Hm'.
  - intros m. rewrite lookup_insert. case_decide; [|apply Hb]. subst. intros _. apply Hb. eauto.
  - by apply buckets_outside.
  - simpl in E3. rewrite E3. eexists; split; [done|]. split_and!; try done; simpl in *; congruence.
Qed.

Lemma core_write c lns1 n e lns2 v exp :
  core c (lns1 ++ (n, e) :: lns2) →
  ∃ c1, writeNode c n v exp = Some c1 ∧ capacity c1 = capacity c ∧ metrics c1 = metrics c ∧
    minFreq c1 = minFreq c ∧ core c1 (lns1 ++ (n, Entry (key e) v (freq e) exp) :: lns2).
Proof.
  intros (Hnd & Hp & Hb & Hi & Hbk). unfold writeNode.
  destruct (Hp n e) as [He Hfe]; [set_solver|].
  unfold payloads in He. rewrite lookup_fmap in He.
  destruct (nodes c !! n) as [[e0 p q]|] eqn:En; simplify_eq/=.
  eexists. split; [done|]. split_and!; try done. split_and!; simpl.
  - by rewrite fmap_app, fmap_cons in *.
  - intros m em Hm. unfold payloads. rewrite fmap_insert.
    rewrite fmap_app, fmap_cons in Hnd. simpl in Hnd.
    apply NoDup_app in Hnd as (_ & Hdj & [Hn2 _]%NoDup_cons).
    apply elem_of_app in Hm as [Hm|[[= -> ->]|Hm]%elem_of_cons]; simpl.
    1,3: rewrite lookup_insert_ne by (apply list_elem_of_fmap_2 with (f := fst) in Hm; set_solver);
      apply Hp; set_solver.
    rewrite lookup_insert_eq. by split.
  - intros m. rewrite lookup_insert. case_decide; naive_solver.
  - by eapply indexed_replace, Hi.
  - apply buckets_same with (lns1 ++ (n, e) :: lns2); [|by eapply buckets_payload].
    intros f. by rewrite !bucketLocs_app, !bucketLocs_cons.
Qed.

(** The last node of a frequency in recency order. *)
Lemma last_of_freq lns f :
  f ∈ freq <$> lns.*2 →
  ∃ lns1 n e lns2, lns = lns1 ++ (n, e) :: lns2 ∧ freq e = f ∧ f ∉ freq <$> lns2.*2.
Proof.
  induction lns as [|[n e] lns IH]; csimpl; [set_solver|]. intros Hf.
  destruct (decide (f ∈ freq <$> lns.*2)) as [Hin|Hout].
  - destruct (IH Hin) as (lns1 & n' & e' & lns2 & -> & ? & ?).
    by exists ((n, e) :: lns1), n', e', lns2.
  - exists [], n, e, lns. set_solver.
Qed.

Lemma core_evict c lns :
  core c lns → minFreq c ∈ freq <$> lns.*2 →
  ∃ lns1 n e lns2 c1, lns = lns1 ++ (n, e) :: lns2 ∧ freq e = minFreq c ∧
    minFreq c ∉ freq <$> lns2.*2 ∧ evictMinFreq c = Some c1 ∧ core c1 (lns1 ++ lns2) ∧
    capacity c1 = capacity c ∧ metrics c1 = incEvictions (metrics c).
Proof.
  intros HC Hmin. destruct (last_of_freq _ _ Hmin) as (lns1 & n & e & lns2 & -> & Hf & Hlast).
  exists lns1, n, e, lns2. pose proof HC as (Hnd & Hp & _ & _ & Hbk).
  destruct (buckets_remove _ _ _ _ _ _ Hbk Hnd) as (b & h' & b' & Eb & Er & Hbk' & Hpl & _).
  specialize (Hbk (freq e)). rewrite Eb in Hbk. destruct Hbk as [(_ & _ & Ht & _) Hlen].
  unfold evictMinFreq. rewrite <-Hf, Eb, Hlen.
  rewrite bucketLocs_app, bucketLocs_cons, decide_True in * by done.
  rewrite length_app. simpl. destruct (_ =? 0) eqn:E0; bool_to_prop; [lia|].
  assert (bucketLocs (freq e) lns2 = []) as Hnil by (by apply bucketLocs_nil; rewrite Hf).
  unfold popTail. rewrite Ht, Hnil. unfold last_of. rewrite last_snoc, Er. simpl.
  destruct (Hp n e) as [He _]; [set_solver|]. rewrite <-Hpl in He.
  unfold payloads in He. rewrite lookup_fmap in He.
  destruct (h' !! n) as [nd|] eqn:En; simplify_eq/=.
  eexists. split_and!; try done; [congruence|].
  by apply (core_unlink c (withBucket c _ b' h') _ n).
Qed.

Lemma core_insert c lns e :
  core c lns → key e ∉ keys lns.*2 → freq e = 1 →
  ∃ n c1,
    (let n := brk c in
     let c2 := Backend (capacity c) (minFreq c) (<[key e := n]> (items c)) (freqBuckets c)
                       (<[n := Node e None None]> (nodes c)) (Pos.succ n) (metrics c) in
     let '(bucket, c3) := getBucket c2 1 in
     '(h, bucket') ← pushFront (nodes c3) bucket n;
     Some (withMin (withBucket c3 1 bucket' h) 1)) = Some c1 ∧
    core c1 ((n, e) :: lns) ∧ capacity c1 = capacity c ∧ metrics c1 = metrics c ∧ minFreq c1 = 1.
Proof.
  intros (Hnd & Hp & Hb & Hi & Hbk) Hk Hf. exists (brk c). simpl.
  assert (nodes c !! brk c = None) as Hfresh.
  { apply eq_None_not_Some. intros Hs%Hb. lia. }
  assert (brk c ∉ lns.*1) as Hn.
  { intros ([m em] & Hm & Hin)%list_elem_of_fmap. destruct (Hp _ _ Hin) as [He _].
    simpl in Hm. subst m. unfold payloads in He. by rewrite lookup_fmap, Hfresh in He. }
  set (c2 := Backend _ _ _ _ _ _ _ : lfuBackend T).
  destruct (core_push c2 lns (brk c) e (nodes c2)) as (c3 & E3 & HC3 & ? & ? & ?);
    try done; simpl.
  - by apply indexed_insert.
  - intros m em [[= -> ->]|Hm]%elem_of_cons; unfold payloads; rewrite fmap_insert.
    + rewrite lookup_insert_eq. split; [done | lia].
    + rewrite lookup_insert_ne; [by apply Hp|]. intros <-.
      by apply (list_elem_of_fmap_2 fst), Hn in Hm.
  - intros m. rewrite lookup_insert. case_decide; [lia|]. intros ?%Hb. lia.
  - by apply buckets_outside.
  - rewrite Hf in E3. simpl in *. destruct (getBucket c2 1) as [bk c4].
    destruct (pushFront _ _ _) as [[h' b']|]; simplify_eq/=.
    eexists. split; [done|]. by split_and!.
Qed.
End representation.

(** ** Refinement *)

Section refinement.
Context {T : Type}.
Implicit Types c : lfuBackend T.
Implicit Types es : list (entry T).
Implicit Types s : lfuSpec T.

Lemma foldr_min_spec es x m :
  m <= x → (∀ e, e ∈ es → m <= freq e) → m = x ∨ m ∈ freq <$> es →
  foldr (λ e m, Z.min (freq e) m) x es = m.
Proof.
  intros Hx. induction es as [|e es IH]; csimpl; intros Hle Hin; [set_solver|].
  pose proof (Hle e ltac:(left)) as He.
  assert (m <= foldr (λ e m, Z.min (freq e) m) x es) as Hlow.
  { clear IH Hin He. induction es as [|e' es IH]; simpl; [done|].
    pose proof (Hle e' ltac:(set_solver)). apply Z.min_glb; [done|]. apply IH. set_solver. }
  destruct (decide (m = freq e)) as [->|Hne]; [lia|].
  rewrite IH; [lia | set_solver | set_solver].
Qed.

Lemma lowest_spec es m :
  (∀ e, e ∈ es → m <= freq e) → m ∈ freq <$> es → lowest es = m.
Proof.
  destruct es as [|e es]; csimpl; [set_solver|]. intros Hle Hin.
  apply foldr_min_spec; [apply Hle; left | set_solver | set_solver].
Qed.

Lemma dropLast_middle f es1 e es2 :
  freq e = f → f ∉ freq <$> es2 → dropLast f (es1 ++ e :: es2) = es1 ++ es2.
Proof.
  intros Hf Hn. induction es1 as [|e1 es1 IH]; simpl.
  - by rewrite bool_decide_eq_true_2.
  - rewrite bool_decide_eq_false_2; [by rewrite IH|]. rewrite fmap_app, fmap_cons. set_solver.
Qed.

(** The cursor after an access, a removal and an insertion. *)
Lemma cursor_touch c c1 es1 e es2 e' :
  cursor c (es1 ++ e :: es2) → minFreq c1 = cursorAfter (minFreq c) e (es1 ++ es2) →
  capacity c1 = capacity c → freq e' = freq e + 1 → cursor c1 (e' :: es1 ++ es2).
Proof.
  intros [Hle Hfull] Hmin Hcap Hf. unfold cursorAfter in Hmin.
  pose proof (Hle e ltac:(set_solver)) as He.
  unfold cursor. case_bool_decide as Hc; rewrite Hmin; split.
  - intros x [->|Hx]%elem_of_cons; [lia|]. destruct Hc as [Hc Hnot].
    assert (freq x ≠ freq e) by (intros Heq; apply Hnot; rewrite <-Heq; by apply list_elem_of_fmap_2).
    pose proof (Hle x ltac:(set_solver)). lia.
  - intros _. rewrite fmap_cons. replace (freq e') with (minFreq c + 1) by lia. left.
  - intros x [->|Hx]%elem_of_cons; [lia|]. apply Hle. set_solver.
  - rewrite Hcap. intros Hl. assert (minFreq c ∈ freq <$> es1 ++ e :: es2) as Hin.
    { apply Hfull. rewrite <-Hl. simpl. rewrite !length_app. simpl. lia. }
    rewrite fmap_cons. apply elem_of_cons. right.
    destruct (decide (minFreq c ∈ freq <$> es1 ++ es2)) as [|Hnot]; [done|]. exfalso.
    rewrite fmap_app, fmap_cons, <-Permutation_middle, <-fmap_app in Hin.
    apply elem_of_cons in Hin as [Heq|]; [|done]. apply Hc. by rewrite Heq in *.
Qed.

Lemma cursor_remove c c1 es1 e es2 :
  cursor c (es1 ++ e :: es2) → minFreq c1 = cursorAfter (minFreq c) e (es1 ++ es2) →
  Z.of_nat (length (es1 ++ e :: es2)) <= capacity c → capacity c1 = capacity c →
  cursor c1 (es1 ++ es2).
Proof.
  intros [Hle _] Hmin Hlen Hcap. split.
  - intros x Hx. pose proof (Hle x ltac:(set_solver)) as Hxe. unfold cursorAfter in Hmin.
    case_bool_decide as Hc; [|lia]. destruct Hc as [Hc Hnot].
    assert (freq x ≠ freq e) by (intros Heq; apply Hnot; rewrite <-Heq; by apply list_elem_of_fmap_2). lia.
  - rewrite !length_app in *. simpl in *. lia.
Qed.

Lemma cursor_new c e es :
  minFreq c = 1 → freq e = 1 → (∀ x, x ∈ es → 1 <= freq x) → cursor c (e :: es).
Proof.
  intros Hm Hf Hle. unfold cursor. rewrite Hm. split.
  - intros x [->|Hx]%elem_of_cons; [lia | by apply Hle].
  - intros _. rewrite fmap_cons, Hf. left.
Qed.

Definition refines (cap : Z) c s : Prop :=
  (∃ lns, core c lns ∧ lns.*2 = recency s) ∧ cursor c (recency s) ∧
  metrics c = counters s ∧ capacity c = cap ∧
  1 <= cap ∧ Z.of_nat (length (recency s)) <= cap.

Lemma lfu_refines_new cap :
  refines (if cap <=? 0 then 128 else cap) (newLFUBackend cap : lfuBackend T) (LfuSpec [] noMetrics).
Proof.
  split_and!; try done.
  - exists []. split; [|done]. split_and!; [constructor | set_solver | | apply indexed_nil | done].
    intros n [x Hx]. done.
  - split; simpl; [set_solver|]. case_match; bool_to_prop; lia.
  - case_match; bool_to_prop; lia.
  - case_match; bool_to_prop; simpl; lia.
Qed.

Lemma core_NoDup c lns : core c lns → NoDup (keys lns.*2).
Proof. by intros (_ & _ & _ & [? _] & _). Qed.

Lemma refines_lookup cap c s k :
  refines cap c s →
  match items c !! k with
  | None => findEntry k (recency s) = None ∧ without k (recency s) = recency s
  | Some n =>
      ∃ lns1 e lns2 p q, core c (lns1 ++ (n, e) :: lns2) ∧
        recency s = lns1.*2 ++ e :: lns2.*2 ∧ key e = k ∧ nodes c !! n = Some (Node e p q) ∧
        findEntry k (recency s) = Some e ∧ without k (recency s) = (lns1 ++ lns2).*2
  end.
Proof.
  intros ((lns & HC & Hes) & _). rewrite <-Hes. pose proof HC as (_ & Hp & _ & Hi & _).
  destruct (items c !! k) as [n|] eqn:Ek.
  - destruct (indexed_Some _ _ _ _ Hi Ek) as (lns1 & e & lns2 & -> & Hk & Hk1 & Hk2).
    destruct (Hp n e) as [He _]; [set_solver|].
    unfold payloads in He. rewrite lookup_fmap in He.
    destruct (nodes c !! n) as [[e0 p q]|] eqn:En; simplify_eq/=.
    exists lns1, e, lns2, p, q. rewrite !fmap_app, fmap_cons. simpl.
    rewrite findEntry_middle, without_middle by done. by split_and!.
  - pose proof (indexed_None _ _ _ Hi Ek). by rewrite findEntry_None, without_notin.
Qed.

Lemma lfu_Len_refines cap c s : refines cap c s → Len c = Z.of_nat (length (recency s)).
Proof.
  intros ((lns & (_ & _ & _ & Hi & _) & <-) & _). unfold Len.
  by rewrite (indexed_size _ _ Hi), length_fmap.
Qed.

Lemma lfu_Get_refines cap c s k now :
  refines cap c s →
  ∃ c', Get c k now = Some ((specGet s k now).1, c') ∧ refines cap c' (specGet s k now).2.
Proof.
  intros HR. pose proof (refines_lookup _ _ _ k HR) as Hl.
  destruct HR as (HCe & Hcur & Hm & Hcap & H1 & Hlen). unfold Get, specGet.
  destruct (items c !! k) as [n|].
  - destruct Hl as (lns1 & e & lns2 & p & q & HC & Hes & Hk & -> & -> & ->). simpl.
    rewrite Hes in Hcur, Hlen. destruct (expired _ _); simpl.
    + destruct (core_removeNode _ _ _ _ _ HC) as (c1 & -> & ? & ? & Hi & Hb & Hpl & Hbk & Hmin).
      pose proof (core_unlink _ _ _ _ _ _ HC Hi Hb Hpl Hbk) as HC1. simpl.
      eexists; split; [done|]. rewrite fmap_app in *. split_and!; simpl; try congruence; try lia.
      * exists (lns1 ++ lns2). split; [|by rewrite fmap_app]. by rewrite <-Hk.
      * eapply cursor_remove; [apply Hcur|done|simpl; lia|simpl; congruence].
      * rewrite !length_app in *. simpl in *. lia.
    + destruct (core_increment _ _ _ _ _ HC) as (c1 & -> & HC1 & ? & ? & Hmin). simpl.
      destruct HC1 as (Hx & Hp1 & HC1'). destruct (Hp1 n (touched e)) as [He _]; [left|].
      unfold payloads in He. rewrite lookup_fmap in He.
      destruct (nodes c1 !! n) as [nd|] eqn:En; simplify_eq/=. rewrite He. simpl.
      eexists; split; [done|]. rewrite fmap_app in *. split_and!; simpl; try congruence; try lia.
      * exists ((n, touched e) :: lns1 ++ lns2). split; [|by csimpl; rewrite fmap_app]. done.
      * eapply cursor_touch; [apply Hcur|done|simpl; congruence|done].
      * rewrite !length_app in *. simpl in *. lia.
  - destruct Hl as [-> _]. simpl. eexists; split; [done|]. by split_and!; simpl; try congruence.
Qed.

(** Overwriting an entry and counting the access. *)
Lemma lfu_overwrite cap c s k v exp n e :
  refines cap c s → items c !! k = Some n → findEntry k (recency s) = Some e →
  ∃ c', (c1 ← writeNode c n v exp; incrementFreq c1 n) = Some c' ∧
    refines cap c' (LfuSpec (Entry k v (freq e + 1) exp :: without k (recency s)) (counters s)).
Proof.
  intros HR Hk Hf. pose proof (refines_lookup _ _ _ k HR) as Hl. rewrite Hk in Hl.
  destruct Hl as (lns1 & e' & lns2 & p & q & HC & Hes & Hke & Hn & Hf' & ->).
  destruct HR as (_ & Hcur & Hm & Hcap & H1 & Hlen). rewrite Hf in Hf'. simplify_eq.
  destruct (core_write _ _ _ _ _ v exp HC) as (c1 & -> & ? & ? & Hmin1 & HC1). simpl.
  destruct (core_increment _ _ _ _ _ HC1) as (c2 & -> & HC2 & ? & ? & Hmin2).
  rewrite Hes in Hcur, Hlen. rewrite fmap_app in *.
  eexists; split; [done|]. split_and!; simpl; try congruence; try lia.
  - eexists. split; [apply HC2|]. csimpl. by rewrite fmap_app.
  - eapply (cursor_touch c); [apply Hcur| |simpl; congruence|done].
    rewrite Hmin2, Hmin1. done.
  - rewrite !length_app in *. simpl in *. lia.
Qed.

Lemma core_freq c lns e : core c lns → e ∈ lns.*2 → 1 <= freq e.
Proof. intros (_ & Hp & _) ([n e'] & -> & Hin)%list_elem_of_fmap. by apply Hp in Hin as [_ ?]. Qed.

(** Inserting a new key, after evicting from a full cache. *)
Lemma lfu_insertNew cap c s e :
  refines cap c s → findEntry (key e) (recency s) = None → freq e = 1 →
  ∃ c', insertNew c e = Some c' ∧
    refines cap c' (if cap <=? Z.of_nat (length (recency s))
                    then LfuSpec (e :: evictLfu (recency s)) (incEvictions (counters s))
                    else LfuSpec (e :: recency s) (counters s)).
Proof.
  intros HR Hk%findEntry_None Hf. pose proof (lfu_Len_refines _ _ _ HR) as Hsz.
  destruct HR as ((lns & HC & Hes) & [Hle Hfull] & Hm & <- & H1 & Hlen).
  unfold insertNew. unfold Len in Hsz. rewrite Hsz. destruct (_ <=? _) eqn:E; bool_to_prop.
  - rewrite <-Hes in *.
    destruct (core_evict c lns HC) as (lns1 & n & v & lns2 & c1 & -> & Hv & Hlast & -> & HC1 & Hcap1 & Hm1).
    { apply Hfull. lia. }
    simpl. rewrite fmap_app, fmap_cons in *. simpl in *.
    destruct (core_insert c1 (lns1 ++ lns2) e HC1) as (n' & c2 & Eins & HC2 & ? & ? & Hmin2); [|done|].
    { rewrite fmap_app. unfold Keyed.keys in *. rewrite fmap_app, fmap_cons in *. set_solver. }
    simpl in Eins. rewrite Eins.
    assert (evictLfu (lns1.*2 ++ v :: lns2.*2) = (lns1 ++ lns2).*2) as ->.
    { unfold evictLfu. rewrite (lowest_spec _ (minFreq c)); [|done|by apply Hfull; lia].
      rewrite dropLast_middle by done. by rewrite fmap_app. }
    eexists; split; [done|]. split_and!; simpl; try congruence; try lia.
    + by exists ((n', e) :: lns1 ++ lns2).
    + apply cursor_new; [done|done|]. intros x. by apply core_freq with c1.
    + rewrite fmap_app. rewrite !length_app in *. simpl in *. lia.
  - simpl. rewrite <-Hes in *.
    destruct (core_insert c lns e HC Hk Hf) as (n' & c2 & Eins & HC2 & ? & ? & Hmin2).
    simpl in Eins. rewrite Eins.
    eexists; split; [done|]. split_and!; simpl; try congruence; try lia.
    + by exists ((n', e) :: lns).
    + apply cursor_new; [done|done|]. intros x. by apply core_freq with c.
Qed.

Lemma lfu_Set_refines cap c s k v ttl now :
  refines cap c s →
  ∃ c', Set_ c k v ttl now = Some c' ∧ refines cap c' (specSet cap s k v ttl now).
Proof.
  intros HR. pose proof (refines_lookup _ _ _ k HR) as Hl. unfold Set_, specSet.
  destruct (items c !! k) as [n|] eqn:Ek.
  - destruct Hl as (lns1 & e & lns2 & p & q & _ & _ & _ & _ & Hf & _). rewrite Hf.
    by apply lfu_overwrite.
  - destruct Hl as [Hf _]. rewrite Hf. by apply lfu_insertNew.
Qed.

Lemma lfu_Delete_refines cap c s k :
  refines cap c s → ∃ c', Delete c k = Some c' ∧ refines cap c' (specDelete s k).
Proof.
  intros HR. pose proof (refines_lookup _ _ _ k HR) as Hl. unfold Delete, specDelete.
  destruct (items c !! k) as [n|] eqn:Ek.
  - destruct Hl as (lns1 & e & lns2 & p & q & HC & Hes & Hk & _ & _ & ->).
    destruct HR as (_ & Hcur & Hm & Hcap & H1 & Hlen). rewrite Hes in Hcur, Hlen.
    destruct (core_removeNode _ _ _ _ _ HC) as (c1 & -> & ? & ? & Hi & Hb & Hpl & Hbk & Hmin).
    pose proof (core_unlink _ _ _ _ _ _ HC Hi Hb Hpl Hbk) as HC1. simpl.
    eexists; split; [done|]. rewrite fmap_app in *. split_and!; simpl; try congruence; try lia.
    + exists (lns1 ++ lns2). split; [|by rewrite fmap_app]. by rewrite <-Hk.
    + eapply cursor_remove; [apply Hcur|done|simpl; lia|simpl; congruence].
    + rewrite !length_app in *. simpl in *. lia.
  - destruct Hl as [_ Hw]. exists c. rewrite Hw. by destruct s.
Qed.
End refinement.

(** ** The interface contract *)

Section contract.
Context {T : Type}.
Implicit Types c : lfuBackend T.

Definition lfuInv c : Prop := ∃ s, refines (capacity c) c s.

Lemma lfu_contents cap c s : refines cap c s → contents c = viewOf (recency s).
Proof.
  intros HR. apply map_eq. intros k. unfold contents. rewrite lookup_omap, viewOf_lookup.
  pose proof (refines_lookup _ _ _ k HR) as Hl. destruct (items c !! k) as [n|]; simpl.
  - destruct Hl as (lns1 & e & lns2 & p & q & _ & _ & _ & Hn & -> & _).
    unfold entryOf. by rewrite Hn.
  - by destruct Hl as [-> _].
Qed.

Lemma lfu_capacity cap c s : refines cap c s → Some (capacity c) = Some cap.
Proof. by intros (_ & _ & _ & ? & _); f_equal. Qed.

Lemma lfu_inv cap c s : refines cap c s → lfuInv c.
Proof. intros HR. exists s. by injection (lfu_capacity _ _ _ HR) as ->. Qed.

Lemma findEntry_dropLast k f (es : list (entry T)) :
  NoDup (keys es) →
  findEntry k (dropLast f es) = findEntry k es ∨ findEntry k (dropLast f es) = None.
Proof.
  induction es as [|e es IH]; simpl; [by left|]. intros [Hn Hnd]%NoDup_cons.
  case_bool_decide as Hd; simpl; case_bool_decide as Hk; simpl; auto.
  right. apply findEntry_None. by rewrite <-Hk.
Qed.
End contract.

#[export] Hint Resolve lfu_inv lfu_capacity : golibs.

#[export] Program Instance lfu_contract {T} : CacheContract (lfuBackend T) T := {|
  inv := lfuInv; view := contents; bound c := Some (capacity c);
|}.
Next Obligation.
  intros T c k clk [s HR] _. destruct (lfu_Get_refines _ _ _ k (clk 0%nat) HR) as (c' & E & HR').
  exists c'. rewrite (lfu_contents _ _ _ HR), (lfu_contents _ _ _ HR'), viewOf_lookup.
  simpl. rewrite E. unfold specGet. destruct (findEntry k (recency s)) as [e|] eqn:Ef; simpl.
  - destruct (expired _ _); split_and!; eauto with golibs; simpl.
    + by rewrite viewOf_without.
    + eapply viewOf_front; eauto using findEntry_key. simpl. by eapply findEntry_key.
  - split_and!; eauto with golibs.
Qed.
Next Obligation.
  intros T c k v ttl clk [s HR] _ _. destruct (lfu_Set_refines _ _ _ k v ttl (clk 0%nat) HR) as (c' & E & HR').
  exists c'. rewrite (lfu_contents _ _ _ HR), (lfu_contents _ _ _ HR'). simpl. rewrite E.
  split_and!; eauto with golibs.
  - unfold specSet. repeat case_match; by apply viewOf_cons_eq.
  - intros k' Hk'. unfold specSet. repeat case_match; simpl; rewrite viewOf_cons_ne by done.
    + left. by rewrite viewOf_without, lookup_delete_ne.
    + assert (NoDup (keys (recency s))) as Hnd.
      { destruct HR as ((lns & HC & <-) & _). by eapply core_NoDup. }
      rewrite !viewOf_lookup. unfold evictLfu.
      destruct (findEntry_dropLast k' (lowest (recency s)) _ Hnd) as [->| ->]; auto.
    + by left.
Qed.
Next Obligation.
  intros T c k [s HR]. destruct (lfu_Delete_refines _ _ _ k HR) as (c' & E & HR').
  exists c'. rewrite (lfu_contents _ _ _ HR), (lfu_contents _ _ _ HR'). simpl. rewrite E.
  split_and!; eauto with golibs. apply viewOf_without.
Qed.
Next Obligation.
  intros T c [s HR]. rewrite (lfu_contents _ _ _ HR), viewOf_size.
  - simpl. rewrite (lfu_Len_refines _ _ _ HR). split; [done|]. intros n [= <-]. apply HR.
  - destruct HR as ((lns & HC & <-) & _). by eapply core_NoDup.
Qed.

(** ** Histories *)

Section history.
Context {T : Type}.

Definition specStep (cap : Z) (s : lfuSpec T) (o : op T) : resp T * lfuSpec T :=
  match o with
  | OpGet k clk => let '(r, s') := specGet s k (clk 0%nat) in (RGet r, s')
  | OpSet k v ttl clk => (RDone, specSet cap s k v ttl (clk 0%nat))
  | OpDelete k => (RDone, specDelete s k)
  | OpLen => (RLen (Z.of_nat (length (recency s))), s)
  end.

Lemma lfu_step_refines cap c (s : lfuSpec T) o :
  refines cap c s →
  ∃ c', step c o = Some ((specStep cap s o).1, c') ∧ refines cap c' (specStep cap s o).2.
Proof.
  intros HR. destruct o as [k clk|k v ttl clk|k|]; simpl.
  - destruct (lfu_Get_refines _ _ _ k (clk 0%nat) HR) as (c' & -> & ?). simpl.
    destruct (specGet s k (clk 0%nat)). eauto.
  - destruct (lfu_Set_refines _ _ _ k v ttl (clk 0%nat) HR) as (c' & -> & ?). eauto.
  - destruct (lfu_Delete_refines _ _ _ k HR) as (c' & -> & ?). eauto.
  - rewrite (lfu_Len_refines _ _ _ HR). eauto.
Qed.

(** C2: on every history of calls the LFU backend never follows a nil or
    dangling pointer, answers exactly like the reference policy "count the
    accesses of each entry, evict the least frequently used one, the least
    recently used among equals", counts hits, misses and evictions alike, and
    never holds more than its capacity: the [minFreq] cursor always finds the
    victim when the cache is full. *)
Theorem lfu_history_refines (cap : Z) (os : list (op T)) :
  let cap' := if cap <=? 0 then 128 else cap in
  let '(rs, s) := specRun (specStep cap') (LfuSpec [] noMetrics) os in
  ∃ c, run (newLFUBackend cap) os = Some (rs, c) ∧ contents c = viewOf (recency s) ∧
       metrics c = counters s ∧ Len c = Z.of_nat (length (recency s)) ∧ Len c <= cap'.
Proof.
  intros cap'.
  destruct (run_refines (specStep cap') (refines cap') (lfu_step_refines cap') os
              (newLFUBackend cap) (LfuSpec [] noMetrics) (lfu_refines_new cap)) as (c & E & HR).
  destruct (specRun _ _ _) as [rs s]. simpl in *. exists c.
  rewrite (lfu_Len_refines _ _ _ HR), (lfu_contents _ _ _ HR). split_and!; try done; apply HR.
Qed.
End history.
