(* ===== verification/Sampled.v ===== *)
(** The default SampledLRU policy of cache/cache.go: the [sync.Map] of items,
    the size counter, the sampled search for an eviction victim, and the proof
    that the policy satisfies the cache contract. *)
From S2P Require Import Prelude CacheIface.

Definition numStripes : Z := 16.
Definition evictionSampleSize : Z := 16.

(** [fnv32]: FNV-1a on the bytes of the key, modulo [2^32]. *)
Fixpoint fnv32_from (hash : Z) (key : string) : Z :=
  match key with
  | EmptyString => hash
  | String a key' =>
      fnv32_from (Z.lxor hash (Z.of_nat (Ascii.nat_of_ascii a)) * 16777619 mod 2 ^ 32) key'
  end.
Definition fnv32 (key : string) : Z := fnv32_from 2166136261 key.

(** [getStripe]: the index of the lock of a key. *)
Definition getStripe (key : string) : Z := fnv32 key mod numStripes.

Record Item (T : Type) := mkItem { Value : T; Expiration : Z; CreatedAt : Z }.
Arguments mkItem {T} _ _ _.
Arguments Value {T} _.
Arguments Expiration {T} _.
Arguments CreatedAt {T} _.

(** The fields of [TypedCache] the SampledLRU policy uses. *)
Record sampledCache (T : Type) := Sampled {
  capacity : Z;
  data : gmap string (Item T);
  size_ : Z;
  evictOffset : Z;
  metrics : Metrics;
}.
Arguments Sampled {T} _ _ _ _ _.
Arguments capacity {T} _.
Arguments data {T} _.
Arguments size_ {T} _.
Arguments evictOffset {T} _.
Arguments metrics {T} _.

(** The order in which [sync.Map.Range] visits the entries is not specified:
    any permutation, and another one at every call ([evictOffset] changes with
    every search; the flag tells the fallback search of the same round). *)
Class RangeOrder (T : Type) := {
  order : Z → bool → gmap string (Item T) → list (string * Item T);
  order_perm : ∀ off fallback m, order off fallback m ≡ₚ map_to_list m;
}.

(** ** The search for a victim *)

Section search.
Context {T : Type}.

(** The variables the [Range] callbacks assign. *)
Record scan := Scan {
  oldestKey : option string;
  oldestTime : Z;
  expiredKey : option string;
  sampled : Z;
  idx : Z;
}.

Definition scan0 : scan := Scan None maxInt64 None 0 0.

(** [Range]: visits the entries in order until the callback returns false. *)
Fixpoint Range (f : string → Item T → scan → scan * bool) (l : list (string * Item T)) (sc : scan) : scan :=
  match l with
  | [] => sc
  | (k, v) :: l' => let '(sc', continue) := f k v sc in if continue then Range f l' sc' else sc'
  end.

(** The part both callbacks share: count the item; stop at an expired one,
    remember the oldest. The flag is false when the item is expired. *)
Definition sampleItem (now : Time) (k : string) (item : Item T) (sc : scan) : scan * bool :=
  let n := sampled sc + 1 in
  if expired (Expiration item) now then
    (Scan (oldestKey sc) (oldestTime sc) (Some k) n (idx sc), false)
  else if CreatedAt item <? oldestTime sc then
    (Scan (Some k) (CreatedAt item) (expiredKey sc) n (idx sc), true)
  else (Scan (oldestKey sc) (oldestTime sc) (expiredKey sc) n (idx sc), true).

(** The callback of [findFallbackEvictionCandidate]. *)
Definition fallbackVisit (newKey : string) (now : Time) (k : string) (item : Item T) (sc : scan)
    : scan * bool :=
  if bool_decide (k = newKey) then (sc, true)
  else
    let '(sc', ok) := sampleItem now k item sc in
    if ok then (sc', sampled sc' <? evictionSampleSize) else (sc', false).

(** The callback of [findSampledEvictionCandidate]. *)
Definition sampledVisit (newKey : string) (now : Time) (offset stride : Z) (k : string)
    (item : Item T) (sc : scan) : scan * bool :=
  let next sc := Scan (oldestKey sc) (oldestTime sc) (expiredKey sc) (sampled sc) (idx sc + 1) in
  if bool_decide (k = newKey) then (sc, true)
  else if (offset <=? idx sc) && (go_rem (idx sc - offset) stride =? 0) then
    let '(sc', ok) := sampleItem now k item sc in
    if ok then if evictionSampleSize <=? sampled sc' then (sc', false) else (next sc', true)
    else (sc', false)
  else (next sc, true).
End search.

Section operations.
Context {T : Type} `{RangeOrder T}.
Implicit Types c : sampledCache T.

Definition findFallbackEvictionCandidate c (newKey : string) (now : Time) : option string :=
  let sc := Range (fallbackVisit newKey now) (order (evictOffset c) true (data c)) scan0 in
  match expiredKey sc with Some k => Some k | None => oldestKey sc end.

Definition withOffset c off : sampledCache T :=
  Sampled (capacity c) (data c) (size_ c) off (metrics c).

Definition strideOf (sz : Z) : Z :=
  let s := go_div sz evictionSampleSize in if 1 <? s then s else 1.

Definition findSampledEvictionCandidate c (newKey : string) (now : Time)
    : option string * sampledCache T :=
  let stride := strideOf (size_ c) in
  let off := (evictOffset c + 1) mod 2 ^ 64 in
  let c1 := withOffset c off in
  let offset := off mod stride in
  let sc := Range (sampledVisit newKey now offset stride) (order off false (data c1)) scan0 in
  (match expiredKey sc with
   | Some k => Some k
   | None =>
       match oldestKey sc with
       | Some k => Some k
       | None => findFallbackEvictionCandidate c1 newKey now
       end
   end, c1).

(** [LoadAndDelete] of a present key, [size.Add(-1)]. *)
Definition removeKey c (k : string) : sampledCache T :=
  Sampled (capacity c) (delete k (data c)) (size_ c - 1) (evictOffset c) (metrics c).

Definition countEviction c : sampledCache T :=
  Sampled (capacity c) (data c) (size_ c) (evictOffset c) (incEvictions (metrics c)).

(** The loop of [evictIfNeeded]; it reads the clock once per round and gives
    back the readings that are left. [None] is running out of fuel. *)
Fixpoint evictLoop (fuel : nat) c (newKey : string) (clk : readings)
    : option (sampledCache T * readings) :=
  if capacity c <=? size_ c then
    match fuel with
    | O => None
    | S fuel' =>
        let '(target, c1) := findSampledEvictionCandidate c newKey (clk 0%nat) in
        let clk' := λ i, clk (S i) in
        match target with
        | None => Some (c1, clk')
        | Some k =>
            match data c1 !! k with
            | Some _ => evictLoop fuel' (countEviction (removeKey c1 k)) newKey clk'
            | None => Some (c1, clk')
            end
        end
    end
  else Some (c, clk).

(** Every round but the last removes an entry. *)
Definition evictIfNeeded c (newKey : string) (clk : readings) : option (sampledCache T * readings) :=
  if capacity c <=? 0 then Some (c, clk) else evictLoop (S (size (data c))) c newKey clk.

Definition countMiss c : sampledCache T :=
  Sampled (capacity c) (data c) (size_ c) (evictOffset c) (incMisses (metrics c)).
Definition countHit c : sampledCache T :=
  Sampled (capacity c) (data c) (size_ c) (evictOffset c) (incHits (metrics c)).

(** [item.Expiration == 0 || item.Expiration > now]. *)
Definition fresh (item : Item T) (now : Time) : bool :=
  (Expiration item =? 0) || (UnixNano now <? Expiration item).

(** [Get] (the SampledLRU branch): an expired entry is looked up again under
    the stripe lock, with a second clock reading, before it is removed. *)
Definition Get c (k : string) (clk : readings) : option T * sampledCache T :=
  match data c !! k with
  | None => (None, countMiss c)
  | Some item =>
      if fresh item (clk 0%nat) then (Some (Value item), countHit c)
      else (None, countMiss (if expired (Expiration item) (clk 1%nat)
                             then countEviction (removeKey c k) else c))
  end.

(** [data.Swap(key, item)], [size.Add(1)] when the key was absent. *)
Definition swap c (k : string) (item : Item T) : sampledCache T :=
  Sampled (capacity c) (<[k := item]> (data c))
    (match data c !! k with Some _ => size_ c | None => size_ c + 1 end)
    (evictOffset c) (metrics c).

(** The locked part of [Set] and of the fetch in [getOrFetchSampledLRU]. *)
Definition store c (k : string) (item : Item T) (clk : readings) : option (sampledCache T) :=
  if 0 <? capacity c then
    '(c1, clk1) ← (match data c !! k with
                   | None => evictIfNeeded c k clk
                   | Some _ => Some (c, clk)
                   end);
    let c2 := swap c1 k item in
    if capacity c2 <? size_ c2 then '(c3, _) ← evictIfNeeded c2 k clk1; Some c3 else Some c2
  else Some (swap c k item).

Definition newItem (v : T) (ttl : list Duration) (now : Time) : Item T :=
  mkItem v (expiry ttl now) (UnixNano now).

Definition Set_ c (k : string) (v : T) (ttl : list Duration) (clk : readings) : option (sampledCache T) :=
  store c k (newItem v ttl (clk 0%nat)) (λ i, clk (S i)).

Definition Delete c (k : string) : sampledCache T :=
  match data c !! k with Some _ => removeKey c k | None => c end.

Definition Len c : Z := if size_ c <? 0 then 0 else size_ c.

(** One tick of [startEviction]: every expired entry of the range is looked up
    again under its lock and removed. *)
Definition sweepEntry (now : Time) c (p : string * Item T) : sampledCache T :=
  let '(k, v) := p in
  if expired (Expiration v) now then
    match data c !! k with
    | Some v2 => if expired (Expiration v2) now then countEviction (removeKey c k) else c
    | None => c
    end
  else c.

Definition sweep c (now : Time) : sampledCache T :=
  foldl (sweepEntry now) c (order (evictOffset c) false (data c)).

(** [getOrFetchSampledLRU]: the fast path only looks; [clk1] is its clock
    reading, [clk2] the readings of the fetch. *)
Definition getOrFetchSampledLRU c (ctxErr : option error) (k : string) (ttl : Duration)
    (fetched : T + error) (fl : flight T) (done : option error) (clk1 clk2 : readings)
    : option ((T + error) * sampledCache T) :=
  let fetch :=
    '(res, c2) ← match fl, fetched with
                 | Leader, inl v =>
                     c2 ← store (countMiss c) k (newItem v [ttl] (clk2 0%nat)) (λ i, clk2 (S i));
                     Some (inl v, c2)
                 | Leader, inr e => Some (inr e, countMiss c)
                 | Joined res, _ => Some (res, countMiss c)
                 end;
    Some (match done with Some e => inr e | None => res end, c2) in
  match ctxErr, data c !! k with
  | Some e, _ => Some (inr e, c)
  | None, Some item => if fresh item (clk1 0%nat) then Some (inl (Value item), countHit c) else fetch
  | None, None => fetch
  end.

Definition contents c : gmap string (T * Z) := (λ it, (Value it, Expiration it)) <$> data c.
End operations.

#[export] Instance sampled_backend {T} `{RangeOrder T} : CacheBackend (sampledCache T) T := {|
  cget c k clk := Some (Get c k clk); cset := Set_; cdelete c k := Some (Delete c k); clen := Len;
|}.

(** ** The victim *)

Section victim.
Context {T : Type}.
Implicit Types l : list (string * Item T).
Implicit Types sc : scan.
Implicit Types it : Item T.

(** An entry another key than [newKey] may be evicted for. *)
Definition candidate (newKey : string) l (k : string) (P : Item T → Prop) : Prop :=
  k ≠ newKey ∧ ∃ it, (k, it) ∈ l ∧ P it.

(** What the scan variables mean, for a scan over entries of [l]. *)
Definition scanned (newKey : string) (now : Time) l sc : Prop :=
  (∀ k, expiredKey sc = Some k → candidate newKey l k (λ it, expired (Expiration it) now = true)) ∧
  (∀ k, oldestKey sc = Some k → candidate newKey l k (λ it, CreatedAt it = oldestTime sc)).

Definition found sc : Prop := is_Some (expiredKey sc) ∨ is_Some (oldestKey sc).

Lemma scan0_scanned newKey now l : scanned newKey now l scan0.
Proof. by split. Qed.

Lemma sampleItem_scanned newKey now l k it sc :
  k ≠ newKey → (k, it) ∈ l → scanned newKey now l sc →
  scanned newKey now l (sampleItem now k it sc).1.
Proof.
  intros Hk Hin [He Ho]. unfold sampleItem. cases; split; simpl; try done;
    intros ? [= <-]; split; eauto.
Qed.

(** The scan variables after any callback that either skips an entry or
    samples one. *)
Lemma Range_scanned (f : string → Item T → scan → scan * bool) newKey now l :
  (∀ k it sc, (k, it) ∈ l → scanned newKey now l sc → scanned newKey now l (f k it sc).1) →
  ∀ l' sc, l' ⊆ l → scanned newKey now l sc → scanned newKey now l (Range f l' sc).
Proof.
  intros Hf l'. induction l' as [|[k it] l' IH]; intros sc Hsub Hsc; simpl; [done|].
  pose proof (Hf k it sc ltac:(set_solver) Hsc) as Hsc'.
  destruct (f k it sc) as [sc' []]; simpl in *; [|done]. apply IH; set_solver.
Qed.

Lemma fallback_scanned newKey now l sc :
  scanned newKey now l sc → scanned newKey now l (Range (fallbackVisit newKey now) l sc).
Proof.
  apply Range_scanned; [|done]. intros k it sc' Hin Hsc. unfold fallbackVisit.
  case_bool_decide; [done|]. pose proof (sampleItem_scanned _ _ _ _ _ _ H Hin Hsc).
  by destruct (sampleItem _ _ _ _) as [sc1 []].
Qed.

Lemma sampled_scanned newKey now offset stride l sc :
  scanned newKey now l sc →
  scanned newKey now l (Range (sampledVisit newKey now offset stride) l sc).
Proof.
  apply Range_scanned; [|done]. intros k it sc' Hin Hsc. unfold sampledVisit.
  case_bool_decide; [done|]. pose proof (sampleItem_scanned _ _ _ _ _ _ H Hin Hsc).
  destruct (_ && _); [|done]. destruct (sampleItem _ _ _ _) as [sc1 []]; [|done]. by case_match.
Qed.

Lemma sampleItem_found now k it sc :
  CreatedAt it < maxInt64 → (oldestKey sc = None → oldestTime sc = maxInt64) →
  found (sampleItem now k it sc).1.
Proof.
  intros Hc Hn. unfold sampleItem, found. cases; simpl; eauto.
  right. destruct (oldestKey sc); [eauto|]. specialize (Hn eq_refl). lia.
Qed.

Lemma Range_found newKey now offset stride l sc :
  found sc → found (Range (sampledVisit newKey now offset stride) l sc).
Proof.
  revert sc. induction l as [|[k it] l IH]; intros sc Hf; simpl; [done|].
  destruct (sampledVisit _ _ _ _ _ _ _) as [sc' b] eqn:E.
  assert (found sc').
  { unfold sampledVisit, sampleItem, found in *. cases; simpl in *; naive_solver. }
  destruct b; eauto.
Qed.

(** Entries other than [newKey]. *)
Definition others (newKey : string) l : list (string * Item T) := filter (λ p, p.1 ≠ newKey) l.

(** The sampled scan reaches the entry number [offset]. *)
Lemma sampled_reaches newKey now offset stride l sc :
  0 < stride → Forall (λ p, CreatedAt p.2 < maxInt64) l →
  (oldestKey sc = None → oldestTime sc = maxInt64) →
  idx sc <= offset < idx sc + Z.of_nat (length (others newKey l)) →
  found (Range (sampledVisit newKey now offset stride) l sc).
Proof.
  intros Hs Hl. revert sc. induction Hl as [|[k it] l Hc Hl IH]; intros sc Hn Hoff; simpl in *; [lia|].
  unfold others in Hoff. rewrite filter_cons in Hoff. unfold sampledVisit at 1.
  case_bool_decide as Hk; case_decide as Hk'; try done; [by apply IH|]. simpl in Hoff.
  destruct (_ && _) eqn:Ei; bool_to_prop.
  - pose proof (sampleItem_found now k it sc Hc Hn) as Hf.
    destruct (sampleItem _ _ _ _) as [sc' []]; [|done].
    destruct (_ <=? _); [done|]. by apply Range_found.
  - apply IH; simpl; [done|]. unfold others. destruct Ei as [?|Hr]; bool_to_prop; [lia|].
    assert (idx sc ≠ offset); [|lia].
    intros Heq. apply Hr. unfold go_rem. by rewrite Heq, Z.sub_diag.
Qed.

(** With a stride of one and at most sixteen candidates the scan sees all. *)
Lemma sampled_minimal newKey now l sc :
  expiredKey sc = None → 0 <= idx sc →
  sampled sc + Z.of_nat (length (others newKey l)) <= evictionSampleSize →
  let sc' := Range (sampledVisit newKey now 0 1) l sc in
  expiredKey sc' = None →
  oldestTime sc' <= oldestTime sc ∧
  Forall (λ p, p.1 ≠ newKey → oldestTime sc' <= CreatedAt p.2 ∧ expired (Expiration p.2) now = false) l.
Proof.
  revert sc. induction l as [|[k it] l IH]; intros sc He Hi Hs; simpl; [by split|].
  unfold others in Hs, IH. rewrite filter_cons in Hs. cbv zeta. simpl.
  destruct (sampledVisit newKey now 0 1 k it sc) as [sc0 go] eqn:E. unfold sampledVisit in E.
  revert E.
  case_bool_decide as Hk; case_decide as Hk'; try done; simpl in *.
  { intros [= <- <-] He'. destruct (IH _ He Hi Hs He'). split; [done|]. constructor; [done|done]. }
  destruct (_ && _) eqn:Ei; bool_to_prop.
  2:{ destruct Ei; bool_to_prop; [lia|]. unfold go_rem in *. rewrite Z.rem_1_r in *. done. }
  destruct (sampleItem now k it sc) as [sc1 ok] eqn:Es. unfold sampleItem in Es.
  destruct (expired (Expiration it) now) eqn:Ex; [simplify_eq/=; by intros [= <- <-]|].
  assert (ok = true ∧ expiredKey sc1 = None ∧ sampled sc1 = sampled sc + 1 ∧ idx sc1 = idx sc ∧
    oldestTime sc1 <= oldestTime sc ∧ oldestTime sc1 <= CreatedAt it) as (-> & He1 & Hs1 & Hi1 & ? & ?).
  { cases; simpl; split_and!; try done; lia. }
  destruct (_ <=? _) eqn:Efull; bool_to_prop; intros [= <- <-] He'.
  - split; [done|]. constructor; [done|]. apply Forall_forall. intros p Hp Hpk. exfalso.
    assert (p ∈ filter (λ p, p.1 ≠ newKey) l) as Hp' by (by apply list_elem_of_filter).
    destruct (filter _ l); [by apply elem_of_nil in Hp' | simpl in *; lia].
  - apply IH in He' as [Hle Hall]; simpl in *; try done; try lia.
    split; [lia|]. constructor; [|done]. simpl. intros _. split; [lia|done].
Qed.
End victim.

(** ** Invariant and contract *)

Section invariant.
Context {T : Type} `{RangeOrder T}.
Implicit Types c : sampledCache T.

(** The counter is the number of items, and the stored times are in range. *)
Definition counted c : Prop :=
  size_ c = Z.of_nat (size (data c)) ∧ 0 <= evictOffset c ∧
  map_Forall (λ _ it, 0 <= Expiration it ∧ CreatedAt it < maxInt64) (data c).

Definition sampledInv c : Prop :=
  counted c ∧ (0 < capacity c → Z.of_nat (size (data c)) <= capacity c).

Lemma strideOf_pos sz : 0 < strideOf sz.
Proof. unfold strideOf. cases; lia. Qed.

Lemma strideOf_le n : (0 < n)%nat → strideOf (Z.of_nat n) <= Z.of_nat n.
Proof.
  intros Hn. unfold strideOf, go_div, evictionSampleSize. case_match; bool_to_prop; [|lia].
  pose proof (Z.quot_pos (Z.of_nat n) 16 ltac:(lia) ltac:(lia)).
  rewrite Z.quot_div_nonneg in * by lia.
  assert (Z.of_nat n `div` 16 < Z.of_nat n) by (apply Z.div_lt; lia).
  set (q := Z.of_nat n `div` 16) in *. unfold wrap64 in *.
  pose proof (Z.mod_le (q + 2 ^ 63) (2 ^ 64)). lia.
Qed.

Lemma others_length newKey (m : gmap string (Item T)) off fb :
  m !! newKey = None → length (others newKey (order off fb m)) = size m.
Proof.
  intros Hm. unfold others. rewrite filter_all.
  - by rewrite order_perm, length_map_to_list.
  - intros [k it] Hin Heq. simpl in Heq. subst. rewrite order_perm in Hin.
    apply elem_of_map_to_list in Hin. congruence.
Qed.

Lemma order_Forall (P : string → Item T → Prop) m off fb :
  map_Forall P m → Forall (λ p, P p.1 p.2) (order off fb m).
Proof.
  intros Hm. rewrite order_perm, Forall_forall. intros [k it] Hin.
  by apply Hm, elem_of_map_to_list.
Qed.

(** A search for another key finds an entry; it is expired or, of the entries
    it sampled, the one created first. *)
Lemma find_some c newKey now :
  counted c → data c !! newKey = None → (0 < size (data c))%nat →
  ∃ k it, findSampledEvictionCandidate c newKey now =
            (Some k, withOffset c ((evictOffset c + 1) mod 2 ^ 64)) ∧
          k ≠ newKey ∧ data c !! k = Some it.
Proof.
  intros (Hsz & Hoff & Hall) Hnew Hpos. unfold findSampledEvictionCandidate. simpl.
  set (off := (evictOffset c + 1) mod 2 ^ 64). set (offset := off mod strideOf (size_ c)).
  set (l := order off false (data c)).
  set (sc := Range (sampledVisit newKey now offset (strideOf (size_ c))) l scan0).
  assert (scanned newKey now l sc) as [He Ho] by (apply sampled_scanned, scan0_scanned).
  assert (found sc) as Hf.
  { pose proof (strideOf_pos (size_ c)). pose proof (strideOf_le _ Hpos). rewrite <-Hsz in *.
    apply sampled_reaches; [done| |done|].
    - eapply Forall_impl; [by apply order_Forall|]. by intros [? ?] [_ ?].
    - unfold l. rewrite others_length, <-Hsz by done. simpl.
      pose proof (Z.mod_pos_bound off (strideOf (size_ c))). lia. }
  assert (∀ k P, candidate newKey l k P → k ≠ newKey ∧ ∃ it, data c !! k = Some it) as Hcand.
  { intros k P [? (it & Hin & _)]. split; [done|]. exists it. unfold l in Hin.
    rewrite order_perm in Hin. by apply elem_of_map_to_list. }
  destruct (expiredKey sc) as [k|] eqn:Ee.
  { destruct (Hcand _ _ (He k eq_refl)) as [? [it ?]]. eauto. }
  destruct (oldestKey sc) as [k|] eqn:Eo.
  { destruct (Hcand _ _ (Ho k eq_refl)) as [? [it ?]]. eauto. }
  destruct Hf as [[? ?]|[? ?]]; congruence.
Qed.

Lemma steady_tail clk : steady clk → steady (λ i, clk (S i)).
Proof. intros [H1 H2]. split; [intros; apply H1|]. intros. apply H2. lia. Qed.

(** The eviction loop makes room for one entry, within its fuel. *)
Lemma evictLoop_spec fuel c newKey clk :
  counted c → data c !! newKey = None → 0 < capacity c → (size (data c) < fuel)%nat →
  ∃ c' clk', evictLoop fuel c newKey clk = Some (c', clk') ∧ counted c' ∧
    capacity c' = capacity c ∧ data c' ⊆ data c ∧ Z.of_nat (size (data c')) < capacity c.
Proof.
  revert c clk. induction fuel as [|fuel IH]; intros c clk HC Hn Hcap Hfuel; [lia|].
  pose proof HC as (Hsz & Hoff & Hall). cbn [evictLoop]. destruct (_ <=? _) eqn:Efull; bool_to_prop.
  2:{ do 2 eexists; split_and!; try done. lia. }
  destruct (find_some c newKey (clk 0%nat) HC Hn) as (k & it & -> & Hk & Hkd); [lia|].
  simpl. rewrite Hkd.
  edestruct (IH (countEviction (removeKey (withOffset c ((evictOffset c + 1) mod 2 ^ 64)) k)))
    as (c' & clk' & -> & HC' & Hcap' & Hsub & Hlt); simpl in *.
  - split_and!; simpl.
    + rewrite map_size_delete_Some by eauto. pose proof (map_size_ne_0_lookup_2 (data c) k ltac:(eauto)). lia.
    + apply Z.mod_pos_bound. lia.
    + by apply map_Forall_delete.
  - by rewrite lookup_delete_ne.
  - done.
  - rewrite map_size_delete_Some by eauto. pose proof (map_size_ne_0_lookup_2 (data c) k ltac:(eauto)). lia.
  - do 2 eexists; split_and!; try done. etrans; [done|]. apply delete_subseteq.
Qed.

Lemma swap_counted c k it :
  counted c → 0 <= Expiration it → CreatedAt it < maxInt64 → counted (swap c k it).
Proof.
  intros (Hsz & Hoff & Hall) He Hc. split_and!; simpl; [|done|by apply map_Forall_insert_2].
  destruct (data c !! k) eqn:E; [rewrite map_size_insert_Some by eauto; lia|].
  rewrite map_size_insert_None by done. lia.
Qed.

Lemma store_spec c k it clk :
  sampledInv c → 0 <= Expiration it → CreatedAt it < maxInt64 →
  ∃ c', store c k it clk = Some c' ∧ sampledInv c' ∧ capacity c' = capacity c ∧
    data c' !! k = Some it ∧
    ∀ k', k' ≠ k → data c' !! k' = data c !! k' ∨ data c' !! k' = None.
Proof.
  intros [HC Hle] He Hc. unfold store. destruct (_ <? _) eqn:Ecap; bool_to_prop.
  - assert (∃ c1 clk1,
      (match data c !! k with None => evictIfNeeded c k clk | Some _ => Some (c, clk) end)
        = Some (c1, clk1) ∧ counted c1 ∧ capacity c1 = capacity c ∧ data c1 ⊆ data c ∧
      size_ (swap c1 k it) <= capacity c) as (c1 & clk1 & -> & HC1 & Hcap1 & Hsub & Hfit).
    { destruct (data c !! k) eqn:Ek.
      - do 2 eexists; split_and!; try done. destruct HC as (Hsz & _). simpl. rewrite Ek. lia.
      - unfold evictIfNeeded. destruct (_ <=? 0) eqn:E; bool_to_prop; [lia|].
        edestruct evictLoop_spec as (c1 & clk1 & E1 & HC1 & Hcap1 & Hsub & Hlt); [done|done|done| |].
        { apply Nat.lt_succ_diag_r. }
        do 2 eexists; split_and!; try done. simpl.
        rewrite (lookup_weaken_None _ _ _ Ek Hsub). destruct HC1 as (-> & _). lia. }
    simpl. pose proof (swap_counted c1 k it HC1 He Hc) as HC2.
    destruct (capacity c1 <? _) eqn:Ebig; bool_to_prop; [simpl in *; lia|].
    eexists; split_and!; [done| | |simpl; apply lookup_insert_eq|].
    + split; [done|]. destruct HC2 as (<- & _). simpl in *. lia.
    + done.
    + intros k' Hk'. simpl. rewrite lookup_insert_ne by done.
      destruct (data c1 !! k') eqn:E1; [left|by right].
      symmetry. by apply (lookup_weaken _ _ _ _ E1).
  - eexists; split_and!; [done| |done|simpl; apply lookup_insert_eq|].
    + split; [by apply swap_counted|]. simpl. lia.
    + intros k' Hk'. left. simpl. by rewrite lookup_insert_ne.
Qed.

Lemma removeKey_inv c k it : sampledInv c → data c !! k = Some it → sampledInv (removeKey c k).
Proof.
  intros [(Hsz & Hoff & Hall) Hle] Hk.
  pose proof (map_size_ne_0_lookup_2 (data c) k ltac:(eauto)) as Hne.
  split; [split_and!|]; simpl.
  - rewrite map_size_delete_Some by eauto. lia.
  - done.
  - by apply map_Forall_delete.
  - intros ?%Hle. rewrite map_size_delete_Some by eauto. lia.
Qed.

Lemma fresh_live c k it now :
  sampledInv c → data c !! k = Some it → fresh it now = negb (expired (Expiration it) now).
Proof.
  intros [(_ & _ & Hall) _] Hk. apply Hall in Hk as [Hk _]. unfold fresh, expired.
  destruct (_ =? 0) eqn:E1, (_ <? Expiration it) eqn:E2, (0 <? _) eqn:E3, (_ <=? _) eqn:E4;
    bool_to_prop; try done; lia.
Qed.

Lemma contents_lookup c k : contents c !! k = (λ it, (Value it, Expiration it)) <$> data c !! k.
Proof. apply lookup_fmap. Qed.

Lemma contents_remove c k : contents (removeKey c k) = delete k (contents c).
Proof. apply fmap_delete. Qed.
End invariant.

#[export] Program Instance sampled_contract {T} `{RangeOrder T} : CacheContract (sampledCache T) T := {|
  inv := sampledInv; view := contents;
  bound c := if 0 <? capacity c then Some (capacity c) else None;
|}.
Next Obligation.
  intros T ? c k clk HI [_ Hmono]. rewrite contents_lookup. unfold cget. simpl. unfold Get.
  destruct (data c !! k) as [it|] eqn:Ek; simpl; [|by eauto].
  rewrite (fresh_live _ _ _ _ HI Ek). destruct (expired _ (clk 0%nat)) eqn:Ex; simpl; [|by eauto].
  assert (expired (Expiration it) (clk 1%nat) = true) as ->.
  { unfold expired in *. bool_to_prop. pose proof (Hmono 0%nat 1%nat ltac:(lia)).
    apply andb_true_iff. split; [apply Z.ltb_lt|apply Z.leb_le]; lia. }
  eexists; split_and!; [done| |done|by rewrite <-contents_remove].
  by eapply removeKey_inv.
Qed.
Next Obligation.
  intros T ? c k v ttl clk HI [Hclk _] He. simpl. unfold Set_.
  destruct (store_spec c k (newItem v ttl (clk 0%nat)) (λ i, clk (S i)) HI He) as
    (c' & -> & HI' & Hcap & Hk & Hother); [apply Hclk|].
  eexists; split_and!; [done|done|by rewrite Hcap| |].
  - by rewrite contents_lookup, Hk.
  - intros k' Hk'. rewrite !contents_lookup. destruct (Hother k' Hk') as [->| ->]; auto.
Qed.
Next Obligation.
  intros T ? c k HI. simpl. unfold Delete. eexists; split_and!; [done| | |].
  - destruct (data c !! k) eqn:E; [by eapply removeKey_inv | done].
  - by destruct (data c !! k).
  - destruct (data c !! k) eqn:E; [apply contents_remove|].
    symmetry. apply delete_id. by rewrite contents_lookup, E.
Qed.
Next Obligation.
  intros T ? c [(Hsz & _) Hle]. simpl. unfold Len, contents. rewrite map_size_fmap.
  case_match; bool_to_prop; [lia|]. split; [done|]. intros n. case_match; [|done]. bool_to_prop.
  intros [= <-]. specialize (Hle ltac:(lia)). lia.
Qed.

Section theorems.
Context {T : Type} `{RangeOrder T}.
Implicit Types c : sampledCache T.

Lemma getOrFetchSampledLRU_spec c ctxErr k ttl fetched done clk1 clk2 :
  sampledInv c → steady clk2 → expiryOk [ttl] (clk2 0%nat) →
  ∃ r c', getOrFetchSampledLRU c ctxErr k ttl fetched Leader done clk1 clk2 = Some (r, c') ∧
    sampledInv c' ∧ capacity c' = capacity c ∧
    fetchSpec (contents c) (contents c') ctxErr k ttl fetched done (clk1 0%nat) (clk2 0%nat) r.
Proof.
  intros HI [Hclk _] Hexp. unfold getOrFetchSampledLRU, fetchSpec. rewrite contents_lookup.
  destruct ctxErr as [e|]; [by eauto 8|].
  assert (live (clk1 0%nat) ((λ it, (Value it, Expiration it)) <$> data c !! k) = None →
    ∃ r c', ('(res, c2) ← match fetched with
                  | inl v =>
                     c2 ← store (countMiss c) k (newItem v [ttl] (clk2 0%nat)) (λ i, clk2 (S i));
                     Some (inl v, c2)
                  | inr e => Some (inr e, countMiss c)
                  end;
            Some (match done with Some e => inr e | None => res end, c2)) = Some (r, c') ∧
    sampledInv c' ∧ capacity c' = capacity c ∧
    r = match done with Some e => inr e | None => fetched end ∧
    match fetched with
    | inl v => contents c' !! k = Some (v, expiry [ttl] (clk2 0%nat)) ∧
        ∀ k', k' ≠ k → contents c' !! k' = contents c !! k' ∨ contents c' !! k' = None
    | inr _ => live (clk1 0%nat) (contents c' !! k) = None ∧
        ∀ k', k' ≠ k → contents c' !! k' = contents c !! k'
    end) as Hfetch.
  { intros Hlive. destruct fetched as [v|e].
    - destruct (store_spec (countMiss c) k (newItem v [ttl] (clk2 0%nat)) (λ i, clk2 (S i)))
        as (c' & -> & HI' & Hcap & Hk & Hother); [done|done|apply Hclk|].
      simpl. do 2 eexists; split_and!; try done; [by rewrite contents_lookup, Hk|].
      intros k' Hk'. rewrite !contents_lookup. destruct (Hother k' Hk') as [->| ->]; auto.
    - simpl. do 2 eexists; split_and!; try done. by rewrite contents_lookup. }
  destruct (data c !! k) as [it|] eqn:Ek; simpl in *; [|by apply Hfetch].
  rewrite (fresh_live _ _ _ _ HI Ek). destruct (expired _ _); simpl; [by apply Hfetch|].
  by eauto 8.
Qed.

(** The sweep, entry by entry. *)
Lemma sweepEntry_inv now c p : sampledInv c → sampledInv (sweepEntry now c p).
Proof.
  intros HI. destruct p as [k v]. unfold sweepEntry. cases; try done.
  eapply (removeKey_inv c); eauto.
Qed.

Lemma sweep_fold now l c :
  Forall (λ p, data c !! p.1 = Some p.2) l → NoDup l.*1 → sampledInv c →
  let c' := foldl (sweepEntry now) c l in
  sampledInv c' ∧ capacity c' = capacity c ∧
  data c' = filter (λ p, p.1 ∉ (filter (λ q : string * Item T, expired (Expiration q.2) now = true) l).*1) (data c).
Proof.
  revert c. induction l as [|[k v] l IH]; intros c Hl Hnd HI; simpl.
  { split_and!; try done. symmetry. apply map_filter_id. set_solver. }
  apply Forall_cons in Hl as [Hk Hl]. apply NoDup_cons in Hnd as [Hkl Hnd]. simpl in *.
  rewrite Hk, filter_cons. simpl. destruct (expired (Expiration v) now) eqn:Ex.
  - rewrite decide_True by done.
    destruct (IH (countEviction (removeKey c k))) as (? & ? & Hd); [|done|by eapply (removeKey_inv c)|].
    { apply Forall_forall. intros [k' v'] Hin. simpl. rewrite lookup_delete_ne.
      - by rewrite Forall_forall in Hl; apply (Hl (k', v')).
      - intros ->. by apply (list_elem_of_fmap_2 fst) in Hin. }
    split_and!; try done. rewrite Hd. simpl. apply map_eq. intros k'.
    apply option_eq. intros v'. rewrite !map_lookup_filter_Some, lookup_delete_Some.
    csimpl. set_solver.
  - rewrite decide_False by done. by apply IH.
Qed.

(** One sweep removes exactly the expired entries. *)
Lemma sweep_spec c now :
  sampledInv c →
  sampledInv (sweep c now) ∧
  data (sweep c now) = filter (λ p, expired (Expiration p.2) now = false) (data c).
Proof.
  intros HI. destruct (sweep_fold now (order (evictOffset c) false (data c)) c) as (? & ? & Hd).
  - apply Forall_forall. intros [k it]. rewrite order_perm. apply elem_of_map_to_list.
  - rewrite order_perm. apply NoDup_fst_map_to_list.
  - done.
  - split; [done|]. unfold sweep. rewrite Hd. apply map_filter_ext. intros k it Hk. simpl.
    rewrite list_elem_of_fmap. split.
    + intros Hn. apply not_true_iff_false. intros Ex. apply Hn. exists (k, it).
      split; [done|]. apply list_elem_of_filter. split; [done|].
      rewrite order_perm. by apply elem_of_map_to_list.
    + intros Ex ([k' it'] & ? & [Ex' Hin]%list_elem_of_filter). simpl in *. subst k'.
      rewrite order_perm in Hin. apply elem_of_map_to_list in Hin. congruence.
Qed.

(** The victim of the sampled search. Whatever the iteration order of the
    map, when a cache with at most sixteen entries looks for room for a new
    key, the victim is an entry that is present and either has expired or was
    written no later than any other entry, and then no entry has expired. *)
Lemma sampled_victim c newKey now :
  counted c → data c !! newKey = None → (0 < size (data c) <= 16)%nat →
  ∃ k it, (findSampledEvictionCandidate c newKey now).1 = Some k ∧ data c !! k = Some it ∧
    (expired (Expiration it) now = true ∨
     map_Forall (λ _ it', CreatedAt it <= CreatedAt it' ∧ expired (Expiration it') now = false)
                (data c)).
Proof.
  intros HC Hnew Hsize. pose proof (find_some c newKey now HC Hnew ltac:(lia)) as Hfind.
  destruct HC as (Hsz & _ & Hall). unfold findSampledEvictionCandidate in *. simpl in *.
  assert (strideOf (size_ c) = 1) as Hst.
  { rewrite Hsz. unfold strideOf, go_div, evictionSampleSize.
    assert (Z.of_nat (size (data c)) `quot` 16 <= 1) by (rewrite Z.quot_div_nonneg by lia; apply Z.div_le_upper_bound; lia).
    assert (0 <= Z.of_nat (size (data c)) `quot` 16) by (apply Z.quot_pos; lia).
    set (q := _ `quot` 16) in *. rewrite wrap64_id by (unfold in_int64, minInt64, maxInt64; lia).
    destruct (1 <? q) eqn:E; bool_to_prop; lia. }
  rewrite Hst, Z.mod_1_r in *. set (l := order _ false (data c)) in *.
  pose proof (sampled_minimal newKey now l scan0 eq_refl ltac:(done)) as Hmin.
  pose proof (sampled_scanned newKey now 0 1 l scan0 (scan0_scanned _ _ _)) as [He Ho].
  set (sc := Range _ l scan0) in *. simpl in Hmin. unfold l in Hmin at 1.
  rewrite others_length in Hmin by done.
  assert (∀ k it, (k, it) ∈ l ↔ data c !! k = Some it) as Hl.
  { intros k it. unfold l. rewrite order_perm. apply elem_of_map_to_list. }
  destruct (expiredKey sc) as [k|] eqn:Ee; simpl in *.
  - destruct (He k eq_refl) as (_ & it & Hin%Hl & Hex). exists k, it. by auto.
  - destruct Hmin as [_ Hmin]; [unfold evictionSampleSize; lia|done|].
    destruct (oldestKey sc) as [k|] eqn:Eo; simpl in *.
    + destruct (Ho k eq_refl) as (_ & it & Hin%Hl & Hc). exists k, it. split_and!; try done.
      right. intros k' it' Hk'. rewrite Hc. rewrite Forall_forall in Hmin.
      apply (Hmin (k', it')); [by apply Hl|]. simpl. congruence.
    + exfalso. destruct (sampled_reaches newKey now 0 1 l scan0) as [[x Hx]|[x Hx]]; try done.
      * eapply Forall_impl; [by apply order_Forall|]. by intros [? ?] [_ ?].
      * unfold l. rewrite others_length by done. simpl. lia.
      * fold sc in Hx. congruence.
      * fold sc in Hx. congruence.
Qed.
End theorems.

(** One iteration order: that of the map itself. *)
Program Definition mapOrder (T : Type) : RangeOrder T := {| order _ _ m := map_to_list m |}.
Next Obligation. done. Qed.

Definition twoItems : sampledCache Z :=
  Sampled 2 (<["a" := mkItem 1 0 10]> (<["b" := mkItem 2 0 20]> ∅)) 2 0 noMetrics.

Lemma sampled_victim_witness :
  ∃ k it, (@findSampledEvictionCandidate Z (mapOrder Z) twoItems "c" unixEpoch).1 = Some k ∧
    data twoItems !! k = Some it ∧
    (expired (Expiration it) unixEpoch = true ∨
     map_Forall (λ _ it', CreatedAt it <= CreatedAt it' ∧ expired (Expiration it') unixEpoch = false)
                (data twoItems)).
Proof.
  apply (@sampled_victim Z (mapOrder Z) twoItems "c" unixEpoch).
  - split_and!; [reflexivity | vm_compute; discriminate|].
    repeat apply map_Forall_insert_2; try apply map_Forall_empty; vm_compute; split; congruence.
  - reflexivity.
  - vm_compute. lia.
Defined.
