(* ===== verification/TypedCache.v ===== *)
(** [TypedCache] (cache/cache.go): construction from options, lazy
    initialisation, dispatch on the eviction policy, the background sweeper and
    [Close]. The theorems are proved against the backend contract. *)
From S2P Require Import Prelude CacheIface Lru Fifo Lfu Sampled.

Inductive EvictionPolicy := EvictionSampledLRU | EvictionLRU | EvictionLFU | EvictionFIFO.

Definition DefaultCapacity : Z := 0.

(** [TypedCache[T]]: the three list backends are pointers that may be nil;
    [sampled] holds the fields the default policy uses, [capacity] among them.
    [stopEvict] is the sweeper's channel: nil, open ([Some true]) or closed. *)
Record TypedCache (T : Type) := Typed {
  policy : EvictionPolicy;
  sampled : sampledCache T;
  lru : option (lruBackend T);
  lfu : option (lfuBackend T);
  fifo : option (fifoBackend T);
  inited : bool;
  evictInterval : Duration;
  stopEvict : option bool;
  closedOnce : bool;
}.
Arguments Typed {T} _ _ _ _ _ _ _ _ _.
Arguments policy {T} _.
Arguments sampled {T} _.
Arguments lru {T} _.
Arguments lfu {T} _.
Arguments fifo {T} _.
Arguments inited {T} _.
Arguments evictInterval {T} _.
Arguments stopEvict {T} _.
Arguments closedOnce {T} _.

(** The options that change the state; [WithClock] and [WithMetrics] choose
    the clock and the collectors, whose readings and counts are explicit. *)
Inductive Option_ :=
| WithEvictionPolicy (p : EvictionPolicy)
| WithEvictionInterval (d : Duration)
| WithCapacity (maxEntries : Z).

Section operations.
Context {T : Type} `{RangeOrder T}.
Implicit Types c : TypedCache T.

Definition withSampled c s : TypedCache T :=
  Typed (policy c) s (lru c) (lfu c) (fifo c) (inited c) (evictInterval c) (stopEvict c) (closedOnce c).
Definition withLru c b : TypedCache T :=
  Typed (policy c) (sampled c) (Some b) (lfu c) (fifo c) (inited c) (evictInterval c) (stopEvict c) (closedOnce c).
Definition withLfu c b : TypedCache T :=
  Typed (policy c) (sampled c) (lru c) (Some b) (fifo c) (inited c) (evictInterval c) (stopEvict c) (closedOnce c).
Definition withFifo c b : TypedCache T :=
  Typed (policy c) (sampled c) (lru c) (lfu c) (Some b) (inited c) (evictInterval c) (stopEvict c) (closedOnce c).

Definition applyOption c (o : Option_) : TypedCache T :=
  match o with
  | WithEvictionPolicy p =>
      Typed p (sampled c) (lru c) (lfu c) (fifo c) (inited c) (evictInterval c) (stopEvict c) (closedOnce c)
  | WithEvictionInterval d =>
      Typed (policy c) (sampled c) (lru c) (lfu c) (fifo c) (inited c) d (stopEvict c) (closedOnce c)
  | WithCapacity n => withSampled c (Sampled n ∅ 0 0 noMetrics)
  end.

Definition capVal c : Z :=
  if Sampled.capacity (sampled c) <=? 0 then 128 else Sampled.capacity (sampled c).

(** The zero value, with the defaults [NewTypedCache] starts from. *)
Definition zeroCache : TypedCache T :=
  Typed EvictionSampledLRU (Sampled DefaultCapacity ∅ 0 0 noMetrics) None None None false 0 None false.

Definition startSweeper c : TypedCache T :=
  if 0 <? evictInterval c
  then Typed (policy c) (sampled c) (lru c) (lfu c) (fifo c) (inited c) (evictInterval c) (Some true) (closedOnce c)
  else c.

Definition NewTypedCache (opts : list Option_) : TypedCache T :=
  let c := foldl applyOption zeroCache opts in
  startSweeper
    match policy c with
    | EvictionLRU => withLru c (newLRUBackend (capVal c))
    | EvictionLFU => withLfu c (newLFUBackend (capVal c))
    | EvictionFIFO => withFifo c (newFIFOBackend (capVal c))
    | EvictionSampledLRU => c
    end.

(** [ensureInit]: once, the backend of the policy when it is still nil. *)
Definition ensureInit c : TypedCache T :=
  if inited c then c
  else
    let c1 := match policy c, lru c, lfu c, fifo c with
              | EvictionLRU, None, _, _ => withLru c (newLRUBackend (capVal c))
              | EvictionLFU, _, None, _ => withLfu c (newLFUBackend (capVal c))
              | EvictionFIFO, _, _, None => withFifo c (newFIFOBackend (capVal c))
              | _, _, _, _ => c
              end in
    Typed (policy c1) (sampled c1) (lru c1) (lfu c1) (fifo c1) true (evictInterval c1) (stopEvict c1) (closedOnce c1).

Definition Get c0 (k : string) (clk : readings) : option (option T * TypedCache T) :=
  let c := ensureInit c0 in
  match policy c with
  | EvictionLRU => b ← lru c; '(r, b') ← cget b k clk; Some (r, withLru c b')
  | EvictionLFU => b ← lfu c; '(r, b') ← cget b k clk; Some (r, withLfu c b')
  | EvictionFIFO => b ← fifo c; '(r, b') ← cget b k clk; Some (r, withFifo c b')
  | EvictionSampledLRU => '(r, b') ← cget (sampled c) k clk; Some (r, withSampled c b')
  end.

Definition Set_ c0 (k : string) (v : T) (ttl : list Duration) (clk : readings) : option (TypedCache T) :=
  let c := ensureInit c0 in
  match policy c with
  | EvictionLRU => b ← lru c; b' ← cset b k v ttl clk; Some (withLru c b')
  | EvictionLFU => b ← lfu c; b' ← cset b k v ttl clk; Some (withLfu c b')
  | EvictionFIFO => b ← fifo c; b' ← cset b k v ttl clk; Some (withFifo c b')
  | EvictionSampledLRU => b' ← cset (sampled c) k v ttl clk; Some (withSampled c b')
  end.

Definition Delete c0 (k : string) : option (TypedCache T) :=
  let c := ensureInit c0 in
  match policy c with
  | EvictionLRU => b ← lru c; b' ← cdelete b k; Some (withLru c b')
  | EvictionLFU => b ← lfu c; b' ← cdelete b k; Some (withLfu c b')
  | EvictionFIFO => b ← fifo c; b' ← cdelete b k; Some (withFifo c b')
  | EvictionSampledLRU => b' ← cdelete (sampled c) k; Some (withSampled c b')
  end.

(** [Len]; a nil backend, which [Len] would dereference, is -1 here. *)
Definition Len c0 : Z :=
  let c := ensureInit c0 in
  match policy c with
  | EvictionLRU => from_option clen (-1) (lru c)
  | EvictionLFU => from_option clen (-1) (lfu c)
  | EvictionFIFO => from_option clen (-1) (fifo c)
  | EvictionSampledLRU => clen (sampled c)
  end.

Definition GetOrFetch c0 (ctxErr : option error) (k : string) (ttl : Duration)
    (fetched : T + error) (fl : flight T) (done : option error) (clk1 clk2 : readings)
    : option ((T + error) * TypedCache T) :=
  let c := ensureInit c0 in
  match policy c with
  | EvictionLRU => b ← lru c;
      '(r, b') ← Lru.GetOrFetch b ctxErr k ttl fetched fl done clk1 clk2; Some (r, withLru c b')
  | EvictionLFU => b ← lfu c;
      '(r, b') ← Lfu.GetOrFetch b ctxErr k ttl fetched fl done clk1 clk2; Some (r, withLfu c b')
  | EvictionFIFO => b ← fifo c;
      '(r, b') ← Fifo.GetOrFetch b ctxErr k ttl fetched fl done clk1 clk2; Some (r, withFifo c b')
  | EvictionSampledLRU =>
      '(r, b') ← getOrFetchSampledLRU (sampled c) ctxErr k ttl fetched fl done clk1 clk2;
      Some (r, withSampled c b')
  end.

(** A tick of the sweeper goroutine, which ends when [stopEvict] is closed. *)
Definition sweeperTick c (now : Time) : TypedCache T :=
  match stopEvict c with
  | Some true => withSampled c (sweep (sampled c) now)
  | _ => c
  end.

(** [Close]: once; closes the sweeper's channel. The backends' [Close] are empty. *)
Definition Close c : TypedCache T :=
  if closedOnce c then c
  else Typed (policy c) (sampled c) (lru c) (lfu c) (fifo c) (inited c) (evictInterval c)
             (match stopEvict c with Some _ => Some false | None => None end) true.

(** The stored entries and the capacity of the policy in force. *)
Definition contents c0 : gmap string (T * Z) :=
  let c := ensureInit c0 in
  match policy c with
  | EvictionLRU => from_option view ∅ (lru c)
  | EvictionLFU => from_option view ∅ (lfu c)
  | EvictionFIFO => from_option view ∅ (fifo c)
  | EvictionSampledLRU => view (sampled c)
  end.

Definition limit c0 : option Z :=
  let c := ensureInit c0 in
  match policy c with
  | EvictionLRU => b ← lru c; bound b
  | EvictionLFU => b ← lfu c; bound b
  | EvictionFIFO => b ← fifo c; bound b
  | EvictionSampledLRU => bound (sampled c)
  end.

Definition typedInv c0 : Prop :=
  let c := ensureInit c0 in
  match policy c with
  | EvictionLRU => ∃ b, lru c = Some b ∧ inv b
  | EvictionLFU => ∃ b, lfu c = Some b ∧ inv b
  | EvictionFIFO => ∃ b, fifo c = Some b ∧ inv b
  | EvictionSampledLRU => inv (sampled c)
  end.
End operations.

#[export] Instance typed_backend {T} `{RangeOrder T} : CacheBackend (TypedCache T) T := {|
  cget := Get; cset := Set_; cdelete := Delete; clen := Len;
|}.

(** ** The contract, from those of the backends *)

Section dispatch.
Context {T : Type} `{RangeOrder T}.
Implicit Types c : TypedCache T.

Lemma ensureInit_inited c : inited (ensureInit c) = true.
Proof. unfold ensureInit. by destruct (inited c) eqn:E. Qed.

Lemma ensureInit_id c : inited c = true → ensureInit c = c.
Proof. unfold ensureInit. by intros ->. Qed.

(** [put b] is the cache with backend state [b] for the policy in force. *)
Definition active {B} `{CacheContract B T} (put : B → TypedCache T) : Prop :=
  ∀ b, (inv b → typedInv (put b)) ∧ contents (put b) = view b ∧ limit (put b) = bound b.

Lemma active_sampled c : policy (ensureInit c) = EvictionSampledLRU → active (withSampled (ensureInit c)).
Proof.
  intros Ep b. unfold typedInv, contents, limit.
  rewrite ensureInit_id by apply ensureInit_inited. simpl. by rewrite Ep.
Qed.

Lemma active_lru c : policy (ensureInit c) = EvictionLRU → active (withLru (ensureInit c)).
Proof.
  intros Ep b. unfold typedInv, contents, limit.
  rewrite ensureInit_id by apply ensureInit_inited. simpl. rewrite Ep. eauto.
Qed.

Lemma active_lfu c : policy (ensureInit c) = EvictionLFU → active (withLfu (ensureInit c)).
Proof.
  intros Ep b. unfold typedInv, contents, limit.
  rewrite ensureInit_id by apply ensureInit_inited. simpl. rewrite Ep. eauto.
Qed.

Lemma active_fifo c : policy (ensureInit c) = EvictionFIFO → active (withFifo (ensureInit c)).
Proof.
  intros Ep b. unfold typedInv, contents, limit.
  rewrite ensureInit_id by apply ensureInit_inited. simpl. rewrite Ep. eauto.
Qed.
End dispatch.

#[export] Hint Resolve active_sampled active_lru active_lfu active_fifo : golibs.

(** The contract of one dispatched call, whichever backend is active. *)
Section calls.
Context {T : Type} `{RangeOrder T} {B : Type} `{CacheContract B T}.
Context (put : B → TypedCache T) (Hput : active put).
Implicit Types b : B.

Lemma dispatch_get b k clk :
  inv b → steady clk →
  ∃ c', ('(r, b') ← cget b k clk; Some (r, put b')) = Some (live (clk 0%nat) (view b !! k), c') ∧
    typedInv c' ∧ limit c' = bound b ∧
    contents c' = match view b !! k with
                  | Some (_, e) => if expired e (clk 0%nat) then delete k (view b) else view b
                  | None => view b
                  end.
Proof using Hput.
  intros HI Hc. destruct (contract_get b k clk HI Hc) as (b' & -> & HI' & Hbd & Hv). simpl.
  destruct (Hput b') as (Hi & Hcon & Hlim). eexists; split; [done|].
  rewrite Hcon, Hlim, Hv, Hbd. auto.
Qed.

Lemma dispatch_set b k v ttl clk :
  inv b → steady clk → expiryOk ttl (clk 0%nat) →
  ∃ c', (b' ← cset b k v ttl clk; Some (put b')) = Some c' ∧ typedInv c' ∧ limit c' = bound b ∧
    contents c' !! k = Some (v, expiry ttl (clk 0%nat)) ∧
    ∀ k', k' ≠ k → contents c' !! k' = view b !! k' ∨ contents c' !! k' = None.
Proof using Hput.
  intros HI Hc He. destruct (contract_set b k v ttl clk HI Hc He) as (b' & -> & HI' & Hbd & Hv & Ho).
  simpl. destruct (Hput b') as (Hi & Hcon & Hlim). eexists; split; [done|].
  rewrite Hcon, Hlim, Hbd. auto.
Qed.

Lemma dispatch_delete b k :
  inv b →
  ∃ c', (b' ← cdelete b k; Some (put b')) = Some c' ∧ typedInv c' ∧ limit c' = bound b ∧
    contents c' = delete k (view b).
Proof using Hput.
  intros HI. destruct (contract_delete b k HI) as (b' & -> & HI' & Hbd & Hv). simpl.
  destruct (Hput b') as (Hi & Hcon & Hlim). eexists; split; [done|].
  rewrite Hcon, Hlim, Hbd, Hv. auto.
Qed.

Lemma dispatch_fetch b ctxErr k ttl fetched done clk1 clk2 :
  inv b → steady clk1 → steady clk2 → expiryOk [ttl] (clk2 0%nat) →
  ∃ r c', ('(r, b') ← getOrFetch b ctxErr k ttl fetched Leader done clk1 clk2;
           Some (r, put b')) = Some (r, c') ∧ typedInv c' ∧ limit c' = bound b ∧
    fetchSpec (view b) (contents c') ctxErr k ttl fetched done (clk1 0%nat) (clk2 0%nat) r.
Proof using Hput.
  intros HI H1' H2' He.
  destruct (getOrFetch_contract b ctxErr k ttl fetched done clk1 clk2 HI H1' H2' He)
    as (r & b' & -> & HI' & Hbd & Hs). simpl.
  destruct (Hput b') as (Hi & Hcon & Hlim). do 2 eexists; split; [done|].
  rewrite Hcon, Hlim, Hbd. auto.
Qed.
End calls.

(** The active backend of a cache that satisfies the invariant. *)
Section opening.
Context {T : Type} `{RangeOrder T}.

Definition opened {B} `{CacheContract B T} (c : TypedCache T) (b : B) : Prop :=
  inv b ∧ contents c = view b ∧ limit c = bound b.

Lemma typedInv_open (c : TypedCache T) :
  typedInv c →
  match policy (ensureInit c) with
  | EvictionSampledLRU => opened c (sampled (ensureInit c))
  | EvictionLRU => ∃ b, lru (ensureInit c) = Some b ∧ opened c b
  | EvictionLFU => ∃ b, lfu (ensureInit c) = Some b ∧ opened c b
  | EvictionFIFO => ∃ b, fifo (ensureInit c) = Some b ∧ opened c b
  end.
Proof.
  unfold typedInv, opened, contents, limit. destruct (policy (ensureInit c)); [done| | |];
    intros (b & -> & HI); by exists b.
Qed.
End opening.

(** Replaces the cache [c] by its active backend, case by case. *)
Ltac dispatch c HI :=
  apply typedInv_open in HI; destruct (policy (ensureInit c)) eqn:?Ep;
  [destruct HI as (HI & -> & ->) | destruct HI as (?b & -> & HI & -> & ->) ..];
  cbn [mbind option_bind from_option].

#[export] Program Instance typed_contract {T} `{RangeOrder T} : CacheContract (TypedCache T) T := {|
  inv := typedInv; view := contents; bound := limit;
|}.
Next Obligation.
  intros T ? c k clk HI Hc. change (cget c k clk) with (Get c k clk). unfold Get.
  dispatch c HI; apply dispatch_get; eauto with golibs.
Qed.
Next Obligation.
  intros T ? c k v ttl clk HI Hc He. change (cset c k v ttl clk) with (Set_ c k v ttl clk).
  unfold Set_. dispatch c HI; apply dispatch_set; eauto with golibs.
Qed.
Next Obligation.
  intros T ? c k HI. change (cdelete c k) with (Delete c k). unfold Delete.
  dispatch c HI; apply dispatch_delete; eauto with golibs.
Qed.
Next Obligation.
  intros T ? c HI. change (clen c) with (Len c). unfold Len.
  dispatch c HI; by apply contract_len.
Qed.

(** ** Construction *)

Section construction.
Context {T : Type} `{RangeOrder T}.

(** What the options leave behind: an empty cache without backends. *)
Definition pristine (c : TypedCache T) : Prop :=
  (∃ cap, sampled c = Sampled cap ∅ 0 0 noMetrics) ∧ inited c = false ∧
  lru c = None ∧ lfu c = None ∧ fifo c = None.

Lemma applyOption_pristine opts c : pristine c → pristine (foldl applyOption c opts).
Proof.
  revert c. induction opts as [|o opts IH]; intros c Hc; [done|]. apply IH.
  destruct Hc as ([cap Hs] & Hi & Hl). destruct o; split; simpl; eauto.
Qed.

Lemma sampled_new_inv cap : sampledInv (Sampled cap ∅ 0 0 noMetrics : sampledCache T).
Proof. split; [split_and!; try done; apply map_Forall_empty|]. simpl. rewrite map_size_empty. lia. Qed.

Lemma lru_new_inv cap : inv (newLRUBackend cap : lruBackend T) ∧ view (newLRUBackend cap : lruBackend T) = ∅.
Proof. split; [|done]. eapply refines_inv, Lru.refines_new. Qed.

Lemma lfu_new_inv cap : inv (newLFUBackend cap : lfuBackend T) ∧ view (newLFUBackend cap : lfuBackend T) = ∅.
Proof. split; [|done]. eapply lfu_inv, lfu_refines_new. Qed.

Lemma fifo_new_inv cap : inv (newFIFOBackend cap : fifoBackend T) ∧ view (newFIFOBackend cap : fifoBackend T) = ∅.
Proof. split; [|done]. eapply fifo_refines_inv, fifo_refines_new. Qed.

(** The capacity the options configure, and the limit the policy makes of it:
    SampledLRU is unbounded by default, the others hold 128 entries. *)
Definition configured (opts : list Option_) : Z :=
  Sampled.capacity (sampled (foldl applyOption zeroCache opts : TypedCache T)).
Definition configuredPolicy (opts : list Option_) : EvictionPolicy :=
  policy (foldl applyOption zeroCache opts : TypedCache T).

Definition limitOf (p : EvictionPolicy) (cap : Z) : option Z :=
  if 0 <? cap then Some cap
  else match p with EvictionSampledLRU => None | _ => Some 128 end.

Lemma typed_new opts :
  let c := NewTypedCache opts in
  typedInv c ∧ contents c = ∅ ∧ limit c = limitOf (configuredPolicy opts) (configured opts).
Proof.
  assert (pristine (foldl applyOption zeroCache opts)) as Hp.
  { apply applyOption_pristine. by split; eauto. }
  unfold NewTypedCache, configured, configuredPolicy. set (c := foldl _ _ _) in *. clearbody c.
  destruct c as [p s l f o i e st cl]. destruct Hp as ([cap Hs] & Hi & Hl & Hf & Ho). simpl in *. subst.
  destruct (lru_new_inv (if cap <=? 0 then 128 else cap)).
  destruct (lfu_new_inv (if cap <=? 0 then 128 else cap)).
  destruct (fifo_new_inv (if cap <=? 0 then 128 else cap)).
  unfold startSweeper, limitOf, typedInv, contents, limit.
  destruct p; simpl; destruct (0 <? e); unfold ensureInit, capVal; simpl; split_and!; eauto using sampled_new_inv.
  all: destruct (cap <=? 0) eqn:E1, (0 <? cap) eqn:E2; bool_to_prop; try lia; try done.
  all: unfold newLRUBackend, newLFUBackend, newFIFOBackend, Linked.newBackend; simpl; by rewrite (proj2 (Z.leb_gt _ _)).
Qed.
End construction.

(** ** Properties *)

Section properties.
Context {T : Type} `{RangeOrder T}.
Implicit Types c : TypedCache T.

(** Under SampledLRU an expiration beyond 2262 wraps to a negative number: the
    entry is stored, and no lookup returns it. *)
Lemma overflow_missed opts k v d clk clk' :
  configuredPolicy (T := T) opts = EvictionSampledLRU → steady clk' → expiry [d] (clk 0%nat) < 0 →
  ∃ c, run (NewTypedCache opts) [OpSet k v [d] clk; OpGet k clk'] = Some ([RDone; RGet None], c) ∧
    contents c !! k = Some (v, expiry [d] (clk 0%nat)).
Proof.
  intros Hp Hs He. assert (pristine (T := T) (foldl applyOption zeroCache opts)) as Hpr.
  { apply applyOption_pristine. by split; eauto. }
  unfold configuredPolicy in Hp. unfold NewTypedCache. set (c := foldl _ _ _) in *. clearbody c.
  destruct c as [p s l f o i e st cl]. destruct Hpr as ([cap Hsm] & Hi & Hl & Hf & Ho). simpl in *. subst.
  assert (∃ b, store (Sampled cap ∅ 0 0 noMetrics) k (newItem v [d] (clk 0%nat)) (λ i, clk (S i)) = Some b ∧
    data b = {[k := newItem v [d] (clk 0%nat)]}) as (b & Hst & Hd).
  { unfold store, evictIfNeeded. simpl. rewrite lookup_empty.
    destruct (0 <? cap) eqn:E; [|by eexists]. bool_to_prop. rewrite (proj2 (Z.leb_gt _ _)) by lia.
    simpl. rewrite lookup_empty, (proj2 (Z.ltb_ge _ _)) by lia. by eexists. }
  assert (Sampled.Get b k clk' = (None, countMiss b)) as Hg.
  { unfold Sampled.Get. rewrite Hd, lookup_singleton_eq. destruct Hs as [Hr _]. pose proof (Hr 0%nat).
    unfold fresh, expired. simpl. rewrite (proj2 (Z.eqb_neq _ _)), !(proj2 (Z.ltb_ge _ _)) by (simpl in *; lia). done. }
  unfold startSweeper. simpl. destruct (0 <? e); unfold Set_, TypedCache.Get; simpl; unfold Sampled.Set_; rewrite Hst; simpl;
    rewrite Hg; simpl; eexists; (split; [done|]); unfold contents; simpl; unfold Sampled.contents; simpl;
    by rewrite Hd, map_fmap_singleton, lookup_singleton_eq.
Qed.

(** C3: for every combination of options, so for all four policies, and every
    history of calls in which the clock readings of a call lie between 1970 and
    2262 and do not go back, and every time to live ends before 2262, the cache
    is a map that may forget: no call fails, [Get] returns exactly the live value
    last written and not evicted, [Set] stores its value and alters no other,
    [Delete] removes only its key and [Len] counts within the limit: the
    configured one when it is positive, otherwise none under SampledLRU and 128
    entries under LRU, LFU and FIFO. A time to live that ends after 2262
    overflows: under SampledLRU the value is then stored and never returned. *)
Theorem typed_history opts (os : list (op T)) :
  Forall opOk os →
  (∃ rs c, run (NewTypedCache opts) os = Some (rs, c) ∧
    lossyRun (limitOf (configuredPolicy (T := T) opts) (configured (T := T) opts)) ∅ os rs (contents c)) ∧
  (configuredPolicy (T := T) opts = EvictionSampledLRU →
   ∀ k v d clk clk', steady clk' → expiry [d] (clk 0%nat) < 0 →
   ∃ c, run (NewTypedCache opts) [OpSet k v [d] clk; OpGet k clk'] = Some ([RDone; RGet None], c) ∧
     contents c !! k = Some (v, expiry [d] (clk 0%nat))).
Proof.
  intros Hos. split; [|intros; by apply overflow_missed]. destruct (typed_new (T := T) opts) as (HI & Hc & Hl).
  destruct (@contract_run _ _ typed_backend typed_contract os (NewTypedCache opts) HI Hos) as (rs & c & E & _ & _ & Hr).
  exists rs, c. split; [done|]. simpl in Hr. by rewrite <-Hl, <-Hc.
Qed.

Lemma GetOrFetch_spec c ctxErr k ttl fetched done clk1 clk2 :
  typedInv c → steady clk1 → steady clk2 → expiryOk [ttl] (clk2 0%nat) →
  ∃ r c', GetOrFetch c ctxErr k ttl fetched Leader done clk1 clk2 = Some (r, c') ∧
    typedInv c' ∧ limit c' = limit c ∧
    fetchSpec (contents c) (contents c') ctxErr k ttl fetched done (clk1 0%nat) (clk2 0%nat) r.
Proof.
  intros HI H1 H2 He. unfold GetOrFetch, Lru.GetOrFetch, Lfu.GetOrFetch, Fifo.GetOrFetch. dispatch c HI.
  2-4: apply dispatch_fetch; eauto with golibs.
  destruct (getOrFetchSampledLRU_spec (sampled (ensureInit c)) ctxErr k ttl fetched done clk1 clk2)
    as (r & s' & -> & HI' & Hcap & Hs); [done..|]. simpl.
  destruct (active_sampled c Ep s') as (Hi & Hcon & Hlim). do 2 eexists; split; [done|].
  rewrite Hcon, Hlim. simpl. rewrite Hcap. auto.
Qed.

(** [GetOrFetch], for the caller that leads the flight and under every
    policy. A context that is already cancelled returns its error and changes
    nothing; a live entry is returned without fetching and without changing the
    stored entries; otherwise the value of a successful fetch is stored under
    the key with its time to live and returned (unless the caller gave up
    waiting), and a failed fetch is returned and stores nothing. *)
Lemma typed_GetOrFetch c ctxErr k ttl fetched done clk1 clk2 :
  typedInv c → steady clk1 → steady clk2 → expiryOk [ttl] (clk2 0%nat) →
  ∃ r c', GetOrFetch c ctxErr k ttl fetched Leader done clk1 clk2 = Some (r, c') ∧
    typedInv c' ∧ limit c' = limit c ∧
    fetchSpec (contents c) (contents c') ctxErr k ttl fetched done (clk1 0%nat) (clk2 0%nat) r.
Proof. apply GetOrFetch_spec. Qed.

(** The background sweeper. Under SampledLRU a tick removes exactly the
    expired entries; under the LRU, LFU and FIFO policies it removes nothing;
    after [Close] it does nothing. *)
Lemma sweeper_tick c now :
  typedInv c → inited c = true →
  let c' := sweeperTick c now in
  typedInv c' ∧
  contents c' =
    match stopEvict c, policy c with
    | Some true, EvictionSampledLRU => filter (λ p, expired p.2.2 now = false) (contents c)
    | _, _ => contents c
    end ∧
  (closedOnce c = false → sweeperTick (Close c) now = Close c).
Proof.
  intros HI Hin c'.
  assert (closedOnce c = false → sweeperTick (Close c) now = Close c) as Hclose.
  { unfold Close, sweeperTick. intros ->. simpl. by destruct (stopEvict c). }
  split_and!; [| |done]; clear Hclose; subst c'; unfold sweeperTick, typedInv, contents in *.
  - destruct (stopEvict c) as [[]|]; [|done..]. rewrite ensureInit_id in * by done. simpl.
    destruct (policy c); [|done..]. by apply sweep_spec.
  - destruct (stopEvict c) as [[]|]; [|done..]. rewrite !ensureInit_id in * by done. simpl.
    destruct (policy c); [|done..]. unfold Sampled.contents. simpl.
    rewrite map_filter_fmap. by f_equal; apply sweep_spec.
Qed.
End properties.

(** ** Witnesses *)

(** The year 2024, one second per reading. *)
Definition clk2024 : readings := λ i, unixEpoch + 1704067200 * Second + Z.of_nat (Nat.min i 1000) * Second.

Lemma clk2024_steady : steady clk2024.
Proof.
  assert (∀ i, UnixNano (clk2024 i) = 1704067200 * Second + Z.of_nat (Nat.min i 1000) * Second) as E.
  { intros i. unfold UnixNano, clk2024. rewrite wrap64_id; [lia|].
    unfold in_int64, minInt64, maxInt64, Second, unixEpoch. lia. }
  split; intros; rewrite !E; unfold Second, maxInt64; lia.
Qed.

Definition sampleOps : list (op Z) :=
  [OpSet "a" 1 [] clk2024; OpSet "b" 2 [5 * Second] clk2024; OpGet "a" clk2024; OpLen].

Lemma typed_history_witness :
  ∃ rs c, @run _ _ (@typed_backend Z (mapOrder Z)) (@NewTypedCache Z [WithCapacity 1]) sampleOps = Some (rs, c) ∧
    lossyRun (Some 1) ∅ sampleOps rs (@contents Z (mapOrder Z) c).
Proof.
  apply (proj1 (@typed_history Z (mapOrder Z) [WithCapacity 1] sampleOps ltac:(
  repeat constructor; try apply clk2024_steady; vm_compute; discriminate))).
Defined.

Lemma typed_GetOrFetch_witness :
  ∃ r c', @GetOrFetch Z (mapOrder Z) (@NewTypedCache Z [WithEvictionPolicy EvictionLFU]) None "k" Second
            (inl 7) Leader None clk2024 clk2024 = Some (r, c') ∧
    @typedInv Z (mapOrder Z) c' ∧
    @limit Z (mapOrder Z) c' = @limit Z (mapOrder Z) (@NewTypedCache Z [WithEvictionPolicy EvictionLFU]) ∧
    fetchSpec (@contents Z (mapOrder Z) (@NewTypedCache Z [WithEvictionPolicy EvictionLFU]))
      (@contents Z (mapOrder Z) c') None "k" Second (inl 7) None
      (clk2024 0%nat) (clk2024 0%nat) r.
Proof.
  apply (@typed_GetOrFetch Z (mapOrder Z)).
  - apply (@typed_new Z (mapOrder Z)).
  - apply clk2024_steady.
  - apply clk2024_steady.
  - vm_compute. discriminate.
Defined.

Definition sweptCache : TypedCache Z :=
  ensureInit (@NewTypedCache Z [WithEvictionInterval Second]).

Lemma sweeper_tick_witness :
  let c' := @sweeperTick Z (mapOrder Z) sweptCache (clk2024 0%nat) in
  @typedInv Z (mapOrder Z) c' ∧
  @contents Z (mapOrder Z) c' =
    filter (λ p : string * (Z * Z), expired p.2.2 (clk2024 0%nat) = false) (@contents Z (mapOrder Z) sweptCache) ∧
  (closedOnce sweptCache = false →
   @sweeperTick Z (mapOrder Z) (Close sweptCache) (clk2024 0%nat) = Close sweptCache).
Proof.
  apply (@sweeper_tick Z (mapOrder Z) sweptCache (clk2024 0%nat)); [|reflexivity].
  apply (@typed_new Z (mapOrder Z) [WithEvictionInterval Second]).
Defined.
