(* ===== verification/CacheThreads.v ===== *)
(** The SampledLRU policy of cache/cache.go under concurrency: the goroutines
    that call [Set], [Get], [Delete], [Len] and [GetOrFetch], the functions
    singleflight runs for them and the sweeper of [startEviction]. A step of a
    goroutine is one operation on shared state: a [Load], [Swap],
    [LoadAndDelete] or one visit of a [Range] of the [sync.Map], one operation
    on an atomic counter, a [Lock] or [Unlock] of a stripe, a clock reading, a
    channel operation. (The increments of the metrics, which the code never
    reads back, ride on a neighbouring step.) *)
From S2P Require Import Prelude CacheIface Sampled.

(** golang.org/x/sync/singleflight. [waiters g k] are the calls waiting for the
    flight of [k], if there is one. [doChan] registers a call and tells whether
    its function is to be run, in a goroutine of its own; [deliver] ends the
    flight of a key whose function has returned and gives the calls that
    receive the result. *)
Class SingleFlight := {
  Group : Type;
  zeroGroup : Group;
  waiters : Group → string → option (list nat);
  doChan : Group → string → nat → bool * Group;
  deliver : Group → string → list nat * Group;
  zeroGroup_waiters : ∀ k, waiters zeroGroup k = None;
  doChan_starts : ∀ g k i, (doChan g k i).1 = bool_decide (waiters g k = None);
  doChan_waiters : ∀ g k i k',
    waiters (doChan g k i).2 k' =
      if bool_decide (k' = k) then Some (default [] (waiters g k) ++ [i]) else waiters g k';
  deliver_calls : ∀ g k, (deliver g k).1 = default [] (waiters g k);
  deliver_waiters : ∀ g k k',
    waiters (deliver g k).2 k' = if bool_decide (k' = k) then None else waiters g k';
}.

(** ** Goroutines *)

(** The two searches of an eviction: the sampled one and the fallback. *)
Inductive search := BySample (offset stride : Z) | ByFallback.

(** Where a goroutine is in [evictIfNeeded]. A [Range] in progress knows the
    keys that were present when it began and those it has visited. *)
Inductive evictPc :=
| ECheck                                       (* c.size.Load() >= int64(c.capacity) *)
| ENow                                         (* now := c.clock.Now().UnixNano() *)
| ESize (now : Time)                           (* sz := c.size.Load() *)
| EOffset (now : Time) (stride : Z)            (* c.evictOffset.Add(1) *)
| EStart (now : Time) (by_ : search)           (* c.data.Range(..) begins *)
| ERange (now : Time) (by_ : search) (start seen : gset string) (sc : scan)
| EDelete (target : string)                    (* c.data.LoadAndDelete(targetKey) *)
| EAdd.                                        (* c.size.Add(-1) *)

(** Where a goroutine is in the part [Set] and the fetch have in common. *)
Inductive storePc :=
| SLock | SLoad | SEvictBefore (e : evictPc) | SSwap | SAdd | SCheck
| SEvictAfter (e : evictPc) | SUnlock.

Inductive delPc := DLock | DDelete | DAdd | DUnlock.

Inductive getPc (T : Type) :=
| GLoad | GCheck (it : Item T) | GLock | GReload | GRecheck (it : Item T)
| GDelete (now : Time) | GAdd | GUnlock.
Arguments GLoad {T}.
Arguments GCheck {T} _.
Arguments GLock {T}.
Arguments GReload {T}.
Arguments GRecheck {T} _.
Arguments GDelete {T} _.
Arguments GAdd {T}.
Arguments GUnlock {T}.

(** One pass of the sweeper: its clock reading and its [Range]. *)
Record pass := Pass { passNow : Time; passStart : gset string; passSeen : gset string }.
Inductive sweepPc := WNext | WLock (k : string) | WReload (k : string) | WDelete (k : string)
  | WAdd (k : string) | WUnlock (k : string).

(** The arguments of a call of [GetOrFetch]; the context by its number. *)
Record query := Query { qkey : string; qttl : Duration; qctx : nat }.
Inductive fetchPc (T : Type) := FCtx | FLoad | FCheck (it : Item T) | FDo | FWait.
Arguments FCtx {T}.
Arguments FLoad {T}.
Arguments FCheck {T} _.
Arguments FDo {T}.
Arguments FWait {T}.

(** Who stores: [Set], or the function of a flight. *)
Inductive owner := BySet | ByFlight.

(** What a call returned. *)
Inductive outcome (T : Type) := Quit | Found (o : option T) | Fetched (r : T + error) | Length (n : Z).
Arguments Quit {T}.
Arguments Found {T} _.
Arguments Fetched {T} _.
Arguments Length {T} _.

Inductive thread (T : Type) :=
| SetNow (k : string) (v : T) (ttl : list Duration)
| Store (o : owner) (k : string) (it : Item T) (p : storePc)
| Deleting (k : string) (p : delPc)
| Getting (k : string) (p : getPc T)
| LenLoad
| Fetching (q : query) (p : fetchPc T)
| FlightCall (q : query)                      (* fetchFn is running *)
| FlightNow (q : query) (v : T)
| FlightDeliver (k : string) (r : T + error)
| SweepWait
| SweepNow
| SweepStart (now : Time)
| Sweeping (w : pass) (p : sweepPc)
| Done (r : outcome T).
Arguments SetNow {T} _ _ _.
Arguments Store {T} _ _ _ _.
Arguments Deleting {T} _ _.
Arguments Getting {T} _ _.
Arguments LenLoad {T}.
Arguments Fetching {T} _ _.
Arguments FlightCall {T} _.
Arguments FlightNow {T} _ _.
Arguments FlightDeliver {T} _ _.
Arguments SweepWait {T}.
Arguments SweepNow {T}.
Arguments SweepStart {T} _.
Arguments Sweeping {T} _ _.
Arguments Done {T} _.

(** ** Shared state *)

(** [locks]: the goroutine that holds each locked stripe. [chans]: the result
    in the channel of each waiting call. [ctxs]: the contexts that are done. *)
Record shared (T : Type) `{SingleFlight} := Shared {
  cache : sampledCache T;
  locks : gmap Z nat;
  flights : Group;
  chans : gmap nat (T + error);
  ctxs : gmap nat error;
  time : Time;
  stopEvict : bool;
}.
Arguments Shared {T _} _ _ _ _ _ _ _.
Arguments cache {T _} _.
Arguments locks {T _} _.
Arguments flights {T _} _.
Arguments chans {T _} _.
Arguments ctxs {T _} _.
Arguments time {T _} _.
Arguments stopEvict {T _} _.

Record config (T : Type) `{SingleFlight} := Config { sh : shared T; threads : list (thread T) }.
Arguments Config {T _} _ _.
Arguments sh {T _} _.
Arguments threads {T _} _.

(** What the scheduler and the environment decide at a step: the entry a
    [Range] visits next or that it is over, the result of [fetchFn], the ready
    case a [select] takes. *)
Inductive choice (T : Type) :=
| Just | Visit (k : string) | EndRange | Result (r : T + error) | PickCtx | PickChan.
Arguments Just {T}.
Arguments Visit {T} _.
Arguments EndRange {T}.
Arguments Result {T} _.
Arguments PickCtx {T}.
Arguments PickChan {T}.

Section steps.
Context {T : Type} `{SingleFlight}.
Implicit Types s : shared T.

Definition setCache s c : shared T := Shared c (locks s) (flights s) (chans s) (ctxs s) (time s) (stopEvict s).
Definition setLocks s l : shared T := Shared (cache s) l (flights s) (chans s) (ctxs s) (time s) (stopEvict s).
Definition setFlights s g : shared T := Shared (cache s) (locks s) g (chans s) (ctxs s) (time s) (stopEvict s).
Definition setChans s ch : shared T := Shared (cache s) (locks s) (flights s) ch (ctxs s) (time s) (stopEvict s).

Definition withData (c : sampledCache T) d : sampledCache T :=
  Sampled (capacity c) d (size_ c) (evictOffset c) (metrics c).
Definition sizeAdd (c : sampledCache T) n : sampledCache T :=
  Sampled (capacity c) (data c) (size_ c + n) (evictOffset c) (metrics c).

Definition bounded s : bool := 0 <? capacity (cache s).

(** [Lock] and [Unlock] of the stripe of a key, by goroutine [i]; a step that
    has to wait is not enabled. *)
Definition acquire s (i : nat) (k : string) : option (shared T) :=
  match locks s !! getStripe k with
  | Some _ => None
  | None => Some (setLocks s (<[getStripe k := i]> (locks s)))
  end.
Definition release s (k : string) : shared T := setLocks s (delete (getStripe k) (locks s)).

(** One visit of a [sync.Map.Range]: an entry that is there and has not been
    visited, in no particular order. *)
Definition visitable s (seen : gset string) (k : string) : option (Item T) :=
  if bool_decide (k ∈ seen) then None else data (cache s) !! k.

(** A [Range] may end when it has visited every key that was present when it
    began and still is. *)
Definition exhausted s (start seen : gset string) : bool :=
  bool_decide (start ∩ dom (data (cache s)) ⊆ seen).

(** The end of a search: the candidate, or the fallback search, or nil. *)
Definition searchEnd (now : Time) (by_ : search) (sc : scan) : option evictPc :=
  match expiredKey sc, oldestKey sc with
  | Some k, _ | None, Some k => Some (EDelete k)
  | None, None => match by_ with BySample _ _ => Some (EStart now ByFallback) | ByFallback => None end
  end.

Definition visitBy (by_ : search) (newKey : string) (now : Time) (k : string) (it : Item T) (sc : scan)
    : scan * bool :=
  match by_ with
  | BySample offset stride => sampledVisit newKey now offset stride k it sc
  | ByFallback => fallbackVisit newKey now k it sc
  end.

(** A step of [evictIfNeeded] and of the searches it calls; [None] as the next
    position is the return. *)
Definition evictStep s (newKey : string) (e : evictPc) (ch : choice T)
    : option (option evictPc * shared T) :=
  let c := cache s in
  match e with
  | ECheck => Some (if capacity c <=? size_ c then Some ENow else None, s)
  | ENow => Some (Some (ESize (time s)), s)
  | ESize now => Some (Some (EOffset now (strideOf (size_ c))), s)
  | EOffset now stride =>
      let off := (evictOffset c + 1) mod 2 ^ 64 in
      Some (Some (EStart now (BySample (off mod stride) stride)), setCache s (withOffset c off))
  | EStart now by_ => Some (Some (ERange now by_ (dom (data c)) ∅ scan0), s)
  | ERange now by_ start seen sc =>
      match ch with
      | Visit k =>
          it ← visitable s seen k;
          let '(sc', continue) := visitBy by_ newKey now k it sc in
          Some (if continue then Some (ERange now by_ start ({[k]} ∪ seen) sc')
                else searchEnd now by_ sc', s)
      | EndRange => if exhausted s start seen then Some (searchEnd now by_ sc, s) else None
      | _ => None
      end
  | EDelete k =>
      match data c !! k with
      | Some _ => Some (Some EAdd, setCache s (withData c (delete k (data c))))
      | None => Some (None, s)
      end
  | EAdd => Some (Some ECheck, setCache s (countEviction (sizeAdd c (-1))))
  end.

(** The call of [evictIfNeeded]: it returns at once without a capacity. *)
Definition enterEvict s : option evictPc := if capacity (cache s) <=? 0 then None else Some ECheck.

(** The return of [Set], or of the function of the flight. *)
Definition stored (o : owner) (k : string) (it : Item T) : thread T :=
  match o with BySet => Done Quit | ByFlight => FlightDeliver k (inl (Value it)) end.

(** The part [Set] and the fetch have in common, after the item is built. *)
Definition storeStep s (i : nat) (o : owner) (k : string) (it : Item T) (p : storePc) (ch : choice T)
    : option (thread T * shared T) :=
  let c := cache s in
  let go p' := Store o k it p' in
  match p with
  | SLock => if bounded s then s' ← acquire s i k; Some (go SLoad, s') else Some (go SSwap, s)
  | SLoad =>
      Some (match data c !! k, enterEvict s with
            | None, Some e => go (SEvictBefore e)
            | _, _ => go SSwap
            end, s)
  | SEvictBefore e =>
      '(next, s') ← evictStep s k e ch;
      Some (match next with Some e' => go (SEvictBefore e') | None => go SSwap end, s')
  | SSwap =>
      let s' := setCache s (withData c (<[k := it]> (data c))) in
      Some (match data c !! k with
            | None => go SAdd
            | Some _ => if bounded s then go SCheck else stored o k it
            end, s')
  | SAdd =>
      Some (if bounded s then go SCheck else stored o k it, setCache s (sizeAdd c 1))
  | SCheck =>
      Some (if capacity c <? size_ c
            then match enterEvict s with Some e => go (SEvictAfter e) | None => go SUnlock end
            else go SUnlock, s)
  | SEvictAfter e =>
      '(next, s') ← evictStep s k e ch;
      Some (match next with Some e' => go (SEvictAfter e') | None => go SUnlock end, s')
  | SUnlock => Some (stored o k it, release s k)
  end.

Definition deleteStep s (i : nat) (k : string) (p : delPc) : option (thread T * shared T) :=
  let c := cache s in
  let leave := if bounded s then Deleting k DUnlock else Done Quit in
  match p with
  | DLock => if bounded s then s' ← acquire s i k; Some (Deleting k DDelete, s')
             else Some (Deleting k DDelete, s)
  | DDelete =>
      Some (match data c !! k with
            | Some _ => (Deleting k DAdd, setCache s (withData c (delete k (data c))))
            | None => (leave, s)
            end)
  | DAdd => Some (leave, setCache s (sizeAdd c (-1)))
  | DUnlock => Some (Done Quit, release s k)
  end.

(** [Get]: the entry is loaded again under the lock before it is removed. *)
Definition getStep s (i : nat) (k : string) (p : getPc T) : option (thread T * shared T) :=
  let c := cache s in
  match p with
  | GLoad =>
      Some (match data c !! k with
            | Some it => (Getting k (GCheck it), s)
            | None => (Done (Found None), setCache s (countMiss c))
            end)
  | GCheck it =>
      Some (if fresh it (time s) then (Done (Found (Some (Value it))), setCache s (countHit c))
            else (Getting k GLock, s))
  | GLock => s' ← acquire s i k; Some (Getting k GReload, s')
  | GReload =>
      Some (match data c !! k with
            | Some it2 => Getting k (GRecheck it2)
            | None => Getting k GUnlock
            end, s)
  | GRecheck it2 =>
      Some (if expired (Expiration it2) (time s) then Getting k (GDelete (time s))
            else Getting k GUnlock, s)
  | GDelete _ =>
      Some (match data c !! k with
            | Some _ => (Getting k GAdd, setCache s (withData c (delete k (data c))))
            | None => (Getting k GUnlock, s)
            end)
  | GAdd => Some (Getting k GUnlock, setCache s (countEviction (sizeAdd c (-1))))
  | GUnlock => Some (Done (Found None), setCache (release s k) (countMiss c))
  end.

(** [getOrFetchSampledLRU], the calling goroutine; the third component are the
    goroutines started. *)
Definition fetchStep s (i : nat) (q : query) (p : fetchPc T) (ch : choice T)
    : option (thread T * shared T * list (thread T)) :=
  let c := cache s in
  let k := qkey q in
  match p with
  | FCtx =>
      Some (match ctxs s !! qctx q with
            | Some e => Done (Fetched (inr e))
            | None => Fetching q FLoad
            end, s, [])
  | FLoad =>
      Some (match data c !! k with
            | Some it => (Fetching q (FCheck it), s)
            | None => (Fetching q FDo, setCache s (countMiss c))
            end, [])
  | FCheck it =>
      Some (if fresh it (time s)
            then (Done (Fetched (inl (Value it))), setCache s (countHit c))
            else (Fetching q FDo, setCache s (countMiss c)), [])
  | FDo =>
      let '(start, g) := doChan (flights s) k i in
      Some (Fetching q FWait, setFlights s g, if start then [FlightCall q] else [])
  | FWait =>
      match ch with
      | PickCtx => e ← ctxs s !! qctx q; Some (Done (Fetched (inr e)), s, [])
      | PickChan => r ← chans s !! i; Some (Done (Fetched r), s, [])
      | _ => None
      end
  end.

(** The function given to [DoChan], up to the store; then the delivery of its
    result to every call of the flight. *)
Definition flightCallStep s (q : query) (ch : choice T) : option (thread T * shared T) :=
  match ch with
  | Result (inl v) => Some (FlightNow q v, s)
  | Result (inr e) => Some (FlightDeliver (qkey q) (inr e), s)
  | _ => None
  end.
Definition flightNowStep s (q : query) (v : T) : option (thread T * shared T) :=
  Some (Store ByFlight (qkey q) (newItem v [qttl q] (time s)) SLock, s).
Definition deliverStep s (k : string) (r : T + error) : option (thread T * shared T) :=
  let '(ws, g) := deliver (flights s) k in
  Some (Done Quit, setChans (setFlights s g) (foldr (λ i m, <[i := r]> m) (chans s) ws)).

(** The sweeper of [startEviction]: the callback of its [Range]. *)
Definition sweepStep s (i : nat) (w : pass) (p : sweepPc) (ch : choice T)
    : option (thread T * shared T) :=
  let c := cache s in
  match p with
  | WNext =>
      match ch with
      | Visit k =>
          it ← visitable s (passSeen w) k;
          let w' := Pass (passNow w) (passStart w) ({[k]} ∪ passSeen w) in
          Some (Sweeping w' (if expired (Expiration it) (passNow w) then WLock k else WNext), s)
      | EndRange =>
          if exhausted s (passStart w) (passSeen w) then Some (SweepWait, s) else None
      | _ => None
      end
  | WLock k => s' ← acquire s i k; Some (Sweeping w (WReload k), s')
  | WReload k =>
      Some (Sweeping w (match data c !! k with
                        | Some it2 => if expired (Expiration it2) (passNow w) then WDelete k else WUnlock k
                        | None => WUnlock k
                        end), s)
  | WDelete k =>
      Some (match data c !! k with
            | Some _ => (Sweeping w (WAdd k), setCache s (withData c (delete k (data c))))
            | None => (Sweeping w (WUnlock k), s)
            end)
  | WAdd k => Some (Sweeping w (WUnlock k), setCache s (countEviction (sizeAdd c (-1))))
  | WUnlock k => Some (Sweeping w WNext, release s k)
  end.

(** [select] of the sweeper: the closed channel [stopEvict] or a tick. *)
Definition sweepWaitStep s (ch : choice T) : option (thread T * shared T) :=
  match ch with
  | PickCtx => if stopEvict s then Some (Done Quit, s) else None
  | PickChan => Some (SweepNow, s)
  | _ => None
  end.

Definition alone (r : option (thread T * shared T)) : option (thread T * shared T * list (thread T)) :=
  '(t, s) ← r; Some (t, s, []).

Definition tstep s (i : nat) (t : thread T) (ch : choice T)
    : option (thread T * shared T * list (thread T)) :=
  match t with
  | SetNow k v ttl => Some (Store BySet k (newItem v ttl (time s)) SLock, s, [])
  | Store o k it p => alone (storeStep s i o k it p ch)
  | Deleting k p => alone (deleteStep s i k p)
  | Getting k p => alone (getStep s i k p)
  | LenLoad => Some (Done (Length (Len (cache s))), s, [])
  | Fetching q p => fetchStep s i q p ch
  | FlightCall q => alone (flightCallStep s q ch)
  | FlightNow q v => alone (flightNowStep s q v)
  | FlightDeliver k r => alone (deliverStep s k r)
  | SweepWait => alone (sweepWaitStep s ch)
  | SweepNow => Some (SweepStart (time s), s, [])
  | SweepStart now => Some (Sweeping (Pass now (dom (data (cache s))) ∅) WNext, s, [])
  | Sweeping w p => alone (sweepStep s i w p ch)
  | Done _ => None
  end.

(** ** The system *)

(** A goroutine runs, time passes, a context is done, the cache is closed. *)
Inductive action := Run (i : nat) (ch : choice T) | Tick (d : Z) | Cancel (ctx : nat) (e : error) | Close.

Definition act (a : action) (g : config T) : option (config T) :=
  let s := sh g in
  match a with
  | Run i ch =>
      t ← threads g !! i;
      '(t', s', new) ← tstep s i t ch;
      Some (Config s' (<[i := t']> (threads g) ++ new))
  | Tick d =>
      if 0 <=? d then
        Some (Config (Shared (cache s) (locks s) (flights s) (chans s) (ctxs s) (time s + d) (stopEvict s))
                (threads g))
      else None
  | Cancel x e =>
      Some (Config (Shared (cache s) (locks s) (flights s) (chans s)
                      (match ctxs s !! x with Some _ => ctxs s | None => <[x := e]> (ctxs s) end)
                      (time s) (stopEvict s)) (threads g))
  | Close =>
      Some (Config (Shared (cache s) (locks s) (flights s) (chans s) (ctxs s) (time s) true) (threads g))
  end.

Definition sstep (g g' : config T) : Prop := ∃ a, act a g = Some g'.

(** A run given by its actions. *)
Fixpoint execute (l : list action) (g : config T) : option (config T) :=
  match l with [] => Some g | a :: l' => g' ← act a g; execute l' g' end.

(** A call that has not begun. *)
Definition fresh_call (t : thread T) : bool :=
  match t with
  | SetNow _ _ _ | Deleting _ DLock | Getting _ GLoad | LenLoad | Fetching _ FCtx | SweepWait => true
  | _ => false
  end.

(** A cache of the given capacity and the calls that are going to be made. *)
Definition start (cap : Z) (now : Time) (calls : list (thread T)) : config T :=
  Config (Shared (Sampled cap ∅ 0 0 noMetrics) ∅ zeroGroup ∅ ∅ now false) calls.

Definition started (g : config T) : Prop :=
  ∃ cap now calls, g = start cap now calls ∧ Forall (λ t, fresh_call t = true) calls.

Definition reached (g : config T) : Prop := ∃ g0, started g0 ∧ rtc sstep g0 g.

Definition idle (t : thread T) : bool :=
  match t with SweepWait | Done _ => true | _ => false end.
End steps.
