(* ===== verification/CacheRaces.v ===== *)
(** What holds of the SampledLRU cache (cache/cache.go) in every interleaving
    of its goroutines: the size counter accounts for every entry, the stripes
    exclude each other, at most one fetch per key is in flight and nobody waits
    for one that is not, nothing deadlocks, concurrent writers settle within
    the capacity, and the clean-up of expired entries of a bounded cache never
    takes a live one; and the interleavings in which an unbounded cache loses
    one. *)
From S2P Require Import Prelude CacheIface Sampled CacheThreads.

(** ** Lists of goroutines *)

Section pool.
Context {A : Type}.
Implicit Types (l new : list A) (f : A → Z).

Definition total f l : Z := foldr (λ x z, f x + z) 0 l.

Lemma total_app f l l' : total f (l ++ l') = total f l + total f l'.
Proof. induction l; simpl; lia. Qed.

Lemma total_insert f l i x y : l !! i = Some x → total f (<[i := y]> l) = total f l - f x + f y.
Proof.
  revert i. induction l as [|z l IH]; intros [|i] Hi; simplify_eq/=; [lia|]. rewrite (IH i Hi). lia.
Qed.

Lemma total_zero f l : (∀ x, x ∈ l → f x = 0) → total f l = 0.
Proof.
  induction l as [|x l IH]; intros Hz; simpl; [done|].
  rewrite IH, (Hz x); [lia | set_solver | set_solver].
Qed.

Lemma total_opp f l : total (λ x, - f x) l = - total f l.
Proof. induction l; simpl; lia. Qed.

Lemma total_pos f l : 0 < total f l → ∃ i x, l !! i = Some x ∧ 0 < f x.
Proof.
  induction l as [|x l IH]; simpl; [lia|]. intros Ht. destruct (decide (0 < f x)); [by exists 0%nat, x|].
  destruct IH as (i & y & Hi & Hy); [lia|]. by exists (S i), y.
Qed.

(** A goroutine of the pool after a step: the one that moved, a new one or one
    that was there. *)
Lemma pool_lookup l new i x y j z : l !! i = Some x →
  (<[i := y]> l ++ new) !! j = Some z →
  (j = i ∧ z = y) ∨ (j ≠ i ∧ l !! j = Some z) ∨ (z ∈ new ∧ l !! j = None).
Proof.
  intros Hi. rewrite lookup_app. destruct (decide (j = i)) as [->|Hne].
  - rewrite list_lookup_insert_eq by eauto using lookup_lt_Some. naive_solver.
  - rewrite list_lookup_insert_ne by done. destruct (l !! j); [naive_solver|].
    intros Hz%list_elem_of_lookup_2. naive_solver.
Qed.

Lemma pool_moved l new i x y : l !! i = Some x → (<[i := y]> l ++ new) !! i = Some y.
Proof.
  intros Hi. apply lookup_app_l_Some, list_lookup_insert_eq. eauto using lookup_lt_Some.
Qed.

Lemma pool_stays l new i y j z : l !! j = Some z → j ≠ i → (<[i := y]> l ++ new) !! j = Some z.
Proof. intros Hj Hne. apply lookup_app_l_Some. by rewrite list_lookup_insert_ne. Qed.
End pool.

Section races.
Context {T : Type} `{SingleFlight}.
Implicit Types (s : shared T) (g : config T) (t : thread T).

(** ** Steps *)

(** Case analysis on a step of a goroutine. *)
Ltac step_cases :=
  repeat match goal with
  | Hs : (_ ≫= _) = Some _ |- _ => apply bind_Some in Hs as (? & ? & ?)
  | Hs : alone _ = Some _ |- _ => unfold alone in Hs
  | p : (_ * _)%type |- _ => destruct p
  | Hs : Some _ = Some _ |- _ => injection Hs as ?; subst
  | Hs : None = Some _ |- _ => discriminate Hs
  | Hs : (match ?x with _ => _ end) = Some _ |- _ => destruct x eqn:?
  | Hs : (_, _) = (_, _) |- _ => injection Hs as ?; subst
  | Hs : (match ?x with _ => _ end) = (_, _) |- _ => destruct x eqn:?
  end.

(** A step of the system is a step of a goroutine, or changes only the clock,
    the contexts and the stop channel. *)
Inductive moved g : config T → Prop :=
| moved_run i t ch t' s' new :
    threads g !! i = Some t → tstep (sh g) i t ch = Some (t', s', new) →
    moved g (Config s' (<[i := t']> (threads g) ++ new))
| moved_env s' :
    cache s' = cache (sh g) → locks s' = locks (sh g) → flights s' = flights (sh g) →
    chans s' = chans (sh g) → time (sh g) <= time s' → moved g (Config s' (threads g)).

Lemma sstep_moved g g' : sstep g g' → moved g g'.
Proof.
  intros [a Ha]. destruct a as [i ch|d|x e|]; simpl in Ha; step_cases; bool_to_prop;
    try (apply moved_env; simpl; done || lia).
  by eapply moved_run.
Qed.

(** Invariants of the reachable states. *)
Lemma reached_inv (P : config T → Prop) :
  (∀ g, started g → P g) → (∀ g g', P g → moved g g' → P g') → ∀ g, reached g → P g.
Proof.
  intros H0 Hs g (g0 & Hg0 & Hr). apply H0 in Hg0.
  induction Hr as [|g1 g2 g3 H12 _ IH]; eauto using sstep_moved.
Qed.

Lemma sizeAdd_proj (c : sampledCache T) n :
  data (sizeAdd c n) = data c ∧ size_ (sizeAdd c n) = size_ c + n ∧ capacity (sizeAdd c n) = capacity c.
Proof. done. Qed.

Ltac unfold_steps :=
  unfold tstep, storeStep, deleteStep, getStep, fetchStep, flightCallStep, flightNowStep, deliverStep,
    sweepStep, sweepWaitStep, evictStep, acquire in *.

(** The capacity never changes. *)
Lemma tstep_capacity s i t ch t' s' new :
  tstep s i t ch = Some (t', s', new) → capacity (cache s') = capacity (cache s).
Proof. intros Hs. destruct t; unfold_steps; step_cases; done. Qed.

(** ** The size counter *)

(** What a goroutine still has to add to the counter. *)
Definition evictOwes (e : evictPc) : Z := match e with EAdd => -1 | _ => 0 end.
Definition owes t : Z :=
  match t with
  | Store _ _ _ SAdd => 1
  | Store _ _ _ (SEvictBefore e) | Store _ _ _ (SEvictAfter e) => evictOwes e
  | Deleting _ DAdd | Getting _ GAdd | Sweeping _ (WAdd _) => -1
  | _ => 0
  end.

Definition entries (c : sampledCache T) : Z := Z.of_nat (size (data c)).

Definition accounted g : Prop := size_ (cache (sh g)) + total owes (threads g) = entries (cache (sh g)).

Lemma entries_insert (c : sampledCache T) k it :
  entries (withData c (<[k := it]> (data c))) =
    entries c + match data c !! k with None => 1 | Some _ => 0 end.
Proof.
  unfold entries. simpl. destruct (data c !! k) eqn:E.
  - rewrite map_size_insert_Some by eauto. lia.
  - rewrite map_size_insert_None by done. lia.
Qed.

Lemma entries_delete (c : sampledCache T) k :
  is_Some (data c !! k) → entries (withData c (delete k (data c))) = entries c - 1.
Proof.
  intros [it E]. unfold entries. simpl. rewrite map_size_delete_Some by eauto.
  assert (size (data c) ≠ 0%nat); [|lia]. intros Hz%map_size_empty_inv. by rewrite Hz in E.
Qed.

(** The other updates of the cache leave the entries alone. *)
Lemma entries_same (c c' : sampledCache T) : data c' = data c → entries c' = entries c.
Proof. unfold entries. by intros ->. Qed.

Ltac settle_size :=
  simpl; unfold enterEvict, searchEnd, stored;
  repeat (rewrite entries_insert || rewrite entries_delete by eauto);
  rewrite ?(entries_same (cache _) (countEviction (sizeAdd (cache _) _))),
    ?(entries_same (cache _) (sizeAdd (cache _) _)), ?(entries_same (cache _) (withOffset (cache _) _)),
    ?(entries_same (cache _) (countMiss (cache _))), ?(entries_same (cache _) (countHit (cache _))) by done;
  repeat (case_match; simplify_eq/=); lia.

Lemma tstep_accounted s i t ch t' s' new :
  tstep s i t ch = Some (t', s', new) →
  size_ (cache s') + owes t' + total owes new - entries (cache s') =
    size_ (cache s) + owes t - entries (cache s).
Proof.
  intros Hs. destruct t; unfold_steps; step_cases; settle_size.
Qed.

Lemma started_fresh g : started g →
  cache (sh g) = Sampled (capacity (cache (sh g))) ∅ 0 0 noMetrics ∧ locks (sh g) = ∅ ∧
  flights (sh g) = zeroGroup ∧ chans (sh g) = ∅ ∧ Forall (λ t, fresh_call t = true) (threads g).
Proof. intros (cap & now & calls & -> & Hc). done. Qed.

(** A property every call has before it begins. *)
Lemma started_calls (P : thread T → Prop) g :
  started g → (∀ t, fresh_call t = true → P t) → ∀ i t, threads g !! i = Some t → P t.
Proof.
  intros (_ & _ & _ & _ & Hf)%started_fresh HP i t Hi. apply HP.
  by eapply (Forall_lookup_1 (λ t, fresh_call t = true)).
Qed.

Lemma accounted_step g g' : accounted g → moved g g' → accounted g'.
Proof.
  intros Ha Hm. destruct Hm as [i t ch t' s' new Hi Ht | s' Hc]; unfold accounted in *; simpl.
  - pose proof (tstep_accounted _ _ _ _ _ _ _ Ht) as Hd.
    rewrite total_app, (total_insert _ _ _ _ _ Hi). lia.
  - by rewrite Hc.
Qed.

Lemma accounted_start g : started g → accounted g.
Proof.
  intros Hg. pose proof Hg as (Hc & _)%started_fresh. unfold accounted, entries. rewrite Hc. simpl.
  rewrite total_zero, map_size_empty; [done|]. intros t (i & Hi)%list_elem_of_lookup.
  revert i t Hi. apply (started_calls (λ t, owes t = 0)); [done|].
  intros t. by destruct t as [| | ? [] | ? [] | | ? [] | | | | | | | |].
Qed.

Lemma reached_accounted g : reached g → accounted g.
Proof. revert g. apply reached_inv; [apply accounted_start | apply accounted_step]. Qed.

(** ** The stripes *)

(** The stripe a goroutine has locked; [Set], the fetch and [Delete] lock only
    when there is a capacity. *)
Definition holds (cap : Z) t : option Z :=
  match t with
  | Store _ k _ SLock | Deleting k DLock => None
  | Store _ k _ _ | Deleting k _ => if 0 <? cap then Some (getStripe k) else None
  | Getting k (GReload | GRecheck _ | GDelete _ | GAdd | GUnlock)
  | Sweeping _ (WReload k | WDelete k | WAdd k | WUnlock k) => Some (getStripe k)
  | _ => None
  end.

(** A step keeps what the goroutine holds, takes a free stripe or gives up the
    one it holds. *)
Inductive locking (i : nat) (l : gmap Z nat) : option Z → option Z → gmap Z nat → Prop :=
| lock_keep x : locking i l x x l
| lock_take x : l !! x = None → locking i l None (Some x) (<[x := i]> l)
| lock_drop x : locking i l (Some x) None (delete x l).

(** The positions that are reached only when there is a capacity. *)
Definition sane (cap : Z) t : bool :=
  match t with
  | Store _ _ _ (SLock | SSwap | SAdd) => true
  | Store _ _ _ _ | Deleting _ DUnlock => 0 <? cap
  | _ => true
  end.

(** Closes the goals about the goroutines a step starts. *)
Ltac only_new :=
  try done; try (intros ?; split; [done|]);
  let Hu := fresh in intros ? Hu; rewrite ?list_elem_of_singleton in Hu;
  first [by apply not_elem_of_nil in Hu | by subst].

Ltac split_steps := simpl; unfold enterEvict, searchEnd, stored, bounded in *;
  repeat (case_match; simplify_eq/=).

Lemma tstep_sane s i t ch t' s' new :
  tstep s i t ch = Some (t', s', new) → sane (capacity (cache s)) t = true →
  sane (capacity (cache s)) t' = true ∧ ∀ u, u ∈ new → sane (capacity (cache s)) u = true.
Proof.
  intros Hs. destruct t; unfold_steps; step_cases; split_steps; only_new.
Qed.

Lemma tstep_locking s i t ch t' s' new :
  tstep s i t ch = Some (t', s', new) → sane (capacity (cache s)) t = true →
  locking i (locks s) (holds (capacity (cache s)) t) (holds (capacity (cache s)) t') (locks s') ∧
  ∀ u, u ∈ new → holds (capacity (cache s)) u = None.
Proof.
  intros Hs Hw. split; [|destruct t; unfold_steps; step_cases; split_steps; only_new].
  destruct t; unfold_steps; step_cases; split_steps;
    first [apply lock_keep | by apply lock_take | apply lock_drop | congruence].
Qed.

(** The holder recorded for a stripe is the one goroutine inside it. *)
Definition exclusive g : Prop :=
  (∀ i t, threads g !! i = Some t → sane (capacity (cache (sh g))) t = true) ∧
  ∀ x i, locks (sh g) !! x = Some i ↔
    ∃ t, threads g !! i = Some t ∧ holds (capacity (cache (sh g))) t = Some x.

Lemma locking_step i l h h' l' : locking i l h h' l' → (∀ x, l !! x = Some i ↔ h = Some x) →
  (∀ x, l' !! x = Some i ↔ h' = Some x) ∧ ∀ x j, j ≠ i → l' !! x = Some j ↔ l !! x = Some j.
Proof.
  intros Hl Hh. destruct Hl as [y|y Hy|y]; split; try done; intros x.
  - destruct (decide (x = y)) as [->|]; [by rewrite lookup_insert_eq|].
    rewrite lookup_insert_ne, Hh by done. naive_solver.
  - intros j Hj. destruct (decide (x = y)) as [->|]; [|by rewrite lookup_insert_ne].
    rewrite lookup_insert_eq, Hy. naive_solver.
  - destruct (decide (x = y)) as [->|]; [by rewrite lookup_delete_eq|].
    rewrite lookup_delete_ne, Hh by done. naive_solver.
  - intros j Hj. destruct (decide (x = y)) as [->|]; [|by rewrite lookup_delete_ne].
    rewrite lookup_delete_eq. pose proof (proj2 (Hh y) eq_refl). naive_solver.
Qed.

Lemma exclusive_step g g' : exclusive g → moved g g' → exclusive g'.
Proof.
  intros [Hs Hl] Hm. destruct Hm as [i t ch t' s' new Hi Ht | s' Hc Hlk]; unfold exclusive; simpl.
  2: { by rewrite Hc, Hlk. }
  rewrite (tstep_capacity _ _ _ _ _ _ _ Ht).
  pose proof (tstep_sane _ _ _ _ _ _ _ Ht (Hs _ _ Hi)) as [Hs' Hsn].
  pose proof (tstep_locking _ _ _ _ _ _ _ Ht (Hs _ _ Hi)) as [Hk Hkn].
  apply locking_step in Hk as [Hki Hkj].
  2: { intros x. rewrite Hl. naive_solver. }
  split.
  - intros j u Hj. apply (pool_lookup _ _ _ _ _ _ _ Hi) in Hj. naive_solver.
  - intros x j. destruct (decide (j = i)) as [->|Hne].
    + rewrite Hki, (pool_moved _ _ _ _ _ Hi). naive_solver.
    + rewrite Hkj, Hl by done. split.
      * intros (u & Hu & Hx). exists u. eauto using pool_stays.
      * intros (u & Hu & Hx). apply (pool_lookup _ _ _ _ _ _ _ Hi) in Hu as [[? ?]|[[? ?]|[? ?]]]; [done|eauto|].
        rewrite Hkn in Hx by done. done.
Qed.

Lemma reached_exclusive g : reached g → exclusive g.
Proof.
  revert g. apply reached_inv; [|apply exclusive_step].
  intros g Hg. pose proof Hg as (_ & Hl & _)%started_fresh. split.
  - apply (started_calls (λ t, sane _ t = true)); [done|].
    intros t. by destruct t as [| | ? [] | | | | | | | | | | |].
  - intros x i. rewrite Hl, lookup_empty. split; [done|]. intros (t & Hi & Hx).
    revert Hx. enough (holds (capacity (cache (sh g))) t = None) as -> by done. revert i t Hi.
    apply (started_calls (λ t, holds _ t = None)); [done|].
    intros t. by destruct t as [| | ? [] | ? [] | | ? [] | | | | | | | |].
Qed.

(** ** The flights *)

(** The key whose flight a goroutine is. *)
Definition flying t : option string :=
  match t with
  | FlightCall q | FlightNow q _ => Some (qkey q)
  | Store ByFlight k _ _ | FlightDeliver k _ => Some k
  | _ => None
  end.

(** The key a goroutine waits for. *)
Definition awaits t : option string :=
  match t with Fetching q FWait => Some (qkey q) | _ => None end.

(** One flight for every key singleflight knows one of, and no other; whoever
    waits is waiting for one or has its result. *)
Record flightsOk g : Prop := {
  flight_known : ∀ i t k, threads g !! i = Some t → flying t = Some k → is_Some (waiters (flights (sh g)) k);
  flight_exists : ∀ k, is_Some (waiters (flights (sh g)) k) →
    ∃ i t, threads g !! i = Some t ∧ flying t = Some k;
  flight_once : ∀ i j t u k, threads g !! i = Some t → threads g !! j = Some u →
    flying t = Some k → flying u = Some k → i = j;
  flight_awaited : ∀ i t k, threads g !! i = Some t → awaits t = Some k →
    (∃ ws, waiters (flights (sh g)) k = Some ws ∧ i ∈ ws) ∨ is_Some (chans (sh g) !! i);
}.

(** What a step does to the flights: nothing, one call more, or a delivery. *)
Inductive flightEffect s (i : nat) t t' s' (new : list (thread T)) : Prop :=
| flight_same :
    flying t' = flying t → (awaits t' = awaits t ∨ awaits t' = None) → new = [] →
    flights s' = flights s → chans s' = chans s → flightEffect s i t t' s' new
| flight_join q :
    flying t = None → flying t' = None → awaits t' = Some (qkey q) →
    new = (if (doChan (flights s) (qkey q) i).1 then [FlightCall q] else []) →
    flights s' = (doChan (flights s) (qkey q) i).2 → chans s' = chans s → flightEffect s i t t' s' new
| flight_land k r :
    flying t = Some k → flying t' = None → awaits t' = None → new = [] →
    flights s' = (deliver (flights s) k).2 →
    chans s' = foldr (λ j m, <[j := r]> m) (chans s) (deliver (flights s) k).1 → flightEffect s i t t' s' new.

Lemma tstep_flight s i t ch t' s' new :
  tstep s i t ch = Some (t', s', new) → flightEffect s i t t' s' new.
Proof.
  intros Hs. destruct t; unfold_steps; step_cases;
    try (apply flight_same; split_steps; by auto).
  - eapply (flight_join _ _ _ _ _ _ q); simpl; try done;
      match goal with E : doChan _ _ _ = _ |- _ => by rewrite E end.
  - eapply (flight_land _ _ _ _ _ _ k r); simpl; try done;
      match goal with E : deliver _ _ = _ |- _ => by rewrite E end.
Qed.

Lemma posted_lookup (r : T + error) (ws : list nat) (m : gmap nat (T + error)) i :
  foldr (λ j m, <[j := r]> m) m ws !! i = if bool_decide (i ∈ ws) then Some r else m !! i.
Proof.
  induction ws as [|j ws IH]; simpl; [done|]. destruct (decide (i = j)) as [->|Hne].
  - rewrite lookup_insert_eq, bool_decide_true by set_solver. done.
  - rewrite lookup_insert_ne, IH by done. repeat case_bool_decide; set_solver.
Qed.

Lemma flights_same_step g i t t' s' : flightsOk g → threads g !! i = Some t →
  flying t' = flying t → (awaits t' = awaits t ∨ awaits t' = None) →
  flights s' = flights (sh g) → chans s' = chans (sh g) →
  flightsOk (Config s' (<[i := t']> (threads g) ++ [])).
Proof.
  intros [Hk He Ho Ha] Hi Hf Hw Hfl Hch.
  assert (∀ j u, (<[i := t']> (threads g) ++ []) !! j = Some u →
    ∃ u0, threads g !! j = Some u0 ∧ flying u = flying u0 ∧ (awaits u = awaits u0 ∨ awaits u = None)) as Hback.
  { intros j u Hj. apply (pool_lookup _ _ _ _ _ _ _ Hi) in Hj as [[-> ->]|[[? ?]|[?%elem_of_nil _]]]; naive_solver. }
  split; simpl; rewrite ?Hfl, ?Hch.
  - intros j u k (u0 & ? & -> & _)%Hback. eauto.
  - intros k (j & u & Hj & Hu)%He. destruct (decide (j = i)) as [->|Hne].
    + exists i, t'. rewrite (pool_moved _ _ _ _ _ Hi), Hf. naive_solver.
    + exists j, u. eauto using pool_stays.
  - intros j1 j2 u1 u2 k (v1 & ? & -> & _)%Hback (v2 & ? & -> & _)%Hback. eauto.
  - intros j u k (v & Hv & _ & Hw')%Hback Hu. destruct Hw' as [Hw'|Hw']; [|congruence]. eapply Ha; [done|]. congruence.
Qed.

Lemma flights_join_step g i t t' s' q : flightsOk g → threads g !! i = Some t →
  flying t = None → flying t' = None → awaits t' = Some (qkey q) →
  flights s' = (doChan (flights (sh g)) (qkey q) i).2 → chans s' = chans (sh g) →
  flightsOk (Config s' (<[i := t']> (threads g) ++
    (if (doChan (flights (sh g)) (qkey q) i).1 then [FlightCall q] else []))).
Proof.
  intros [Hk He Ho Ha] Hi Hf Hf' Hw Hfl Hch. rewrite doChan_starts.
  set (new := if bool_decide _ then _ else _).
  assert (∀ k, is_Some (waiters (flights s') k) ↔ k = qkey q ∨ is_Some (waiters (flights (sh g)) k)) as Hws.
  { intros k. rewrite Hfl, doChan_waiters. case_bool_decide; naive_solver. }
  assert (∀ u, u ∈ new → u = FlightCall q ∧ waiters (flights (sh g)) (qkey q) = None) as Hnew.
  { intros u. unfold new. case_bool_decide; set_solver. }
  assert (∀ j u k, (<[i := t']> (threads g) ++ new) !! j = Some u → flying u = Some k →
    (threads g !! j = Some u ∧ is_Some (waiters (flights (sh g)) k)) ∨
    (j = length (threads g) ∧ k = qkey q ∧ waiters (flights (sh g)) (qkey q) = None)) as Hback.
  { intros j u k Hj Hu. pose proof Hj as [[-> ->]|[[? ?]|[Hin Hn]]]%(pool_lookup _ _ _ _ _ _ _ Hi);
      [congruence | eauto |]. right. apply Hnew in Hin as [-> Hq]. simplify_eq/=.
    split_and!; try done. unfold new in Hj. rewrite bool_decide_true in Hj by done.
    apply lookup_lt_Some in Hj. apply lookup_ge_None in Hn. rewrite length_app, length_insert in Hj.
    simpl in Hj. lia. }
  split; simpl.
  - intros j u k Hj Hu. apply Hws. destruct (Hback j u k Hj Hu) as [[_ ?]|(_ & -> & _)]; auto.
  - intros k [->|Hk']%Hws.
    + destruct (waiters (flights (sh g)) (qkey q)) eqn:E.
      * destruct (He (qkey q)) as (j & u & Hj & Hu); [eauto|]. exists j, u. split; [|done].
        apply pool_stays; congruence.
      * exists (length (threads g)), (FlightCall q). split; [|done]. unfold new.
        rewrite bool_decide_true by done. by rewrite lookup_app_r, length_insert, Nat.sub_diag by (rewrite length_insert; lia).
    + destruct (He k Hk') as (j & u & Hj & Hu). exists j, u. split; [|done]. apply pool_stays; congruence.
  - intros j1 j2 u1 u2 k H1 H2 E1 E2.
    destruct (Hback _ _ _ H1 E1) as [[T1 S1]|(-> & -> & N1)], (Hback _ _ _ H2 E2) as [[T2 S2]|(-> & ? & N2)];
      subst; eauto; rewrite ?N1, ?N2 in *; by destruct S1 || destruct S2.
  - intros j u k Hj Hu. rewrite Hfl, doChan_waiters, Hch.
    apply (pool_lookup _ _ _ _ _ _ _ Hi) in Hj as [[-> ->]|[[? Hj]|[[-> _]%Hnew _]]]; [| |done].
    + assert (k = qkey q) as -> by congruence. rewrite bool_decide_true by done. left. eexists. split; [done|]. set_solver.
    + destruct (Ha _ _ _ Hj Hu) as [(ws & Hk' & Hin)|?]; [left|by right].
      case_bool_decide; subst; rewrite ?Hk'; eexists; split; try done; set_solver.
Qed.

Lemma flights_land_step g i t t' s' k r : flightsOk g → threads g !! i = Some t →
  flying t = Some k → flying t' = None → awaits t' = None →
  flights s' = (deliver (flights (sh g)) k).2 →
  chans s' = foldr (λ j m, <[j := r]> m) (chans (sh g)) (deliver (flights (sh g)) k).1 →
  flightsOk (Config s' (<[i := t']> (threads g) ++ [])).
Proof.
  intros [Hk He Ho Ha] Hi Hf Hf' Hw Hfl Hch.
  assert (∀ j u, (<[i := t']> (threads g) ++ []) !! j = Some u →
    (j = i ∧ u = t') ∨ (j ≠ i ∧ threads g !! j = Some u)) as Hback.
  { intros j u Hj. apply (pool_lookup _ _ _ _ _ _ _ Hi) in Hj as [?|[?|[?%elem_of_nil _]]]; naive_solver. }
  split; simpl.
  - intros j u k' [[-> ->]|[Hne Hj]]%Hback Hu; [congruence|].
    rewrite Hfl, deliver_waiters, bool_decide_false; [eauto|]. intros ->. eauto.
  - intros k'. rewrite Hfl, deliver_waiters. case_bool_decide as Hne; [by intros []|].
    intros (j & u & Hj & Hu)%He. exists j, u. split; [|done]. apply pool_stays; congruence.
  - intros j1 j2 u1 u2 k' [[-> ->]|[? ?]]%Hback [[-> ->]|[? ?]]%Hback ??; [congruence|congruence|congruence|eauto].
  - intros j u k' [[-> ->]|[Hne Hj]]%Hback Hu; [congruence|].
    rewrite Hfl, deliver_waiters, Hch, posted_lookup, deliver_calls.
    destruct (Ha _ _ _ Hj Hu) as [(ws & Hk' & Hin)|Hc].
    + case_bool_decide as Hkk; [|left; eauto]. subst. rewrite Hk'. simpl. rewrite bool_decide_true by done. eauto.
    + right. case_bool_decide; eauto.
Qed.

Lemma flightsOk_step g g' : flightsOk g → moved g g' → flightsOk g'.
Proof.
  intros Hok Hm. destruct Hm as [i t ch t' s' new Hi Ht | s' _ _ Hfl Hch _].
  - apply tstep_flight in Ht as [? ? -> ? ? | q ? ? ? -> ? ? | k r ? ? ? -> ? ?].
    + by eapply flights_same_step.
    + by eapply flights_join_step.
    + by eapply flights_land_step.
  - destruct Hok as [Hk He Ho Ha]. split; simpl; rewrite ?Hfl, ?Hch; eauto.
Qed.

Lemma reached_flights g : reached g → flightsOk g.
Proof.
  revert g. apply reached_inv; [|apply flightsOk_step].
  intros g Hg. pose proof Hg as (_ & _ & Hfl & _)%started_fresh.
  assert (∀ i t, threads g !! i = Some t → flying t = None ∧ awaits t = None) as Hn.
  { apply (started_calls (λ t, flying t = None ∧ awaits t = None)); [done|].
    intros t. by destruct t as [| [] | | | | ? [] | | | | | | | |]. }
  split.
  - intros i t k Hi Hf. destruct (Hn _ _ Hi). congruence.
  - intros k. rewrite Hfl, zeroGroup_waiters. by intros [].
  - intros i j t u k Hi _ Hf. destruct (Hn _ _ Hi). congruence.
  - intros i t k Hi Hf. destruct (Hn _ _ Hi). congruence.
Qed.

(** ** Progress *)

(** The key whose stripe a goroutine is about to lock. *)
Definition wants (cap : Z) t : option string :=
  match t with
  | Store _ k _ SLock | Deleting k DLock => if 0 <? cap then Some k else None
  | Getting k GLock | Sweeping _ (WLock k) => Some k
  | _ => None
  end.

Definition enabled s i t : Prop := ∃ ch, is_Some (tstep s i t ch).

(** A [Range] goes on or is over. *)
Lemma range_enabled s (begin seen : gset string) :
  (∃ k, is_Some (visitable s seen k)) ∨ exhausted s begin seen = true.
Proof.
  unfold exhausted. case_bool_decide as Hsub; [by right|left].
  assert (∃ k, k ∈ (begin ∩ dom (data (cache s))) ∖ seen) as (k & Hk).
  { destruct (set_choose_or_empty ((begin ∩ dom (data (cache s))) ∖ seen)) as [?|He]; [done|].
    exfalso. apply Hsub. intros k Hk. destruct (decide (k ∈ seen)); [done|]. set_solver. }
  exists k. unfold visitable. rewrite bool_decide_false by set_solver.
  apply elem_of_dom. set_solver.
Qed.

Lemma evict_enabled s k e : ∃ ch, is_Some (evictStep s k e ch).
Proof.
  destruct e as [| | | | |now by_ begin seen sc| |]; try (exists Just; simpl; eauto; done).
  - destruct (range_enabled s begin seen) as [[k' [it Hv]]|Hx].
    + exists (Visit k'). simpl. rewrite Hv. simpl. destruct (visitBy _ _ _ _ _ _). eauto.
    + exists EndRange. simpl. rewrite Hx. eauto.
  - exists Just. simpl. case_match; eauto.
Qed.

Lemma sweep_enabled s i w : enabled s i (Sweeping w WNext).
Proof.
  destruct (range_enabled s (passStart w) (passSeen w)) as [[k' [it Hv]]|Hx].
  - exists (Visit k'). simpl. rewrite Hv. simpl. eauto.
  - exists EndRange. simpl. rewrite Hx. simpl. eauto.
Qed.

(** A goroutine that is neither idle nor waiting can run. *)
Lemma thread_enabled s i t :
  idle t = false → wants (capacity (cache s)) t = None → awaits t = None → enabled s i t.
Proof.
  intros Hi Hw Ha. destruct t as [|o k it p|k p|k p| |q p|q| |k r| | | |w p|]; try done;
    try (exists Just; simpl; unfold flightNowStep, deliverStep; repeat case_match; simpl; eauto; done).
  - destruct p; try (exists Just; simpl; unfold bounded in *; simpl in Hw; repeat case_match; simplify_eq/=; eauto; done).
    all: destruct (evict_enabled s k e) as [ch [[n s'] He]]; exists ch; simpl; rewrite He; simpl; eauto.
  - destruct p; exists Just; simpl; unfold bounded in *; simpl in Hw; repeat case_match; simplify_eq/=; eauto.
  - destruct p; try done; exists Just; simpl; repeat case_match; simpl; eauto.
  - destruct p; try done; exists Just; simpl; repeat case_match; simpl; eauto.
  - exists (Result (inr Canceled)). simpl. eauto.
  - destruct p; try done; [apply sweep_enabled|..]; exists Just; simpl; repeat case_match; simpl; eauto.
Qed.

(** Inside a stripe nothing blocks. *)
Lemma holder_enabled s i t x : holds (capacity (cache s)) t = Some x → idle t = false ∧ enabled s i t.
Proof.
  intros Hx.
  assert (idle t = false ∧ wants (capacity (cache s)) t = None ∧ awaits t = None) as (? & ? & ?).
  { destruct t as [| ? ? ? [] | ? [] | ? [] | | ? [] | | | | | | | ? [] |]; simpl in *; try done; by destruct (0 <? _). }
  eauto using thread_enabled.
Qed.

Definition runnable g : Prop :=
  ∃ i t, threads g !! i = Some t ∧ idle t = false ∧ enabled (sh g) i t.

(** A goroutine at a lock: it takes it, or the holder can run. *)
Lemma lock_runnable g i t k : exclusive g → threads g !! i = Some t →
  wants (capacity (cache (sh g))) t = Some k → runnable g.
Proof.
  intros [_ Hl] Hi Hw. destruct (locks (sh g) !! getStripe k) as [j|] eqn:E.
  - apply Hl in E as (u & Hj & Hu). destruct (holder_enabled (sh g) j u _ Hu) as [? ?]. by exists j, u.
  - exists i, t. split; [done|].
    destruct t as [| ? ? ? [] | ? [] | ? [] | | | | | | | | | ? [] |]; simpl in *; try done;
      (split; [done|]; exists Just; simpl; unfold acquire, bounded; repeat case_match; simplify_eq/=; eauto).
Qed.

Lemma flight_runnable g i t k : exclusive g → threads g !! i = Some t → flying t = Some k → runnable g.
Proof.
  intros Hx Hi Hf. destruct (wants (capacity (cache (sh g))) t) eqn:Hw; [by eapply lock_runnable|].
  exists i, t. split; [done|].
  assert (idle t = false ∧ awaits t = None) as [? ?] by by destruct t as [| [] | | | | | | | | | | | |].
  eauto using thread_enabled.
Qed.

(** ** Concurrent writers and the capacity *)

(** A goroutine between an entry it removed on its own account ([Delete], an
    expired entry of [Get] or of the sweeper) and the counter. *)
Definition foreign t : bool :=
  match t with Deleting _ DAdd | Getting _ GAdd | Sweeping _ (WAdd _) => true | _ => false end.

(** Nothing but evictions removes an entry, and the clock is before 2262. *)
Definition undisturbed g : Prop :=
  (∀ i t, threads g !! i = Some t → foreign t = false) ∧ UnixNano (time (sh g)) < maxInt64.

Definition dated (it : Item T) : Prop := CreatedAt it < maxInt64.

(** A search has found something as soon as it has visited another key. *)
Definition searched (newKey : string) (e : evictPc) : Prop :=
  match e with
  | ERange _ ByFallback _ seen sc =>
      (found sc ∨ seen ⊆ {[newKey]}) ∧ (oldestKey sc = None → oldestTime sc = maxInt64)
  | _ => True
  end.

Definition tidy t : Prop :=
  match t with
  | Store _ k it p =>
      dated it ∧ match p with SEvictBefore e | SEvictAfter e => searched k e | _ => True end
  | _ => True
  end.

Definition tidyAll g : Prop :=
  map_Forall (λ _ it, dated it) (data (cache (sh g))) ∧ ∀ i t, threads g !! i = Some t → tidy t.

Lemma fallbackVisit_searched k now k' it sc (seen : gset string) : dated it →
  (found sc ∨ seen ⊆ {[k]}) → (oldestKey sc = None → oldestTime sc = maxInt64) →
  let '(sc', continue) := fallbackVisit k now k' it sc in
  (found sc' ∨ (continue = true ∧ {[k']} ∪ seen ⊆ {[k]})) ∧ (oldestKey sc' = None → oldestTime sc' = maxInt64).
Proof.
  intros Hd Hf Ho. unfold fallbackVisit. case_bool_decide as Hk; [set_solver|].
  pose proof (sampleItem_found now k' it sc Hd Ho) as Hf'. unfold sampleItem in *.
  repeat case_match; simplify_eq/=; naive_solver.
Qed.

Lemma visit_searched s k now by_ begin seen sc k' it : map_Forall (λ _ it, dated it) (data (cache s)) →
  searched k (ERange now by_ begin seen sc) → visitable s seen k' = Some it →
  let '(sc', continue) := visitBy by_ k now k' it sc in
  searched k (ERange now by_ begin ({[k']} ∪ seen) sc') ∧ (by_ = ByFallback → continue = false → found sc').
Proof.
  intros Hd He Hv. unfold visitable in Hv. case_bool_decide; [done|]. destruct by_ as [off str|]; simpl.
  - by destruct (sampledVisit _ _ _ _ _ _ _).
  - destruct He as [Hf Ho]. pose proof (fallbackVisit_searched k now k' it sc seen (Hd _ _ Hv) Hf Ho) as Hr.
    destruct (fallbackVisit _ _ _ _ _) as [sc' []]; naive_solver.
Qed.

Lemma searchEnd_searched k now by_ sc e : searchEnd now by_ sc = Some e → searched k e.
Proof. unfold searchEnd. intros. repeat case_match; by simplify_eq/=. Qed.

Lemma evictStep_searched s k e ch next s' : map_Forall (λ _ it, dated it) (data (cache s)) →
  searched k e → evictStep s k e ch = Some (next, s') →
  (∀ e', next = Some e' → searched k e') ∧ map_Forall (λ _ it, dated it) (data (cache s')).
Proof.
  intros Hd He Hs. destruct e as [| | | |now by_|now by_ begin seen sc| |]; simpl in Hs.
  6: { destruct ch as [|k'| | | |]; step_cases; (split; [intros e' Hn|done]); eauto using searchEnd_searched.
       match goal with V : visitable _ _ _ = Some _ |- _ =>
         pose proof (visit_searched _ _ _ _ _ _ _ _ _ Hd He V) as Hr end.
       match goal with W : visitBy _ _ _ _ _ _ = _ |- _ => rewrite W in Hr end.
       case_match; simplify_eq/=; [apply Hr | eauto using searchEnd_searched]. }
  all: step_cases; (split; [intros e' Hn; repeat case_match; simplify_eq/=; try done | try done; by apply map_Forall_delete]).
  destruct by_; simpl; [done|]. split; [right; set_solver|done].
Qed.

Lemma tstep_tidy s i t ch t' s' new : tstep s i t ch = Some (t', s', new) →
  UnixNano (time s) < maxInt64 → map_Forall (λ _ it, dated it) (data (cache s)) → tidy t →
  map_Forall (λ _ it, dated it) (data (cache s')) ∧ tidy t' ∧ ∀ u, u ∈ new → tidy u.
Proof.
  intros Hs Ht Hd Hi. destruct t as [|o k it p|k p|k p| |q p|q| |k r| | | |w p|].
  2: { destruct Hi as [Hit Hp]. simpl in Hs. step_cases. destruct p as [| |e| | | |e|].
       3,7: simpl in *; step_cases; match goal with E : evictStep _ _ _ _ = Some _ |- _ =>
         destruct (evictStep_searched _ _ _ _ _ _ Hd Hp E) as [Hn Hd'] end;
         (split; [done|]); (split; [case_match; simpl; eauto | set_solver]).
       all: simpl in *; unfold acquire in *; step_cases; split_steps;
         split_and!; try done; try (by apply map_Forall_insert_2); set_solver. }
  all: unfold_steps; step_cases; split_steps; split_and!; try done; try (by apply map_Forall_delete); set_solver.
Qed.

(** The keys a search may end with. *)
Definition chosen (sc : scan) (k : string) : Prop := expiredKey sc = Some k ∨ oldestKey sc = Some k.

(** A goroutine between [Swap] of a new key and [size.Add(1)]. *)
Definition adding (k : string) t : Prop := ∃ o it, t = Store o k it SAdd.

(** An eviction that is bound to remove an entry unless another one does: no
    key it knows of is gone, and the keys it does not know are being added. *)
Definition sound g (e : evictPc) : Prop :=
  let d : gset string := dom (data (cache (sh g))) in
  match e with
  | ERange _ _ begin _ sc =>
      begin ⊆ d ∧ (∀ k, chosen sc k → k ∈ d) ∧
      ∀ k, k ∈ d → k ∉ begin → ∃ j u, threads g !! j = Some u ∧ adding k u
  | EDelete k => k ∈ d
  | _ => True
  end.

(** A writer that is going to compare the counter with the capacity again. *)
Definition answerable g t : Prop :=
  match t with
  | Store _ _ _ SUnlock => False
  | Store _ _ _ (SEvictAfter e) => sound g e
  | Store _ _ _ _ => True
  | _ => False
  end.

Definition settling g : Prop :=
  0 < capacity (cache (sh g)) < size_ (cache (sh g)) →
  ∃ i t, threads g !! i = Some t ∧ answerable g t.

Lemma visitBy_chosen by_ k now k' (it : Item T) sc k'' :
  chosen (visitBy by_ k now k' it sc).1 k'' → k'' = k' ∨ chosen sc k''.
Proof.
  unfold chosen, visitBy, sampledVisit, fallbackVisit, sampleItem. intros Hc.
  repeat (case_match; simplify_eq/=); naive_solver.
Qed.

(** A nil candidate: every entry of another key is being added, or there is
    none. *)
Lemma no_candidate g k now by_ begin seen sc s' ch :
  tidyAll g → sound g (ERange now by_ begin seen sc) → searched k (ERange now by_ begin seen sc) →
  evictStep (sh g) k (ERange now by_ begin seen sc) ch = Some (None, s') →
  ∀ k', k' ∈ dom (data (cache (sh g))) → k' = k ∨ ∃ j u, threads g !! j = Some u ∧ adding k' u.
Proof.
  intros [Hd _] (Hb & _ & Hnew) Hse Hs k' Hk'. destruct (decide (k' ∈ begin)) as [Hin|Hnin]; [|eauto].
  left. simpl in Hs. destruct ch; step_cases; unfold searchEnd in *.
  - match goal with V : visitable _ _ _ = Some _ |- _ =>
      pose proof (visit_searched _ _ _ _ _ _ _ _ _ Hd Hse V) as Hr end.
    match goal with W : visitBy _ _ _ _ _ _ = _ |- _ => rewrite W in Hr end.
    destruct Hr as [_ Hf]. repeat case_match; simplify_eq/=.
    destruct (Hf eq_refl eq_refl) as [[]|[]]; congruence.
  - repeat case_match; simplify_eq/=. destruct Hse as [[[[]|[]]|Hsub] _]; try congruence.
    unfold exhausted in *. bool_to_prop. set_solver.
Qed.

(** The positions of a writer that do not depend on the other goroutines. *)
Definition loud t : bool :=
  match t with
  | Store _ _ _ (SUnlock | SEvictAfter (ENow | ESize _ | EOffset _ _ | EStart _ _ | ERange _ _ _ _ _ | EDelete _)) => false
  | Store _ _ _ _ => true
  | _ => false
  end.

Lemma loud_answerable g t : loud t = true → answerable g t.
Proof. by destruct t as [|? ? ? [| | | | | |[]|]| | | | | | | | | | | |]. Qed.

(** A step leaves its goroutine at such a position, or changes no entry and
    adds nothing to the counter. *)
Lemma tstep_quiet s i t ch t' s' new : tstep s i t ch = Some (t', s', new) →
  0 < capacity (cache s) → foreign t' = false →
  loud t' = true ∨
  (data (cache s') = data (cache s) ∧ size_ (cache s') <= size_ (cache s) ∧ ∀ k, ¬ adding k t).
Proof.
  intros Hs Hc Hf. assert (bounded s = true) as Hb by (unfold bounded; by apply Z.ltb_lt).
  assert ((capacity (cache s) <=? 0) = false) as Hb' by by apply Z.leb_gt.
  destruct t; unfold_steps; rewrite ?Hb in *; step_cases; simpl in *; unfold enterEvict in *; rewrite ?Hb' in *;
    try (by left); try (right; split_and!; [done|simpl; lia|intros k' (? & ? & ?); congruence]);
    repeat case_match; simplify_eq/=; try (by left); try done;
    right; (split_and!; [done|simpl; lia|intros k' (? & ? & ?); congruence]).
Qed.

(** What the other goroutines are keeps. *)
Lemma sound_other g i t t' s' new e : threads g !! i = Some t → (∀ k, ¬ adding k t) →
  data (cache s') = data (cache (sh g)) → sound g e → sound (Config s' (<[i := t']> (threads g) ++ new)) e.
Proof.
  intros Hi Ha Hd. destruct e; simpl; rewrite ?Hd; try done. intros (? & ? & Hnew). split_and!; try done.
  intros k Hk Hb. destruct (Hnew k Hk Hb) as (j & u & Hj & Hu). exists j, u. split; [|done].
  apply pool_stays; [done|]. intros ->. simplify_eq. naive_solver.
Qed.

Lemma answerable_other g i t t' s' new j u : threads g !! i = Some t → (∀ k, ¬ adding k t) →
  data (cache s') = data (cache (sh g)) → threads g !! j = Some u → j ≠ i → answerable g u →
  ∃ j u, (<[i := t']> (threads g) ++ new) !! j = Some u ∧
    answerable (Config s' (<[i := t']> (threads g) ++ new)) u.
Proof.
  intros Hi Ha Hd Hj Hne Hu. exists j, u. split; [by apply pool_stays|].
  destruct u as [|? ? ? [| | | | | |e|]| | | | | | | | | | | |]; try done. by eapply sound_other.
Qed.

(** While the counter is too large and nothing is in the way, somebody is
    still going to look at it. *)
Lemma debtor_answerable g : undisturbed g → total owes (threads g) < 0 →
  ∃ j u, threads g !! j = Some u ∧ loud u = true.
Proof.
  intros [Hf _] Ht. destruct (total_pos (λ t, - owes t) (threads g)) as (j & u & Hj & Hu).
  { rewrite total_opp. lia. }
  exists j, u. split; [done|]. specialize (Hf _ _ Hj).
  destruct u as [|? ? ? [| |[]| | | |[]|]|? []|? []| | | | | | | | |? []|]; simpl in *; done || lia.
Qed.

Lemma dom_single (d : gmap string (Item T)) k : (∀ k', k' ∈ dom d → k' = k) → (size d <= 1)%nat.
Proof.
  intros Hk. rewrite <- size_dom. etrans; [apply (subseteq_size _ {[k]}); set_solver|]. by rewrite size_singleton.
Qed.

Lemma nil_answerable g k now by_ begin seen sc s' ch :
  accounted g → undisturbed g → tidyAll g → 0 < capacity (cache (sh g)) < size_ (cache (sh g)) →
  sound g (ERange now by_ begin seen sc) → searched k (ERange now by_ begin seen sc) →
  evictStep (sh g) k (ERange now by_ begin seen sc) ch = Some (None, s') →
  ∃ j u, threads g !! j = Some u ∧ loud u = true.
Proof.
  intros Hacc Hun Htd Hc Hso Hse Hs. pose proof (no_candidate _ _ _ _ _ _ _ _ _ Htd Hso Hse Hs) as Hk.
  destruct (set_choose_or_empty (dom (data (cache (sh g))) ∖ {[k]})) as [(k' & Hin)|Hall].
  - destruct (Hk k' ltac:(set_solver)) as [?|(j & u & Hj & o & it & ->)]; [set_solver|]. by exists j, (Store o k' it SAdd).
  - apply debtor_answerable; [done|]. unfold accounted, entries in Hacc.
    enough (size (data (cache (sh g))) <= 1)%nat by lia. apply (dom_single _ k).
    intros k' Hk'. destruct (decide (k' = k)); [done|]. set_solver.
Qed.

(** The eviction of a writer that answers for the counter. *)
Lemma evict_settles g i o k it e ch next s' :
  accounted g → undisturbed g → tidyAll g → 0 < capacity (cache (sh g)) < size_ (cache (sh g)) →
  threads g !! i = Some (Store o k it (SEvictAfter e)) → sound g e → searched k e →
  evictStep (sh g) k e ch = Some (next, s') → data (cache s') = data (cache (sh g)) →
  (∃ e', next = Some e' ∧ sound g e') ∨ ∃ j u, threads g !! j = Some u ∧ j ≠ i ∧ answerable g u.
Proof.
  intros Hacc Hun Htd Hc Hi Hso Hse Hs Hd. destruct e as [| | | | |now by_ begin seen sc|k'|].
  6: { destruct next as [e'|].
       2: { destruct (nil_answerable _ _ _ _ _ _ _ _ _ Hacc Hun Htd Hc Hso Hse Hs) as (j & u & Hj & Hu).
            right. exists j, u. split_and!; [done| |by apply loud_answerable]. intros ->. by simplify_eq. }
       left. exists e'. split; [done|]. destruct Hso as (Hb & Hch & Hnew).
       assert (∀ sc' e', (∀ k, chosen sc' k → k ∈ dom (data (cache (sh g)))) →
         searchEnd now by_ sc' = Some e' → sound g e') as Hend.
       { intros sc' e'' Hc' He. unfold searchEnd, chosen in *. repeat case_match; simplify_eq/=; naive_solver. }
       assert (∀ k' it' sc' b, visitable (sh g) seen k' = Some it' → visitBy by_ k now k' it' sc = (sc', b) →
         ∀ k0, chosen sc' k0 → k0 ∈ dom (data (cache (sh g)))) as Hin.
       { intros k' it' sc' b Hv Hw k0 Hk0. pose proof (visitBy_chosen by_ k now k' it' sc k0) as Hcs.
         rewrite Hw in Hcs. unfold visitable in Hv. case_match; [done|].
         destruct (Hcs Hk0) as [->|?]; [by eapply elem_of_dom_2 | by eauto]. }
       simpl in Hs. destruct ch as [|k'| | | |]; step_cases; eauto. simpl. eauto. }
  6: { simpl in Hs, Hso. apply elem_of_dom in Hso as [it' Hit']. rewrite Hit' in Hs. step_cases.
       simpl in Hd. rewrite <- Hd in Hit'. by rewrite lookup_delete_eq in Hit'. }
  1: { left. exists ENow. simpl in Hs. rewrite (proj2 (Z.leb_le _ _)) in Hs by lia. by step_cases. }
  all: left; simpl in Hs; step_cases; eexists; (split; [done|]); try done.
  split_and!; [done | by intros ? [] | done].
Qed.

(** A step of the writer that answers for the counter. *)
Lemma own_settles g i t ch t' s' new :
  accounted g → undisturbed g → tidyAll g → 0 < capacity (cache (sh g)) < size_ (cache (sh g)) →
  threads g !! i = Some t → answerable g t → tstep (sh g) i t ch = Some (t', s', new) →
  data (cache s') = data (cache (sh g)) → loud t' = false →
  (∃ o k it e, t' = Store o k it (SEvictAfter e) ∧ sound g e) ∨
  ∃ j u, threads g !! j = Some u ∧ j ≠ i ∧ answerable g u.
Proof.
  intros Hacc Hun Htd Hc Hi Ha Hs Hd Hl.
  assert (bounded (sh g) = true) as Hb by (unfold bounded; apply Z.ltb_lt; lia).
  assert (enterEvict (sh g) = Some ECheck) as He by (unfold enterEvict; rewrite (proj2 (Z.leb_gt _ _)); [done|lia]).
  destruct t as [|o k it p| | | | | | | | | | | |]; try done.
  destruct p as [| |e| | | |e|]; try done; simpl in Hs; unfold storeStep in Hs; rewrite ?Hb, ?He in Hs; step_cases;
    try (by repeat case_match; simplify_eq/=).
  - rewrite (proj2 (Z.ltb_lt _ _)) in Hl by lia. done.
  - pose proof (proj2 Htd _ _ Hi) as [_ Hse].
    match goal with E : evictStep _ _ _ _ = Some _ |- _ =>
      destruct (evict_settles g i o k it e ch _ _ Hacc Hun Htd Hc Hi Ha Hse E Hd) as [(e' & -> & He')|?] end;
      [left; by exists o, k, it, e' | by right].
Qed.

Lemma settling_run g i t ch t' s' new :
  settling g → accounted g → undisturbed g → tidyAll g →
  threads g !! i = Some t → tstep (sh g) i t ch = Some (t', s', new) → foreign t' = false →
  settling (Config s' (<[i := t']> (threads g) ++ new)).
Proof.
  intros Hset Hacc Hun Htd Hi Hs Hf [Hc Hlt]. simpl in *.
  rewrite (tstep_capacity _ _ _ _ _ _ _ Hs) in *.
  destruct (loud t') eqn:El.
  { exists i, t'. split; [by eapply pool_moved|by apply loud_answerable]. }
  destruct (tstep_quiet _ _ _ _ _ _ _ Hs Hc Hf) as [?|(Hd & Hsz & Hna)]; [congruence|].
  assert (0 < capacity (cache (sh g)) < size_ (cache (sh g))) as Hc' by lia.
  destruct (Hset Hc') as (j & u & Hj & Hu). destruct (decide (j = i)) as [->|Hne].
  2: by eapply answerable_other.
  simplify_eq.
  destruct (own_settles _ _ _ _ _ _ _ Hacc Hun Htd Hc' Hi Hu Hs Hd El) as [(o & k & it & e & -> & He)|(j & v & ? & ? & ?)].
  - exists i, (Store o k it (SEvictAfter e)). split; [by eapply pool_moved|]. by eapply (sound_other g i t).
  - by eapply answerable_other.
Qed.

(** Runs in which nothing but evictions removes entries. *)
Definition writersOnly g g' : Prop := sstep g g' ∧ undisturbed g'.

Record tended g : Prop := {
  tended_accounted : accounted g;
  tended_tidy : tidyAll g;
  tended_settling : settling g;
  tended_undisturbed : undisturbed g;
}.

Lemma tidyAll_step g g' : UnixNano (time (sh g)) < maxInt64 → tidyAll g → moved g g' → tidyAll g'.
Proof.
  intros Hn [Hd Ht] Hm. destruct Hm as [i t ch t' s' new Hi Hs | s' Hc].
  - destruct (tstep_tidy _ _ _ _ _ _ _ Hs Hn Hd (Ht _ _ Hi)) as (Hd' & Ht' & Hnew). split; [done|].
    intros j u Hj. apply (pool_lookup _ _ _ _ _ _ _ Hi) in Hj. naive_solver.
  - unfold tidyAll. simpl. by rewrite Hc.
Qed.

Lemma settling_step g g' : tended g → undisturbed g' → moved g g' → settling g'.
Proof.
  intros [Hacc Htd Hset Hun] [Hf' _] Hm. destruct Hm as [i t ch t' s' new Hi Hs | s' Hc].
  - eapply settling_run; try done. by apply (Hf' i), (pool_moved _ _ _ _ _ Hi).
  - intros Hlt. simpl in Hlt. rewrite Hc in Hlt. destruct (Hset Hlt) as (j & u & Hj & Hu). exists j, u.
    split; [done|]. destruct u as [|? ? ? [| | | | | |e|]| | | | | | | | | | | |]; try done.
    simpl in *. destruct e; simpl in *; by rewrite ?Hc.
Qed.

Lemma tended_step g g' : tended g → writersOnly g g' → tended g'.
Proof.
  intros Ht [Hs%sstep_moved Hun']. pose proof Ht as [Hacc Htd Hset Hun].
  split; eauto using accounted_step, settling_step. eapply tidyAll_step; [apply Hun|done|done].
Qed.

Lemma tended_run g g' : tended g → rtc writersOnly g g' → tended g'.
Proof. intros Ht Hr. induction Hr as [|g1 g2 g3 H12 _ IH]; eauto using tended_step. Qed.

Lemma tended_start g : started g → undisturbed g → tended g.
Proof.
  intros Hg Hun. split; [by apply accounted_start | | | done].
  - pose proof Hg as (Hc & _)%started_fresh. split; [rewrite Hc; apply map_Forall_empty|].
    apply (started_calls tidy); [done|]. intros t. by destruct t as [| | ? [] | ? [] | | ? [] | | | | | | | |].
  - pose proof Hg as (Hc & _)%started_fresh. unfold settling. rewrite Hc. simpl. lia.
Qed.

Lemma idle_silent g : (∀ i t, threads g !! i = Some t → CacheThreads.idle t = true) →
  total owes (threads g) = 0 ∧ ∀ i t, threads g !! i = Some t → ¬ answerable g t.
Proof.
  intros Hi. split.
  - apply total_zero. intros t (i & Ht)%list_elem_of_lookup. specialize (Hi _ _ Ht). by destruct t.
  - intros i t Ht. specialize (Hi _ _ Ht). destruct t; try done; by intros [].
Qed.

(** ** Clean-up *)

(** What a goroutine that is about to remove an expired entry relies on: the
    entry is the one it has looked at, or gone, and its reading of the clock was
    made since [lo], the start of the run. *)
Definition guarded (lo : Time) s t : Prop :=
  match t with
  | Getting k (GRecheck it) => ∀ it', data (cache s) !! k = Some it' → it' = it
  | Getting k (GDelete now) =>
      lo <= now <= time s ∧ ∀ it, data (cache s) !! k = Some it → expired (Expiration it) now = true
  | SweepStart now => lo <= now <= time s
  | Sweeping w (WDelete k) =>
      lo <= passNow w <= time s ∧ ∀ it, data (cache s) !! k = Some it → expired (Expiration it) (passNow w) = true
  | Sweeping w _ => lo <= passNow w <= time s
  | _ => True
  end.

(** The key a goroutine is about to store. *)
Definition swapping t : option string := match t with Store _ k _ SSwap => Some k | _ => None end.

(** The key whose entry a goroutine has looked at. *)
Definition guards t : option string :=
  match t with
  | Getting k (GRecheck _ | GDelete _) | Sweeping _ (WDelete k) => Some k
  | _ => None
  end.

Lemma tstep_time s i t ch t' s' new : tstep s i t ch = Some (t', s', new) → time s' = time s.
Proof. intros Hs. destruct t; unfold_steps; step_cases; done. Qed.

(** Only [Swap] of a key changes or adds its entry. *)
Lemma tstep_entries s i t ch t' s' new k it : tstep s i t ch = Some (t', s', new) →
  swapping t ≠ Some k → data (cache s') !! k = Some it → data (cache s) !! k = Some it.
Proof.
  intros Hs Hw. destruct t; unfold_steps; step_cases; simpl in *; try done;
    first [intros [? ?]%lookup_delete_Some; done | rewrite lookup_insert_ne by congruence; done].
Qed.

Lemma guarded_kept lo s s' t : guarded lo s t → time s <= time s' →
  (∀ k it, guards t = Some k → data (cache s') !! k = Some it → data (cache s) !! k = Some it) → guarded lo s' t.
Proof.
  intros Hg Ht Hd. destruct t as [| | |k [| | | | | | |]| | | | | | | |now|w []|]; simpl in *; try done; try lia.
  - intros it' Hit'. by eapply Hg, Hd.
  - destruct Hg as [? Hg]. split; [lia|]. intros it' Hit'. by eapply Hg, Hd.
  - destruct Hg as [? Hg]. split; [lia|]. intros it' Hit'. by eapply Hg, Hd.
Qed.

Lemma tstep_guarded lo s i t ch t' s' new : tstep s i t ch = Some (t', s', new) → lo <= time s → guarded lo s t →
  guarded lo s' t' ∧ ∀ u, u ∈ new → guarded lo s' u.
Proof.
  intros Hs. destruct t; unfold_steps; step_cases; split_steps; try only_new.
  all: intros Hlo Hg; (split; [try done; try (split; [simpl; lia|]); naive_solver | by intros ? ?%elem_of_nil]).
Qed.

Definition guardedAll lo g : Prop := lo <= time (sh g) ∧ ∀ i t, threads g !! i = Some t → guarded lo (sh g) t.

(** The stripe keeps writers of the key away from whoever has looked at it. *)
Lemma stripe_excludes g i j t u k : exclusive g → 0 < capacity (cache (sh g)) →
  threads g !! i = Some t → threads g !! j = Some u → swapping t = Some k → guards u = Some k → i = j.
Proof.
  intros [_ Hl] Hc Hi Hj Ht Hu.
  assert (locks (sh g) !! getStripe k = Some i) as Hx.
  { apply Hl. exists t. split; [done|]. destruct t as [|? ? ? []| | | | | | | | | | | |]; simplify_eq/=.
    by rewrite (proj2 (Z.ltb_lt _ _) Hc). }
  assert (locks (sh g) !! getStripe k = Some j) as Hy.
  { apply Hl. exists u. split; [done|]. by destruct u as [| | |? []| | | | | | | | |? []|]; simplify_eq/=. }
  congruence.
Qed.

Lemma guardedAll_step lo g g' : exclusive g → 0 < capacity (cache (sh g)) →
  guardedAll lo g → moved g g' → guardedAll lo g'.
Proof.
  intros Hx Hc [Hlo Hg] Hm. split.
  { destruct Hm as [i t ch t' s' new Hi Hs | s' Hca _ _ _ Ht]; simpl; [|lia]. by rewrite (tstep_time _ _ _ _ _ _ _ Hs). }
  intros j u Hj. destruct Hm as [i t ch t' s' new Hi Hs | s' Hca _ _ _ Ht]; simpl in *.
  - destruct (tstep_guarded lo _ _ _ _ _ _ _ Hs Hlo (Hg _ _ Hi)) as [Ht' Hn].
    apply (pool_lookup _ _ _ _ _ _ _ Hi) in Hj as [[-> ->]|[[Hne Hj]|[Hin _]]]; [done| |by apply Hn].
    apply (guarded_kept lo (sh g)); [by eauto| |].
    + by rewrite (tstep_time _ _ _ _ _ _ _ Hs).
    + intros k it Hu. eapply tstep_entries; [done|]. intros Ht. by eapply Hne, eq_sym, stripe_excludes.
  - apply (guarded_kept lo (sh g)); [by eauto|done|]. intros k it _. by rewrite Hca.
Qed.

Lemma moved_capacity g g' : moved g g' → capacity (cache (sh g')) = capacity (cache (sh g)).
Proof. intros [i t ch t' s' new Hi Hs | s' Hc]; simpl; [by eapply tstep_capacity|by rewrite Hc]. Qed.

Lemma reached_guarded g0 g : started g0 → rtc sstep g0 g → 0 < capacity (cache (sh g)) →
  guardedAll (time (sh g0)) g.
Proof.
  intros Hg Hr. set (lo := time (sh g0)).
  enough (exclusive g ∧ (0 < capacity (cache (sh g)) → guardedAll lo g)) by tauto.
  assert (exclusive g0 ∧ (0 < capacity (cache (sh g0)) → guardedAll lo g0)) as Hi0.
  { split; [by apply reached_exclusive; exists g0; split; [|constructor]|]. intros _. split; [done|].
    intros i t Hi. revert i t Hi. apply (started_calls (guarded lo (sh g0))); [done|].
    intros t. by destruct t as [| | |? []| | | | | | | | | |]. }
  clearbody lo. clear Hg. revert Hi0. induction Hr as [|g1 g2 g3 Hs%sstep_moved _ IH]; [done|].
  intros [Hx Hg1]. apply IH. split; [by eapply exclusive_step|].
  rewrite (moved_capacity _ _ Hs). intros Hc'. eapply guardedAll_step; eauto.
Qed.

(** A reading between 1970 and 2262 after which an entry is expired leaves it
    expired later on. *)
Lemma expired_later e now later : unixEpoch <= now → now <= later → later <= unixEpoch + maxInt64 →
  expired e now = true → expired e later = true.
Proof.
  intros H1 H2 H3. unfold expired, UnixNano. rewrite !wrap64_id by (unfold in_int64, minInt64, maxInt64 in *; lia).
  intros He. bool_to_prop. by rewrite (proj2 (Z.ltb_lt _ _)), (proj2 (Z.leb_le _ _)) by lia.
Qed.

(** The key a goroutine is about to evict or delete. *)
Definition removes t : option string :=
  match t with
  | Store _ _ _ (SEvictBefore (EDelete k)) | Store _ _ _ (SEvictAfter (EDelete k)) | Deleting k DDelete => Some k
  | _ => None
  end.

Lemma tstep_removes s i t ch t' s' new k it : tstep s i t ch = Some (t', s', new) →
  data (cache s) !! k = Some it → data (cache s') !! k = None →
  removes t = Some k ∨ (∃ now, t = Getting k (GDelete now)) ∨ ∃ w, t = Sweeping w (WDelete k).
Proof.
  intros Hs Hit Hn. destruct t; unfold_steps; step_cases; simpl in *; try congruence;
    try (apply lookup_delete_None in Hn as [?|?]; [|congruence]; subst; by eauto).
  all: by apply lookup_insert_None in Hn as [? ?]; congruence.
Qed.

(** ** Theorems *)

(** C4: in every interleaving of [Set], [Get], [Delete], [GetOrFetch], their
    evictions and the sweeper, the size counter and what the goroutines have
    still to add to it make the number of entries; when none is under way,
    [Len] is exact. *)
Theorem conc_len g : reached g →
  size_ (cache (sh g)) + total owes (threads g) = entries (cache (sh g)) ∧
  ((∀ i t, threads g !! i = Some t → CacheThreads.idle t = true) → Len (cache (sh g)) = entries (cache (sh g))).
Proof.
  intros Hr%reached_accounted. split; [done|]. intros [Hz _]%idle_silent. unfold accounted in Hr.
  unfold Len, entries in *. case_match; bool_to_prop; lia.
Qed.

(** C5: however many goroutines store concurrently, evicting each other's
    entries under different stripes, once they have returned the cache is
    within its capacity, as long as evictions were the only removals. *)
Theorem conc_capacity g0 g : started g0 → undisturbed g0 → rtc writersOnly g0 g →
  0 < capacity (cache (sh g)) → (∀ i t, threads g !! i = Some t → CacheThreads.idle t = true) →
  entries (cache (sh g)) <= capacity (cache (sh g)).
Proof.
  intros Hs Hu Hr Hc [Hz Hn]%idle_silent.
  pose proof (tended_run _ _ (tended_start _ Hs Hu) Hr) as [Hacc _ Hset _].
  unfold accounted in Hacc. destruct (Z_lt_le_dec (capacity (cache (sh g))) (size_ (cache (sh g)))); [|lia].
  destruct Hset as (i & t & Hi & Ha); [done|]. exfalso. by eapply Hn.
Qed.

(** At most one fetch of a key is in flight, from the call of [fetchFn] to
    the delivery of its result; and the delivery reaches every call that is
    waiting for the key without a result. *)
Lemma conc_flights g : reached g →
  (∀ i j t u k, threads g !! i = Some t → threads g !! j = Some u →
     flying t = Some k → flying u = Some k → i = j) ∧
  ∀ i k r ch g', threads g !! i = Some (FlightDeliver k r) → act (Run i ch) g = Some g' →
    ∀ j q, threads g !! j = Some (Fetching q FWait) → qkey q = k → chans (sh g) !! j = None →
    chans (sh g') !! j = Some r.
Proof.
  intros [_ _ Ho Ha]%reached_flights. split; [done|].
  intros i k r ch g' Hi Hact j q Hj <- Hn. simpl in Hact. rewrite Hi in Hact. simpl in Hact.
  unfold deliverStep in Hact. pose proof (deliver_calls (flights (sh g)) (qkey q)) as Hd.
  destruct (deliver (flights (sh g)) (qkey q)) as [ws fl]. simplify_eq/=.
  destruct (Ha _ _ (qkey q) Hj eq_refl) as [(ws & Hws & Hin)|[? ?]]; [|congruence].
  by rewrite posted_lookup, Hws, bool_decide_true.
Qed.

(** C7: no interleaving deadlocks: while a call is under way, some goroutine
    other than the waiting sweeper can take a step. *)
Theorem conc_progress g i t : reached g → threads g !! i = Some t → CacheThreads.idle t = false →
  ∃ j u ch g', threads g !! j = Some u ∧ CacheThreads.idle u = false ∧ act (Run j ch) g = Some g'.
Proof.
  intros Hr Hi Hid. pose proof (reached_exclusive _ Hr) as Hx. pose proof (reached_flights _ Hr) as Hf.
  enough (runnable g) as (j & u & Hj & Hu & ch & [[[u' s'] new] Hs]).
  { eexists j, u, ch, _. split_and!; [done|done|]. simpl. rewrite Hj. simpl. by rewrite Hs. }
  destruct (wants (capacity (cache (sh g))) t) as [k|] eqn:Hw; [by eapply lock_runnable|].
  destruct (awaits t) as [k|] eqn:Ha; [|exists i, t; eauto using thread_enabled].
  destruct (flight_awaited _ Hf _ _ _ Hi Ha) as [(ws & Hws & _)|[r Hch]].
  - destruct (flight_exists _ Hf k) as (j & u & Hj & Hu); [by eauto|]. by eapply flight_runnable.
  - exists i, t. split_and!; [done..|]. exists PickChan.
    destruct t as [| | | | |q []| | | | | | | |]; try done. simpl. rewrite Hch. simpl. eauto.
Qed.

(** C6: in a bounded cache, with the clock between 1970 and 2262, an entry
    disappears only by a goroutine that is evicting or deleting its key, or when
    it has expired: the clean-up in [Get] and in the sweeper never takes a live
    entry, one stored after they had looked at the key included. *)
Theorem conc_cleanup g0 g a g' k it : started g0 → rtc sstep g0 g → 0 < capacity (cache (sh g)) →
  unixEpoch <= time (sh g0) → time (sh g) <= unixEpoch + maxInt64 → act a g = Some g' →
  data (cache (sh g)) !! k = Some it → data (cache (sh g')) !! k = None →
  ∃ i ch t, a = Run i ch ∧ threads g !! i = Some t ∧
    (removes t = Some k ∨ expired (Expiration it) (time (sh g)) = true).
Proof.
  intros H0 Hr Hc Hlo Hhi Ha Hit Hn. destruct (reached_guarded _ _ H0 Hr Hc) as [_ Hg].
  destruct a as [i ch|d|x e|]; simpl in Ha; [|step_cases; simpl in *; congruence..].
  destruct (threads g !! i) as [t|] eqn:Hi; [|done]. simpl in Ha.
  destruct (tstep (sh g) i t ch) as [[[t' s'] new]|] eqn:Hs; [|done]. simplify_eq/=.
  exists i, ch, t. split_and!; [done|done|].
  destruct (tstep_removes _ _ _ _ _ _ _ _ _ Hs Hit Hn) as [?|[(now & ->)|(w & ->)]]; [by left|right..];
    destruct (Hg _ _ Hi) as [Ht He]; (eapply expired_later; [| | |by apply He]); lia.
Qed.
End races.

(** ** Concrete runs *)

(** The flights as a map from keys to the calls waiting for them. *)
Definition mapDoChan (g : gmap string (list nat)) (k : string) (i : nat) : bool * gmap string (list nat) :=
  (bool_decide (g !! k = None), <[k := default [] (g !! k) ++ [i]]> g).
Definition mapDeliver (g : gmap string (list nat)) (k : string) : list nat * gmap string (list nat) :=
  (default [] (g !! k), delete k g).

Lemma mapDoChan_waiters g k i k' :
  (mapDoChan g k i).2 !! k' = if bool_decide (k' = k) then Some (default [] (g !! k) ++ [i]) else g !! k'.
Proof. simpl. rewrite lookup_insert. repeat case_decide; case_bool_decide; by subst. Qed.

Lemma mapDeliver_waiters g k k' :
  (mapDeliver g k).2 !! k' = if bool_decide (k' = k) then None else g !! k'.
Proof. simpl. rewrite lookup_delete. repeat case_decide; case_bool_decide; by subst. Qed.

#[export] Instance mapFlight : SingleFlight := {|
  Group := gmap string (list nat); zeroGroup := ∅; waiters g k := g !! k;
  doChan := mapDoChan; deliver := mapDeliver; zeroGroup_waiters k := lookup_empty k;
  doChan_starts _ _ _ := eq_refl; doChan_waiters := mapDoChan_waiters;
  deliver_calls _ _ := eq_refl; deliver_waiters := mapDeliver_waiters;
|}.

Definition jan2024 : Time := unixEpoch + 1704067200 * Second.

(** [Just] steps of a goroutine. *)
Definition go (i n : nat) : list (@action Z) := replicate n (Run i Just).

Lemma execute_rtc l (g g' : config Z) : execute l g = Some g' → rtc sstep g g'.
Proof.
  revert g. induction l as [|a l IH]; intros g Hx; simplify_eq/=; [constructor|].
  apply bind_Some in Hx as (g1 & Ha & Hl). eapply rtc_l; [by exists a | by apply IH].
Qed.

(** A run whose states are all undisturbed. *)
Definition calm (g : config Z) : bool :=
  forallb (λ t, negb (foreign t)) (threads g) && (UnixNano (time (sh g)) <? maxInt64).

Fixpoint executeCalm (l : list action) (g : config Z) : option (config Z) :=
  match l with
  | [] => Some g
  | a :: l' => g' ← act a g; if calm g' then executeCalm l' g' else None
  end.

Lemma calm_undisturbed g : calm g = true → undisturbed g.
Proof.
  unfold calm, undisturbed. intros Hc. bool_to_prop. split; [|done]. intros i t Ht%list_elem_of_lookup_2.
  apply negb_true_iff. rewrite forallb_forall in H. by apply H, list_elem_of_In.
Qed.

Lemma executeCalm_rtc l (g g' : config Z) : executeCalm l g = Some g' → rtc writersOnly g g'.
Proof.
  revert g. induction l as [|a l IH]; intros g Hx; simplify_eq/=; [constructor|].
  apply bind_Some in Hx as (g1 & Ha & Hl). destruct (calm g1) eqn:Hc; [|done].
  eapply rtc_l; [split; [by exists a | by apply calm_undisturbed] | by apply IH].
Qed.

(** The outcome of a run. *)
Definition final (o : option (config Z)) : option (list (thread Z) * list (string * Z) * Z) :=
  g ← o; Some (threads g, prod_map id Value <$> map_to_list (data (cache (sh g))), size_ (cache (sh g))).

(** One round of an eviction up to the choice of the victim: the keys visited,
    with the clock standing still the first one is the oldest. *)
Definition searchRound (i : nat) (ks : list string) : list (@action Z) :=
  go i 5 ++ ((λ k, Run i (Visit k)) <$> ks) ++ [Run i EndRange].

Definition threeWriters : config Z :=
  start 2 jan2024 [SetNow "a" 1 []; SetNow "b" 2 []; SetNow "c" 3 []].
Definition threeWritersRun : list (@action Z) :=
  go 0 4 ++ go 1 4 ++ go 2 4 ++ go 0 2 ++ go 1 2 ++ go 2 2 ++ go 0 1 ++ searchRound 0 ["a"; "b"; "c"] ++ go 0 2 ++
  searchRound 0 ["a"; "c"] ++ go 0 4 ++ go 1 2 ++ go 2 2.
Definition stolenVictims : list (@action Z) :=
  go 0 4 ++ go 1 4 ++ go 2 4 ++ go 3 4 ++ go 0 2 ++ go 1 2 ++ go 2 2 ++ go 3 2 ++
  go 0 1 ++ go 1 1 ++ go 2 1 ++ go 3 1 ++
  searchRound 0 ["c"; "a"; "b"; "d"] ++ searchRound 1 ["c"; "a"; "b"; "d"] ++ searchRound 3 ["c"; "a"; "b"; "d"] ++
  searchRound 2 ["d"; "a"; "b"; "c"] ++ go 0 2 ++ go 1 2 ++ go 3 2 ++
  searchRound 0 ["d"; "a"; "b"] ++ go 4 4 ++ go 0 2 ++ go 2 2.

Definition ran (l : list action) (g : config Z) : config Z := default g (execute l g).

Lemma calls_started cap now (calls : list (thread Z)) : forallb fresh_call calls = true → started (start cap now calls).
Proof.
  intros Hc. exists cap, now, calls. split; [done|].
  by apply Forall_forall; intros t Ht; apply (proj1 (forallb_forall _ _) Hc), list_elem_of_In.
Qed.

Lemma ran_steps l g : bool_decide (is_Some (execute l g)) = true → rtc sstep g (ran l g).
Proof. intros [g' Hg]%bool_decide_eq_true. unfold ran. rewrite Hg. by eapply execute_rtc. Qed.

Lemma ran_reached l cap now calls :
  forallb fresh_call calls = true → bool_decide (is_Some (execute l (start cap now calls))) = true →
  reached (ran l (start cap now calls)).
Proof. intros Hc Hl. exists (start cap now calls). split; [by apply calls_started|by apply ran_steps]. Qed.

Lemma ran_calm l (g : config Z) : bool_decide (is_Some (executeCalm l g)) = true →
  rtc writersOnly g (default g (executeCalm l g)).
Proof. intros [g' Hg]%bool_decide_eq_true. rewrite Hg. by apply (executeCalm_rtc l). Qed.

(** The state after an enabled action. *)
Definition after (a : action) (g : config Z) : config Z := default g (act a g).
Lemma after_act a g : bool_decide (is_Some (act a g)) = true → act a g = Some (after a g).
Proof. intros [g' Hg]%bool_decide_eq_true. unfold after. by rewrite Hg. Qed.

Lemma idle_all (g : config Z) : forallb CacheThreads.idle (threads g) = true →
  ∀ i t, threads g !! i = Some t → CacheThreads.idle t = true.
Proof. intros Hf i t Ht%list_elem_of_lookup_2. by apply (proj1 (forallb_forall _ _) Hf), list_elem_of_In. Qed.

(** Two writers, a reader of an expired entry, and [Delete]. *)
Definition mixedCalls : list (thread Z) :=
  [SetNow "a" 1 [Second]; SetNow "b" 2 []; Getting "a" GLoad; Deleting "b" DLock].
Definition mixedRun : list (@action Z) :=
  go 0 5 ++ go 1 5 ++ go 0 3 ++ [Tick (2 * Second)] ++ go 2 6 ++ go 1 3 ++ go 2 2 ++ go 3 4.

Lemma conc_len_witness :
  let g := ran mixedRun (start 4 jan2024 mixedCalls) in
  reached g ∧ Len (cache (sh g)) = entries (cache (sh g)) ∧ Len (cache (sh g)) = 0.
Proof.
  intros g. assert (reached g) as Hr by (by apply ran_reached; vm_compute).
  split; [exact Hr|]. split; [|by vm_compute]. apply (conc_len g Hr), idle_all. by vm_compute.
Defined.

Lemma conc_capacity_witness :
  let g := default threeWriters (executeCalm threeWritersRun threeWriters) in
  rtc writersOnly threeWriters g ∧ entries (cache (sh g)) <= capacity (cache (sh g)) ∧ capacity (cache (sh g)) = 2.
Proof.
  intros g.
  assert (rtc writersOnly threeWriters g) as Hr by (apply ran_calm; by vm_compute).
  split; [exact Hr|]. split; [|by vm_compute]. apply (conc_capacity threeWriters g); [ | |exact Hr|by vm_compute| ].
  - exists 2, jan2024, [SetNow "a" 1 []; SetNow "b" 2 []; SetNow "c" 3 []]. split; [reflexivity|]. by repeat constructor.
  - apply calm_undisturbed. by vm_compute.
  - apply idle_all. by vm_compute.
Defined.

(** Two calls of [GetOrFetch] for one key, up to the delivery. *)
Definition twoCallers : list (thread Z) :=
  [Fetching (Query "k" Second 0) FCtx; Fetching (Query "k" Minute 1) FCtx].
Definition twoCallersRun : list (@action Z) :=
  go 0 3 ++ go 1 3 ++ [Run 2 (Result (inl 7))] ++ go 2 4.

Definition landing : config Z := ran twoCallersRun (start 0 jan2024 twoCallers).

Lemma conc_flights_witness :
  act (Run 2 Just) landing = Some (after (Run 2 Just) landing) ∧
  chans (sh (after (Run 2 Just) landing)) !! 0%nat = Some (inl 7) ∧
  chans (sh (after (Run 2 Just) landing)) !! 1%nat = Some (inl 7).
Proof.
  assert (reached landing) as Hr by (by apply ran_reached; vm_compute).
  assert (act (Run 2 Just) landing = Some (after (Run 2 Just) landing)) as Hg' by (by apply after_act; vm_compute).
  split; [exact Hg'|].
  split; eapply (proj2 (conc_flights landing Hr) 2%nat "k" (inl 7) Just _ _ Hg'); by vm_compute.
Unshelve.
  all: by vm_compute.
Defined.

Lemma conc_progress_witness :
  let g := ran (take 3 twoCallersRun) (start 0 jan2024 twoCallers) in
  ∃ j u ch g', threads g !! j = Some u ∧ CacheThreads.idle u = false ∧ act (Run j ch) g = Some g'.
Proof.
  intros g. apply (conc_progress g 0%nat (Fetching (Query "k" Second 0) FWait));
    [by apply ran_reached; vm_compute | by vm_compute | by vm_compute].
Defined.

(** The reader of the expired entry, just before it removes it. *)
Definition cleaning : config Z :=
  ran (go 0 8 ++ [Tick (2 * Second)] ++ go 2 5) (start 4 jan2024 mixedCalls).

Definition cleaned : Item Z := mkItem 1 (1704067201 * Second) (1704067200 * Second).

Lemma conc_cleanup_witness :
  data (cache (sh cleaning)) !! "a" = Some cleaned ∧
  ∃ i ch t, @Run Z 2 Just = Run i ch ∧ threads cleaning !! i = Some t ∧
    (removes t = Some "a" ∨ expired (Expiration cleaned) (time (sh cleaning)) = true).
Proof.
  assert (data (cache (sh cleaning)) !! "a" = Some cleaned) as Hit by by vm_compute.
  split; [exact Hit|].
  apply (conc_cleanup (start 4 jan2024 mixedCalls) cleaning (Run 2 Just) (after (Run 2 Just) cleaning) "a" cleaned);
    [by apply calls_started; vm_compute | by apply ran_steps; vm_compute | by vm_compute
    | by vm_compute | by vm_compute | by apply after_act; vm_compute | exact Hit | by vm_compute].
Defined.

(** Without a capacity [Set] takes no lock: a [Get] that has found the key
    expired removes the value a [Set] stores meanwhile, and the value is lost
    although nobody deleted it. *)
Lemma unbounded_cleanup_loses :
  final (execute (go 0 4 ++ [Tick (2 * Second)] ++ go 1 5 ++ go 2 3 ++ go 1 3)
           (start 0 jan2024 [SetNow "k" 1 [Second]; Getting "k" GLoad; SetNow "k" 2 []])) =
  Some ([Done Quit; Done (Found None); Done Quit], [], 0).
Proof. by vm_compute. Qed.

(** Four writers and a [Delete]: an eviction gives up when the entry it chose
    is gone, so one [Delete] ends the evictions of two writers and the cache
    is left above its capacity with nobody at work. *)
Lemma delete_overshoots :
  final (execute stolenVictims (start 1 jan2024
    [SetNow "a" 1 []; SetNow "b" 2 []; SetNow "c" 3 []; SetNow "d" 4 []; Deleting "d" DLock])) =
  Some ([Done Quit; Done Quit; Done Quit; Done Quit; Done Quit], [("a", 1); ("b", 2)], 2).
Proof. by vm_compute. Qed.

(** The counter can be negative, which [Len] hides. *)
Lemma counter_negative :
  let g := ran (go 0 3 ++ go 1 3) (start 0 jan2024 [SetNow "k" 1 []; Deleting "k" DLock]) in
  size_ (cache (sh g)) = -1 ∧ Len (cache (sh g)) = 0.
Proof. by vm_compute. Qed.
