(* ===== verification/Breaker.v ===== *)
(** What the circuit breakers share (circuitbreaker/circuitbreaker.go, and the
    methods whose text is the same in consecutive.go and ratio.go): states,
    metrics, admission, transitions; the interface [Breaker]; and the
    interleavings of concurrent [Execute] calls with the invariants every
    breaker keeps. *)
From S2P Require Import Prelude.

Inductive State := StateClosed | StateOpen | StateHalfOpen.

#[global] Instance State_eq_dec : EqDecision State.
Proof. solve_decision. Defined.

Definition StateNumber (s : State) : Z :=
  match s with StateClosed => 0 | StateOpen => 1 | StateHalfOpen => 2 end.

Definition StateString (s : State) : string :=
  match s with StateClosed => "CLOSED" | StateOpen => "OPEN" | StateHalfOpen => "HALF_OPEN" end.

Definition ErrCircuitOpen : error := ErrNew "circuit breaker is open".

(** The [options] of a constructor; the clock's readings are explicit. *)
Record options := Options { o_onStateChange : bool; o_maxHalfOpen : Z }.

Inductive Option_ :=
| WithOnStateChange (registered : bool)
| WithHalfOpenProbes (n : Z).

Definition applyOption (o : options) (opt : Option_) : options :=
  match opt with
  | WithOnStateChange f => Options f (o_maxHalfOpen o)
  | WithHalfOpenProbes n => if 0 <? n then Options (o_onStateChange o) n else o
  end.

(** The fields both breakers have. [changes] are the calls of the registered
    callback that [transition] has returned, oldest first: a goroutine makes
    them after it has released the mutex; [gauge], [requests] and [failed] are the values of
    the three collectors. *)
Record gate := Gate {
  state : State;
  openedAt : Time;
  halfOpenInFlight : Z;
  maxHalfOpen : Z;
  resetTimeout : Duration;
  onStateChange : bool;
  changes : list (State * State);
  gauge : Z;
  requests : Z;
  failed : Z;
}.

Definition setState g s n := Gate s (openedAt g) (halfOpenInFlight g) (maxHalfOpen g)
  (resetTimeout g) (onStateChange g) n (StateNumber s) (requests g) (failed g).
Definition setOpenedAt g t := Gate (state g) t (halfOpenInFlight g) (maxHalfOpen g)
  (resetTimeout g) (onStateChange g) (changes g) (gauge g) (requests g) (failed g).
Definition setInFlight g n := Gate (state g) (openedAt g) n (maxHalfOpen g)
  (resetTimeout g) (onStateChange g) (changes g) (gauge g) (requests g) (failed g).
Definition setLimits g m d := Gate (state g) (openedAt g) (halfOpenInFlight g) m
  d (onStateChange g) (changes g) (gauge g) (requests g) (failed g).
Definition incRequests g := Gate (state g) (openedAt g) (halfOpenInFlight g) (maxHalfOpen g)
  (resetTimeout g) (onStateChange g) (changes g) (gauge g) (requests g + 1) (failed g).
Definition incFailures g := Gate (state g) (openedAt g) (halfOpenInFlight g) (maxHalfOpen g)
  (resetTimeout g) (onStateChange g) (changes g) (gauge g) (requests g) (failed g + 1).

(** The part of the constructors both share: at least one probe, closed. *)
Definition newGate (opts : list Option_) (reset : Duration) : gate :=
  let o := foldl applyOption (Options false 0) opts in
  Gate StateClosed 0 0 (if o_maxHalfOpen o <=? 0 then 1 else o_maxHalfOpen o) reset
       (o_onStateChange o) [] (StateNumber StateClosed) 0 0.

(** [transition]: a change of state sets the gauge and returns a call of the
    callback, if one is registered. *)
Definition transition g (to : State) : gate :=
  if bool_decide (state g = to) then g
  else setState g to (if onStateChange g then changes g ++ [(state g, to)] else changes g).

Definition decrementHalfOpen g : gate :=
  let n := halfOpenInFlight g - 1 in setInFlight g (if n <? 0 then 0 else n).

(** The switch of [canExecute]: (allowed, isProbe). *)
Definition admission g (now : Time) : (bool * bool) * gate :=
  match state g with
  | StateClosed => (true, false, g)
  | StateOpen =>
      if resetTimeout g <? time_Sub now (openedAt g)
      then (true, true, setInFlight (transition g StateHalfOpen) 1)
      else (false, false, g)
  | StateHalfOpen =>
      if halfOpenInFlight g <? maxHalfOpen g
      then (true, true, setInFlight g (halfOpenInFlight g + 1))
      else (false, false, g)
  end.

(** [State()]: an open circuit whose timeout has elapsed reads half-open. *)
Definition reportState g (now : Time) : State :=
  if bool_decide (state g = StateOpen) && (resetTimeout g <? time_Sub now (openedAt g))
  then StateHalfOpen else state g.

(** A probe that failed or panicked. *)
Definition failProbe g (now : Time) : gate :=
  transition (incFailures (setOpenedAt g now)) StateOpen.

(** ** The interface *)

(** How [req()] ends. *)
Inductive outcome := Returned (err : option error) | Panicked.

(** [canExecute], [recordResult] and [onPanic] of a breaker, which [Execute]
    is made of, on its state [B]. *)
Class Breaker (B : Type) := {
  gateOf : B → gate;
  canExecute : B → Time → (bool * bool) * B;
  countRequest : B → B;
  recordResult : B → bool → option error → Time → B;
  onPanic : B → bool → Time → B;
}.

(** What [Execute] returns or panics with. *)
Inductive result := Ret (err : option error) | Panic.

(** The error recorded: [req]'s, or the context's when [req] succeeded. *)
Definition finalError (err ctxErr : option error) : option error :=
  match err with Some e => Some e | None => ctxErr end.

Section execute.
Context {B : Type} `{Breaker B}.

(** The first half of [Execute]: [inl] is an early return, [inr] the flag of
    an admitted call. *)
Definition enter (b : B) (ctxErr : option error) (now : Time) : (error + bool) * B :=
  match ctxErr with
  | Some e => (inl e, b)
  | None =>
      let '(allowed, isProbe, b1) := canExecute b now in
      if allowed then (inr isProbe, countRequest b1) else (inl ErrCircuitOpen, b1)
  end.

(** The second half, when [req] has ended. *)
Definition leave (b : B) (isProbe : bool) (o : outcome) (ctxErr : option error) (now : Time) : result * B :=
  match o with
  | Panicked => (Panic, onPanic b isProbe now)
  | Returned err =>
      let err' := finalError err ctxErr in (Ret err', recordResult b isProbe err' now)
  end.

(** [Execute] without interference. *)
Definition Execute (b : B) (ctxErr : option error) (now1 : Time) (o : outcome)
    (ctxErr2 : option error) (now2 : Time) : result * B :=
  match enter b ctxErr now1 with
  | (inl e, b1) => (Ret (Some e), b1)
  | (inr isProbe, b1) => leave b1 isProbe o ctxErr2 now2
  end.

(** ** Interleavings *)

(** The calls of the callback that a method has returned, between the gates
    before and after it. *)
Definition due (g g' : gate) : list (State * State) := drop (length (changes g)) (changes g').

(** A call that has been admitted and has not ended: whether it is a probe, and
    the callbacks to be made before [req] starts. *)
Record call := Call { isProbe_ : bool; owes : list (State * State) }.

(** Concurrent [Execute] calls: the breaker, whose methods are atomic under its
    mutex, the calls that were admitted, the callbacks of calls that have ended,
    and the callbacks made so far, oldest first. *)
Record system := Sys {
  breaker : B;
  active : list call;
  leaving : list (list (State * State));
  notified : list (State * State);
}.

Definition idle (b : B) : system := Sys b [] [] [].

(** The flags of the calls that were admitted and have not ended. *)
Definition running (s : system) : list bool := isProbe_ <$> active s.
(** The callbacks that have still to be made. *)
Definition owed (s : system) : list (State * State) := concat (owes <$> active s) ++ concat (leaving s).

Inductive sysStep : system → system → Prop :=
| StepRejected b cs lv ns ctxErr now e b' :
    enter b ctxErr now = (inl e, b') → sysStep (Sys b cs lv ns) (Sys b' cs lv ns)
| StepAdmitted b cs lv ns ctxErr now isProbe b' :
    enter b ctxErr now = (inr isProbe, b') →
    sysStep (Sys b cs lv ns) (Sys b' (Call isProbe (due (gateOf b) (gateOf b')) :: cs) lv ns)
| StepEntered b cs1 isProbe n l cs2 lv ns :
    sysStep (Sys b (cs1 ++ Call isProbe (n :: l) :: cs2) lv ns) (Sys b (cs1 ++ Call isProbe l :: cs2) lv (ns ++ [n]))
| StepLeft b cs1 isProbe cs2 lv ns o ctxErr now r b' :
    leave b isProbe o ctxErr now = (r, b') →
    sysStep (Sys b (cs1 ++ Call isProbe [] :: cs2) lv ns) (Sys b' (cs1 ++ cs2) (due (gateOf b) (gateOf b') :: lv) ns)
| StepLeaving b cs lv1 n l lv2 ns :
    sysStep (Sys b cs (lv1 ++ (n :: l) :: lv2) ns) (Sys b cs (lv1 ++ l :: lv2) (ns ++ [n])).

(** Steps of callers that wait for each other's callbacks: the mutex is taken
    only when no callback is due. *)
Definition orderlyStep (s s' : system) : Prop := sysStep s s' ∧ (breaker s' = breaker s ∨ owed s = []).

Definition probes (rs : list bool) : Z := Z.of_nat (length (filter (λ p, p = true) rs)).

(** The interleavings as a function of a schedule: a call enters, call number
    [i] of the active ones makes its callback or ends, or call number [i] of
    those that have ended makes its callback. *)
Inductive event :=
| Enters (ctxErr : option error) (now : Time)
| Announces (i : nat)
| Leaves (i : nat) (o : outcome) (ctxErr : option error) (now : Time)
| Notifies (i : nat).

Definition sysRun1 (s : system) (e : event) : system :=
  match e with
  | Enters ctxErr now =>
      match enter (breaker s) ctxErr now with
      | (inl _, b) => Sys b (active s) (leaving s) (notified s)
      | (inr p, b) => Sys b (Call p (due (gateOf (breaker s)) (gateOf b)) :: active s) (leaving s) (notified s)
      end
  | Announces i =>
      match active s !! i with
      | Some (Call p (n :: l)) =>
          Sys (breaker s) (take i (active s) ++ Call p l :: drop (S i) (active s)) (leaving s) (notified s ++ [n])
      | _ => s
      end
  | Leaves i o ctxErr now =>
      match active s !! i with
      | Some (Call p []) =>
          let b := (leave (breaker s) p o ctxErr now).2 in
          Sys b (take i (active s) ++ drop (S i) (active s)) (due (gateOf (breaker s)) (gateOf b) :: leaving s) (notified s)
      | _ => s
      end
  | Notifies i =>
      match leaving s !! i with
      | Some (n :: l) =>
          Sys (breaker s) (active s) (take i (leaving s) ++ l :: drop (S i) (leaving s)) (notified s ++ [n])
      | _ => s
      end
  end.

Definition sysRun (s : system) (es : list event) : system := foldl sysRun1 s es.

Lemma sysRun_steps es s : rtc sysStep s (sysRun s es).
Proof.
  revert s. induction es as [|e es IH]; intros s; [apply rtc_refl|].
  simpl. etrans; [|apply IH]. clear IH. destruct s as [b cs lv ns], e as [ctxErr now|i|i o ctxErr now|i]; simpl.
  - destruct (enter b ctxErr now) as [[e|p] b'] eqn:E; apply rtc_once; by econstructor.
  - destruct (cs !! i) as [[p [|n l]]|] eqn:Ei; try apply rtc_refl. apply rtc_once.
    rewrite <-(take_drop_middle cs i _ Ei) at 1. econstructor.
  - destruct (cs !! i) as [[p [|n l]]|] eqn:Ei; try apply rtc_refl. apply rtc_once.
    rewrite <-(take_drop_middle cs i _ Ei) at 1. econstructor. apply surjective_pairing.
  - destruct (lv !! i) as [[|n l]|] eqn:Ei; try apply rtc_refl. apply rtc_once.
    rewrite <-(take_drop_middle lv i _ Ei) at 1. econstructor.
Qed.
End execute.
Arguments system : clear implicits.

(** ** Laws *)

(** How the end of a call may change the gate; the flag tells a probe. *)
Inductive leaves : bool → gate → gate → Prop :=
| ProbeOk g : leaves true g (transition (decrementHalfOpen g) StateClosed)
| ProbeFailed g now : leaves true g (failProbe (decrementHalfOpen g) now)
| ProbeCanceled g : leaves true g (decrementHalfOpen g)
| CallIgnored g : leaves false g g
| CallFailed g : state g = StateClosed → leaves false g (incFailures g)
| CallTrips g now : state g = StateClosed → leaves false g (transition (setOpenedAt g now) StateOpen)
| CallFailedTrips g now :
    state g = StateClosed → leaves false g (transition (setOpenedAt (incFailures g) now) StateOpen).

(** [initDefaults] on the gate: at least one probe, a positive timeout. *)
Definition gateDefaults (reset : Duration) (g : gate) : gate :=
  setLimits g (if maxHalfOpen g <=? 0 then 1 else maxHalfOpen g)
              (if resetTimeout g <=? 0 then reset else resetTimeout g).

Class BreakerLaws (B : Type) `{Breaker B} := {
  defaultReset : Duration;
  law_canExecute : ∀ b now, let g := gateDefaults defaultReset (gateOf b) in
    (canExecute b now).1 = (admission g now).1 ∧ gateOf (canExecute b now).2 = (admission g now).2;
  law_countRequest : ∀ b, gateOf (countRequest b) = incRequests (gateOf b);
  law_recordResult : ∀ b p err now, leaves p (gateOf b) (gateOf (recordResult b p err now));
  law_onPanic : ∀ b p now, leaves p (gateOf b) (gateOf (onPanic b p now));
}.

(** ** Invariants *)

(** Changes that form a path from one state to another. *)
Fixpoint path (from : State) (l : list (State * State)) (to : State) : Prop :=
  match l with
  | [] => from = to
  | (a, b) :: l' => a = from ∧ a ≠ b ∧ path b l' to
  end.

(** The edges of the state diagram in the documentation. *)
Definition documented (e : State * State) : bool :=
  match e with
  | (StateClosed, StateOpen) | (StateOpen, StateHalfOpen)
  | (StateHalfOpen, StateClosed) | (StateHalfOpen, StateOpen) => true
  | _ => false
  end.

Record goodGate (g : gate) : Prop := {
  good_max : 1 <= maxHalfOpen g;
  good_inFlight : 0 <= halfOpenInFlight g <= maxHalfOpen g;
  good_gauge : gauge g = StateNumber (state g);
  good_path : onStateChange g = true → path StateClosed (changes g) (state g);
}.

(** With one probe at a time the counter is exact. *)
Record singleProbe (g : gate) (rs : list bool) : Prop := {
  single_count : probes rs = halfOpenInFlight g;
  single_state : state g ≠ StateHalfOpen → halfOpenInFlight g = 0;
  single_edges : Forall (λ e, documented e = true) (changes g);
}.

Lemma path_snoc from l mid to : path from l mid → mid ≠ to → path from (l ++ [(mid, to)]) to.
Proof.
  revert from. induction l as [|[a b] l IH]; intros from; simpl; [by intros -> ?|].
  intros (-> & ? & ?) ?. eauto.
Qed.

Lemma transition_good g s : goodGate g → goodGate (transition g s).
Proof.
  intros []. unfold transition. case_bool_decide; [by constructor|]. constructor; simpl; try done.
  intros Hs. rewrite Hs. apply path_snoc; [by apply good_path0 | done].
Qed.

(** [goodGate] does not depend on the times and the counters. *)
Lemma goodGate_ext g g' :
  state g' = state g → halfOpenInFlight g' = halfOpenInFlight g → maxHalfOpen g' = maxHalfOpen g →
  gauge g' = gauge g → onStateChange g' = onStateChange g → changes g' = changes g →
  goodGate g → goodGate g'.
Proof. intros Hs Hh Hm Hg Ho Hn [? ? ? Hp]. split; rewrite ?Hs, ?Hh, ?Hm, ?Hg, ?Ho, ?Hn; auto. Qed.

Lemma setInFlight_good g n : goodGate g → 0 <= n <= maxHalfOpen g → goodGate (setInFlight g n).
Proof. intros [] ?. by constructor. Qed.

Lemma decrement_good g : goodGate g → goodGate (decrementHalfOpen g).
Proof.
  intros Hg. apply setInFlight_good; [done|]. destruct Hg. cases; lia.
Qed.

#[export] Hint Resolve transition_good setInFlight_good decrement_good : golibs.

Lemma admission_good g now : goodGate g → goodGate (admission g now).2.
Proof.
  intros Hg. unfold admission. cases; try done.
  - apply setInFlight_good; [by apply transition_good|]. unfold transition.
    destruct Hg. case_bool_decide; simpl; lia.
  - apply setInFlight_good; [done|]. destruct Hg. lia.
Qed.

Lemma leaves_good p g g' : leaves p g g' → goodGate g → goodGate g'.
Proof.
  intros Hl Hg. destruct Hl; eauto with golibs.
  - apply transition_good. by apply (goodGate_ext (decrementHalfOpen g)); eauto with golibs.
  - by apply (goodGate_ext g).
  - apply transition_good. by apply (goodGate_ext g).
  - apply transition_good. by apply (goodGate_ext g).
Qed.

Lemma gateDefaults_good reset g :
  goodGate g → goodGate (gateDefaults reset g).
Proof.
  intros []. unfold gateDefaults. split; simpl; try done; case_match; bool_to_prop; lia.
Qed.

Lemma newGate_good opts reset : goodGate (newGate opts reset).
Proof. split; simpl; try done; case_match; bool_to_prop; lia. Qed.

Lemma probes_app rs1 rs2 : probes (rs1 ++ rs2) = probes rs1 + probes rs2.
Proof. unfold probes. rewrite filter_app, length_app. lia. Qed.

Lemma probes_cons p rs : probes (p :: rs) = (if p then 1 else 0) + probes rs.
Proof.
  unfold probes. rewrite filter_cons. destruct p; [rewrite decide_True by done | rewrite decide_False by done];
    simpl; lia.
Qed.

(** [transition] changes the state and the log only. *)
Lemma transition_state g s : state (transition g s) = s.
Proof. unfold transition. by case_bool_decide. Qed.
Lemma transition_inFlight g s : halfOpenInFlight (transition g s) = halfOpenInFlight g.
Proof. unfold transition. by case_bool_decide. Qed.
Lemma transition_max g s : maxHalfOpen (transition g s) = maxHalfOpen g.
Proof. unfold transition. by case_bool_decide. Qed.

Lemma transition_edges g s :
  documented (state g, s) = true → Forall (λ e, documented e = true) (changes g) →
  Forall (λ e, documented e = true) (changes (transition g s)).
Proof.
  intros Hd He. unfold transition. case_bool_decide; [done|]. simpl.
  destruct (onStateChange g); [|done]. apply Forall_app. by repeat constructor.
Qed.

Hint Rewrite transition_state transition_inFlight transition_max : golibs.

(** One probe at a time: admission and completion. *)
Lemma admission_single g rs now p g' :
  goodGate g → maxHalfOpen g = 1 → singleProbe g rs →
  admission g now = (true, p, g') → singleProbe g' (p :: rs).
Proof.
  intros [] Hm [Hc Hs He] Ha. unfold admission in Ha.
  destruct (state g) eqn:Es; cases; simplify_eq/=; split; simpl; rewrite ?probes_cons;
    autorewrite with golibs; simpl; try done; try lia.
  - intros _. by apply Hs.
  - rewrite Hc, Hs; [lia | done].
  - apply transition_edges; [by rewrite Es | done].
Qed.

Lemma leaves_single g g' rs1 p rs2 :
  goodGate g → maxHalfOpen g = 1 → singleProbe g (rs1 ++ p :: rs2) →
  leaves p g g' → singleProbe g' (rs1 ++ rs2).
Proof.
  intros [] Hm [Hc Hs He] Hl. rewrite probes_app, probes_cons in Hc.
  assert (0 <= probes rs1 ∧ 0 <= probes rs2) as [? ?] by (unfold probes; lia).
  assert (p = true → state g = StateHalfOpen) as Hp.
  { intros ->. destruct (decide (state g = StateHalfOpen)) as [|Hne]; [done|].
    specialize (Hs Hne). lia. }
  destruct Hl as [g|g now|g|g|g Hcl|g now Hcl|g now Hcl]; simpl in *; try (specialize (Hp eq_refl)).
  1-3: assert ((halfOpenInFlight g - 1 <? 0) = false) as Hd by (apply Z.ltb_ge; lia).
  all: split; unfold failProbe; autorewrite with golibs; simpl; rewrite ?Hd, ?probes_app;
    try done; try lia.
  all: try (apply transition_edges; simpl; [first [by rewrite Hcl | by rewrite Hp] | done]).
  all: intros _; apply Hs; congruence.
Qed.

(** ** Callbacks *)

(** A method returns at most one callback. *)
Definition grows (g g' : gate) : Prop := ∃ l, changes g' = changes g ++ l ∧ (length l <= 1)%nat.

Lemma grows_same g g' : changes g' = changes g → grows g g'.
Proof. intros E. exists []. rewrite app_nil_r. auto. Qed.

Lemma grows_via g1 g1' g g' : changes g1 = changes g → changes g1' = changes g' → grows g g' → grows g1 g1'.
Proof. unfold grows. by intros -> ->. Qed.

Lemma transition_grows g s : grows g (transition g s).
Proof.
  unfold transition. case_bool_decide; [by apply grows_same|]. simpl. destruct (onStateChange g) eqn:E.
  - exists [(state g, s)]. simpl. auto.
  - by apply grows_same.
Qed.

Lemma due_grows g g' : grows g g' → changes g' = changes g ++ due g g' ∧ (length (due g g') <= 1)%nat.
Proof. intros (l & E & Hl). unfold due. rewrite E, drop_app_length. done. Qed.

Lemma admission_grows g now : grows g (admission g now).2.
Proof.
  unfold admission. cases; try (apply grows_same; reflexivity). by apply (grows_via _ _ g (transition g StateHalfOpen)), transition_grows.
Qed.

Lemma leaves_grows p g g' : leaves p g g' → grows g g'.
Proof.
  destruct 1; unfold failProbe; try by apply grows_same.
  - by apply (grows_via _ _ (decrementHalfOpen g) (transition (decrementHalfOpen g) StateClosed)), transition_grows.
  - by eapply grows_via; [| |apply (transition_grows (incFailures (setOpenedAt (decrementHalfOpen g) now)))].
  - by eapply grows_via; [| |apply (transition_grows (setOpenedAt g now))].
  - by eapply grows_via; [| |apply (transition_grows (setOpenedAt (incFailures g) now))].
Qed.

(** ** Reachable systems *)

Section systems.
Context {B : Type} `{BreakerLaws B}.
Implicit Types b : B.
Implicit Types s : system B.

Lemma leave_gate b p o ctxErr now r b' :
  leave b p o ctxErr now = (r, b') → leaves p (gateOf b) (gateOf b').
Proof.
  unfold leave. destruct o as [err|]; intros [= <- <-]; [apply law_recordResult | apply law_onPanic].
Qed.

(** An entry leaves the gate alone or is an admission after the defaults. *)
Lemma enter_gate b ctxErr now r b' :
  enter b ctxErr now = (r, b') →
  let g := gateDefaults defaultReset (gateOf b) in
  match r with
  | inl e => ctxErr = Some e ∧ b' = b ∨
             e = ErrCircuitOpen ∧ (admission g now).1.1 = false ∧ gateOf b' = (admission g now).2
  | inr p => ∃ g', admission g now = (true, p, g') ∧ gateOf b' = incRequests g'
  end.
Proof.
  unfold enter. destruct ctxErr as [e|]; [intros [= <- <-]; by left|].
  destruct (law_canExecute b now) as [Hadm Hgate].
  destruct (canExecute b now) as [[allowed p] b1]. simpl in *.
  destruct allowed; intros [= <- <-].
  - rewrite law_countRequest, Hgate. destruct (admission _ _) as [[a q] g']. simpl in *.
    simplify_eq. eauto.
  - right. split_and!; [done| |done]. by rewrite <-Hadm.
Qed.

Lemma admission_rejected g now : (admission g now).1.1 = false → (admission g now).2 = g.
Proof. unfold admission. by cases. Qed.

(** A property of the gate and the running calls that all steps preserve. *)
Lemma sys_invariant (P : gate → list bool → Prop) :
  (∀ g rs, P g rs → P (gateDefaults defaultReset g) rs) →
  (∀ g rs now p g', P g rs → admission g now = (true, p, g') → P (incRequests g') (p :: rs)) →
  (∀ g g' rs1 p rs2, P g (rs1 ++ p :: rs2) → leaves p g g' → P g' (rs1 ++ rs2)) →
  ∀ s s', rtc sysStep s s' → P (gateOf (breaker s)) (running s) →
  P (gateOf (breaker s')) (running s').
Proof.
  intros Hdef Hadm Hleave s s' Hsteps. induction Hsteps as [|s s1 s' Hstep _ IH]; [done|].
  intros HP. apply IH. clear IH. unfold running in *. destruct Hstep as [b cs lv ns ctxErr now e b' He|
    b cs lv ns ctxErr now p b' He|b cs1 p n l cs2 lv ns|b cs1 p cs2 lv ns o ctxErr now r b' Hl|]; simpl in *; [| | | |done].
  - apply enter_gate in He as [[_ ->]|(_ & Hrej & ->)]; [done|].
    rewrite admission_rejected by done. by apply Hdef.
  - apply enter_gate in He as (g' & Ha & ->). eapply Hadm; [|done]. by apply Hdef.
  - by rewrite !fmap_app, !fmap_cons in *.
  - rewrite fmap_app, fmap_cons in HP. rewrite fmap_app. eapply Hleave; [done|]. by eapply leave_gate.
Qed.

Lemma enter_grows b ctxErr now r b' : enter b ctxErr now = (r, b') →
  grows (gateOf b) (gateOf b') ∧ ∀ e, r = inl e → changes (gateOf b') = changes (gateOf b).
Proof.
  intros E%enter_gate. destruct r as [e|p].
  - destruct E as [[_ ->]|(_ & Hrej & ->)]; [by split; [apply grows_same|]|].
    rewrite (admission_rejected _ _ Hrej). by split; [apply grows_same|].
  - destruct E as (g' & Ha & ->). split; [|done].
    pose proof (admission_grows (gateDefaults defaultReset (gateOf b)) now) as Hg. rewrite Ha in Hg.
    by eapply grows_via; [| |exact Hg].
Qed.

Lemma concat_owes cs1 c l cs2 :
  concat (owes <$> cs1 ++ Call c l :: cs2) = concat (owes <$> cs1) ++ l ++ concat (owes <$> cs2).
Proof. by rewrite fmap_app, fmap_cons, concat_app. Qed.

(** Every callback returned is made once: it has been made, or the goroutine
    that got it has still to make it. *)
Definition accounted s : Prop := notified s ++ owed s ≡ₚ changes (gateOf (breaker s)).

Lemma calls_accounted s s' : accounted s → sysStep s s' → accounted s'.
Proof.
  unfold accounted, owed. intros Ha Hs. destruct Hs as [b cs lv ns ctxErr now e b' He|
    b cs lv ns ctxErr now p b' He|b cs1 p n l cs2 lv ns|b cs1 p cs2 lv ns o ctxErr now r b' Hl|b cs lv1 n l lv2 ns]; simpl in *.
  - apply enter_grows in He as [_ He]. by rewrite (He e).
  - apply enter_grows in He as [[-> _]%due_grows _]. rewrite <-Ha. solve_Permutation.
  - rewrite <-Ha, !concat_owes. solve_Permutation.
  - apply leave_gate, leaves_grows, due_grows in Hl as [-> _]. rewrite <-Ha.
    rewrite concat_owes, fmap_app, concat_app. solve_Permutation.
  - rewrite <-Ha, !concat_app. simpl. solve_Permutation.
Qed.

(** When callers wait for each other's callbacks, these come in order. *)
Definition inOrder s : Prop :=
  notified s ++ owed s = changes (gateOf (breaker s)) ∧ (length (owed s) <= 1)%nat.

Lemma single_delivery {A} (l1 l l2 : list A) n : (length (l1 ++ (n :: l) ++ l2) <= 1)%nat →
  l1 = [] ∧ l = [] ∧ l2 = [].
Proof. rewrite !length_app. simpl. destruct l1, l, l2; simpl; try lia. done. Qed.

Lemma due_same g : due g g = [].
Proof. apply drop_ge. lia. Qed.

Lemma inOrder_step s s' : inOrder s → orderlyStep s s' → inOrder s'.
Proof.
  unfold inOrder, owed. intros [Ho Hl1] [Hs Hc]. destruct Hs as [b cs lv ns ctxErr now e b' He|
    b cs lv ns ctxErr now p b' He|b cs1 p n l cs2 lv ns|b cs1 p cs2 lv ns o ctxErr now r b' Hl|b cs lv1 n l lv2 ns]; simpl in *.
  - apply enter_grows in He as [_ He]. by rewrite (He e).
  - destruct Hc as [->|Hc]; [by rewrite due_same|]. unfold owed in Hc. simpl in Hc. rewrite Hc, app_nil_r in Ho.
    apply enter_grows in He as [[-> Hd]%due_grows _]. apply app_nil in Hc as [Hc1 Hc2].
    change (list_fmap call _ owes cs) with (owes <$> cs). by rewrite Hc1, Hc2, !app_nil_r, Ho.
  - rewrite !concat_owes in *. rewrite <-!app_assoc in *. apply single_delivery in Hl1 as (E1 & -> & E2).
    rewrite E1, E2 in *. simpl in *. split; [done|lia].
  - rewrite concat_owes in *. rewrite fmap_app, concat_app. simpl in *.
    destruct Hc as [->|Hc]; [by rewrite due_same|]. unfold owed in Hc. simpl in Hc. rewrite concat_owes in Hc. simpl in Hc.
    rewrite Hc, app_nil_r in Ho. apply app_nil in Hc as [Hc1 Hc2]. rewrite Hc1, Hc2, app_nil_r. simpl.
    apply leave_gate, leaves_grows, due_grows in Hl as [-> Hd]. by rewrite Ho.
  - rewrite !concat_app in *. simpl in *. rewrite app_assoc in Hl1. change (n :: l ++ concat lv2) with ((n :: l) ++ concat lv2) in *.
    apply single_delivery in Hl1 as (E1 & -> & E2). apply app_nil in E1 as [E1 E1'].
    rewrite E1, E1', E2 in *. simpl in *. rewrite ?app_nil_r in *. split; [done|lia].
Qed.

(** Whatever the interleaving, each change is announced once; the announcements
    are in the order of the changes when callers wait for each other. *)
Lemma breaker_callbacks b0 s : changes (gateOf b0) = [] →
  (rtc sysStep (idle b0) s → notified s ++ owed s ≡ₚ changes (gateOf (breaker s))) ∧
  (rtc orderlyStep (idle b0) s → notified s ++ owed s = changes (gateOf (breaker s))).
Proof.
  intros E. split; intros Hr.
  - enough (accounted s) by done. assert (accounted (idle b0)) as H1 by (unfold accounted; simpl; by rewrite E).
    clear E. induction Hr; eauto using calls_accounted.
  - enough (inOrder s) as [? _] by done. assert (inOrder (idle b0)) as H1 by (unfold inOrder; simpl; rewrite E; auto).
    clear E. induction Hr; eauto using inOrder_step.
Qed.

Lemma incRequests_good g : goodGate g → goodGate (incRequests g).
Proof. by apply goodGate_ext. Qed.

(** Whatever the interleaving of concurrent calls, of their ends, errors
    and panics, of cancellations and clock readings, a breaker's probe counter
    stays between zero and the configured maximum, the gauge shows the state,
    and the changes are a chain from CLOSED to the state. *)
Lemma breaker_gate b0 opts reset s :
  gateOf b0 = newGate opts reset → rtc sysStep (idle b0) s →
  let g := gateOf (breaker s) in
  0 <= halfOpenInFlight g <= maxHalfOpen g ∧ gauge g = StateNumber (state g) ∧
  (onStateChange g = true → path StateClosed (changes g) (state g)).
Proof.
  intros H0' Hsteps. cut (goodGate (gateOf (breaker s))); [by intros []|].
  apply (sys_invariant (λ g _, goodGate g)) in Hsteps; [done|..|simpl; rewrite H0'; apply newGate_good].
  - intros g _. apply gateDefaults_good.
  - intros g _ now p g' Hg Ha. apply incRequests_good.
    pose proof (admission_good g now Hg) as Hg'. by rewrite Ha in Hg'.
  - intros g g' _ p _ Hg Hl. by eapply leaves_good.
Qed.

Definition oneProbe (g : gate) (rs : list bool) : Prop :=
  goodGate g ∧ maxHalfOpen g = 1 ∧ singleProbe g rs.

Lemma admission_max g now : maxHalfOpen (admission g now).2 = maxHalfOpen g.
Proof. unfold admission. cases; autorewrite with golibs; done. Qed.

Lemma leaves_max p g g' : leaves p g g' → maxHalfOpen g' = maxHalfOpen g.
Proof. destruct 1; unfold failProbe; autorewrite with golibs; done. Qed.

Lemma oneProbe_reachable b0 opts reset s :
  gateOf b0 = newGate opts reset → maxHalfOpen (newGate opts reset) = 1 →
  rtc sysStep (idle b0) s → oneProbe (gateOf (breaker s)) (running s).
Proof.
  intros H0' H1' Hsteps. apply (sys_invariant oneProbe) in Hsteps; [done|..].
  - intros g rs (Hg & Hm & []). split_and!; [by apply gateDefaults_good| |done].
    simpl. by rewrite Hm.
  - intros g rs now p g' (Hg & Hm & Hs) Ha.
    pose proof (admission_good g now Hg) as Hg'. pose proof (admission_max g now) as Hm'.
    pose proof (admission_single g rs now p g' Hg Hm Hs Ha) as []. rewrite Ha in *. simpl in *.
    split_and!; [by apply incRequests_good | simpl; lia | done].
  - intros g g' rs1 p rs2 (Hg & Hm & Hs) Hl. split_and!.
    + by eapply leaves_good.
    + by rewrite (leaves_max _ _ _ Hl).
    + by eapply leaves_single.
  - simpl. rewrite H0'. split_and!; [apply newGate_good | done | by constructor].
Qed.

(** With the default of one half-open probe at most one probe is in flight
    at any time and none unless the state is HALF_OPEN, and the only changes are CLOSED to OPEN to HALF_OPEN to CLOSED or OPEN. *)
Lemma breaker_one_probe b0 opts reset s :
  gateOf b0 = newGate opts reset → maxHalfOpen (newGate opts reset) = 1 →
  rtc sysStep (idle b0) s →
  let g := gateOf (breaker s) in
  probes (running s) <= 1 ∧ (state g ≠ StateHalfOpen → probes (running s) = 0) ∧
  Forall (λ e, documented e = true) (changes g).
Proof.
  intros H0' H1' Hsteps.
  destruct (oneProbe_reachable _ _ _ _ H0' H1' Hsteps) as ([? Hin _ _] & Hm & [-> Hs He]).
  simpl. split_and!; [lia|done|done].
Qed.

(** The breaker never freezes. With one half-open probe and no probe in
    flight, a call that arrives once the reset timeout has passed is admitted,
    in every reachable state, whatever errors, cancellations and panics ended
    the earlier probes. *)
Lemma breaker_thaws b0 opts reset s now :
  gateOf b0 = newGate opts reset → maxHalfOpen (newGate opts reset) = 1 →
  rtc sysStep (idle b0) s → probes (running s) = 0 →
  let g := gateDefaults defaultReset (gateOf (breaker s)) in
  resetTimeout g < time_Sub now (openedAt g) →
  ∃ p b', enter (breaker s) None now = (inr p, b').
Proof.
  intros H0' H1' Hsteps Hno g Helapsed. unfold enter.
  destruct (oneProbe_reachable _ _ _ _ H0' H1' Hsteps) as (_ & Hm & [Hc _ _]).
  destruct (law_canExecute (breaker s) now) as [Hadm _]. fold g in Hadm.
  destruct (canExecute (breaker s) now) as [[allowed p] b1]. simpl in Hadm.
  assert (allowed = true) as ->; [|by eauto].
  apply (f_equal fst) in Hadm. simpl in Hadm. rewrite Hadm. unfold admission.
  destruct (state g); [done| |].
  - by rewrite (proj2 (Z.ltb_lt _ _) Helapsed).
  - destruct (halfOpenInFlight g <? maxHalfOpen g) eqn:E; [done|]. bool_to_prop.
    unfold g in E. simpl in E. rewrite Hm in E. simpl in E. lia.
Qed.

(** While the circuit is open and the reset timeout has not passed every
    call is rejected with [ErrCircuitOpen], without running its function and
    without changing the state, the timers, the counters or the probes. *)
Lemma breaker_refuses b now r b' :
  state (gateOf b) = StateOpen →
  let g := gateDefaults defaultReset (gateOf b) in
  time_Sub now (openedAt g) <= resetTimeout g →
  enter b None now = (r, b') → r = inl ErrCircuitOpen ∧ gateOf b' = g.
Proof.
  intros Hs g Hle He. apply enter_gate in He. fold g in He.
  assert (admission g now = (false, false, g)) as Ha.
  { assert (state g = StateOpen) as Hg by done. unfold admission. rewrite Hg.
    by rewrite (proj2 (Z.ltb_ge _ _) Hle). }
  destruct r as [e|p].
  - destruct He as [[? _]|(-> & _ & ->)]; [done|]. by rewrite Ha.
  - destruct He as (g' & Ha' & _). congruence.
Qed.
(** C8: whatever the interleaving of concurrent calls, panics and cancellations,
    for any number of half-open probes, the probes counted are between zero and
    the maximum, the gauge shows the state, and the changes of state for which a callback was
    returned form, in the order the mutex was taken, a path from closed to the present state. Each of them is announced exactly once,
    by its own goroutine after it has released the mutex; the announcements come in the order of the changes when
    no goroutine takes the mutex while one is due, but not in general. With the default of one probe at most one probe is admitted at a time, none
    unless the circuit is half open, and every change is a documented one. *)
Theorem breaker_safety :
  (∀ b0 opts reset s,
   gateOf b0 = newGate opts reset → rtc sysStep (idle b0) s →
    let g := gateOf (breaker s) in
    0 <= halfOpenInFlight g <= maxHalfOpen g ∧ gauge g = StateNumber (state g) ∧
    (onStateChange g = true → path StateClosed (changes g) (state g)) ∧
    notified s ++ owed s ≡ₚ changes g ∧
    (rtc orderlyStep (idle b0) s → notified s ++ owed s = changes g)) ∧
  (∀ b0 opts reset s,
   gateOf b0 = newGate opts reset → maxHalfOpen (newGate opts reset) = 1 →
    rtc sysStep (idle b0) s →
    let g := gateOf (breaker s) in
    probes (running s) <= 1 ∧ (state g ≠ StateHalfOpen → probes (running s) = 0) ∧
    Forall (λ e, documented e = true) (changes g)).
Proof.
  split; [|apply breaker_one_probe]. intros b0 opts reset s E Hs g.
  destruct (breaker_gate _ _ _ _ E Hs) as (Hp & ? & ?).
  destruct (breaker_callbacks b0 s) as [? ?]; [by rewrite E|]. split; [exact Hp|]. split_and!; auto.
Qed.

(** C9: the breaker neither freezes nor leaks. With one half-open probe, in every reachable state in which
    no probe runs, a call after the reset timeout is admitted; and while the circuit is open and
    the timeout has not passed, a call fails with ErrCircuitOpen and changes nothing. *)
Theorem breaker_not_frozen :
  (∀ b0 opts reset s now,
   gateOf b0 = newGate opts reset → maxHalfOpen (newGate opts reset) = 1 →
    rtc sysStep (idle b0) s → probes (running s) = 0 →
    let g := gateDefaults defaultReset (gateOf (breaker s)) in
    resetTimeout g < time_Sub now (openedAt g) →
    ∃ p b', enter (breaker s) None now = (inr p, b')) ∧
  (∀ b now r b',
   state (gateOf b) = StateOpen →
    let g := gateDefaults defaultReset (gateOf b) in
    time_Sub now (openedAt g) <= resetTimeout g →
    enter b None now = (r, b') → r = inl ErrCircuitOpen ∧ gateOf b' = g).
Proof. split; [apply breaker_thaws|apply breaker_refuses]. Qed.
End systems.
