(* ===== verification/Consecutive.v ===== *)
(** [ConsecutiveBreaker] (circuitbreaker/consecutive.go): trips after a number
    of consecutive failures. *)
From S2P Require Import Prelude Breaker.

Record ConsecutiveBreaker := Consecutive {
  gate_ : gate;
  failures : Z;
  maxFailures : Z;
}.

Definition NewConsecutiveBreaker (maxFailures : Z) (resetTimeout : Duration) (opts : list Option_)
    : ConsecutiveBreaker :=
  Consecutive (newGate opts resetTimeout) 0 maxFailures.

(** [initDefaults]: 5 failures, 60 seconds, one probe. *)
Definition initDefaults (cb : ConsecutiveBreaker) : ConsecutiveBreaker :=
  Consecutive (gateDefaults (60 * Second) (gate_ cb)) (failures cb)
              (if maxFailures cb <=? 0 then 5 else maxFailures cb).

Definition withGate (cb : ConsecutiveBreaker) g := Consecutive g (failures cb) (maxFailures cb).

Definition canExecute (cb : ConsecutiveBreaker) (now : Time) : (bool * bool) * ConsecutiveBreaker :=
  let cb1 := initDefaults cb in
  let '(r, g) := admission (gate_ cb1) now in (r, withGate cb1 g).

(** One more failure in the closed state; trips at the maximum. *)
Definition addFailure (cb : ConsecutiveBreaker) (now : Time) : ConsecutiveBreaker :=
  let n := failures cb + 1 in
  let g := incFailures (gate_ cb) in
  Consecutive (if maxFailures cb <=? n then transition (setOpenedAt g now) StateOpen else g)
              n (maxFailures cb).

Definition recordResult (cb : ConsecutiveBreaker) (isProbe : bool) (err : option error) (now : Time)
    : ConsecutiveBreaker :=
  if isProbe then
    let g := decrementHalfOpen (gate_ cb) in
    match err with
    | Some e =>
        if errors_Is e Canceled then withGate cb g else withGate cb (failProbe g now)
    | None => Consecutive (transition g StateClosed) 0 (maxFailures cb)
    end
  else if bool_decide (state (gate_ cb) = StateClosed) then
    match err with
    | Some e => if errors_Is e Canceled then cb else addFailure cb now
    | None => Consecutive (gate_ cb) 0 (maxFailures cb)
    end
  else cb.

Definition onPanic (cb : ConsecutiveBreaker) (isProbe : bool) (now : Time) : ConsecutiveBreaker :=
  if isProbe then withGate cb (failProbe (decrementHalfOpen (gate_ cb)) now)
  else if bool_decide (state (gate_ cb) = StateClosed) then addFailure cb now
  else cb.

Definition Failures (cb : ConsecutiveBreaker) : Z := failures cb.
Definition State_ (cb : ConsecutiveBreaker) (now : Time) : State := reportState (gate_ cb) now.

#[export] Instance consecutive_breaker : Breaker ConsecutiveBreaker := {|
  gateOf := gate_; Breaker.canExecute := canExecute;
  countRequest cb := withGate cb (incRequests (gate_ cb));
  Breaker.recordResult := recordResult; Breaker.onPanic := onPanic;
|}.

Lemma addFailure_leaves cb now :
  state (gate_ cb) = StateClosed → leaves false (gate_ cb) (gate_ (addFailure cb now)).
Proof. intros Hc. unfold addFailure. simpl. case_match; by constructor. Qed.

#[export] Program Instance consecutive_laws : BreakerLaws ConsecutiveBreaker := {|
  defaultReset := 60 * Second;
|}.
Next Obligation. intros cb now. simpl. unfold canExecute. simpl. by destruct (admission _ _) as [[? ?] ?]. Qed.
Next Obligation. done. Qed.
Next Obligation.
  intros cb p err now. simpl. unfold recordResult. destruct p.
  - cases; constructor.
  - case_bool_decide; [|constructor]. destruct err as [e|]; [|constructor].
    destruct (errors_Is e Canceled); [constructor|]. by apply addFailure_leaves.
Qed.
Next Obligation.
  intros cb p now. simpl. unfold onPanic. destruct p; [constructor|]. case_bool_decide; [|constructor].
  by apply addFailure_leaves.
Qed.

(** ** Tripping *)

(** How the end of a call counts: a cancelled call not at all, otherwise as a
    failure ([true]) or a success. *)
Definition counts (o : outcome) : option bool :=
  match o with
  | Panicked => Some true
  | Returned (Some e) => if errors_Is e Canceled then None else Some true
  | Returned None => Some false
  end.

(** The length of the leading run of failures. *)
Fixpoint leadingFailures (l : list bool) : Z :=
  match l with
  | true :: l' => 1 + leadingFailures l'
  | _ => 0
  end.

(** The consecutive failures at the end of a sequence of calls. *)
Definition trailing (os : list outcome) : Z := leadingFailures (reverse (omap counts os)).

(** The calls of a closed circuit end one after the other. *)
Definition completions (cb : ConsecutiveBreaker) (os : list (outcome * Time)) : ConsecutiveBreaker :=
  foldl (λ cb '(o, now), (leave cb false o None now).2) cb os.

Lemma trailing_snoc os o :
  trailing (os ++ [o]) =
  match counts o with None => trailing os | Some true => 1 + trailing os | Some false => 0 end.
Proof.
  unfold trailing. rewrite omap_app. simpl. destruct (counts o) as [[]|]; simpl.
  - by rewrite reverse_snoc.
  - by rewrite reverse_snoc.
  - by rewrite app_nil_r.
Qed.

(** A call that ends in the closed state, and one that ends later. *)
Lemma consecutive_leave_closed cb o now :
  state (gate_ cb) = StateClosed →
  let cb' := (leave cb false o None now).2 in
  maxFailures cb' = maxFailures cb ∧
  match counts o with
  | None => cb' = cb
  | Some false => state (gate_ cb') = StateClosed ∧ failures cb' = 0
  | Some true =>
      failures cb' = failures cb + 1 ∧
      state (gate_ cb') = if maxFailures cb <=? failures cb + 1 then StateOpen else StateClosed
  end.
Proof.
  intros Hc. unfold leave, counts. destruct o as [[e|]|]; simpl; unfold recordResult, onPanic;
    rewrite ?bool_decide_eq_true_2 by done; simpl; [|done|].
  - destruct (errors_Is e Canceled); [done|]. unfold addFailure. simpl. case_match; simpl;
      by rewrite ?transition_state.
  - unfold addFailure. simpl. case_match; simpl; by rewrite ?transition_state.
Qed.

Lemma consecutive_leave_open cb o now :
  state (gate_ cb) = StateOpen → (leave cb false o None now).2 = cb.
Proof.
  intros Hc. unfold leave. destruct o as [err|]; simpl; unfold recordResult, onPanic;
    by rewrite bool_decide_eq_false_2 by (by rewrite Hc).
Qed.

Lemma completions_snoc cb os o now :
  completions cb (os ++ [(o, now)]) = (leave (completions cb os) false o None now).2.
Proof. unfold completions. by rewrite foldl_app. Qed.

Lemma completions_max cb os :
  state (gate_ cb) = StateClosed → failures cb = 0 → 0 < maxFailures cb →
  maxFailures (completions cb os) = maxFailures cb ∧
  (state (gate_ (completions cb os)) = StateClosed ∧
     failures (completions cb os) = trailing os.*1 ∧
     (∀ p, p `prefix_of` os → trailing p.*1 < maxFailures cb) ∨
   state (gate_ (completions cb os)) = StateOpen ∧
     ∃ p, p `prefix_of` os ∧ maxFailures cb <= trailing p.*1).
Proof.
  intros Hc Hf Hmax. induction os as [|[o now] os IH] using rev_ind.
  { split; [done|]. left. split_and!; try done. by intros p ->%prefix_nil_inv. }
  rewrite completions_snoc. set (cb1 := completions cb os) in *.
  destruct IH as (Hm & [(Hs & Hn & Hall)|(Hs & p & Hp & Hle)]).
  - destruct (consecutive_leave_closed cb1 o now Hs) as [Hm' Hcase]. split; [congruence|].
    rewrite fmap_app. simpl. rewrite trailing_snoc.
    assert (∀ n, trailing (os.*1 ++ [o]) = n → n < maxFailures cb →
      ∀ p, p `prefix_of` os ++ [(o, now)] → trailing p.*1 < maxFailures cb) as Hext.
    { intros n En Hn' p [Hp| ->]%prefix_snoc_inv; [by apply Hall|].
      rewrite fmap_app. simpl. by rewrite En. }
    rewrite trailing_snoc in Hext.
    destruct (counts o) as [[]|] eqn:Eo.
    + destruct Hcase as [Hf' ->]. rewrite Hm, Hn in *.
      destruct (_ <=? _) eqn:E; bool_to_prop; [right|left].
      * split; [done|]. exists (os ++ [(o, now)]). split; [done|].
        rewrite fmap_app. simpl. rewrite trailing_snoc, Eo. lia.
      * split_and!; [done|lia|]. eapply Hext; [done|lia].
    + destruct Hcase as [-> ->]. left. split_and!; [done|done|]. by apply (Hext 0).
    + rewrite Hcase. left. split_and!; [done|done|]. apply (Hext (trailing os.*1)); [done|]. by apply Hall.
  - rewrite consecutive_leave_open by done. split; [done|]. right. split; [done|]. exists p.
    split; [by apply prefix_app_r | done].
Qed.

(** A closed breaker opens exactly when the calls that ended include
    [maxFailures] consecutive failures or panics (successes break the run,
    cancelled calls neither count nor break it); as long as it is closed
    [Failures()] is the length of the current run. *)
Lemma consecutive_trips cb os :
  state (gate_ cb) = StateClosed → failures cb = 0 → 0 < maxFailures cb →
  let cb' := completions cb os in
  (state (gate_ cb') = StateOpen ↔ ∃ p, p `prefix_of` os ∧ maxFailures cb <= trailing p.*1) ∧
  (state (gate_ cb') = StateOpen ∨ state (gate_ cb') = StateClosed ∧ Failures cb' = trailing os.*1).
Proof.
  intros Hc Hf Hm. cbv zeta.
  destruct (completions_max cb os Hc Hf Hm) as (_ & [(Hs & Hn & Hall)|(Hs & Hex)]).
  - split; [|by right]. split; [congruence|]. intros (p & Hp & Hle). specialize (Hall p Hp). lia.
  - split; [done|by left].
Qed.

Definition boom : error := ErrNew "boom".

Lemma consecutive_trips_witness :
  let cb := NewConsecutiveBreaker 2 Second [] in
  let os := [(Returned (Some boom), 1); (Returned (Some Canceled), 2); (Panicked, 3)] in
  (state (gate_ (completions cb os)) = StateOpen ↔
    ∃ p, p `prefix_of` os ∧ maxFailures cb <= trailing p.*1) ∧
  (state (gate_ (completions cb os)) = StateOpen ∨
   state (gate_ (completions cb os)) = StateClosed ∧ Failures (completions cb os) = trailing os.*1).
Proof. apply consecutive_trips; [reflexivity|reflexivity|reflexivity]. Defined.

(** ** Instances of the theorems on all breakers *)

Definition cb1 : ConsecutiveBreaker := NewConsecutiveBreaker 1 Second [WithOnStateChange true].

(** A failure trips [cb1]; after the timeout a probe is admitted. *)
Definition failed1 : list event := [Enters None 0; Leaves 0 (Returned (Some boom)) None 1].
Definition probing1 : list event := failed1 ++ [Enters None (2 + Second)].

Lemma breaker_safety_witness :
  ∃ s, rtc sysStep (idle cb1) s ∧ probes (running s) = 1 ∧
    let g := gateOf (breaker s) in
    0 <= halfOpenInFlight g <= maxHalfOpen g ∧ gauge g = StateNumber (state g) ∧
    (onStateChange g = true → path StateClosed (changes g) (state g)) ∧
    notified s ++ owed s ≡ₚ changes g ∧
    (rtc orderlyStep (idle cb1) s → notified s ++ owed s = changes g).
Proof.
  exists (sysRun (idle cb1) probing1). split; [apply sysRun_steps|]. split; [vm_compute; reflexivity|].
  apply (proj1 breaker_safety cb1 [WithOnStateChange true] Second); try reflexivity. apply sysRun_steps.
Defined.

Lemma breaker_single_probe_witness :
  ∃ s, rtc sysStep (idle cb1) s ∧ probes (running s) = 1 ∧
    let g := gateOf (breaker s) in
    probes (running s) <= 1 ∧ (state g ≠ StateHalfOpen → probes (running s) = 0) ∧
    Forall (λ e, documented e = true) (changes g).
Proof.
  exists (sysRun (idle cb1) probing1). split; [apply sysRun_steps|]. split; [vm_compute; reflexivity|].
  apply (breaker_one_probe cb1 [WithOnStateChange true] Second); try reflexivity. apply sysRun_steps.
Defined.

(** The goroutine that has opened the circuit is late with its callback: the
    change to HALF_OPEN is announced before the change to OPEN. *)
Lemma callbacks_reordered :
  ∃ s, rtc sysStep (idle cb1) s ∧
    changes (gateOf (breaker s)) = [(StateClosed, StateOpen); (StateOpen, StateHalfOpen)] ∧
    notified s = [(StateOpen, StateHalfOpen); (StateClosed, StateOpen)].
Proof.
  exists (sysRun (idle cb1) (probing1 ++ [Announces 0; Notifies 0])). split; [apply sysRun_steps|]. by vm_compute.
Qed.

(** [cb1] after its failure. *)
Definition cbOpen : ConsecutiveBreaker := (leave (canExecute cb1 0).2 false (Returned (Some boom)) None 1).2.

Lemma breaker_not_frozen_witness :
  ∃ s, rtc sysStep (idle cb1) s ∧ state (gateOf (breaker s)) = StateOpen ∧
    ∃ p b', enter (breaker s) None (2 + Second) = (inr p, b').
Proof.
  exists (sysRun (idle cb1) failed1). split; [apply sysRun_steps|]. split; [vm_compute; reflexivity|].
  apply (proj1 breaker_not_frozen cb1 [WithOnStateChange true] Second); try reflexivity. apply sysRun_steps.
Defined.

Lemma breaker_rejects_witness :
  enter cbOpen None 2 = (inl ErrCircuitOpen, (enter cbOpen None 2).2) ∧
  gateOf (enter cbOpen None 2).2 = gateDefaults (60 * Second) (gateOf cbOpen).
Proof.
  destruct (enter cbOpen None 2) as [r b'] eqn:E.
  destruct (breaker_refuses cbOpen 2 r b') as [-> Hg]; [reflexivity|discriminate|exact E|].
  split; [reflexivity|exact Hg].
Defined.

(** ** More than one probe *)

(** Two probes run when one of them fails, and the timeout passes again. *)
Definition staleProbe : list event :=
  failed1 ++ [Enters None (2 + Second); Announces 0; Enters None (2 + Second);
              Leaves 0 (Returned (Some boom)) None (3 + Second)].
Definition twoProbes : ConsecutiveBreaker :=
  NewConsecutiveBreaker 1 Second [WithHalfOpenProbes 2; WithOnStateChange true].

(** With a maximum of two half-open probes the breaker may run three
    probes at once, and may close on the success of a probe of an earlier
    half-open period while the circuit is open: when a probe fails the others
    stay in flight, and the next half-open period starts counting at one. *)
Lemma stale_probes :
  (∃ s, rtc sysStep (idle twoProbes) s ∧ maxHalfOpen (gateOf (breaker s)) = 2 ∧ probes (running s) = 3) ∧
  (∃ s, rtc sysStep (idle twoProbes) s ∧ (StateOpen, StateClosed) ∈ changes (gateOf (breaker s))).
Proof.
  split.
  - exists (sysRun (idle twoProbes) (staleProbe ++ [Enters None (4 + 2 * Second); Enters None (4 + 2 * Second)])).
    split; [apply sysRun_steps|]. by vm_compute.
  - exists (sysRun (idle twoProbes) (staleProbe ++ [Leaves 0 (Returned None) None (4 + Second)])).
    split; [apply sysRun_steps|]. apply list_elem_of_lookup. exists 3%nat. by vm_compute.
Qed.
