(* ===== verification/Float64.v ===== *)
(** Go's [float64]: IEEE 754 binary64 with rounding to nearest, ties to even,
    on the specification floats of the standard library. *)
From S2P Require Import Prelude.
From Stdlib Require Export SpecFloat.

Definition prec64 : Z := 53.
Definition emax64 : Z := 1024.

Definition float64 := spec_float.

(** [float64(n)] of an integer. *)
Definition of_int (n : Z) : float64 := binary_normalize prec64 emax64 n 0 false.

Definition fadd : float64 → float64 → float64 := SFadd prec64 emax64.
Definition fsub : float64 → float64 → float64 := SFsub prec64 emax64.
Definition fmul : float64 → float64 → float64 := SFmul prec64 emax64.
Definition fdiv : float64 → float64 → float64 := SFdiv prec64 emax64.
Definition fltb : float64 → float64 → bool := SFltb.
Definition fleb : float64 → float64 → bool := SFleb.

Definition f0 : float64 := of_int 0.
Definition f1 : float64 := of_int 1.
(** The constant 0.5. *)
Definition fhalf : float64 := fdiv f1 (of_int 2).

(** Conversion to an integer truncates towards zero; out of the range of the
    target, and for NaN and infinities, the result is implementation-specific
    ([None]). *)
Definition to_int64 (f : float64) : option Z :=
  match f with
  | S754_zero _ => Some 0
  | S754_finite s m e =>
      let a := if 0 <=? e then Z.pos m * 2 ^ e else Z.pos m / 2 ^ (- e) in
      let z := if s then - a else a in
      if (minInt64 <=? z) && (z <=? maxInt64) then Some z else None
  | _ => None
  end.

Definition to_uint64 (f : float64) : option Z :=
  match f with
  | S754_zero _ => Some 0
  | S754_finite s m e =>
      let a := if 0 <=? e then Z.pos m * 2 ^ e else Z.pos m / 2 ^ (- e) in
      let z := if s then - a else a in
      if (0 <=? z) && (z <? 2 ^ 64) then Some z else None
  | _ => None
  end.
