(* ===== verification/Strconv.v ===== *)
(** What the components use of package strconv, of [fmt.Sscanf] with "%d", and
    [time.ParseDuration]: numbers and their texts. *)
From S2P Require Import Prelude Text Base64 Float64.
From stdpp Require Import pretty.
#[local] Open Scope Z_scope.

(** [strconv.Itoa]. *)
Definition Itoa (n : Z) : string := pretty n.

(** ** Digits *)

Definition isDigit (a : Ascii.ascii) : bool := (48 <=? byteOf a) && (byteOf a <=? 57).
Definition digitValue (a : Ascii.ascii) : Z := byteOf a - 48.

(** The value of the digits of [s] after those of [x]. *)
Fixpoint digitsVal (x : Z) (s : string) : Z :=
  match s with
  | EmptyString => x
  | String a s' => digitsVal (x * 10 + digitValue a) s'
  end.

(** The longest prefix of digits, and the rest. *)
Fixpoint spanDigits (s : string) : string * string :=
  match s with
  | String a s' => if isDigit a then let '(d, r) := spanDigits s' in (String a d, r) else (EmptyString, s)
  | EmptyString => (EmptyString, EmptyString)
  end.

(** An optional sign: negative, and the rest. *)
Definition sign (s : string) : bool * string :=
  match s with
  | String a s' => if byteOf a =? 45 then (true, s') else if byteOf a =? 43 then (false, s') else (false, s)
  | EmptyString => (false, EmptyString)
  end.

Definition signed (neg : bool) (v : Z) : option Z :=
  let n := if neg then - v else v in
  if (minInt64 <=? n) && (n <=? maxInt64) then Some n else None.

(** [strconv.Atoi]: the whole text must be a sign and digits, in range. *)
Definition Atoi (s : string) : option Z :=
  let '(neg, s1) := sign s in
  let '(ds, rest) := spanDigits s1 in
  if negb (bool_decide (ds = "")) && bool_decide (rest = "") then signed neg (digitsVal 0 ds) else None.

(** [fmt.Sscanf(s, "%d", &v)]: white space but no line break first, then a
    sign and digits; what follows is not looked at. *)
Definition Sscanf_d (s : string) : option Z :=
  let '(neg, s1) := sign (trimLeftBy (λ a, isSpace a && negb (byteOf a =? 10)) s) in
  let '(ds, _) := spanDigits s1 in
  if bool_decide (ds = "") then None else signed neg (digitsVal 0 ds).

(** [strconv.ParseBool]. *)
Definition ParseBool (s : string) : option bool :=
  if bool_decide (s ∈ ["1"; "t"; "T"; "true"; "TRUE"; "True"]) then Some true
  else if bool_decide (s ∈ ["0"; "f"; "F"; "false"; "FALSE"; "False"]) then Some false
  else None.

(** ** time.ParseDuration *)

Definition two63 : Z := 9223372036854775808.

(** [leadingInt]: an error when the number exceeds [1<<63]. *)
Fixpoint leadingInt (s : string) (x : Z) : option (Z * string) :=
  match s with
  | String a s' =>
      if isDigit a then
        if two63 / 10 <? x then None
        else
          let x' := x * 10 + digitValue a in
          if two63 <? x' then None else leadingInt s' x'
      else Some (x, s)
  | EmptyString => Some (x, s)
  end.

(** [leadingFraction]: digits beyond the precision are dropped. *)
Fixpoint leadingFraction (s : string) (x : Z) (scale : float64) (overflow : bool) : Z * float64 * string :=
  match s with
  | String a s' =>
      if isDigit a then
        if overflow then leadingFraction s' x scale true
        else if maxInt64 / 10 <? x then leadingFraction s' x scale true
        else
          let y := x * 10 + digitValue a in
          if two63 <? y then leadingFraction s' x scale true
          else leadingFraction s' y (fmul scale (of_int 10)) false
      else (x, scale, s)
  | EmptyString => (x, scale, s)
  end.

Definition isDot (a : Ascii.ascii) : bool := byteOf a =? 46.

(** The unit: everything up to a digit or a dot. *)
Fixpoint spanUnit (s : string) : string * string :=
  match s with
  | String a s' => if isDot a || isDigit a then (EmptyString, s) else let '(u, r) := spanUnit s' in (String a u, r)
  | EmptyString => (EmptyString, EmptyString)
  end.

(** The two letters mu in UTF-8. *)
Definition mu1 : string := String (ofByte 194) (String (ofByte 181) "s").
Definition mu2 : string := String (ofByte 206) (String (ofByte 188) "s").

Definition unitMap : list (string * Z) :=
  [("ns", 1); ("us", 1000); (mu1, 1000); (mu2, 1000); ("ms", 1000000); ("s", Second); ("m", Minute); ("h", 60 * Minute)].

Fixpoint unitOf (units : list (string * Z)) (u : string) : option Z :=
  match units with
  | [] => None
  | (name, n) :: units' => if bool_decide (name = u) then Some n else unitOf units' u
  end.

(** One term of a duration: its value in nanoseconds and the rest. The conversion
    of the fraction is in the range of uint64. *)
Definition durationTerm (s : string) : option (Z * string) :=
  match s with
  | EmptyString => None
  | String a _ =>
      if negb (isDot a || isDigit a) then None
      else
        '(v, s1) ← leadingInt s 0;
        let pre := negb (bool_decide (s1 = s)) in
        let '(f, scale, s2, post) :=
          match s1 with
          | String b s1' =>
              if isDot b then
                let '(f, scale, s2) := leadingFraction s1' 0 f1 false in (f, scale, s2, negb (bool_decide (s2 = s1')))
              else (0, f1, s1, false)
          | EmptyString => (0, f1, s1, false)
          end in
        if negb pre && negb post then None
        else
          let '(u, s3) := spanUnit s2 in
          if bool_decide (u = "") then None
          else
            unit ← unitOf unitMap u;
            if two63 / unit <? v then None
            else if 0 <? f then
              frac ← to_int64 (fmul (of_int f) (fdiv (of_int unit) scale));
              let v1 := v * unit + frac in
              if two63 <? v1 then None else Some (v1, s3)
            else Some (v * unit, s3)
  end.

(** The loop over the terms; each takes at least one character. *)
Fixpoint durationLoop (fuel : nat) (s : string) (d : Z) : option Z :=
  match s, fuel with
  | EmptyString, _ => Some d
  | _, O => None
  | _, S fuel' =>
      '(v, s1) ← durationTerm s;
      if two63 <? d + v then None else durationLoop fuel' s1 (d + v)
  end.

Definition ParseDuration (s : string) : option Duration :=
  let '(neg, s1) := sign s in
  if bool_decide (s1 = "0") then Some 0
  else if bool_decide (s1 = "") then None
  else
    d ← durationLoop (String.length s1) s1 0;
    if neg then Some (- d) else if maxInt64 <? d then None else Some d.

(** ** Printing and reading digits *)

Definition allDigits (s : string) : Prop := allChars isDigit s = true.

Lemma digitsVal_app x s t : digitsVal x (s +:+ t) = digitsVal (digitsVal x s) t.
Proof. revert x. induction s as [|a s IH]; intros x; [done|]. apply IH. Qed.

Lemma pretty_N_char_digit x : (x < 10)%N → isDigit (pretty_N_char x) = true ∧ digitValue (pretty_N_char x) = Z.of_N x.
Proof.
  intros Hx. assert (x = 0 ∨ x = 1 ∨ x = 2 ∨ x = 3 ∨ x = 4 ∨ x = 5 ∨ x = 6 ∨ x = 7 ∨ x = 8 ∨ x = 9)%N as H by lia.
  by destruct_or?; subst.
Qed.

Lemma allChars_app p s t : allChars p (s +:+ t) = allChars p s && allChars p t.
Proof.
  induction s as [|a s IH]; [done|]. change (p a && allChars p (s +:+ t) = p a && allChars p s && allChars p t).
  by rewrite IH, andb_assoc.
Qed.

Lemma pretty_go_spec n : ∀ s, ∃ ds, pretty_N_go n s = ds +:+ s ∧ allDigits ds ∧ digitsVal 0 ds = Z.of_N n ∧
  ((0 < n)%N → ds ≠ "").
Proof.
  induction (N.lt_wf_0 n) as [n _ IH]; intros s.
  assert (n = 0 ∨ 0 < n)%N as [->|Hn] by lia.
  { exists "". by rewrite pretty_N_go_0. }
  rewrite pretty_N_go_step by done.
  destruct (IH (n `div` 10)%N ltac:(by apply N.div_lt) (String (pretty_N_char (n `mod` 10)) s)) as (ds & E & Hd & Hv & _).
  destruct (pretty_N_char_digit (n `mod` 10)) as [Hc Hcv]; [by apply N.mod_lt|].
  exists (ds +:+ String (pretty_N_char (n `mod` 10)) ""). rewrite E, append_assoc'. split_and!; [done| | |].
  - unfold allDigits. rewrite allChars_app, Hd. cbn [allChars]. by rewrite Hc.
  - rewrite digitsVal_app, Hv. cbn [digitsVal]. rewrite Hcv.
    rewrite (N.div_mod n 10) at 3 by done. rewrite N2Z.inj_add, N2Z.inj_mul. lia.
  - intros _. by destruct ds.
Qed.

(** The text of a natural number: digits with its value. *)
Lemma pretty_digits n : 0 <= n → allDigits (Itoa n) ∧ digitsVal 0 (Itoa n) = n ∧ Itoa n ≠ "".
Proof.
  intros Hn. destruct n as [|p|p]; [done| |lia]. unfold Itoa, pretty, pretty_Z, pretty, pretty_positive, pretty, pretty_N.
  rewrite decide_False by done. destruct (pretty_go_spec (N.pos p) "") as (ds & -> & Hd & Hv & Hne).
  rewrite append_empty_r. split_and!; [done|done|]. by apply Hne.
Qed.

(** A text that does not go on with a digit. *)
Definition noDigit (s : string) : Prop := match s with String a _ => isDigit a = false | EmptyString => True end.

Lemma spanDigits_all ds rest : allDigits ds → noDigit rest → spanDigits (ds +:+ rest) = (ds, rest).
Proof.
  intros Hd Hr. induction ds as [|a ds IH].
  - destruct rest as [|b rest]; [done|]. cbn in Hr. change (spanDigits (String b rest) = ("", String b rest)).
    cbn. by rewrite Hr.
  - apply andb_prop in Hd as [Ha Hd]. change (spanDigits (String a (ds +:+ rest)) = (String a ds, rest)).
    cbn [spanDigits]. by rewrite Ha, IH.
Qed.

(** A digit is no sign. *)
Lemma sign_digits ds rest : allDigits ds → ds ≠ "" → sign (ds +:+ rest) = (false, ds +:+ rest).
Proof.
  intros Hd Hne. destruct ds as [|a ds]; [done|]. apply andb_prop in Hd as [Ha _].
  change (sign (String a (ds +:+ rest)) = (false, String a (ds +:+ rest))). unfold isDigit in Ha. bool_to_prop.
  cbn [sign]. by rewrite (proj2 (Z.eqb_neq _ 45)), (proj2 (Z.eqb_neq _ 43)) by lia.
Qed.

(** The texts of integers: a minus sign if negative, then digits. *)
Lemma Itoa_sign n : ∃ ds, sign (Itoa n) = (n <? 0, ds) ∧ allDigits ds ∧ ds ≠ "" ∧ digitsVal 0 ds = Z.abs n.
Proof.
  destruct (Z.ltb_spec n 0) as [Hn|Hn].
  - destruct n as [|p|p]; [lia|lia|]. exists (Itoa (Z.pos p)).
    destruct (pretty_digits (Z.pos p) ltac:(lia)) as (Hd & Hv & Hne). done.
  - destruct (pretty_digits n Hn) as (Hd & Hv & Hne). exists (Itoa n).
    pose proof (sign_digits (Itoa n) "" Hd Hne) as E. rewrite append_empty_r in E.
    split_and!; [done..|]. by rewrite Z.abs_eq.
Qed.

Lemma signed_abs n : in_int64 n → signed (n <? 0) (Z.abs n) = Some n.
Proof.
  unfold in_int64, signed. intros [H1 H2]. cbv zeta.
  assert ((if n <? 0 then - Z.abs n else Z.abs n) = n) as -> by (destruct (Z.ltb_spec n 0); lia).
  by rewrite (proj2 (Z.leb_le _ _) H1), (proj2 (Z.leb_le _ _) H2).
Qed.

Lemma Atoi_Itoa n : in_int64 n → Atoi (Itoa n) = Some n.
Proof.
  intros Hn. destruct (Itoa_sign n) as (ds & Es & Hd & Hne & Hv). unfold Atoi. rewrite Es.
  pose proof (spanDigits_all ds "" Hd I) as E. rewrite append_empty_r in E. rewrite E.
  rewrite bool_decide_false by done. cbn. rewrite Hv. by apply signed_abs.
Qed.

(** What [Atoi] accepts is in range. *)
Lemma signed_range neg v n : signed neg v = Some n → in_int64 n ∧ n = if neg then - v else v.
Proof. unfold signed, in_int64. cbv zeta. case_match eqn:E; intros [= <-]. bool_to_prop. by destruct neg. Qed.

Lemma Atoi_range s n : Atoi s = Some n → in_int64 n.
Proof.
  unfold Atoi. destruct (sign s) as [neg s1]. destruct (spanDigits s1) as [ds rest]. case_match; [|done].
  by intros [? _]%signed_range.
Qed.

(** ** Durations *)

Lemma digitsVal_le ds x : allDigits ds → 0 <= x → x <= digitsVal x ds.
Proof.
  revert x. induction ds as [|a ds IH]; intros x Hd Hx; [done|]. apply andb_prop in Hd as [Ha Hd].
  unfold isDigit in Ha. bool_to_prop. cbn [digitsVal]. unfold digitValue.
  specialize (IH (x * 10 + (byteOf a - 48)) Hd ltac:(lia)). lia.
Qed.

(** [leadingInt] reads a number up to [1<<63]. *)
Lemma leadingInt_digits ds rest x : allDigits ds → noDigit rest → 0 <= x →
  leadingInt (ds +:+ rest) x = if (two63 <? digitsVal x ds) && negb (bool_decide (ds = "")) then None else Some (digitsVal x ds, rest).
Proof.
  revert x. induction ds as [|a ds IH]; intros x Hd Hr Hx.
  - rewrite andb_false_r. change ("" +:+ rest) with rest. destruct rest as [|b rest]; [done|]. cbn in *. by rewrite Hr.
  - apply andb_prop in Hd as [Ha Hd]. change (String a ds +:+ rest) with (String a (ds +:+ rest)).
    cbn [leadingInt]. rewrite Ha. pose proof Ha as Ha'. unfold isDigit in Ha'. bool_to_prop. cbn [digitsVal].
    assert (0 <= x * 10 + digitValue a) as Hx' by (unfold digitValue; lia).
    pose proof (digitsVal_le ds _ Hd Hx') as Hle. rewrite bool_decide_false by done. rewrite andb_true_r.
    destruct (Z.ltb_spec (two63 / 10) x).
    { assert (two63 < digitsVal (x * 10 + digitValue a) ds) as Hv.
      { unfold digitValue in *. unfold two63 in *. Z.to_euclidean_division_equations. lia. }
      by rewrite (proj2 (Z.ltb_lt _ _) Hv). }
    cbv zeta. destruct (Z.ltb_spec two63 (x * 10 + digitValue a)).
    { by rewrite (proj2 (Z.ltb_lt two63 (digitsVal _ _))) by lia. }
    rewrite IH by done. destruct ds as [|b ds].
    + cbn. by rewrite (proj2 (Z.ltb_ge two63 _)) by done.
    + by rewrite bool_decide_false, andb_true_r by done.
Qed.

(** The text of a duration: numbers with their units. *)
Definition termText (t : Z * string) : string := Itoa t.1 +:+ t.2.
Fixpoint durationText (ts : list (Z * string)) : string :=
  match ts with [] => "" | t :: ts' => termText t +:+ durationText ts' end.

(** Its terms have a number that is not negative and a known unit. *)
Definition knownTerm (t : Z * string) : Prop := 0 <= t.1 ∧ is_Some (unitOf unitMap t.2).
Definition termValue (t : Z * string) : Z := t.1 * default 0 (unitOf unitMap t.2).
Definition durationValue (ts : list (Z * string)) : Z := foldr (λ t acc, termValue t + acc) 0 ts.

Lemma unitOf_cases u n : unitOf unitMap u = Some n →
  u ∈ unitMap.*1 ∧ 1 <= n.
Proof.
  unfold unitMap. cbn [unitOf]. repeat (case_bool_decide; [intros [= <-]; subst; split; [set_solver|unfold Minute, Second; lia]|]).
  done.
Qed.

(** A unit does not start with a digit or a dot, and ends before a digit. *)
Definition startsTerm (s : string) : Prop := match s with String a _ => isDigit a = true | EmptyString => True end.

Lemma spanUnit_unit u n rest : unitOf unitMap u = Some n → startsTerm rest →
  spanUnit (u +:+ rest) = (u, rest) ∧ u ≠ "" ∧ noDigit (u +:+ rest) ∧
  match u +:+ rest with String b _ => isDot b = false | EmptyString => False end.
Proof.
  intros [Hu _]%unitOf_cases Hr.
  assert (spanUnit rest = ("", rest)) as E.
  { destruct rest as [|b rest]; [done|]. cbn in Hr |- *. by rewrite Hr, orb_true_r. }
  assert (∃ a u', u = String a u' ∧ allChars (λ a, negb (isDot a || isDigit a)) u = true) as (a & u' & -> & Ha).
  { clear -Hu. unfold unitMap in Hu. cbn in Hu. repeat (apply elem_of_cons in Hu as [->|Hu]; [by eexists _, _|]).
    by apply not_elem_of_nil in Hu. }
  split_and!; [|done| |].
  - clear -E Ha. induction (String a u') as [|b u IH]; [exact E|].
    cbn in Ha. apply andb_prop in Ha as [Hb Ha]. apply negb_true_iff in Hb.
    change (spanUnit (String b (u +:+ rest)) = (String b u, rest)). cbn [spanUnit]. by rewrite Hb, IH.
  - cbn in Ha. apply andb_prop in Ha as [Hb _]. apply negb_true_iff, orb_false_iff in Hb as [_ Hb]. exact Hb.
  - cbn in Ha. apply andb_prop in Ha as [Hb _]. apply negb_true_iff, orb_false_iff in Hb as [Hb _]. exact Hb.
Qed.

Lemma length_append s t : String.length (s +:+ t) = (String.length s + String.length t)%nat.
Proof. induction s as [|a s IH]; [done|]. change (S (String.length (s +:+ t)) = S (String.length s + String.length t)). by rewrite IH. Qed.

Lemma durationTerm_text v u n rest : 0 <= v → unitOf unitMap u = Some n → startsTerm rest →
  durationTerm (termText (v, u) +:+ rest) = if two63 / n <? v then None else Some (v * n, rest).
Proof.
  intros Hv Hu Hr. destruct (pretty_digits v Hv) as (Hd & Hval & Hne).
  destruct (spanUnit_unit u n rest Hu Hr) as (Hspan & Hu0 & Hnd & Hdot). destruct (unitOf_cases u n Hu) as [_ Hn].
  unfold termText. cbn [fst snd]. rewrite append_assoc'. set (t := u +:+ rest) in *.
  assert (two63 < v → two63 / n < v) as Hbig.
  { intros. assert (two63 / n <= two63); [|lia]. apply Z.div_le_upper_bound; unfold two63; nia. }
  pose proof (leadingInt_digits (Itoa v) t 0 Hd Hnd ltac:(lia)) as HL. rewrite Hval, bool_decide_false, andb_true_r in HL by done.
  assert (Hne2 : t ≠ Itoa v +:+ t).
  { intros E. apply (f_equal String.length) in E. rewrite length_append in E. destruct (Itoa v); [done|]. cbn in E. lia. }
  unfold durationTerm. destruct (Itoa v +:+ t) as [|a w] eqn:Ew; [by destruct (Itoa v)|].
  assert (isDigit a = true) as ->.
  { destruct (Itoa v) as [|b w'] eqn:Ev; [done|]. injection Ew as -> _. by apply andb_prop in Hd as [-> _]. }
  rewrite orb_true_r. cbn [negb]. rewrite HL.
  destruct (Z.ltb_spec two63 v) as [Hb|Hb]; [by rewrite (proj2 (Z.ltb_lt _ _) (Hbig Hb))|]. cbn [mbind option_bind].
  rewrite bool_decide_false by done. cbn [negb].
  destruct t as [|b t']; [done|]. rewrite Hdot. cbn [negb andb]. rewrite Hspan, bool_decide_false by done.
  rewrite Hu. cbn [mbind option_bind]. by destruct (two63 / n <? v).
Qed.

Lemma termText_starts v u : 0 <= v → ∀ rest, startsTerm (termText (v, u) +:+ rest).
Proof.
  intros Hv rest. destruct (pretty_digits v Hv) as (Hd & _ & Hne). unfold termText. cbn [fst snd]. rewrite append_assoc'.
  destruct (Itoa v) as [|a w]; [done|]. by apply andb_prop in Hd as [? _].
Qed.

Lemma durationText_starts ts : Forall knownTerm ts → startsTerm (durationText ts).
Proof. intros [|[v u] ts' [Hv _] _]; [done|]. by apply termText_starts. Qed.

Lemma durationValue_nonneg ts : Forall knownTerm ts → 0 <= durationValue ts.
Proof.
  intros Hts. induction Hts as [|[v u] ts [Hv [n Hu]] Hts IH]; [done|]. cbn [durationValue foldr]. fold (durationValue ts).
  unfold termValue. cbn [fst snd] in *. rewrite Hu. cbn [default from_option id]. pose proof (unitOf_cases u n Hu) as [_ ?]. nia.
Qed.

Lemma durationLoop_text ts fuel d : Forall knownTerm ts → 0 <= d <= two63 → (String.length (durationText ts) <= fuel)%nat →
  durationLoop fuel (durationText ts) d = if two63 <? d + durationValue ts then None else Some (d + durationValue ts).
Proof.
  intros Hts. revert fuel d. induction Hts as [|[v u] ts [Hv [n Hu]] Hts IH]; intros fuel d Hd Hf.
  - change (durationValue []) with 0. rewrite Z.add_0_r, (proj2 (Z.ltb_ge two63 d)) by lia. by destruct fuel.
  - cbn [fst snd] in Hv, Hu. pose proof (durationTerm_text v u n (durationText ts) Hv Hu (durationText_starts ts Hts)) as E.
    cbn [durationText] in *. destruct (termText (v, u) +:+ durationText ts) as [|a w] eqn:Ew.
    { exfalso. revert Ew. unfold termText. cbn. destruct (pretty_digits v Hv) as (_ & _ & ?). by destruct (Itoa v). }
    destruct fuel as [|fuel]; [cbn in Hf; lia|]. cbn [durationLoop]. rewrite E.
    assert (String.length (durationText ts) <= fuel)%nat as Hf'.
    { rewrite <-Ew in Hf. clear -Hf Hv. unfold termText in Hf. cbn [fst snd] in Hf.
      destruct (pretty_digits v Hv) as (_ & _ & Hne). rewrite !length_append in Hf.
      destruct (Itoa v) as [|b w]; [done|]. cbn in Hf. lia. }
    destruct (unitOf_cases u n Hu) as [_ Hn]. pose proof (durationValue_nonneg ts Hts).
    cbn [durationValue foldr]. fold (durationValue ts). unfold termValue at 1 2. cbn [fst snd]. rewrite Hu. cbn [default from_option id].
    destruct (Z.ltb_spec (two63 / n) v) as [Hbig|Hbig].
    + assert (two63 < v * n) by (unfold two63 in *; Z.to_euclidean_division_equations; nia). cbn.
      by rewrite (proj2 (Z.ltb_lt two63 _)) by lia.
    + cbn [mbind option_bind]. destruct (Z.ltb_spec two63 (d + v * n)) as [Hs|Hs].
      * by rewrite (proj2 (Z.ltb_lt two63 _)) by lia.
      * rewrite IH; [by rewrite Z.add_assoc|nia|done].
Qed.

Lemma ParseDuration_text ts (neg : bool) : Forall knownTerm ts → ts ≠ [] →
  ParseDuration ((if neg then "-" else "") +:+ durationText ts) =
  let d := if neg then - durationValue ts else durationValue ts in
  if (minInt64 <=? d) && (d <=? maxInt64) then Some d else None.
Proof.
  intros Hts Hne. destruct ts as [|[v u] ts]; [done|]. clear Hne.
  pose proof (durationLoop_text _ (String.length (durationText ((v, u) :: ts))) 0 Hts ltac:(unfold two63; lia) ltac:(lia)) as E.
  pose proof (durationValue_nonneg _ Hts) as Hpos. apply Forall_cons in Hts as [[Hv [n Hu]] Hts].
  cbn [fst snd] in Hv, Hu. destruct (pretty_digits v Hv) as (Hd & _ & Hne).
  set (s := durationText ((v, u) :: ts)) in *. set (total := durationValue ((v, u) :: ts)) in *.
  assert (Es : sign ((if neg then "-" else "") +:+ s) = (neg, s)).
  { destruct neg; [done|]. change ("" +:+ s) with s. unfold s. cbn [durationText]. unfold termText. cbn [fst snd].
    rewrite append_assoc'. by apply sign_digits. }
  assert (s ≠ "0" ∧ s ≠ "") as [H0 H1].
  { unfold s. cbn [durationText]. unfold termText. cbn [fst snd]. rewrite append_assoc'.
    destruct (unitOf_cases u n Hu) as [_ ?]. destruct (Itoa v) as [|a [|b w]]; [done| |done].
    split; [|done]. destruct u as [|c u]; [by vm_compute in Hu|done]. }
  unfold ParseDuration. rewrite Es, !bool_decide_false by done. rewrite E, Z.add_0_l. cbv zeta.
  unfold two63, minInt64, maxInt64. clearbody total.
  destruct (Z.ltb_spec 9223372036854775808 total); cbn [mbind option_bind].
  - destruct neg; [by rewrite (proj2 (Z.leb_gt _ (- total))) by lia|].
    by rewrite (proj2 (Z.leb_gt total _)), andb_false_r by lia.
  - destruct neg; [by rewrite (proj2 (Z.leb_le _ (- total))), (proj2 (Z.leb_le (- total) _)) by lia|].
    rewrite (proj2 (Z.leb_le _ total)) by lia. cbn [andb].
    destruct (Z.ltb_spec 9223372036854775807 total); [by rewrite (proj2 (Z.leb_gt total _)) by lia|].
    by rewrite (proj2 (Z.leb_le total _)) by lia.
Qed.
