(* ===== verification/Env.v ===== *)
(** Typed environment variables with defaults (env/env.go). *)
From S2P Require Import Prelude Text Base64 Float64 Strconv.

(** The environment of the process; [os.Getenv] gives "" for an unset variable. *)
Definition environment := gmap string string.
Definition Getenv (e : environment) (key : string) : string := default "" (e !! key).

Definition String_ (e : environment) (key defaultVal : string) : string :=
  if bool_decide (Getenv e key = "") then defaultVal else Getenv e key.

Definition Int (e : environment) (key : string) (defaultVal : Z) : Z :=
  let val := Getenv e key in
  if bool_decide (val = "") then defaultVal
  else match Atoi val with None => defaultVal | Some parsed => parsed end.

Definition Bool (e : environment) (key : string) (defaultVal : bool) : bool :=
  let val := Getenv e key in
  if bool_decide (val = "") then defaultVal
  else match ParseBool (TrimSpace val) with None => defaultVal | Some parsed => parsed end.

Definition Duration_ (e : environment) (key : string) (defaultVal : Duration) : Duration :=
  let val := Getenv e key in
  if bool_decide (val = "") then defaultVal
  else match ParseDuration val with None => defaultVal | Some parsed => parsed end.

(** The panics of the last two. *)
Inductive panic := NotSet (key : string) | NotAnInteger (key val : string).

Definition MustString (e : environment) (key : string) : string + panic :=
  let val := Getenv e key in if bool_decide (val = "") then inr (NotSet key) else inl val.

Definition MustInt (e : environment) (key : string) : Z + panic :=
  match MustString e key with
  | inr p => inr p
  | inl val => match Atoi val with None => inr (NotAnInteger key val) | Some parsed => inl parsed end
  end.

(** ** What is read back *)

Lemma Getenv_set e key v : e !! key = Some v → Getenv e key = v.
Proof. unfold Getenv. by intros ->. Qed.

Lemma durationText_nonempty ts (neg : bool) : Forall knownTerm ts → ts ≠ [] → (if neg then "-" else "") +:+ durationText ts ≠ "".
Proof.
  intros Hts Hne. destruct neg; [done|]. destruct Hts as [|[v u] ts [Hv _] Hts]; [done|]. clear Hne.
  cbn [durationText]. unfold termText. cbn [fst snd] in *. destruct (pretty_digits v Hv) as (_ & _ & Hne). by destruct (Itoa v).
Qed.

Lemma ParseBool_disjoint s :
  s ∈ ["1"; "t"; "T"; "true"; "TRUE"; "True"] → s ∈ ["0"; "f"; "F"; "false"; "FALSE"; "False"] → False.
Proof.
  intros H1 H2. repeat (apply elem_of_cons in H1 as [->|H1];
    [by repeat (apply elem_of_cons in H2 as [H2|H2]; [done|]); apply not_elem_of_nil in H2|]).
  by apply not_elem_of_nil in H1.
Qed.

(** What a service reads from its environment. An unset or empty variable
    gives the default, or the panic of the Must functions; the text of an
    integer of 64 bits, and only a text whose value is one, is read as that integer; a
    duration written as numbers with units, with or without a minus sign, is read as the sum of
    its terms when that fits into 64 bits, and gives the default otherwise; a boolean is one of
    twelve words between white space. *)
Lemma env_values e key :
  (Getenv e key = "" →
     (∀ d, String_ e key d = d) ∧ (∀ d, Int e key d = d) ∧ (∀ d, Bool e key d = d) ∧ (∀ d, Duration_ e key d = d) ∧
     MustString e key = inr (NotSet key) ∧ MustInt e key = inr (NotSet key)) ∧
  (∀ n d, in_int64 n → e !! key = Some (Itoa n) → Int e key d = n ∧ MustInt e key = inl n) ∧
  (∀ d, Int e key d = d ∨ in_int64 (Int e key d) ∧ MustInt e key = inl (Int e key d)) ∧
  (∀ ts (neg : bool) d, Forall knownTerm ts → ts ≠ [] → e !! key = Some ((if neg then "-" else "") +:+ durationText ts) →
     let total := if neg then - durationValue ts else durationValue ts in
     (in_int64 total → Duration_ e key d = total) ∧ (¬ in_int64 total → Duration_ e key d = d)) ∧
  (∀ b, (∀ d, Bool e key d = b) ↔
     TrimSpace (Getenv e key) ∈ if b then ["1"; "t"; "T"; "true"; "TRUE"; "True"] else ["0"; "f"; "F"; "false"; "FALSE"; "False"]).
Proof.
  split_and!.
  - intros E. unfold String_, Int, Bool, Duration_, MustInt, MustString. by rewrite E.
  - intros n d Hn E. unfold Int, MustInt, MustString. rewrite (Getenv_set _ _ _ E).
    destruct (Itoa_sign n) as (ds & Hs & _ & Hne & _).
    assert (Itoa n ≠ "") by (intros E'; rewrite E' in Hs; by injection Hs as _ <-). rewrite !bool_decide_false by done.
    by rewrite Atoi_Itoa.
  - intros d. unfold Int, MustInt, MustString. cbv zeta. case_bool_decide; [by left|].
    destruct (Atoi (Getenv e key)) as [n|] eqn:E; [|by left]. right. split; [by apply Atoi_range in E|done].
  - intros ts neg d Hts Hne E. unfold Duration_. rewrite (Getenv_set _ _ _ E). cbv zeta.
    rewrite bool_decide_false by (by apply durationText_nonempty). rewrite ParseDuration_text by done. cbv zeta.
    unfold in_int64. destruct (_ && _) eqn:Eb; bool_to_prop; split; try done; lia.
  - intros b. unfold Bool. cbv zeta. case_bool_decide as E0.
    { rewrite E0. split; [intros H; pose proof (H true); pose proof (H false); congruence|].
      change (TrimSpace "") with "".
      destruct b; intros H; repeat (apply elem_of_cons in H as [H|H]; [discriminate|]); by apply not_elem_of_nil in H. }
    unfold ParseBool. case_bool_decide as Ht; [|case_bool_decide as Hf].
    + destruct b; [naive_solver|]. split; [intros H; by specialize (H true)|].
      intros H. by destruct (ParseBool_disjoint (TrimSpace (Getenv e key))).
    + destruct b; [|naive_solver]. split; [intros H; by specialize (H true)|done].
    + split; [intros H; pose proof (H true); pose proof (H false); congruence|]. by destruct b.
Qed.

Lemma env_values_witness :
  Duration_ {[ "T" := "1h30m" ]} "T" 5 = 90 * Minute ∧ Int {[ "N" := "-42" ]} "N" 7 = -42.
Proof.
  split.
  - destruct (env_values {[ "T" := "1h30m" ]} "T") as (_ & _ & _ & H & _).
    apply (H [(1, "h"); (30, "m")] false 5); [|done|by vm_compute|by vm_compute].
    repeat constructor; cbn; lia || by eexists.
  - destruct (env_values {[ "N" := "-42" ]} "N") as (_ & H & _). apply (H (-42) 7); [by vm_compute|by vm_compute].
Defined.
