(* ===== verification/RedMetrics.v ===== *)
(** Request metrics (ginmw/red_metrics.go): the counters of [MetricsTracker],
    which concurrent requests change by atomic additions, and the texts of the
    metrics endpoint. *)
From S2P Require Import Prelude Text Base64 Float64 Strconv.

(** ** The counters *)

Inductive field := FRequests | FErrors | F2xx | F4xx | F5xx | FActive | FDuration.

#[global] Instance field_eq_dec : EqDecision field.
Proof. solve_decision. Defined.

Record MetricsTracker := mkTracker {
  RequestsTotal : Z; ErrorsTotal : Z; Status2xx : Z; Status4xx : Z; Status5xx : Z;
  ActiveRequests : Z; DurationSumMs : Z;
}.

Definition zeroTracker : MetricsTracker := mkTracker 0 0 0 0 0 0 0.

(** The first five are [atomic.Uint64], the other two [atomic.Int64]. *)
Definition wrapU64 (z : Z) : Z := z mod 2 ^ 64.
Definition wrapField (f : field) (z : Z) : Z :=
  match f with FActive | FDuration => wrap64 z | _ => wrapU64 z end.

Definition load (t : MetricsTracker) (f : field) : Z :=
  match f with
  | FRequests => RequestsTotal t | FErrors => ErrorsTotal t | F2xx => Status2xx t | F4xx => Status4xx t
  | F5xx => Status5xx t | FActive => ActiveRequests t | FDuration => DurationSumMs t
  end.

(** [t.F.Add(d)]. *)
Definition add (t : MetricsTracker) (op : field * Z) : MetricsTracker :=
  let '(f, d) := op in
  let at_ g := if bool_decide (g = f) then wrapField f (load t g + d) else load t g in
  mkTracker (at_ FRequests) (at_ FErrors) (at_ F2xx) (at_ F4xx) (at_ F5xx) (at_ FActive) (at_ FDuration).

(** ** The middleware *)

(** The additions before [c.Next()], and those of the deferred function, for the
    status of the writer and the milliseconds since the start. *)
Definition beforeOps : list (field * Z) := [(FRequests, 1); (FActive, 1)].

Definition statusOps (status : Z) : list (field * Z) :=
  if (200 <=? status) && (status <? 300) then [(F2xx, 1)]
  else if (400 <=? status) && (status <? 500) then [(F4xx, 1); (FErrors, 1)]
  else if 500 <=? status then [(F5xx, 1); (FErrors, 1)]
  else [].

Definition afterOps (status duration : Z) : list (field * Z) :=
  (FActive, -1) :: (FDuration, duration) :: statusOps status.

Definition runOps (t : MetricsTracker) (ops : list (field * Z)) : MetricsTracker := foldl add t ops.

(** Concurrent requests: each has the additions it has made and those it is
    about to make; [serving] requests are inside [c.Next()]. *)
Inductive place := Entering | Serving | Leaving (status duration : Z).
Record proc := Proc { p_place : place; p_done : list (field * Z); p_todo : list (field * Z) }.

(** The tracker, the requests in the middleware, and the status and duration of
    those that have left it. *)
Record system := Sys { tracker : MetricsTracker; procs : list proc; served : list (Z * Z) }.

Inductive step : system → system → Prop :=
| StepStart t ps l : step (Sys t ps l) (Sys t (Proc Entering [] beforeOps :: ps) l)
| StepAdd t ps1 pl dn op todo ps2 l :
    step (Sys t (ps1 ++ Proc pl dn (op :: todo) :: ps2) l) (Sys (add t op) (ps1 ++ Proc pl (dn ++ [op]) todo :: ps2) l)
| StepNext t ps1 dn ps2 l :
    step (Sys t (ps1 ++ Proc Entering dn [] :: ps2) l) (Sys t (ps1 ++ Proc Serving dn [] :: ps2) l)
| StepServed t ps1 dn ps2 l status duration :
    step (Sys t (ps1 ++ Proc Serving dn [] :: ps2) l)
         (Sys t (ps1 ++ Proc (Leaving status duration) dn (afterOps status duration) :: ps2) l)
| StepLeft t ps1 status duration dn ps2 l :
    step (Sys t (ps1 ++ Proc (Leaving status duration) dn [] :: ps2) l) (Sys t (ps1 ++ ps2) ((status, duration) :: l)).

(** ** The endpoint *)

Definition class (name value : string) : string := "http_status_total{class=" +:+ quoted name +:+ "} " +:+ value.

(** The lines of a metric: help, type, samples, and an empty line between metrics. *)
Definition metric (name help kind : string) (samples : list string) : list string :=
  ["# HELP " +:+ name +:+ " " +:+ help; "# TYPE " +:+ name +:+ " " +:+ kind] ++ samples.

Definition exposition (t : MetricsTracker) (uptime : Z) : list (list string) :=
  [metric "app_uptime_seconds" "Total service uptime in seconds" "gauge" ["app_uptime_seconds " +:+ Itoa uptime];
   metric "http_requests_total" "Total number of HTTP requests processed" "counter"
     ["http_requests_total " +:+ Itoa (RequestsTotal t)];
   metric "http_errors_total" "Total number of failed HTTP requests" "counter"
     ["http_errors_total " +:+ Itoa (ErrorsTotal t)];
   metric "http_status_total" "HTTP responses partitioned by status class" "counter"
     [class "2xx" (Itoa (Status2xx t)); class "4xx" (Itoa (Status4xx t)); class "5xx" (Itoa (Status5xx t))];
   metric "http_active_requests" "Current number of in-flight HTTP requests" "gauge"
     ["http_active_requests " +:+ Itoa (ActiveRequests t)];
   metric "http_duration_sum_ms" "Total request processing time in milliseconds" "counter"
     ["http_duration_sum_ms " +:+ Itoa (DurationSumMs t)]].

(** The reply of [MetricsEndpoint]: the members of a JSON object or the text, by
    the header Accept and the query parameter format. *)
Inductive metricsReply := MetricsJSON (members : list (string * Z)) | MetricsText (metrics : list (list string)).

Definition MetricsEndpoint (t : MetricsTracker) (accept format : string) (uptime : Z) : metricsReply :=
  if Contains accept "application/json" || bool_decide (format = "json") then
    MetricsJSON [("uptime_seconds", uptime); ("http_requests_total", RequestsTotal t); ("http_errors_total", ErrorsTotal t);
      ("http_status_2xx_total", Status2xx t); ("http_status_4xx_total", Status4xx t); ("http_status_5xx_total", Status5xx t);
      ("http_active_requests", ActiveRequests t); ("http_duration_sum_ms", DurationSumMs t)]
  else MetricsText (exposition t uptime).

(** ** Conservation *)

(** What additions sum up to on a counter. *)
Fixpoint sumOps (f : field) (ops : list (field * Z)) : Z :=
  match ops with [] => 0 | (g, d) :: ops' => (if bool_decide (g = f) then d else 0) + sumOps f ops' end.

Lemma sumOps_app f ops1 ops2 : sumOps f (ops1 ++ ops2) = sumOps f ops1 + sumOps f ops2.
Proof. induction ops1 as [|[g d] ops1 IH]; cbn; [done|]. rewrite IH. lia. Qed.

(** The sum over the requests in the middleware and those that have left. *)
Definition procsSum (f : field) (ps : list proc) : Z := foldr (λ p acc, sumOps f (p_done p) + acc) 0 ps.
Definition requestOps (r : Z * Z) : list (field * Z) := beforeOps ++ afterOps r.1 r.2.
Definition servedSum (f : field) (l : list (Z * Z)) : Z := foldr (λ r acc, sumOps f (requestOps r) + acc) 0 l.

Lemma procsSum_app f ps1 ps2 : procsSum f (ps1 ++ ps2) = procsSum f ps1 + procsSum f ps2.
Proof. unfold procsSum. induction ps1 as [|p ps1 IH]; cbn; [done|]. rewrite IH. lia. Qed.

Lemma procsSum_cons f p ps : procsSum f (p :: ps) = sumOps f (p_done p) + procsSum f ps.
Proof. done. Qed.

Lemma servedSum_cons f r l : servedSum f (r :: l) = sumOps f (requestOps r) + servedSum f l.
Proof. done. Qed.

Lemma wrap_add f a d : wrapField f (wrapField f a + d) = wrapField f (a + d).
Proof.
  destruct f; cbn; unfold wrapU64, wrap64; try apply Z.add_mod_idemp_l; try lia.
  - replace ((a + 2 ^ 63) mod 2 ^ 64 - 2 ^ 63 + d + 2 ^ 63) with ((a + 2 ^ 63) mod 2 ^ 64 + d) by lia.
    rewrite Z.add_mod_idemp_l by lia. f_equal. f_equal. lia.
  - replace ((a + 2 ^ 63) mod 2 ^ 64 - 2 ^ 63 + d + 2 ^ 63) with ((a + 2 ^ 63) mod 2 ^ 64 + d) by lia.
    rewrite Z.add_mod_idemp_l by lia. f_equal. f_equal. lia.
Qed.

Lemma load_add t f op : load (add t op) f = if bool_decide (op.1 = f) then wrapField f (load t f + op.2) else load t f.
Proof. destruct op as [g d]. cbn. destruct f, g; reflexivity. Qed.

(** A request has made and has to make the additions of its place. *)
Definition procOk (p : proc) : Prop :=
  p_done p ++ p_todo p =
  match p_place p with
  | Entering | Serving => beforeOps
  | Leaving status duration => requestOps (status, duration)
  end ∧ (p_place p = Serving → p_todo p = []).

Record conserved (s : system) : Prop := {
  inv_load : ∀ f, load (tracker s) f = wrapField f (procsSum f (procs s) + servedSum f (served s));
  inv_procs : Forall procOk (procs s);
}.

Lemma Forall_replace {A} (P : A → Prop) l1 x y l2 : Forall P (l1 ++ x :: l2) → (P x → P y) → Forall P (l1 ++ y :: l2).
Proof. rewrite !Forall_app, !Forall_cons. naive_solver. Qed.

Lemma conserved_step s s' : step s s' → conserved s → conserved s'.
Proof.
  intros Hstep [Hl Hp]. destruct Hstep; split; cbn [tracker procs served] in *.
  - intros f. rewrite Hl, procsSum_cons. cbn. f_equal.
  - constructor; [done|exact Hp].
  - intros f. rewrite load_add, Hl, !procsSum_app, !procsSum_cons. cbn [p_done].
    rewrite sumOps_app. destruct op as [g d]. cbn [sumOps fst snd]. case_bool_decide.
    + rewrite wrap_add. f_equal. lia.
    + f_equal. lia.
  - eapply Forall_replace; [exact Hp|]. intros [E Hs]. split; cbn in *; [by rewrite <-app_assoc|].
    intros Hpl. by specialize (Hs Hpl).
  - intros f. by rewrite Hl, !procsSum_app, !procsSum_cons.
  - eapply Forall_replace; [exact Hp|]. by intros [E Hs].
  - intros f. by rewrite Hl, !procsSum_app, !procsSum_cons.
  - eapply Forall_replace; [exact Hp|]. intros [E Hs]. split; [|done]. cbn in *. rewrite app_nil_r in E. by rewrite E.
  - intros f. rewrite Hl, !procsSum_app, procsSum_cons, servedSum_cons. cbn [p_done].
    apply Forall_app in Hp as [_ [[E _] _]%Forall_cons]. cbn [p_done p_todo p_place] in E.
    rewrite app_nil_r in E. rewrite E. f_equal. lia.
  - apply Forall_app in Hp as [? [_ ?]%Forall_cons]. by apply Forall_app.
Qed.

Lemma conserved_reachable s : rtc step (Sys zeroTracker [] []) s → conserved s.
Proof.
  intros Hr. assert (conserved (Sys zeroTracker [] [])) as H0.
  { split; [intros f; by destruct f|constructor]. }
  remember (Sys zeroTracker [] []) as s0 eqn:E. clear E.
  induction Hr as [|s1 s2 s3 Hs Hr IH]; [done|]. by apply IH, (conserved_step s1).
Qed.

(** ** What the counters show *)

(** The classes of a status. *)
Definition is2xx (r : Z * Z) : bool := (200 <=? r.1) && (r.1 <? 300).
Definition is4xx (r : Z * Z) : bool := (400 <=? r.1) && (r.1 <? 500).
Definition is5xx (r : Z * Z) : bool := 500 <=? r.1.

Definition countIf (p : Z * Z → bool) (l : list (Z * Z)) : Z := foldr (λ r acc, (if p r then 1 else 0) + acc) 0 l.

Lemma countIf_cons p r l : countIf p (r :: l) = (if p r then 1 else 0) + countIf p l.
Proof. done. Qed.

(** The sum of the additions of a request on each counter. *)
Lemma request_sums r :
  sumOps FRequests (requestOps r) = 1 ∧ sumOps FActive (requestOps r) = 0 ∧ sumOps FDuration (requestOps r) = r.2 ∧
  sumOps F2xx (requestOps r) = (if is2xx r then 1 else 0) ∧ sumOps F4xx (requestOps r) = (if is4xx r then 1 else 0) ∧
  sumOps F5xx (requestOps r) = (if is5xx r then 1 else 0) ∧
  sumOps FErrors (requestOps r) = (if is4xx r || is5xx r then 1 else 0).
Proof.
  destruct r as [st d]. unfold requestOps, afterOps, statusOps, is2xx, is4xx, is5xx. cbn [fst snd].
  destruct (Z.leb_spec 200 st), (Z.ltb_spec st 300), (Z.leb_spec 400 st), (Z.ltb_spec st 500), (Z.leb_spec 500 st);
    try lia; vm_compute; split_and!; by destruct d.
Qed.

Lemma served_sums l :
  servedSum FRequests l = Z.of_nat (length l) ∧ servedSum FActive l = 0 ∧
  servedSum FDuration l = foldr (λ r acc, r.2 + acc) 0 l ∧
  servedSum F2xx l = countIf is2xx l ∧ servedSum F4xx l = countIf is4xx l ∧ servedSum F5xx l = countIf is5xx l ∧
  servedSum FErrors l = countIf (λ r, is4xx r || is5xx r) l.
Proof.
  induction l as [|r l (H1 & H2 & H3 & H4 & H5 & H6 & H7)]; [done|].
  destruct (request_sums r) as (R1 & R2 & R3 & R4 & R5 & R6 & R7). rewrite !servedSum_cons, R1, R2, R3, R4, R5, R6, R7.
  rewrite H1, H2, H3, H4, H5, H6, H7, !countIf_cons. cbn [length foldr]. split_and!; try lia; reflexivity.
Qed.

(** A request in the middleware counts at most once. *)
Lemma done_prefix l k st d : l ++ k = requestOps (st, d) →
  0 <= sumOps FRequests l <= 1 ∧ 0 <= sumOps FActive l <= 1.
Proof.
  intros E. unfold requestOps, afterOps, beforeOps in E. cbn [fst snd app] in E.
  destruct l as [|o1 [|o2 [|o3 [|o4 l]]]]; simplify_eq/=; try (split; lia).
  match goal with H : l ++ k = statusOps st |- _ => rename H into E end.
  assert (Hz : ∀ f, (∀ op, op ∈ statusOps st → op.1 ≠ f) → sumOps f l = 0).
  { intros f Hf. rewrite <-E in Hf. clear -Hf. induction l as [|[g x] l IH]; [done|]. cbn.
    rewrite bool_decide_false; [apply IH; set_solver|]. apply (Hf (g, x)). set_solver. }
  rewrite !Hz; [split; lia|..]; intros op Hop; unfold statusOps in Hop; repeat case_match; set_solver.
Qed.

Lemma procOk_bounds p : procOk p → 0 <= sumOps FRequests (p_done p) <= 1 ∧ 0 <= sumOps FActive (p_done p) <= 1.
Proof.
  intros [E _]. destruct (p_place p) as [| |st d].
  - apply (done_prefix _ (p_todo p ++ afterOps 0 0) 0 0). by rewrite app_assoc, E.
  - apply (done_prefix _ (p_todo p ++ afterOps 0 0) 0 0). by rewrite app_assoc, E.
  - exact (done_prefix _ _ _ _ E).
Qed.

Lemma procs_bounds ps : Forall procOk ps →
  0 <= procsSum FRequests ps <= Z.of_nat (length ps) ∧ 0 <= procsSum FActive ps <= Z.of_nat (length ps).
Proof.
  induction 1 as [|p ps Hp Hps IH]; [done|]. rewrite !procsSum_cons. apply procOk_bounds in Hp. cbn [length]. lia.
Qed.

Lemma wrapU64_id z : 0 <= z < 2 ^ 64 → wrapU64 z = z.
Proof. apply Z.mod_small. Qed.

(** Request metrics under any interleaving of requests, each of whose additions
    is atomic (below [2^63] requests). At any moment the total counts the requests that have left the
    middleware and some of those inside it, and the gauge of active requests is between 0 and the number inside.
    When none is inside, the gauge is 0, the total is the number of requests, the
    classes count their statuses (1xx and 3xx are in none), the errors are
    those of 4xx and 5xx together, and the duration is the sum, modulo [2^64]. *)
Lemma red_metrics s :
  rtc step (Sys zeroTracker [] []) s →
  let n := Z.of_nat (length (served s)) in let k := Z.of_nat (length (procs s)) in
  let t := tracker s in
  n + k < 2 ^ 63 →
  (n <= RequestsTotal t <= n + k ∧ 0 <= ActiveRequests t <= k) ∧
  (procs s = [] →
     RequestsTotal t = n ∧ ActiveRequests t = 0 ∧
     Status2xx t = countIf is2xx (served s) ∧ Status4xx t = countIf is4xx (served s) ∧
     Status5xx t = countIf is5xx (served s) ∧ ErrorsTotal t = Status4xx t + Status5xx t ∧
     DurationSumMs t = wrap64 (foldr (λ r acc, r.2 + acc) 0 (served s))).
Proof.
  intros Hr n k t Hlt. destruct (conserved_reachable s Hr) as [Hl Hp].
  destruct (procs_bounds _ Hp) as [Hb1 Hb2]. fold k in Hb1, Hb2.
  destruct (served_sums (served s)) as (S1 & S2 & S3 & S4 & S5 & S6 & S7). fold n in S1.
  assert (0 <= n) by lia. split.
  - pose proof (Hl FRequests) as H1. pose proof (Hl FActive) as H2. cbn in H1, H2. fold t in H1, H2.
    rewrite S1 in H1. rewrite S2 in H2. rewrite wrapU64_id in H1 by lia.
    rewrite wrap64_id in H2 by (unfold in_int64, minInt64, maxInt64; lia). lia.
  - intros Hnil.
    assert (Hcount : ∀ p l, 0 <= countIf p l <= Z.of_nat (length l)).
    { intros p l. induction l as [|r l IH]; [done|]. rewrite countIf_cons. cbn [length]. destruct (p r); lia. }
    assert (Hu : ∀ f, load t f = wrapField f (servedSum f (served s))) by (intros f; unfold t; by rewrite Hl, Hnil).
    assert (k = 0) as Hk by (unfold k; by rewrite Hnil).
    pose proof (Hcount is2xx (served s)). pose proof (Hcount is4xx (served s)). pose proof (Hcount is5xx (served s)).
    pose proof (Hcount (λ r, is4xx r || is5xx r) (served s)).
    assert (countIf (λ r, is4xx r || is5xx r) (served s) = countIf is4xx (served s) + countIf is5xx (served s)) as Hsplit.
    { clear. induction (served s) as [|r l IH]; [done|]. rewrite !countIf_cons, IH. unfold is4xx, is5xx.
      destruct (Z.leb_spec 400 r.1), (Z.ltb_spec r.1 500), (Z.leb_spec 500 r.1); cbn; lia. }
    pose proof (Hu FRequests) as U1. pose proof (Hu FActive) as U2. pose proof (Hu F2xx) as U3. pose proof (Hu F4xx) as U4.
    pose proof (Hu F5xx) as U5. pose proof (Hu FErrors) as U6. pose proof (Hu FDuration) as U7. cbn in *.
    rewrite S1, wrapU64_id in U1 by lia. rewrite S2 in U2. rewrite S4, wrapU64_id in U3 by lia.
    rewrite S5, wrapU64_id in U4 by lia. rewrite S6, wrapU64_id in U5 by lia.
    rewrite S7, wrapU64_id in U6 by lia. rewrite S3 in U7. split_and!; try done; lia.
Qed.

(** One request that was not found. *)
Lemma red_metrics_witness :
  let t := runOps zeroTracker (requestOps (404, 12)) in
  RequestsTotal t = 1 ∧ ActiveRequests t = 0 ∧ ErrorsTotal t = Status4xx t + Status5xx t.
Proof.
  intros t.
  assert (rtc step (Sys zeroTracker [] []) (Sys t [] [(404, 12)])) as Hr.
  { eapply rtc_l; [apply StepStart|]. do 2 (eapply rtc_l; [apply (StepAdd _ [] _ _ _ _ [])|]).
    eapply rtc_l; [apply (StepNext _ [] _ [])|]. eapply rtc_l; [apply (StepServed _ [] _ [] _ 404 12)|].
    do 4 (eapply rtc_l; [apply (StepAdd _ [] _ _ _ _ [])|]). apply rtc_once. apply (StepLeft _ [] 404 12 _ []). }
  destruct (proj2 (red_metrics _ Hr ltac:(cbn; lia)) eq_refl) as (H1 & H2 & _ & _ & _ & H6 & _).
  exact (conj H1 (conj H2 H6)).
Defined.
