(* ===== verification/SecHeaders.v ===== *)
(** Security headers and body limits (securityheaders/securityheaders.go,
    bodylimit/bodylimit.go). *)
From S2P Require Import Prelude Text Base64 Float64 Strconv.

Local Notation header := (gmap string (list string)).

(** ** Security headers *)

Record Config := mkConfig { ServerName : string; HSTSMaxAge : Z; CSP : string; PermissionsPolicy : string }.

Inductive Option_ :=
| WithServerName (name : string)
| WithHSTSMaxAge (maxAge : Z)
| WithCSP (policy : string)
| WithPermissionsPolicy (policy : string).

Definition applyOption (c : Config) (o : Option_) : Config :=
  match o with
  | WithServerName name => mkConfig name (HSTSMaxAge c) (CSP c) (PermissionsPolicy c)
  | WithHSTSMaxAge maxAge => mkConfig (ServerName c) maxAge (CSP c) (PermissionsPolicy c)
  | WithCSP policy => mkConfig (ServerName c) (HSTSMaxAge c) policy (PermissionsPolicy c)
  | WithPermissionsPolicy policy => mkConfig (ServerName c) (HSTSMaxAge c) (CSP c) policy
  end.

Definition DefaultConfig : Config :=
  mkConfig "api" 63072000 "default-src 'none'; frame-ancestors 'none';" "geolocation=(), microphone=(), camera=()".

(** The configuration of [New]: options, then defaults for what is empty. *)
Definition newConfig (opts : list Option_) : Config :=
  let cfg := foldl applyOption DefaultConfig opts in
  let orElse (s d : string) := if bool_decide (s = "") then d else s in
  mkConfig (orElse (ServerName cfg) (ServerName DefaultConfig))
           (if HSTSMaxAge cfg =? 0 then HSTSMaxAge DefaultConfig else HSTSMaxAge cfg)
           (orElse (CSP cfg) (CSP DefaultConfig))
           (orElse (PermissionsPolicy cfg) (PermissionsPolicy DefaultConfig)).

Definition hsts (cfg : Config) : string := "max-age=" +:+ Itoa (HSTSMaxAge cfg) +:+ "; includeSubDomains; preload".

(** The headers in the order they are set. *)
Definition securityHeaders (cfg : Config) : list (string * string) :=
  [("X-Frame-Options", "DENY"); ("X-Content-Type-Options", "nosniff"); ("X-XSS-Protection", "1; mode=block");
   ("Referrer-Policy", "strict-origin-when-cross-origin"); ("Strict-Transport-Security", hsts cfg);
   ("Permissions-Policy", PermissionsPolicy cfg); ("Content-Security-Policy", CSP cfg);
   ("Cache-Control", "no-store"); ("Pragma", "no-cache"); ("Server", ServerName cfg)].

Definition setAll (h : header) (kvs : list (string * string)) : header :=
  foldl (λ h '(k, v), <[k := [v]]> h) h kvs.

(** The handler of [New], up to the call of the next one. *)
Definition New (opts : list Option_) (h : header) : header := setAll h (securityHeaders (newConfig opts)).

(** ** Body limits *)

(** [http.MaxBytesReader] around readers that are limited already: the least
    limit; a body with more bytes cannot be read to its end. *)
Definition MaxBytesReader (limit : option Z) (n : Z) : option Z :=
  Some (match limit with Some m => Z.min m n | None => n end).

(** Reading the body to its end: its length, or an error. *)
Definition readAll (limit : option Z) (size : Z) : option Z :=
  match limit with Some m => if m <? size then None else Some size | None => Some size end.

Definition limitBody (maxBytes : Z) (hasBody : bool) (limit : option Z) : option Z :=
  if hasBody then MaxBytesReader limit maxBytes else limit.

Definition KB (n : Z) : Z := wrap64 (Z.shiftl n 10).
Definition MB (n : Z) : Z := wrap64 (Z.shiftl n 20).

(** [bodylimit.String]. *)
Definition limitString (bytes : Z) : string :=
  if Z.shiftl 1 20 <=? bytes then Itoa (Z.shiftr bytes 20) +:+ " MB"
  else if Z.shiftl 1 10 <=? bytes then Itoa (Z.shiftr bytes 10) +:+ " KB"
  else Itoa bytes +:+ " B".

(** ** What every response gets *)

(** No value of a configuration is empty, whatever the options. *)
Lemma newConfig_set opts :
  let c := newConfig opts in ServerName c ≠ "" ∧ HSTSMaxAge c ≠ 0 ∧ CSP c ≠ "" ∧ PermissionsPolicy c ≠ "".
Proof.
  unfold newConfig. cbv zeta. cbn [ServerName HSTSMaxAge CSP PermissionsPolicy].
  destruct (Z.eqb_spec (HSTSMaxAge (foldl applyOption DefaultConfig opts)) 0); repeat case_bool_decide; done.
Qed.

(** The headers of a response that has none of them, or other values. *)
Lemma New_headers opts h : ∀ k v, (k, v) ∈ securityHeaders (newConfig opts) → New opts h !! k = Some [v].
Proof.
  intros k v Hin. unfold New, setAll, securityHeaders in *. cbn [foldl].
  repeat (apply elem_of_cons in Hin as [[= -> ->]|Hin]; [by simplify_map_eq|]). by apply not_elem_of_nil in Hin.
Qed.

Lemma New_others opts h k : k ∉ (securityHeaders (newConfig opts)).*1 → New opts h !! k = h !! k.
Proof.
  unfold New, setAll, securityHeaders. cbn [foldl fmap list_fmap fst]. intros Hk.
  rewrite !lookup_insert_ne; [done|..]; set_solver.
Qed.
