(* ===== verification/Sql.v ===== *)
(** What the two PostgreSQL components share: the check of table names, the
    resolution of timestamps, and the ways a statement can end. *)
From S2P Require Import Prelude Text Base64.

Definition letterOrUnderscore (a : Ascii.ascii) : bool :=
  let n := byteOf a in ((97 <=? n) && (n <=? 122)) || ((65 <=? n) && (n <=? 90)) || (n =? 95).
Definition wordChar (a : Ascii.ascii) : bool :=
  letterOrUnderscore a || ((48 <=? byteOf a) && (byteOf a <=? 57)).

(** The regular expression [^[a-zA-Z_][a-zA-Z0-9_]*$]. *)
Definition validTableName (s : string) : bool :=
  match s with EmptyString => false | String a s' => letterOrUnderscore a && allChars wordChar s' end.

(** TIMESTAMPTZ has a resolution of microseconds: the time that is stored. *)
Definition stored (t : Time) : Time := t / 1000 * 1000.

Lemma stored_le t : stored t <= t < stored t + 1000.
Proof. unfold stored. pose proof (Z.div_mod t 1000). pose proof (Z.mod_pos_bound t 1000). lia. Qed.

(** A statement is executed and answered, or executed and its answer is lost
    (a timeout), or it is not executed. *)
Inductive dbOutcome := Answered | AnswerLost | NotExecuted.
