(* ===== verification/PgLimiter.v ===== *)
(** The distributed rate limiter (db/ratelimit.go): one upsert statement per
    request against a table shared by all replicas. *)
From S2P Require Import Prelude Float64 Sql.

Definition DefaultRateLimitTableName : string := "ratelimit_windows".

Record PGRateLimiter := mkPG { limit : Z; window : Duration; tableName : string }.

Inductive PGRateLimiterOption :=
| WithPGRateLimiterTableName (name : string)
| WithPGRateLimiterTimeout (d : Duration).

(** The timeout shows in the outcomes of the statements only. *)
Definition applyPGOption (l : PGRateLimiter) (o : PGRateLimiterOption) : PGRateLimiter :=
  match o with
  | WithPGRateLimiterTableName name => mkPG (limit l) (window l) name
  | WithPGRateLimiterTimeout _ => l
  end.

(** [NewPGRateLimiter] with a connection. *)
Definition NewPGRateLimiter (lim : Z) (win : Duration) (opts : list PGRateLimiterOption)
    : option PGRateLimiter :=
  let l := foldl applyPGOption
    (mkPG (if lim <=? 0 then 1 else lim) (if win <=? 0 then Minute else win) DefaultRateLimitTableName) opts in
  if validTableName (tableName l) then Some l else None.

(** [Duration.Seconds], a float64. *)
Definition Seconds (d : Duration) : float64 :=
  fadd (of_int (Z.quot d Second)) (fdiv (of_int (Z.rem d Second)) (of_int Second)).

(** The interval the statement is given: whole seconds, or whole milliseconds
    for windows below one second. *)
Definition sqlWindow (l : PGRateLimiter) : Duration :=
  if fltb (Seconds (window l)) f1 then Z.quot (window l) 1000000 * 1000000
  else default 0 (to_int64 (Seconds (window l))) * Second.

(** A row of the table; the count is a 32-bit integer. *)
Record row := Row { current_count : Z; window_start : Time }.
Local Notation table := (gmap string row).
Definition int4 (z : Z) : bool := (-2 ^ 31 <=? z) && (z <? 2 ^ 31).

(** The upsert: the new table and the row that is returned, or an error when a
    number does not fit. *)
Definition upsert (l : PGRateLimiter) (t : table) (key : string) (n : Z) (now : Time)
    : option (table * option bool) :=
  let now := stored now in
  let returning r := (window_start r =? now) || (current_count r <=? limit l) in
  if negb (int4 n && int4 (limit l)) then None
  else match t !! key with
  | None => let r := Row n now in Some (<[key := r]> t, Some (returning r))
  | Some old =>
      let over := sqlWindow l <=? now - window_start old in
      let sum := current_count old + n in
      if negb over && negb (int4 sum) then None
      else if over || (sum <=? limit l) then
        let r := if over then Row n now else Row sum (window_start old) in
        Some (<[key := r]> t, Some (returning r))
      else Some (t, None)
  end.

(** [AllowNWithContext]. *)
Definition AllowNWithContext (l : PGRateLimiter) (t : table) (key : string) (n : Z) (now : Time)
    (o : dbOutcome) : bool * table :=
  if bool_decide (key = "") || (n <=? 0) then (false, t)
  else if limit l <? n then (false, t)
  else match o, upsert l t key n now with
       | NotExecuted, _ | _, None => (false, t)
       | AnswerLost, Some (t', _) => (false, t')
       | Answered, Some (t', r) => (default false r, t')
       end.

Definition AllowN (l : PGRateLimiter) t key n now o := AllowNWithContext l t key n now o.
Definition Allow (l : PGRateLimiter) t key now o := AllowNWithContext l t key 1 now o.

Definition Remaining (l : PGRateLimiter) (t : table) (key : string) (now : Time) (o : dbOutcome) : Z :=
  if bool_decide (key = "") then 0
  else match o, t !! key with
       | Answered, None => limit l
       | Answered, Some r =>
           if window l <=? time_Sub now (window_start r) then limit l
           else let rem := limit l -! current_count r in if rem <? 0 then 0 else rem
       | _, _ => 0
       end.

Definition Reset (t : table) (key : string) (o : dbOutcome) : table :=
  if bool_decide (key = "") then t
  else match o with NotExecuted => t | _ => delete key t end.

(** ** The bound *)

(** The calls of all replicas, in the order of their statements; the clocks of
    the replicas need not agree. *)
Inductive pgCall :=
| CAllow (key : string) (n : Z) (now : Time) (o : dbOutcome)
| CReset (key : string) (o : dbOutcome).

Definition pgStep (l : PGRateLimiter) (t : table) (c : pgCall) : Z * table :=
  match c with
  | CAllow key n now o =>
      let '(ok, t') := AllowN l t key n now o in (if ok then n else 0, t')
  | CReset key o => (0, Reset t key o)
  end.

(** The events granted to a key, and the resets of it. *)
Fixpoint pgRun (l : PGRateLimiter) (t : table) (cs : list pgCall) (key : string) : Z * Z * table :=
  match cs with
  | [] => (0, 0, t)
  | c :: cs' =>
      let '(g, t1) := pgStep l t c in
      let mine := match c with CAllow k _ _ _ | CReset k _ => bool_decide (k = key) end in
      let reset := match c with CReset _ _ => mine | _ => false end in
      let '(gs, rs, t2) := pgRun l t1 cs' key in
      ((if mine then g else 0) + gs, (if reset then 1 else 0) + rs, t2)
  end.

Definition clockIn (t0 t1 : Time) (c : pgCall) : Prop :=
  match c with CAllow _ _ now _ => t0 <= stored now <= t1 | CReset _ _ => True end.

(** What a key may still be granted without a reset: the rest of its window and
    the windows that start before [t1]. *)
Definition pgBudget (l : PGRateLimiter) (t0 t1 : Time) (r : option row) : Z :=
  match r with
  | None => limit l * (1 + (t1 - t0) / sqlWindow l)
  | Some r => (limit l - current_count r) + limit l * ((t1 - window_start r) / sqlWindow l)
  end.

Definition rowOk (l : PGRateLimiter) (t0 t1 : Time) (r : option row) : Prop :=
  match r with Some r => 0 <= current_count r <= limit l /\ t0 <= window_start r <= t1 | None => True end.

Section Bound.
Context (l : PGRateLimiter) (t0 t1 : Time) (Hw : 0 < sqlWindow l) (Hl : 1 <= limit l) (Ht : t0 <= t1).

Notation budget := (pgBudget l t0 t1).
Notation ok := (rowOk l t0 t1).

Lemma budget_nonneg r : ok r -> 0 <= budget r <= budget None.
Proof.
  assert (0 <= (t1 - t0) / sqlWindow l) by (apply Z.div_pos; lia).
  destruct r as [[c ws]|]; cbn; intros Hok; [|nia].
  assert (0 <= (t1 - ws) / sqlWindow l) by (apply Z.div_pos; lia).
  assert ((t1 - ws) / sqlWindow l <= (t1 - t0) / sqlWindow l) by (apply Z.div_le_mono; lia).
  nia.
Qed.

(** A window that is over costs the budget a whole limit. *)
Lemma budget_new_window ws now :
  sqlWindow l <= now - ws -> limit l * ((t1 - now) / sqlWindow l) + limit l <= limit l * ((t1 - ws) / sqlWindow l).
Proof.
  intros H.
  assert ((t1 - now) / sqlWindow l + 1 <= (t1 - ws) / sqlWindow l); [|nia].
  replace ((t1 - now) / sqlWindow l + 1) with ((t1 - now + 1 * sqlWindow l) / sqlWindow l)
    by (rewrite Z.div_add; lia).
  apply Z.div_le_mono; lia.
Qed.

Lemma upsert_other t k key n now t' r :
  k <> key -> upsert l t k n now = Some (t', r) -> t' !! key = t !! key.
Proof.
  intros Hk. unfold upsert. cbv zeta.
  destruct (negb _); [done|]. destruct (t !! k); [|intros [= <- <-]; by rewrite lookup_insert_ne].
  destruct (_ && _); [done|]. destruct (_ || _); intros [= <- <-]; by rewrite ?lookup_insert_ne by done.
Qed.

Lemma upsert_budget t key n now t' r :
  ok (t !! key) -> 1 <= n <= limit l -> t0 <= stored now <= t1 ->
  upsert l t key n now = Some (t', r) ->
  ok (t' !! key) /\ (if default false r then n else 0) + budget (t' !! key) <= budget (t !! key).
Proof.
  intros Hok Hn Hnow. unfold upsert.
  destruct (negb (int4 n && int4 (limit l))); [done|].
  destruct (t !! key) as [[c ws]|] eqn:E; cbn in *.
  - destruct (Z.leb_spec (sqlWindow l) (stored now - ws)) as [Ho|Ho]; cbn.
    + intros [= <- <-]. rewrite lookup_insert_eq; cbn. rewrite Z.eqb_refl; cbn.
      pose proof (budget_new_window ws (stored now) Ho). split; [lia|lia].
    + destruct (negb (int4 (c + n))); [done|].
      destruct (Z.leb_spec (c + n) (limit l)); intros [= <- <-]; [|rewrite E; cbn; lia].
      rewrite lookup_insert_eq; cbn. split; [lia|]. case_match; lia.
  - intros [= <- <-]. rewrite lookup_insert_eq; cbn. rewrite Z.eqb_refl; cbn.
    assert ((t1 - stored now) / sqlWindow l <= (t1 - t0) / sqlWindow l) by (apply Z.div_le_mono; lia).
    split; [lia|nia].
Qed.

Lemma allow_budget t k n now o key b t' :
  ok (t !! key) -> t0 <= stored now <= t1 ->
  AllowNWithContext l t k n now o = (b, t') ->
  ok (t' !! key) /\ (if bool_decide (k = key) then if b then n else 0 else 0) + budget (t' !! key)
                    <= budget (t !! key).
Proof.
  intros Hok Hnow. unfold AllowNWithContext.
  assert (Hsame : ok (t !! key) /\ (if bool_decide (k = key) then 0 else 0) + budget (t !! key)
                  <= budget (t !! key)) by (split; [done | case_match; lia]).
  destruct (bool_decide (k = "")); cbn; [by intros [= <- <-]|].
  destruct (Z.leb_spec n 0); [by intros [= <- <-]|].
  destruct (Z.ltb_spec (limit l) n); [by intros [= <- <-]|].
  destruct (upsert l t k n now) as [[t2 r]|] eqn:E; [|by destruct o; intros [= <- <-]].
  destruct (decide (k = key)) as [->|Hk].
  - rewrite bool_decide_true in * by done.
    assert (Hn : 1 <= n <= limit l) by lia.
    destruct (upsert_budget _ _ _ _ _ _ Hok Hn Hnow E) as [Hok' Hb].
    destruct o; intros [= <- <-]; split; (done || (destruct r as [[]|]; cbn in Hb |- *; lia)).
  - rewrite bool_decide_false in * by done.
    pose proof (upsert_other _ _ _ _ _ _ _ Hk E) as He.
    destruct o; intros [= <- <-]; rewrite ?He; done.
Qed.

Lemma run_budget cs t key :
  Forall (clockIn t0 t1) cs -> ok (t !! key) ->
  let '(g, rs, _) := pgRun l t cs key in
  0 <= rs /\ g <= budget (t !! key) + rs * budget None.
Proof.
  intros Hcs. revert t. induction Hcs as [|c cs Hc Hcs IH]; intros t Hok; cbn [pgRun].
  { pose proof (budget_nonneg _ Hok). lia. }
  destruct (pgStep l t c) as [g t2] eqn:E.
  destruct c as [k n now o|k o]; cbn in E, Hc.
  - unfold AllowN in E. destruct (AllowNWithContext l t k n now o) as [b t3] eqn:EA. simplify_eq.
    destruct (allow_budget _ _ _ _ _ key _ _ Hok Hc EA) as [Hok2 Hb]. specialize (IH _ Hok2).
    destruct (pgRun l t2 cs key) as [[gs rs] t4]. lia.
  - simplify_eq.
    assert (ok (Reset t k o !! key) /\
            budget (Reset t k o !! key) <= budget (t !! key) + (if bool_decide (k = key) then budget None else 0))
      as [Hok2 Hb].
    { pose proof (budget_nonneg _ Hok) as Hn. pose proof (budget_nonneg None I) as Hn0. unfold Reset.
      repeat case_bool_decide; subst; try (split; [done|lia]);
        destruct o; rewrite ?lookup_delete_eq, ?lookup_delete_ne by done; split; (done || lia). }
    specialize (IH _ Hok2). destruct (pgRun l (Reset t k o) cs key) as [[gs rs] t4].
    repeat case_bool_decide; lia.
Qed.

End Bound.

(** C12: The distributed rate limiter counts for all replicas together: whatever
    calls the replicas make, in whatever order their statements reach the
    database, with clocks that disagree, and with statements that fail or whose
    answer is lost, the events a key is granted between the clock readings [t0]
    and [t1] are at most the limit for each window that starts in that span and
    one more, and as much again for each Reset of the key. This holds for the
    window the statement is given, which is positive from 1 ms up: a window
    below that is given as zero milliseconds and then no request is ever
    refused, and 1.5 s is given as 1 s, while Remaining uses 1.5 s. *)
Theorem pg_rate (l : PGRateLimiter) (t0 t1 : Time) (cs : list pgCall) (key : string) :
  0 < sqlWindow l -> 1 <= limit l -> t0 <= t1 -> Forall (clockIn t0 t1) cs ->
  let '(granted, resets, _) := pgRun l ∅ cs key in
  granted <= (resets + 1) * (limit l * (1 + (t1 - t0) / sqlWindow l)) /\
  (* too short a window *)
  (forall (l' : PGRateLimiter) t n now,
     sqlWindow l' = 0 -> 1 <= n <= limit l' -> limit l' < 2 ^ 31 -> key <> "" ->
     (forall r, t !! key = Some r -> window_start r <= stored now) ->
     fst (AllowN l' t key n now Answered) = true) /\
  sqlWindow (mkPG 1 999999 "t") = 0 /\ sqlWindow (mkPG 1 1500000000 "t") = Second.
Proof.
  intros Hw Hl Ht Hcs.
  pose proof (run_budget l t0 t1 Hw Hl Ht cs ∅ key Hcs) as H. rewrite lookup_empty in H. specialize (H I).
  destruct (pgRun l ∅ cs key) as [[g rs] t]. cbn in H. split_and!; [lia| |by vm_compute|by vm_compute].
  intros l' t' n now Hz Hn Hlim Hk Hrow. unfold AllowN, AllowNWithContext, upsert, int4.
  rewrite bool_decide_false by done. rewrite Hz.
  destruct (Z.leb_spec n 0); [lia|]. destruct (Z.ltb_spec (limit l') n); [lia|]. cbn [orb].
  rewrite !(proj2 (Z.leb_le (-2 ^ 31) _)), !(proj2 (Z.ltb_lt _ (2 ^ 31))) by lia. cbn [andb negb].
  destruct (t' !! key) as [r|]; [|cbn; by rewrite Z.eqb_refl].
  specialize (Hrow r eq_refl). rewrite (proj2 (Z.leb_le 0 (stored now - window_start r))) by lia.
  cbn. by rewrite Z.eqb_refl.
Qed.

(** Two replicas, the second with a clock that is behind, and a lost answer. *)
Definition pgExample : list pgCall :=
  [CAllow "k" 2 (10 * Second) Answered; CAllow "k" 1 (9 * Second) Answered;
   CAllow "k" 1 (9 * Second) Answered; CAllow "k" 1 (20 * Second) AnswerLost;
   CAllow "k" 2 (20 * Second) Answered; CAllow "k" 1 (21 * Second) Answered].

Lemma pg_rate_witness :
  pgRun (mkPG 3 (10 * Second) "t") ∅ pgExample "k" = (5, 0, {["k" := Row 3 (20 * Second)]}) /\
  5 <= (0 + 1) * (3 * (1 + (21 * Second - 9 * Second) / sqlWindow (mkPG 3 (10 * Second) "t"))).
Proof.
  split; [by vm_compute|].
  pose proof (pg_rate (mkPG 3 (10 * Second) "t") (9 * Second) (21 * Second) pgExample "k"
    ltac:(by vm_compute) ltac:(by vm_compute) ltac:(by vm_compute)
    ltac:(repeat constructor; by vm_compute)) as H.
  assert (E : pgRun (mkPG 3 (10 * Second) "t") ∅ pgExample "k" = (5, 0, {["k" := Row 3 (20 * Second)]}))
    by (by vm_compute).
  rewrite E in H. exact (proj1 H).
Defined.
