(* ===== verification/Logger.v ===== *)
(** The log handlers that wrap another one (logger/redactor.go, logger/sampler.go):
    masking of sensitive attributes and sampling of records. *)
From S2P Require Import Prelude Text Float64.

(** ** Package slog *)

(** A value: a string, a group of attributes, a LogValuer that stands for
    another value, or something else, with its text. *)
Inductive Value :=
| VString (s : string)
| VGroup (attrs : list (string * Value))
| VLogValuer (v : Value)
| VOther (text : string).
Notation Attr := (string * Value)%type.

Section Value_ind.
Context (P : Value → Prop) (HS : ∀ s, P (VString s)) (HG : ∀ l, Forall (λ a, P a.2) l → P (VGroup l))
        (HL : ∀ v, P v → P (VLogValuer v)) (HO : ∀ t, P (VOther t)).

Fixpoint Value_ind' (v : Value) : P v :=
  match v with
  | VString s => HS s
  | VGroup l =>
      HG l ((fix go l := match l return Forall (λ a, P a.2) l with
                         | [] => Forall_nil_2 _
                         | a :: l' => Forall_cons_2 _ _ _ (Value_ind' a.2) (go l')
                         end) l)
  | VLogValuer v => HL v (Value_ind' v)
  | VOther t => HO t
  end.
End Value_ind.

(** [slog.GroupValue] and [Record.AddAttrs] drop the groups that are empty. *)
Definition isEmptyGroup (v : Value) : bool := match v with VGroup [] => true | _ => false end.
Definition dropEmpty (l : list Attr) : list Attr := filter (λ a, isEmptyGroup a.2 = false) l.
Definition GroupValue (l : list Attr) : Value := VGroup (dropEmpty l).

Record LogRecord := mkLogRecord { RTime : Time; Level : Z; Message : string; Attrs : list Attr }.
Definition LevelWarn : Z := 4.

(** The calls a handler receives. *)
Inductive handlerOp :=
| OpWithAttrs (attrs : list Attr)
| OpWithGroup (name : string)
| OpHandle (r : LogRecord).

(** A compiled regular expression. *)
Record Regexp := mkRegexp { MatchString : string → bool; ReplaceAllString : string → string → string }.

(** ** The redacting handler *)

Record RedactingHandler := mkRedacting { keys : list string; patterns : list Regexp; mask : string }.

Definition DefaultMask : string := "[REDACTED]".
Definition DefaultRedactedKeys : list string :=
  ["password"; "passwd"; "token"; "authorization"; "secret"; "ssn"; "card"; "cvv"; "api_key"; "apikey"; "private_key"].

Inductive RedactOption :=
| WithRedactedKeys (ks : list string)
| WithRedactedPattern (re : option Regexp)
| WithMask (m : string).

Definition applyRedactOption (o : RedactingHandler) (opt : RedactOption) : RedactingHandler :=
  match opt with
  | WithRedactedKeys ks =>
      mkRedacting (foldl (λ acc k, if bool_decide (TrimSpace k = "") then acc else acc ++ [ToLower (TrimSpace k)])
                         (keys o) ks) (patterns o) (mask o)
  | WithRedactedPattern (Some re) => mkRedacting (keys o) (patterns o ++ [re]) (mask o)
  | WithRedactedPattern None => o
  | WithMask m => if bool_decide (m = "") then o else mkRedacting (keys o) (patterns o) m
  end.

Definition NewRedactingHandler (opts : list RedactOption) : RedactingHandler :=
  foldl applyRedactOption (mkRedacting DefaultRedactedKeys [] DefaultMask) opts.

Section redact.
Context (h : RedactingHandler).

Definition isSensitiveKey (key : string) : bool := existsb (Contains (ToLower key)) (keys h).

(** The loop over the patterns. *)
Definition replacePatterns (str : string) : string :=
  foldl (λ str re, if MatchString re str then ReplaceAllString re str (mask h) else str) str (patterns h).

Fixpoint redactValue (key : string) (v : Value) : Value :=
  match v with
  | VGroup l => GroupValue (map (λ a, (a.1, redactValue a.1 a.2)) l)
  | _ =>
      if isSensitiveKey key then VString (mask h)
      else match v with
           | VString str => if bool_decide (patterns h = []) then v else VString (replacePatterns str)
           | _ => v
           end
  end.
Definition redactAttr (a : Attr) : Attr := (a.1, redactValue a.1 a.2).

Definition redactRecord (r : LogRecord) : LogRecord :=
  mkLogRecord (RTime r) (Level r) (replacePatterns (Message r)) (dropEmpty (map redactAttr (Attrs r))).

(** [WithAttrs], [WithGroup] and [Handle]: the call that reaches [next]. *)
Definition redactOp (op : handlerOp) : handlerOp :=
  match op with
  | OpWithAttrs attrs => OpWithAttrs (map redactAttr attrs)
  | OpWithGroup name => OpWithGroup name
  | OpHandle r => OpHandle (redactRecord r)
  end.
End redact.

(** ** The sampling handler *)

(** The [Sampler] interface: a state and [Allow] at a clock reading. *)
Class Sampler (St : Type) := allow : St → Time → bool * St.

Record tokenBucketSampler := mkSampler {
  burst : Z; refillInterval : Duration; tokens : float64; lastRefill : Time }.

Definition newTokenBucketSampler (burst : Z) (refillInterval : Duration) (now : Time) : tokenBucketSampler :=
  let burst := if burst <=? 0 then 1 else burst in
  let refillInterval := if refillInterval <=? 0 then Second else refillInterval in
  mkSampler burst refillInterval (of_int burst) now.

Definition tokenBucketAllow (s : tokenBucketSampler) (now : Time) : bool * tokenBucketSampler :=
  let elapsed := time_Sub now (lastRefill s) in
  let s := if 0 <? elapsed then
             let t := fadd (tokens s) (fdiv (of_int elapsed) (of_int (refillInterval s))) in
             mkSampler (burst s) (refillInterval s)
               (if fltb (of_int (burst s)) t then of_int (burst s) else t) now
           else s in
  if fleb f1 (tokens s)
  then (true, mkSampler (burst s) (refillInterval s) (fsub (tokens s) f1) (lastRefill s))
  else (false, s).
#[export] Instance tokenBucket_Sampler : Sampler tokenBucketSampler := tokenBucketAllow.

Inductive SamplingOption (St : Type) :=
| WithBypassLevel (level : Z)
| WithSamplingKeyFunc (fn : LogRecord → string)
| WithSampler (s : St).
Arguments WithBypassLevel {St}. Arguments WithSamplingKeyFunc {St}. Arguments WithSampler {St}.

Record SamplingHandler (St : Type) := mkSampling {
  sampler : St; bypassLevel : Z; keyFunc : option (LogRecord → string) }.
Arguments mkSampling {St}. Arguments sampler {St}. Arguments bypassLevel {St}. Arguments keyFunc {St}.

Section sampling.
Context {St : Type} `{Sampler St}.

Definition applySamplingOption (h : SamplingHandler (option St)) (o : SamplingOption St)
    : SamplingHandler (option St) :=
  match o with
  | WithBypassLevel level => mkSampling (sampler h) level (keyFunc h)
  | WithSamplingKeyFunc fn => mkSampling (sampler h) (bypassLevel h) (Some fn)
  | WithSampler s => mkSampling (Some s) (bypassLevel h) (keyFunc h)
  end.

(** [NewSamplingHandler]; [dflt] is the sampler it makes when none is given. *)
Definition NewSamplingHandler (dflt : St) (opts : list (SamplingOption St)) : SamplingHandler St :=
  let cfg := foldl applySamplingOption (mkSampling None LevelWarn None) opts in
  mkSampling (default dflt (sampler cfg)) (bypassLevel cfg) (keyFunc cfg).

(** [Handle]: whether the record reaches [next]. The handlers made by
    [WithAttrs] and [WithGroup] share the sampler. *)
Definition samplingHandle (h : SamplingHandler St) (r : LogRecord) (now : Time) : bool * SamplingHandler St :=
  if bypassLevel h <=? Level r then (true, h)
  else
    let '(ok, s) := allow (sampler h) now in (ok, mkSampling s (bypassLevel h) (keyFunc h)).

(** The records of a service, each with the clock at its arrival, through the
    sampling handler to a redacting one: what the last handler receives. *)
Fixpoint logged (h : SamplingHandler St) (rd : RedactingHandler) (rs : list (LogRecord * Time)) : list LogRecord :=
  match rs with
  | [] => []
  | (r, now) :: rs' =>
      let '(ok, h') := samplingHandle h r now in
      (if ok then [redactRecord rd r] else []) ++ logged h' rd rs'
  end.
End sampling.

(** ** What reaches the output *)

(** The attributes that are not groups, in order. *)
Fixpoint leaves (key : string) (v : Value) : list Attr :=
  match v with
  | VGroup l => concat (map (λ a, leaves a.1 a.2) l)
  | _ => [(key, v)]
  end.
Definition attrLeaves (l : list Attr) : list Attr := concat (map (λ a, leaves a.1 a.2) l).

(** What the redacting handler does to an attribute that is no group. *)
Definition redactLeaf (h : RedactingHandler) (a : Attr) : Attr :=
  if isSensitiveKey h a.1 then (a.1, VString (mask h))
  else match a.2 with
       | VString s => (a.1, VString (replacePatterns h s))
       | _ => a
       end.

Definition opLeaves (op : handlerOp) : list Attr :=
  match op with
  | OpWithAttrs attrs => attrLeaves attrs
  | OpWithGroup _ => []
  | OpHandle r => attrLeaves (Attrs r)
  end.

Lemma dropEmpty_leaves l : attrLeaves (dropEmpty l) = attrLeaves l.
Proof.
  unfold attrLeaves, dropEmpty. induction l as [|[k v] l IH]; [done|]. rewrite filter_cons. cbn.
  case_decide as Hd; cbn; rewrite IH; [done|]. by destruct v as [|[|]| |].
Qed.

Lemma attrLeaves_map (f : Attr → Attr) (g : Attr → Attr) l :
  Forall (λ a, leaves (f a).1 (f a).2 = map g (leaves a.1 a.2)) l →
  attrLeaves (map f l) = map g (attrLeaves l).
Proof.
  unfold attrLeaves. induction 1 as [|a l Ha _ IH]; [done|]. cbn. by rewrite map_app, Ha, IH.
Qed.

Lemma redactValue_leaves h v : ∀ key, leaves key (redactValue h key v) = map (redactLeaf h) (leaves key v).
Proof.
  induction v as [s|l IH|v IH|t] using Value_ind'; intros key; cbn.
  - unfold redactLeaf; cbn. destruct (isSensitiveKey h key); [done|].
    case_bool_decide as Hp; [|done]. unfold replacePatterns. by rewrite Hp.
  - fold (attrLeaves l). etrans; [apply dropEmpty_leaves|]. apply attrLeaves_map.
    eapply Forall_impl; [exact IH|]. intros a Ha. apply Ha.
  - unfold redactLeaf; cbn. by destruct (isSensitiveKey h key).
  - unfold redactLeaf; cbn. by destruct (isSensitiveKey h key).
Qed.

Lemma redactAttrs_leaves h l : attrLeaves (map (redactAttr h) l) = map (redactLeaf h) (attrLeaves l).
Proof. apply attrLeaves_map. apply Forall_forall. intros a _. apply redactValue_leaves. Qed.

Lemma redactOp_leaves h op : opLeaves (redactOp h op) = map (redactLeaf h) (opLeaves op).
Proof.
  destruct op; [apply redactAttrs_leaves|done|]. etrans; [apply dropEmpty_leaves|apply redactAttrs_leaves].
Qed.

Lemma redactLeaf_masks h k v a :
  (k, v) = redactLeaf h a → isSensitiveKey h k = true → v = VString (mask h).
Proof.
  unfold redactLeaf. destruct a as [k' v']. cbn. destruct (isSensitiveKey h k') eqn:E; [by intros [= -> ->]|].
  destruct v'; intros [= -> ->]; congruence.
Qed.

Lemma samplingHandle_level {St} `{Sampler St} h r now :
  bypassLevel (samplingHandle h r now).2 = bypassLevel h ∧
  (bypassLevel h <= Level r → (samplingHandle h r now).1 = true).
Proof.
  unfold samplingHandle. destruct (Z.leb_spec (bypassLevel h) (Level r)); [done|].
  destruct (allow (sampler h) now). cbn. split; [done|lia].
Qed.

Lemma logged_sublist {St} `{Sampler St} rd rs : ∀ h,
  map (λ p, redactRecord rd p.1) (filter (λ p, bypassLevel h <= Level p.1) rs) `sublist_of` logged h rd rs ∧
  logged h rd rs `sublist_of` map (λ p, redactRecord rd p.1) rs.
Proof.
  induction rs as [|[r now] rs IH]; intros h; cbn [logged]; [done|].
  destruct (samplingHandle_level h r now) as [Hl Hb].
  destruct (samplingHandle h r now) as [ok h']. cbn [fst snd] in *. specialize (IH h'). rewrite Hl in IH.
  rewrite filter_cons; cbn [fst]. case_decide as Hd; [rewrite (Hb Hd)|destruct ok]; cbn.
  - split; apply sublist_skip; apply IH.
  - split; [apply sublist_cons|apply sublist_skip]; apply IH.
  - split; [|apply sublist_cons]; apply IH.
Qed.

(** The value a handler prints: LogValuers replaced by what they stand for. *)
Fixpoint resolved (v : Value) : Value :=
  match v with
  | VLogValuer v => resolved v
  | VGroup l => VGroup (map (λ a, (a.1, resolved a.2)) l)
  | _ => v
  end.

(** C35: Masking is complete on attributes and loses nothing: through every call
    (records, WithAttrs, WithGroup) the next handler receives the same leaf
    attributes in the same order, at any depth of groups, each masked when its
    key contains a sensitive word in any case and otherwise, if its value is a string, with the patterns
    replaced in it. With a sampling handler in front, of any sampler, the records that
    come through are redacted records in their order, and among them all those
    at or above the bypass level. What escapes: the text of every value under another key that is not a string, such as
    that of an error, which passes as it is whatever the patterns; the members of a group whose own name is
    sensitive; and the attributes behind a LogValuer, which the output resolves
    after the masking. *)
Theorem log_redacted (rd : RedactingHandler) :
  (∀ op, opLeaves (redactOp rd op) = map (redactLeaf rd) (opLeaves op)) ∧
  (∀ op k v, (k, v) ∈ opLeaves (redactOp rd op) → isSensitiveKey rd k = true → v = VString (mask rd)) ∧
  (∀ St (Sm : Sampler St) (h : SamplingHandler St) rs,
     map (λ p, redactRecord rd p.1) (filter (λ p, bypassLevel h <= Level p.1) rs) `sublist_of` logged h rd rs ∧
     logged h rd rs `sublist_of` map (λ p, redactRecord rd p.1) rs) ∧
  (∀ k text, isSensitiveKey rd k = false → redactAttr rd (k, VOther text) = (k, VOther text)) ∧
  (let d := NewRedactingHandler [] in
   redactAttr d ("secret", VGroup [("value", VString "hunter2")]) = ("secret", VGroup [("value", VString "hunter2")]) ∧
   leaves "user" (resolved (redactValue d "user" (VLogValuer (VGroup [("password", VString "hunter2")]))))
     = [("password", VString "hunter2")]).
Proof.
  split_and!.
  - apply redactOp_leaves.
  - intros op k v. rewrite redactOp_leaves. intros (a & Ha & _)%list_elem_of_fmap. by eapply redactLeaf_masks.
  - intros St Sm h rs. apply logged_sublist.
  - intros k text Hk. unfold redactAttr. cbn. by rewrite Hk.
  - by vm_compute.
Qed.
