(* ===== verification/Ratio.v ===== *)
(** [RatioBreaker] (circuitbreaker/ratio.go): trips when the share of failed
    calls in a rolling time window reaches a threshold. *)
From S2P Require Import Prelude Float64 Breaker.

Record reqRecord := ReqRecord { ts : Time; isFailed : bool }.

Record RatioBreaker := Ratio {
  gate_ : gate;
  failureRatio : float64;
  minRequests : Z;
  window : Duration;
  records : list reqRecord;
  failureCount : Z;
}.

(** [failureRatio <= 0 || failureRatio > 1.0] is replaced by 0.5. *)
Definition ratioOrDefault (r : float64) : float64 :=
  if fleb r f0 || fltb f1 r then fhalf else r.

Definition NewRatioBreaker (failureRatio : float64) (minRequests : Z) (window resetTimeout : Duration)
    (opts : list Option_) : RatioBreaker :=
  Ratio (newGate opts (if resetTimeout <=? 0 then 30 * Second else resetTimeout))
        (ratioOrDefault failureRatio)
        (if minRequests <=? 0 then 10 else minRequests)
        (if window <=? 0 then 10 * Second else window) [] 0.

Definition initDefaults (rb : RatioBreaker) : RatioBreaker :=
  Ratio (gateDefaults (30 * Second) (gate_ rb))
        (ratioOrDefault (failureRatio rb))
        (if minRequests rb <=? 0 then 10 else minRequests rb)
        (if window rb <=? 0 then 10 * Second else window rb)
        (records rb) (failureCount rb).

Definition withGate (rb : RatioBreaker) g :=
  Ratio g (failureRatio rb) (minRequests rb) (window rb) (records rb) (failureCount rb).
Definition withRecords (rb : RatioBreaker) rs n :=
  Ratio (gate_ rb) (failureRatio rb) (minRequests rb) (window rb) rs n.

Definition canExecute (rb : RatioBreaker) (now : Time) : (bool * bool) * RatioBreaker :=
  let rb1 := initDefaults rb in
  let '(r, g) := admission (gate_ rb1) now in (r, withGate rb1 g).

(** The loop of [evaluateRatio]: drops the leading records before the cutoff
    and takes their failures off the count. *)
Fixpoint prune (cutoff : Time) (rs : list reqRecord) (count : Z) : list reqRecord * Z :=
  match rs with
  | r :: rs' =>
      if time_Before (ts r) cutoff
      then prune cutoff rs' (if isFailed r then count - 1 else count)
      else (rs, count)
  | [] => ([], count)
  end.

(** [total >= minRequests] and [float64(failureCount)/float64(total) >= failureRatio]. *)
Definition overThreshold (rb : RatioBreaker) (total count : Z) : bool :=
  (minRequests rb <=? total) && fleb (failureRatio rb) (fdiv (of_int count) (of_int total)).

Definition evaluateRatio (rb : RatioBreaker) (now : Time) : RatioBreaker :=
  let cutoff := time_Add now (wrap64 (- window rb)) in
  let '(rs, n) := prune cutoff (records rb) (failureCount rb) in
  let rb1 := withRecords rb rs n in
  if overThreshold rb1 (Z.of_nat (length rs)) n
  then withGate rb1 (transition (setOpenedAt (gate_ rb1) now) StateOpen)
  else rb1.

(** [append(records, ...)], and the counters of a failure. *)
Definition addRecord (rb : RatioBreaker) (failed : bool) (now : Time) : RatioBreaker :=
  let rs := records rb ++ [ReqRecord now failed] in
  if failed
  then Ratio (incFailures (gate_ rb)) (failureRatio rb) (minRequests rb) (window rb) rs (failureCount rb + 1)
  else withRecords rb rs (failureCount rb).

Definition recordResult (rb : RatioBreaker) (isProbe : bool) (err : option error) (now : Time) : RatioBreaker :=
  if isProbe then
    let g := decrementHalfOpen (gate_ rb) in
    match err with
    | Some e => if errors_Is e Canceled then withGate rb g else withGate rb (failProbe g now)
    | None => withGate (withRecords rb [] 0) (transition g StateClosed)
    end
  else if bool_decide (state (gate_ rb) = StateClosed) then
    match err with
    | Some e => if errors_Is e Canceled then rb else evaluateRatio (addRecord rb true now) now
    | None => evaluateRatio (addRecord rb false now) now
    end
  else rb.

Definition onPanic (rb : RatioBreaker) (isProbe : bool) (now : Time) : RatioBreaker :=
  if isProbe then withGate rb (failProbe (decrementHalfOpen (gate_ rb)) now)
  else if bool_decide (state (gate_ rb) = StateClosed) then evaluateRatio (addRecord rb true now) now
  else rb.

Definition Failures (rb : RatioBreaker) : Z := failureCount rb.
Definition State_ (rb : RatioBreaker) (now : Time) : State := reportState (gate_ rb) now.

#[export] Instance ratio_breaker : Breaker RatioBreaker := {|
  gateOf := gate_; Breaker.canExecute := canExecute;
  countRequest rb := withGate rb (incRequests (gate_ rb));
  Breaker.recordResult := recordResult; Breaker.onPanic := onPanic;
|}.

Lemma evaluate_leaves rb failed now :
  state (gate_ rb) = StateClosed →
  leaves false (gate_ rb) (gate_ (evaluateRatio (addRecord rb failed now) now)).
Proof.
  intros Hc. unfold evaluateRatio. destruct (prune _ _ _) as [rs n].
  destruct failed; simpl; case_match; simpl; by constructor.
Qed.

#[export] Program Instance ratio_laws : BreakerLaws RatioBreaker := {|
  defaultReset := 30 * Second;
|}.
Next Obligation. intros rb now. simpl. unfold canExecute. simpl. by destruct (admission _ _) as [[? ?] ?]. Qed.
Next Obligation. done. Qed.
Next Obligation.
  intros rb p err now. simpl. unfold recordResult. destruct p.
  - cases; constructor.
  - case_bool_decide; [|constructor]. destruct err as [e|]; [|by apply evaluate_leaves].
    destruct (errors_Is e Canceled); [constructor|]. by apply evaluate_leaves.
Qed.
Next Obligation.
  intros rb p now. simpl. unfold onPanic. destruct p; [constructor|]. case_bool_decide; [|constructor].
  by apply evaluate_leaves.
Qed.

(** ** The rolling window *)

(** The calls that count, oldest first: all but the cancelled ones. *)
Definition counted (p : outcome * Time) : option reqRecord :=
  match p.1 with
  | Panicked => Some (ReqRecord p.2 true)
  | Returned (Some e) => if errors_Is e Canceled then None else Some (ReqRecord p.2 true)
  | Returned None => Some (ReqRecord p.2 false)
  end.
Definition history (os : list (outcome * Time)) : list reqRecord := omap counted os.

(** The calls in the window that ends with the last one. *)
Definition inWindow (w : Duration) (h : list reqRecord) : list reqRecord :=
  match last h with
  | Some r => filter (λ r', ts r - w <= ts r') h
  | None => []
  end.

Definition failuresIn (h : list reqRecord) : Z := Z.of_nat (length (filter (λ r, isFailed r = true) h)).

Definition completions (rb : RatioBreaker) (os : list (outcome * Time)) : RatioBreaker :=
  foldl (λ rb '(o, now), (leave rb false o None now).2) rb os.

Definition sortedBy (h : list reqRecord) : Prop := StronglySorted (λ r r', ts r <= ts r') h.

Lemma failuresIn_cons r h : failuresIn (r :: h) = (if isFailed r then 1 else 0) + failuresIn h.
Proof.
  unfold failuresIn. rewrite filter_cons. destruct (isFailed r); case_decide; simpl; try done; lia.
Qed.

Lemma failuresIn_nil : failuresIn [] = 0.
Proof. done. Qed.

Lemma failuresIn_app h1 h2 : failuresIn (h1 ++ h2) = failuresIn h1 + failuresIn h2.
Proof. unfold failuresIn. rewrite filter_app, length_app. lia. Qed.

(** On a sorted list pruning the leading records is filtering. *)
Lemma prune_filter cutoff h n :
  sortedBy h → n = failuresIn h →
  prune cutoff h n = (filter (λ r, cutoff <= ts r) h, failuresIn (filter (λ r, cutoff <= ts r) h)).
Proof.
  intros Hs. revert n. induction Hs as [|r h Hs IH Hall]; intros n Hn; simpl; [by subst|].
  unfold time_Before. destruct (ts r <? cutoff) eqn:E; bool_to_prop.
  - rewrite filter_cons_False by lia. apply IH. rewrite Hn, failuresIn_cons. case_match; lia.
  - rewrite (filter_all _ (r :: h)); [by subst|].
    intros r' [->|Hr']%elem_of_cons; [done|]. rewrite Forall_forall in Hall.
    specialize (Hall r' Hr'). lia.
Qed.

Lemma filter_sorted P `{∀ r, Decision (P r)} h : sortedBy h → sortedBy (filter P h).
Proof.
  induction 1 as [|r h Hs IH Hall]; [constructor|]. rewrite filter_cons. case_decide; [|done].
  constructor; [done|]. apply Forall_forall. intros r' [_ Hr']%list_elem_of_filter.
  rewrite Forall_forall in Hall. by apply Hall.
Qed.

Lemma sorted_snoc h r : sortedBy (h ++ [r]) → sortedBy h ∧ ∀ r', r' ∈ h → ts r' <= ts r.
Proof.
  induction h as [|r0 h IH]; simpl; [intros _; split; [constructor|set_solver]|].
  intros [Hs Hall]%StronglySorted_inv. destruct (IH Hs) as [Hs' Hle]. rewrite Forall_forall in Hall.
  split.
  - constructor; [done|]. apply Forall_forall. intros r' Hr'. apply Hall. set_solver.
  - intros r' [->|Hr']%elem_of_cons; [apply Hall; set_solver | by apply Hle].
Qed.

(** The window moves on with every call. *)
Lemma window_snoc w h r :
  0 <= w → sortedBy (h ++ [r]) →
  prune (ts r - w) (inWindow w h ++ [r]) (failuresIn (inWindow w h ++ [r])) =
  (inWindow w (h ++ [r]), failuresIn (inWindow w (h ++ [r]))).
Proof.
  intros Hw Hs. pose proof Hs as Hs0. apply sorted_snoc in Hs as [Hs Hle].
  assert (inWindow w h = h ∨ ∃ r0, last h = Some r0 ∧ inWindow w h = filter (λ r', ts r0 - w <= ts r') h) as Hw'.
  { unfold inWindow. destruct (last h) eqn:E; [by eauto|]. apply last_None in E as ->. by left. }
  assert (filter (λ r', ts r - w <= ts r') (inWindow w h ++ [r]) = inWindow w (h ++ [r])) as Heq.
  { unfold inWindow at 2. rewrite last_snoc, !filter_app. f_equal.
    destruct Hw' as [->|(r0 & Hr0 & ->)]; [done|]. rewrite list_filter_filter.
    assert (ts r0 <= ts r) by (apply Hle, last_Some_elem_of, Hr0).
    apply list_filter_iff. intros r'. lia. }
  rewrite prune_filter; [by rewrite Heq| |done].
  assert (∃ P (_ : ∀ r, Decision (P r)), inWindow w h ++ [r] = filter P (h ++ [r])) as (P & HP & ->).
  { destruct Hw' as [->|(r0 & Hr0 & ->)].
    - exists (λ _, True), _. by rewrite filter_all.
    - exists (λ r', ts r0 - w <= ts r'), _. rewrite filter_app, filter_cons_True; [done|].
      assert (ts r0 <= ts r) by (apply Hle, last_Some_elem_of, Hr0). lia. }
  by apply filter_sorted.
Qed.

(** One call that ends in the closed state. *)
Lemma ratio_leave_closed rb o now h :
  state (gate_ rb) = StateClosed → 0 < window rb <= maxInt64 →
  records rb = inWindow (window rb) h → failureCount rb = failuresIn (records rb) →
  sortedBy (h ++ default [] ((λ r, [r]) <$> counted (o, now))) →
  let rb' := (leave rb false o None now).2 in
  failureRatio rb' = failureRatio rb ∧ minRequests rb' = minRequests rb ∧ window rb' = window rb ∧
  match counted (o, now) with
  | None => rb' = rb
  | Some r =>
      let v := inWindow (window rb) (h ++ [r]) in
      records rb' = v ∧ failureCount rb' = failuresIn v ∧
      state (gate_ rb') = if overThreshold rb (Z.of_nat (length v)) (failuresIn v)
                          then StateOpen else StateClosed
  end.
Proof.
  intros Hc Hw Hr Hf.
  assert (∀ failed, sortedBy (h ++ [ReqRecord now failed]) →
    let rb' := evaluateRatio (addRecord rb failed now) now in
    let v := inWindow (window rb) (h ++ [ReqRecord now failed]) in
    failureRatio rb' = failureRatio rb ∧ minRequests rb' = minRequests rb ∧ window rb' = window rb ∧
    records rb' = v ∧ failureCount rb' = failuresIn v ∧
    state (gate_ rb') = if overThreshold rb (Z.of_nat (length v)) (failuresIn v)
                        then StateOpen else StateClosed) as Heval.
  { intros failed Hs. unfold evaluateRatio, time_Add.
    assert (window (addRecord rb failed now) = window rb ∧
      records (addRecord rb failed now) = records rb ++ [ReqRecord now failed] ∧
      failureCount (addRecord rb failed now) = failuresIn (records rb ++ [ReqRecord now failed]))
      as (-> & -> & ->).
    { destruct failed; simpl; rewrite failuresIn_app, failuresIn_cons, failuresIn_nil; simpl;
        split_and!; try done; lia. }
    rewrite wrap64_id by (unfold in_int64, minInt64, maxInt64 in *; lia). rewrite Z.add_opp_r, Hr.
    pose proof (window_snoc (window rb) h (ReqRecord now failed) ltac:(lia) Hs) as Hprune.
    simpl in Hprune. rewrite Hprune. cbv zeta.
    unfold overThreshold. destruct failed; simpl; destruct (_ && _); simpl;
      rewrite ?transition_state; done. }
  unfold leave, counted. destruct o as [[e|]|]; simpl; unfold recordResult, onPanic;
    rewrite ?bool_decide_eq_true_2 by done; [destruct (errors_Is e Canceled); [done|]|..];
    apply Heval.
Qed.

Lemma ratio_leave_open rb o now : state (gate_ rb) = StateOpen → (leave rb false o None now).2 = rb.
Proof.
  intros Hc. unfold leave. destruct o as [err|]; simpl; unfold recordResult, onPanic;
    by rewrite bool_decide_eq_false_2 by (by rewrite Hc).
Qed.

(** The share of failures in the window of a history is over the threshold. *)
Definition trips (rb : RatioBreaker) (h : list reqRecord) : bool :=
  let v := inWindow (window rb) h in overThreshold rb (Z.of_nat (length v)) (failuresIn v).

Lemma history_snoc os o now :
  history (os ++ [(o, now)]) = history os ++ default [] ((λ r, [r]) <$> counted (o, now)).
Proof. unfold history. rewrite omap_app. simpl. by destruct (counted (o, now)). Qed.

Lemma sorted_prefix h1 h2 : sortedBy (h1 ++ h2) → sortedBy h1.
Proof.
  induction h2 as [|r h2 IH] using rev_ind; [by rewrite app_nil_r|].
  rewrite app_assoc. intros [Hs _]%sorted_snoc. by apply IH.
Qed.

Lemma completions_window rb os :
  state (gate_ rb) = StateClosed → records rb = [] → failureCount rb = 0 →
  0 < minRequests rb → 0 < window rb <= maxInt64 → sortedBy (history os) →
  let rb' := completions rb os in
  failureRatio rb' = failureRatio rb ∧ minRequests rb' = minRequests rb ∧ window rb' = window rb ∧
  (state (gate_ rb') = StateClosed ∧ records rb' = inWindow (window rb) (history os) ∧
     failureCount rb' = failuresIn (records rb') ∧
     (∀ p, p `prefix_of` os → trips rb (history p) = false) ∨
   state (gate_ rb') = StateOpen ∧ ∃ p, p `prefix_of` os ∧ trips rb (history p) = true).
Proof.
  intros Hc Hr Hn Hmin Hw. cbv zeta. induction os as [|[o now] os IH] using rev_ind; intros Hs.
  { split_and!; try done. left. split_and!; try done; simpl; [by rewrite Hn, Hr|].
    intros p ->%prefix_nil_inv. apply andb_false_iff. left. by apply Z.leb_gt. }
  rewrite history_snoc in Hs. destruct (IH (sorted_prefix _ _ Hs)) as (Hfr & Hmr & Hwr & Hcase). clear IH.
  unfold completions in *. rewrite foldl_app. simpl. set (rb1 := foldl _ rb os) in *.
  destruct Hcase as [(Hs1 & Hr1 & Hf1 & Hall)|(Hs1 & p & Hp & Ht)].
  - destruct (ratio_leave_closed rb1 o now (history os) Hs1 ltac:(lia) ltac:(congruence) Hf1 Hs)
      as (Hfr' & Hmr' & Hwr' & Hcase). split_and!; try congruence.
    rewrite history_snoc.
    destruct (counted (o, now)) as [r|] eqn:Eo; simpl.
    + destruct Hcase as (Hr' & Hf' & ->). rewrite Hwr in *.
      assert (overThreshold rb1 = overThreshold rb) as ->
        by (unfold overThreshold; by rewrite Hfr, Hmr).
      fold (trips rb (history os ++ [r])).
      destruct (trips rb (history os ++ [r])) eqn:Et; [right|left].
      * split; [done|]. exists (os ++ [(o, now)]). split; [done|].
        rewrite history_snoc, Eo. done.
      * split_and!; [done|done|congruence|]. intros p [Hp| ->]%prefix_snoc_inv; [by apply Hall|].
        by rewrite history_snoc, Eo.
    + rewrite Hcase, app_nil_r. left. split_and!; try done.
      intros p [Hp| ->]%prefix_snoc_inv; [by apply Hall|].
      rewrite history_snoc, Eo. simpl. rewrite app_nil_r. by apply Hall.
  - rewrite ratio_leave_open by done. split_and!; try done. right. split; [done|]. exists p.
    split; [by apply prefix_app_r | done].
Qed.

(** C10: for a ratio breaker that starts closed and without records, with a
    positive minimum and a positive window, and clock readings that do not go
    back: as long as it is closed, its records are exactly the uncancelled calls that ended in the
    window before the last one and [Failures()] counts the failed ones; it opens
    exactly when, after some call, the window held at least [minRequests] calls
    and the share of failures, in [float64] arithmetic, was at least the ratio,
    as the README says; a share equal to the ratio opens it, although the comment on
    the type says that it has to be exceeded. *)
Theorem ratio_trips rb os :
  state (gate_ rb) = StateClosed → records rb = [] → failureCount rb = 0 →
  0 < minRequests rb → 0 < window rb <= maxInt64 → sortedBy (history os) →
  let rb' := completions rb os in
  (state (gate_ rb') = StateOpen ↔ ∃ p, p `prefix_of` os ∧ trips rb (history p) = true) ∧
  (state (gate_ rb') = StateOpen ∨
   state (gate_ rb') = StateClosed ∧ records rb' = inWindow (window rb) (history os) ∧
   Failures rb' = failuresIn (inWindow (window rb) (history os))).
Proof.
  intros Hc Hr Hn Hmin Hw Hs. cbv zeta.
  destruct (completions_window rb os Hc Hr Hn Hmin Hw Hs)
    as (_ & _ & _ & [(Hs' & Hr' & Hf' & Hall)|(Hs' & Hex)]).
  - split; [|right; unfold Failures; by rewrite Hf', Hr'].
    split; [congruence|]. intros (p & Hp & Ht). by rewrite Hall in Ht.
  - split; [done|by left].
Qed.

Definition rb1 : RatioBreaker := NewRatioBreaker fhalf 2 (10 * Second) Second [].
Definition mixed : list (outcome * Time) :=
  [(Returned None, 1); (Returned (Some (ErrNew "boom")), 20 * Second); (Panicked, 21 * Second)].

Lemma ratio_trips_witness :
  (state (gate_ (completions rb1 mixed)) = StateOpen ↔
    ∃ p, p `prefix_of` mixed ∧ trips rb1 (history p) = true) ∧
  (state (gate_ (completions rb1 mixed)) = StateOpen ∨
   state (gate_ (completions rb1 mixed)) = StateClosed ∧
   records (completions rb1 mixed) = inWindow (window rb1) (history mixed) ∧
   Failures (completions rb1 mixed) = failuresIn (inWindow (window rb1) (history mixed))).
Proof.
  apply ratio_trips; [reflexivity|reflexivity|reflexivity|reflexivity|split; vm_compute; congruence|].
  vm_compute. repeat constructor; discriminate.
Defined.
