(* ===== verification/TokenBucket.v ===== *)
(** The token bucket limiter (ratelimit/token_bucket.go): buckets per key with
    lazy refill and periodic removal of idle buckets, in 64-bit arithmetic. *)
From S2P Require Import Prelude.

Record tbBucket := Bucket { tokens : Z; last : Time }.

Record TokenBucketLimiter := TokenBucket {
  buckets : gmap string tbBucket;
  capacity : Z;
  refillRate : Duration;
  lastGC : Time;
  gcInterval : Duration;
  idleTimeout : Duration;
}.

Definition NewTokenBucket (capacity : Z) (refillRate : Duration) (now : Time) : TokenBucketLimiter :=
  TokenBucket ∅ (if capacity <=? 0 then 1 else capacity)
              (if refillRate <=? 0 then Second else refillRate)
              now (5 * Minute) (5 * Minute).

Definition withBuckets (l : TokenBucketLimiter) bs : TokenBucketLimiter :=
  TokenBucket bs (capacity l) (refillRate l) (lastGC l) (gcInterval l) (idleTimeout l).

(** The clock readings of one call, in the order the code makes them:
    [initDefaults], [Since(lastGC)], the cutoff, [lastGC], the new bucket, and
    the refill. *)
Record reads := Reads { r_init : Time; r_since : Time; r_cutoff : Time; r_gc : Time; r_new : Time; r_now : Time }.

Definition initDefaults (l : TokenBucketLimiter) (now : Time) : TokenBucketLimiter :=
  TokenBucket (buckets l) (if capacity l <=? 0 then 1 else capacity l)
    (if refillRate l <=? 0 then Second else refillRate l)
    (if time_IsZero (lastGC l) then now else lastGC l)
    (if gcInterval l <=? 0 then 5 * Minute else gcInterval l)
    (if idleTimeout l <=? 0 then 5 * Minute else idleTimeout l).

(** [maybeGC]: once per interval, drops the buckets idle since the cutoff. *)
Definition maybeGC (l : TokenBucketLimiter) (rd : reads) : TokenBucketLimiter :=
  if time_Sub (r_since rd) (lastGC l) <? gcInterval l then l
  else
    let cutoff := time_Add (r_cutoff rd) (wrap64 (- idleTimeout l)) in
    TokenBucket (filter (λ p, time_Before (last p.2) cutoff = false) (buckets l))
      (capacity l) (refillRate l) (r_gc rd) (gcInterval l) (idleTimeout l).

Definition getBucket (l : TokenBucketLimiter) (key : string) (rd : reads) : tbBucket * TokenBucketLimiter :=
  match buckets l !! key with
  | Some b => (b, l)
  | None =>
      let l1 := maybeGC (initDefaults l (r_init rd)) rd in
      match buckets l1 !! key with
      | Some b => (b, l1)
      | None =>
          let b := Bucket (capacity l1) (r_new rd) in (b, withBuckets l1 (<[key := b]> (buckets l1)))
      end
  end.

(** The refill step of [AllowN] on a bucket. *)
Definition refilled (cap : Z) (rate : Duration) (b : tbBucket) (now : Time) : tbBucket :=
  let refill := go_div (time_Sub now (last b)) rate in
  if 0 <? refill then
    let t := tokens b +! refill in
    if cap <=? t then Bucket cap now
    else Bucket t (time_Add (last b) (refill *! rate))
  else b.

Definition AllowN (l : TokenBucketLimiter) (key : string) (n : Z) (rd : reads) : bool * TokenBucketLimiter :=
  if n <=? 0 then (true, l)
  else
    let '(b, l1) := getBucket l key rd in
    let b1 := refilled (capacity l1) (refillRate l1) b (r_now rd) in
    let '(ok, b2) := if tokens b1 <? n then (false, b1) else (true, Bucket (tokens b1 - n) (last b1)) in
    (ok, withBuckets l1 (<[key := b2]> (buckets l1))).

Definition Allow (l : TokenBucketLimiter) (key : string) (rd : reads) : bool * TokenBucketLimiter :=
  AllowN l key 1 rd.

Definition Remaining (l : TokenBucketLimiter) (key : string) (rd : reads) : Z * TokenBucketLimiter :=
  let '(b, l1) := getBucket l key rd in
  let refill := go_div (time_Sub (r_now rd) (last b)) (refillRate l1) in
  let t := tokens b +! refill in
  (if capacity l1 <? t then capacity l1 else t, l1).

Definition Reset (l : TokenBucketLimiter) (key : string) : TokenBucketLimiter :=
  withBuckets l (delete key (buckets l)).

(** ** Histories *)

Inductive call :=
| CallAllowN (key : string) (n : Z) (rd : reads)
| CallRemaining (key : string) (rd : reads)
| CallReset (key : string).

(** A call, and what it grants to each key. *)
Definition step (l : TokenBucketLimiter) (c : call) : TokenBucketLimiter :=
  match c with
  | CallAllowN key n rd => (AllowN l key n rd).2
  | CallRemaining key rd => (Remaining l key rd).2
  | CallReset key => Reset l key
  end.

Definition granted (l : TokenBucketLimiter) (c : call) (key : string) : Z :=
  match c with
  | CallAllowN k n rd =>
      if bool_decide (k = key) && (AllowN l k n rd).1 then Z.max 0 n else 0
  | _ => 0
  end.

Definition resets (c : call) (key : string) : Z :=
  match c with CallReset k => if bool_decide (k = key) then 1 else 0 | _ => 0 end.

(** The total granted to a key, and the limiter after a history. *)
Fixpoint totals (l : TokenBucketLimiter) (cs : list call) (key : string) : Z * Z * TokenBucketLimiter :=
  match cs with
  | [] => (0, 0, l)
  | c :: cs' =>
      let '(g, r, l') := totals (step l c) cs' key in (granted l c key + g, resets c key + r, l')
  end.

(** The readings of a history do not go back: they lie in [[t, t']]. *)
Definition readsIn (t : Time) (rd : reads) (t' : Time) : Prop :=
  t <= r_init rd ∧ r_init rd <= r_since rd ∧ r_since rd <= r_cutoff rd ∧ r_cutoff rd <= r_gc rd ∧
  r_gc rd <= r_new rd ∧ r_new rd <= r_now rd ∧ r_now rd <= t'.

Fixpoint timed (t : Time) (cs : list call) (t' : Time) : Prop :=
  match cs with
  | [] => t <= t'
  | CallReset _ :: cs' => timed t cs' t'
  | CallAllowN _ _ rd :: cs' | CallRemaining _ rd :: cs' =>
      ∃ t1, readsIn t rd t1 ∧ timed t1 cs' t'
  end.

(** ** The rate bound *)

(** A limiter whose garbage collection only removes full buckets, started at
    [t0], at time [t], far from the ends of the 64-bit range. *)
Record sane (t0 t : Time) (l : TokenBucketLimiter) : Prop := {
  sane_cap : 1 <= capacity l;
  sane_rate : 1 <= refillRate l;
  sane_gc : 0 < gcInterval l;
  sane_idle : capacity l * refillRate l <= idleTimeout l <= maxInt64;
  sane_idle_pos : 0 < idleTimeout l;
  sane_span : capacity l + (t - t0) <= maxInt64;
  sane_start : t0 <= t;
  sane_bucket : map_Forall (λ _ b, 0 <= tokens b <= capacity l ∧ t0 <= last b <= t) (buckets l);
}.

(** The credit of a key: what it was granted, together with the tokens it
    holds, was refilled since [t0] or was in the full bucket it started with,
    once more per reset. *)
Definition credit (t0 t : Time) (l : TokenBucketLimiter) (key : string) (used extra : Z) : Prop :=
  match buckets l !! key with
  | Some b => (used + tokens b) * refillRate l <= (1 + extra) * (capacity l * refillRate l) + (last b - t0)
  | None => used * refillRate l <= extra * (capacity l * refillRate l) + (t - t0)
  end.

Lemma initDefaults_sane t0 t l now :
  sane t0 t l → t0 <= now <= t →
  ∃ gc, initDefaults l now = TokenBucket (buckets l) (capacity l) (refillRate l) gc (gcInterval l) (idleTimeout l).
Proof.
  intros [] _. unfold initDefaults. eexists.
  by rewrite !(proj2 (Z.leb_gt _ _)) by lia.
Qed.

(** Refilling a bucket: the tokens stay in range and are paid for by time. *)
Lemma refilled_spec cap rate b now t0 :
  1 <= cap → 1 <= rate → 0 <= tokens b <= cap → t0 <= last b <= now → cap + (now - t0) <= maxInt64 →
  let b' := refilled cap rate b now in
  0 <= tokens b' <= cap ∧ last b <= last b' <= now ∧
  tokens b' * rate - last b' <= tokens b * rate - last b ∧
  tokens b' = Z.min cap (tokens b + (now - last b) / rate).
Proof.
  intros Hcap Hrate Htok Hlast Hspan. unfold refilled. 
  rewrite time_Sub_exact by (unfold in_int64, minInt64, maxInt64 in *; lia).
  assert (0 <= (now - last b) / rate <= now - last b) as Hq.
  { split; [apply Z.div_pos; lia|]. apply Z.div_le_upper_bound; nia. }
  unfold go_div. rewrite Z.quot_div_nonneg by lia.
  rewrite wrap64_id by (unfold in_int64, minInt64, maxInt64 in *; lia).
  pose proof (Z.div_mod (now - last b) rate ltac:(lia)) as Hdm.
  pose proof (Z.mod_pos_bound (now - last b) rate ltac:(lia)) as Hmb.
  set (q := (now - last b) / rate) in *.
  rewrite (wrap64_id (tokens b + q)) by (unfold in_int64, minInt64, maxInt64 in *; lia).
  rewrite (wrap64_id (q * rate)) by (unfold in_int64, minInt64, maxInt64 in *; nia).
  unfold time_Add. destruct (0 <? q) eqn:Eq; bool_to_prop.
  - destruct (cap <=? tokens b + q) eqn:Ec; bool_to_prop; simpl; split_and!; try nia; auto.
  - assert (q = 0) as Hq0 by lia. rewrite Hq0 in *. split_and!; lia.
Qed.

Lemma sane_later t0 t t' l :
  sane t0 t l → t <= t' → capacity l + (t' - t0) <= maxInt64 → sane t0 t' l.
Proof.
  intros [] Hle Hspan. split; try done; [lia|]. eapply map_Forall_impl; [done|].
  simpl. intros _ b ?. lia.
Qed.

Lemma credit_later t0 t t' l key used extra :
  t <= t' → credit t0 t l key used extra → credit t0 t' l key used extra.
Proof. unfold credit. intros Hle. destruct (buckets l !! key); lia. Qed.

(** Garbage collection only removes buckets that are full by then. *)
Lemma maybeGC_spec t0 t l rd :
  sane t0 t l → r_cutoff rd <= t →
  sane t0 t (maybeGC l rd) ∧ capacity (maybeGC l rd) = capacity l ∧
  refillRate (maybeGC l rd) = refillRate l ∧
  ∀ k used extra, credit t0 t l k used extra → credit t0 t (maybeGC l rd) k used extra.
Proof.
  intros Hs Hle. unfold maybeGC. destruct (_ <? _); [done|].
  pose proof Hs as []. rewrite wrap64_id by (unfold in_int64, minInt64, maxInt64 in *; lia).
  split; [|split_and!; [done|done|]].
  - split; try done. simpl. intros k b [Hk _]%map_lookup_filter_Some. by apply (sane_bucket0 k).
  - intros k used extra. unfold credit. simpl. rewrite map_lookup_filter.
    destruct (buckets l !! k) as [b|] eqn:Ek; simpl; [|done].
    destruct (time_Before _ _) eqn:Eb; simpl; [|done]. unfold time_Before, time_Add in Eb. bool_to_prop.
    apply sane_bucket0 in Ek as [Ht Hl]. intros Hc. nia.
Qed.

(** [getBucket]: a bucket of the key is there, and no credit is made up. *)
Lemma getBucket_spec t0 t l key rd :
  sane t0 t l → readsIn t rd (r_now rd) → capacity l + (r_now rd - t0) <= maxInt64 →
  let '(b, l1) := getBucket l key rd in
  sane t0 (r_now rd) l1 ∧ buckets l1 !! key = Some b ∧
  capacity l1 = capacity l ∧ refillRate l1 = refillRate l ∧
  ∀ k used extra, credit t0 t l k used extra → credit t0 (r_now rd) l1 k used extra.
Proof.
  intros Hs Hrd Hspan. pose proof Hrd as (? & ? & ? & ? & ? & ? & _).
  pose proof (sane_later _ _ (r_new rd) _ Hs ltac:(lia) ltac:(lia)) as Hs1.
  unfold getBucket. destruct (buckets l !! key) as [b|] eqn:Ek.
  { split_and!; try done; [eapply sane_later; [done|lia|lia]|].
    intros k used extra. apply credit_later. lia. }
  destruct (initDefaults_sane t0 (r_new rd) l (r_init rd) Hs1) as [gc ->].
  { destruct Hs. lia. }
  set (l0 := TokenBucket _ _ _ _ _ _).
  assert (sane t0 (r_new rd) l0) as Hs0 by (destruct Hs1; by constructor).
  destruct (maybeGC_spec t0 (r_new rd) l0 rd Hs0 ltac:(lia)) as (Hs2 & Hcap & Hrate & Hcred).
  set (l1 := maybeGC l0 rd) in *. simpl in Hcap, Hrate.
  assert (∀ k used extra, credit t0 t l k used extra → credit t0 (r_new rd) l1 k used extra) as Hcred1.
  { intros k used extra Hc. apply Hcred. apply (credit_later t0 t); [lia|]. done. }
  destruct (buckets l1 !! key) as [b|] eqn:Ek1.
  { split_and!; try done; [eapply sane_later; [done|lia|lia]|].
    intros k used extra Hc. eapply credit_later; [|by apply Hcred1]. lia. }
  split_and!; simpl; try done; [|apply lookup_insert_eq|].
  - apply (sane_later t0 (r_new rd)); [|lia|simpl; lia]. destruct Hs2. split; try done. simpl.
    apply map_Forall_insert_2; [|done]. simpl. lia.
  - intros k used extra Hc%Hcred1. unfold credit in *. simpl. destruct (decide (k = key)) as [->|Hne].
    + rewrite lookup_insert_eq. rewrite Ek1 in Hc. simpl. lia.
    + rewrite lookup_insert_ne by done. destruct (buckets l1 !! k); lia.
Qed.

Lemma allow_spec t0 t l key n rd :
  sane t0 t l → readsIn t rd (r_now rd) → capacity l + (r_now rd - t0) <= maxInt64 →
  let '(ok, l1) := AllowN l key n rd in
  sane t0 (r_now rd) l1 ∧ capacity l1 = capacity l ∧ refillRate l1 = refillRate l ∧
  ∀ k used extra, credit t0 t l k used extra →
    credit t0 (r_now rd) l1 k (granted l (CallAllowN key n rd) k + used) extra.
Proof.
  intros Hs Hrd Hspan. unfold granted. destruct (AllowN l key n rd) as [ok l1] eqn:E. simpl.
  assert (t <= r_now rd) by (unfold readsIn in Hrd; lia). unfold AllowN in E.
  destruct (n <=? 0) eqn:En; bool_to_prop; simplify_eq.
  { split_and!; try done; [by eapply sane_later|]. intros k used extra Hc.
    rewrite Z.max_l by lia. replace (_ + used) with used by (by case_match). by apply (credit_later t0 t). }
  pose proof (getBucket_spec t0 t l key rd Hs Hrd Hspan) as Hg.
  destruct (getBucket l key rd) as [b l2]. destruct Hg as (Hs2 & Hb & Hcap & Hrate & Hcred).
  pose proof Hs2 as []. pose proof (sane_bucket0 _ _ Hb) as [Htok Hlast].
  destruct (refilled_spec (capacity l2) (refillRate l2) b (r_now rd) t0) as (Hr1 & Hr2 & Hr3 & _);
    [done|done|done|done|congruence|].
  set (b1 := refilled _ _ _ _) in *.
  assert (∃ b2, l1 = withBuckets l2 (<[key := b2]> (buckets l2)) ∧ 0 <= tokens b2 <= capacity l2 ∧
    last b2 = last b1 ∧ tokens b2 = tokens b1 - (if ok then n else 0)) as (b2 & -> & Hb2 & Hl2 & Ht2).
  { destruct (tokens b1 <? n) eqn:Et; bool_to_prop; simplify_eq; eexists; split; try done; simpl; lia. }
  split_and!; try done.
  - split; try done. simpl. apply map_Forall_insert_2; [|done]. lia.
  - intros k used extra Hc%Hcred. unfold credit in *. simpl. destruct (decide (k = key)) as [->|Hne].
    + rewrite lookup_insert_eq. rewrite Hb in Hc. rewrite bool_decide_eq_true_2 by done. simpl.
      rewrite Hl2, Ht2, Z.max_r by lia. destruct ok; nia.
    + rewrite lookup_insert_ne by done. rewrite bool_decide_eq_false_2 by done. simpl.
      destruct (buckets l2 !! k); lia.
Qed.

(** One call of a history. *)
Lemma step_spec t0 t l c t1 :
  sane t0 t l →
  match c with
  | CallAllowN _ _ rd | CallRemaining _ rd => readsIn t rd t1 ∧ capacity l + (t1 - t0) <= maxInt64
  | CallReset _ => t1 = t
  end →
  sane t0 t1 (step l c) ∧ capacity (step l c) = capacity l ∧ refillRate (step l c) = refillRate l ∧
  ∀ k used extra, credit t0 t l k used extra →
    credit t0 t1 (step l c) k (granted l c k + used) (resets c k + extra).
Proof.
  intros Hs. destruct c as [key n rd|key rd|key]; simpl.
  - intros [Hrd Hspan]. assert (readsIn t rd (r_now rd) ∧ r_now rd <= t1) as [Hrd' Hle].
    { unfold readsIn in *. lia. }
    pose proof (allow_spec t0 t l key n rd Hs Hrd' ltac:(lia)) as Ha.
    destruct (AllowN l key n rd) as [ok l1] eqn:E. destruct Ha as (Hs1 & Hcap & Hrate & Hcred).
    simpl. split_and!; try done; [eapply sane_later; [done|done|lia]|].
    intros k used extra Hc. eapply credit_later; [done|]. by apply Hcred in Hc; unfold granted in Hc; rewrite E in Hc.
  - intros [Hrd Hspan]. assert (readsIn t rd (r_now rd) ∧ r_now rd <= t1) as [Hrd' Hle].
    { unfold readsIn in *. lia. }
    pose proof (getBucket_spec t0 t l key rd Hs Hrd' ltac:(lia)) as Hg. unfold Remaining.
    destruct (getBucket l key rd) as [b l2]. destruct Hg as (Hs2 & Hb & Hcap & Hrate & Hcred).
    simpl. split_and!; try done; [eapply sane_later; [done|done|lia]|].
    intros k used extra Hc. eapply credit_later; [done|]. by apply Hcred.
  - intros ->. split_and!; try done.
    + destruct Hs. split; try done. by apply map_Forall_delete.
    + intros k used extra. unfold credit. simpl. rewrite lookup_delete. pose proof Hs as [].
      case_decide as Hk.
      * subst. rewrite bool_decide_eq_true_2 by done. destruct (buckets l !! k) as [b|] eqn:Ek; [|nia].
        apply sane_bucket0 in Ek as [? ?]. nia.
      * rewrite bool_decide_eq_false_2 by done. done.
Qed.

Lemma timed_le t cs t' : timed t cs t' → t <= t'.
Proof.
  revert t. induction cs as [|[k n rd|k rd|k] cs IH]; simpl; intros t; [done| | |apply IH].
  all: intros (t1 & Hrd & ?%IH); unfold readsIn in Hrd; lia.
Qed.

Lemma totals_credit t0 cs t l t' key used extra :
  sane t0 t l → timed t cs t' → capacity l + (t' - t0) <= maxInt64 →
  credit t0 t l key used extra →
  let '(g, r, l') := totals l cs key in
  sane t0 t' l' ∧ capacity l' = capacity l ∧ refillRate l' = refillRate l ∧
  credit t0 t' l' key (g + used) (r + extra).
Proof.
  revert t l used extra. induction cs as [|c cs IH]; intros t l used extra Hs Ht Hspan Hc; simpl.
  { simpl in Ht. split_and!; try done; [by eapply sane_later|]. by apply (credit_later t0 t). }
  assert (∃ t1, timed t1 cs t' ∧ match c with
    | CallAllowN _ _ rd | CallRemaining _ rd => readsIn t rd t1 ∧ capacity l + (t1 - t0) <= maxInt64
    | CallReset _ => t1 = t end) as (t1 & Ht1 & Hc1).
  { destruct c; simpl in Ht; [| |by eauto].
    all: destruct Ht as (t1 & ? & Ht1); exists t1; pose proof (timed_le _ _ _ Ht1); split_and!; try done; lia. }
  destruct (step_spec t0 t l c t1 Hs Hc1) as (Hs1 & Hcap & Hrate & Hcred).
  specialize (IH t1 (step l c) _ _ Hs1 Ht1 ltac:(lia) (Hcred _ _ _ Hc)).
  destruct (totals (step l c) cs key) as [[g r] l']. destruct IH as (? & ? & ? & IH).
  split_and!; try congruence.
  replace (granted l c key + g + used) with (g + (granted l c key + used)) by lia.
  by replace (resets c key + r + extra) with (r + (resets c key + extra)) by lia.
Qed.

(** A new limiter, whose full buckets refill within the idle timeout. *)
Lemma new_sane cap rate t0 :
  let l := NewTokenBucket cap rate t0 in
  capacity l * refillRate l <= 5 * Minute → capacity l <= maxInt64 → sane t0 t0 l.
Proof.
  intros l Hidle Hcap. unfold l, NewTokenBucket in *. simpl in *.
  assert (1 <= if rate <=? 0 then Second else rate) by (destruct (rate <=? 0) eqn:E; bool_to_prop; unfold Second; lia).
  assert (1 <= if cap <=? 0 then 1 else cap) by (destruct (cap <=? 0) eqn:E; bool_to_prop; lia).
  split; simpl; try done; try (unfold Minute, Second, maxInt64 in *; lia).
Qed.

Lemma new_credit cap rate t0 key : credit t0 t0 (NewTokenBucket cap rate t0) key 0 0.
Proof. unfold credit, NewTokenBucket. cbn [buckets]. rewrite lookup_empty. lia. Qed.

(** The rate bound. Over any history of calls on a limiter whose full
    bucket refills within the five-minute idle timeout, with clock readings
    that do not go back, the events granted to a key are at most its capacity
    plus one for every refill interval since the start, plus another capacity
    per [Reset] of the key: garbage collection never grants extra events. The
    tokens stay between zero and the capacity. *)
Lemma token_rate_bound cap rate t0 cs t' key :
  let l := NewTokenBucket cap rate t0 in
  capacity l * refillRate l <= 5 * Minute → timed t0 cs t' →
  capacity l + (t' - t0) <= maxInt64 →
  let '(g, r, l') := totals l cs key in
  g <= (1 + r) * capacity l + (t' - t0) / refillRate l ∧
  map_Forall (λ _ b, 0 <= tokens b <= capacity l) (buckets l').
Proof.
  intros l Hidle Ht Hspan. pose proof (timed_le _ _ _ Ht).
  pose proof (new_sane cap rate t0 Hidle ltac:(fold l; lia)) as Hs. fold l in Hs.
  pose proof (totals_credit t0 cs t0 l t' key 0 0 Hs Ht Hspan) as Hc.
  destruct (totals l cs key) as [[g r] l']. destruct Hc as (Hs' & Hcap & Hrate & Hc).
  { apply new_credit. }
  destruct Hs' as [? ? ? ? ? ? ? Hb]. rewrite Hcap, Hrate in *. split.
  - assert (g - (1 + r) * capacity l <= (t' - t0) / refillRate l); [|lia].
    apply Z.div_le_lower_bound; [lia|]. unfold credit in Hc. rewrite Hcap, Hrate in Hc.
    destruct (buckets l' !! key) as [b|] eqn:Ek; [|nia]. apply Hb in Ek as [? ?]. nia.
  - eapply map_Forall_impl; [exact Hb|]. by intros ? ? [? _].
Qed.

(** All readings of a call at one instant. *)
Definition at_ (t : Time) : reads := Reads t t t t t t.


(** The condition of the rate bound is needed. A limiter of two events
    that refills one per hour grants four events to a client within six
    minutes when another client arrives in between: the idle bucket is
    garbage-collected and comes back full. *)
Lemma token_gc_forgets :
  let cs := [CallAllowN "a" 1 (at_ 1); CallAllowN "a" 1 (at_ 1);
             CallAllowN "b" 1 (at_ (6 * Minute));
             CallAllowN "a" 1 (at_ (6 * Minute)); CallAllowN "a" 1 (at_ (6 * Minute))] in
  (totals (NewTokenBucket 2 (60 * Minute) 1) cs "a").1.1 = 4 ∧
  timed 1 cs (6 * Minute) ∧ 2 + (6 * Minute - 1) / (60 * Minute) = 2.
Proof.
  split; [vm_compute; reflexivity|]. split; [|reflexivity].
  do 2 (exists 1; split; [vm_compute; intuition discriminate|]).
  do 3 (exists (6 * Minute); split; [vm_compute; intuition discriminate|]).
  simpl. lia.
Qed.

(** Waiting helps. In a limiter in use, a request for [n] events, at most
    the capacity, is granted once [n] refill intervals have passed since the
    last refill of the bucket; a key without a bucket is granted at once. *)
Lemma token_waits t0 t l key n rd :
  sane t0 t l → readsIn t rd (r_now rd) → capacity l + (r_now rd - t0) <= maxInt64 →
  n <= capacity l →
  match buckets l !! key with
  | Some b => n * refillRate l <= r_now rd - last b
  | None => True
  end →
  (AllowN l key n rd).1 = true.
Proof.
  intros Hs Hrd Hspan Hn Hwait. unfold AllowN. destruct (n <=? 0) eqn:En; bool_to_prop; [done|].
  pose proof (getBucket_spec t0 t l key rd Hs Hrd Hspan) as Hg.
  assert (tokens (getBucket l key rd).1 = capacity l ∨
          buckets l !! key = Some (getBucket l key rd).1) as Hnew.
  { unfold getBucket. destruct (buckets l !! key) as [b|] eqn:Ek; [by right|]. left.
    assert (capacity (maybeGC (initDefaults l (r_init rd)) rd) = capacity l) as Hcap.
    { unfold maybeGC, initDefaults. destruct Hs.
      destruct (_ <? _); simpl; destruct (capacity l <=? 0) eqn:E; bool_to_prop; lia. }
    assert (buckets (maybeGC (initDefaults l (r_init rd)) rd) !! key = None) as ->; [|done].
    unfold maybeGC. destruct (_ <? _); [done|]. simpl. by rewrite map_lookup_filter, Ek. }
  destruct (getBucket l key rd) as [b l2]. destruct Hg as (Hs2 & Hb & Hcap & Hrate & _). simpl in *.
  destruct Hs2. destruct (sane_bucket0 _ _ Hb) as [Htok Hlast].
  destruct (refilled_spec (capacity l2) (refillRate l2) b (r_now rd) t0) as (_ & _ & _ & ->);
    [done|done|done|done|congruence|].
  destruct (_ <? n) eqn:Et; [|done]. bool_to_prop. exfalso.
  assert (0 <= (r_now rd - last b) / refillRate l2) by (apply Z.div_pos; lia).
  destruct Hnew as [Hnew|Hnew]; [lia|]. rewrite Hnew in Hwait.
  assert (n <= (r_now rd - last b) / refillRate l2) by (apply Z.div_le_lower_bound; lia). lia.
Qed.

Lemma token_progress_witness :
  (AllowN (AllowN (NewTokenBucket 2 Second 0) "a" 2 (at_ 0)).2 "a" 1 (at_ Second)).1 = true.
Proof.
  apply (token_waits 0 0).
  - apply (allow_spec 0 0 (NewTokenBucket 2 Second 0) "a" 2 (at_ 0)).
    + apply new_sane; vm_compute; discriminate.
    + vm_compute. intuition discriminate.
    + vm_compute. discriminate.
  - vm_compute. intuition discriminate.
  - vm_compute. discriminate.
  - vm_compute. discriminate.
  - vm_compute. discriminate.
Defined.

(** ** Between the two mutexes *)

(** What [AllowN] does under the mutex of the bucket it has got. *)
Definition spend (cap : Z) (rate : Duration) (b : tbBucket) (n : Z) (now : Time) : bool * tbBucket :=
  let b1 := refilled cap rate b now in
  if tokens b1 <? n then (false, b1) else (true, Bucket (tokens b1 - n) (last b1)).

Lemma AllowN_split l key n rd : 0 < n →
  AllowN l key n rd =
  (let '(b, l1) := getBucket l key rd in
   let '(ok, b2) := spend (capacity l1) (refillRate l1) b n (r_now rd) in
   (ok, withBuckets l1 (<[key := b2]> (buckets l1)))).
Proof. intros Hn. unfold AllowN, spend. rewrite (proj2 (Z.leb_gt _ _) Hn). by destruct (getBucket l key rd). Qed.

(** A bucket that is collected after a goroutine has got it and before it has
    locked it is spent beside its successor: with a capacity of two and one token
    a second, two calls for the same key that overlap a third one are granted
    two tokens each at the same instant. *)
Lemma detached_bucket :
  let t := 6 * Minute in
  let l0 := (AllowN (NewTokenBucket 2 Second 1) "a" 1 (at_ 1)).2 in
  let '(b, l1) := getBucket l0 "a" (at_ t) in
  let l2 := (AllowN l1 "b" 1 (at_ t)).2 in
  buckets l2 !! "a" = None ∧
  (AllowN l2 "a" 2 (at_ t)).1 = true ∧ (spend (capacity l1) (refillRate l1) b 2 t).1 = true.
Proof. vm_compute. auto. Qed.

(** C15: the token bucket. Over any history of calls, resets included, each of which runs without interference by the others, with
    readings that do not go back, a key is granted at most its capacity, once more for each
    reset, and one event per refill interval, when refilling a bucket takes at most the five
    minutes after which it is dropped; a key that waits long enough for [n]
    tokens is granted them; and without that condition the garbage collection
    forgets what was used, and the rate is exceeded. *)
Theorem token_rate :
  (∀ cap rate t0 cs t' key,
   let l := NewTokenBucket cap rate t0 in
    capacity l * refillRate l <= 5 * Minute → timed t0 cs t' →
    capacity l + (t' - t0) <= maxInt64 →
    let '(g, r, l') := totals l cs key in
    g <= (1 + r) * capacity l + (t' - t0) / refillRate l ∧
    map_Forall (λ _ b, 0 <= tokens b <= capacity l) (buckets l')) ∧
  (∀ t0 t l key n rd,
   sane t0 t l → readsIn t rd (r_now rd) → capacity l + (r_now rd - t0) <= maxInt64 →
    n <= capacity l →
    match buckets l !! key with
    | Some b => n * refillRate l <= r_now rd - last b
    | None => True
    end →
    (AllowN l key n rd).1 = true) ∧
  (let cs := [CallAllowN "a" 1 (at_ 1); CallAllowN "a" 1 (at_ 1);
               CallAllowN "b" 1 (at_ (6 * Minute));
               CallAllowN "a" 1 (at_ (6 * Minute)); CallAllowN "a" 1 (at_ (6 * Minute))] in
    (totals (NewTokenBucket 2 (60 * Minute) 1) cs "a").1.1 = 4 ∧
    timed 1 cs (6 * Minute) ∧ 2 + (6 * Minute - 1) / (60 * Minute) = 2).
Proof. split_and!; [apply token_rate_bound|apply token_waits|apply token_gc_forgets]. Qed.

Lemma token_rate_witness :
  let cs := [CallAllowN "a" 2 (at_ 0); CallAllowN "a" 1 (at_ Second)] in
  let '(g, r, l') := totals (NewTokenBucket 2 Second 0) cs "a" in
  g <= (1 + r) * 2 + (Second - 0) / Second ∧ map_Forall (λ _ b, 0 <= tokens b <= 2) (buckets l').
Proof.
  apply (proj1 token_rate 2 Second 0 _ Second "a").
  - vm_compute. discriminate.
  - exists 0. split; [vm_compute; intuition discriminate|]. exists Second.
    split; [vm_compute; intuition discriminate|]. simpl. lia.
  - vm_compute. discriminate.
Defined.
