(* ===== verification/SlidingWindow.v ===== *)
(** The sliding window limiter (ratelimit/sliding_window.go): per key, the
    counts of the current and of the previous fixed window, the previous one
    weighted in [float64] arithmetic. *)
From S2P Require Import Prelude Float64 TokenBucket.

Record swEntry := Entry { currWindowStart : Time; currCount : Z; prevCount : Z }.

Record SlidingWindowLimiter := Sliding {
  windows : gmap string swEntry;
  limit : Z;
  window : Duration;
  lastGC : Time;
  gcInterval : Duration;
  idleTimeout : Duration;
}.

Definition NewSlidingWindow (limit : Z) (window : Duration) (now : Time) : SlidingWindowLimiter :=
  Sliding ∅ (if limit <=? 0 then 1 else limit) (if window <=? 0 then Minute else window)
          now (5 * Minute) (5 * Minute).

Definition withWindows (l : SlidingWindowLimiter) ws : SlidingWindowLimiter :=
  Sliding ws (limit l) (window l) (lastGC l) (gcInterval l) (idleTimeout l).

Definition initDefaults (l : SlidingWindowLimiter) (now : Time) : SlidingWindowLimiter :=
  Sliding (windows l) (if limit l <=? 0 then 1 else limit l)
    (if window l <=? 0 then Minute else window l)
    (if time_IsZero (lastGC l) then now else lastGC l)
    (if gcInterval l <=? 0 then 5 * Minute else gcInterval l)
    (if idleTimeout l <=? 0 then 5 * Minute else idleTimeout l).

Definition maybeGC (l : SlidingWindowLimiter) (rd : reads) : SlidingWindowLimiter :=
  if time_Sub (r_since rd) (lastGC l) <? gcInterval l then l
  else
    let cutoff := time_Add (r_cutoff rd) (wrap64 (- idleTimeout l)) in
    Sliding (filter (λ p, time_Before (currWindowStart p.2) cutoff = false) (windows l))
      (limit l) (window l) (r_gc rd) (gcInterval l) (idleTimeout l).

Definition getEntry (l : SlidingWindowLimiter) (key : string) (rd : reads) : swEntry * SlidingWindowLimiter :=
  match windows l !! key with
  | Some e => (e, l)
  | None =>
      let l1 := maybeGC (initDefaults l (r_init rd)) rd in
      match windows l1 !! key with
      | Some e => (e, l1)
      | None =>
          let e := Entry (time_Truncate (r_new rd) (window l1)) 0 0 in
          (e, withWindows l1 (<[key := e]> (windows l1)))
      end
  end.

(** [advance]: moves the entry to the window of [now]. *)
Definition advance (e : swEntry) (now : Time) (w : Duration) : swEntry :=
  let cur := time_Truncate now w in
  if time_Equal cur (currWindowStart e) then e
  else if time_Equal cur (time_Add (currWindowStart e) w) then Entry cur 0 (currCount e)
  else if time_After cur (time_Add (currWindowStart e) w) then Entry cur 0 0
  else e.

(** [estimatedCount], on the entry after [advance]. *)
Definition estimate (e : swEntry) (now : Time) (w : Duration) : float64 :=
  let inWindow := Z.max 0 (Z.min w (time_Sub now (currWindowStart e))) in
  let prevWeight := fdiv (of_int (w -! inWindow)) (of_int w) in
  fadd (fmul (of_int (prevCount e)) prevWeight) (of_int (currCount e)).

(** [int(f)]; out of range, which Go leaves to the implementation, as on amd64. *)
Definition toInt (f : float64) : Z := default minInt64 (to_int64 f).

(** [AllowN] on an entry: the decision and the new entry. *)
Definition allowEntry (lim : Z) (w : Duration) (e : swEntry) (n : Z) (now : Time) : bool * swEntry :=
  let e1 := advance e now w in
  let est := estimate e1 now w in
  if lim <? (toInt est +! n) then (false, e1)
  else (true, Entry (currWindowStart e1) (currCount e1 +! n) (prevCount e1)).

Definition AllowN (l : SlidingWindowLimiter) (key : string) (n : Z) (rd : reads) : bool * SlidingWindowLimiter :=
  if n <=? 0 then (true, l)
  else
    let '(e, l1) := getEntry l key rd in
    let '(ok, e') := allowEntry (limit l1) (window l1) e n (r_now rd) in
    (ok, withWindows l1 (<[key := e']> (windows l1))).

Definition Allow (l : SlidingWindowLimiter) (key : string) (rd : reads) : bool * SlidingWindowLimiter :=
  AllowN l key 1 rd.

Definition Remaining (l : SlidingWindowLimiter) (key : string) (rd : reads) : Z * SlidingWindowLimiter :=
  let '(e, l1) := getEntry l key rd in
  let e1 := advance e (r_now rd) (window l1) in
  let est := estimate e1 (r_now rd) (window l1) in
  (Z.max 0 (limit l1 -! toInt est), withWindows l1 (<[key := e1]> (windows l1))).

Definition Reset (l : SlidingWindowLimiter) (key : string) : SlidingWindowLimiter :=
  withWindows l (delete key (windows l)).

(** ** The counters *)

(** The events granted so far: when, and how many. *)
Abbreviation log := (list (Z * Z)).

Definition sumIn (w : Duration) (start : Time) (g : log) : Z :=
  foldr (λ p acc, (if time_Truncate p.1 w =? start then p.2 else 0) + acc) 0 g.

(** A sequence of requests on one entry, with the grants it adds to the log. *)
Fixpoint requests (lim : Z) (w : Duration) (e : swEntry) (g : log) (rs : list (Z * Time)) : swEntry * log :=
  match rs with
  | [] => (e, g)
  | (n, now) :: rs' =>
      let '(ok, e') := allowEntry lim w e n now in
      requests lim w e' (if ok then (now, n) :: g else g) rs'
  end.

(** The entry at time [now] counts the log. *)
Record counts (w : Duration) (now : Time) (e : swEntry) (g : log) (total : Z) : Prop := {
  c_start : currWindowStart e = time_Truncate now w;
  c_curr : currCount e = sumIn w (currWindowStart e) g;
  c_prev : prevCount e = sumIn w (currWindowStart e - w) g;
  c_past : Forall (λ p, p.1 <= now ∧ 0 <= p.2) g;
  c_total : foldr (λ p acc, p.2 + acc) 0 g <= total <= maxInt64;
}.

Lemma truncate_spec t w :
  0 < w → ∃ k, time_Truncate t w = k * w ∧ k * w <= t < k * w + w.
Proof.
  intros Hw. unfold time_Truncate. destruct (w <=? 0) eqn:E; bool_to_prop; [lia|].
  exists (t / w). pose proof (Z.div_mod t w ltac:(lia)). pose proof (Z.mod_pos_bound t w Hw).
  split; [lia|]. nia.
Qed.

Lemma truncate_mono t t' w : 0 < w → t <= t' → time_Truncate t w <= time_Truncate t' w.
Proof.
  intros Hw Hle. destruct (truncate_spec t w Hw) as (k & -> & ?).
  destruct (truncate_spec t' w Hw) as (k' & -> & ?).
  assert (k < k' + 1) by (apply (Z.mul_lt_mono_pos_r w); lia).
  apply Z.mul_le_mono_nonneg_r; lia.
Qed.

(** No event is counted in a window later than all of them. *)
Lemma sumIn_later w start now (g : log) :
  0 < w → Forall (λ p, p.1 <= now ∧ 0 <= p.2) g → time_Truncate now w < start → sumIn w start g = 0.
Proof.
  intros Hw Hg Hs. induction Hg as [|[t n] g [Ht _] _ IH]; simpl; [done|].
  pose proof (truncate_mono t now w Hw Ht).
  destruct (_ =? start) eqn:E; bool_to_prop; lia.
Qed.

Lemma sumIn_bound w start (g : log) total :
  Forall (λ p, 0 <= p.2) g → foldr (λ p acc, p.2 + acc) 0 g <= total → 0 <= sumIn w start g <= total.
Proof.
  intros Hg Ht. assert (0 <= sumIn w start g <= foldr (λ p acc, p.2 + acc) 0 g); [|lia].
  clear Ht. induction Hg as [|[t n] g Hn _ IH]; simpl in *; [lia|]. destruct (_ =? start); lia.
Qed.

Lemma advance_counts w now now' e g total :
  0 < w → now <= now' → counts w now e g total → counts w now' (advance e now' w) g total.
Proof.
  intros Hw Hle [Hs Hc Hp Hpast Ht].
  assert (Forall (λ p : Z * Z, p.1 <= now' ∧ 0 <= p.2) g) as Hpast'.
  { eapply Forall_impl; [exact Hpast|]. simpl. intros p [? ?]. split; lia. }
  unfold advance, time_Equal, time_After, time_Add.
  pose proof (truncate_mono now now' w Hw Hle) as Hmono.
  destruct (truncate_spec now w Hw) as (k & Hk & _), (truncate_spec now' w Hw) as (k' & Hk' & _).
  destruct (time_Truncate now' w =? _) eqn:E1; bool_to_prop.
  { split; done. }
  destruct (time_Truncate now' w =? _ + w) eqn:E2; bool_to_prop.
  { split; simpl; try done.
    - symmetry. apply (sumIn_later w _ now); [done|done|lia].
    - rewrite Hc. f_equal. lia. }
  destruct (_ <? time_Truncate now' w) eqn:E3; bool_to_prop.
  { split; simpl; try done.
    - symmetry. apply (sumIn_later w _ now); [done|done|lia].
    - symmetry. apply (sumIn_later w _ now); [done|done|lia]. }
  exfalso. rewrite Hs, Hk, Hk' in *.
  assert (k < k' < k + 1); [|lia].
  split; apply (Z.mul_lt_mono_pos_r w); lia.
Qed.

Lemma allow_counts lim w now now' e g total n :
  0 < w → now <= now' → 0 <= n → total + n <= maxInt64 → counts w now e g total →
  let '(ok, e') := allowEntry lim w e n now' in
  counts w now' e' (if ok then (now', n) :: g else g) (total + n).
Proof.
  intros Hw Hle Hn Htot Hc. apply (advance_counts w now now') in Hc; [|done|done].
  unfold allowEntry. set (e1 := advance e now' w) in *. clearbody e1. destruct Hc as [Hs Hc Hp Hpast Ht].
  destruct (lim <? _); [split; try done; lia|].
  assert (0 <= currCount e1 <= total) as Hcur.
  { rewrite Hc. apply sumIn_bound; [|lia]. eapply Forall_impl; [exact Hpast|]. by intros p [_ ?]. }
  assert ((time_Truncate now' w =? currWindowStart e1) = true) as Heq by (by apply Z.eqb_eq).
  split; simpl.
  - done.
  - rewrite wrap64_id by (unfold in_int64, minInt64, maxInt64 in *; lia). rewrite Heq. lia.
  - destruct (time_Truncate now' w =? currWindowStart e1 - w) eqn:E; bool_to_prop; [lia|]. done.
  - by constructor.
  - lia.
Qed.

(** Requests that do not go back in time, for at most [total] events. *)
Fixpoint ordered (now : Time) (rs : list (Z * Time)) : Prop :=
  match rs with [] => True | (n, t) :: rs' => now <= t ∧ 0 <= n ∧ ordered t rs' end.

Definition lastTime (now : Time) (rs : list (Z * Time)) : Time := default now (list.last rs.*2).

Lemma lastTime_cons now n t rs : lastTime now ((n, t) :: rs) = lastTime t rs.
Proof. unfold lastTime. csimpl. rewrite last_cons. by destruct (list.last rs.*2). Qed.

Lemma requests_counts lim w rs now e g total :
  0 < w → ordered now rs → total + foldr (λ p acc, p.1 + acc) 0 rs <= maxInt64 →
  counts w now e g total →
  let '(e', g') := requests lim w e g rs in
  ∃ total', counts w (lastTime now rs) e' g' total'.
Proof.
  intros Hw. revert now e g total.
  induction rs as [|[n t] rs IH]; intros now e g total Hord Htot Hc; [by exists total|].
  rewrite lastTime_cons. simpl in *. destruct Hord as (Hle & Hn & Hord).
  assert (0 <= foldr (λ p acc, p.1 + acc) 0 rs) as Hpos.
  { clear -Hord. revert t Hord. induction rs as [|[n t'] rs IH]; simpl; intros t; [done|].
    intros (_ & ? & ?%IH). lia. }
  pose proof (allow_counts lim w now t e g total n Hw Hle Hn ltac:(lia) Hc) as Hc'.
  destruct (allowEntry lim w e n t) as [ok e']. eapply IH; [done| |done]. lia.
Qed.

(** The counters of an entry are exact. After any sequence of requests in
    time order on a new entry, [currCount] is the number of events granted in
    the fixed window of the last request and [prevCount] the number granted in
    the window before it, whatever windows passed without requests. *)
Lemma sliding_windows lim w start rs :
  0 < w → ordered start rs → foldr (λ p acc, p.1 + acc) 0 rs <= maxInt64 →
  let '(e, g) := requests lim w (Entry (time_Truncate start w) 0 0) [] rs in
  let cur := time_Truncate (lastTime start rs) w in
  currWindowStart e = cur ∧ currCount e = sumIn w cur g ∧ prevCount e = sumIn w (cur - w) g.
Proof.
  intros Hw Hord Htot.
  pose proof (requests_counts lim w rs start (Entry (time_Truncate start w) 0 0) [] 0 Hw Hord Htot) as Hc.
  destruct (requests _ _ _ _ _) as [e g]. destruct Hc as [total [Hs Hc Hp _ _]].
  - by constructor.
  - cbv zeta. rewrite <-Hs. done.
Qed.


(** Two ways around the limit. With a window of one hour and a limit of
    two, a client that used its limit gets another two events six minutes
    later when a second client arrives in between, since an entry counts as
    idle five minutes after its window started; and a request for the largest
    integer is granted to a client that has used one event of ten, since the
    sum overflows. *)
Lemma sliding_exceeds :
  (let l0 := NewSlidingWindow 2 (60 * Minute) 1 in
   let l1 := (AllowN l0 "a" 2 (at_ 1)).2 in
   let l2 := (AllowN l1 "b" 1 (at_ (6 * Minute))).2 in
   (AllowN l0 "a" 2 (at_ 1)).1 = true ∧ (AllowN l1 "a" 2 (at_ (6 * Minute))).1 = false ∧
   (AllowN l2 "a" 2 (at_ (6 * Minute))).1 = true) ∧
  (let l0 := NewSlidingWindow 10 Minute 1 in
   let l1 := (AllowN l0 "a" 1 (at_ 1)).2 in
   (AllowN l0 "a" maxInt64 (at_ 2)).1 = false ∧ (AllowN l1 "a" maxInt64 (at_ 2)).1 = true).
Proof. vm_compute. intuition. Qed.

(** C16: the sliding window. After any requests of a key, at readings that do not go back, the counters
    of its entry are exactly what was granted in the current and in the previous
    window; but an entry is dropped five minutes after the start of its window,
    so longer windows can be exceeded, and a huge [n] overflows the comparison and is granted. *)
Theorem sliding_counts :
  (∀ lim w start rs,
   0 < w → ordered start rs → foldr (λ p acc, p.1 + acc) 0 rs <= maxInt64 →
    let '(e, g) := requests lim w (Entry (time_Truncate start w) 0 0) [] rs in
    let cur := time_Truncate (lastTime start rs) w in
    currWindowStart e = cur ∧ currCount e = sumIn w cur g ∧ prevCount e = sumIn w (cur - w) g) ∧
  ((let l0 := NewSlidingWindow 2 (60 * Minute) 1 in
     let l1 := (AllowN l0 "a" 2 (at_ 1)).2 in
     let l2 := (AllowN l1 "b" 1 (at_ (6 * Minute))).2 in
     (AllowN l0 "a" 2 (at_ 1)).1 = true ∧ (AllowN l1 "a" 2 (at_ (6 * Minute))).1 = false ∧
     (AllowN l2 "a" 2 (at_ (6 * Minute))).1 = true) ∧
    (let l0 := NewSlidingWindow 10 Minute 1 in
     let l1 := (AllowN l0 "a" 1 (at_ 1)).2 in
     (AllowN l0 "a" maxInt64 (at_ 2)).1 = false ∧ (AllowN l1 "a" maxInt64 (at_ 2)).1 = true)).
Proof. split; [apply sliding_windows|apply sliding_exceeds]. Qed.

Lemma sliding_counts_witness :
  let '(e, g) := requests 3 Second (Entry (time_Truncate 5 Second) 0 0) [] [(2, 5); (2, 6); (1, Second + 7)] in
  let cur := time_Truncate (lastTime 5 [(2, 5); (2, 6); (1, Second + 7)]) Second in
  currWindowStart e = cur ∧ currCount e = sumIn Second cur g ∧ prevCount e = sumIn Second (cur - Second) g.
Proof.
  apply (proj1 sliding_counts).
  - reflexivity.
  - vm_compute. intuition discriminate.
  - vm_compute. discriminate.
Defined.
