(* ===== verification/RateLimit.v ===== *)
(** The rate limiting middleware (ratelimit/limiter.go, ratelimit/ratelimit.go):
    the [Limiter] interface, the handlers of [NewWithLimiter] and [New], and
    the bound on the requests that reach the next handler. *)
From S2P Require Import Prelude Text Strconv TokenBucket SlidingWindow.
#[local] Open Scope Z_scope.

(** [Time.Unix]: whole seconds since the epoch. *)
Definition Unix (t : Time) : Z := (t - unixEpoch) / Second.

(** [ratelimit.Limiter], for the operations the middleware calls. *)
Class Limiter (L : Type) := {
  lim_Allow : L → string → reads → bool * L;
  lim_Remaining : L → string → reads → Z * L;
}.

#[export] Instance token_limiter : Limiter TokenBucketLimiter := {|
  lim_Allow := TokenBucket.Allow; lim_Remaining := TokenBucket.Remaining;
|}.
#[export] Instance sliding_limiter : Limiter SlidingWindowLimiter := {|
  lim_Allow := SlidingWindow.Allow; lim_Remaining := SlidingWindow.Remaining;
|}.

(** What a handler does with a request: the headers it sets, and either the
    rejection it writes or the call of the next handler. *)
Inductive reply := Rejected (status : Z) (body : string) | Passed.
Definition response : Type := list (string * string) * reply.

Definition tooMany : reply := Rejected 429 (errorJSON "too many requests" "RATE_LIMITED").

Section middleware.
Context {L : Type} `{Limiter L}.

(** The handler of [NewWithLimiter], for the key of the request; [rd1] and
    [rd2] are the clock readings of [Allow] and of [Remaining]. *)
Definition NewWithLimiter (l : L) (key : string) (rd1 rd2 : reads) : response * L :=
  let '(ok, l1) := lim_Allow l key rd1 in
  if ok then
    let '(rem, l2) := lim_Remaining l1 key rd2 in
    ([("RateLimit-Remaining", Itoa rem); ("X-RateLimit-Remaining", Itoa rem)], Passed, l2)
  else
    ([("RateLimit-Remaining", "0"); ("X-RateLimit-Remaining", "0"); ("Retry-After", "1");
      ("Content-Type", "application/json")], tooMany, l1).
End middleware.

(** [New]: the limiter it builds from its parameters, at time [now] ... *)
Definition newLimiter (capacity : Z) (window : Duration) (now : Time) : TokenBucketLimiter :=
  let capacity' := if capacity <=? 0 then 1 else capacity in
  let window' := if window <=? 0 then Minute else window in
  let refillRate := go_div window' capacity' in
  NewTokenBucket capacity' (if refillRate <=? 0 then Nanosecond else refillRate) now.

(** ... and the collectors and the handler, for the IP address of the request;
    [t3] is the clock reading of the reset header. *)
Record limitMetrics := LimitMetrics { Allowed : Z; Blocked : Z }.

Definition handle (capacity : Z) (window : Duration) (m : limitMetrics) (l : TokenBucketLimiter)
    (ip : string) (rd1 rd2 : reads) (t3 : Time) : response * limitMetrics * TokenBucketLimiter :=
  let capacity' := if capacity <=? 0 then 1 else capacity in
  let window' := if window <=? 0 then Minute else window in
  let '(ok, l1) := TokenBucket.Allow l ip rd1 in
  if ok then
    let '(rem, l2) := TokenBucket.Remaining l1 ip rd2 in
    ([("RateLimit-Limit", Itoa capacity'); ("RateLimit-Remaining", Itoa rem)], Passed,
     LimitMetrics (Allowed m + 1) (Blocked m), l2)
  else
    ([("RateLimit-Limit", Itoa capacity'); ("RateLimit-Remaining", "0");
      ("RateLimit-Reset", Itoa (Unix (time_Add t3 window'))); ("Retry-After", "60");
      ("Content-Type", "application/json")], tooMany,
     LimitMetrics (Allowed m) (Blocked m + 1), l1).

Definition NewGlobal (now : Time) : TokenBucketLimiter := newLimiter 200 Minute now.
Definition NewAuth (now : Time) : TokenBucketLimiter := newLimiter 10 Minute now.

(** ** Histories of requests *)

Record request := Request { req_ip : string; req_rd1 : reads; req_rd2 : reads; req_t3 : Time }.

(** The number of requests of an address that reach the next handler, and the
    collectors and the limiter in the end. *)
Fixpoint serve (capacity : Z) (window : Duration) (m : limitMetrics) (l : TokenBucketLimiter)
    (rs : list request) (ip : string) : Z * limitMetrics * TokenBucketLimiter :=
  match rs with
  | [] => (0, m, l)
  | r :: rs' =>
      let '(resp, m1, l1) := handle capacity window m l (req_ip r) (req_rd1 r) (req_rd2 r) (req_t3 r) in
      let '(n, m2, l2) := serve capacity window m1 l1 rs' ip in
      ((match resp.2 with Passed => if bool_decide (req_ip r = ip) then 1 else 0 | _ => 0 end) + n, m2, l2)
  end.

(** The calls the requests make on the limiter. *)
Fixpoint callsOf (l : TokenBucketLimiter) (rs : list request) : list call :=
  match rs with
  | [] => []
  | r :: rs' =>
      let c1 := CallAllowN (req_ip r) 1 (req_rd1 r) in
      let '(ok, l1) := TokenBucket.Allow l (req_ip r) (req_rd1 r) in
      if ok then
        c1 :: CallRemaining (req_ip r) (req_rd2 r) ::
        callsOf (TokenBucket.Remaining l1 (req_ip r) (req_rd2 r)).2 rs'
      else c1 :: callsOf l1 rs'
  end.

Lemma serve_totals capacity window m l rs ip :
  let '(n, m', l') := serve capacity window m l rs ip in
  totals l (callsOf l rs) ip = (n, 0, l').
Proof.
  revert m l. induction rs as [|r rs IH]; intros m l; simpl; [done|].
  unfold handle, TokenBucket.Allow. destruct (TokenBucket.AllowN l (req_ip r) 1 (req_rd1 r)) as [[] l1] eqn:E; simpl.
  - destruct (TokenBucket.Remaining l1 (req_ip r) (req_rd2 r)) as [rem l2] eqn:Er; simpl.
    specialize (IH (LimitMetrics (Allowed m + 1) (Blocked m)) l2).
    destruct (serve _ _ _ l2 rs ip) as [[n m2] l3]. rewrite E. simpl. rewrite Er. simpl. rewrite IH.
    case_bool_decide; simpl; f_equal; f_equal; lia.
  - specialize (IH (LimitMetrics (Allowed m) (Blocked m + 1)) l1).
    destruct (serve _ _ _ l1 rs ip) as [[n m2] l3]. rewrite E. simpl. rewrite IH.
    by rewrite andb_false_r.
Qed.

(** The readings of the requests do not go back. *)
Fixpoint timedRequests (t : Time) (rs : list request) (t' : Time) : Prop :=
  match rs with
  | [] => t <= t'
  | r :: rs' => ∃ t1 t2, readsIn t (req_rd1 r) t1 ∧ readsIn t1 (req_rd2 r) t2 ∧ timedRequests t2 rs' t'
  end.

Lemma timed_earlier t1 t2 cs t' : t1 <= t2 → timed t2 cs t' → timed t1 cs t'.
Proof.
  intros Hle. revert t1 t2 Hle. induction cs as [|[k n rd|k rd|k] cs IH]; intros t1 t2 Hle; simpl; [lia| | |by apply IH].
  all: intros (t3 & Hrd & ?); exists t3; split; [|done]; unfold readsIn in *; lia.
Qed.

Lemma callsOf_timed l rs t t' : timedRequests t rs t' → timed t (callsOf l rs) t'.
Proof.
  revert l t. induction rs as [|r rs IH]; intros l t; simpl; [done|].
  intros (t1 & t2 & H1 & H2 & Hrs). destruct (TokenBucket.Allow _ _ _) as [[] l1]; simpl.
  - eauto 10.
  - exists t1. split; [done|]. apply (timed_earlier t1 t2); [unfold readsIn in H2; lia | by apply IH].
Qed.

(** Over any sequence of requests on the middleware of [New], with clock
    readings that do not go back, the requests of one address that reach the
    next handler are at most the capacity plus one for every refill interval
    (the window divided by the capacity) since the start. *)
Lemma middleware_bound capacity window now m rs t' ip :
  let l := newLimiter capacity window now in
  TokenBucket.capacity l * refillRate l <= 5 * Minute →
  timedRequests now rs t' → TokenBucket.capacity l + (t' - now) <= maxInt64 →
  (serve capacity window m l rs ip).1.1 <= TokenBucket.capacity l + (t' - now) / refillRate l.
Proof.
  intros l Hidle Ht Hspan. pose proof (callsOf_timed l _ _ _ Ht) as Hc.
  pose proof (timed_le _ _ _ Hc). 
  assert (sane now now l) as Hs by (apply new_sane; [done | change (TokenBucket.capacity l <= maxInt64); lia]).
  pose proof (totals_credit now (callsOf l rs) now l t' ip 0 0 Hs Hc Hspan) as Htot.
  pose proof (serve_totals capacity window m l rs ip) as Hsv.
  specialize (Htot (new_credit _ _ _ _)). clearbody l.
  destruct (serve _ _ _ _ _ _) as [[n m'] l']. rewrite Hsv in Htot. simpl.
  destruct Htot as ([] & Hcap & Hrate & Hcr).
  assert (n - TokenBucket.capacity l <= (t' - now) / refillRate l); [|lia].
  apply Z.div_le_lower_bound; [lia|]. unfold credit in Hcr. rewrite Hcap, Hrate in *.
  destruct (buckets l' !! ip) as [b|] eqn:Ek; [|nia]. apply sane_bucket in Ek as [? ?]. nia.
Qed.


(** "n requests per window" is not what a window admits: the first window
    of a limiter of ten requests per minute lets nineteen through. *)
Lemma window_admits_double :
  let burst := replicate 10 (Request "a" (at_ 1) (at_ 1) 1) in
  let later := (λ i, let t := 1 + 6 * Second * Z.of_nat i in Request "a" (at_ t) (at_ t) t) <$> seq 1 9 in
  (serve 10 Minute (LimitMetrics 0 0) (NewAuth 1) (burst ++ later) "a").1.1 = 19 ∧
  forallb (λ r, req_t3 r - 1 <? Minute) (burst ++ later) = true.
Proof. split; vm_compute; reflexivity. Qed.

(** A window of two hours for two requests: the request of another address
    makes the limiter drop the bucket of the first, which starts full again, and
    four of its requests pass within six minutes. *)
Definition collected : list request :=
  [Request "a" (at_ 1) (at_ 1) 1; Request "a" (at_ 1) (at_ 1) 1;
   Request "b" (at_ (6 * Minute)) (at_ (6 * Minute)) (6 * Minute);
   Request "a" (at_ (6 * Minute)) (at_ (6 * Minute)) (6 * Minute);
   Request "a" (at_ (6 * Minute)) (at_ (6 * Minute)) (6 * Minute)].

Lemma long_windows_forget :
  (serve 2 (120 * Minute) (LimitMetrics 0 0) (newLimiter 2 (120 * Minute) 1) collected "a").1.1 = 4 ∧
  refillRate (newLimiter 2 (120 * Minute) 1) = 60 * Minute.
Proof. split; vm_compute; reflexivity. Qed.

(** C17: when a bucket refills within the five minutes after which the limiter
    drops idle ones (the window is at most about five minutes), the requests of an address that pass the
    middleware of [New] are at most its capacity and one per refill interval, whatever the other addresses do, for
    requests whose clock readings do not go back; that
    is nearly twice the capacity within one window, not the capacity the documentation promises. With a longer window the bound
    fails: the request of another address makes the limiter drop the bucket, and the address starts with a full one. *)
Theorem middleware_rate :
  (∀ capacity window now m rs t' ip,
   let l := newLimiter capacity window now in
    TokenBucket.capacity l * refillRate l <= 5 * Minute →
    timedRequests now rs t' → TokenBucket.capacity l + (t' - now) <= maxInt64 →
    (serve capacity window m l rs ip).1.1 <= TokenBucket.capacity l + (t' - now) / refillRate l) ∧
  (let burst := replicate 10 (Request "a" (at_ 1) (at_ 1) 1) in
    let later := (λ i, let t := 1 + 6 * Second * Z.of_nat i in Request "a" (at_ t) (at_ t) t) <$> seq 1 9 in
    (serve 10 Minute (LimitMetrics 0 0) (NewAuth 1) (burst ++ later) "a").1.1 = 19 ∧
    forallb (λ r, req_t3 r - 1 <? Minute) (burst ++ later) = true) ∧
  ((serve 2 (120 * Minute) (LimitMetrics 0 0) (newLimiter 2 (120 * Minute) 1) collected "a").1.1 = 4 ∧
   refillRate (newLimiter 2 (120 * Minute) 1) = 60 * Minute).
Proof. split; [apply middleware_bound|]. split; [apply window_admits_double|apply long_windows_forget]. Qed.

Lemma middleware_rate_witness :
  (serve 10 Minute (LimitMetrics 0 0) (NewAuth 0)
     [Request "10.0.0.1" (at_ 1) (at_ 2) 2; Request "10.0.0.1" (at_ 3) (at_ 3) 3] "10.0.0.1").1.1
  <= 10 + (3 - 0) / (6 * Second).
Proof.
  apply (proj1 middleware_rate 10 Minute 0).
  - vm_compute. discriminate.
  - exists 1, 2. repeat split; try (vm_compute; discriminate). exists 3, 3.
    repeat split; vm_compute; discriminate.
  - vm_compute. discriminate.
Defined.
