(* ===== verification/Idempotency.v ===== *)
(** Idempotency keys (idempotency/store.go, memory.go, middleware.go): the
    in-memory store, the HTTP middleware around a handler, and the proof that a
    key's handler runs at most once at a time and never again once its response
    is stored. *)
From S2P Require Import Prelude Text.

(** [Response]; the headers are a map that may be nil. *)
Record Response := mkResponse {
  StatusCode : Z;
  Headers : option (gmap string (list string));
  Body : list Byte.byte;
}.

Inductive Status := StatusInProgress | StatusCompleted.

#[global] Instance Status_eq_dec : EqDecision Status.
Proof. solve_decision. Defined.

(** [Record] and [memoryRecord]. *)
Record record := mkRecord { Status_ : Status; Response_ : option Response }.
Record memoryRecord := MemoryRecord { status : Status; response : option Response; updatedAt : Time }.

Record MemoryStore := Memory {
  data : gmap string memoryRecord;
  lockTTL : Duration;
  responseTTL : Duration;
  maxEntries : Z;
}.

Inductive Option_ :=
| WithLockTTL (ttl : Duration)
| WithResponseTTL (ttl : Duration)
| WithMaxEntries (n : Z).

Definition applyOption (s : MemoryStore) (o : Option_) : MemoryStore :=
  match o with
  | WithLockTTL ttl => Memory (data s) ttl (responseTTL s) (maxEntries s)
  | WithResponseTTL ttl => Memory (data s) (lockTTL s) ttl (maxEntries s)
  | WithMaxEntries n => Memory (data s) (lockTTL s) (responseTTL s) n
  end.

Definition NewMemoryStore (opts : list Option_) : MemoryStore :=
  foldl applyOption (Memory ∅ 0 0 0) opts.

(** The order of Go's [range] over a map: any permutation. *)
Class MapOrder := {
  order : gmap string memoryRecord → list (string * memoryRecord);
  order_perm : ∀ m, order m ≡ₚ map_to_list m;
}.

Section store.
Context `{MapOrder}.
Implicit Types s : MemoryStore.

Definition withData s d : MemoryStore := Memory d (lockTTL s) (responseTTL s) (maxEntries s).

(** [ttl > 0 && rec.Status == st && now.Sub(rec.UpdatedAt) > ttl]. *)
Definition timedOut (ttl : Duration) (st : Status) (rec : memoryRecord) (now : Time) : bool :=
  (0 <? ttl) && bool_decide (status rec = st) && (ttl <? time_Sub now (updatedAt rec)).

Definition expired s (now : Time) (rec : memoryRecord) : bool :=
  timedOut (responseTTL s) StatusCompleted rec now || timedOut (lockTTL s) StatusInProgress rec now.

(** [evictExpired], with the number of evicted records. *)
Definition evictExpired s (now : Time) : Z * MemoryStore :=
  let d := filter (λ p, expired s now p.2 = false) (data s) in
  (Z.of_nat (size (data s)) - Z.of_nat (size d), withData s d).

(** The loop of [evictOldest]: oldestKey, oldestTime, first. *)
Fixpoint oldest (l : list (string * memoryRecord)) (key : string) (time : Time) (first : bool) : string :=
  match l with
  | [] => key
  | (k, rec) :: l' =>
      if first || time_Before (updatedAt rec) time then oldest l' k (updatedAt rec) false
      else oldest l' key time first
  end.

Definition evictOldest s : MemoryStore :=
  let k := oldest (order (data s)) "" 0 true in
  if bool_decide (k = "") then s else withData s (delete k (data s)).

(** The eviction before a new key is inserted. *)
Definition makeRoom s (now : Time) : MemoryStore :=
  if (0 <? maxEntries s) && (maxEntries s <=? Z.of_nat (size (data s))) then
    let s1 := (evictExpired s now).2 in
    if maxEntries s1 <=? Z.of_nat (size (data s1)) then evictOldest s1 else s1
  else s.

Definition deepCopyResponse (r : Response) : Response :=
  mkResponse (StatusCode r) (Headers r) (Body r).

(** [Lock]: (exists, record) or an error; [ctxErr] is [ctx.Err()]. *)
Definition Lock s (ctxErr : option error) (key : string) (now : Time)
    : (bool * option record + error) * MemoryStore :=
  match ctxErr with
  | Some e => (inr e, s)
  | None =>
      match data s !! key with
      | Some rec =>
          if timedOut (lockTTL s) StatusInProgress rec now then
            (inl (false, None), withData s (<[key := MemoryRecord (status rec) (response rec) now]> (data s)))
          else if timedOut (responseTTL s) StatusCompleted rec now then
            (inl (false, None), withData s (<[key := MemoryRecord StatusInProgress None now]> (delete key (data s))))
          else (inl (true, Some (mkRecord (status rec) (deepCopyResponse <$> response rec))), s)
      | None =>
          let s1 := makeRoom s now in
          (inl (false, None), withData s1 (<[key := MemoryRecord StatusInProgress None now]> (data s1)))
      end
  end.

Definition Save s (ctxErr : option error) (key : string) (resp : Response) (now : Time)
    : option error * MemoryStore :=
  match ctxErr with
  | Some e => (Some e, s)
  | None =>
      let s1 := match data s !! key with Some _ => s | None => makeRoom s now end in
      (None, withData s1 (<[key := MemoryRecord StatusCompleted (Some (deepCopyResponse resp)) now]> (data s1)))
  end.

Definition Unlock s (ctxErr : option error) (key : string) : option error * MemoryStore :=
  match ctxErr with
  | Some e => (Some e, s)
  | None =>
      (None, match data s !! key with
             | Some rec =>
                 if bool_decide (status rec = StatusInProgress) then withData s (delete key (data s)) else s
             | None => s
             end)
  end.

Definition Delete s (ctxErr : option error) (key : string) : option error * MemoryStore :=
  match ctxErr with
  | Some e => (Some e, s)
  | None => (None, withData s (delete key (data s)))
  end.

Definition Len s : Z := Z.of_nat (size (data s)).
Definition EvictExpired s (now : Time) : Z * MemoryStore := evictExpired s now.
End store.

(** ** The middleware *)

Record MiddlewareOptions := MwOptions {
  HeaderName : string;
  EnforceHeader : bool;
  IgnoredMethods : gset string;
  StatusCodeMatcher : Z → bool;
}.

Definition DefaultHeaderName : string := "Idempotency-Key".

Definition defaultOptions : MiddlewareOptions :=
  MwOptions DefaultHeaderName false {["GET"; "HEAD"; "OPTIONS"]}
    (λ code, (200 <=? code) && (code <? 500)).

Inductive MiddlewareOption :=
| WithHeaderName (header : string)
| WithEnforceHeader (enforce : bool)
| WithIgnoredMethods (methods : list string)
| WithStatusCodeMatcher (matcher : option (Z → bool)).

Definition applyMiddlewareOption (o : MiddlewareOptions) (opt : MiddlewareOption) : MiddlewareOptions :=
  match opt with
  | WithHeaderName header =>
      if bool_decide (header = "") then o
      else MwOptions header (EnforceHeader o) (IgnoredMethods o) (StatusCodeMatcher o)
  | WithEnforceHeader enforce =>
      MwOptions (HeaderName o) enforce (IgnoredMethods o) (StatusCodeMatcher o)
  | WithIgnoredMethods methods =>
      MwOptions (HeaderName o) (EnforceHeader o) (list_to_set (ToUpper <$> methods)) (StatusCodeMatcher o)
  | WithStatusCodeMatcher matcher =>
      MwOptions (HeaderName o) (EnforceHeader o) (IgnoredMethods o) (default (StatusCodeMatcher o) matcher)
  end.

(** The configuration [Middleware] makes of its options. *)
Definition configure (opts : list MiddlewareOption) : MiddlewareOptions :=
  foldl applyMiddlewareOption defaultOptions opts.

(** The replies the middleware writes itself, on a writer with headers [h]. *)
Definition errorReply (code : Z) (msg name : string) (h : gmap string (list string)) : Response :=
  mkResponse code (Some (<["Content-Type" := ["application/json"]]> h))
    (String.list_byte_of_string (errorJSON msg name)).
Definition missingKey : gmap string (list string) → Response := errorReply 400 "missing idempotency key" "MISSING_IDEMPOTENCY_KEY".
Definition storeError : gmap string (list string) → Response := errorReply 500 "idempotency store error" "IDEMPOTENCY_STORE_ERROR".
Definition inProgress : gmap string (list string) → Response :=
  errorReply 409 "idempotent operation already in progress" "IDEMPOTENCY_IN_PROGRESS".

(** [serveCachedResponse]: the stored values are added to the headers [h] of the
    response, then the lookup header is set. *)
Definition addHeaders (h stored : gmap string (list string)) : gmap string (list string) :=
  union_with (λ vs ws, Some (vs ++ ws)) h stored.
Definition serveCachedResponse (h : gmap string (list string)) (r : Response) : Response :=
  mkResponse (StatusCode r)
    (Some (<["X-Cache-Lookup" := ["HIT - Idempotency"]]> (addHeaders h (default ∅ (Headers r)))))
    (Body r).

(** What the middleware does when a request arrives: call the next handler
    directly, answer by itself, replay a stored response, or run the handler
    under the key. *)
Inductive decision :=
| Bypass
| Answer (r : Response)
| Replay (r : Response)
| Run (key : string).

(** How the handler ends: it wrote a response, or panicked. *)
Inductive ending := Wrote (r : Response) | Panicked.

Section middleware.
Context `{MapOrder} (cfg : MiddlewareOptions).

(** [h] are the headers that the writer has, set by the middlewares before, and
    [get] is [r.Header.Get]. *)
Definition arrive (s : MemoryStore) (h : gmap string (list string)) (method : string) (get : string → string) (ctxErr : option error)
    (now : Time) : decision * MemoryStore :=
  if bool_decide (method ∈ IgnoredMethods cfg) then (Bypass, s)
  else
    let key := TrimSpace (get (HeaderName cfg)) in
    if bool_decide (key = "") then ((if EnforceHeader cfg then Answer (missingKey h) else Bypass), s)
    else
      let '(res, s1) := Lock s ctxErr key now in
      match res with
      | inr _ => (Answer (storeError h), s1)
      | inl (true, Some rec) =>
          match Status_ rec, Response_ rec with
          | StatusInProgress, _ => (Answer (inProgress h), s1)
          | StatusCompleted, Some r => (Replay (serveCachedResponse h r), s1)
          | StatusCompleted, None => (Run key, s1)
          end
      | inl _ => (Run key, s1)
      end.

(** The end of the handler: the error of the context at that time decides
    whether the store is reached. *)
Definition finish (s : MemoryStore) (key : string) (e : ending) (ctxErr : option error) (now : Time)
    : MemoryStore :=
  match e with
  | Panicked => (Unlock s ctxErr key).2
  | Wrote r =>
      if StatusCodeMatcher cfg (StatusCode r) then (Save s ctxErr key r now).2
      else (Unlock s ctxErr key).2
  end.

(** ** Concurrent requests *)

(** The store, whose methods are atomic, and the keys of the running handlers. *)
Record system := Sys { store : MemoryStore; running : list string }.

Inductive step : system → system → Prop :=
| Arrives s rs h method get ctxErr now d s' :
    arrive s h method get ctxErr now = (d, s') →
    step (Sys s rs) (Sys s' (match d with Run key => key :: rs | _ => rs end))
| Ends s rs1 key rs2 e ctxErr now :
    step (Sys s (rs1 ++ key :: rs2)) (Sys (finish s key e ctxErr now) (rs1 ++ rs2)).
End middleware.

(** ** At most once *)

Section atMostOnce.
Context `{MapOrder} (cfg : MiddlewareOptions).
Implicit Types s : MemoryStore.
Implicit Types rs : list string.

(** Locks and responses do not expire and nothing is evicted. *)
Definition permanent s : Prop := lockTTL s <= 0 ∧ responseTTL s <= 0 ∧ maxEntries s <= 0.

Record exclusive s rs : Prop := {
  ex_permanent : permanent s;
  ex_once : NoDup rs;
  ex_locked : ∀ k, k ∈ rs → ∃ rec, data s !! k = Some rec ∧ status rec = StatusInProgress;
  ex_stored : map_Forall (λ _ rec, status rec = StatusCompleted → is_Some (response rec)) (data s);
}.

Lemma permanent_timedOut ttl st rec now : ttl <= 0 → timedOut ttl st rec now = false.
Proof. intros ?. unfold timedOut. by rewrite (proj2 (Z.ltb_ge 0 ttl)). Qed.

Lemma permanent_makeRoom s now : permanent s → makeRoom s now = s.
Proof. intros (_ & _ & ?). unfold makeRoom. by rewrite (proj2 (Z.ltb_ge 0 _)). Qed.

(** [Lock] in a permanent store: it inserts a lock, or changes nothing. *)
Lemma Lock_permanent s ctxErr key now :
  permanent s →
  Lock s ctxErr key now =
  match ctxErr, data s !! key with
  | Some e, _ => (inr e, s)
  | None, Some rec => (inl (true, Some (mkRecord (status rec) (deepCopyResponse <$> response rec))), s)
  | None, None => (inl (false, None), withData s (<[key := MemoryRecord StatusInProgress None now]> (data s)))
  end.
Proof.
  intros Hp. pose proof Hp as (? & ? & ?). unfold Lock. destruct ctxErr; [done|].
  destruct (data s !! key); [|by rewrite permanent_makeRoom].
  by rewrite !permanent_timedOut by done.
Qed.

(** [Lock] either leaves the store, or gives the key of no running handler. *)
Lemma Lock_exclusive s rs ctxErr key now :
  exclusive s rs →
  let '(res, s') := Lock s ctxErr key now in
  (∀ k rec, data s !! k = Some rec → data s' !! k = Some rec) ∧
  match res with
  | inl (false, _) => exclusive s' (key :: rs)
  | inl (true, Some rec) => exclusive s' rs ∧ (Status_ rec = StatusCompleted → is_Some (Response_ rec))
  | inl (true, None) => False
  | inr _ => exclusive s' rs
  end.
Proof.
  intros Hex. pose proof Hex as [Hp Hnd Hl Hs]. rewrite Lock_permanent by done. destruct ctxErr; [done|].
  destruct (data s !! key) as [rec|] eqn:Ek; simpl.
  - split_and!; [done|done|]. intros Hc. apply fmap_is_Some. by eapply Hs.
  - split; [intros k rec Hk; rewrite lookup_insert_ne; [done|congruence]|]. split; simpl; [done| | |].
    + constructor; [|done]. intros Hin. apply Hl in Hin as (? & ? & _). congruence.
    + intros k [->|Hk]%elem_of_cons; [rewrite lookup_insert_eq; eauto|].
      apply Hl in Hk as (rec & Hk & ?). exists rec. rewrite lookup_insert_ne; [done|congruence].
    + by apply map_Forall_insert_2.
Qed.

Lemma arrive_exclusive s rs h method get ctxErr now :
  exclusive s rs →
  let '(d, s') := arrive cfg s h method get ctxErr now in
  exclusive s' (match d with Run key => key :: rs | _ => rs end) ∧
  ∀ k rec, data s !! k = Some rec → data s' !! k = Some rec.
Proof.
  intros Hex. unfold arrive.
  case_bool_decide; [done|]. case_bool_decide; [by destruct (EnforceHeader cfg)|].
  pose proof (Lock_exclusive s rs ctxErr (TrimSpace (get (HeaderName cfg))) now Hex) as HL.
  destruct (Lock _ _ _ _) as [[[[] [rec|]]|e] s']; destruct HL as [Hk HL]; [|done..].
  destruct HL as [Hex' Hresp]. destruct (Status_ rec) eqn:Es; [done|].
  destruct (Response_ rec); [done|]. by destruct (Hresp eq_refl).
Qed.

(** What the end of a handler may do to the store. *)
Definition released s s' key : Prop :=
  ∃ d, s' = withData s d ∧ (∀ k, k ≠ key → d !! k = data s !! k) ∧
    ∀ rec, d !! key = Some rec → status rec = StatusCompleted → is_Some (response rec).

Lemma withData_id s : withData s (data s) = s.
Proof. by destruct s. Qed.

Lemma Unlock_released s ctxErr key rec :
  data s !! key = Some rec → status rec = StatusInProgress → released s (Unlock s ctxErr key).2 key.
Proof.
  intros Hkey Hst. unfold Unlock. destruct ctxErr; simpl.
  - exists (data s). rewrite withData_id. split_and!; try done. intros r Hr Hc. exfalso. congruence.
  - rewrite Hkey, bool_decide_eq_true_2 by done. exists (delete key (data s)).
    split_and!; [done|intros; by apply lookup_delete_ne|]. intros r. by rewrite lookup_delete_eq.
Qed.

Lemma Save_released s ctxErr key r now rec :
  data s !! key = Some rec → status rec = StatusInProgress → released s (Save s ctxErr key r now).2 key.
Proof.
  intros Hkey Hst. unfold Save. destruct ctxErr; simpl.
  - exists (data s). rewrite withData_id. split_and!; try done. intros r' Hr Hc. exfalso. congruence.
  - rewrite Hkey. eexists. split_and!; [done|intros; by apply lookup_insert_ne|].
    intros rec'. rewrite lookup_insert_eq. intros [= <-]. eauto.
Qed.

Lemma released_exclusive s s' rs1 key rs2 :
  exclusive s (rs1 ++ key :: rs2) → released s s' key →
  exclusive s' (rs1 ++ rs2) ∧
  ∀ k rec, data s !! k = Some rec → status rec = StatusCompleted → data s' !! k = Some rec.
Proof.
  intros [Hp Hnd Hl Hs] (d & -> & Hd & Hkey). rewrite <-Permutation_middle in Hnd.
  apply NoDup_cons in Hnd as [Hnk Hnd]. destruct (Hl key) as (rec & Hrec & Hst); [set_solver|].
  split; [split; try done; simpl|].
  - intros k Hk. rewrite Hd by set_solver. apply Hl. set_solver.
  - intros k rec' Hk. destruct (decide (k = key)) as [->|?]; [by apply Hkey|]. rewrite Hd in Hk by done. by eapply Hs.
  - intros k rec' Hk Hc. simpl. rewrite Hd; [done|]. congruence.
Qed.

Lemma finish_exclusive s rs1 key rs2 e ctxErr now :
  exclusive s (rs1 ++ key :: rs2) →
  exclusive (finish cfg s key e ctxErr now) (rs1 ++ rs2) ∧
  ∀ k rec, data s !! k = Some rec → status rec = StatusCompleted →
    data (finish cfg s key e ctxErr now) !! k = Some rec.
Proof.
  intros Hex. destruct (ex_locked _ _ Hex key) as (rec & Hkey & Hst); [set_solver|].
  eapply released_exclusive; [done|]. unfold finish. destruct e as [r|]; [destruct (StatusCodeMatcher _ _)|];
    eauto using Unlock_released, Save_released.
Qed.

Lemma step_exclusive S S' :
  step cfg S S' → exclusive (store S) (running S) →
  exclusive (store S') (running S') ∧
  ∀ k rec, data (store S) !! k = Some rec → status rec = StatusCompleted →
    data (store S') !! k = Some rec.
Proof.
  intros [s rs h method get ctxErr now d s' E|s rs1 key rs2 e ctxErr now] Hex; simpl in *.
  - pose proof (arrive_exclusive s rs h method get ctxErr now Hex) as Ha. rewrite E in Ha.
    destruct Ha as [? Hk]. split; [done|]. intros k rec Hr _. by apply Hk.
  - by apply finish_exclusive.
Qed.

Lemma steps_exclusive S S' :
  rtc (step cfg) S S' → exclusive (store S) (running S) →
  exclusive (store S') (running S') ∧
  ∀ k rec, data (store S) !! k = Some rec → status rec = StatusCompleted →
    data (store S') !! k = Some rec.
Proof.
  induction 1 as [|S S1 S' Hstep _ IH]; intros Hex; [done|].
  destruct (step_exclusive _ _ Hstep Hex) as [Hex1 Hk1]. destruct (IH Hex1) as [Hex2 Hk2].
  split; [done|]. intros k rec Hr Hc. apply Hk2; [|done]. by apply Hk1.
Qed.

Lemma new_exclusive opts : permanent (NewMemoryStore opts) → exclusive (NewMemoryStore opts) [].
Proof.
  intros Hp. assert (∀ s, data (foldl applyOption s opts) = data s) as Hd.
  { clear. induction opts as [|o opts IH]; intros s; [done|]. simpl. rewrite IH. by destruct o. }
  split; [done|constructor|set_solver|].
  unfold NewMemoryStore. rewrite Hd. apply map_Forall_empty.
Qed.

(** With a store that neither expires nor evicts, in every interleaving of
    concurrent requests, cancellations and panics, no two handlers run for the
    same key at the same time, and none runs for a key whose response is
    stored. *)
Lemma one_handler opts S :
  permanent (NewMemoryStore opts) → rtc (step cfg) (Sys (NewMemoryStore opts) []) S →
  NoDup (running S) ∧
  ∀ k, k ∈ running S → ∃ rec, data (store S) !! k = Some rec ∧ status rec = StatusInProgress.
Proof.
  intros Hp Hsteps. destruct (steps_exclusive _ _ Hsteps (new_exclusive opts Hp)) as [[] _]. done.
Qed.

(** The values of a header. *)
Definition values (h : option (gmap string (list string))) (name : string) : list string :=
  default [] (h ≫= lookup name).

(** The stored headers are served, after the values the writer has already. *)
Lemma served_headers h r name : name ≠ "X-Cache-Lookup" →
  values (Headers (serveCachedResponse h r)) name = values (Some h) name ++ values (Headers r) name.
Proof.
  intros Hh. unfold values. simpl. rewrite lookup_insert_ne by done. unfold addHeaders.
  rewrite lookup_union_with. destruct (Headers r) as [m|]; simpl; [|rewrite lookup_empty].
  - destruct (h !! name), (m !! name); simpl; by rewrite ?app_nil_r.
  - destruct (h !! name); simpl; by rewrite ?app_nil_r.
Qed.

(** Replay. Once a response is stored for a key, every later request with
    the key, in every later state, is answered with that status and body and
    with its headers added to those of the writer, without running the handler and without changing the store. *)
Lemma replayed opts S S' h method get now rec :
  permanent (NewMemoryStore opts) → rtc (step cfg) (Sys (NewMemoryStore opts) []) S →
  rtc (step cfg) S S' →
  let key := TrimSpace (get (HeaderName cfg)) in
  data (store S) !! key = Some rec → status rec = StatusCompleted →
  method ∉ IgnoredMethods cfg → key ≠ "" →
  ∃ r r', response rec = Some r ∧
    arrive cfg (store S') h method get None now = (Replay r', store S') ∧
    StatusCode r' = StatusCode r ∧ Body r' = Body r ∧
    ∀ name, name ≠ "X-Cache-Lookup" → values (Headers r') name = values (Some h) name ++ values (Headers r) name.
Proof.
  intros Hp Hs1 Hs2 key Hk Hc Hm Hne.
  destruct (steps_exclusive _ _ Hs1 (new_exclusive opts Hp)) as [Hex _].
  destruct (steps_exclusive _ _ Hs2 Hex) as [[Hp' _ _ _] Hkeep].
  pose proof (Hkeep _ _ Hk Hc) as Hk'. destruct (ex_stored _ _ Hex _ _ Hk Hc) as [r Hr].
  exists r, (serveCachedResponse h r). split; [done|]. split.
  - unfold arrive. case_bool_decide; [done|]. case_bool_decide; [done|].
    rewrite Lock_permanent by done. fold key. rewrite Hk'. simpl. rewrite Hc, Hr. simpl. by destruct r.
  - split_and!; [done|done|]. intros name. apply served_headers.
Qed.
End atMostOnce.

(** One iteration order. *)
Program Definition mapOrder : MapOrder := {| order m := map_to_list m |}.
Next Obligation. done. Qed.

Definition created : Response := mkResponse 201 None [].

(** A request arrives, and its handler ends. *)
Lemma completed_reachable :
  ∃ S rec, rtc (@step mapOrder defaultOptions) (Sys (NewMemoryStore []) []) S ∧
    data (store S) !! "k" = Some rec ∧ status rec = StatusCompleted ∧ response rec = Some created.
Proof.
  exists (Sys (@finish mapOrder defaultOptions
            (@arrive mapOrder defaultOptions (NewMemoryStore []) ∅ "POST" (λ _, "k") None 1).2
            "k" (Wrote created) None 2) []).
  eexists. split_and!; [| reflexivity | reflexivity | reflexivity].
  eapply rtc_l; [eapply (Arrives _ _ _ ∅ "POST" (λ _, "k") None 1); reflexivity|].
  eapply rtc_l; [apply (Ends _ _ [] "k" [] (Wrote created) None 2)|]. apply rtc_refl.
Qed.


Lemma replayed_example :
  ∃ S r, arrive (H := mapOrder) defaultOptions (store S) ∅ "POST" (λ _, " k") None 3 = (Replay r, store S).
Proof.
  destruct completed_reachable as (S & rec & Hs & Hk & Hc & Hr).
  destruct (@replayed mapOrder defaultOptions [] S S ∅ "POST" (λ _, " k") 3 rec) as (_ & r & _ & E & _).
  - vm_compute. intuition discriminate.
  - exact Hs.
  - apply rtc_refl.
  - exact Hk.
  - exact Hc.
  - set_solver.
  - discriminate.
  - exists S, r. exact E.
Defined.

(** Two ways a key can go wrong. When the context of a request is
    cancelled before its handler ends, the default store keeps the lock for
    good: every later request with the key, at any time, is refused with 409
    Conflict. And when a store at its capacity evicts, a running handler's
    lock goes first if it is the oldest record: a second handler then runs
    for the same key. *)
Lemma lock_hazards :
  (∀ t1 t2 t3, let s1 := (@arrive mapOrder defaultOptions (NewMemoryStore []) ∅ "POST" (λ _, "k") None t1).2 in
     let s2 := @finish mapOrder defaultOptions s1 "k" (Wrote created) (Some Canceled) t2 in
     (@arrive mapOrder defaultOptions s2 ∅ "POST" (λ _, "k") None t3).1 = Answer (inProgress ∅)) ∧
  (let s0 := NewMemoryStore [WithMaxEntries 1] in
   let '(d1, s1) := @arrive mapOrder defaultOptions s0 ∅ "POST" (λ _, "k") None 1 in
   let '(d2, s2) := @arrive mapOrder defaultOptions s1 ∅ "POST" (λ _, "other") None 2 in
   let '(d3, s3) := @arrive mapOrder defaultOptions s2 ∅ "POST" (λ _, "k") None 3 in
   d1 = Run "k" ∧ d2 = Run "other" ∧ d3 = Run "k").
Proof. split; [intros; reflexivity | vm_compute; intuition]. Qed.

(** C13: with a store that neither expires nor evicts, in every interleaving of
    concurrent requests, cancellations and panics, no two handlers run for the
    same key at the same time, and none runs for a key whose response is
    stored: every later request with the key (of a method that is not ignored, and not cancelled on arrival) is answered with that status and body,
    without changing the store, and with each stored header added to the values the writer has already, so a header
    that an earlier middleware has set, and that was therefore stored too, is sent twice. With other settings a key can go
    wrong: when the context of a request is cancelled before its handler ends,
    the default store keeps the lock for good and answers 409; and a store at its
    capacity evicts the lock of a running handler, so that a second one runs. *)
Theorem at_most_once :
  (∀ (H : MapOrder) (cfg : MiddlewareOptions),
    (∀ opts S,
     permanent (NewMemoryStore opts) → rtc (step cfg) (Sys (NewMemoryStore opts) []) S →
      NoDup (running S) ∧
      ∀ k, k ∈ running S → ∃ rec, data (store S) !! k = Some rec ∧ status rec = StatusInProgress) ∧
    (∀ opts S S' h method get now rec,
     permanent (NewMemoryStore opts) → rtc (step cfg) (Sys (NewMemoryStore opts) []) S →
      rtc (step cfg) S S' →
      let key := TrimSpace (get (HeaderName cfg)) in
      data (store S) !! key = Some rec → status rec = StatusCompleted →
      method ∉ IgnoredMethods cfg → key ≠ "" →
      ∃ r r', response rec = Some r ∧
        arrive cfg (store S') h method get None now = (Replay r', store S') ∧
        StatusCode r' = StatusCode r ∧ Body r' = Body r ∧
        ∀ name, name ≠ "X-Cache-Lookup" → values (Headers r') name = values (Some h) name ++ values (Headers r) name)) ∧
  (∀ t1 t2 t3, let s1 := (@arrive mapOrder defaultOptions (NewMemoryStore []) ∅ "POST" (λ _, "k") None t1).2 in
     let s2 := @finish mapOrder defaultOptions s1 "k" (Wrote created) (Some Canceled) t2 in
     (@arrive mapOrder defaultOptions s2 ∅ "POST" (λ _, "k") None t3).1 = Answer (inProgress ∅)) ∧
  (let s0 := NewMemoryStore [WithMaxEntries 1] in
   let '(d1, s1) := @arrive mapOrder defaultOptions s0 ∅ "POST" (λ _, "k") None 1 in
   let '(d2, s2) := @arrive mapOrder defaultOptions s1 ∅ "POST" (λ _, "other") None 2 in
   let '(d3, s3) := @arrive mapOrder defaultOptions s2 ∅ "POST" (λ _, "k") None 3 in
   d1 = Run "k" ∧ d2 = Run "other" ∧ d3 = Run "k").
Proof. split; [intros; split; [apply one_handler|apply replayed]|apply lock_hazards]. Qed.

Lemma at_most_once_witness :
  NoDup (running (Sys (@arrive mapOrder defaultOptions (NewMemoryStore []) ∅ "POST" (λ _, "k") None 1).2 ["k"])) ∧
  ∀ k, k ∈ ["k"] → ∃ rec,
    data (@arrive mapOrder defaultOptions (NewMemoryStore []) ∅ "POST" (λ _, "k") None 1).2 !! k = Some rec ∧
    status rec = StatusInProgress.
Proof.
  apply (proj1 (proj1 at_most_once mapOrder defaultOptions) [] (Sys _ ["k"])).
  - vm_compute. intuition discriminate.
  - eapply rtc_l; [eapply (Arrives _ _ _ ∅ "POST" (λ _, "k") None 1); reflexivity|]. apply rtc_refl.
Defined.
