(* ===== verification/PgStore.v ===== *)
(** The distributed idempotency store (idempotency/postgres.go). Each statement
    is atomic; [Lock] is a sequence of them that other clients interleave with. *)
From S2P Require Import Prelude Text Sql Idempotency.

Definition DefaultTableName : string := "idempotency_keys".
Definition DefaultLockTTL : Duration := 30 * Second.
Definition DefaultResponseTTL : Duration := 1440 * Minute.

Record PGStore := mkPGStore { tableName : string; lockTTL : Duration; responseTTL : Duration }.

Inductive PGOption :=
| WithPGLockTTL (ttl : Duration)
| WithPGResponseTTL (ttl : Duration)
| WithPGTableName (name : string).

Definition applyPGOption (s : PGStore) (o : PGOption) : PGStore :=
  match o with
  | WithPGLockTTL ttl => if 0 <? ttl then mkPGStore (tableName s) ttl (responseTTL s) else s
  | WithPGResponseTTL ttl => if 0 <? ttl then mkPGStore (tableName s) (lockTTL s) ttl else s
  | WithPGTableName name => mkPGStore name (lockTTL s) (responseTTL s)
  end.

(** [NewPGStore] with a connection. *)
Definition NewPGStore (opts : list PGOption) : option PGStore :=
  let s := foldl applyPGOption (mkPGStore DefaultTableName DefaultLockTTL DefaultResponseTTL) opts in
  if validTableName (tableName s) then Some s else None.

(** The JSONB column: null or an object of string lists, for headers whose
    text JSON can represent (valid UTF-8 without NUL). *)
Inductive jsonb := JNull | JObject (m : gmap string (list string)).
Definition Marshal (h : option (gmap string (list string))) : jsonb :=
  match h with None => JNull | Some m => JObject m end.
Definition Unmarshal (j : jsonb) : option (gmap string (list string)) :=
  match j with JNull => None | JObject m => Some m end.

(** A row; the body is empty when the column is NULL. [created_at] and
    [updated_at] are written and never read. *)
Record row := Row {
  status : Status;
  status_code : option Z;
  headers : option jsonb;
  body : list Byte.byte;
  locked_until : Time;
  expires_at : Time;
}.
Local Notation table := (gmap string row).

Definition buildRecordFromRow (r : row) : record :=
  mkRecord (status r)
    (match status r, status_code r with
     | StatusCompleted, Some code => Some (mkResponse code (headers r ≫= Unmarshal) (body r))
     | _, _ => None
     end).

Section store.
Context (s : PGStore).

Definition leaseOf (now : Time) : Time := stored (time_Add now (lockTTL s)).
Definition expiryOf (now : Time) : Time := stored (time_Add now (responseTTL s)).

(** The statements of [Lock], each with "one row was affected". *)
Definition insertRow (t : table) (key : string) (now : Time) : bool * table :=
  match t !! key with
  | Some _ => (false, t)
  | None => (true, <[key := Row StatusInProgress None None [] (leaseOf now) (expiryOf now)]> t)
  end.

Definition reclaimExpired (t : table) (key : string) (now : Time) (seen : row) : bool * table :=
  match t !! key with
  | Some r =>
      if expires_at r =? expires_at seen then
        (true, <[key := Row StatusInProgress None None [] (leaseOf now) (expiryOf now)]> t)
      else (false, t)
  | None => (false, t)
  end.

Definition reclaimLease (t : table) (key : string) (now : Time) (seen : row) : bool * table :=
  match t !! key with
  | Some r =>
      if bool_decide (status r = StatusInProgress) && (locked_until r =? locked_until seen) then
        (true, <[key := Row (status r) (status_code r) (headers r) (body r) (leaseOf now) (expiryOf now)]> t)
      else (false, t)
  | None => (false, t)
  end.

Inductive lockResult := Acquired | Exists (rec : record) | LockError.

(** Where a call of [Lock] is: before the INSERT, before the SELECT, before
    one of the two UPDATEs of [tryReclaimExpired], or done. *)
Inductive lockPC :=
| PInsert | PSelect
| PReclaimExpired (seen : row)
| PReclaimLease (seen : row)
| PDone (r : lockResult).

(** The second half of [tryReclaimExpired], and its whole. *)
Definition tryReclaimLease (now : Time) (seen : row) : lockPC :=
  if bool_decide (status seen = StatusInProgress) && time_After now (locked_until seen)
  then PReclaimLease seen else PDone (Exists (buildRecordFromRow seen)).
Definition tryReclaimExpired (now : Time) (seen : row) : lockPC :=
  if time_After now (expires_at seen) then PReclaimExpired seen else tryReclaimLease now seen.

(** The outcome of a statement that reports the affected rows: [None] for an error. *)
Definition execStmt (o : dbOutcome) (t : table) (r : bool * table) : option bool * table :=
  match o with
  | Answered => (Some r.1, r.2)
  | AnswerLost => (None, r.2)
  | NotExecuted => (None, t)
  end.

Definition lockStart (key : string) : lockPC :=
  if bool_decide (key = "") then PDone LockError else PInsert.

(** The next statement of [Lock]; the recursive call reads the clock again, at [now']. *)
Definition lockStep (key : string) (now now' : Time) (t : table) (pc : lockPC) (o : dbOutcome)
    : Time * lockPC * table :=
  match pc with
  | PInsert =>
      let '(n, t') := execStmt o t (insertRow t key now) in
      (now, match n with Some true => PDone Acquired | Some false => PSelect | None => PDone LockError end, t')
  | PSelect =>
      match o, t !! key with
      | Answered, Some r => (now, tryReclaimExpired now r, t)
      | Answered, None => (now', lockStart key, t)
      | _, _ => (now, PDone LockError, t)
      end
  | PReclaimExpired seen =>
      let '(n, t') := execStmt o t (reclaimExpired t key now seen) in
      (now, match n with Some true => PDone Acquired | _ => tryReclaimLease now seen end, t')
  | PReclaimLease seen =>
      let '(n, t') := execStmt o t (reclaimLease t key now seen) in
      (now, match n with Some true => PDone Acquired | _ => PDone (Exists (buildRecordFromRow seen)) end, t')
  | PDone _ => (now, pc, t)
  end.

(** [Lock] with nobody in between: at most [fuel] statements. *)
Fixpoint lockAlone (fuel : nat) (key : string) (now : Time) (t : table) (pc : lockPC) : option (lockResult * table) :=
  match pc, fuel with
  | PDone r, _ => Some (r, t)
  | _, O => None
  | _, S fuel =>
      let '(now1, pc1, t1) := lockStep key now now t pc Answered in lockAlone fuel key now1 t1 pc1
  end.
Definition Lock (key : string) (now : Time) (t : table) : option (lockResult * table) :=
  lockAlone 4 key now t (lockStart key).

(** The statements of [Save], [Unlock] and [Delete]; the result is "no error". *)
Definition Save (t : table) (key : string) (resp : Response) (now : Time) (o : dbOutcome) : bool * table :=
  if bool_decide (key = "") then (false, t)
  else
    let '(n, t') := execStmt o t
      (match t !! key with
       | Some r => (true, <[key := Row StatusCompleted (Some (StatusCode resp)) (Some (Marshal (Headers resp)))
                                     (Body resp) (locked_until r) (expiryOf now)]> t)
       | None => (false, t)
       end) in
    (match n with Some _ => true | None => false end, t').

Definition Unlock (t : table) (key : string) (o : dbOutcome) : bool * table :=
  if bool_decide (key = "") then (false, t)
  else
    let '(n, t') := execStmt o t
      (match t !! key with
       | Some r => if bool_decide (status r = StatusInProgress) then (true, delete key t) else (false, t)
       | None => (false, t)
       end) in
    (match n with Some _ => true | None => false end, t').

Definition Delete (t : table) (key : string) (o : dbOutcome) : bool * table :=
  if bool_decide (key = "") then (false, t)
  else
    let '(n, t') := execStmt o t (bool_decide (is_Some (t !! key)), delete key t) in
    (match n with Some _ => true | None => false end, t').

(** ** Many clients *)

(** A request is locking its key, running its handler under a lease, or over. *)
Inductive phase := Locking (now : Time) (pc : lockPC) | Running (lease : Time) | Over.

Definition settle (now : Time) (pc : lockPC) : phase :=
  match pc with
  | PDone Acquired => Running (leaseOf now)
  | PDone _ => Over
  | _ => Locking now pc
  end.

(** [clock] is the fastest of the clients' clocks. *)
Record system := Sys { clock : Time; rows : table; procs : gmap nat (string * phase) }.

(** The end of a handler: what the middleware asks of the store. *)
Inductive ending := SaveResponse (r : Response) | ReleaseLock.

Inductive action :=
| Tick (c : Time)
| Request (p : nat) (key : string) (now : Time)
| Advance (p : nat) (now' : Time) (o : dbOutcome)
| Finish (p : nat) (e : ending) (now : Time) (o : dbOutcome).

(** A step; a client's clock may be behind. Unless [late], handlers end within
    their lease. *)
Definition act (late : bool) (S : system) (a : action) : option system :=
  match a with
  | Tick c => if clock S <=? c then Some (Sys c (rows S) (procs S)) else None
  | Request p key now =>
      match procs S !! p with
      | None => if now <=? clock S then
                  Some (Sys (clock S) (rows S) (<[p := (key, settle now (lockStart key))]> (procs S)))
                else None
      | _ => None
      end
  | Advance p now' o =>
      match procs S !! p with
      | Some (key, Locking now pc) =>
          if now' <=? clock S then
            let '(now1, pc1, t1) := lockStep key now now' (rows S) pc o in
            Some (Sys (clock S) t1 (<[p := (key, settle now1 pc1)]> (procs S)))
          else None
      | _ => None
      end
  | Finish p e now o =>
      match procs S !! p with
      | Some (key, Running lease) =>
          if late || (clock S <=? lease) then
            let t := match e with
                     | SaveResponse r => (Save (rows S) key r now o).2
                     | ReleaseLock => (Unlock (rows S) key o).2
                     end in
            Some (Sys (clock S) t (<[p := (key, Over)]> (procs S)))
          else None
      | _ => None
      end
  end.

Fixpoint run (late : bool) (S : system) (l : list action) : option system :=
  match l with
  | [] => Some S
  | a :: l' => act late S a ≫= λ S', run late S' l'
  end.

Definition runs (S : system) (p : nat) (key : string) (lease : Time) : Prop :=
  procs S !! p = Some (key, Running lease).

(** The handler of [p] runs and its lease is not over. *)
Definition holds (S : system) (p : nat) (key : string) : Prop :=
  ∃ lease, runs S p key lease ∧ clock S <= lease.
End store.

(** ** One holder per key *)

(** The key may be taken by a client that read [now]. *)
Definition free (t : table) (key : string) (now : Time) : Prop :=
  match t !! key with
  | None => True
  | Some r => expires_at r < now ∨ (status r = StatusInProgress ∧ locked_until r < now)
  end.

(** What a call of [Lock] has seen. *)
Definition pcOk (now : Time) (pc : lockPC) : Prop :=
  match pc with
  | PReclaimExpired seen => expires_at seen < now
  | PReclaimLease seen => locked_until seen < now
  | _ => True
  end.

Section exclusion.
Context (s : PGStore) (Httl : lockTTL s <= responseTTL s).

(** The rows a lock writes. *)
Definition fresh (now : Time) (r : row) : Prop :=
  status r = StatusInProgress ∧ locked_until r = leaseOf s now ∧ expires_at r = expiryOf s now.

(** The effect a statement of [Lock] may have. *)
Definition taken (t t1 : table) (key : string) (now : Time) : Prop :=
  free t key now ∧ ∃ r, t1 = <[key := r]> t ∧ fresh now r.

Lemma tryReclaimLease_ok now seen : pcOk now (tryReclaimLease now seen).
Proof. unfold tryReclaimLease, time_After. case_match eqn:E; [|done]. cbn. destruct (Z.ltb_spec (locked_until seen) now); [done|]. by rewrite andb_false_r in E. Qed.

Lemma tryReclaimLease_not now seen : tryReclaimLease now seen ≠ PDone Acquired.
Proof. unfold tryReclaimLease. by case_match. Qed.

Lemma tryReclaimExpired_ok now seen :
  pcOk now (tryReclaimExpired now seen) ∧ tryReclaimExpired now seen ≠ PDone Acquired.
Proof.
  unfold tryReclaimExpired, time_After. destruct (Z.ltb_spec (expires_at seen) now); [done|].
  auto using tryReclaimLease_ok, tryReclaimLease_not.
Qed.

Lemma insertRow_taken t key now :
  insertRow s t key now = (false, t) ∨ ∃ t1, insertRow s t key now = (true, t1) ∧ taken t t1 key now.
Proof.
  unfold insertRow. destruct (t !! key) eqn:E; [by left|].
  right. eexists. split; [done|]. split; [by unfold free; rewrite E|]. by eexists.
Qed.

Lemma reclaimExpired_taken t key now seen :
  expires_at seen < now →
  reclaimExpired s t key now seen = (false, t) ∨
  ∃ t1, reclaimExpired s t key now seen = (true, t1) ∧ taken t t1 key now.
Proof.
  intros Hseen. unfold reclaimExpired. destruct (t !! key) as [r|] eqn:E; [|by left].
  destruct (Z.eqb_spec (expires_at r) (expires_at seen)) as [He|]; [|by left].
  right. eexists. split; [done|]. split; [|by eexists]. unfold free. rewrite E. left. lia.
Qed.

Lemma reclaimLease_taken t key now seen :
  locked_until seen < now →
  reclaimLease s t key now seen = (false, t) ∨
  ∃ t1, reclaimLease s t key now seen = (true, t1) ∧ taken t t1 key now.
Proof.
  intros Hseen. unfold reclaimLease. destruct (t !! key) as [r|] eqn:E; [|by left].
  case_bool_decide as Hs; cbn; [|by left].
  destruct (Z.eqb_spec (locked_until r) (locked_until seen)) as [He|]; [|by left].
  right. eexists. split; [done|]. split; [|eexists; split; [done|]; split; [done|by split]].
  unfold free. rewrite E. right. split; [done|lia].
Qed.

(** A statement of [Lock] takes the key or leaves the table; a call that
    acquires has taken it. *)
Lemma lockStep_effect key now now' t pc o now1 pc1 t1 :
  pcOk now pc → (∀ r, pc ≠ PDone r) →
  lockStep s key now now' t pc o = (now1, pc1, t1) →
  pcOk now1 pc1 ∧ (now1 = now ∨ now1 = now') ∧
  ((t1 = t ∧ pc1 ≠ PDone Acquired) ∨ (now1 = now ∧ taken t t1 key now)).
Proof.
  intros Hpc Hnd. destruct pc as [| |seen|seen|]; cbn [lockStep]; [..|by destruct (Hnd r)].
  - destruct (insertRow_taken t key now) as [->|(t2 & -> & Ht)], o; intros [= <- <- <-]; cbn; auto.
    all: split_and!; auto; left; split; congruence.
  - destruct o; [|intros [= <- <- <-]; cbn; split_and!; auto; left; split; congruence..].
    destruct (t !! key); intros [= <- <- <-].
    + destruct (tryReclaimExpired_ok now r). auto.
    + unfold lockStart. case_bool_decide; cbn; split_and!; auto; left; split; congruence.
  - pose proof (tryReclaimLease_ok now seen). pose proof (tryReclaimLease_not now seen).
    destruct (reclaimExpired_taken t key now seen Hpc) as [->|(t2 & -> & Ht)], o;
      intros [= <- <- <-]; cbn; auto.
  - destruct (reclaimLease_taken t key now seen Hpc) as [->|(t2 & -> & Ht)], o;
      intros [= <- <- <-]; cbn; split_and!; auto; left; split; congruence.
Qed.

Lemma leaseOf_le now : leaseOf s now <= expiryOf s now.
Proof.
  unfold leaseOf, expiryOf, stored, time_Add.
  pose proof (Z.div_le_mono (now + lockTTL s) (now + responseTTL s) 1000). lia.
Qed.

Record inv (S : system) : Prop := {
  i_row : ∀ k r, rows S !! k = Some r → status r = StatusInProgress → locked_until r <= expires_at r;
  i_run : ∀ p k l, runs S p k l → clock S <= l →
    ∃ r, rows S !! k = Some r ∧ status r = StatusInProgress ∧ locked_until r = l;
  i_one : ∀ p q k, holds S p k → holds S q k → p = q;
  i_pc : ∀ p k now pc, procs S !! p = Some (k, Locking now pc) →
    now <= clock S ∧ pcOk now pc ∧ ∀ r, pc ≠ PDone r;
}.

(** Nobody holds a key that is free. *)
Lemma free_not_held S k now : inv S → free (rows S) k now → now <= clock S → ∀ p, ¬ holds S p k.
Proof.
  intros HI Hf Hn p (l & Hr & Hl). destruct (i_run _ HI _ _ _ Hr Hl) as (r & Er & Hs & Hlu).
  unfold free in Hf. rewrite Er in Hf. pose proof (i_row _ HI _ _ Er Hs). lia.
Qed.

Lemma settle_locking now pc now1 pc1 :
  settle s now pc = Locking now1 pc1 → now1 = now ∧ pc1 = pc ∧ ∀ r, pc ≠ PDone r.
Proof. destruct pc as [| | | |[]]; cbn; intros; simplify_eq; done. Qed.

Lemma settle_running now pc l : settle s now pc = Running l → pc = PDone Acquired ∧ l = leaseOf s now.
Proof. destruct pc as [| | | |[]]; cbn; intros; simplify_eq; done. Qed.

(** What a new phase of a process asks of the table [t]. *)
Definition phaseOk (S : system) (t : table) (p : nat) (k : string) (ph : phase) : Prop :=
  match ph with
  | Locking now pc => now <= clock S ∧ pcOk now pc ∧ ∀ r, pc ≠ PDone r
  | Running l => (∀ q, q ≠ p → ¬ holds S q k) ∧
      ∃ r, t !! k = Some r ∧ status r = StatusInProgress ∧ locked_until r = l
  | Over => True
  end.

(** One process moves, and the row of its key changes only when no other
    process holds the key. *)
Lemma inv_move S t p k ph :
  inv S →
  (∀ k' r, t !! k' = Some r → status r = StatusInProgress → locked_until r <= expires_at r) →
  (∀ k', k' ≠ k → t !! k' = rows S !! k') →
  t = rows S ∨ (∀ q, q ≠ p → ¬ holds S q k) →
  phaseOk S t p k ph →
  inv (Sys (clock S) t (<[p := (k, ph)]> (procs S))).
Proof.
  intros HI Hrow Hoth Hfree Hph.
  assert (Hholds : ∀ q k', holds (Sys (clock S) t (<[p := (k, ph)]> (procs S))) q k' →
    (q ≠ p ∧ holds S q k') ∨ (q = p ∧ k' = k ∧ ∃ l, ph = Running l)).
  { intros q k' (l & Hr & Hl). unfold runs in Hr. cbn in *.
    apply lookup_insert_Some in Hr as [[<- [= <- ->]]|[Hne Hr]]; [right; eauto|left].
    split; [done|]. by exists l. }
  constructor; cbn.
  - done.
  - intros q k' l Hr Hl. unfold runs in Hr; cbn in Hr.
    apply lookup_insert_Some in Hr as [[<- [= <- ->]]|[Hne Hr]]; [apply Hph|].
    destruct (i_run _ HI _ _ _ Hr Hl) as (r & Er & Hs & Hlu).
    destruct (decide (k' = k)) as [->|Hk]; [|rewrite Hoth by done; eauto].
    destruct Hfree as [->|Hfree]; [eauto|]. destruct (Hfree q); [done|by exists l].
  - intros q1 q2 k' H1 H2.
    destruct (Hholds _ _ H1) as [[? Hh1]|(-> & -> & l & ->)], (Hholds _ _ H2) as [[? Hh2]|(-> & E & l2 & E2)];
      try done.
    + by eapply (i_one _ HI).
    + subst. destruct Hph as [Hph _]. by destruct (Hph q1).
    + destruct Hph as [Hph _]. by destruct (Hph q2).
  - intros q k' now pc Hq. apply lookup_insert_Some in Hq as [[<- [= <- ->]]|[Hne Hq]]; [done|].
    by eapply (i_pc _ HI).
Qed.

Lemma fresh_le now r : fresh now r → locked_until r <= expires_at r.
Proof. intros (_ & -> & ->). apply leaseOf_le. Qed.

Lemma inv_advance S p k now pc now' o now1 pc1 t1 :
  inv S → procs S !! p = Some (k, Locking now pc) → now' <= clock S →
  lockStep s k now now' (rows S) pc o = (now1, pc1, t1) →
  inv (Sys (clock S) t1 (<[p := (k, settle s now1 pc1)]> (procs S))).
Proof.
  intros HI Hp Hn' E. destruct (i_pc _ HI _ _ _ _ Hp) as (Hn & Hpc & Hnd).
  destruct (lockStep_effect _ _ _ _ _ _ _ _ _ Hpc Hnd E) as (Hpc1 & Hn1 & Hcase).
  assert (now1 <= clock S) by (destruct Hn1; lia).
  destruct Hcase as [[-> Hna]|[-> [Hfree (r & -> & Hr)]]].
  - apply inv_move; auto; [by apply (i_row _ HI)|]. unfold phaseOk.
    destruct (settle s now1 pc1) eqn:Es; [|by apply settle_running in Es as [? _]|done].
    apply settle_locking in Es as (-> & -> & ?). done.
  - pose proof (free_not_held _ _ _ HI Hfree Hn) as Hno. apply inv_move; auto.
    + intros k' r'. rewrite lookup_insert_Some. intros [[<- <-]|[_ ?]] ?; [by eapply fresh_le|].
      by eapply (i_row _ HI).
    + intros k' ?. by rewrite lookup_insert_ne.
    + unfold phaseOk. destruct (settle s now pc1) eqn:Es; [| |done].
      * apply settle_locking in Es as (-> & -> & ?). done.
      * apply settle_running in Es as [_ ->]. split; [auto|]. exists r. rewrite lookup_insert_eq.
        by destruct Hr as (? & ? & _).
Qed.

(** The statement a handler ends with changes the row of its key, and leaves
    no row in progress but those that were there. *)
Lemma finish_rows (t : table) k e now o :
  let t' := match e with SaveResponse r => (Save s t k r now o).2 | ReleaseLock => (Unlock t k o).2 end in
  (∀ k', k' ≠ k → t' !! k' = t !! k') ∧
  (∀ k' r, t' !! k' = Some r → status r = StatusInProgress → t !! k' = Some r).
Proof.
  destruct e as [resp|]; cbn zeta; [unfold Save|unfold Unlock].
  - case_bool_decide; [by split|]. destruct (t !! k) as [r0|] eqn:E, o; cbn; try by split.
    all: split; [intros; by rewrite lookup_insert_ne|].
    all: intros k' r; rewrite lookup_insert_Some; intros [[<- <-]|[_ ?]]; done.
  - case_bool_decide; [by split|]. destruct (t !! k) as [r0|] eqn:E; [case_bool_decide|]; destruct o; cbn; try by split.
    all: split; [intros; by rewrite lookup_delete_ne|].
    all: intros k' r; rewrite lookup_delete_Some; by intros [_ ?].
Qed.

Lemma pg_inv_act S a S' : inv S → act s false S a = Some S' → inv S'.
Proof.
  intros HI. destruct a as [c|p k now|p now' o|p e now o]; cbn [act].
  - destruct (Z.leb_spec (clock S) c); intros; simplify_eq. constructor; cbn.
    + apply (i_row _ HI).
    + intros p k l Hr Hl. apply (i_run _ HI p k l Hr). lia.
    + intros p q k (l & Hr & Hl) (l2 & Hr2 & Hl2). cbn in *.
      apply (i_one _ HI p q k); [exists l|exists l2]; split; (done || lia).
    + intros p k now pc Hp. destruct (i_pc _ HI _ _ _ _ Hp) as (? & ? & ?). split_and!; [lia|done|done].
  - destruct (procs S !! p); [done|]. destruct (Z.leb_spec now (clock S)); intros; simplify_eq.
    apply inv_move; auto; [by apply (i_row _ HI)|]. unfold lockStart. by case_bool_decide.
  - destruct (procs S !! p) as [[k [now pc| |]]|] eqn:Hp; try done.
    destruct (Z.leb_spec now' (clock S)) as [Hn'|]; [|done].
    destruct (lockStep s k now now' (rows S) pc o) as [[now1 pc1] t1] eqn:E. intros; simplify_eq.
    by eapply inv_advance.
  - destruct (procs S !! p) as [[k [|l|]]|] eqn:Hp; try done. cbn [orb].
    destruct (Z.leb_spec (clock S) l) as [Hl|]; intros; simplify_eq.
    destruct (finish_rows (rows S) k e now o) as [Hoth Hin]. apply inv_move; auto; [| |done].
    + intros k' r Hr Hs. eapply (i_row _ HI); [by eapply Hin|done].
    + right. intros q Hq Hh. apply Hq, (i_one _ HI q p k Hh). by exists l.
Qed.

Lemma pg_inv_run l S S' : inv S → run s false S l = Some S' → inv S'.
Proof.
  revert S. induction l as [|a l IH]; intros S HI; cbn; [by intros [= <-]|].
  destruct (act s false S a) as [S1|] eqn:E; cbn; [|done]. intros. by eapply IH; [eapply pg_inv_act|].
Qed.

Lemma inv_init c : inv (Sys c ∅ ∅).
Proof.
  constructor; cbn; unfold holds, runs; cbn; [done|done| |done]. by intros p q k (l & Hr & _).
Qed.

(** A process that starts to run has found its key free. *)
Lemma act_acquires S a S' p k l :
  inv S → act s false S a = Some S' → runs S' p k l → (∀ l', ¬ runs S p k l') →
  ∃ now, now <= clock S ∧ free (rows S) k now.
Proof.
  intros HI. unfold runs. destruct a as [c|q kq now|q now' o|q e now o]; cbn [act].
  - destruct (_ <=? _); intros Ha Hr Hno; simplify_eq. by destruct (Hno l).
  - destruct (procs S !! q); [done|]. destruct (_ <=? _); intros Ha Hr Hno; simplify_eq; cbn in Hr.
    apply lookup_insert_Some in Hr as [[<- [= <- Hr]]|[_ Hr]]; [|by destruct (Hno l)].
    apply settle_running in Hr as [Hr _]. unfold lockStart in Hr. by case_bool_decide.
  - destruct (procs S !! q) as [[kq [now pc| |]]|] eqn:Hp; try done.
    destruct (Z.leb_spec now' (clock S)) as [Hn'|]; [|done].
    destruct (lockStep s kq now now' (rows S) pc o) as [[now1 pc1] t1] eqn:E. intros Ha Hr Hno; simplify_eq; cbn in Hr.
    apply lookup_insert_Some in Hr as [[<- [= <- Hr]]|[_ Hr]]; [|by destruct (Hno l)].
    apply settle_running in Hr as [-> ->]. destruct (i_pc _ HI _ _ _ _ Hp) as (Hn & Hpc & Hnd).
    destruct (lockStep_effect _ _ _ _ _ _ _ _ _ Hpc Hnd E) as (_ & _ & [[_ ?]|[_ [Hf _]]]); [done|].
    by exists now.
  - destruct (procs S !! q) as [[kq [|lq|]]|] eqn:Hp; try done.
    destruct (_ || _); intros Ha Hr Hno; simplify_eq; cbn in Hr.
    apply lookup_insert_Some in Hr as [[<- [=]]|[_ Hr]]. by destruct (Hno l).
Qed.
End exclusion.

(** ** Lock, alone *)

(** [Lock] that nobody interleaves with, as the state of the key decides it. *)
Definition lockSpec (s : PGStore) (key : string) (now : Time) (t : table) : lockResult * table :=
  let new := Row StatusInProgress None None [] (leaseOf s now) (expiryOf s now) in
  match t !! key with
  | None => (Acquired, <[key := new]> t)
  | Some r =>
      if expires_at r <? now then (Acquired, <[key := new]> t)
      else if bool_decide (status r = StatusInProgress) && (locked_until r <? now) then
        (Acquired, <[key := Row StatusInProgress (status_code r) (headers r) (body r)
                                (leaseOf s now) (expiryOf s now)]> t)
      else (Exists (buildRecordFromRow r), t)
  end.

Lemma Lock_spec s key now t : key ≠ "" → Lock s key now t = Some (lockSpec s key now t).
Proof.
  intros Hk. unfold Lock, lockStart, lockSpec. rewrite bool_decide_false by done.
  destruct (t !! key) as [r|] eqn:E; cbn; unfold insertRow; rewrite E; cbn; [|done].
  unfold tryReclaimExpired, tryReclaimLease, time_After.
  rewrite E. destruct (expires_at r <? now) eqn:Ee; cbn; unfold reclaimExpired.
  { by rewrite E, Z.eqb_refl. }
  case_bool_decide as Hs; cbn; [|done].
  destruct (locked_until r <? now) eqn:El; cbn; [|done]. unfold reclaimLease.
  by rewrite E, bool_decide_true, Z.eqb_refl, Hs by done.
Qed.

(** ** The claims *)

Definition testStore : PGStore := mkPGStore "t" (10 * Second) (20 * Second).
Definition paid : Response := mkResponse 201 None [].

(** The lease of request 0 lapses and request 1 takes the key; request 0 ends
    late, releases "its" lock, and request 2 starts beside request 1. *)
Definition lateRelease : list action :=
  [Request 0 "k" 0; Advance 0 0 Answered; Tick (11 * Second);
   Request 1 "k" (11 * Second); Advance 1 0 Answered; Advance 1 0 Answered; Advance 1 0 Answered;
   Finish 0 ReleaseLock (11 * Second) Answered;
   Request 2 "k" (11 * Second); Advance 2 0 Answered].

(** A response TTL below the lock TTL: the record of request 0 expires under it. *)
Definition shortRetention : list action :=
  [Request 0 "k" 0; Advance 0 0 Answered; Tick (6 * Second);
   Request 1 "k" (6 * Second); Advance 1 0 Answered; Advance 1 0 Answered; Advance 1 0 Answered].

Definition twoHolders (s : PGStore) (late : bool) (l : list action) (p q : nat) : Prop :=
  ∃ S, run s late (Sys 0 ∅ ∅) l = Some S ∧ holds S p "k" ∧ holds S q "k".

(** Both conditions of the exclusion are needed, as a lock carries no token
    of its owner. A handler that outlives its lease and then releases the lock
    deletes the lock of the request that took over, and a third request runs
    beside that one; and with a response TTL below the lock TTL, which NewPGStore
    accepts, a lease that still runs is taken away. Besides, of two requests
    that find an expired response the one that loses the race to reclaim it
    is answered with the expired response. *)
Lemma pg_hazards :
  twoHolders testStore true lateRelease 1 2 ∧
  (∃ s, NewPGStore [WithPGLockTTL (10 * Second); WithPGResponseTTL (5 * Second)] = Some s ∧
        twoHolders s false shortRetention 0 1) ∧
  (∀ s key now now' t seen r,
     status seen = StatusCompleted → t !! key = Some r → expires_at r ≠ expires_at seen →
     lockStep s key now now' t (PReclaimExpired seen) Answered
       = (now, PDone (Exists (buildRecordFromRow seen)), t)).
Proof.
  split_and!.
  - eexists. split; [vm_compute; reflexivity|].
    split; [exists (21 * Second)|exists (21 * Second)]; by vm_compute.
  - eexists. split; [reflexivity|]. eexists. split; [vm_compute; reflexivity|].
    split; [exists (10 * Second)|exists (16 * Second)]; by vm_compute.
  - intros s key now now' t seen r Hs Er Hne. cbn [lockStep]. unfold reclaimExpired, tryReclaimLease.
    rewrite Er. apply Z.eqb_neq in Hne. rewrite Hne, Hs. cbn. by rewrite bool_decide_false by done.
Qed.

Lemma pg_excludes s c0 l S :
  lockTTL s <= responseTTL s → run s false (Sys c0 ∅ ∅) l = Some S →
  (∀ p q key, holds S p key → holds S q key → p = q) ∧
  (∀ a S' p key lease r,
     act s false S a = Some S' → runs S' p key lease → (∀ lease', ¬ runs S p key lease') →
     rows S !! key = Some r → status r = StatusCompleted → expires_at r < clock S).
Proof.
  intros Httl Hrun. pose proof (pg_inv_run s Httl l _ _ (inv_init c0) Hrun) as HI. split.
  - apply (i_one _ HI).
  - intros a S' p key lease r Ha Hr Hno Er Hc.
    destruct (act_acquires s S a S' p key lease HI Ha Hr Hno) as (now & Hn & Hf).
    unfold free in Hf. rewrite Er in Hf. destruct Hf as [|[? _]]; [lia|congruence].
Qed.

(** C11: With the PostgreSQL store any number of replicas, whose statements
    interleave in any order and may fail or lose their answers, and whose
    clocks may be behind, never run two handlers of one key at the same time
    as long as each handler ends within its lease and the lock TTL is at most
    the response TTL; and no handler is started for a key whose stored response
    has not expired. Both conditions are needed, as a lock carries no token
    of its owner: a handler that outlives its lease and then releases the lock
    deletes the lock of the request that took over, and a third request runs
    beside that one; and with a response TTL below the lock TTL, which NewPGStore
    accepts, a lease that still runs is taken away. Besides, of two requests
    that find an expired response the one that loses the race to reclaim it
    is answered with the expired response. *)
Theorem pg_exclusive :
  (∀ s c0 l S,
   lockTTL s <= responseTTL s → run s false (Sys c0 ∅ ∅) l = Some S →
    (∀ p q key, holds S p key → holds S q key → p = q) ∧
    (∀ a S' p key lease r,
       act s false S a = Some S' → runs S' p key lease → (∀ lease', ¬ runs S p key lease') →
       rows S !! key = Some r → status r = StatusCompleted → expires_at r < clock S)) ∧
  twoHolders testStore true lateRelease 1 2 ∧
  (∃ s, NewPGStore [WithPGLockTTL (10 * Second); WithPGResponseTTL (5 * Second)] = Some s ∧
        twoHolders s false shortRetention 0 1) ∧
  (∀ s key now now' t seen r,
     status seen = StatusCompleted → t !! key = Some r → expires_at r ≠ expires_at seen →
     lockStep s key now now' t (PReclaimExpired seen) Answered
       = (now, PDone (Exists (buildRecordFromRow seen)), t)).
Proof. split; [apply pg_excludes|apply pg_hazards]. Qed.

(** A request loses its lease, a second one takes the key over, a third one is
    turned away. *)
Definition takeover : list action :=
  [Request 0 "k" 0; Advance 0 0 Answered; Tick (11 * Second);
   Request 1 "k" (11 * Second); Advance 1 0 Answered;
   Request 2 "k" (11 * Second); Advance 2 0 Answered; Advance 1 0 Answered; Advance 2 0 Answered;
   Advance 1 0 Answered; Advance 2 0 Answered].

Lemma pg_exclusive_witness :
  ∃ S, run testStore false (Sys 0 ∅ ∅) takeover = Some S ∧ runs S 0 "k" (10 * Second) ∧
       holds S 1 "k" ∧ ∀ p, holds S p "k" → p = 1%nat.
Proof.
  destruct (run testStore false (Sys 0 ∅ ∅) takeover) as [S|] eqn:E; [|by vm_compute in E].
  exists S. split; [done|].
  assert (H1 : holds S 1 "k").
  { vm_compute in E. injection E as <-. exists (21 * Second). by vm_compute. }
  split_and!.
  - vm_compute in E. injection E as <-. by vm_compute.
  - done.
  - intros p Hp. exact (proj1 (proj1 pg_exclusive testStore 0 takeover S ltac:(by vm_compute) E) p 1%nat "k" Hp H1).
Defined.

(** A call of Lock that nobody interleaves with returns after at most four
    statements with what the key's row decides (a new or expired key and a lapsed lease
    are taken, everything else is reported with its record); after Save the response is reported back
    unchanged, headers and body included, until the response TTL has passed,
    and from then on the key can be taken again. A Save that finds no row, its
    lock having been released by somebody else, reports success and stores
    nothing. *)
Lemma pg_replay s key now t : key ≠ "" →
  Lock s key now t = Some (lockSpec s key now t) ∧
  (∀ resp r, t !! key = Some r →
     let '(ok, t1) := Save s t key resp now Answered in
     ok = true ∧ (Unlock t1 key Answered).2 = t1 ∧
     ∀ later, Lock s key later t1 =
       if later <=? expiryOf s now then Some (Exists (mkRecord StatusCompleted (Some resp)), t1)
       else Some (Acquired, <[key := Row StatusInProgress None None [] (leaseOf s later) (expiryOf s later)]> t1)) ∧
  (∀ resp, t !! key = None → Save s t key resp now Answered = (true, t)).
Proof.
  intros Hk. split_and!; [by apply Lock_spec| |].
  - intros resp r Er. unfold Save, Unlock. rewrite !bool_decide_false by done. rewrite Er. cbn -[Lock].
    rewrite lookup_insert_eq. cbn -[Lock]. split_and!; [done..|]. intros later.
    rewrite Lock_spec by done. unfold lockSpec. rewrite lookup_insert_eq. cbn.
    destruct (Z.ltb_spec (expiryOf s now) later), (Z.leb_spec later (expiryOf s now)); try lia; [done|].
    cbn. by destruct resp as [code [h|] b].
  - intros resp E. unfold Save. rewrite bool_decide_false by done. by rewrite E.
Qed.

Lemma pg_replay_witness :
  let t := {["k" := Row StatusInProgress None None [] (10 * Second) (20 * Second)]} in
  let t1 := (Save testStore t "k" paid (5 * Second) Answered).2 in
  "k" ≠ "" ∧ Lock testStore "k" (25 * Second) t1 = Some (Exists (mkRecord StatusCompleted (Some paid)), t1).
Proof.
  intros t t1. split; [done|].
  pose proof (proj1 (proj2 (pg_replay testStore "k" (5 * Second) t ltac:(done))) paid _ eq_refl) as H.
  change (Save testStore t "k" paid (5 * Second) Answered) with (true, t1) in H.
  destruct H as (_ & _ & H). rewrite (H (25 * Second)). reflexivity.
Defined.
