(* ===== verification/GinIdempotency.v ===== *)
(** The gin idempotency middleware (ginmw/idempotency.go), over the in-memory
    store: what it does when a request arrives and when its handlers are done. *)
From S2P Require Import Prelude Text Idempotency.




Section gin.
Context `{MapOrder}.
Implicit Types s : MemoryStore.









End gin.

