(* ===== verification/Recorder.v ===== *)
(** The response recorder of the idempotency middleware
    (idempotency/middleware.go, [responseRecorder]) over the response writer of
    net/http: what is stored for a key against what the client received. *)
From S2P Require Import Prelude Text Idempotency.

Definition header := gmap string (list string).

(** ** net/http's ResponseWriter *)

(** The header map of the handler, the status line and headers once they are
    sent, and the body sent. *)
Record ResponseWriter := Writer {
  w_header : header;
  w_sent : option (Z * header);
  w_body : list Byte.byte;
}.

(** Informational codes do not end the header; any other code is sent once,
    later ones are superfluous and ignored. *)
Definition informational (code : Z) : bool := (100 <=? code) && (code <=? 199) && negb (code =? 101).

Definition w_WriteHeader (w : ResponseWriter) (code : Z) : ResponseWriter :=
  match w_sent w with
  | Some _ => w
  | None => if informational code then w else Writer (w_header w) (Some (code, w_header w)) (w_body w)
  end.

(** A status without a body refuses to write one. *)
Definition bodyAllowed (code : Z) : bool :=
  negb ((100 <=? code) && (code <=? 199)) && negb (code =? 204) && negb (code =? 304).

Arguments informational : simpl never.
Arguments bodyAllowed : simpl never.

(** The first write sends the header with status 200. *)
Definition w_Write (w : ResponseWriter) (b : list Byte.byte) : ResponseWriter :=
  let w1 := match w_sent w with Some _ => w | None => w_WriteHeader w 200 end in
  if from_option (λ s, bodyAllowed s.1) false (w_sent w1)
  then Writer (w_header w1) (w_sent w1) (w_body w1 ++ b) else w1.

(** The end of the handler sends the header if nothing has. *)
Definition w_Finish (w : ResponseWriter) : ResponseWriter :=
  match w_sent w with Some _ => w | None => w_WriteHeader w 200 end.

(** ** The recorder *)

Record responseRecorder := Recorder {
  ResponseWriter_ : ResponseWriter;
  statusCode : Z;
  body : list Byte.byte;
}.

Definition newRecorder (w : ResponseWriter) : responseRecorder := Recorder w 200 [].

Definition WriteHeader (rw : responseRecorder) (code : Z) : responseRecorder :=
  Recorder (w_WriteHeader (ResponseWriter_ rw) code) code (body rw).

Definition Write (rw : responseRecorder) (b : list Byte.byte) : responseRecorder :=
  Recorder (w_Write (ResponseWriter_ rw) b) (statusCode rw) (body rw ++ b).

(** The promoted [Header] method, used to set a header. *)
Definition SetHeader (rw : responseRecorder) (k : string) (vs : list string) : responseRecorder :=
  let w := ResponseWriter_ rw in
  Recorder (Writer (<[k := vs]> (w_header w)) (w_sent w) (w_body w)) (statusCode rw) (body rw).

(** What a handler does with the writer it is given. *)
Inductive act :=
| DoSetHeader (k : string) (vs : list string)
| DoWriteHeader (code : Z)
| DoWrite (b : list Byte.byte).

Definition perform (rw : responseRecorder) (a : act) : responseRecorder :=
  match a with
  | DoSetHeader k vs => SetHeader rw k vs
  | DoWriteHeader code => WriteHeader rw code
  | DoWrite b => Write rw b
  end.

(** [next.ServeHTTP(rec, r)] on a fresh writer. *)
Definition serve (acts : list act) : responseRecorder := foldl perform (newRecorder (Writer ∅ None [])) acts.

(** The [Response] the middleware hands to [Save] ... *)
Definition recorded (rw : responseRecorder) : Response :=
  mkResponse (statusCode rw) (Some (w_header (ResponseWriter_ rw))) (body rw).

(** ... and what the client receives. *)
Definition received (rw : responseRecorder) : Response :=
  let w := w_Finish (ResponseWriter_ rw) in
  mkResponse (from_option fst 200 (w_sent w)) (snd <$> w_sent w) (w_body w).

(** ** When they agree *)

(** Headers first, then at most one status code, final and with a body only
    when it may have one, then the body. *)
Definition ordinary (hs : list (string * list string)) (code : option Z) (bs : list (list Byte.byte))
    : list act :=
  ((λ h, DoSetHeader h.1 h.2) <$> hs) ++ (DoWriteHeader <$> option_list code) ++ (DoWrite <$> bs).

Lemma serve_headers rw hs :
  foldl perform rw ((λ h, DoSetHeader h.1 h.2) <$> hs) =
  Recorder (Writer (foldl (λ m h, <[h.1 := h.2]> m) (w_header (ResponseWriter_ rw)) hs)
                   (w_sent (ResponseWriter_ rw)) (w_body (ResponseWriter_ rw)))
           (statusCode rw) (body rw).
Proof.
  revert rw. induction hs as [|h hs IH]; intros rw; simpl; [by destruct rw as [[] ]|]. by rewrite IH.
Qed.

(** Writing the body after the header is out. *)
Lemma serve_body rw bs h code :
  w_sent (ResponseWriter_ rw) = Some (code, h) → bodyAllowed code = true →
  foldl perform rw (DoWrite <$> bs) =
  Recorder (Writer (w_header (ResponseWriter_ rw)) (Some (code, h)) (w_body (ResponseWriter_ rw) ++ concat bs))
           (statusCode rw) (body rw ++ concat bs).
Proof.
  intros Hs Hb. revert rw Hs. induction bs as [|b bs IH]; intros rw Hs; simpl.
  - rewrite !app_nil_r. destruct rw as [[] ]. simpl in *. by rewrite Hs.
  - assert (Write rw b = Recorder (Writer (w_header (ResponseWriter_ rw)) (Some (code, h))
      (w_body (ResponseWriter_ rw) ++ b)) (statusCode rw) (body rw ++ b)) as ->.
    { unfold Write, w_Write. rewrite Hs. cbv zeta. rewrite Hs. simpl. by rewrite Hb. }
    rewrite IH by done. simpl. by rewrite <-!app_assoc.
Qed.

Lemma ordinary_exact hs code bs :
  from_option (λ c, informational c = false ∧ (bs ≠ [] → bodyAllowed c = true)) True code →
  recorded (serve (ordinary hs code bs)) = received (serve (ordinary hs code bs)).
Proof.
  intros Hc. unfold serve, ordinary. rewrite !foldl_app, serve_headers. simpl.
  generalize (foldl (λ (m : header) h, <[h.1:=h.2]> m) ∅ hs). intros m. destruct code as [c|]; simpl in *.
  - destruct Hc as [Hi Hb]. unfold WriteHeader, w_WriteHeader. simpl. rewrite Hi.
    destruct bs as [|b bs]; [done|]. erewrite serve_body; [done|done|by apply Hb].
  - destruct bs as [|b bs]; [done|]. cbn [fmap list_fmap foldl perform].
    by erewrite serve_body.
Qed.

(** A handler that sets its headers, then at most one final status code,
    then writes its body has the response recorded for its key that the client
    received: status, headers and body. A handler that writes and then calls
    [WriteHeader] does not: the client has its 200, the recorder remembers the
    500, so the lock is released and a retry of the request runs the handler
    again. *)
Lemma recorder_exact :
  (∀ hs code bs,
    from_option (λ c, informational c = false ∧ (bs ≠ [] → bodyAllowed c = true)) True code →
    recorded (serve (ordinary hs code bs)) = received (serve (ordinary hs code bs))) ∧
  (∀ b t1 t2 t3, let rw := serve [DoWrite b; DoWriteHeader 500] in
    let s1 := (@arrive mapOrder defaultOptions (NewMemoryStore []) ∅ "POST" (λ _, "k") None t1).2 in
    let s2 := @finish mapOrder defaultOptions s1 "k" (Wrote (recorded rw)) None t2 in
    StatusCode (received rw) = 200 ∧ Body (received rw) = b ∧
    (@arrive mapOrder defaultOptions s2 ∅ "POST" (λ _, "k") None t3).1 = Run "k").
Proof. split; [apply ordinary_exact|intros; split_and!; reflexivity]. Qed.

Lemma recorder_exact_witness :
  let acts := ordinary [("Location", ["/orders/7"])] (Some 201) [[Byte.x6f; Byte.x6b]] in
  recorded (serve acts) = received (serve acts).
Proof. simpl. apply (proj1 recorder_exact [_] (Some 201) [_]). simpl. done. Defined.
