(* ===== verification/Web.v ===== *)
(** The net/http middlewares around a handler: request identifiers
    (requestid/requestid.go), access logs (logger/middleware.go) and panic
    recovery (recovery/recovery.go), over the response writer of Recorder. *)
From S2P Require Import Prelude Text Base64 Float64 Idempotency Recorder.

(** ** Request identifiers *)

(** The bytes a-z, A-Z, 0-9, '-', '_', '.', ':' and '/'. *)
Definition safeByte (a : Ascii.ascii) : bool :=
  let b := byteOf a in
  ((97 <=? b) && (b <=? 122)) || ((65 <=? b) && (b <=? 90)) || ((48 <=? b) && (b <=? 57)) ||
  (b =? 45) || (b =? 95) || (b =? 46) || (b =? 58) || (b =? 47).

Definition len (s : string) : Z := Z.of_nat (String.length s).

Definition isValidRequestID (id : string) : bool :=
  if (len id <? 1) || (128 <? len id) then false else allChars safeByte id.

(** [requestid.Middleware]: the identifier it puts in the context and in the
    response header; [uuid] is [uuid.New().String()]. *)
Definition requestID (header uuid : string) : string := if isValidRequestID header then header else uuid.

(** ** Access logs *)

Definition isAllowedCorrelationHeader (h : string) : bool :=
  bool_decide (ToLower (TrimSpace h) ∈ ["x-request-id"; "x-correlation-id"; "x-trace-id"; "request-id"; "traceparent"]).

(** [raw[:n]]. *)
Fixpoint takeString (n : nat) (s : string) : string :=
  match n, s with S n', String a s' => String a (takeString n' s') | _, _ => EmptyString end.

(** [redactHeaderForLogging]. *)
Definition redactHeaderForLogging (raw : string) : string :=
  let raw := if 128 <? len raw then takeString 128 raw else raw in
  if allChars safeByte raw then raw else "".

(** [statusRecorder]; a write that the writer refuses counts no bytes. *)
Record statusRecorder := mkSR { sr_writer : ResponseWriter; sr_statusCode : Z; sr_bytesWritten : Z }.

Definition sr_WriteHeader (r : statusRecorder) (code : Z) : statusRecorder :=
  mkSR (w_WriteHeader (sr_writer r) code) code (sr_bytesWritten r).
Definition sr_Write (r : statusRecorder) (b : list Byte.byte) : statusRecorder :=
  let w := w_Write (sr_writer r) b in
  let n := Z.of_nat (length (w_body w)) - Z.of_nat (length (w_body (sr_writer r))) in
  mkSR w (sr_statusCode r) (sr_bytesWritten r + n).

Definition sr_perform (r : statusRecorder) (a : act) : statusRecorder :=
  match a with
  | DoSetHeader k vs =>
      let w := sr_writer r in
      mkSR (Writer (<[k := vs]> (w_header w)) (w_sent w) (w_body w)) (sr_statusCode r) (sr_bytesWritten r)
  | DoWriteHeader code => sr_WriteHeader r code
  | DoWrite b => sr_Write r b
  end.

Definition LevelInfo : Z := 0.
Definition LevelWarn : Z := 4.
Definition LevelError : Z := 8.

(** A line of the log; [al_requestIDs] are its request_id attributes, that of the
    logger in the context and that of the line itself. *)
Record accessLog := mkAccess {
  al_level : Z; al_method : string; al_path : string; al_status : Z; al_durationMs : float64; al_bytes : Z;
  al_remote : string; al_requestIDs : list string; al_extra : list (string * string) }.

Record httpRequest := mkRequest { hr_method : string; hr_path : string; hr_remote : string; hr_header : string → string }.

(** How a handler ends. *)
Inductive handlerEnd := Returned | Panics.

(** [logger.Middleware] around a handler, on the writer [w]: the writer it leaves
    and the line it logs, none when the handler panics. The handler takes
    [duration]; [extra] are the attributes of ExtraAttributes. *)
Definition accessMiddleware (idHeader : string) (extra : list (string * string)) (r : httpRequest)
    (w : ResponseWriter) (acts : list act) (duration : Duration) (e : handlerEnd) : ResponseWriter * option accessLog :=
  let reqID := if isAllowedCorrelationHeader idHeader then redactHeaderForLogging (hr_header r idHeader) else "" in
  let rec := foldl sr_perform (mkSR w 200 0) acts in
  let level := if 500 <=? sr_statusCode rec then LevelError
               else if 400 <=? sr_statusCode rec then LevelWarn else LevelInfo in
  (sr_writer rec,
   match e with
   | Panics => None
   | Returned =>
       Some (mkAccess level (hr_method r) (hr_path r) (sr_statusCode rec)
               (fdiv (of_int (Z.quot duration 1000)) (of_int 1000)) (sr_bytesWritten rec) (hr_remote r)
               (if bool_decide (reqID = "") then [] else [reqID; reqID]) extra)
   end).

(** ** Recovery *)

Definition panicBody : list Byte.byte :=
  String.list_byte_of_string
    ("{" +:+ quoted "error" +:+ ":" +:+ quoted "Internal Server Error" +:+ "," +:+ quoted "message" +:+ ":" +:+
     quoted "The server encountered an unexpected condition that prevented it from fulfilling the request." +:+ "}" +:+
     String (Ascii.ascii_of_nat 10) "").

(** [recovery.Middleware], when the handler has panicked. *)
Definition recovered (w : ResponseWriter) : ResponseWriter :=
  let w1 := Writer (<["Content-Type" := ["application/json; charset=utf-8"]]> (w_header w)) (w_sent w) (w_body w) in
  w_Write (w_WriteHeader w1 500) panicBody.

Definition recoveryMiddleware (w : ResponseWriter) (acts : list act) (e : handlerEnd) : ResponseWriter :=
  let w1 := sr_writer (foldl sr_perform (mkSR w 200 0) acts) in
  match e with Panics => recovered w1 | Returned => w1 end.

(** ** What is logged and sent *)

Lemma takeString_all n s p : allChars p s = true → allChars p (takeString n s) = true.
Proof.
  revert n. induction s as [|a s IH]; intros [|n]; cbn; try done.
  intros [Ha Hs]%andb_prop. rewrite Ha. by apply IH.
Qed.

Lemma takeString_length n s : String.length (takeString n s) = Nat.min n (String.length s).
Proof. revert n. induction s as [|a s IH]; intros [|n]; cbn; try done. by rewrite IH. Qed.

Lemma redact_spec raw :
  allChars safeByte (redactHeaderForLogging raw) = true ∧ len (redactHeaderForLogging raw) <= 128 ∧
  (isValidRequestID raw = true → redactHeaderForLogging raw = raw) ∧
  (redactHeaderForLogging raw ≠ "" → len raw <= 128 → redactHeaderForLogging raw = raw ∧ isValidRequestID raw = true).
Proof.
  unfold redactHeaderForLogging, isValidRequestID, len. cbv zeta.
  destruct (Z.ltb_spec 128 (Z.of_nat (String.length raw))) as [Hl|Hl].
  - rewrite orb_true_r. pose proof (takeString_length 128 raw).
    destruct (allChars safeByte (takeString 128 raw)) eqn:E; split_and!; try done; lia.
  - rewrite orb_false_r. destruct (allChars safeByte raw) eqn:E; split_and!; try done.
    + intros Hne _. split; [done|]. destruct raw; [done|]. cbn [String.length].
      by rewrite (proj2 (Z.ltb_ge _ 1)) by lia.
    + by destruct (_ <? 1).
Qed.

(** The recorder counts the bytes of the body. *)
Lemma sr_bytes acts w : ∀ r,
  sr_bytesWritten r = Z.of_nat (length (w_body (sr_writer r))) - Z.of_nat (length (w_body w)) →
  let r' := foldl sr_perform r acts in
  sr_bytesWritten r' = Z.of_nat (length (w_body (sr_writer r'))) - Z.of_nat (length (w_body w)).
Proof.
  induction acts as [|a acts IH]; intros r Hr; [done|]. cbn [foldl]. apply IH.
  destruct a; cbn; [done| |lia]. rewrite Hr. unfold w_WriteHeader. by repeat case_match.
Qed.

(** The recorder of the access log agrees with that of the idempotency
    middleware on the writer and the status. *)
Lemma sr_recorder acts : ∀ r rw,
  sr_writer r = ResponseWriter_ rw → sr_statusCode r = statusCode rw →
  sr_writer (foldl sr_perform r acts) = ResponseWriter_ (foldl perform rw acts) ∧
  sr_statusCode (foldl sr_perform r acts) = statusCode (foldl perform rw acts).
Proof.
  induction acts as [|a acts IH]; intros r rw Hw Hs; [done|]. cbn [foldl].
  apply IH; destruct a; cbn; by rewrite ?Hw.
Qed.

(** What the client gets: the status and the body. *)
Definition sentStatus (w : ResponseWriter) : Z := from_option fst 200 (w_sent (w_Finish w)).

Definition fresh : ResponseWriter := Writer ∅ None [].

Lemma ordinary_status hs code bs :
  from_option (λ c, informational c = false ∧ (bs ≠ [] → bodyAllowed c = true)) True code →
  let r := foldl sr_perform (mkSR fresh 200 0) (ordinary hs code bs) in sr_statusCode r = sentStatus (sr_writer r).
Proof.
  intros Hc. cbv zeta. pose proof (ordinary_exact hs code bs Hc) as He. apply (f_equal StatusCode) in He.
  destruct (sr_recorder (ordinary hs code bs) (mkSR fresh 200 0) (newRecorder fresh) eq_refl eq_refl) as [-> ->].
  exact He.
Qed.

(** Request identifiers and access logs. The identifier that requestid puts into the context and the response
    is always 1 to 128 safe bytes (given that generated ones are), and so is
    what the access log takes from the header, so no client can inject into the log; the
    log line has the identifier of the context (twice) when the header was valid, but no
    identifier when it was generated, and a cut one when the header was too long. The bytes logged are those of the body, and
    for a handler that sets headers, at most one final status, then the body,
    the status logged is the one sent; a late WriteHeader(500) is logged as an
    error although the client got 200. A panic is not logged; recovery
    answers it with 500 if nothing was sent before, and otherwise the status stays. *)
Lemma access_log idHeader extra r uuid acts d e :
  isAllowedCorrelationHeader idHeader = true → isValidRequestID uuid = true →
  let raw := hr_header r idHeader in
  let '(w, log) := accessMiddleware idHeader extra r fresh acts d e in
  isValidRequestID (requestID raw uuid) = true ∧
  (∀ l, log = Some l →
     al_bytes l = Z.of_nat (length (w_body w)) ∧
     (∀ id, id ∈ al_requestIDs l → isValidRequestID id = true) ∧
     (isValidRequestID raw = true → al_requestIDs l = [requestID raw uuid; requestID raw uuid]) ∧
     (isValidRequestID raw = false → len raw <= 128 → al_requestIDs l = []) ∧
     (∀ hs code bs, acts = ordinary hs code bs →
        from_option (λ c, informational c = false ∧ (bs ≠ [] → bodyAllowed c = true)) True code →
        al_status l = sentStatus w)) ∧
  (∀ b, let '(w', log') := accessMiddleware idHeader extra r fresh [DoWrite b; DoWriteHeader 500] d Returned in
     sentStatus w' = 200 ∧ (al_status <$> log') = Some 500 ∧ (al_level <$> log') = Some LevelError) ∧
  (e = Panics → log = None ∧ sentStatus (recoveryMiddleware fresh acts Panics) =
     if w_sent w is None then 500 else sentStatus w).
Proof.
  intros Hh Hu. cbv zeta. unfold accessMiddleware. rewrite Hh.
  destruct (redact_spec (hr_header r idHeader)) as (Hsafe & Hlen & Hval & Hback).
  set (raw := hr_header r idHeader) in *. set (rid := redactHeaderForLogging raw) in *.
  pose proof (sr_bytes acts fresh (mkSR fresh 200 0) eq_refl) as Hb. cbv zeta in Hb.
  set (rec := foldl sr_perform (mkSR fresh 200 0) acts) in *.
  assert (Hrid : rid ≠ "" → isValidRequestID rid = true).
  { intros Hne. unfold isValidRequestID. rewrite Hsafe, (proj2 (Z.ltb_ge 128 _)) by done. rewrite orb_false_r.
    destruct rid; [done|]. by rewrite (proj2 (Z.ltb_ge _ 1)) by (unfold len; cbn; lia). }
  split_and!.
  - unfold requestID. by case_match.
  - intros l Hl. destruct e; [|done]. injection Hl as <-. cbn. split_and!.
    + rewrite Hb. cbn. lia.
    + intros id. case_bool_decide as Hid; [by intros []%not_elem_of_nil|]. specialize (Hrid Hid). set_solver.
    + intros Hv. unfold requestID. rewrite Hv, (Hval Hv). rewrite bool_decide_false; [done|].
      intros E. by rewrite E in Hv.
    + intros Hv Hl. rewrite bool_decide_true; [done|]. destruct (decide (rid = "")) as [|Hne]; [done|].
      destruct (Hback Hne Hl). congruence.
    + intros hs code bs -> Hc. by apply ordinary_status.
  - intros b. done.
  - intros ->. split; [done|]. unfold recoveryMiddleware. fold rec. unfold recovered, sentStatus, w_WriteHeader. cbn.
    destruct (w_sent (sr_writer rec)) as [[c h]|] eqn:E; [|done].
    unfold w_Write. cbn. destruct (bodyAllowed c); cbn; unfold w_Finish; cbn; by rewrite ?E.
Qed.

Lemma access_log_witness :
  let r := mkRequest "GET" "/" "1.2.3.4" (λ h, if bool_decide (h = "X-Request-ID") then "req-1" else "") in
  let acts := ordinary [] (Some 404) [[Byte.x6f]] in
  let log := (accessMiddleware "X-Request-ID" [] r fresh acts Second Returned).2 in
  isValidRequestID "req-1" = true ∧ (al_requestIDs <$> log) = Some ["req-1"; "req-1"].
Proof.
  intros r acts log. split; [by vm_compute|].
  pose proof (access_log "X-Request-ID" [] r "u-1" acts Second Returned ltac:(by vm_compute) ltac:(by vm_compute)) as H.
  cbv zeta in H. fold log in H.
  destruct (accessMiddleware "X-Request-ID" [] r fresh acts Second Returned) as [w log1] eqn:E.
  destruct H as (_ & H & _). unfold log. cbn [snd].
  destruct log1 as [l|] eqn:El; [|by vm_compute in E]. destruct (H l eq_refl) as (_ & _ & Hv & _).
  cbn. rewrite Hv by (by vm_compute). by vm_compute.
Defined.
