(* ===== verification/Pipeline.v ===== *)
(** The gin adapters (ginmw/) around the other packages: request identifiers,
    security headers, CORS, recovery, access log, telemetry, error handler,
    metrics and body limits, in a chain whose handlers may panic. *)
From S2P Require Import Prelude Text Base64 Float64 Strconv AppError Cors SecHeaders RedMetrics Idempotency Recorder Web.

(** ** Requests and responses *)

Inductive json :=
| JNull | JBool (b : bool) | JNum (n : Z) | JFloat (f : float64) | JText (s : string)
| JArr (l : list json) | JObj (members : list (string * json)).

Inductive payload := PJson (v : json) | PText (s : string).

Record request := mkReq {
  q_method : string; q_path : string; q_fullPath : string; q_remote : string;
  q_header : string → string; q_query : string → string; q_param : string → string; q_size : Z;
}.

(** gin's writer: the headers, the status (200 until it is set), whether the
    header has been written, and what was written of the body. *)
Record writer := mkWriter {
  w_headers : gmap string (list string); w_status : Z; w_written : bool; w_bodies : list payload }.

Definition newWriter : writer := mkWriter ∅ 200 false [].

(** A status after the header is out is ignored. *)
Definition setStatus (w : writer) (code : Z) : writer :=
  if w_written w then w else mkWriter (w_headers w) code false (w_bodies w).
Definition writeBody (w : writer) (p : payload) : writer := mkWriter (w_headers w) (w_status w) true (w_bodies w ++ [p]).
Definition setHeaders (w : writer) (h : gmap string (list string)) : writer :=
  mkWriter h (w_status w) (w_written w) (w_bodies w).

(** [c.JSON]: the status, the content type unless there is one, and the body. *)
Definition contentType (h : gmap string (list string)) (value : string) : gmap string (list string) :=
  match h !! "Content-Type" with Some (_ :: _) => h | _ => <["Content-Type" := [value]]> h end.
Definition writeJSON (w : writer) (code : Z) (v : json) : writer :=
  writeBody (setHeaders (setStatus w code) (contentType (w_headers w) "application/json; charset=utf-8")) (PJson v).

(** What a panic carries. *)
Inductive panicValue := PanicErr (e : goerr) | PanicVal (text : string).
Definition panicText (p : panicValue) : string := match p with PanicErr e => errorText e | PanicVal t => t end.
Definition panicErr (p : panicValue) : string :=
  match p with PanicErr e => errorText e | PanicVal t => "panic: " +:+ t end.

(** Events of the span of a request. *)
Inductive spanEvent :=
| SpanStart (name : string) | SpanAttr (key value : string) | SpanError (text : string)
| SpanStatus (text : string) | SpanEnd.

(** Lines of the log. *)
Inductive logLine :=
| AccessLine (id method path : string) (status : Z) (ip : string)
| PanicLine (error route path : string)
| ErrorLine (error route : string) (count : Z).

(** The context of a request in a service with the state [W]: the value
    requestid puts into the context, the errors, the limit of the body and
    whether it was drained; the span of the request, and whether it is open. *)
Record ctx (W : Type) := mkCtx {
  c_req : request; c_w : writer; c_reqID : string; c_errors : list goerr; c_aborted : bool;
  c_limit : option Z; c_drained : bool; c_span : option bool; c_events : list spanEvent; c_log : list logLine; c_world : W;
}.
Arguments mkCtx {W} _ _ _ _ _ _ _ _ _ _ _.
Arguments c_req {W} _.
Arguments c_w {W} _.
Arguments c_reqID {W} _.
Arguments c_errors {W} _.
Arguments c_aborted {W} _.
Arguments c_limit {W} _.
Arguments c_drained {W} _.
Arguments c_span {W} _.
Arguments c_events {W} _.
Arguments c_log {W} _.
Arguments c_world {W} _.

Definition newCtx {W} (r : request) (w : W) : ctx W := mkCtx r newWriter "" [] false None false None [] [] w.

Section context.
Context {W : Type}.
Implicit Types c : ctx W.

Definition setW c w := mkCtx (c_req c) w (c_reqID c) (c_errors c) (c_aborted c) (c_limit c) (c_drained c) (c_span c) (c_events c) (c_log c) (c_world c).
Definition setReqID c id := mkCtx (c_req c) (c_w c) id (c_errors c) (c_aborted c) (c_limit c) (c_drained c) (c_span c) (c_events c) (c_log c) (c_world c).
Definition abort c := mkCtx (c_req c) (c_w c) (c_reqID c) (c_errors c) true (c_limit c) (c_drained c) (c_span c) (c_events c) (c_log c) (c_world c).
Definition setLimit c l := mkCtx (c_req c) (c_w c) (c_reqID c) (c_errors c) (c_aborted c) l (c_drained c) (c_span c) (c_events c) (c_log c) (c_world c).
Definition drain c := mkCtx (c_req c) (c_w c) (c_reqID c) (c_errors c) (c_aborted c) (c_limit c) true (c_span c) (c_events c) (c_log c) (c_world c).
Definition setSpan c sp evs := mkCtx (c_req c) (c_w c) (c_reqID c) (c_errors c) (c_aborted c) (c_limit c) (c_drained c) sp evs (c_log c) (c_world c).
Definition logged c l := mkCtx (c_req c) (c_w c) (c_reqID c) (c_errors c) (c_aborted c) (c_limit c) (c_drained c) (c_span c) (c_events c) (c_log c ++ [l]) (c_world c).
Definition setWorld c (w : W) : ctx W := mkCtx (c_req c) (c_w c) (c_reqID c) (c_errors c) (c_aborted c) (c_limit c) (c_drained c) (c_span c) (c_events c) (c_log c) w.
Definition addError c e := mkCtx (c_req c) (c_w c) (c_reqID c) (c_errors c ++ [e]) (c_aborted c) (c_limit c) (c_drained c) (c_span c) (c_events c) (c_log c) (c_world c).

(** An event is recorded while the span is open. *)
Definition record c (evs : list spanEvent) : ctx W :=
  match c_span c with Some true => setSpan c (Some true) (c_events c ++ evs) | _ => c end.

Definition reply c (code : Z) (v : json) : ctx W := setW c (writeJSON (c_w c) code v).
Definition AbortWithStatusJSON c (code : Z) (v : json) : ctx W := reply (abort c) code v.
End context.

(** ** Chains *)

Inductive result (W : Type) := Done (c : ctx W) | Panicking (c : ctx W) (p : panicValue).
Arguments Done {W} _.
Arguments Panicking {W} _ _.

(** A handler returns or panics without calling [Next]; or it calls [Next], and
    has something to do when that returns, and deferred functions for when it
    panics. *)
Inductive stage (W : Type) :=
| Returns (c : ctx W)
| Panics (c : ctx W) (p : panicValue)
| Nexts (c : ctx W) (after : ctx W → result W) (onPanic : ctx W → panicValue → result W).
Arguments Returns {W} _.
Arguments Panics {W} _ _.
Arguments Nexts {W} _ _ _.

Definition handler (W : Type) := ctx W → stage W.

(** What gin documents of a chain of handlers, with Go's panics: a panic in a
    pending handler comes out of [Next]. *)
Class Engine := {
  serve : ∀ {W}, list (handler W) → ctx W → result W;
  serve_nil : ∀ W (c : ctx W), serve [] c = Done c;
  serve_returns : ∀ W (h : handler W) hs c c', h c = Returns c' →
    serve (h :: hs) c = if c_aborted c' then Done c' else serve hs c';
  serve_panics : ∀ W (h : handler W) hs c c' p, h c = Panics c' p → serve (h :: hs) c = Panicking c' p;
  serve_nexts : ∀ W (h : handler W) hs c c' after onPanic, h c = Nexts c' after onPanic →
    serve (h :: hs) c =
    match (if c_aborted c' then Done c' else serve hs c') with
    | Done c1 => after c1
    | Panicking c1 p => onPanic c1 p
    end;
}.

Fixpoint serveAll {W} (hs : list (handler W)) (c : ctx W) : result W :=
  match hs with
  | [] => Done c
  | h :: hs' =>
      match h c with
      | Returns c' => if c_aborted c' then Done c' else serveAll hs' c'
      | Panics c' p => Panicking c' p
      | Nexts c' after onPanic =>
          match (if c_aborted c' then Done c' else serveAll hs' c') with
          | Done c1 => after c1
          | Panicking c1 p => onPanic c1 p
          end
      end
  end.

Program Definition chainEngine : Engine := {| serve := @serveAll |}.
Next Obligation. done. Qed.
Next Obligation. intros W h hs c c' E. cbn. by rewrite E. Qed.
Next Obligation. intros W h hs c c' p E. cbn. by rewrite E. Qed.
Next Obligation. intros W h hs c c' after onPanic E. cbn. by rewrite E. Qed.

(** The laws determine the chain. *)
Lemma serve_all `{Engine} W (hs : list (handler W)) c : serve hs c = serveAll hs c.
Proof.
  revert c. induction hs as [|h hs IH]; intros c; [apply serve_nil|]. cbn. destruct (h c) as [c'|c' p|c' after onPanic] eqn:E.
  - by rewrite (serve_returns _ _ _ _ _ E), IH.
  - by rewrite (serve_panics _ _ _ _ _ _ E).
  - by rewrite (serve_nexts _ _ _ _ _ _ _ E), IH.
Qed.

(** A handler that calls [Next] and does nothing else, or something after it. *)
Definition goOn {W} (c : ctx W) : stage W := Nexts c Done Panicking.
Definition goOnThen {W} (c : ctx W) (after : ctx W → ctx W) : stage W := Nexts c (λ c, Done (after c)) Panicking.

(** ** The adapters *)

Section adapters.
Context {W : Type}.
Implicit Types c : ctx W.

(** ginmw/requestid.go; [uuid] is the identifier that is made up. *)
Definition RequestID (uuid : string) : handler W := λ c,
  let id := requestID (q_header (c_req c) "X-Request-ID") uuid in
  goOn (setReqID (setW c (setHeaders (c_w c) (<["X-Request-ID" := [id]]> (w_headers (c_w c))))) id).
Definition GetRequestID c : string := c_reqID c.

(** ginmw/security.go: the wrapped net/http handler sets the headers and
    returns. *)
Definition SecurityHeaders (serverName : list string) : handler W := λ c,
  let name := match serverName with n :: _ => if bool_decide (n = "") then "api" else n | [] => "api" end in
  Returns (setW c (setHeaders (c_w c) (New [WithServerName name] (w_headers (c_w c))))).

(** ginmw/cors.go. *)
Definition CORS (allowedOrigins : list string) : handler W := λ c,
  let '(h, answered) := ginCORS allowedOrigins (q_header (c_req c) "Origin") (q_method (c_req c)) (w_headers (c_w c)) in
  let c1 := setW c (setHeaders (c_w c) h) in
  if answered then Returns (abort (setW c1 (let w := setStatus (c_w c1) 204 in mkWriter (w_headers w) (w_status w) true (w_bodies w))))
  else goOn c1.

(** ginmw/telemetry.go. *)
Definition RouteLabel c : string :=
  if bool_decide (q_fullPath (c_req c) = "") then "unmatched" else q_fullPath (c_req c).

(** [Errors.String()] by the texts of the errors. *)
Definition errorsString (es : list goerr) : string := JoinWith (errorText <$> es) newline.

(** [http.StatusText] of the server errors, and the error recorded for them. *)
Definition serverStatusText (code : Z) : string :=
  match code with
  | 500 => "Internal Server Error" | 501 => "Not Implemented" | 502 => "Bad Gateway"
  | 503 => "Service Unavailable" | 504 => "Gateway Timeout" | 505 => "HTTP Version Not Supported"
  | 506 => "Variant Also Negotiates" | 507 => "Insufficient Storage" | 508 => "Loop Detected"
  | 510 => "Not Extended" | 511 => "Network Authentication Required" | _ => ""
  end%Z.
Definition httpErrorText (code : Z) : string := "HTTP " +:+ Itoa code +:+ ": " +:+ serverStatusText code.

(** [Telemetry]; [carrier] are the headers the propagator injects. *)
Definition startSpan (carrier : list (string * string)) c : ctx W :=
  let route := RouteLabel c in
  let c1 := setSpan c (Some true) (c_events c ++ [SpanStart route]) in
  let c2 := setW c1 (setHeaders (c_w c1) (setAll (w_headers (c_w c1)) carrier)) in
  record c2 [SpanAttr "http.route" route; SpanAttr "http.method" (q_method (c_req c))].
Definition Telemetry (carrier : list (string * string)) : handler W := λ c,
  let ended c := match c_span c with Some true => setSpan c (Some false) (c_events c ++ [SpanEnd]) | _ => c end in
  Nexts (startSpan carrier c)
    (λ c, let status := w_status (c_w c) in
       let c := record c [SpanAttr "http.status_code" (Itoa status)] in
       let c := match c_errors c with
                | [] => if 500 <=? status
                        then record c [SpanStatus ("HTTP " +:+ Itoa status); SpanError (httpErrorText status)]
                        else c
                | es => record c (SpanStatus (errorsString es) :: (SpanError <$> (errorText <$> es)))
                end in
       Done (ended c))
    (λ c p, Panicking (ended (record c [SpanStatus ("panic: " +:+ panicText p); SpanError (panicErr p)])) p).

(** ginmw/recovery.go. *)
Definition panicReply : json :=
  JObj [("error", JText "Internal Server Error");
        ("message", JText "The server encountered an unexpected condition that prevented it from fulfilling the request.")].

Definition recoverPanic c (p : panicValue) : ctx W :=
  let route := RouteLabel c in
  let c1 := record c [SpanStatus ("panic: " +:+ panicText p); SpanError (panicErr p);
                      SpanAttr "http.route" route; SpanAttr "http.status_code" "500"] in
  AbortWithStatusJSON (logged c1 (PanicLine (panicErr p) route (q_path (c_req c)))) 500 panicReply.

Definition Recovery : handler W := λ c, Nexts c Done (λ c p, Done (recoverPanic c p)).

(** ginmw/logger.go; no middleware sets the key request_id, so the identifier
    is that of the context. *)
Definition Logger : handler W := λ c,
  goOnThen c (λ c, logged c (AccessLine (c_reqID c) (q_method (c_req c)) (q_path (c_req c)) (w_status (c_w c)) (q_remote (c_req c)))).

(** ginmw/error_handler.go; [withLogger] when a logger is configured. *)
Definition ErrResponseJSON (e : ErrResponse) : json :=
  JObj (("error", JText (EError e)) :: (if bool_decide (ECode e = "") then [] else [("code", JText (ECode e))])).

(** [httputil.WriteJSON] on gin's writer. *)
Definition httpReplyTo (w : writer) (r : httpReply) : writer :=
  writeBody (setStatus (setHeaders w (setAll (w_headers w) (rHeaders r))) (rStatus r)) (PJson (ErrResponseJSON (rBody r))).

Definition handleErrors (withLogger : bool) c : ctx W :=
  match last (c_errors c) with
  | None => c
  | Some lastErr =>
      let route := RouteLabel c in
      let c1 := record c (SpanStatus (errorText lastErr) :: (SpanError <$> (errorText <$> c_errors c)) ++ [SpanAttr "http.route" route]) in
      let c2 := if withLogger then logged c1 (ErrorLine (errorText lastErr) route (Z.of_nat (length (c_errors c)))) else c1 in
      let c3 := if w_written (c_w c2) then c2 else abort (setW c2 (httpReplyTo (c_w c2) (ErrorFromDomain lastErr))) in
      record c3 [SpanAttr "http.status_code" (Itoa (w_status (c_w c3)))]
  end.

Definition ErrorHandler (withLogger : bool) : handler W := λ c, goOnThen c (handleErrors withLogger).

(** ginmw/red_metrics.go, on the tracker of the service; [duration] is the time
    the request takes, in milliseconds. *)
Definition track (update : (MetricsTracker → MetricsTracker) → W → W) ops c : ctx W :=
  setWorld c (update (λ t, runOps t ops) (c_world c)).
Definition REDMetrics (update : (MetricsTracker → MetricsTracker) → W → W) (duration : Z) : handler W := λ c,
  let deferred c := track update (afterOps (w_status (c_w c)) duration) c in
  Nexts (track update beforeOps c) (λ c, Done (deferred c)) (λ c p, Panicking (deferred c) p).

(** ginmw/bodylimit.go. *)
Definition LimitBodyDefault : handler W := λ c,
  goOnThen (setLimit c (MaxBytesReader (c_limit c) (Z.shiftl 2 20))) drain.
Definition LimitBodyAuth : handler W := λ c, goOn (setLimit c (MaxBytesReader (c_limit c) (Z.shiftl 4 10))).

(** ginmw/response.go. *)
Definition envelope (success : bool) (rest : list (string * json)) : json := JObj (("success", JBool success) :: rest).
Definition dataMember (data : json) : list (string * json) := match data with JNull => [] | _ => [("data", data)] end.
Definition RespondSuccess c (data : json) : ctx W := reply c 200 (envelope true (dataMember data)).
Definition RespondCreated c (data : json) : ctx W := reply c 201 (envelope true (dataMember data)).
Definition RespondError c (status : Z) (code message : string) : ctx W :=
  AbortWithStatusJSON c status (envelope false [("error", JObj [("code", JText code); ("message", JText message)])]).
Definition RespondErrorWithDetail c (status : Z) (code message detail : string) : ctx W :=
  AbortWithStatusJSON c status (envelope false [("error",
    JObj ([("code", JText code); ("message", JText message)] ++
          if bool_decide (detail = "") then [] else [("detail", JText detail)]))]).
End adapters.

(** ** Panics and errors in a chain *)

Section chains.
Context `{Engine} {W : Type}.
Implicit Types (c : ctx W) (hs : list (handler W)).

Lemma serve_goOnThen (h : handler W) hs c c' after :
  h c = goOnThen c' after → c_aborted c' = false →
  serve (h :: hs) c = match serve hs c' with Done c1 => Done (after c1) | Panicking c1 p => Panicking c1 p end.
Proof. intros E Ha. by rewrite (serve_nexts _ _ _ _ _ _ _ E), Ha. Qed.

Lemma serve_Recovery hs c : c_aborted c = false →
  serve (Recovery :: hs) c = Done (match serve hs c with Done c1 => c1 | Panicking c1 p => recoverPanic c1 p end).
Proof. intros Ha. rewrite (serve_nexts _ _ _ c c _ _ eq_refl), Ha. by destruct (serve hs c). Qed.

Lemma serve_REDMetrics update d hs c : c_aborted c = false →
  serve (REDMetrics update d :: hs) c =
  match serve hs (track update beforeOps c) with
  | Done c1 => Done (track update (afterOps (w_status (c_w c1)) d) c1)
  | Panicking c1 p => Panicking (track update (afterOps (w_status (c_w c1)) d) c1) p
  end.
Proof. intros Ha. rewrite (serve_nexts _ (REDMetrics update d) _ c _ _ _ eq_refl). cbn [track setWorld c_aborted]. by rewrite Ha. Qed.

Lemma startSpan_aborted cr c : c_aborted (startSpan cr c) = c_aborted c.
Proof. done. Qed.

(** A panic under a span that is open. *)
Lemma serve_Telemetry_panic cr hs c c1 p : c_aborted c = false →
  serve hs (startSpan cr c) = Panicking c1 p → c_span c1 = Some true →
  ∃ c', serve (Telemetry cr :: hs) c = Panicking c' p ∧ c_w c' = c_w c1 ∧ c_span c' = Some false ∧
    c_events c' = c_events c1 ++ [SpanStatus ("panic: " +:+ panicText p); SpanError (panicErr p); SpanEnd].
Proof.
  intros Ha E Hs. rewrite (serve_nexts _ (Telemetry cr) _ c _ _ _ eq_refl), startSpan_aborted, Ha, E. unfold record. rewrite Hs. cbn.
  eexists. split; [done|]. cbn. by rewrite <-app_assoc.
Qed.

(** A request that returns under a span that is open. *)
Lemma serve_Telemetry_done cr hs c c1 : c_aborted c = false →
  serve hs (startSpan cr c) = Done c1 → c_span c1 = Some true →
  ∃ c', serve (Telemetry cr :: hs) c = Done c' ∧ c_w c' = c_w c1 ∧ c_span c' = Some false ∧
    c_events c' = c_events c1 ++ SpanAttr "http.status_code" (Itoa (w_status (c_w c1))) ::
      match c_errors c1 with
      | [] => if 500 <=? w_status (c_w c1)
              then [SpanStatus ("HTTP " +:+ Itoa (w_status (c_w c1))); SpanError (httpErrorText (w_status (c_w c1)))] else []
      | es => SpanStatus (errorsString es) :: (SpanError <$> (errorText <$> es))
      end ++ [SpanEnd].
Proof.
  intros Ha E Hs. rewrite (serve_nexts _ (Telemetry cr) _ c _ _ _ eq_refl), startSpan_aborted, Ha, E. unfold record. rewrite Hs. cbn.
  destruct (c_errors c1) as [|e es]; [destruct (500 <=? w_status (c_w c1))|]; cbn; eexists; (split; [done|]); cbn;
    by rewrite <-!app_assoc.
Qed.

(** The response to a panic. *)
Lemma recoverPanic_spec c p :
  let c' := recoverPanic c p in
  w_status (c_w c') = (if w_written (c_w c) then w_status (c_w c) else 500) ∧
  w_bodies (c_w c') = w_bodies (c_w c) ++ [PJson panicReply] ∧
  c_log c' = c_log c ++ [PanicLine (panicErr p) (RouteLabel c) (q_path (c_req c))] ∧ c_aborted c' = true.
Proof.
  cbv zeta. unfold recoverPanic, AbortWithStatusJSON, reply, record. destruct c as [rq w id es ab lim dr sp evs lg wd].
  cbn [c_span]. destruct sp as [[]|]; cbn; unfold writeJSON, setStatus; destruct (w_written w); done.
Qed.

Lemma recoverPanic_world c p : c_world (recoverPanic c p) = c_world c.
Proof.
  unfold recoverPanic, AbortWithStatusJSON, reply, record. destruct c as [rq w id es ab lim dr sp evs lg wd].
  cbn [c_span]. by destruct sp as [[]|].
Qed.

Lemma handleErrors_spec lg c e : last (c_errors c) = Some e →
  let c' := handleErrors lg c in
  c_errors c' = c_errors c ∧
  if w_written (c_w c) then c_w c' = c_w c
  else w_status (c_w c') = rStatus (ErrorFromDomain e) ∧ c_aborted c' = true ∧
       w_bodies (c_w c') = w_bodies (c_w c) ++ [PJson (ErrResponseJSON (rBody (ErrorFromDomain e)))].
Proof.
  intros E. cbv zeta. unfold handleErrors. rewrite E. cbv zeta. destruct c as [rq w id es ab lim dr sp evs log wd].
  cbn [c_errors] in E. unfold record. cbn [c_span].
  destruct sp as [[]|], lg; cbn; destruct (w_written w) eqn:Ew; cbn; rewrite ?Ew; try done;
    unfold setStatus; cbn; rewrite Ew; done.
Qed.
End chains.

(** C21: Panics and errors in a chain of gin handlers, for every chain and
    context and any engine that keeps what gin
    documents. A chain behind Recovery never panics: a
    panic is answered 500 when nothing was written before, else the first
    status stays, and the error object is added to the body; it is logged. Telemetry, around a chain that leaves its span open, passes on what the
    chain returns or panics with and ends the span, with the status, the errors or the panic on it. ErrorHandler answers the last error with the status and the body
    of its domain reply and aborts if nothing was written, and otherwise
    changes nothing of the response. What depends on the order: when a request panics,
    REDMetrics inside Recovery counts the status that the writer has at the panic, 200 (so a 2xx response and no error) unless one was set, and outside it
    the status that is sent; a Logger inside Recovery writes no access
    line for it, outside it does. *)
Theorem gin_pipeline `{Engine} :
  (∀ W (hs : list (handler W)) (c : ctx W), c_aborted c = false →
     match serve hs c with
     | Done c1 => serve (Recovery :: hs) c = Done c1
     | Panicking c1 p => ∃ c', serve (Recovery :: hs) c = Done c' ∧
         w_status (c_w c') = (if w_written (c_w c1) then w_status (c_w c1) else 500) ∧
         w_bodies (c_w c') = w_bodies (c_w c1) ++ [PJson panicReply] ∧ c_aborted c' = true ∧
         serve (Recovery :: Logger :: hs) c = Done c' ∧
         c_log c' = c_log c1 ++ [PanicLine (panicErr p) (RouteLabel c1) (q_path (c_req c1))] ∧
         (∃ c'', serve (Logger :: Recovery :: hs) c = Done c'' ∧
            c_log c'' = c_log c' ++ [AccessLine (c_reqID c') (q_method (c_req c')) (q_path (c_req c')) (w_status (c_w c')) (q_remote (c_req c'))])
     end) ∧
  (∀ W (hs : list (handler W)) (c : ctx W) lg, c_aborted c = false →
     match serve hs c with
     | Panicking c1 p => serve (ErrorHandler lg :: hs) c = Panicking c1 p
     | Done c1 => ∃ c', serve (ErrorHandler lg :: hs) c = Done c' ∧
         match last (c_errors c1) with
         | None => c' = c1
         | Some e => if w_written (c_w c1) then c_w c' = c_w c1
                     else w_status (c_w c') = rStatus (ErrorFromDomain e) ∧ c_aborted c' = true ∧
                          w_bodies (c_w c') = w_bodies (c_w c1) ++ [PJson (ErrResponseJSON (rBody (ErrorFromDomain e)))]
         end
     end) ∧
  (∀ W update (hs : list (handler W)) (c : ctx W) d, c_aborted c = false →
     let red := REDMetrics update d in
     let count status w := update (λ t, runOps t (afterOps status d)) w in
     match serve hs (track update beforeOps c) with
     | Done c1 => serve (red :: hs) c = Done (setWorld c1 (count (w_status (c_w c1)) (c_world c1)))
     | Panicking c1 p =>
         (∃ c', serve (Recovery :: red :: hs) c = Done c' ∧
            w_status (c_w c') = (if w_written (c_w c1) then w_status (c_w c1) else 500) ∧
            c_world c' = count (w_status (c_w c1)) (c_world c1)) ∧
         (∃ c', serve (red :: Recovery :: hs) c = Done c' ∧
            w_status (c_w c') = (if w_written (c_w c1) then w_status (c_w c1) else 500) ∧
            c_world c' = count (w_status (c_w c')) (c_world c1))
     end) ∧
  (∀ W cr (hs : list (handler W)) (c : ctx W), c_aborted c = false →
     c_events (startSpan cr c) = c_events c ++ [SpanStart (RouteLabel c); SpanAttr "http.route" (RouteLabel c);
                                               SpanAttr "http.method" (q_method (c_req c))] ∧
     match serve hs (startSpan cr c) with
     | Panicking c1 p => c_span c1 = Some true →
         ∃ c', serve (Telemetry cr :: hs) c = Panicking c' p ∧ c_w c' = c_w c1 ∧ c_span c' = Some false ∧
           c_events c' = c_events c1 ++ [SpanStatus ("panic: " +:+ panicText p); SpanError (panicErr p); SpanEnd]
     | Done c1 => c_span c1 = Some true →
         ∃ c', serve (Telemetry cr :: hs) c = Done c' ∧ c_w c' = c_w c1 ∧ c_span c' = Some false ∧
           c_events c' = c_events c1 ++ SpanAttr "http.status_code" (Itoa (w_status (c_w c1))) ::
             match c_errors c1 with
             | [] => if 500 <=? w_status (c_w c1)
                     then [SpanStatus ("HTTP " +:+ Itoa (w_status (c_w c1))); SpanError (httpErrorText (w_status (c_w c1)))] else []
             | es => SpanStatus (errorsString es) :: (SpanError <$> (errorText <$> es))
             end ++ [SpanEnd]
     end).
Proof.
  split_and!.
  - intros W hs c Ha. pose proof (serve_Recovery hs c Ha) as HR.
    destruct (serve hs c) as [c1|c1 p] eqn:E; [exact HR|]. exists (recoverPanic c1 p).
    destruct (recoverPanic_spec c1 p) as (H1 & H2 & H3 & H4). split_and!; try done.
    + rewrite serve_Recovery by done. by rewrite (serve_goOnThen _ _ _ _ _ eq_refl Ha), E.
    + eexists. split; [rewrite (serve_goOnThen _ _ _ _ _ eq_refl Ha), HR; done|done].
  - intros W hs c lg Ha. rewrite (serve_goOnThen _ _ _ _ _ eq_refl Ha).
    destruct (serve hs c) as [c1|c1 p]; [|done]. exists (handleErrors lg c1). split; [done|].
    destruct (last (c_errors c1)) as [e|] eqn:El; [|by unfold handleErrors; rewrite El].
    destruct (handleErrors_spec lg c1 e El) as [_ Hw]. by destruct (w_written (c_w c1)); naive_solver.
  - intros W update hs c d Ha red count. unfold red. destruct (serve hs (track update beforeOps c)) as [c1|c1 p] eqn:E.
    { by rewrite serve_REDMetrics, E. }
    split.
    + rewrite serve_Recovery, serve_REDMetrics, E by done. eexists. split; [done|].
      destruct (recoverPanic_spec (track update (afterOps (w_status (c_w c1)) d) c1) p) as (H1 & _). split; [exact H1|].
      by rewrite recoverPanic_world.
    + rewrite serve_REDMetrics, serve_Recovery, E by done. eexists. split; [done|].
      destruct (recoverPanic_spec c1 p) as (H1 & _). split; [exact H1|]. unfold track. cbn [c_world setWorld c_w].
      by rewrite recoverPanic_world.
  - intros W cr hs c Ha. split; [by cbn; rewrite <-app_assoc|].
    destruct (serve hs (startSpan cr c)) as [c1|c1 p] eqn:E; intros Hs; eauto using serve_Telemetry_done, serve_Telemetry_panic.
Qed.

Lemma gin_pipeline_witness :
  let r := mkReq "GET" "/x" "" "1.2.3.4" (λ _, "") (λ _, "") (λ _, "") 0 in
  let boom : handler unit := λ c, Panics c (PanicVal "boom") in
  ∃ c', @serve chainEngine _ [Recovery; boom] (newCtx r tt) = Done c' ∧ w_status (c_w c') = 500.
Proof.
  intros r boom.
  destruct (proj1 (@gin_pipeline chainEngine) unit [boom] (newCtx r tt) eq_refl) as (c' & H1 & H2 & _).
  exists c'. split; [exact H1|exact H2].
Defined.
