(* ===== verification/WorkerPool.v ===== *)
(** The worker pool (workerpool/workerpool.go) as a transition system: the
    goroutines that submit, the one that stops the pool and the workers, with
    the channel operations and the acquisitions of the read-write lock as
    separate steps. *)
From S2P Require Import Prelude.

(** The submitters that hold the read lock: where they are. [blocking] tells
    [SubmitContext] from [Submit]. *)
Inductive place :=
| Entered      (* the lock is held, nothing has been read *)
| NotClosed    (* isClosed was false *)
| Selecting.   (* closed was not closed: at the final select *)

Record submitter := Submitter { task : nat; blocking : bool; at_ : place }.

(** Where the body of [closeOnce.Do] is. *)
Inductive stopPlace := NotStopped | ClosedSignal | Locked | FlagSet | TasksClosed | Stopped.

#[global] Instance stopPlace_eq_dec : EqDecision stopPlace.
Proof. solve_decision. Defined.

(** [Pool]: [queue] and [queueSize] are the buffer of the channel [tasks],
    [tasksClosed] and [closed] tell which channels are closed, [readers] are
    the holders of the read lock, [writer] the holder of the write lock.
    [accepted], [finished] are the tasks sent and executed, [dropped],
    [completed] and [panics] the counters; [crashed] is a panic of the pool
    itself: a send on a closed channel or a second close. *)
Record Pool := mkPool {
  queueSize : Z;
  queue : list nat;
  tasksClosed : bool;
  closed : bool;
  isClosed : bool;
  readers : list submitter;
  writer : bool;
  stopAt : stopPlace;
  idle : Z;
  running : list nat;
  exited : Z;
  accepted : list nat;
  finished : list nat;
  dropped : Z;
  completed : Z;
  panics : Z;
  crashed : bool;
}.

(** [New]. *)
Definition New (workers queueSize : Z) : Pool :=
  let workers' := if workers <=? 0 then 1 else workers in
  let size' := if queueSize <=? 0 then workers' * 2 else queueSize in
  mkPool size' [] false false false [] false NotStopped workers' [] 0 [] [] 0 0 0 false.

Definition setReaders (p : Pool) rs := mkPool (queueSize p) (queue p) (tasksClosed p) (closed p)
  (isClosed p) rs (writer p) (stopAt p) (idle p) (running p) (exited p) (accepted p) (finished p)
  (dropped p) (completed p) (panics p) (crashed p).
Definition drop_ (p : Pool) := mkPool (queueSize p) (queue p) (tasksClosed p) (closed p)
  (isClosed p) (readers p) (writer p) (stopAt p) (idle p) (running p) (exited p) (accepted p) (finished p)
  (dropped p + 1) (completed p) (panics p) (crashed p).
(** A send on the channel [tasks]: a crash when it is closed. *)
Definition send (p : Pool) (t : nat) :=
  if tasksClosed p
  then mkPool (queueSize p) (queue p) (tasksClosed p) (closed p)
    (isClosed p) (readers p) (writer p) (stopAt p) (idle p) (running p) (exited p) (accepted p) (finished p)
    (dropped p) (completed p) (panics p) true
  else mkPool (queueSize p) (queue p ++ [t]) (tasksClosed p) (closed p)
    (isClosed p) (readers p) (writer p) (stopAt p) (idle p) (running p) (exited p) (t :: accepted p) (finished p)
    (dropped p) (completed p) (panics p) (crashed p).
Definition setStop (p : Pool) s w := mkPool (queueSize p) (queue p) (tasksClosed p) (closed p)
  (isClosed p) (readers p) w s (idle p) (running p) (exited p) (accepted p) (finished p)
  (dropped p) (completed p) (panics p) (crashed p).
Definition setFlags (p : Pool) tc c ic cr := mkPool (queueSize p) (queue p) tc c
  ic (readers p) (writer p) (stopAt p) (idle p) (running p) (exited p) (accepted p) (finished p)
  (dropped p) (completed p) (panics p) cr.
Definition setWorkers (p : Pool) q i r e f c pa := mkPool (queueSize p) q (tasksClosed p) (closed p)
  (isClosed p) (readers p) (writer p) (stopAt p) i r e (accepted p) f
  (dropped p) c pa (crashed p).

(** [Submit] and [SubmitContext], for tasks that are not nil: a caller whose
    context has ended is turned away, any other gets the read lock, ... *)
Inductive enterStep : Pool → Pool → Prop :=
| SubCtxEnded p : enterStep p (drop_ p)
| SubRLock p t b :
    writer p = false → enterStep p (setReaders p (Submitter t b Entered :: readers p)).

(** ... makes the two checks, and comes to the select. *)
Inductive submitStep : Pool → Pool → Prop :=
| SubFlagClosed p rs1 t b rs2 :
    readers p = rs1 ++ Submitter t b Entered :: rs2 → isClosed p = true →
    submitStep p (drop_ (setReaders p (rs1 ++ rs2)))
| SubFlagOpen p rs1 t b rs2 :
    readers p = rs1 ++ Submitter t b Entered :: rs2 → isClosed p = false →
    submitStep p (setReaders p (rs1 ++ Submitter t b NotClosed :: rs2))
| SubSignalClosed p rs1 t b rs2 :
    readers p = rs1 ++ Submitter t b NotClosed :: rs2 → closed p = true →
    submitStep p (drop_ (setReaders p (rs1 ++ rs2)))
| SubSignalOpen p rs1 t b rs2 :
    readers p = rs1 ++ Submitter t b NotClosed :: rs2 → closed p = false →
    submitStep p (setReaders p (rs1 ++ Submitter t b Selecting :: rs2))
| SubSend p rs1 t b rs2 :
    readers p = rs1 ++ Submitter t b Selecting :: rs2 →
    (tasksClosed p = true ∨ Z.of_nat (length (queue p)) < queueSize p) →
    submitStep p (send (setReaders p (rs1 ++ rs2)) t)
| SubFull p rs1 t rs2 :
    readers p = rs1 ++ Submitter t false Selecting :: rs2 →
    queueSize p <= Z.of_nat (length (queue p)) →
    submitStep p (drop_ (setReaders p (rs1 ++ rs2)))
| SubSelectClosed p rs1 t rs2 :
    readers p = rs1 ++ Submitter t true Selecting :: rs2 → closed p = true →
    submitStep p (drop_ (setReaders p (rs1 ++ rs2)))
| SubCtxDone p rs1 t rs2 :
    readers p = rs1 ++ Submitter t true Selecting :: rs2 →
    submitStep p (drop_ (setReaders p (rs1 ++ rs2))).

(** [Stop], whose body [closeOnce] runs once. *)
Inductive stopStep : Pool → Pool → Prop :=
| StopSignal p :
    stopAt p = NotStopped →
    stopStep p (setStop (setFlags p (tasksClosed p) true (isClosed p) (crashed p || closed p)) ClosedSignal (writer p))
| StopLock p :
    stopAt p = ClosedSignal → readers p = [] → writer p = false → stopStep p (setStop p Locked true)
| StopFlag p :
    stopAt p = Locked →
    stopStep p (setStop (setFlags p (tasksClosed p) (closed p) true (crashed p)) FlagSet (writer p))
| StopTasks p :
    stopAt p = FlagSet →
    stopStep p (setStop (setFlags p true (closed p) (isClosed p) (crashed p || tasksClosed p)) TasksClosed (writer p))
| StopUnlock p : stopAt p = TasksClosed → stopStep p (setStop p Stopped false).

(** [worker] and [executeSafely]: receive, run (to its end or to a panic that is
    recovered), leave when the channel is closed and empty. *)
Inductive workerStep : Pool → Pool → Prop :=
| WorkReceive p t q :
    0 < idle p → queue p = t :: q →
    workerStep p (setWorkers p q (idle p - 1) (t :: running p) (exited p) (finished p) (completed p) (panics p))
| WorkDone p rs1 t rs2 :
    running p = rs1 ++ t :: rs2 →
    workerStep p (setWorkers p (queue p) (idle p + 1) (rs1 ++ rs2) (exited p) (t :: finished p) (completed p + 1) (panics p))
| WorkPanic p rs1 t rs2 :
    running p = rs1 ++ t :: rs2 →
    workerStep p (setWorkers p (queue p) (idle p + 1) (rs1 ++ rs2) (exited p) (t :: finished p) (completed p) (panics p + 1))
| WorkExit p :
    0 < idle p → queue p = [] → tasksClosed p = true →
    workerStep p (setWorkers p (queue p) (idle p - 1) (running p) (exited p + 1) (finished p) (completed p) (panics p)).

Definition IsClosed (p : Pool) : bool := if isClosed p then true else closed p.

(** [StopWait] and [Drain] return when [Stop] has and the wait group is at
    zero: all [workers] have left. *)
Definition StopWaitReturns (workers : Z) (p : Pool) : bool :=
  bool_decide (stopAt p = Stopped) && (exited p =? (if workers <=? 0 then 1 else workers)).
Definition DrainReturns : Z → Pool → bool := StopWaitReturns.

Definition ErrPoolClosed : error := ErrNew "workerpool: pool is closed".
Definition ErrQueueFull : error := ErrNew "workerpool: queue full".

(** A whole call of [Submit] during which no other goroutine moves; a nil task
    is [None]. *)
Definition Submit (p : Pool) (t : option nat) : option error * Pool :=
  match t with
  | None => (Some (ErrNew "workerpool: task cannot be nil"), p)
  | Some t =>
      if isClosed p then (Some ErrPoolClosed, drop_ p)
      else if closed p then (Some ErrPoolClosed, drop_ p)
      else if tasksClosed p || (Z.of_nat (length (queue p)) <? queueSize p) then (None, send p t)
      else (Some ErrQueueFull, drop_ p)
  end.

(** A step of a goroutine that is under way, and any step. *)
Definition innerStep (p p' : Pool) : Prop := submitStep p p' ∨ stopStep p p' ∨ workerStep p p'.
Definition step (p p' : Pool) : Prop := enterStep p p' ∨ innerStep p p'.

(** ** Invariant *)

(** What the lock protects, at each point of [Stop]. *)
Definition stopInv (p : Pool) : Prop :=
  match stopAt p with
  | NotStopped => closed p = false ∧ isClosed p = false ∧ tasksClosed p = false ∧ writer p = false
  | ClosedSignal => closed p = true ∧ isClosed p = false ∧ tasksClosed p = false ∧ writer p = false
  | Locked => closed p = true ∧ isClosed p = false ∧ tasksClosed p = false ∧ writer p = true ∧ readers p = []
  | FlagSet => closed p = true ∧ isClosed p = true ∧ tasksClosed p = false ∧ writer p = true ∧ readers p = []
  | TasksClosed => closed p = true ∧ isClosed p = true ∧ tasksClosed p = true ∧ writer p = true ∧ readers p = []
  | Stopped => closed p = true ∧ isClosed p = true ∧ tasksClosed p = true ∧ writer p = false
  end.

Record poolInv (workers : Z) (p : Pool) : Prop := {
  inv_size : 1 <= queueSize p;
  inv_queue : Z.of_nat (length (queue p)) <= queueSize p;
  inv_stop : stopInv p;
  inv_readers : Forall (λ s, at_ s ≠ Entered → isClosed p = false) (readers p);
  inv_crash : crashed p = false;
  inv_tasks : accepted p ≡ₚ queue p ++ running p ++ finished p;
  inv_counts : Z.of_nat (length (finished p)) = completed p + panics p;
  inv_workers : 0 <= idle p ∧ 0 <= exited p ∧ idle p + Z.of_nat (length (running p)) + exited p = workers;
  inv_exited : 0 < exited p → queue p = [] ∧ tasksClosed p = true;
}.

(** Removing or changing one holder of the read lock. *)
Lemma readers_remove (P : submitter → Prop) rs1 s rs2 : Forall P (rs1 ++ s :: rs2) → Forall P (rs1 ++ rs2).
Proof. rewrite !Forall_app, Forall_cons. tauto. Qed.

Lemma readers_replace (P : submitter → Prop) rs1 s s' rs2 :
  Forall P (rs1 ++ s :: rs2) → P s' → Forall P (rs1 ++ s' :: rs2).
Proof. rewrite !Forall_app, !Forall_cons. tauto. Qed.

(** With the read lock held the pool is not between locking and unlocking. *)
Lemma reader_open p s :
  stopInv p → s ∈ readers p → isClosed p = false → tasksClosed p = false ∧ writer p = false.
Proof.
  unfold stopInv. intros Hs Hin Hc. assert (readers p ≠ []).
  { intros E. rewrite E in Hin. by apply elem_of_nil in Hin. }
  destruct (stopAt p); destruct_and?; try congruence; auto.
Qed.

Lemma stopInv_readers p rs :
  stopInv p → (rs = [] ∨ readers p ≠ [] ∨ writer p = false) → stopInv (setReaders p rs).
Proof.
  unfold stopInv. simpl. destruct (stopAt p); intros ?; destruct_and?; intros [?|[?|?]];
    split_and?; congruence.
Qed.

Lemma stopInv_drop p : stopInv (drop_ p) = stopInv p.
Proof. done. Qed.

(** A submitter leaves without sending. *)
Lemma leave_inv w p rs1 s rs2 :
  poolInv w p → readers p = rs1 ++ s :: rs2 → poolInv w (drop_ (setReaders p (rs1 ++ rs2))).
Proof.
  intros [] Hr. split; simpl; try done.
  - rewrite stopInv_drop. apply stopInv_readers; [done|]. right; left. rewrite Hr. by destruct rs1.
  - rewrite Hr in inv_readers0. by eapply readers_remove.
Qed.

(** A submitter goes on. *)
Lemma submitter_advances w p rs1 t b a a' rs2 :
  poolInv w p → readers p = rs1 ++ Submitter t b a :: rs2 → isClosed p = false →
  poolInv w (setReaders p (rs1 ++ Submitter t b a' :: rs2)).
Proof.
  intros [] Hr Hc. split; simpl; try done.
  - apply stopInv_readers; [done|]. right; left. rewrite Hr. by destruct rs1.
  - rewrite Hr in inv_readers0. by eapply readers_replace.
Qed.

Lemma enter_inv w p p' : poolInv w p → enterStep p p' → poolInv w p'.
Proof.
  intros Hinv Hstep. destruct Hstep as [p|p t b Hw]; destruct Hinv; [by split|].
  split; simpl; try done; [by apply stopInv_readers; auto|]. constructor; [|done]. simpl. congruence.
Qed.

Lemma submit_inv w p p' : poolInv w p → submitStep p p' → poolInv w p'.
Proof.
  intros Hinv Hstep. pose proof Hinv as [].
  destruct Hstep as [p rs1 t b rs2 Hr Hc|p rs1 t b rs2 Hr Hc|p rs1 t b rs2 Hr Hc|
    p rs1 t b rs2 Hr Hc|p rs1 t b rs2 Hr Hc|p rs1 t rs2 Hr Hc|p rs1 t rs2 Hr Hc|p rs1 t rs2 Hr];
    try (by eapply leave_inv); try (by eapply submitter_advances).
  - assert (isClosed p = false) as Ho.
    { rewrite Hr, Forall_app, Forall_cons in inv_readers0. by apply inv_readers0. }
    eapply submitter_advances; [done|done|done].
  - assert (isClosed p = false) as Ho.
    { rewrite Hr, Forall_app, Forall_cons in inv_readers0. by apply inv_readers0. }
    destruct (reader_open p (Submitter t b Selecting)) as [Htc _]; [done|rewrite Hr; set_solver|done|].
    destruct Hc as [Hc|Hc]; [congruence|]. unfold send. simpl. rewrite Htc.
    destruct (leave_inv w p rs1 _ rs2 Hinv Hr). split; simpl in *; try done.
    + rewrite length_app. simpl. lia.
    + unfold stopInv in *. simpl in *. by rewrite Htc in inv_stop1.
    + by rewrite inv_tasks0, <-app_assoc, (Permutation_middle (queue p) _ t).
    + intros He. apply inv_exited0 in He. rewrite Htc in He. by destruct He.
Qed.

Lemma stop_inv w p p' : poolInv w p → stopStep p p' → poolInv w p'.
Proof.
  intros [] Hstep. unfold stopInv in *.
  destruct Hstep as [p Hs|p Hs Hr Hw|p Hs|p Hs|p Hs]; rewrite Hs in *; destruct_and?; split; simpl; try done;
    unfold stopInv; simpl; split_and?; try done.
  - by rewrite inv_crash0.
  - by destruct (readers p).
  - by rewrite inv_crash0.
  - naive_solver.
Qed.

Lemma worker_inv w p p' : poolInv w p → workerStep p p' → poolInv w p'.
Proof.
  intros [] Hstep.
  destruct Hstep as [p t q Hi Hq|p rs1 t rs2 Hr|p rs1 t rs2 Hr|p Hi Hq Hc]; split; simpl; try done.
  - rewrite Hq in inv_queue0. simpl in *. lia.
  - rewrite inv_tasks0, Hq. simpl. by rewrite Permutation_middle.
  - lia.
  - intros He. apply inv_exited0 in He as [He _]. congruence.
  - rewrite inv_tasks0, Hr, <-!app_assoc. simpl. by rewrite <-!Permutation_middle.
  - lia.
  - rewrite Hr, length_app in inv_workers0. rewrite length_app. simpl in *. lia.
  - rewrite inv_tasks0, Hr, <-!app_assoc. simpl. by rewrite <-!Permutation_middle.
  - lia.
  - rewrite Hr, length_app in inv_workers0. rewrite length_app. simpl in *. lia.
  - lia.
Qed.

Lemma step_inv w p p' : poolInv w p → step p p' → poolInv w p'.
Proof. intros Hi [H|[H|[H|H]]]; eauto using enter_inv, submit_inv, stop_inv, worker_inv. Qed.

Lemma new_inv workers size :
  poolInv (if workers <=? 0 then 1 else workers) (New workers size).
Proof.
  split; simpl; try done.
  - destruct (size <=? 0) eqn:E1, (workers <=? 0) eqn:E2; bool_to_prop; lia.
  - destruct (size <=? 0) eqn:E1, (workers <=? 0) eqn:E2; bool_to_prop; lia.
  - destruct (workers <=? 0) eqn:E2; bool_to_prop; lia.
Qed.

Lemma reachable_inv workers size p :
  rtc step (New workers size) p → poolInv (if workers <=? 0 then 1 else workers) p.
Proof.
  intros Hsteps. pose proof (new_inv workers size) as Hi. revert Hi.
  induction Hsteps; eauto using step_inv.
Qed.

(** ** Properties *)

(** In every interleaving of submitters, [Stop] and workers the pool never
    sends on a closed channel and never closes one twice, the queue never
    exceeds its capacity, and every accepted task is in exactly one place:
    queued, running or finished. *)
Lemma pool_counts workers size p :
  rtc step (New workers size) p →
  crashed p = false ∧ Z.of_nat (length (queue p)) <= queueSize p ∧
  accepted p ≡ₚ queue p ++ running p ++ finished p ∧
  Z.of_nat (length (finished p)) = completed p + panics p.
Proof. intros []%reachable_inv. done. Qed.

(** The flag is set when the channel is closed. *)
Lemma closed_reported w p : poolInv w p → tasksClosed p = true → IsClosed p = true.
Proof.
  intros [_ _ Hs _ _ _ _ _ _] Hc. unfold stopInv in Hs. unfold IsClosed.
  destruct (stopAt p); destruct_and?; destruct (isClosed p); congruence.
Qed.

(** Draining. When all workers have left, which [StopWait] and [Drain] wait
    for, every task ever accepted has been executed, the queue is empty, the
    pool reports that it is closed, and no task is accepted any more. *)
Lemma pool_drains workers size p p' :
  rtc step (New workers size) p →
  exited p = (if workers <=? 0 then 1 else workers) → rtc step p p' →
  queue p = [] ∧ running p = [] ∧ accepted p ≡ₚ finished p ∧ IsClosed p = true ∧ accepted p' = accepted p.
Proof.
  intros Hp%reachable_inv Hex Hsteps. assert (0 < exited p) as Hpos.
  { rewrite Hex. destruct (workers <=? 0) eqn:E; bool_to_prop; lia. }
  pose proof Hp as [_ _ _ _ _ Ht _ (Hi & _ & Hw) He]. destruct (He Hpos) as [Hq Hc].
  assert (running p = []) as Hr by (apply nil_length_inv; lia).
  rewrite Hq, Hr in Ht. split_and!; try done; [exact (closed_reported _ p Hp Hc)|].
  clear Ht Hq Hr Hw Hi He Hex Hpos. induction Hsteps as [|p p1 p' Hstep _ IH]; [done|].
  assert (accepted p1 = accepted p ∧ tasksClosed p1 = true) as [<- Hc1].
  { pose proof Hp as [_ _ Hs Hrd _ _ _ _ _]. destruct Hstep as [Hst|[Hst|[Hst|Hst]]];
      destruct Hst; simpl; auto.
    exfalso. rewrite H, Forall_app, Forall_cons in Hrd. destruct Hrd as (_ & Ho & _).
    destruct (reader_open p (Submitter t b Selecting)) as [? _];
      [done|rewrite H; set_solver|by apply Ho|congruence]. }
  apply IH; [by eapply step_inv | done].
Qed.

(** What is left to do for the goroutines under way. *)
Definition stopLeft (s : stopPlace) : nat :=
  match s with
  | NotStopped => 5 | ClosedSignal => 4 | Locked => 3 | FlagSet => 2 | TasksClosed => 1 | Stopped => 0
  end.
Definition placeLeft (s : submitter) : nat :=
  match at_ s with Entered => 6 | NotClosed => 5 | Selecting => 4 end.
Definition left_ (p : Pool) : nat :=
  stopLeft (stopAt p) + sum_list_with placeLeft (readers p) + 3 * length (queue p) +
  2 * length (running p) + Z.to_nat (idle p).

Lemma sum_middle rs1 (s : submitter) rs2 :
  sum_list_with placeLeft (rs1 ++ s :: rs2) = (placeLeft s + sum_list_with placeLeft (rs1 ++ rs2))%nat.
Proof. rewrite !sum_list_with_app. simpl. lia. Qed.

Lemma inner_decreases w p p' : poolInv w p → innerStep p p' → (left_ p' < left_ p)%nat.
Proof.
  intros [_ _ _ _ _ _ _ (Hi & _ & _) _] Hstep. unfold left_. destruct Hstep as [Hst|[Hst|Hst]]; destruct Hst;
    unfold send; simpl in *;
    repeat match goal with
    | H : readers _ = _ |- _ => rewrite H; clear H
    | H : stopAt _ = _ |- _ => rewrite H; clear H
    | H : running _ = _ |- _ => rewrite H; clear H
    | H : queue _ = _ |- _ => rewrite ?H; clear H
    end; rewrite ?sum_middle; simpl; rewrite ?length_app; simpl; try lia.
  destruct (tasksClosed p); simpl; rewrite ?length_app; simpl; unfold placeLeft; simpl; lia.
Qed.

(** Once [Stop] has begun, and until all workers have left, a goroutine that is
    under way can take a step. *)
Lemma inner_enabled w p :
  poolInv w p → stopAt p ≠ NotStopped → exited p < w → ∃ p', innerStep p p'.
Proof.
  intros [] Hst Hex. unfold stopInv, innerStep in *.
  destruct (running p) as [|t rs] eqn:Er; [|eexists; right; right; by apply (WorkDone p [] t rs)].
  simpl in inv_workers0. destruct (stopAt p) eqn:Es; [done| | | | |]; destruct_and?.
  - destruct (readers p) as [|[t b []] rs] eqn:Erd.
    + eexists. right. left. by apply StopLock.
    + eexists. left. by apply (SubFlagOpen p [] t b rs).
    + eexists. left. by apply (SubSignalClosed p [] t b rs).
    + destruct b; [eexists; left; by apply (SubSelectClosed p [] t rs)|].
      destruct (decide (queueSize p <= Z.of_nat (length (queue p)))) as [Hf|Hf].
      * eexists. left. by apply (SubFull p [] t rs).
      * eexists. left. apply (SubSend p [] t false rs); [done|]. right. lia.
  - eexists. right. left. by apply StopFlag.
  - eexists. right. left. by apply StopTasks.
  - eexists. right. left. by apply StopUnlock.
  - destruct (queue p) as [|t q] eqn:Eq.
    + eexists. right. right. apply WorkExit; [lia|done|done].
    + eexists. right. right. eapply WorkReceive; [lia|done].
Qed.

(** Stopping terminates. From any reachable state there is no infinite run
    of the goroutines under way (tasks that end, submitters, [Stop], workers),
    and once [Stop] has begun every run that cannot go on ends with all workers
    gone: no submitter blocked in [SubmitContext] and no lock holds it up. *)
Lemma pool_terminates workers size p :
  rtc step (New workers size) p →
  Acc (flip innerStep) p ∧
  (stopAt p ≠ NotStopped → ∀ p', rtc innerStep p p' → (∀ p'', ¬ innerStep p' p'') →
   exited p' = if workers <=? 0 then 1 else workers).
Proof.
  set (w := if workers <=? 0 then 1 else workers). intros Hp%reachable_inv. fold w in Hp. split.
  - remember (left_ p) as n eqn:En. revert p Hp En.
    induction (lt_wf n) as [n _ IH]. intros p Hp ->. constructor. intros p' Hstep.
    eapply IH; [by eapply inner_decreases| |done]. apply step_inv with p; [done|by right].
  - intros Hst p' Hsteps Hend.
    assert (poolInv w p' ∧ stopAt p' ≠ NotStopped) as [Hp' Hst'].
    { clear Hend. induction Hsteps as [|p p1 p' Hstep _ IH]; [done|]. apply IH.
      - apply step_inv with p; [done|by right].
      - destruct Hstep as [Hs|[Hs|Hs]]; destruct Hs; unfold send; simpl; try done. by case_match. }
    destruct (decide (exited p' < w)) as [Hlt|Hge].
    + destruct (inner_enabled w p' Hp' Hst' Hlt) as [p'' Hs]. by destruct (Hend p'').
    + destruct Hp' as [_ _ _ _ _ _ _ ? _]. lia.
Qed.

(** ** A whole call *)

(** A whole call of [Submit] is one of the interleavings: the safety of the pool
    covers it. *)
Lemma Submit_run p t : writer p = false → rtc step p (Submit p t).2.
Proof.
  intros Hw. destruct t as [t|]; [|done]. unfold Submit.
  assert (∀ p', rtc innerStep (setReaders p (Submitter t false Entered :: readers p)) p' → rtc step p p') as Hrun.
  { intros p' Hr. eapply rtc_l; [left; by apply (SubRLock p t false)|].
    eapply rtc_subrel; [|exact Hr]. intros ??. by right. }
  assert (setReaders p (readers p) = p) as Hp by by destruct p.
  assert (∀ p1 p', submitStep p1 p' → rtc innerStep p1 p') as Hone by (intros; apply rtc_once; by left).
  destruct (isClosed p) eqn:Ei.
  { apply Hrun, Hone. rewrite <- Hp at 2. by apply (SubFlagClosed (setReaders p _) [] t false (readers p)). }
  destruct (closed p) eqn:Ec.
  { apply Hrun. eapply rtc_l; [left; by apply (SubFlagOpen _ [] t false (readers p))|].
    apply Hone. rewrite <- Hp at 2. by apply (SubSignalClosed (setReaders p _) [] t false (readers p)). }
  apply Hrun. eapply rtc_l; [left; by apply (SubFlagOpen _ [] t false (readers p))|].
  eapply rtc_l; [left; by apply (SubSignalOpen _ [] t false (readers p))|]. apply Hone.
  destruct (tasksClosed p || _) eqn:Es; cbn [snd]; rewrite <- Hp at 2.
  - apply (SubSend (setReaders p _) [] t false (readers p)); [done|]. cbn.
    apply orb_true_iff in Es as [?|?%Z.ltb_lt]; auto.
  - apply (SubFull (setReaders p _) [] t (readers p)); [done|]. cbn.
    apply orb_false_iff in Es as [_ ?%Z.ltb_ge]. done.
Qed.

(** ** A run *)

(** One worker, one slot: a task is accepted and executed, the pool stops. *)
Lemma drained_run :
  ∃ p, rtc step (New 1 1) p ∧ exited p = 1 ∧ finished p = [7%nat] ∧ stopAt p ≠ NotStopped.
Proof.
  eexists. split.
  - eapply rtc_l; [left; apply (SubRLock _ 7%nat false); reflexivity|].
    eapply rtc_l; [right; left; apply (SubFlagOpen _ [] 7%nat false []); reflexivity|].
    eapply rtc_l; [right; left; apply (SubSignalOpen _ [] 7%nat false []); reflexivity|].
    eapply rtc_l; [right; left; apply (SubSend _ [] 7%nat false []); [reflexivity|right; reflexivity]|].
    eapply rtc_l; [right; right; left; apply StopSignal; reflexivity|].
    eapply rtc_l; [right; right; left; apply StopLock; reflexivity|].
    eapply rtc_l; [right; right; left; apply StopFlag; reflexivity|].
    eapply rtc_l; [right; right; left; apply StopTasks; reflexivity|].
    eapply rtc_l; [right; right; left; apply StopUnlock; reflexivity|].
    eapply rtc_l; [right; right; right; eapply WorkReceive; [reflexivity|reflexivity]|].
    eapply rtc_l; [right; right; right; apply (WorkDone _ [] 7%nat []); reflexivity|].
    eapply rtc_l; [right; right; right; apply WorkExit; reflexivity|]. apply rtc_refl.
  - split_and!; [reflexivity|reflexivity|discriminate].
Qed.


Lemma pool_drains_example :
  ∃ p, finished p = [7%nat] ∧ queue p = [] ∧ running p = [] ∧ accepted p ≡ₚ finished p ∧ IsClosed p = true ∧
    accepted p = accepted p.
Proof.
  destruct drained_run as (p & Hp & Hx & Hf & _). exists p. split; [exact Hf|].
  apply (pool_drains 1 1 p p Hp Hx). apply rtc_refl.
Defined.

Lemma pool_terminates_witness :
  ∃ p, finished p = [7%nat] ∧ Acc (flip innerStep) p ∧
  (stopAt p ≠ NotStopped → ∀ p', rtc innerStep p p' → (∀ p'', ¬ innerStep p' p'') →
   exited p' = if 1 <=? 0 then 1 else 1).
Proof.
  destruct drained_run as (p & Hp & _ & Hf & _). exists p. split; [exact Hf|].
  apply (pool_terminates 1 1 p Hp).
Defined.

(** C23: in every interleaving of submitters, Stop and workers no send meets a
    closed channel, the queue never exceeds its size, and each accepted task is
    exactly once queued, running or finished; when all workers have left, nothing is queued or running,
    every accepted task has finished, the pool reports that it is closed, and no task is accepted any more. There is no infinite run of the goroutines under
    way, and once Stop has begun every run that cannot go on ends with all workers gone. *)
Theorem pool_safety :
  (∀ workers size p,
   rtc step (New workers size) p →
    crashed p = false ∧ Z.of_nat (length (queue p)) <= queueSize p ∧
    accepted p ≡ₚ queue p ++ running p ++ finished p ∧
    Z.of_nat (length (finished p)) = completed p + panics p) ∧
  (∀ workers size p p',
   rtc step (New workers size) p →
    exited p = (if workers <=? 0 then 1 else workers) → rtc step p p' →
    queue p = [] ∧ running p = [] ∧ accepted p ≡ₚ finished p ∧ IsClosed p = true ∧ accepted p' = accepted p) ∧
  (∀ workers size p,
   rtc step (New workers size) p →
    Acc (flip innerStep) p ∧
    (stopAt p ≠ NotStopped → ∀ p', rtc innerStep p p' → (∀ p'', ¬ innerStep p' p'') →
     exited p' = if workers <=? 0 then 1 else workers)).
Proof. split_and!; [apply pool_counts|apply pool_drains|apply pool_terminates]. Qed.

Lemma pool_safety_witness :
  ∃ p, finished p = [7%nat] ∧ crashed p = false ∧ Z.of_nat (length (queue p)) <= queueSize p ∧
    accepted p ≡ₚ queue p ++ running p ++ finished p ∧
    Z.of_nat (length (finished p)) = completed p + panics p.
Proof.
  destruct drained_run as (p & Hp & _ & Hf & _). exists p. split; [exact Hf|].
  apply (proj1 pool_safety 1 1 p Hp).
Defined.
