(* ===== verification/Async.v ===== *)
(** Tasks in parallel (async/parallel.go, async/async.go): the goroutines of
    [Parallel] and [ParallelLimit], their semaphore, wait group and first error,
    as a transition system whose steps the scheduler chooses. *)
From S2P Require Import Prelude.

(** How a task ends. *)
Inductive outcome := TaskOk | TaskErr (e : error) | TaskPanic (r : string).

Definition outcomeErr (o : outcome) : option error :=
  match o with
  | TaskOk => None
  | TaskErr e => Some e
  | TaskPanic r => Some (ErrNew ("task panicked: " +:+ r))
  end.

(** A function given to [Go] or [GoCtx]: nil, or how it ends ([TaskErr] does not
    occur, the functions return nothing); [GoCtx] hands it its context. *)
Definition recovered (o : option outcome) : list string :=
  match o with
  | None => ["runtime error: invalid memory address or nil pointer dereference"]
  | Some (TaskPanic r) => [r]
  | Some _ => []
  end.

(** The panics logged by the goroutine; none of them leaves it. *)
Definition Go (fn : option outcome) : list string := recovered fn.
Definition GoCtx {C} (ctx : C) (fn : option (C → outcome)) : list string := recovered ((λ f, f ctx) <$> fn).

Lemma GoCtx_Go {C} (ctx : C) f : GoCtx ctx (Some f) = Go (Some (f ctx)).
Proof. done. Qed.

(** A goroutine: before the look at the context, in the task, before the
    deferred release of the semaphore, before [wg.Done], over. *)
Inductive gphase := GCheck | GTask | GRelease | GWg | GOver.

#[global] Instance gphase_eq_dec : EqDecision gphase.
Proof. solve_decision. Defined.

(** [limit] is the capacity of the semaphore, none for [Parallel]. The tasks are numbered; [todo]
    are those the loop has not reached, [None] for a nil task. [firstErr] is set once;
    [ran] is a record of the tasks that ended, and [errs] of the errors, in order. *)
Record state := mkState {
  limit : option Z;
  todo : list (option nat);
  gs : list (nat * gphase);
  sem : Z;
  ctxErr : option error;
  firstErr : option error;
  result : option (option error);
  ran : list (nat * outcome);
  errs : list error;
}.

(** [Parallel] and [ParallelLimit] on tasks, [false] for a nil one. *)
Definition numbered (tasks : list bool) : list (option nat) :=
  imap (λ i b, if b : bool then Some i else None) tasks.

Definition start (limit : option Z) (tasks : list bool) (ctxErr : option error) : state :=
  mkState limit (numbered tasks) [] 0 ctxErr None (if tasks is [] then Some None else None) [] [].

Definition Parallel (tasks : list bool) (ctxErr : option error) : state := start None tasks ctxErr.
Definition ParallelLimit (concurrency : Z) (tasks : list bool) (ctxErr : option error) : state :=
  start (Some (if concurrency <=? 0 then 10 else concurrency)) tasks ctxErr.

(** [once.Do(func() { firstErr = e })]. *)
Definition fail (s : state) (e : option error) : state :=
  match e with
  | None => s
  | Some e =>
      mkState (limit s) (todo s) (gs s) (sem s) (ctxErr s)
        (match firstErr s with Some e0 => Some e0 | None => Some e end) (result s) (ran s) (errs s ++ [e])
  end.

Definition setGs (s : state) g : state :=
  mkState (limit s) (todo s) g (sem s) (ctxErr s) (firstErr s) (result s) (ran s) (errs s).
Definition setSem (s : state) n : state :=
  mkState (limit s) (todo s) (gs s) n (ctxErr s) (firstErr s) (result s) (ran s) (errs s).
Definition setTodo (s : state) l : state :=
  mkState (limit s) l (gs s) (sem s) (ctxErr s) (firstErr s) (result s) (ran s) (errs s).
Definition setResult (s : state) r : state :=
  mkState (limit s) (todo s) (gs s) (sem s) (ctxErr s) (firstErr s) r (ran s) (errs s).
Definition logRan (s : state) t o : state :=
  mkState (limit s) (todo s) (gs s) (sem s) (ctxErr s) (firstErr s) (result s) (ran s ++ [(t, o)]) (errs s).

Inductive action :=
| Spawn                              (** the loop takes the next task *)
| Quit                               (** the select of ParallelLimit sees the context *)
| Cancel (e : error)                 (** the context ends *)
| Look (i : nat)                     (** goroutine i looks at the context *)
| Finish (i : nat) (o : outcome)     (** its task ends *)
| Release (i : nat)                  (** it releases the semaphore *)
| WgDone (i : nat)
| Join.                              (** wg.Wait returns *)

(** The semaphore has room. *)
Definition room (s : state) : bool :=
  match limit s with None => true | Some c => sem s <? c end.

Definition isOver (g : nat * gphase) : bool := bool_decide (g.2 = GOver).

Definition act (s : state) (a : action) : option state :=
  match a with
  | Spawn =>
      match result s, todo s with
      | None, None :: rest => Some (setTodo s rest)
      | None, Some t :: rest =>
          if room s then
            Some (setSem (setGs (setTodo s rest) (gs s ++ [(t, GCheck)]))
                         (if limit s is Some _ then sem s + 1 else sem s))
          else None
      | _, _ => None
      end
  | Quit =>
      match result s, todo s, limit s, ctxErr s with
      | None, Some _ :: _, Some _, Some e =>
          let s1 := fail s (Some e) in Some (setResult s1 (Some (firstErr s1)))
      | _, _, _, _ => None
      end
  | Cancel e =>
      match ctxErr s with
      | None => Some (mkState (limit s) (todo s) (gs s) (sem s) (Some e) (firstErr s) (result s) (ran s) (errs s))
      | Some _ => None
      end
  | Look i =>
      match gs s !! i with
      | Some (t, GCheck) =>
          match ctxErr s with
          | Some e => Some (setGs (fail s (Some e)) (<[i := (t, GRelease)]> (gs s)))
          | None => Some (setGs s (<[i := (t, GTask)]> (gs s)))
          end
      | _ => None
      end
  | Finish i o =>
      match gs s !! i with
      | Some (t, GTask) => Some (setGs (fail (logRan s t o) (outcomeErr o)) (<[i := (t, GRelease)]> (gs s)))
      | _ => None
      end
  | Release i =>
      match gs s !! i with
      | Some (t, GRelease) =>
          Some (setSem (setGs s (<[i := (t, GWg)]> (gs s))) (if limit s is Some _ then sem s - 1 else sem s))
      | _ => None
      end
  | WgDone i =>
      match gs s !! i with
      | Some (t, GWg) => Some (setGs s (<[i := (t, GOver)]> (gs s)))
      | _ => None
      end
  | Join =>
      match result s, todo s with
      | None, [] => if forallb isOver (gs s) then Some (setResult s (Some (firstErr s))) else None
      | _, _ => None
      end
  end.

Fixpoint run (s : state) (l : list action) : option state :=
  match l with [] => Some s | a :: l' => act s a ≫= λ s', run s' l' end.

(** ** Weights of the goroutines *)

Definition weigh (f : gphase → Z) (l : list (nat * gphase)) : Z := foldr (λ g acc, f g.2 + acc) 0 l.

Lemma weigh_app f l1 l2 : weigh f (l1 ++ l2) = weigh f l1 + weigh f l2.
Proof. unfold weigh. induction l1 as [|g l1 IH]; cbn; [done|lia]. Qed.

Lemma weigh_insert f l i t ph g :
  l !! i = Some (t, ph) → weigh f (<[i := g]> l) = weigh f l - f ph + f g.2.
Proof.
  revert i. induction l as [|g0 l IH]; intros [|i] E; simplify_eq/=; [lia|].
  change (f g0.2 + weigh f (<[i := g]> l) = f g0.2 + weigh f l - f ph + f g.2). rewrite (IH _ E). lia.
Qed.

Lemma weigh_mono f1 f2 l : (∀ ph, f1 ph <= f2 ph) → weigh f1 l <= weigh f2 l.
Proof. intros Hf. unfold weigh. induction l as [|g l IH]; cbn; [lia|]. specialize (Hf g.2). lia. Qed.

Lemma weigh_zero l : weigh (λ _, 0) l = 0.
Proof. unfold weigh. induction l; cbn; lia. Qed.

Lemma weigh_over f l : f GOver = 0 → forallb isOver l = true → weigh f l = 0.
Proof.
  intros Hf. unfold weigh. induction l as [|g l IH]; cbn; [done|].
  intros [Hg Hl]%andb_prop. unfold isOver in Hg. apply bool_decide_eq_true in Hg. rewrite Hg, Hf, (IH Hl). done.
Qed.

Arguments weigh : simpl never.

(** ** Invariant *)

(** The goroutine holds a slot of the semaphore; its task is running. *)
Definition holding (ph : gphase) : Z := match ph with GCheck | GTask | GRelease => 1 | _ => 0 end.
Definition running (ph : gphase) : Z := match ph with GTask => 1 | _ => 0 end.
Definition ended (ph : gphase) : bool := match ph with GCheck | GTask => false | _ => true end.

Definition tasksOf (l : list (option nat)) : list nat := omap id l.

(** The result, once there is one. *)
Definition resultOk (s : state) : Prop :=
  match result s with
  | None => True
  | Some r => r = firstErr s ∧
      ((todo s = [] ∧ forallb isOver (gs s) = true) ∨
       (todo s ≠ [] ∧ limit s ≠ None ∧ ctxErr s ≠ None ∧ r ≠ None))
  end.

(** The task of an ended goroutine ran, or was skipped for the context. *)
Definition accounted (s : state) (t : nat) : Prop :=
  (∃ o, (t, o) ∈ ran s ∧ ∀ e, outcomeErr o = Some e → e ∈ errs s) ∨
  (∃ e, ctxErr s = Some e ∧ e ∈ errs s).

Record inv (lim : option Z) (tasks : list nat) (s : state) : Prop := {
  i_lim : limit s = lim;
  i_sem : ∀ c, lim = Some c → sem s = weigh holding (gs s) ∧ sem s <= c;
  i_first : firstErr s = head (errs s);
  i_result : resultOk s;
  i_tasks : (gs s).*1 ++ tasksOf (todo s) = tasks;
  i_ended : ∀ t ph, (t, ph) ∈ gs s → ended ph = true → accounted s t;
  i_once : NoDup (ran s).*1 ∧ ∀ t, t ∈ (ran s).*1 → ∃ ph, (t, ph) ∈ gs s ∧ ended ph = true;
  i_errs : ∀ e, e ∈ errs s → ctxErr s = Some e ∨ ∃ t o, (t, o) ∈ ran s ∧ outcomeErr o = Some e;
}.

Lemma numbered_NoDup tasks : NoDup (tasksOf (numbered tasks)).
Proof.
  unfold tasksOf, numbered.
  assert (H : ∀ n, NoDup (omap id (imap (λ i b, if b : bool then Some (n + i)%nat else None) tasks)) ∧
    ∀ t, t ∈ omap id (imap (λ i b, if b : bool then Some (n + i)%nat else None) tasks) → (n <= t)%nat).
  { induction tasks as [|b tasks IH]; intros n; cbn; [split; [constructor|set_solver]|].
    destruct (IH (S n)) as [Hnd Hle].
    rewrite (imap_ext _ ((λ i b, if b : bool then Some (S n + i)%nat else None))) by
      (intros i x _; cbn; by rewrite Nat.add_succ_r).
    destruct b; cbn; rewrite ?Nat.add_0_r; split; auto.
    - constructor; [|done]. intros Ht%Hle. lia.
    - intros t [->|Ht]%elem_of_cons; [lia|]. specialize (Hle t Ht). lia.
    - intros t Ht. specialize (Hle t Ht). lia. }
  apply (H 0%nat).
Qed.

Lemma head_app_Some {A} (l1 l2 : list A) x : head l1 = Some x → head (l1 ++ l2) = Some x.
Proof. by destruct l1. Qed.

Lemma insert_fst (l : list (nat * gphase)) i t ph ph' :
  l !! i = Some (t, ph) → (<[i := (t, ph')]> l).*1 = l.*1.
Proof. intros E. rewrite list_fmap_insert. apply list_insert_id. by rewrite list_lookup_fmap, E. Qed.

Lemma elem_insert (l : list (nat * gphase)) i x y : y ∈ <[i := x]> l → y = x ∨ y ∈ l.
Proof.
  intros (j & Hj)%list_elem_of_lookup. apply list_lookup_insert_Some in Hj as [(_ & -> & _)|[_ Hj]]; [by left|].
  right. by eapply list_elem_of_lookup_2.
Qed.

Lemma ended_kept (l : list (nat * gphase)) i t ph ph' t0 ph0 :
  l !! i = Some (t, ph) → (ended ph = true → ended ph' = true) →
  (t0, ph0) ∈ l → ended ph0 = true → ∃ ph1, (t0, ph1) ∈ <[i := (t, ph')]> l ∧ ended ph1 = true.
Proof.
  intros E Hph (j & Hj)%list_elem_of_lookup He. destruct (decide (j = i)) as [->|Hne].
  - rewrite E in Hj. simplify_eq. exists ph'. split; [|auto].
    eapply list_elem_of_lookup_2, list_lookup_insert_eq, lookup_lt_Some, E.
  - exists ph0. split; [|done]. eapply (list_elem_of_lookup_2 _ j). by rewrite list_lookup_insert_ne.
Qed.

Lemma over_lookup l i t ph : forallb isOver l = true → l !! i = Some (t, ph) → ph = GOver.
Proof.
  intros H E. rewrite forallb_forall in H. specialize (H (t, ph)). unfold isOver in H. cbn in H.
  eapply bool_decide_eq_true_1, H, list_elem_of_In, list_elem_of_lookup_2, E.
Qed.

Section moves.
Context (lim : option Z) (tasks : list nat) (Hnd : NoDup tasks).

Lemma inv_NoDup s : inv lim tasks s → NoDup (gs s).*1.
Proof. intros HI. rewrite <-(i_tasks _ _ _ HI) in Hnd. by apply NoDup_app in Hnd as [? _]. Qed.

(** A goroutine has one phase. *)
Lemma phase_unique s i t ph ph0 :
  inv lim tasks s → gs s !! i = Some (t, ph) → (t, ph0) ∈ gs s → ph0 = ph.
Proof.
  intros HI E (j & Hj)%list_elem_of_lookup. pose proof (inv_NoDup _ HI) as Hn.
  assert (i = j) as <-; [|congruence].
  eapply (NoDup_lookup _ _ _ t Hn); rewrite list_lookup_fmap; [rewrite E|rewrite Hj]; done.
Qed.

(** Goroutine [i] moves from [ph] to [ph'], with new errors [es] and the end of
    its task in [rs]. *)
Lemma inv_goroutine s s' i t ph ph' es rs :
  inv lim tasks s → gs s !! i = Some (t, ph) → ph ≠ GOver →
  limit s' = limit s → todo s' = todo s → ctxErr s' = ctxErr s → result s' = result s →
  gs s' = <[i := (t, ph')]> (gs s) →
  (∀ c, lim = Some c → sem s' = sem s - holding ph + holding ph') → holding ph' <= holding ph →
  errs s' = errs s ++ es → ran s' = ran s ++ rs → firstErr s' = head (errs s') →
  (ended ph = true → ended ph' = true) →
  (ended ph = false → ended ph' = true → accounted s' t) →
  (rs = [] ∨ ∃ o, rs = [(t, o)] ∧ ended ph = false ∧ ended ph' = true) →
  (∀ e, e ∈ es → ctxErr s = Some e ∨ ∃ o, (t, o) ∈ rs ∧ outcomeErr o = Some e) →
  inv lim tasks s'.
Proof.
  intros HI E Hno El Et Ec Er Eg Hsem Hhold Ees Ers Ef Hmono Hacc Hrs Hes.
  assert (Hkeep : ∀ t', accounted s t' → accounted s' t').
  { intros t' [(o & Ho & He)|(e & He & Hin)]; [left; exists o|right; exists e];
      rewrite ?Ers, ?Ees, ?Ec; set_solver. }
  constructor.
  - by rewrite El, (i_lim _ _ _ HI).
  - intros c Hc. destruct (i_sem _ _ _ HI c Hc) as [Hs Hle].
    rewrite Eg, (weigh_insert _ _ _ _ _ _ E), (Hsem c Hc). cbn. lia.
  - done.
  - pose proof (i_result _ _ _ HI) as HR. unfold resultOk in *. rewrite Er. destruct (result s) as [r|]; [|done].
    destruct HR as [-> [[_ Ho]|(Ht & Hl & Hc & Hr)]].
    { by pose proof (over_lookup _ _ _ _ Ho E). }
    rewrite Ef, Ees, Et, El, Ec. rewrite (i_first _ _ _ HI) in *.
    destruct (head (errs s)) eqn:Eh; [|done]. rewrite (head_app_Some _ _ _ Eh). split; [done|by right].
  - by rewrite Eg, Et, (insert_fst _ _ _ _ _ E), (i_tasks _ _ _ HI).
  - intros t' ph1 Hin He. rewrite Eg in Hin. apply elem_insert in Hin as [[= -> ->]|Hin].
    + destruct (ended ph) eqn:Eph; [|by apply Hacc].
      apply Hkeep, (i_ended _ _ _ HI t ph); [by eapply list_elem_of_lookup_2|done].
    + apply Hkeep. by eapply (i_ended _ _ _ HI).
  - destruct (i_once _ _ _ HI) as [Hn Hin]. rewrite Ers, fmap_app, Eg. split.
    + destruct Hrs as [->|(o & -> & Hp & Hp')]; cbn; [by rewrite app_nil_r|].
      apply NoDup_app. split_and!; [done| |apply NoDup_singleton].
      intros t' Ht'. rewrite list_elem_of_singleton. intros ->.
      destruct (Hin t Ht') as (ph1 & Hg & He). rewrite (phase_unique _ _ _ _ _ HI E Hg) in He. congruence.
    + intros t' [Ht'|Ht']%elem_of_app.
      * destruct (Hin t' Ht') as (ph1 & Hg & He). by eapply ended_kept.
      * destruct Hrs as [->|(o & -> & Hp & Hp')]; cbn in Ht'; [set_solver|].
        apply list_elem_of_singleton in Ht' as ->. exists ph'. split; [|done].
        eapply list_elem_of_lookup_2, list_lookup_insert_eq, lookup_lt_Some, E.
  - rewrite Ees, Ec, Ers. intros e [He|He]%elem_of_app.
    + destruct (i_errs _ _ _ HI e He) as [?|(t' & o & ? & ?)]; [by left|right]. exists t', o. set_solver.
    + destruct (Hes e He) as [?|(o & ? & ?)]; [by left|right]. exists t, o. set_solver.
Qed.

Lemma fail_first s e : firstErr s = head (errs s) → firstErr (fail s e) = head (errs (fail s e)).
Proof.
  destruct e as [e|]; [|done]. cbn. intros ->. destruct (errs s); done.
Qed.

Lemma fail_errs s e : errs (fail s e) = errs s ++ option_list e.
Proof. destruct e; cbn; [done|by rewrite app_nil_r]. Qed.

Lemma inv_look s i s' : inv lim tasks s → act s (Look i) = Some s' → inv lim tasks s'.
Proof.
  intros HI. cbn. destruct (gs s !! i) as [[t [| | | |]]|] eqn:E; try done.
  destruct (ctxErr s) as [e|] eqn:Ec; intros; simplify_eq; cbn.
  - eapply (inv_goroutine s _ i t GCheck GRelease [e] []); try done; cbn; try (intros; lia).
    + by rewrite app_nil_r.
    + rewrite (i_first _ _ _ HI). by destruct (errs s).
    + intros _ _. right. exists e. cbn. split; [done|set_solver].
    + by left.
    + intros e' ->%list_elem_of_singleton. by left.
  - eapply (inv_goroutine s _ i t GCheck GTask [] []); try done; cbn; try (intros; lia); rewrite ?app_nil_r; auto.
    + by apply (i_first _ _ _ HI).
    + intros e. set_solver.
Qed.

Lemma inv_finish s i o s' : inv lim tasks s → act s (Finish i o) = Some s' → inv lim tasks s'.
Proof.
  intros HI. cbn. destruct (gs s !! i) as [[t [| | | |]]|] eqn:E; try done. intros; simplify_eq.
  eapply (inv_goroutine s _ i t GTask GRelease (option_list (outcomeErr o)) [(t, o)]);
    try done; try by destruct (outcomeErr o).
  - intros c _. destruct (outcomeErr o); cbn; lia.
  - exact (fail_errs (logRan s t o) _).
  - exact (fail_first (logRan s t o) _ (i_first _ _ _ HI)).
  - intros _ _. left. exists o. split; [destruct (outcomeErr o); cbn; set_solver|].
    intros e He. change (e ∈ errs (fail (logRan s t o) (outcomeErr o))). rewrite fail_errs, He. set_solver.
  - right. by exists o.
  - intros e He. right. exists o. split; [set_solver|]. destruct (outcomeErr o); set_solver.
Qed.

Lemma inv_release s i s' : inv lim tasks s → act s (Release i) = Some s' → inv lim tasks s'.
Proof.
  intros HI. cbn. destruct (gs s !! i) as [[t [| | | |]]|] eqn:E; try done. intros; simplify_eq.
  eapply (inv_goroutine s _ i t GRelease GWg [] []); try done; cbn; rewrite ?app_nil_r; auto.
  - intros c Hc. rewrite (i_lim _ _ _ HI), Hc. lia.
  - apply (i_first _ _ _ HI).
  - intros e. set_solver.
Qed.

Lemma inv_wgdone s i s' : inv lim tasks s → act s (WgDone i) = Some s' → inv lim tasks s'.
Proof.
  intros HI. cbn. destruct (gs s !! i) as [[t [| | | |]]|] eqn:E; try done. intros; simplify_eq.
  eapply (inv_goroutine s _ i t GWg GOver [] []); try done; cbn; rewrite ?app_nil_r; auto.
  - intros c _. lia.
  - apply (i_first _ _ _ HI).
  - intros e. set_solver.
Qed.

Lemma inv_spawn s s' : inv lim tasks s → act s Spawn = Some s' → inv lim tasks s'.
Proof.
  intros HI. cbn. destruct (result s) eqn:Er; [done|].
  destruct (todo s) as [|[t|] rest] eqn:Et; [done| |].
  - destruct (room s) eqn:Eroom; [|done]. intros; simplify_eq.
    constructor; cbn; try by destruct HI.
    + intros c Hc. destruct (i_sem _ _ _ HI c Hc) as [Hs Hle]. unfold room in Eroom.
      rewrite (i_lim _ _ _ HI), Hc in *. rewrite weigh_app. unfold weigh at 2. cbn. apply Z.ltb_lt in Eroom. lia.
    + unfold resultOk; cbn. by rewrite Er.
    + rewrite fmap_app, <-app_assoc. cbn. rewrite <-(i_tasks _ _ _ HI), Et. done.
    + intros t' ph [Hin|Hin]%elem_of_app He; [by eapply (i_ended _ _ _ HI)|].
      apply list_elem_of_singleton in Hin. by simplify_eq.
    + destruct (i_once _ _ _ HI) as [? Hon]. split; [done|]. intros t' Ht'.
      destruct (Hon t' Ht') as (ph & ? & ?). exists ph. set_solver.
  - intros; simplify_eq. constructor; cbn; try by destruct HI.
    + unfold resultOk; cbn. by rewrite Er.
    + rewrite <-(i_tasks _ _ _ HI), Et. done.
Qed.

Lemma inv_rest s a s' :
  match a with Quit | Cancel _ | Join => True | _ => False end →
  inv lim tasks s → act s a = Some s' → inv lim tasks s'.
Proof.
  intros Ha HI. destruct a as [| |e| | | | |]; try done; cbn.
  - destruct (result s) eqn:Er; [done|]. destruct (todo s) as [|[t|] rest] eqn:Et; try done.
    destruct (limit s) as [c|] eqn:El; [|done]. destruct (ctxErr s) as [e|] eqn:Ec; [|done].
    intros; simplify_eq. constructor; cbn; try by destruct HI.
    + by rewrite <-(i_lim _ _ _ HI), El.
    + rewrite (i_first _ _ _ HI). by destruct (errs s).
    + unfold resultOk; cbn. split; [done|]. right. rewrite ?Et, ?El. by destruct (firstErr s).
    + by rewrite <-(i_tasks _ _ _ HI), ?Et.
    + intros t' ph Hin He. destruct (i_ended _ _ _ HI t' ph Hin He) as [(o & ? & Ho)|(e' & ? & ?)].
      * left. exists o. cbn. set_solver.
      * right. exists e'. cbn. set_solver.
    + intros e' [He| ->%list_elem_of_singleton]%elem_of_app; [|by left].
      rewrite <-Ec. by apply (i_errs _ _ _ HI).
  - destruct (ctxErr s) eqn:Ec; [done|]. intros; simplify_eq. constructor; cbn; try by destruct HI.
    + pose proof (i_result _ _ _ HI) as HR. unfold resultOk in *; cbn. destruct (result s); [|done].
      destruct HR as [? [?|(? & ? & ? & ?)]]; [by auto|done].
    + intros t' ph Hin He. destruct (i_ended _ _ _ HI t' ph Hin He) as [(o & ? & Ho)|(e' & ? & ?)]; [|congruence].
      left. by exists o.
    + intros e' He. destruct (i_errs _ _ _ HI e' He) as [?|?]; [congruence|by right].
  - destruct (result s) eqn:Er; [done|]. destruct (todo s) eqn:Et; [|done].
    destruct (forallb isOver (gs s)) eqn:Eo; [|done]. intros; simplify_eq.
    constructor; cbn; try by destruct HI.
    unfold resultOk; cbn. split; [done|left]. by rewrite ?Et.
Qed.

Lemma par_inv_act s a s' : inv lim tasks s → act s a = Some s' → inv lim tasks s'.
Proof.
  destruct a; intros HI E;
    [by eapply inv_spawn|by eapply (inv_rest s Quit)|by eapply (inv_rest s (Cancel e))|by eapply inv_look
    |by eapply inv_finish|by eapply inv_release|by eapply inv_wgdone|by eapply (inv_rest s Join)].
Qed.

Lemma par_inv_run l s s' : inv lim tasks s → run s l = Some s' → inv lim tasks s'.
Proof.
  revert s. induction l as [|a l IH]; intros s HI; cbn; [by intros [= <-]|].
  destruct (act s a) as [s1|] eqn:E; cbn; [|done]. intros. by eapply IH; [eapply par_inv_act|].
Qed.
End moves.

Lemma inv_start lim tasks e :
  (∀ c, lim = Some c → 1 <= c) → inv lim (tasksOf (numbered tasks)) (start lim tasks e).
Proof.
  intros Hc. constructor; cbn; try done.
  - intros c E. specialize (Hc c E). split; [done|lia].
  - unfold resultOk; cbn. destruct tasks; [split; [done|by left]|done].
  - intros t ph []%not_elem_of_nil.
  - split; [constructor|]. intros t []%not_elem_of_nil.
  - intros e' []%not_elem_of_nil.
Qed.

(** ** Termination *)

Definition weight (ph : gphase) : Z :=
  match ph with GCheck => 4 | GTask => 3 | GRelease => 2 | GWg => 1 | GOver => 0 end.

Definition left_ (s : state) : Z :=
  5 * Z.of_nat (length (todo s)) + weigh weight (gs s) +
  (if ctxErr s is None then 1 else 0) + (if result s is None then 1 else 0).

Lemma left_nonneg s : 0 <= left_ s.
Proof.
  pose proof (weigh_mono (λ _, 0) weight (gs s) ltac:(by intros [])) as H. rewrite weigh_zero in H.
  unfold left_. repeat case_match; lia.
Qed.

Ltac cbnz := cbn -[Z.mul Z.add Z.of_nat].

(** Each step takes the program closer to its end. *)
Lemma par_act_decreases s a s' : act s a = Some s' → left_ s' < left_ s.
Proof.
  unfold left_. destruct a as [| |e|i|i o|i|i|]; cbn.
  - destruct (result s) eqn:Er; [done|]. destruct (todo s) as [|[t|] rest] eqn:Et; [done| |].
    + destruct (room s); [|done]. intros; simplify_eq; cbnz. rewrite Er, weigh_app. unfold weigh at 2. cbnz. lia.
    + intros; simplify_eq; cbnz. rewrite Er. lia.
  - destruct (result s) eqn:Er; [done|]. destruct (todo s) as [|[t|] rest] eqn:Et; try done.
    destruct (limit s); [|done]. destruct (ctxErr s) eqn:Ec; [|done]. intros; simplify_eq; cbnz. rewrite ?Ec, ?Et. cbnz. lia.
  - destruct (ctxErr s); [done|]. intros; simplify_eq; cbnz. lia.
  - destruct (gs s !! i) as [[t [| | | |]]|] eqn:E; try done.
    destruct (ctxErr s) eqn:Ec; intros; simplify_eq; cbnz; rewrite ?Ec, (weigh_insert _ _ _ _ _ _ E); cbnz; lia.
  - destruct (gs s !! i) as [[t [| | | |]]|] eqn:E; try done. intros; simplify_eq.
    destruct (outcomeErr o); cbnz; rewrite (weigh_insert _ _ _ _ _ _ E); cbnz; lia.
  - destruct (gs s !! i) as [[t [| | | |]]|] eqn:E; try done. intros; simplify_eq; cbnz.
    rewrite (weigh_insert _ _ _ _ _ _ E); cbnz; lia.
  - destruct (gs s !! i) as [[t [| | | |]]|] eqn:E; try done. intros; simplify_eq; cbnz.
    rewrite (weigh_insert _ _ _ _ _ _ E); cbnz; lia.
  - destruct (result s); [done|]. destruct (todo s) eqn:Et; [|done].
    destruct (forallb isOver (gs s)); [|done]. intros; simplify_eq; cbnz. rewrite ?Et. cbnz. lia.
Qed.

Lemma par_run_bounded l s s' : run s l = Some s' → Z.of_nat (length l) <= left_ s - left_ s'.
Proof.
  revert s. induction l as [|a l IH]; intros s; cbn; [intros [= <-]; lia|].
  destruct (act s a) as [s1|] eqn:E; cbn; [|done]. intros H%IH. apply par_act_decreases in E. lia.
Qed.

(** The steps of the loop, the goroutines and the tasks: all but the end of the
    context and the return it leads to. *)
Definition own (a : action) : bool := match a with Cancel _ | Quit => false | _ => true end.

(** A goroutine that is not over has a step. *)
Lemma not_over_acts s : forallb isOver (gs s) = false → ∃ a, own a = true ∧ is_Some (act s a).
Proof.
  intros H. assert (∃ i t ph, gs s !! i = Some (t, ph) ∧ ph ≠ GOver) as (i & t & ph & E & Hn).
  { revert H. generalize (gs s). induction l as [|[t ph] l IH]; [done|]. cbn.
    unfold isOver at 1; cbn. case_bool_decide as Hd; cbn.
    - intros H. destruct (IH H) as (i & t' & ph' & ? & ?). by exists (S i), t', ph'.
    - intros _. by exists 0%nat, t, ph. }
  destruct ph; [exists (Look i)|exists (Finish i TaskOk)|exists (Release i)|exists (WgDone i)|done];
    (split; [done|]); cbn; rewrite E; [by case_match|done..].
Qed.

Lemma par_progress lim tasks s :
  (∀ c, lim = Some c → 1 <= c) → inv lim tasks s → result s = None → ∃ a, own a = true ∧ is_Some (act s a).
Proof.
  intros Hc HI Er. destruct (forallb isOver (gs s)) eqn:Eo; [|by apply not_over_acts].
  destruct (todo s) as [|[t|] rest] eqn:Et.
  - exists Join. split; [done|]. cbn. by rewrite Er, Et, Eo.
  - exists Spawn. split; [done|]. cbn. rewrite Er, Et. unfold room. rewrite (i_lim _ _ _ HI). destruct lim as [c|]; [|done].
    destruct (i_sem _ _ _ HI c eq_refl) as [Hs _]. rewrite (weigh_over holding _ eq_refl Eo) in Hs.
    specialize (Hc c eq_refl). rewrite Hs. by rewrite (proj2 (Z.ltb_lt 0 c)) by lia.
  - exists Spawn. split; [done|]. cbn. by rewrite Er, Et.
Qed.

(** ** The claim *)

(** [Parallel], or [ParallelLimit] with its concurrency. *)
Definition begin (concurrency : option Z) (tasks : list bool) (ctxErr : option error) : state :=
  match concurrency with None => Parallel tasks ctxErr | Some n => ParallelLimit n tasks ctxErr end.

Lemma begin_inv n tasks e :
  let lim := (λ n, if n <=? 0 then 10 else n) <$> n in
  (∀ c, lim = Some c → 1 <= c) ∧ inv lim (tasksOf (numbered tasks)) (begin n tasks e).
Proof.
  assert (H : ∀ c, (λ n, if n <=? 0 then 10 else n) <$> n = Some c → 1 <= c).
  { destruct n as [n|]; cbn; intros; simplify_eq. destruct (Z.leb_spec n 0); lia. }
  split; [done|]. pose proof (inv_start _ tasks e H). by destruct n.
Qed.

Lemma numbered_task tasks t : tasks !! t = Some true → t ∈ tasksOf (numbered tasks).
Proof.
  intros E. unfold tasksOf, numbered. apply list_elem_of_omap. exists (Some t). split; [|done].
  eapply (list_elem_of_lookup_2 _ t). by rewrite list_lookup_imap, E.
Qed.

Lemma over_ended s tasks lim t :
  inv lim tasks s → forallb isOver (gs s) = true → t ∈ (gs s).*1 → accounted s t.
Proof.
  intros HI Ho ([t' ph] & -> & Hin)%list_elem_of_fmap. pose proof Hin as (i & Hi)%list_elem_of_lookup.
  pose proof (over_lookup _ _ _ _ Ho Hi) as ->. by eapply (i_ended _ _ _ HI).
Qed.

Definition cancelled : list action := [Spawn; Look 0; Cancel Canceled; Quit].

(** C26: Whatever the scheduler, the tasks and the context do, ParallelLimit runs
    at most its concurrency of tasks at a time (10 when it is not positive);
    each task runs at most once; when the call returns, it returns the first
    error in time (of a task, a panic included, or of the context), and when it returns
    nil every task that is not nil has run and succeeded; Parallel returns only after
    all its goroutines are over. Every execution ends: it has at most five steps
    per task and two more, and as long as there is no result the loop, a goroutine
    or a task that is running has a step, whether the context ends or not (so no
    deadlock on the semaphore). ParallelLimit, though, may return with tasks
    still running when the context ends. *)
Theorem parallel_exact n tasks e l s : run (begin n tasks e) l = Some s →
  (∀ c, n = Some c → weigh running (gs s) <= if c <=? 0 then 10 else c) ∧
  NoDup (ran s).*1 ∧
  (∀ r, result s = Some r →
     r = head (errs s) ∧ (n = None → forallb isOver (gs s) = true) ∧
     (r = None → ∀ t, tasks !! t = Some true → (t, TaskOk) ∈ ran s)) ∧
  (∀ e', e' ∈ errs s → ctxErr s = Some e' ∨ ∃ t o, (t, o) ∈ ran s ∧ outcomeErr o = Some e') ∧
  Z.of_nat (length l) <= 5 * Z.of_nat (length tasks) + 2 ∧
  (result s = None → ∃ a, own a = true ∧ is_Some (act s a)) ∧
  (∃ s', run (begin (Some 1) [true; true] None) cancelled = Some s' ∧
         result s' = Some (Some Canceled) ∧ weigh running (gs s') = 1).
Proof.
  intros Hrun. destruct (begin_inv n tasks e) as [Hc HI0].
  pose proof (par_inv_run _ _ (numbered_NoDup tasks) _ _ _ HI0 Hrun) as HI.
  split_and!.
  - intros c ->. destruct (i_sem _ _ _ HI _ eq_refl) as [Hs Hle].
    pose proof (weigh_mono running holding (gs s) ltac:(by intros [])). lia.
  - apply (i_once _ _ _ HI).
  - intros r Er. pose proof (i_result _ _ _ HI) as HR. unfold resultOk in HR. rewrite Er in HR.
    destruct HR as [-> HR]. split_and!; [apply (i_first _ _ _ HI)| |].
    + intros ->. destruct HR as [[_ ?]|(_ & Hl & _)]; [done|]. by rewrite (i_lim _ _ _ HI) in Hl.
    + intros Hn t Ht%numbered_task. destruct HR as [[Et Ho]|(_ & _ & _ & ?)]; [|done].
      rewrite <-(i_tasks _ _ _ HI), Et, app_nil_r in Ht.
      assert (Hes : errs s = []) by (rewrite (i_first _ _ _ HI) in Hn; by destruct (errs s)).
      destruct (over_ended _ _ _ _ HI Ho Ht) as [(o & Hin & Hoe)|(e' & _ & Hin)]; [|rewrite Hes in Hin; set_solver].
      destruct o; [done|..]; rewrite Hes in Hoe; by specialize (Hoe _ eq_refl) as []%not_elem_of_nil.
  - apply (i_errs _ _ _ HI).
  - pose proof (par_run_bounded _ _ _ Hrun). pose proof (left_nonneg s).
    assert (left_ (begin n tasks e) <= 5 * Z.of_nat (length tasks) + 2); [|lia].
    unfold left_. destruct n; cbnz; unfold numbered; rewrite length_imap; unfold weigh; cbnz; repeat case_match; lia.
  - by eapply par_progress.
  - eexists. split; [vm_compute; reflexivity|]. by vm_compute.
Qed.

Lemma parallel_exact_witness :
  let l := [Spawn; Spawn; Spawn; Look 1; Finish 1 (TaskPanic "boom"); Look 0; Release 1; Spawn;
            Finish 0 (TaskErr Canceled); Release 0; Look 2; Finish 2 TaskOk; Release 2;
            WgDone 2; WgDone 1; WgDone 0; Join] in
  ∃ s, run (begin (Some 2) [true; true; false; true] None) l = Some s ∧
       result s = Some (Some (ErrNew "task panicked: boom")) ∧ NoDup (ran s).*1.
Proof.
  intros l. destruct (run (begin (Some 2) [true; true; false; true] None) l) as [s|] eqn:E;
    [|by vm_compute in E].
  exists s. split_and!; [done| |exact (proj1 (proj2 (parallel_exact _ _ _ _ _ E)))].
  vm_compute in E. injection E as <-. reflexivity.
Defined.
