(* ===== verification/Shutdown.v ===== *)
(** Graceful shutdown (shutdown/shutdown.go): the hooks run concurrently, report
    their errors on a buffered channel, and [Execute] waits for them or for the
    end of the context. *)
From S2P Require Import Prelude Text.

(** How a hook ends. *)
Inductive hookEnd := HookOk | HookErr (e : error) | HookPanic (r : string).

(** The goroutine of a hook: in [Exec], before the send on [errs], before
    [wg.Done], over. *)
Inductive hookPhase := HRun | HSend (o : hookEnd) | HWg (o : hookEnd) | HOver (o : hookEnd).

(** [Execute] at its select, in the loop that drains [errs], or returned. *)
Inductive mainPhase := MSelect | MDrain (finalErr : error) | MReturned (r : option error).

(** [hooks] are the names with the phases; [errs] is the channel, of capacity
    [len(hooks)]; [done] is closed; [sent] are all the errors sent so far. *)
Record state := mkState {
  hooks : list (string * hookPhase);
  errs : list error;
  done_ : bool;
  ctxErr : option error;
  main : mainPhase;
  sent : list error;
}.

(** [New], [Register]: the manager is the list of its hooks. *)
Record Manager := mkManager { registered : list string; timeout : Duration }.
Definition New (timeout : Duration) : Manager := mkManager [] timeout.
Definition Register (m : Manager) (name : string) : Manager := mkManager (registered m ++ [name]) (timeout m).

(** The start of [Execute]; without hooks it returns at once. *)
Definition Execute (m : Manager) (ctxErr : option error) : state :=
  mkState (map (λ name, (name, HRun)) (registered m)) [] false ctxErr
    (if registered m is [] then MReturned ctxErr else MSelect) [].

(** [Wait], once the signal has come: the context of [Execute] ends after the
    timeout of the manager, at once when that is not positive. *)
Definition Wait (m : Manager) : state :=
  Execute m (if timeout m <=? 0 then Some DeadlineExceeded else None).

(** The error a hook reports. *)
Definition hookErr (name : string) (o : hookEnd) : option error :=
  match o with
  | HookOk => None
  | HookErr e => Some e
  | HookPanic r => Some (ErrNew ("shutdown hook " +:+ quoted name +:+ " panicked: " +:+ r))
  end.

Definition setHook (s : state) i h := mkState (<[i := h]> (hooks s)) (errs s) (done_ s) (ctxErr s) (main s) (sent s).
Definition setMain (s : state) es m := mkState (hooks s) es (done_ s) (ctxErr s) m (sent s).

Definition hookOver (h : string * hookPhase) : bool := match h.2 with HOver _ => true | _ => false end.

(** The loop over the closed channel: nil, the only error, or the errors joined. *)
Definition joinAll (es : list error) : option error :=
  foldl (λ acc e, match acc with None => Some e | Some f => Some (ErrJoin f e) end) None es.

Inductive action :=
| EndHook (i : nat) (o : hookEnd)
| Send (i : nat)
| WgDone (i : nat)
| CloseDone                 (** the goroutine behind wg.Wait *)
| CtxDone (e : error)       (** the context ends *)
| TakeDone | TakeCtx        (** the select of Execute *)
| Receive | Default.        (** the select of the draining loop *)

Definition act (s : state) (a : action) : option state :=
  match a with
  | EndHook i o =>
      match hooks s !! i with
      | Some (name, HRun) =>
          Some (setHook s i (name, match hookErr name o with Some _ => HSend o | None => HWg o end))
      | _ => None
      end
  | Send i =>
      match hooks s !! i with
      | Some (name, HSend o) =>
          if bool_decide (length (errs s) < length (hooks s))%nat then
            match hookErr name o with
            | Some e => Some (mkState (<[i := (name, HWg o)]> (hooks s)) (errs s ++ [e]) (done_ s) (ctxErr s)
                                      (main s) (sent s ++ [e]))
            | None => None
            end
          else None
      | _ => None
      end
  | WgDone i =>
      match hooks s !! i with
      | Some (name, HWg o) => Some (setHook s i (name, HOver o))
      | _ => None
      end
  | CloseDone =>
      if negb (done_ s) && forallb hookOver (hooks s) then
        Some (mkState (hooks s) (errs s) true (ctxErr s) (main s) (sent s))
      else None
  | CtxDone e =>
      match ctxErr s with
      | None => Some (mkState (hooks s) (errs s) (done_ s) (Some e) (main s) (sent s))
      | Some _ => None
      end
  | TakeDone =>
      match main s, done_ s with
      | MSelect, true => Some (setMain s [] (MReturned (joinAll (errs s))))
      | _, _ => None
      end
  | TakeCtx =>
      match main s, ctxErr s with
      | MSelect, Some e => Some (setMain s (errs s) (MDrain e))
      | _, _ => None
      end
  | Receive =>
      match main s, errs s with
      | MDrain f, e :: es => Some (setMain s es (MDrain (ErrJoin f e)))
      | _, _ => None
      end
  | Default =>
      match main s, errs s with
      | MDrain f, [] => Some (setMain s [] (MReturned (Some f)))
      | _, _ => None
      end
  end.

Fixpoint run (s : state) (l : list action) : option state :=
  match l with [] => Some s | a :: l' => act s a ≫= λ s', run s' l' end.

(** ** Invariant *)

(** The error a hook has sent, and whether it may still send one. *)
Definition sentErr (h : string * hookPhase) : option error :=
  match h.2 with HWg o | HOver o => hookErr h.1 o | _ => None end.
Definition pending (h : string * hookPhase) : nat := match h.2 with HRun | HSend _ => 1 | _ => 0 end.
Definition pendings (l : list (string * hookPhase)) : nat := list_sum (map pending l).

Arguments pendings : simpl never.

Definition phaseOk (h : string * hookPhase) : Prop :=
  match h.2 with HSend o => hookErr h.1 o ≠ None | _ => True end.

Definition mainOk (s : state) : Prop :=
  match main s with
  | MSelect => errs s = sent s
  | MDrain f => ∃ e got, ctxErr s = Some e ∧ sent s = got ++ errs s ∧ f = foldl ErrJoin e got
  | MReturned r =>
      (hooks s = [] ∧ r = None) ∨
      (forallb hookOver (hooks s) = true ∧ r = joinAll (sent s)) ∨
      (∃ e got rest, ctxErr s = Some e ∧ sent s = got ++ rest ∧ r = Some (foldl ErrJoin e got))
  end.

Record inv (names : list string) (s : state) : Prop := {
  i_names : (hooks s).*1 = names;
  i_room : (length (errs s) + pendings (hooks s) <= length (hooks s))%nat;
  i_sent : sent s ≡ₚ omap sentErr (hooks s);
  i_phase : Forall phaseOk (hooks s);
  i_done : done_ s = true → forallb hookOver (hooks s) = true;
  i_main : mainOk s;
}.

Lemma lookup_middle {A} (l : list A) i x :
  l !! i = Some x → ∃ l1 l2, l = l1 ++ x :: l2 ∧ ∀ y, <[i := y]> l = l1 ++ y :: l2.
Proof.
  intros E. exists (take i l), (drop (S i) l). split; [symmetry; by apply take_drop_middle|].
  intros y. rewrite insert_take_drop; [done|]. by eapply lookup_lt_Some.
Qed.

Lemma pendings_middle l1 h l2 : pendings (l1 ++ h :: l2) = (pending h + (pendings l1 + pendings l2))%nat.
Proof.
  unfold pendings. rewrite map_app, list_sum_app. cbn [map].
  change (list_sum (pending h :: map pending l2)) with (pending h + list_sum (map pending l2))%nat. lia.
Qed.

Lemma over_middle l1 h l2 : forallb hookOver (l1 ++ h :: l2) = true → hookOver h = true.
Proof. rewrite forallb_app. cbn. intros (_ & [? _]%andb_prop)%andb_prop. done. Qed.

(** A hook moves from [ph] to [ph'], sending [es]. *)
Lemma inv_hook names s s' i name ph ph' es :
  inv names s → hooks s !! i = Some (name, ph) → hookOver (name, ph) = false →
  hooks s' = <[i := (name, ph')]> (hooks s) →
  done_ s' = done_ s → ctxErr s' = ctxErr s → main s' = main s →
  errs s' = errs s ++ es → sent s' = sent s ++ es →
  (length es + pending (name, ph') <= pending (name, ph))%nat →
  phaseOk (name, ph') →
  sentErr (name, ph) = None → es = option_list (sentErr (name, ph')) →
  inv names s'.
Proof.
  intros HI E Hno Eh Ed Ec Em Ee Es Hp Hok Hs0 Hs1.
  destruct (lookup_middle _ _ _ E) as (l1 & l2 & El & Hins). rewrite Hins in Eh.
  assert (Hnot : forallb hookOver (hooks s) = true → False)
    by (rewrite El; intros H%over_middle; congruence).
  constructor.
  - rewrite Eh, <-(i_names _ _ HI), El, !fmap_app. done.
  - pose proof (i_room _ _ HI) as Hr. rewrite El in Hr. rewrite Ee, Eh.
    rewrite pendings_middle in *. rewrite !length_app in *. cbn [length] in *. lia.
  - rewrite Es, (i_sent _ _ HI), Eh, El, !omap_app. cbn. rewrite Hs0, Hs1.
    destruct (sentErr (name, ph')); cbn; [|by rewrite app_nil_r]. by rewrite <-Permutation_cons_append, Permutation_middle.
  - pose proof (i_phase _ _ HI) as Hf. rewrite El in Hf. rewrite Eh.
    apply Forall_app in Hf as [? Hf]. inversion Hf; subst. apply Forall_app; auto.
  - rewrite Ed. intros Hd%(i_done _ _ HI). by destruct Hnot.
  - pose proof (i_main _ _ HI) as Hm. unfold mainOk in *. rewrite Em. destruct (main s) as [|f|r].
    + by rewrite Ee, Es, Hm.
    + destruct Hm as (e & got & ? & Hgot & ?). exists e, got. by rewrite Ec, Es, Ee, Hgot, app_assoc.
    + destruct Hm as [[Hn _]|[[Ho _]|(e & got & rest & ? & Hgot & ?)]].
      * by rewrite Hn in E.
      * by destruct Hnot.
      * right; right. exists e, got, (rest ++ es). by rewrite Ec, Es, Hgot, app_assoc.
Qed.

Lemma inv_main names s a s' :
  match a with EndHook _ _ | Send _ | WgDone _ => False | _ => True end →
  inv names s → act s a = Some s' → inv names s'.
Proof.
  intros Ha HI. pose proof (i_main _ _ HI) as Hm. unfold mainOk in Hm.
  destruct a as [| | | |e| | | |]; try done; cbn.
  - destruct (negb (done_ s)); cbn; [|done]. destruct (forallb hookOver (hooks s)) eqn:Eo; [|done].
    intros; simplify_eq. destruct HI. by constructor.
  - destruct (ctxErr s) eqn:Ec; [done|]. intros; simplify_eq. destruct HI. constructor; try done.
    unfold mainOk. cbn. destruct (main s) as [|f|r]; [done| |].
    + destruct Hm as (? & ? & ? & _). congruence.
    + destruct Hm as [?|[?|(? & ? & ? & ? & _)]]; [auto|auto|congruence].
  - destruct (main s) eqn:Em; try done. destruct (done_ s) eqn:Ed; [|done]. intros; simplify_eq.
    pose proof (i_done _ _ HI Ed) as Ho. destruct HI. constructor; try done; cbn; [lia|].
    unfold mainOk; cbn. right; left. by rewrite Hm.
  - destruct (main s) eqn:Em; try done. destruct (ctxErr s) as [e|] eqn:Ec; [|done]. intros; simplify_eq.
    destruct HI. constructor; try done. unfold mainOk; cbn. exists e, []. by rewrite Hm.
  - destruct (main s) as [|f|] eqn:Em; try done. destruct (errs s) as [|e es] eqn:Ee; [done|].
    intros; simplify_eq. destruct Hm as (e0 & got & Hc & Hg & ->). destruct HI as [? Hr]. constructor; try done; cbn.
    + rewrite Ee in Hr. cbn in Hr. lia.
    + unfold mainOk; cbn. exists e0, (got ++ [e]). rewrite foldl_app, <-app_assoc. done.
  - destruct (main s) as [|f|] eqn:Em; try done. destruct (errs s) as [|e es] eqn:Ee; [|done].
    intros; simplify_eq. destruct Hm as (e0 & got & Hc & Hg & ->). destruct HI as [? Hr]. constructor; try done; cbn.
    + rewrite Ee in Hr. done.
    + unfold mainOk; cbn. right; right. by exists e0, got, [].
Qed.

Lemma sd_inv_act names s a s' : inv names s → act s a = Some s' → inv names s'.
Proof.
  intros HI. destruct a as [i o|i|i| | | | | |] eqn:Ea; try (by apply inv_main); cbn.
  - destruct (hooks s !! i) as [[name [| | |]]|] eqn:E; try done. intros; simplify_eq.
    destruct (hookErr name o) eqn:Eo.
    + eapply (inv_hook names s _ i name HRun (HSend o) []); try done; cbn; rewrite ?app_nil_r; try done; try congruence; lia.
    + eapply (inv_hook names s _ i name HRun (HWg o) []); try done; cbn; rewrite ?app_nil_r, ?Eo; try done; lia.
  - destruct (hooks s !! i) as [[name [|o| |]]|] eqn:E; try done. case_bool_decide; [|done].
    destruct (hookErr name o) as [e|] eqn:Eo; [|done]. intros; simplify_eq.
    eapply (inv_hook names s _ i name (HSend o) (HWg o) [e]); try done; cbn; rewrite ?Eo; done.
  - destruct (hooks s !! i) as [[name [| |o|]]|] eqn:E; try done. intros; simplify_eq.
    destruct (lookup_middle _ _ _ E) as (l1 & l2 & El & Hins).
    assert (Hnot : forallb hookOver (hooks s) = true → False) by (rewrite El; intros H%over_middle; done).
    destruct HI as [Hn Hr Hs Hf Hd Hm]. constructor; cbn; rewrite ?Hins.
    + by rewrite <-Hn, El, !fmap_app.
    + rewrite El in Hr. rewrite pendings_middle, !length_app in *. done.
    + by rewrite Hs, El, !omap_app.
    + rewrite El in Hf. apply Forall_app in Hf as [? Hf]. inversion Hf; subst. apply Forall_app. split; [done|by constructor].
    + intros H%Hd. by destruct Hnot.
    + unfold mainOk in *. cbn. destruct (main s); [done|done|]. destruct Hm as [[Hh _]|[[Ho _]|?]]; [| |auto].
      * by rewrite Hh in E.
      * by destruct Hnot.
Qed.

Lemma sd_inv_run names l s s' : inv names s → run s l = Some s' → inv names s'.
Proof.
  revert s. induction l as [|a l IH]; intros s HI; cbn; [by intros [= <-]|].
  destruct (act s a) as [s1|] eqn:E; cbn; [|done]. intros. by eapply IH; [eapply sd_inv_act|].
Qed.

Lemma inv_Execute m e : inv (registered m) (Execute m e).
Proof.
  constructor; cbn; try done.
  - rewrite <-list_fmap_compose. apply list_fmap_id.
  - rewrite length_map. enough (∀ l, pendings (map (λ name, (name, HRun)) l) = length l) as -> by done.
    induction l as [|n l IH]; [done|]. cbn [length]. rewrite <-IH. done.
  - by induction (registered m).
  - apply Forall_fmap, Forall_true. done.
  - unfold mainOk; cbn. destruct (registered m); [|done]. destruct e as [e|]; [|by left].
    right; right. by exists e, [], [].
Qed.

(** ** Termination *)

Definition hookWeight (h : string * hookPhase) : nat :=
  match h.2 with HRun => 4 | HSend _ => 3 | HWg _ => 1 | HOver _ => 0 end.
Definition hooksLeft (l : list (string * hookPhase)) : nat := list_sum (map hookWeight l).
Arguments hooksLeft : simpl never.

Definition left_ (s : state) : nat :=
  (hooksLeft (hooks s) + length (errs s) + (if done_ s then 0 else 1) + (if ctxErr s is None then 1 else 0) +
   match main s with MSelect => 2 | MDrain _ => 1 | MReturned _ => 0 end)%nat.

Lemma hooksLeft_middle l1 h l2 : hooksLeft (l1 ++ h :: l2) = (hookWeight h + (hooksLeft l1 + hooksLeft l2))%nat.
Proof.
  unfold hooksLeft. rewrite map_app, list_sum_app. cbn [map].
  change (list_sum (hookWeight h :: map hookWeight l2)) with (hookWeight h + list_sum (map hookWeight l2))%nat. lia.
Qed.

Lemma hooksLeft_insert l i h h' :
  l !! i = Some h → (hooksLeft (<[i := h']> l) + hookWeight h = hooksLeft l + hookWeight h')%nat.
Proof.
  intros (l1 & l2 & -> & Hins)%lookup_middle. rewrite Hins, !hooksLeft_middle. lia.
Qed.

Lemma sd_act_decreases s a s' : act s a = Some s' → (left_ s' < left_ s)%nat.
Proof.
  unfold left_. destruct a as [i o|i|i| |e| | | |]; cbn.
  - destruct (hooks s !! i) as [[name [| | |]]|] eqn:E; try done. intros; simplify_eq; cbn.
    pose proof (hooksLeft_insert _ _ _ (name, match hookErr name o with Some _ => HSend o | None => HWg o end) E) as H.
    cbn in H. destruct (hookErr name o); cbn in H; lia.
  - destruct (hooks s !! i) as [[name [|o| |]]|] eqn:E; try done. case_bool_decide; [|done].
    destruct (hookErr name o) as [e|] eqn:Eo; [|done]. intros; simplify_eq; cbn.
    pose proof (hooksLeft_insert _ _ _ (name, HWg o) E) as H1. cbn in H1. rewrite length_app. cbn. lia.
  - destruct (hooks s !! i) as [[name [| |o|]]|] eqn:E; try done. intros; simplify_eq; cbn.
    pose proof (hooksLeft_insert _ _ _ (name, HOver o) E) as H1. cbn in H1. lia.
  - destruct (done_ s); cbn; [done|]. destruct (forallb _ _); [|done]. intros; simplify_eq; cbn. lia.
  - destruct (ctxErr s); [done|]. intros; simplify_eq; cbn. lia.
  - destruct (main s); try done. destruct (done_ s) eqn:Ed; [|done]. intros; simplify_eq; cbn. rewrite Ed. lia.
  - destruct (main s); try done. destruct (ctxErr s) eqn:Ec; [|done]. intros; simplify_eq; cbn. rewrite Ec. lia.
  - destruct (main s); try done. destruct (errs s); [done|]. intros; simplify_eq; cbn. lia.
  - destruct (main s); try done. destruct (errs s); [|done]. intros; simplify_eq; cbn. lia.
Qed.

Lemma sd_run_bounded l s s' : run s l = Some s' → (length l + left_ s' <= left_ s)%nat.
Proof.
  revert s. induction l as [|a l IH]; intros s; cbn; [intros [= <-]; lia|].
  destruct (act s a) as [s1|] eqn:E; cbn; [|done]. intros H%IH. apply sd_act_decreases in E. lia.
Qed.

(** ** Progress *)

(** A hook's send never blocks. *)
Lemma send_enabled names s i name o :
  inv names s → hooks s !! i = Some (name, HSend o) → is_Some (act s (Send i)).
Proof.
  intros HI E. cbn. rewrite E. destruct (lookup_middle _ _ _ E) as (l1 & l2 & El & _).
  pose proof (i_room _ _ HI) as Hr. rewrite El, pendings_middle in Hr. cbn [pending snd] in Hr.
  pose proof (i_phase _ _ HI) as Hf. rewrite El in Hf. apply Forall_app in Hf as [_ Hf]. inversion Hf as [|? ? Hp _]; subst.
  unfold phaseOk in Hp; cbn in Hp. rewrite bool_decide_true by (rewrite El; lia).
  by destruct (hookErr name o).
Qed.

(** Once the context has ended, [Execute] goes on without the hooks. *)
Lemma main_enabled names s :
  inv names s → ctxErr s ≠ None → (∀ r, main s ≠ MReturned r) →
  ∃ a, a ∈ [TakeCtx; Receive; Default] ∧ is_Some (act s a).
Proof.
  intros HI Hc Hr. destruct (main s) as [|f|r] eqn:Em; [| |by destruct (Hr r)].
  - exists TakeCtx. split; [set_solver|]. cbn. rewrite Em. by destruct (ctxErr s).
  - destruct (errs s) eqn:Ee; [exists Default|exists Receive]; (split; [set_solver|]); cbn; by rewrite Em, Ee.
Qed.

(** The steps of [Execute] and of the goroutines and hooks it has started. *)
Definition own (a : action) : bool := match a with CtxDone _ => false | _ => true end.

Lemma sd_progress names s : inv names s → (∀ r, main s ≠ MReturned r) → ∃ a, own a = true ∧ is_Some (act s a).
Proof.
  intros HI Hr. destruct (ctxErr s) eqn:Ec.
  { destruct (main_enabled names s HI) as (a & Ha & ?); [congruence|done|]. exists a. split; [|done].
    repeat (apply elem_of_cons in Ha as [->|Ha]; [done|]). by apply not_elem_of_nil in Ha. }
  pose proof (i_main _ _ HI) as Hm. unfold mainOk in Hm.
  destruct (main s) eqn:Em; [|destruct Hm as (? & ? & ? & _); congruence|by destruct (Hr r)].
  destruct (done_ s) eqn:Ed; [exists TakeDone; split; [done|]; cbn; by rewrite Em, Ed|].
  destruct (forallb hookOver (hooks s)) eqn:Eo; [exists CloseDone; split; [done|]; cbn; by rewrite Ed, Eo|].
  assert (∃ i name ph, hooks s !! i = Some (name, ph) ∧ hookOver (name, ph) = false) as (i & name & ph & E & Hn).
  { revert Eo. generalize (hooks s). induction l as [|[name ph] l IH]; [done|]. cbn.
    destruct (hookOver (name, ph)) eqn:Eh; cbn; [|intros _; by exists 0%nat, name, ph].
    intros H. destruct (IH H) as (i & n' & ph' & ? & ?). by exists (S i), n', ph'. }
  destruct ph; [exists (EndHook i HookOk)|exists (Send i); split; [done|]; by eapply send_enabled|exists (WgDone i)|done];
    (split; [done|]); cbn; by rewrite E.
Qed.

(** ** The claim *)

Lemma errors_Is_refl e : errors_Is e e = true.
Proof. destruct e; cbn; by rewrite bool_decide_true by done. Qed.

Lemma errors_Is_join f e t : errors_Is f t = true ∨ errors_Is e t = true → errors_Is (ErrJoin f e) t = true.
Proof. cbn. rewrite !orb_true_iff. tauto. Qed.

Lemma foldl_join_Is es f t : errors_Is f t = true ∨ t ∈ es → errors_Is (foldl ErrJoin f es) t = true.
Proof.
  revert f. induction es as [|e es IH]; intros f H; cbn [foldl]; [destruct H; [done|set_solver]|].
  apply IH. destruct H as [H|[->|H]%elem_of_cons]; [| |by right]; left; apply errors_Is_join; auto using errors_Is_refl.
Qed.

Lemma joinAll_cons e es : joinAll (e :: es) = Some (foldl ErrJoin e es).
Proof.
  unfold joinAll. cbn. revert e. induction es as [|e' es IH]; intros e; [done|]. cbn. by rewrite IH.
Qed.

(** The result names every error that was sent. *)
Definition reports (r : option error) (es : list error) : Prop :=
  ∀ e, e ∈ es → ∃ f, r = Some f ∧ errors_Is f e = true.

Lemma joinAll_reports es : reports (joinAll es) es ∧ (joinAll es = None → es = []).
Proof.
  destruct es as [|e es]; [split; [intros e []%not_elem_of_nil|done]|]. rewrite joinAll_cons. split; [|done].
  intros e' He. eexists. split; [done|]. apply foldl_join_Is.
  apply elem_of_cons in He as [->|?]; [left; apply errors_Is_refl|by right].
Qed.

Lemma over_ok names s i name ph :
  inv names s → forallb hookOver (hooks s) = true → sent s = [] →
  hooks s !! i = Some (name, ph) → ph = HOver HookOk.
Proof.
  intros HI Ho Hs E. destruct (lookup_middle _ _ _ E) as (l1 & l2 & El & _).
  rewrite El in Ho. apply over_middle in Ho. destruct ph as [| | |o]; try done.
  pose proof (i_sent _ _ HI) as Hp. rewrite Hs in Hp. apply Permutation_nil_l in Hp.
  rewrite El, omap_app in Hp. cbn in Hp. destruct o; [done|..]; cbn in Hp; by destruct (omap sentErr l1).
Qed.

(** How [Execute] has returned. *)
Lemma sd_returned names s r : inv names s → main s = MReturned r →
  (forallb hookOver (hooks s) = true ∧ r = joinAll (sent s)) ∨
  (∃ ce got rest, ctxErr s = Some ce ∧ sent s = got ++ rest ∧ r = Some (foldl ErrJoin ce got)).
Proof.
  intros HI Er. pose proof (i_main _ _ HI) as Hm. unfold mainOk in Hm. rewrite Er in Hm.
  destruct Hm as [[Hh ->]|[?|?]]; [left|by left|by right]. rewrite Hh. split; [done|].
  pose proof (i_sent _ _ HI) as Hp. rewrite Hh in Hp. by apply Permutation_nil_r in Hp as ->.
Qed.

(** A nil result: every hook has succeeded. *)
Lemma sd_returned_nil names s i name ph : inv names s → main s = MReturned None →
  hooks s !! i = Some (name, ph) → ph = HOver HookOk.
Proof.
  intros HI Er E. destruct (sd_returned _ _ _ HI Er) as [[Ho Hj]|(ce & got & rest & _ & _ & [=])].
  eapply over_ok; [done..| |done]. symmetry in Hj. by apply joinAll_reports in Hj.
Qed.

(** C27: However the hooks, the context and the scheduler interleave, no hook
    ever blocks on reporting its error (the channel has room for all), and when
    Execute returns, either all hooks are over and the result joins exactly the errors of all of them,
    panics included, in the order they were reported (nil only if every hook
    succeeded), or the context has ended and the result is its error joined
    with the first errors reported. Once the context has ended, Execute returns
    without waiting for any hook. Every execution has at most four steps per
    hook and four more, and as long as Execute has not returned, it or one of
    its goroutines has a step, a hook that is running its return: so it returns
    once its hooks do, under a context that never ends too. *)
Theorem shutdown_exact m e l s : run (Execute m e) l = Some s →
  (∀ i name o, hooks s !! i = Some (name, HSend o) → is_Some (act s (Send i))) ∧
  (∀ r, main s = MReturned r →
     (forallb hookOver (hooks s) = true ∧ r = joinAll (sent s) ∧ sent s ≡ₚ omap sentErr (hooks s) ∧ reports r (sent s)) ∨
     (∃ ce got rest, ctxErr s = Some ce ∧ sent s = got ++ rest ∧ r = Some (foldl ErrJoin ce got) ∧ reports r (ce :: got))) ∧
  (main s = MReturned None → ∀ i name ph, hooks s !! i = Some (name, ph) → ph = HOver HookOk) ∧
  (ctxErr s ≠ None → (∀ r, main s ≠ MReturned r) → ∃ a, a ∈ [TakeCtx; Receive; Default] ∧ is_Some (act s a)) ∧
  (length l <= 4 * length (registered m) + 4)%nat ∧
  ((∀ r, main s ≠ MReturned r) → ∃ a, own a = true ∧ is_Some (act s a)).
Proof.
  intros Hrun. pose proof (sd_inv_run _ _ _ _ (inv_Execute m e) Hrun) as HI.
  split_and!.
  - intros. by eapply send_enabled.
  - intros r Er. destruct (sd_returned _ _ r HI Er) as [[Ho ->]|(ce & got & rest & Hc & Hs & ->)]; [left|right].
    + split_and!; [done|done|apply (i_sent _ _ HI)|apply joinAll_reports].
    + exists ce, got, rest. split_and!; [done..|]. intros e' He. eexists. split; [done|]. apply foldl_join_Is.
      apply elem_of_cons in He as [->|?]; [left; apply errors_Is_refl|by right].
  - intros Er i name ph. by apply (sd_returned_nil (registered m)).
  - intros. by eapply main_enabled.
  - pose proof (sd_run_bounded _ _ _ Hrun) as Hb. enough (left_ (Execute m e) <= 4 * length (registered m) + 4)%nat by lia.
    unfold left_. cbn.
    enough (∀ l, hooksLeft (map (λ name, (name, HRun)) l) = (4 * length l)%nat) as -> by (repeat case_match; lia).
    induction l0 as [|n l0 IH]; [done|]. cbn [length]. rewrite Nat.mul_succ_r, Nat.add_comm, <-IH. done.
  - by apply (sd_progress _ _ HI).
Qed.

Lemma shutdown_exact_witness :
  let m := Register (Register (New Second) "db") "http" in
  let l := [EndHook 1 (HookPanic "boom"); Send 1; EndHook 0 (HookErr Canceled); WgDone 1; Send 0;
            WgDone 0; CloseDone; TakeDone] in
  ∃ s r, run (Execute m None) l = Some s ∧ main s = MReturned r ∧ reports r (sent s).
Proof.
  intros m l. destruct (run (Execute m None) l) as [s|] eqn:E; [|by vm_compute in E].
  assert (Em : main s = MReturned (joinAll (sent s)) ∧ ctxErr s = None)
    by (vm_compute in E; injection E as <-; by vm_compute).
  destruct Em as [Em Ec]. exists s, (joinAll (sent s)). split_and!; [done..|].
  destruct (proj1 (proj2 (shutdown_exact m None l s E)) _ Em) as [(_ & _ & _ & H)|(ce & ? & ? & Hc & _)]; [done|congruence].
Defined.
