(* ===== verification/Health.v ===== *)
(** Health checks (health/health.go): the checkers of a service run in
    parallel, and the handler reports them. *)
From S2P Require Import Prelude Text.

Record CheckResult := mkCheck { CStatus : string; CMessage : string }.

Record RuntimeInfo := mkRuntime {
  GoVersion : string; Goroutines : Z; NumCPU : Z; AllocMB : Z; SysMB : Z; GCRuns : Z }.

(** [Response]; the uptime is the duration that is printed. *)
Record HealthResponse := mkHealth {
  Status : string;
  Timestamp : Time;
  Uptime : option Duration;
  Checks : gmap string CheckResult;
  Runtime : option RuntimeInfo;
}.

(** What a checker does with the context of a request: it returns nil or an
    error (with its text), panics, or never returns. *)
Inductive checkEnd := CheckOk | CheckErr (msg : string) | CheckPanic | CheckHangs.

Record Service := mkService { startTime : Time; checkers : gmap string checkEnd; withRuntime : bool }.

Inductive HealthOption :=
| WithStartTime (t : Time)
| WithChecker (name : string) (fn : checkEnd)
| WithRuntimeInfo.

Definition applyHealthOption (s : Service) (o : HealthOption) : Service :=
  match o with
  | WithStartTime t => mkService t (checkers s) (withRuntime s)
  | WithChecker name fn => mkService (startTime s) (<[name := fn]> (checkers s)) (withRuntime s)
  | WithRuntimeInfo => mkService (startTime s) (checkers s) true
  end.
Definition New (now : Time) (opts : list HealthOption) : Service :=
  foldl applyHealthOption (mkService now ∅ false) opts.

(** [Duration.Round]: to a multiple of [m], halves away from zero. *)
Definition Round (d m : Duration) : Duration :=
  let r := Z.rem d m in
  if d <? 0 then if 2 * Z.abs r <? m then d - r else d - r - m
  else if 2 * r <? m then d - r else d - r + m.

(** [getRuntimeInfo] from what the runtime reports, memory in bytes. *)
Record MemStats := mkMem { Alloc : Z; Sys : Z; NumGC : Z }.
Definition getRuntimeInfo (version : string) (goroutines cpus : Z) (mem : MemStats) : RuntimeInfo :=
  mkRuntime version goroutines cpus (Alloc mem / 1024 / 1024) (Sys mem / 1024 / 1024) (NumGC mem).

(** The goroutine of a checker: what it sends, if it sends something. *)
Record checkOutput := mkOutput { oname : string; ores : CheckResult; opass : bool }.
Definition checkOnce (c : string * checkEnd) : option checkOutput :=
  match c.2 with
  | CheckOk => Some (mkOutput c.1 (mkCheck "pass" "") true)
  | CheckErr msg => Some (mkOutput c.1 (mkCheck "fail" msg) false)
  | _ => None
  end.

(** The loop over the results. *)
Definition collect (outs : list checkOutput) : gmap string CheckResult * bool :=
  foldl (λ '(m, allPass) out, (<[oname out := ores out]> m, if opass out then allPass else false)) (∅, true) outs.

(** A reply; a panic of a checker ends the process, as nothing recovers it; a
    checker that does not return blocks the handler in [wg.Wait]. *)
Inductive handled := Reply (code : Z) (r : HealthResponse) | Crash | Blocked.

(** [Handler], with the checkers in the order in which they end. *)
Definition Handler (s : Service) (order : list (string * checkEnd)) (now later : Time)
    (info : RuntimeInfo) : handled :=
  if existsb (λ c, match c.2 with CheckPanic => true | _ => false end) order then Crash
  else if existsb (λ c, match c.2 with CheckHangs => true | _ => false end) order then Blocked
  else
    let '(checks, allPass) := collect (omap checkOnce order) in
    Reply (if allPass then 200 else 503)
      (mkHealth (if allPass then "healthy" else "degraded") now
         (if time_IsZero (startTime s) then None else Some (Round (time_Sub later (startTime s)) Second))
         checks (if withRuntime s then Some info else None)).

(** [LivenessHandler] and [ReadinessHandler]. *)
Definition LivenessHandler : Z * string := (200, "{" +:+ quoted "status" +:+ ":" +:+ quoted "ok" +:+ "}").
Definition ReadinessHandler (now : Time) (info : RuntimeInfo) : handled :=
  Reply 200 (mkHealth "ready" now None ∅ (Some info)).

(** ** What the reply says *)

Definition passes (c : checkEnd) : bool := match c with CheckOk => true | _ => false end.
Definition returns (c : checkEnd) : bool := match c with CheckOk | CheckErr _ => true | _ => false end.
Definition resultOf (c : checkEnd) : CheckResult :=
  match c with CheckErr msg => mkCheck "fail" msg | _ => mkCheck "pass" "" end.

Lemma collect_snoc outs out :
  collect (outs ++ [out]) = (<[oname out := ores out]> (collect outs).1, opass out && (collect outs).2).
Proof. unfold collect. rewrite foldl_app. cbn. destruct (foldl _ _ outs). by destruct (opass out). Qed.

(** The collected map and verdict do not depend on the order of the results. *)
Lemma collect_spec (l : list (string * checkEnd)) :
  NoDup l.*1 → Forall (λ c, returns c.2 = true) l →
  collect (omap checkOnce l) = (resultOf <$> list_to_map l, forallb (λ c, passes c.2) l).
Proof.
  induction l as [|[n c] l IH] using rev_ind; [done|].
  rewrite fmap_app, omap_app. intros (Hnd & Hn & _)%NoDup_app [Hr Hc]%Forall_app. inversion Hc as [|? ? Hc' _]; subst.
  cbn in Hc'.
  assert (Hl : (list_to_map (l ++ [(n, c)]) : gmap string checkEnd) = <[n := c]> (list_to_map l)).
  { rewrite list_to_map_app. cbn. rewrite insert_empty, insert_union_singleton_l.
    apply map_union_comm, map_disjoint_singleton_r_2, not_elem_of_list_to_map_1.
    intros Hin. apply (Hn n Hin). set_solver. }
  rewrite forallb_app, Hl, fmap_insert. destruct c; try done; cbn; rewrite collect_snoc, IH by done; cbn.
  - by rewrite andb_true_r.
  - by rewrite andb_false_r.
Qed.

(** The health report does not depend on the order in which the checkers
    end: if all of them return, each is reported under its name as pass or as
    fail with the text of its error, the status is 200 and healthy when all pass, and 503 and
    degraded as soon as one fails. A checker that panics takes the process down, and one that
    ignores its context blocks the handler, whatever its five-second timeout says. *)
Lemma health_exact s order now later info : order ≡ₚ map_to_list (checkers s) →
  let allPass := map_Forall (λ _ c, passes c = true) (checkers s) in
  (map_Forall (λ _ c, returns c = true) (checkers s) →
   ∃ r, Handler s order now later info = Reply (if bool_decide allPass then 200 else 503) r ∧
        Checks r = resultOf <$> checkers s ∧ (Status r = "healthy" ↔ allPass)) ∧
  ((∃ n, checkers s !! n = Some CheckPanic) → Handler s order now later info = Crash) ∧
  ((∃ n, checkers s !! n = Some CheckHangs) → (∀ n, checkers s !! n ≠ Some CheckPanic) →
   Handler s order now later info = Blocked).
Proof.
  intros Hp allPass.
  assert (Hin : ∀ n c, (n, c) ∈ order ↔ checkers s !! n = Some c)
    by (intros; by rewrite Hp, elem_of_map_to_list).
  assert (Hex : ∀ P : string * checkEnd → bool, existsb P order = true ↔ ∃ n c, checkers s !! n = Some c ∧ P (n, c) = true).
  { intros P. rewrite existsb_exists. split.
    - intros ([n c] & Hx%list_elem_of_In & ?). exists n, c. by rewrite <-Hin.
    - intros (n & c & Hx & ?). exists (n, c). by rewrite <-list_elem_of_In, Hin. }
  unfold Handler. split_and!.
  - intros Hret.
    do 2 (destruct (existsb _ order) eqn:E1;
      [exfalso; apply Hex in E1 as (n & c & Hc & Hd); pose proof (Hret n c Hc); by destruct c|clear E1]).
    rewrite collect_spec.
    2: { rewrite Hp. apply NoDup_fst_map_to_list. }
    2: { apply Forall_forall. intros [n c] Hc%Hin. by apply (Hret n). }
    assert (Hall : forallb (λ c, passes c.2) order = bool_decide allPass).
    { apply eq_bool_prop_intro. rewrite bool_decide_spec, Is_true_true, forallb_forall. split.
      - intros H n c Hc. apply (H (n, c)). by apply list_elem_of_In, Hin.
      - intros H [n c] Hc%list_elem_of_In%Hin. by apply (H n c). }
    assert (Hl : list_to_map order = checkers s).
    { rewrite <-(list_to_map_to_list (checkers s)). apply list_to_map_proper; [|done].
      rewrite Hp. apply NoDup_fst_map_to_list. }
    rewrite Hall, Hl. eexists. split_and!; [done|done|]. cbn. by case_bool_decide.
  - intros [n Hn]. rewrite (proj2 (Hex _)); [done|]. by exists n, CheckPanic.
  - intros [n Hn] Hno. destruct (existsb _ order) eqn:E1.
    { apply Hex in E1 as (n' & c & Hc & Hd). destruct c; try done. by destruct (Hno n'). }
    rewrite (proj2 (Hex _)); [done|]. by exists n, CheckHangs.
Qed.

Lemma health_exact_witness :
  let s := New 0 [WithChecker "db" CheckOk; WithChecker "cache" (CheckErr "timeout")] in
  let order := map_to_list (checkers s) in
  let info := mkRuntime "go1.25" 1 1 0 0 0 in
  ∃ r, Handler s order 1 1 info = Reply 503 r ∧ Checks r !! "cache" = Some (mkCheck "fail" "timeout").
Proof.
  intros s order info.
  destruct (proj1 (health_exact s order 1 1 info ltac:(done))) as (r & E & Ec & _).
  { by apply (bool_decide_unpack _); vm_compute. }
  exists r. split; [exact E|]. rewrite Ec. reflexivity.
Defined.
