(* ===== verification/Retry.v ===== *)
(** Retry with backoff (retry/retry.go): the wait times, in machine arithmetic,
    and the attempt loop. *)
From S2P Require Import Prelude Float64.

Inductive Strategy := Constant | Linear | Exponential | ExponentialJitter.

(** [Config]; [ShouldRetry] may be nil. *)
Record Config := mkConfig {
  Attempts : Z;
  InitialWait : Duration;
  MaxWait : Duration;
  Strategy_ : Strategy;
  ShouldRetry : option (error → bool);
}.

Definition ErrMaxAttemptsReached : error := ErrNew "retry: max attempts reached".

(** [math.Pow(2, n)] for the exponents in use, and [float64(math.MaxInt64)]. *)
Definition pow2 (n : Z) : float64 := of_int (2 ^ n).
Definition maxFloat : float64 := of_int maxInt64.

(** [time.Duration(f)] of a float below [2^63]. *)
Definition toDuration (f : float64) : Duration := default minInt64 (to_int64 f).

(** [computeWait]; [rnd] is the result of [rand.Float64()]. *)
Definition computeWait (cfg : Config) (attempt : Z) (rnd : float64) : Duration :=
  if InitialWait cfg <=? 0 then 0
  else
    let expAttempt := if 30 <? attempt then 30 else attempt in
    let d := match Strategy_ cfg with
             | Linear =>
                 let a := if 1000000 <? attempt then 1000000 else attempt in
                 InitialWait cfg *! (a + 1)
             | Exponential =>
                 let val := fmul (of_int (InitialWait cfg)) (pow2 expAttempt) in
                 if fleb maxFloat val then maxInt64 else toDuration val
             | ExponentialJitter =>
                 let ceiling := fmul (of_int (InitialWait cfg)) (pow2 expAttempt) in
                 let ceiling' := if fleb maxFloat ceiling then maxFloat else ceiling in
                 toDuration (fmul rnd ceiling')
             | Constant => InitialWait cfg
             end in
    let d1 := if d <? 0 then 0 else d in
    if (0 <? MaxWait cfg) && (MaxWait cfg <? d1) then MaxWait cfg else d1.

(** The world of a call: what [fn] returns at each attempt, [ctx.Err()] before
    the attempt and at the end of the wait after it (when the context ends
    first), and the random numbers. *)
Record world (T : Type) := World {
  fn : Z → T + error;
  ctxBefore : Z → option error;
  ctxWaiting : Z → option error;
  random : Z → float64;
}.
Arguments World {T} _ _ _ _.
Arguments fn {T} _ _.
Arguments ctxBefore {T} _ _.
Arguments ctxWaiting {T} _ _.
Arguments random {T} _ _.

(** What a call does: its result, the number of calls of [fn], the waits. *)
Record report (T : Type) := Report { result : T + error; calls : Z; waits : list Duration }.
Arguments Report {T} _ _ _.
Arguments result {T} _.
Arguments calls {T} _.
Arguments waits {T} _.

Section retry.
Context {T : Type} (cfg : Config) (w : world T).

Definition attempts : Z := if Attempts cfg <=? 0 then 1 else Attempts cfg.
Definition shouldRetry (e : error) : bool :=
  match ShouldRetry cfg with Some p => p e | None => true end.

(** The loop of [doInternal], with [left] attempts to go before the last one. *)
Fixpoint loop (left : nat) (attempt : Z) (ws : list Duration) : report T :=
  match ctxBefore w attempt with
  | Some e => Report (inr e) attempt ws
  | None =>
      match fn w attempt with
      | inl v => Report (inl v) (attempt + 1) ws
      | inr e =>
          if negb (shouldRetry e) then Report (inr e) (attempt + 1) ws
          else
            match left with
            | O => Report (inr (ErrJoin ErrMaxAttemptsReached e)) (attempt + 1) ws
            | S left' =>
                let wait := computeWait cfg attempt (random w attempt) in
                if 0 <? wait then
                  match ctxWaiting w attempt with
                  | Some e' => Report (inr e') (attempt + 1) (ws ++ [wait])
                  | None => loop left' (attempt + 1) (ws ++ [wait])
                  end
                else loop left' (attempt + 1) ws
            end
      end
  end.

Definition doInternal : report T := loop (Z.to_nat (attempts - 1)) 0 [].
Definition DoWithResult : report T := doInternal.

(** ** The loop *)

(** Attempt [i] was made and failed in a way that allows another one. *)
Definition retried (i : Z) : Prop :=
  ctxBefore w i = None ∧ ∃ e, fn w i = inr e ∧ shouldRetry e = true ∧
    (0 < computeWait cfg i (random w i) → ctxWaiting w i = None).

(** Why the loop ended after attempt [i], with which result. *)
Definition ended (n i : Z) (r : T + error) (calls : Z) : Prop :=
  match ctxBefore w i with
  | Some e => r = inr e ∧ calls = i
  | None =>
      calls = i + 1 ∧
      match fn w i with
      | inl v => r = inl v
      | inr e =>
          if negb (shouldRetry e) then r = inr e
          else if i =? n - 1 then r = inr (ErrJoin ErrMaxAttemptsReached e)
          else 0 < computeWait cfg i (random w i) ∧ ∃ e', ctxWaiting w i = Some e' ∧ r = inr e'
      end
  end.

Lemma loop_spec left attempt ws n :
  attempt + Z.of_nat left = n - 1 →
  ∃ i, attempt <= i < n ∧ (∀ j, attempt <= j < i → retried j) ∧
    ended n i (result (loop left attempt ws)) (calls (loop left attempt ws)) ∧
    ∃ ws', waits (loop left attempt ws) = ws ++ ws' ∧ Z.of_nat (length ws') <= Z.of_nat left ∧
           Forall (λ d, 0 < d ∧ ∃ k, d = computeWait cfg k (random w k)) ws'.
Proof.
  revert attempt ws. induction left as [|left IH]; intros attempt ws Hn; cbn [loop];
    destruct (ctxBefore w attempt) as [e|] eqn:Ec.
  1,3: exists attempt; unfold ended; rewrite Ec; split_and!; try lia; try done;
    exists []; rewrite app_nil_r; repeat split; simpl; try lia; constructor.
  all: destruct (fn w attempt) as [v|e] eqn:Ef.
  1,3: exists attempt; unfold ended; rewrite Ec, Ef; split_and!; try lia; try done;
    exists []; rewrite app_nil_r; repeat split; simpl; try lia; constructor.
  all: destruct (shouldRetry e) eqn:Es; simpl.
  2,4: exists attempt; unfold ended; rewrite Ec, Ef, Es; split_and!; try lia; try done;
    exists []; rewrite app_nil_r; repeat split; simpl; try lia; constructor.
  - exists attempt. unfold ended. rewrite Ec, Ef, Es, (proj2 (Z.eqb_eq attempt (n - 1))) by lia.
    split_and!; try lia; try done. exists []. rewrite app_nil_r. repeat split; simpl; try lia. constructor.
  - set (wait := computeWait cfg attempt (random w attempt)).
    assert (∀ ws1, (0 < wait → ctxWaiting w attempt = None) →
      ∃ i, attempt <= i < n ∧ (∀ j, attempt <= j < i → retried j) ∧
        ended n i (result (loop left (attempt + 1) ws1)) (calls (loop left (attempt + 1) ws1)) ∧
        ∃ ws', waits (loop left (attempt + 1) ws1) = ws1 ++ ws' ∧ Z.of_nat (length ws') <= Z.of_nat left ∧
           Forall (λ d, 0 < d ∧ ∃ k, d = computeWait cfg k (random w k)) ws') as Hnext.
    { intros ws1 Hw. destruct (IH (attempt + 1) ws1 ltac:(lia)) as (i & Hi & Hr & He & Hws).
      exists i. split_and!; [lia..| |done|done]. intros j Hj.
      destruct (decide (j = attempt)) as [->|]; [|apply Hr; lia]. split; eauto. }
    destruct (0 <? wait) eqn:Ew; bool_to_prop.
    + destruct (ctxWaiting w attempt) as [e'|] eqn:Ectx.
      * exists attempt. unfold ended. rewrite Ec, Ef, Es, (proj2 (Z.eqb_neq attempt (n - 1))) by lia.
        split_and!; try lia; try done; [simpl; by eauto|]. exists [wait]. split_and!; [done|simpl; lia|].
        repeat constructor; eauto.
      * destruct (Hnext (ws ++ [wait])) as (i & Hi & Hr & He & ws' & Hws & Hlen & Hall); [done|].
        exists i. split_and!; try done; try lia. exists (wait :: ws'). rewrite Hws, <-app_assoc.
        split_and!; [done|simpl; lia|]. constructor; eauto.
    + destruct (Hnext ws) as (i & Hi & Hr & He & ws' & Hws & Hlen & Hall); [lia|].
      exists i. split_and!; try done; try lia. exists ws'. split_and!; [done|lia|done].
Qed.

(** The attempt loop, on every branch. [fn] is called at most [Attempts]
    times (once when [Attempts] is not positive); there is a last round [i]
    before which every attempt failed with an error to retry; and in that round
    the context had ended (its error is returned), or [fn] succeeded (its value
    is returned), or failed with an error not to retry (returned as it is), or
    failed in the last attempt (the error wraps [ErrMaxAttemptsReached] and the
    last error), or the context ended during the wait. There are fewer waits
    than attempts, and each is the computed one. *)
Lemma loop_branches :
  let n := attempts in
  let rep := doInternal in
  1 <= n ∧ calls rep <= n ∧
  (∃ i, 0 <= i < n ∧ (∀ j, 0 <= j < i → retried j) ∧ ended n i (result rep) (calls rep)) ∧
  Z.of_nat (length (waits rep)) < n ∧
  Forall (λ d, 0 < d ∧ ∃ k, d = computeWait cfg k (random w k)) (waits rep).
Proof.
  cbv zeta. assert (1 <= attempts) as Hn.
  { unfold attempts. destruct (Attempts cfg <=? 0) eqn:E; bool_to_prop; lia. }
  destruct (loop_spec (Z.to_nat (attempts - 1)) 0 [] attempts) as (i & Hi & Hr & He & ws & Hws & Hlen & Hall);
    [lia|].
  fold doInternal in He, Hws. rewrite Hws. simpl. split_and!; try done; try lia; [|by eauto].
  unfold ended in He. destruct (ctxBefore w i); lia.
Qed.
End retry.

(** [Do]: the same loop for a function without a value. *)
Definition Do (cfg : Config) (w : world unit) : option error :=
  match result (doInternal cfg w) with inl _ => None | inr e => Some e end.

(** Without an end of the context, [Do] reports success exactly when an attempt succeeds
    after only failures to retry. *)
Lemma Do_succeeds cfg (w : world unit) :
  (∀ i, ctxBefore w i = None ∧ ctxWaiting w i = None) →
  Do cfg w = None → ∃ i, 0 <= i < attempts cfg ∧ fn w i = inl () ∧ ∀ j, 0 <= j < i → ∃ e, fn w j = inr e ∧ shouldRetry cfg e = true.
Proof.
  intros Hctx. unfold Do. destruct (loop_branches cfg w) as (_ & _ & (i & Hi & Hb & He) & _). cbv zeta in *.
  destruct (result (doInternal cfg w)) as [[]|e]; [|done]. intros _. exists i. split; [done|].
  assert (∀ j, 0 <= j < i → ∃ e, fn w j = inr e ∧ shouldRetry cfg e = true) as Hj.
  { intros j Hj. destruct (Hb j Hj) as (_ & e & ? & ? & _). eauto. }
  split; [|done]. unfold ended in He. rewrite (proj1 (Hctx i)) in He. destruct He as [_ He].
  destruct (fn w i) as [[]|e]; [done|]. exfalso. repeat case_match; naive_solver.
Qed.

(** The computed wait is never negative and, when [MaxWait] is set, never
    above it, for every strategy, attempt and random number; without overflow
    the linear wait is [(attempt + 1) * InitialWait], up to the cap. *)
Lemma wait_range cfg attempt rnd :
  in_int64 (MaxWait cfg) → in_int64 (InitialWait cfg) →
  let d := computeWait cfg attempt rnd in
  0 <= d <= maxInt64 ∧ (0 < MaxWait cfg → d <= MaxWait cfg) ∧
  (Strategy_ cfg = Linear → 0 <= attempt <= 1000000 → 0 <= InitialWait cfg →
   InitialWait cfg * (attempt + 1) <= maxInt64 →
   d = if 0 <? MaxWait cfg then Z.min (MaxWait cfg) (InitialWait cfg * (attempt + 1))
       else InitialWait cfg * (attempt + 1)).
Proof.
  intros Hmax Hinit. unfold computeWait. destruct (InitialWait cfg <=? 0) eqn:E0; bool_to_prop.
  { split_and!; try (unfold maxInt64; lia). intros _ _ Hi _. assert (InitialWait cfg = 0) as -> by lia.
    simpl. destruct (0 <? MaxWait cfg) eqn:E; bool_to_prop; lia. }
  set (d := match Strategy_ cfg with Constant => _ | Linear => _ | Exponential => _ | ExponentialJitter => _ end).
  assert (in_int64 d) as Hd.
  { assert (∀ f, in_int64 (toDuration f)) as Ht.
    { intros f. unfold toDuration, to_int64. repeat case_match; simpl; bool_to_prop;
        unfold in_int64, minInt64, maxInt64 in *; lia. }
    unfold d. destruct (Strategy_ cfg); [done|apply wrap64_range| |apply Ht].
    case_match; [unfold in_int64, minInt64, maxInt64; lia | apply Ht]. }
  assert (Strategy_ cfg = Linear → 0 <= attempt <= 1000000 → InitialWait cfg * (attempt + 1) <= maxInt64 →
    d = InitialWait cfg * (attempt + 1)) as Hlin.
  { intros Hs Ha Hfit. unfold d. rewrite Hs. rewrite (proj2 (Z.ltb_ge _ _)) by lia.
    apply wrap64_id. unfold in_int64, minInt64, maxInt64 in *. nia. }
  clearbody d. unfold in_int64, minInt64, maxInt64 in *.
  destruct (d <? 0) eqn:Ed, (0 <? MaxWait cfg) eqn:Em; simpl; bool_to_prop.
  all: try (destruct (MaxWait cfg <? _) eqn:El; bool_to_prop).
  all: split_and!; try lia; intros Hs Ha Hi Hfit; pose proof (Hlin Hs Ha Hfit);
    assert (0 <= InitialWait cfg * (attempt + 1)) by nia; lia.
Qed.


(** Without a cap the linear strategy can overflow: with a first wait of 9300
    seconds, attempt number 999999 does not wait at all, although attempt
    number 991000 waits almost three hundred years. *)
Lemma linear_overflows :
  let cfg := mkConfig 5 (9300 * Second) 0 Linear None in
  0 < computeWait cfg 991000 f0 ∧ computeWait cfg 999999 f0 = 0.
Proof. vm_compute. intuition. Qed.

(** C33: retries, on every branch. [fn] is called at most [Attempts] times (once
    when [Attempts] is not positive); there is a last round before which every
    attempt failed with an error to retry, and in which the context had ended, or [fn] succeeded, or
    failed with an error not to retry, or failed in the last attempt (the
    error wraps [ErrMaxAttemptsReached] and the last error), or the context
    ended during the wait, with the result of that branch; there are fewer waits than attempts, each the computed one.
    The computed wait is never negative, never above [MaxWait] when that is set, and linear waits are exact without overflow. *)
Theorem retry_loop :
  (∀ (T : Type) (cfg : Config) (w : world T),
    let n := attempts cfg in
    let rep := doInternal cfg w in
    1 <= n ∧ calls rep <= n ∧
    (∃ i, 0 <= i < n ∧ (∀ j, 0 <= j < i → retried cfg w j) ∧ ended cfg w n i (result rep) (calls rep)) ∧
    Z.of_nat (length (waits rep)) < n ∧
    Forall (λ d, 0 < d ∧ ∃ k, d = computeWait cfg k (random w k)) (waits rep)) ∧
  (∀ cfg attempt rnd,
   in_int64 (MaxWait cfg) → in_int64 (InitialWait cfg) →
    let d := computeWait cfg attempt rnd in
    0 <= d <= maxInt64 ∧ (0 < MaxWait cfg → d <= MaxWait cfg) ∧
    (Strategy_ cfg = Linear → 0 <= attempt <= 1000000 → 0 <= InitialWait cfg →
     InitialWait cfg * (attempt + 1) <= maxInt64 →
     d = if 0 <? MaxWait cfg then Z.min (MaxWait cfg) (InitialWait cfg * (attempt + 1))
         else InitialWait cfg * (attempt + 1))).
Proof. split; [intros T; apply loop_branches|apply wait_range]. Qed.

Lemma retry_loop_witness :
  let cfg := mkConfig 5 100 250 Linear None in
  let d := computeWait cfg 2 f0 in
  0 <= d <= maxInt64 ∧ (0 < MaxWait cfg → d <= MaxWait cfg) ∧
  (Strategy_ cfg = Linear → 0 <= 2 <= 1000000 → 0 <= InitialWait cfg →
   InitialWait cfg * (2 + 1) <= maxInt64 →
   d = if 0 <? MaxWait cfg then Z.min (MaxWait cfg) (InitialWait cfg * (2 + 1))
       else InitialWait cfg * (2 + 1)).
Proof. apply (proj2 retry_loop); vm_compute; intuition discriminate. Defined.
