(* ===== verification/FakeClock.v ===== *)
(** The controllable clock of the tests (clock/fake.go): timers, tickers and
    sleepers fired by moving the time. Timers and tickers are shared between
    the clock and their users, so both live in memory under addresses. *)
From S2P Require Import Prelude.

(** A channel of capacity one: its buffer. A send to a full one is dropped. *)
Definition trySend (c : option Time) (t : Time) : option Time :=
  match c with Some _ => c | None => Some t end.

Record fakeTimer := Timer { t_c : option Time; t_deadline : Time; t_stopped : bool }.
Record fakeTicker := Ticker { k_c : option Time; k_period : Duration; k_deadline : Time; k_stopped : bool }.

(** A sleeper: [s_woken] tells whether its channel is closed. *)
Record sleepWaiter := Sleeper { s_deadline : Time; s_woken : bool }.

Record FakeClock := Fake {
  now : Time;
  timers : list positive;
  tickers : list positive;
  sleepWaiters : list positive;
  timerMem : gmap positive fakeTimer;
  tickerMem : gmap positive fakeTicker;
  sleeperMem : gmap positive sleepWaiter;
  fresh_ : positive;
}.

Definition NewFakeAt (start : Time) : FakeClock := Fake start [] [] [] ∅ ∅ ∅ 1.

(** [NewFake]: January 1, 2026. *)
Definition NewFake : FakeClock := NewFakeAt (unixEpoch + 1767225600 * Second).

Definition Now (f : FakeClock) : Time := now f.
Definition Since (f : FakeClock) (t : Time) : Duration := time_Sub (now f) t.
Definition Until (f : FakeClock) (t : Time) : Duration := time_Sub t (now f).

(** ** Moving the time *)

(** The timer loop: an expired timer is stopped, sends its deadline and leaves
    the list; a stopped one just leaves. *)
Definition fireTimer (target : Time) (t : fakeTimer) : fakeTimer :=
  if t_stopped t then t
  else if time_Before target (t_deadline t) then t
  else Timer (trySend (t_c t) (t_deadline t)) (t_deadline t) true.

Definition keepTimer (target : Time) (t : fakeTimer) : bool :=
  negb (t_stopped t) && time_Before target (t_deadline t).

(** The ticker loop: one send per period up to the target. *)
Fixpoint tickLoop (fuel : nat) (target : Time) (k : fakeTicker) : option fakeTicker :=
  if negb (k_stopped k) && negb (time_Before target (k_deadline k)) then
    match fuel with
    | O => None
    | S fuel' =>
        let c := trySend (k_c k) (k_deadline k) in
        if k_period k <=? 0 then Some (Ticker c (k_period k) (k_deadline k) true)
        else tickLoop fuel' target (Ticker c (k_period k) (time_Add (k_deadline k) (k_period k)) (k_stopped k))
    end
  else Some k.

(** One period per round. *)
Definition tickFuel (target : Time) (k : fakeTicker) : nat :=
  if k_period k <=? 0 then 1 else S (Z.to_nat ((target - k_deadline k) / k_period k)).

Definition fireTicker (target : Time) (k : fakeTicker) : fakeTicker :=
  if k_stopped k then k else default k (tickLoop (tickFuel target k) target k).

Definition wakeSleeper (target : Time) (s : sleepWaiter) : sleepWaiter :=
  if s_woken s then s
  else if time_Before target (s_deadline s) then s else Sleeper (s_deadline s) true.

Definition keepSleeper (target : Time) (s : sleepWaiter) : bool :=
  negb (s_woken s) && time_Before target (s_deadline s).

(** The elements of a list of addresses, updated in memory. *)
Definition updateAll {A} (g : A → A) (ls : list positive) (m : gmap positive A) : gmap positive A :=
  foldl (λ m l, match m !! l with Some x => <[l := g x]> m | None => m end) m ls.

Definition keepAll {A} (p : A → bool) (m : gmap positive A) (ls : list positive) : list positive :=
  filter (λ l, from_option p false (m !! l) = true) ls.

Definition advanceLocked (f : FakeClock) (target : Time) : FakeClock :=
  Fake target
    (keepAll (keepTimer target) (timerMem f) (timers f))
    (tickers f)
    (keepAll (keepSleeper target) (sleeperMem f) (sleepWaiters f))
    (updateAll (fireTimer target) (timers f) (timerMem f))
    (updateAll (fireTicker target) (tickers f) (tickerMem f))
    (updateAll (wakeSleeper target) (sleepWaiters f) (sleeperMem f))
    (fresh_ f).

Definition Set_ (f : FakeClock) (t : Time) : FakeClock := advanceLocked f t.
Definition Add (f : FakeClock) (d : Duration) : FakeClock := advanceLocked f (time_Add (now f) d).

(** ** Timers, tickers, sleepers *)

(** [Sleep]: a new sleeper that waits for its channel; [None] when it returns
    at once. *)
Definition Sleep (f : FakeClock) (d : Duration) : option positive * FakeClock :=
  if d <=? 0 then (None, f)
  else
    let l := fresh_ f in
    (Some l, Fake (now f) (timers f) (tickers f) (sleepWaiters f ++ [l]) (timerMem f) (tickerMem f)
               (<[l := Sleeper (time_Add (now f) d) false]> (sleeperMem f)) (Pos.succ l)).

Definition NewTimer (f : FakeClock) (d : Duration) : positive * FakeClock :=
  let l := fresh_ f in
  if d <=? 0 then
    (l, Fake (now f) (timers f) (tickers f) (sleepWaiters f)
          (<[l := Timer (Some (now f)) (time_Add (now f) d) true]> (timerMem f)) (tickerMem f)
          (sleeperMem f) (Pos.succ l))
  else
    (l, Fake (now f) (timers f ++ [l]) (tickers f) (sleepWaiters f)
          (<[l := Timer None (time_Add (now f) d) false]> (timerMem f)) (tickerMem f)
          (sleeperMem f) (Pos.succ l)).

Definition After (f : FakeClock) (d : Duration) : positive * FakeClock := NewTimer f d.

Definition NewTicker (f : FakeClock) (d : Duration) : positive * FakeClock :=
  let l := fresh_ f in
  (l, Fake (now f) (timers f) (if 0 <? d then tickers f ++ [l] else tickers f) (sleepWaiters f)
        (timerMem f) (<[l := Ticker None d (time_Add (now f) d) false]> (tickerMem f))
        (sleeperMem f) (Pos.succ l)).

Definition withTimer (f : FakeClock) (l : positive) (t : fakeTimer) (ls : list positive) : FakeClock :=
  Fake (now f) ls (tickers f) (sleepWaiters f) (<[l := t]> (timerMem f)) (tickerMem f) (sleeperMem f) (fresh_ f).

(** [fakeTimer.Reset] and [fakeTimer.Stop]; [None] is a bad address. *)
Definition ResetTimer (f : FakeClock) (l : positive) (d : Duration) : option (bool * FakeClock) :=
  t ← timerMem f !! l;
  let active := negb (t_stopped t) in
  let deadline := time_Add (now f) d in
  if d <=? 0 then Some (active, withTimer f l (Timer (trySend (t_c t) (now f)) deadline true) (timers f))
  else Some (active, withTimer f l (Timer (t_c t) deadline false)
                       (if bool_decide (l ∈ timers f) then timers f else timers f ++ [l])).

Definition StopTimer (f : FakeClock) (l : positive) : option (bool * FakeClock) :=
  t ← timerMem f !! l;
  if t_stopped t then Some (false, f)
  else Some (true, withTimer f l (Timer (t_c t) (t_deadline t) true) (timers f)).

(** A receive from the channel of a timer. *)
Definition receiveTimer (f : FakeClock) (l : positive) : option (option Time * FakeClock) :=
  t ← timerMem f !! l;
  Some (t_c t, withTimer f l (Timer None (t_deadline t) (t_stopped t)) (timers f)).

Definition withTicker (f : FakeClock) (l : positive) (k : fakeTicker) (ls : list positive) : FakeClock :=
  Fake (now f) (timers f) ls (sleepWaiters f) (timerMem f) (<[l := k]> (tickerMem f)) (sleeperMem f) (fresh_ f).

Definition ResetTicker (f : FakeClock) (l : positive) (d : Duration) : option FakeClock :=
  k ← tickerMem f !! l;
  Some (withTicker f l (Ticker (k_c k) d (time_Add (now f) d) false)
          (if negb (bool_decide (l ∈ tickers f)) && (0 <? d) then tickers f ++ [l] else tickers f)).

Definition StopTicker (f : FakeClock) (l : positive) : option FakeClock :=
  k ← tickerMem f !! l;
  Some (withTicker f l (Ticker (k_c k) (k_period k) (k_deadline k) true) (tickers f)).

(** [activeWaitersLocked]. *)
Definition countIn {A} (p : A → bool) (m : gmap positive A) (ls : list positive) : Z :=
  Z.of_nat (length (keepAll p m ls)).
Definition activeWaiters (f : FakeClock) : Z :=
  countIn (λ t, negb (t_stopped t)) (timerMem f) (timers f) +
  countIn (λ k, negb (k_stopped k)) (tickerMem f) (tickers f) +
  countIn (λ s, negb (s_woken s)) (sleeperMem f) (sleepWaiters f).

(** [BlockUntil] returns when the condition holds; every registration wakes it. *)
Definition BlockUntilReturns (f : FakeClock) (n : Z) : bool := n <=? activeWaiters f.

(** ** The ticker loop *)

Lemma tickLoop_spec fuel target k :
  k_stopped k = false → 0 < k_period k → k_deadline k <= target →
  (target - k_deadline k) / k_period k < Z.of_nat fuel →
  tickLoop fuel target k =
  Some (Ticker (trySend (k_c k) (k_deadline k)) (k_period k)
          (k_deadline k + ((target - k_deadline k) / k_period k + 1) * k_period k) false).
Proof.
  revert k. induction fuel as [|fuel IH]; intros k Hs Hp Hd Hf.
  { pose proof (Z.div_pos (target - k_deadline k) (k_period k)). lia. }
  cbn [tickLoop]. rewrite Hs. unfold time_Before, time_Add.
  rewrite (proj2 (Z.ltb_ge _ _)), (proj2 (Z.leb_gt _ _)) by lia. simpl.
  set (k' := Ticker _ _ _ _). pose proof (Z.div_mod (target - k_deadline k) (k_period k) ltac:(lia)).
  pose proof (Z.mod_pos_bound (target - k_deadline k) (k_period k) Hp).
  set (q := (target - k_deadline k) / k_period k) in *.
  destruct (decide (k_deadline k + k_period k <= target)) as [Hmore|Hdone].
  - assert ((target - k_deadline k') / k_period k' = q - 1) as Hq.
    { simpl. replace (target - (k_deadline k + k_period k)) with ((target - k_deadline k) + (-1) * k_period k) by lia.
      rewrite Z.div_add by lia. fold q. lia. }
    rewrite IH; [|done|done|done|rewrite Hq; lia]. rewrite Hq. simpl.
    replace (k_deadline k + k_period k + (q - 1 + 1) * k_period k) with (k_deadline k + (q + 1) * k_period k) by lia.
    by destruct (k_c k).
  - assert (q = 0) as Hq0 by nia. destruct fuel; cbn [tickLoop k_stopped k_deadline k']; unfold k'; simpl;
      unfold time_Before; rewrite (proj2 (Z.ltb_lt target (k_deadline k + k_period k))) by lia;
      simpl; rewrite Hq0; by replace (k_deadline k + (0 + 1) * k_period k) with (k_deadline k + k_period k) by lia.
Qed.

(** A ticker that is due sends one tick (dropped when the previous one was
    not received) and its next deadline is the first one after the target that
    lies on its grid, however far the time moves: the catching-up loop ends. *)
Lemma ticker_fires target k :
  k_stopped k = false → 0 < k_period k → k_deadline k <= target →
  let k' := fireTicker target k in
  k_c k' = trySend (k_c k) (k_deadline k) ∧ k_stopped k' = false ∧ k_period k' = k_period k ∧
  target < k_deadline k' <= target + k_period k ∧
  (k_deadline k' - k_deadline k) mod k_period k = 0.
Proof.
  intros Hs Hp Hd. unfold fireTicker. rewrite Hs. unfold tickFuel.
  rewrite (proj2 (Z.leb_gt _ _)) by lia.
  pose proof (Z.div_pos (target - k_deadline k) (k_period k) ltac:(lia) Hp).
  rewrite tickLoop_spec; [|done|done|done|lia]. simpl.
  pose proof (Z.div_mod (target - k_deadline k) (k_period k) ltac:(lia)).
  pose proof (Z.mod_pos_bound (target - k_deadline k) (k_period k) Hp).
  set (q := (target - k_deadline k) / k_period k) in *. split_and!; try done; try nia.
  replace (k_deadline k + (q + 1) * k_period k - k_deadline k) with ((q + 1) * k_period k) by lia.
  apply Z.mod_mul. lia.
Qed.


(** ** Histories *)

(** The calls of the clock and of its timers and tickers; a receive is what
    the user of a timer does. *)
Inductive clockOp :=
| OpSet (t : Time) | OpAdd (d : Duration) | OpSleep (d : Duration)
| OpNewTimer (d : Duration) | OpResetTimer (l : positive) (d : Duration) | OpStopTimer (l : positive)
| OpReceive (l : positive)
| OpNewTicker (d : Duration) | OpResetTicker (l : positive) (d : Duration) | OpStopTicker (l : positive).

Definition apply_ (f : FakeClock) (o : clockOp) : FakeClock :=
  match o with
  | OpSet t => Set_ f t
  | OpAdd d => Add f d
  | OpSleep d => (Sleep f d).2
  | OpNewTimer d => (NewTimer f d).2
  | OpResetTimer l d => from_option snd f (ResetTimer f l d)
  | OpStopTimer l => from_option snd f (StopTimer f l)
  | OpReceive l => from_option snd f (receiveTimer f l)
  | OpNewTicker d => (NewTicker f d).2
  | OpResetTicker l d => default f (ResetTicker f l d)
  | OpStopTicker l => default f (StopTicker f l)
  end.

(** Registered addresses are those of existing objects, each once, and what is
    not stopped is registered and due later. *)
Record registered {A} (ls : list positive) (m : gmap positive A) (pending : A → bool)
    (due : A → Time) (t : Time) (fresh : positive) : Prop := {
  reg_nodup : NoDup ls;
  reg_mem : ∀ l, l ∈ ls → is_Some (m !! l);
  reg_pending : ∀ l x, m !! l = Some x → pending x = true → l ∈ ls ∧ t < due x;
  reg_fresh : ∀ l, is_Some (m !! l) → (l < fresh)%positive;
}.

Definition clockInv (f : FakeClock) : Prop :=
  registered (timers f) (timerMem f) (λ t, negb (t_stopped t)) t_deadline (now f) (fresh_ f) ∧
  registered (sleepWaiters f) (sleeperMem f) (λ s, negb (s_woken s)) s_deadline (now f) (fresh_ f).

Section registry.
Context {A : Type}.
Implicit Types m : gmap positive A.
Implicit Types ls : list positive.

Lemma updateAll_lookup (g : A → A) ls m l :
  NoDup ls → updateAll g ls m !! l = if decide (l ∈ ls) then g <$> m !! l else m !! l.
Proof.
  unfold updateAll. revert m. induction ls as [|l' ls IH]; intros m Hnd; simpl; [done|].
  apply NoDup_cons in Hnd as [Hn Hnd]. rewrite IH by done.
  destruct (decide (l = l')) as [->|Hne].
  - rewrite decide_False, decide_True by set_solver. destruct (m !! l') eqn:E; [|by rewrite E].
    by rewrite lookup_insert_eq.
  - assert ((match m !! l' with Some x => <[l' := g x]> m | None => m end) !! l = m !! l) as ->.
    { destruct (m !! l'); [|done]. by rewrite lookup_insert_ne. }
    repeat case_decide; set_solver.
Qed.

Context (pending : A → bool) (due : A → Time).

Lemma reg_insert_new ls m t l x :
  registered ls m pending due t l → (pending x = true → t < due x) →
  registered (if pending x then ls ++ [l] else ls) (<[l := x]> m) pending due t (Pos.succ l).
Proof.
  intros [Hnd Hmem Hpend Hfr] Hx.
  assert (m !! l = None) as Hl.
  { apply eq_None_not_Some. intros Hs%Hfr. lia. }
  assert (l ∉ ls) as Hn.
  { intros Hin%Hmem. rewrite Hl in Hin. by destruct Hin. }
  split.
  - destruct (pending x); [|done]. apply NoDup_app. split_and!; [done|set_solver|apply NoDup_singleton].
  - intros l' Hl'. rewrite lookup_insert. case_decide; [by eauto|]. apply Hmem.
    destruct (pending x); set_solver.
  - intros l' y. rewrite lookup_insert. case_decide; simplify_eq.
    + intros [= ->] Hp. rewrite Hp. split; [set_solver|by apply Hx].
    + intros Hy Hp. destruct (Hpend _ _ Hy Hp). split; [destruct (pending x); set_solver|done].
  - intros l'. rewrite lookup_insert. case_decide; [lia|]. intros ?%Hfr. lia.
Qed.

Lemma reg_fresh_later ls m t l l' :
  (l <= l')%positive → registered ls m pending due t l → registered ls m pending due t l'.
Proof. intros Hle [Hnd Hmem Hpend Hfr]. split; try done. intros k ?%Hfr. lia. Qed.

(** An existing object is written; it is registered if it is pending. *)
Lemma reg_update ls ls' m t fr l x y :
  registered ls m pending due t fr → m !! l = Some x →
  NoDup ls' → (∀ k, k ∈ ls → k ∈ ls') → (∀ k, k ∈ ls' → k ∈ ls ∨ k = l) →
  (pending y = true → l ∈ ls' ∧ t < due y) →
  registered ls' (<[l := y]> m) pending due t fr.
Proof.
  intros [Hnd Hmem Hpend Hfr] Hl Hnd' Hsub Hsup Hy. split; try done.
  - intros k Hk. rewrite lookup_insert. case_decide; [by eauto|]. destruct (Hsup k Hk); [by apply Hmem|congruence].
  - intros k z. rewrite lookup_insert. case_decide; simplify_eq; [by intros [= ->]|].
    intros Hz Hp. destruct (Hpend _ _ Hz Hp). auto.
  - intros k. rewrite lookup_insert. case_decide; simplify_eq; [|apply Hfr]. intros _. apply Hfr. eauto.
Qed.

(** The time moves: what is due is not pending any more. *)
Lemma reg_advance ls m t fr target (fire : A → A) (keep : A → bool) :
  registered ls m pending due t fr →
  (∀ x, pending (fire x) = keep x) → (∀ x, due (fire x) = due x) →
  (∀ x, keep x = true → pending x = true ∧ target < due x) →
  registered (keepAll keep m ls) (updateAll fire ls m) pending due target fr ∧
  ∀ l, updateAll fire ls m !! l = if decide (l ∈ ls) then fire <$> m !! l else m !! l.
Proof.
  intros [Hnd Hmem Hpend Hfr] Hfire Hdue Hkeep.
  assert (∀ l, updateAll fire ls m !! l = if decide (l ∈ ls) then fire <$> m !! l else m !! l) as Hup
    by (intros; by apply updateAll_lookup).
  split; [|done]. split.
  - by apply NoDup_filter.
  - intros l [_ Hl]%list_elem_of_filter. rewrite Hup, decide_True by done.
    destruct (Hmem l Hl) as [x ->]. by eauto.
  - intros l x. rewrite Hup. destruct (decide (l ∈ ls)) as [Hin|Hout].
    + destruct (m !! l) as [y|] eqn:Ey; simpl; [|done]. intros [= <-] Hp. rewrite Hfire in Hp.
      split; [apply list_elem_of_filter; by rewrite Ey|]. rewrite Hdue. by apply Hkeep.
    + intros Hx Hp. by destruct (Hpend _ _ Hx Hp).
  - intros l. rewrite Hup. case_decide; [|apply Hfr]. intros [x Hx]. apply Hfr.
    destruct (m !! l); [by eauto|done].
Qed.
End registry.

Lemma fireTimer_pending target t : negb (t_stopped (fireTimer target t)) = keepTimer target t.
Proof. unfold fireTimer, keepTimer. destruct (t_stopped t) eqn:E; [by rewrite E|]. by destruct (time_Before _ _) eqn:E'; rewrite ?E. Qed.

Lemma wakeSleeper_pending target s : negb (s_woken (wakeSleeper target s)) = keepSleeper target s.
Proof. unfold wakeSleeper, keepSleeper. destruct (s_woken s) eqn:E; [by rewrite E|]. by destruct (time_Before _ _) eqn:E'; rewrite ?E. Qed.

Lemma advanceLocked_inv f target :
  clockInv f →
  clockInv (advanceLocked f target) ∧
  (∀ l, timerMem (advanceLocked f target) !! l =
        if decide (l ∈ timers f) then fireTimer target <$> timerMem f !! l else timerMem f !! l) ∧
  (∀ l, sleeperMem (advanceLocked f target) !! l =
        if decide (l ∈ sleepWaiters f) then wakeSleeper target <$> sleeperMem f !! l else sleeperMem f !! l).
Proof.
  intros [Ht Hs].
  destruct (reg_advance _ _ _ _ _ _ target (fireTimer target) (keepTimer target) Ht) as [Ht' Hlt].
  { apply fireTimer_pending. }
  { intros t. unfold fireTimer. by cases. }
  { intros t Hk. unfold keepTimer, time_Before in Hk. bool_to_prop. by rewrite H. }
  destruct (reg_advance _ _ _ _ _ _ target (wakeSleeper target) (keepSleeper target) Hs) as [Hs' Hls].
  { apply wakeSleeper_pending. }
  { intros s. unfold wakeSleeper. by cases. }
  { intros s Hk. unfold keepSleeper, time_Before in Hk. bool_to_prop. by rewrite H. }
  done.
Qed.

Lemma timer_write f l t y ls' :
  clockInv f → timerMem f !! l = Some t →
  NoDup ls' → (∀ k, k ∈ timers f → k ∈ ls') → (∀ k, k ∈ ls' → k ∈ timers f ∨ k = l) →
  (t_stopped y = false → l ∈ ls' ∧ now f < t_deadline y) →
  clockInv (withTimer f l y ls').
Proof.
  intros [Ht Hs] Hl Hnd H1 H2 Hy. split; [|done]. simpl. eapply reg_update; try done.
  intros Hp. apply Hy. by apply negb_true_iff.
Qed.

Lemma apply_inv f o : clockInv f → clockInv (apply_ f o).
Proof.
  intros Hinv. pose proof Hinv as [Ht Hs].
  destruct o as [t|d|d|d|l d|l|l|d|l d|l]; simpl; unfold Set_, Add; try (by apply advanceLocked_inv).
  - unfold Sleep. destruct (d <=? 0) eqn:Ed; bool_to_prop; [done|]. split; simpl.
    + eapply reg_fresh_later; [|done]. lia.
    + apply (reg_insert_new _ _ _ _ _ _ (Sleeper (time_Add (now f) d) false) Hs).
      simpl. unfold time_Add. lia.
  - unfold NewTimer. destruct (d <=? 0) eqn:Ed; bool_to_prop; split; simpl;
      try (eapply reg_fresh_later; [|done]; lia).
    + by apply (reg_insert_new _ _ _ _ _ _ (Timer (Some (now f)) (time_Add (now f) d) true) Ht).
    + apply (reg_insert_new _ _ _ _ _ _ (Timer None (time_Add (now f) d) false) Ht).
      simpl. unfold time_Add. lia.
  - unfold ResetTimer. destruct (timerMem f !! l) as [t|] eqn:El; simpl; [|done].
    destruct (d <=? 0) eqn:Ed; bool_to_prop; simpl.
    + eapply timer_write; [done|done|apply Ht|by auto|by auto|done].
    + case_bool_decide as Hin.
      * eapply timer_write; [done|done|apply Ht|by auto|by auto|]. simpl. unfold time_Add. split; [done|lia].
      * eapply timer_write; [done|done| |set_solver|set_solver|].
        { apply NoDup_app. split_and!; [apply Ht|set_solver|apply NoDup_singleton]. }
        simpl. unfold time_Add. split; [set_solver|lia].
  - unfold StopTimer. destruct (timerMem f !! l) as [t|] eqn:El; simpl; [|done].
    destruct (t_stopped t); [done|]. simpl. eapply timer_write; [done|done|apply Ht|by auto|by auto|done].
  - unfold receiveTimer. destruct (timerMem f !! l) as [t|] eqn:El; simpl; [|done].
    eapply timer_write; [done|done|apply Ht|by auto|by auto|]. simpl. intros Hst.
    apply (reg_pending _ _ _ _ _ _ Ht l t El). by rewrite Hst.
  - unfold NewTicker. split; simpl; (eapply reg_fresh_later; [|done]; lia).
  - unfold ResetTicker. by destruct (tickerMem f !! l).
  - unfold StopTicker. by destruct (tickerMem f !! l).
Qed.

Lemma history_inv start ops : clockInv (foldl apply_ (NewFakeAt start) ops).
Proof.
  assert (∀ f, clockInv f → clockInv (foldl apply_ f ops)) as Hgen.
  { induction ops as [|o ops IH]; intros f Hf; [done|]. simpl. apply IH. by apply apply_inv. }
  apply Hgen. split; (split; simpl; [constructor|set_solver| |]).
  1,3: intros l x; by rewrite lookup_empty.
  all: intros l Hl; rewrite lookup_empty in Hl; by destruct Hl.
Qed.

(** After any history of calls on the clock, moving the time (also back)
    fires exactly the pending timers that are due and wakes exactly the
    sleepers that are due, once each, and leaves every other one as it was;
    what is still pending afterwards is due strictly later than the new time.
    A stopped timer never fires. *)
Lemma timers_fire start ops target :
  let f := foldl apply_ (NewFakeAt start) ops in
  let f' := advanceLocked f target in
  (∀ l, timerMem f' !! l = fireTimer target <$> timerMem f !! l) ∧
  (∀ l, sleeperMem f' !! l = wakeSleeper target <$> sleeperMem f !! l) ∧
  (∀ l t, timerMem f' !! l = Some t → t_stopped t = false → target < t_deadline t) ∧
  (∀ l s, sleeperMem f' !! l = Some s → s_woken s = false → target < s_deadline s).
Proof.
  cbv zeta. pose proof (history_inv start ops) as Hinv. set (f := foldl _ _ _) in *. clearbody f.
  destruct (advanceLocked_inv f target Hinv) as ([Ht' Hs'] & Hlt & Hls). destruct Hinv as [Ht Hs].
  split_and!.
  - intros l. rewrite Hlt. case_decide as Hin; [done|]. destruct (timerMem f !! l) as [t|] eqn:El; [|done].
    simpl. unfold fireTimer. destruct (t_stopped t) eqn:Est; [done|].
    by destruct (reg_pending _ _ _ _ _ _ Ht l t El); [rewrite Est|].
  - intros l. rewrite Hls. case_decide as Hin; [done|]. destruct (sleeperMem f !! l) as [s|] eqn:El; [|done].
    simpl. unfold wakeSleeper. destruct (s_woken s) eqn:Est; [done|].
    by destruct (reg_pending _ _ _ _ _ _ Hs l s El); [rewrite Est|].
  - intros l t Hl Hst. apply (reg_pending _ _ _ _ _ _ Ht' l t Hl). by rewrite Hst.
  - intros l s Hl Hst. apply (reg_pending _ _ _ _ _ _ Hs' l s Hl). by rewrite Hst.
Qed.

(** After any history of calls on the clock, an advance to a target fires
    exactly the timers and wakes exactly the sleepers that are due, and leaves
    none that is due; a ticker that is due sends one tick, with its
    deadline, and catches up to the first multiple of its period after the target. *)
Lemma clock_fires :
  (∀ start ops target,
   let f := foldl apply_ (NewFakeAt start) ops in
    let f' := advanceLocked f target in
    (∀ l, timerMem f' !! l = fireTimer target <$> timerMem f !! l) ∧
    (∀ l, sleeperMem f' !! l = wakeSleeper target <$> sleeperMem f !! l) ∧
    (∀ l t, timerMem f' !! l = Some t → t_stopped t = false → target < t_deadline t) ∧
    (∀ l s, sleeperMem f' !! l = Some s → s_woken s = false → target < s_deadline s)) ∧
  (∀ target k,
   k_stopped k = false → 0 < k_period k → k_deadline k <= target →
    let k' := fireTicker target k in
    k_c k' = trySend (k_c k) (k_deadline k) ∧ k_stopped k' = false ∧ k_period k' = k_period k ∧
    target < k_deadline k' <= target + k_period k ∧
    (k_deadline k' - k_deadline k) mod k_period k = 0).
Proof. split; [apply timers_fire|apply ticker_fires]. Qed.

Lemma clock_fires_witness :
  let k := Ticker None Second (5 * Second) false in
  let k' := fireTicker (100 * Second) k in
  k_c k' = trySend (k_c k) (k_deadline k) ∧ k_stopped k' = false ∧ k_period k' = k_period k ∧
  100 * Second < k_deadline k' <= 100 * Second + k_period k ∧
  (k_deadline k' - k_deadline k) mod k_period k = 0.
Proof. apply (proj2 clock_fires); [reflexivity|reflexivity|discriminate]. Defined.
