(* ===== verification/Clocks.v ===== *)
(** The [Clock] interface (clock/clock.go) with its two implementations: the
    fake clock of FakeClock.v and the real one (clock/real.go), which wraps
    package time. Package time is modelled by its documented behaviour since
    Go 1.23: a timer fires at its time or later, the channels hold one value,
    and [Stop] and [Reset] leave no stale value in them. *)
From S2P Require Import Prelude FakeClock.

(** ** The interface *)

(** [cElapse] is the time that passes between calls; [cWoken] tells whether a
    sleeper has returned; [None] is a panic or a bad address. *)
Class Clock (C : Type) := {
  cNow : C → Time;
  cSince : C → Time → Duration;
  cUntil : C → Time → Duration;
  cElapse : C → Duration → C;
  cSleep : C → Duration → option positive * C;
  cWoken : C → positive → bool;
  cAfter : C → Duration → positive * C;
  cNewTimer : C → Duration → positive * C;
  cResetTimer : C → positive → Duration → option (bool * C);
  cStopTimer : C → positive → option (bool * C);
  cReceive : C → positive → option (option Time * C);
  cNewTicker : C → Duration → option (positive * C);
  cResetTicker : C → positive → Duration → option C;
  cStopTicker : C → positive → option C;
  cReceiveTick : C → positive → option (option Time * C);
}.

(** A receive from the channel of a fake ticker. *)
Definition receiveTicker (f : FakeClock) (l : positive) : option (option Time * FakeClock) :=
  k ← tickerMem f !! l;
  Some (k_c k, withTicker f l (Ticker None (k_period k) (k_deadline k) (k_stopped k)) (tickers f)).

#[export] Instance fake_clock : Clock FakeClock := {|
  cNow := FakeClock.Now; cSince := FakeClock.Since; cUntil := FakeClock.Until; cElapse := FakeClock.Add;
  cSleep := FakeClock.Sleep; cWoken f l := from_option s_woken false (sleeperMem f !! l);
  cAfter := FakeClock.After; cNewTimer := FakeClock.NewTimer;
  cResetTimer := FakeClock.ResetTimer; cStopTimer := FakeClock.StopTimer; cReceive := FakeClock.receiveTimer;
  cNewTicker f d := Some (FakeClock.NewTicker f d);
  cResetTicker := FakeClock.ResetTicker; cStopTicker := FakeClock.StopTicker; cReceiveTick := receiveTicker;
|}.

(** ** The real clock *)

(** When the runtime gets to a timer that was due at a time, when that time is
    reached. *)
Class Scheduler := {
  firedAt : Time → Time → Time;
  firedAt_range : ∀ due now, due <= now → due <= firedAt due now <= now;
}.

Record realTimer := RTimer { rt_c : option Time; rt_when : Time; rt_active : bool }.
Record realTicker := RTicker { rk_c : option Time; rk_period : Duration; rk_next : Time; rk_active : bool }.
Record RealClock := Real {
  rnow : Time;
  rtimers : gmap positive realTimer;
  rtickers : gmap positive realTicker;
  rsleepers : gmap positive Time;
  rfresh : positive;
}.

Section real.
Context `{Scheduler}.
Implicit Types r : RealClock.

(** [NewReal], at a time. *)
Definition NewReal (t : Time) : RealClock := Real t ∅ ∅ ∅ 1.

Definition rNow r : Time := rnow r.
Definition rSince r (t : Time) : Duration := time_Sub (rnow r) t.
Definition rUntil r (t : Time) : Duration := time_Sub t (rnow r).

(** The time reaches [target]. *)
Definition expire (target : Time) (t : realTimer) : realTimer :=
  if rt_active t && (rt_when t <=? target)
  then RTimer (trySend (rt_c t) (firedAt (rt_when t) target)) (rt_when t) false else t.
Definition tick (target : Time) (k : realTicker) : realTicker :=
  if rk_active k && (rk_next k <=? target)
  then RTicker (trySend (rk_c k) (firedAt (rk_next k) target)) (rk_period k)
         (rk_next k + ((target - rk_next k) / rk_period k + 1) * rk_period k) true
  else k.
Definition rElapse r (d : Duration) : RealClock :=
  let target := rnow r + d in
  Real target (expire target <$> rtimers r) (tick target <$> rtickers r) (rsleepers r) (rfresh r).

(** [time.Sleep]: the goroutine runs again when its time is reached. *)
Definition rSleep r (d : Duration) : option positive * RealClock :=
  if d <=? 0 then (None, r)
  else (Some (rfresh r),
        Real (rnow r) (rtimers r) (rtickers r) (<[rfresh r := rnow r + d]> (rsleepers r)) (Pos.succ (rfresh r))).
Definition rWoken r (l : positive) : bool := from_option (λ w, w <=? rnow r) false (rsleepers r !! l).

(** A timer set to fire after [d], at once if that is not positive. *)
Definition setTimer (now : Time) (d : Duration) : realTimer :=
  if d <=? 0 then RTimer (Some now) (now + d) false else RTimer None (now + d) true.

Definition withRTimer r (l : positive) (t : realTimer) : RealClock :=
  Real (rnow r) (<[l := t]> (rtimers r)) (rtickers r) (rsleepers r) (rfresh r).
Definition withRTicker r (l : positive) (k : realTicker) : RealClock :=
  Real (rnow r) (rtimers r) (<[l := k]> (rtickers r)) (rsleepers r) (rfresh r).
Definition next_ r : RealClock := Real (rnow r) (rtimers r) (rtickers r) (rsleepers r) (Pos.succ (rfresh r)).

Definition rNewTimer r (d : Duration) : positive * RealClock :=
  (rfresh r, next_ (withRTimer r (rfresh r) (setTimer (rnow r) d))).
Definition rAfter r (d : Duration) : positive * RealClock := rNewTimer r d.

(** [Reset] and [Stop] tell whether the timer was running: not stopped, and no
    value of it received. *)
Definition pending (t : realTimer) : bool :=
  rt_active t || match rt_c t with Some _ => true | None => false end.
Definition rResetTimer r (l : positive) (d : Duration) : option (bool * RealClock) :=
  t ← rtimers r !! l; Some (pending t, withRTimer r l (setTimer (rnow r) d)).
Definition rStopTimer r (l : positive) : option (bool * RealClock) :=
  t ← rtimers r !! l; Some (pending t, withRTimer r l (RTimer None (rt_when t) false)).
Definition rReceive r (l : positive) : option (option Time * RealClock) :=
  t ← rtimers r !! l; Some (rt_c t, withRTimer r l (RTimer None (rt_when t) (rt_active t))).

(** [time.NewTicker] and [Ticker.Reset] panic unless the period is positive. *)
Definition rNewTicker r (d : Duration) : option (positive * RealClock) :=
  if d <=? 0 then None
  else Some (rfresh r, next_ (withRTicker r (rfresh r) (RTicker None d (rnow r + d) true))).
Definition rResetTicker r (l : positive) (d : Duration) : option RealClock :=
  k ← rtickers r !! l;
  if d <=? 0 then None else Some (withRTicker r l (RTicker None d (rnow r + d) true)).
Definition rStopTicker r (l : positive) : option RealClock :=
  k ← rtickers r !! l; Some (withRTicker r l (RTicker None (rk_period k) (rk_next k) false)).
Definition rReceiveTick r (l : positive) : option (option Time * RealClock) :=
  k ← rtickers r !! l; Some (rk_c k, withRTicker r l (RTicker None (rk_period k) (rk_next k) (rk_active k))).

#[export] Instance real_clock : Clock RealClock := {|
  cNow := rNow; cSince := rSince; cUntil := rUntil; cElapse := rElapse; cSleep := rSleep; cWoken := rWoken;
  cAfter := rAfter; cNewTimer := rNewTimer; cResetTimer := rResetTimer; cStopTimer := rStopTimer;
  cReceive := rReceive; cNewTicker := rNewTicker; cResetTicker := rResetTicker; cStopTicker := rStopTicker;
  cReceiveTick := rReceiveTick;
|}.
End real.

(** ** Calls and observations *)

Inductive call :=
| CNow | CSince (t : Time) | CUntil (t : Time) | CElapse (d : Duration)
| CSleep (d : Duration) | CWoken (l : positive)
| CAfter (d : Duration) | CNewTimer (d : Duration) | CResetTimer (l : positive) (d : Duration) | CStopTimer (l : positive)
| CReceive (l : positive)
| CNewTicker (d : Duration) | CResetTicker (l : positive) (d : Duration) | CStopTicker (l : positive)
| CReceiveTick (l : positive).

(** What a caller sees: a time or duration, an address, a boolean (for a
    receive: whether there was a value), a panic. *)
Inductive observation := Saw (z : Z) | Got (l : option positive) | Told (b : bool) | Nothing | Panicked.

Definition perform {C} `{Clock C} (c : C) (a : call) : observation * C :=
  let told {A} (o : option (A * C)) (f : A → bool) := match o with Some (x, c') => (Told (f x), c') | None => (Panicked, c) end in
  let plain (o : option C) := match o with Some c' => (Nothing, c') | None => (Panicked, c) end in
  let some (v : option Time) := match v with Some _ => true | None => false end in
  match a with
  | CNow => (Saw (cNow c), c)
  | CSince t => (Saw (cSince c t), c)
  | CUntil t => (Saw (cUntil c t), c)
  | CElapse d => (Nothing, cElapse c d)
  | CSleep d => let '(l, c') := cSleep c d in (Got l, c')
  | CWoken l => (Told (cWoken c l), c)
  | CAfter d => let '(l, c') := cAfter c d in (Got (Some l), c')
  | CNewTimer d => let '(l, c') := cNewTimer c d in (Got (Some l), c')
  | CResetTimer l d => told (cResetTimer c l d) (λ b, b)
  | CStopTimer l => told (cStopTimer c l) (λ b, b)
  | CReceive l => told (cReceive c l) some
  | CNewTicker d => match cNewTicker c d with Some (l, c') => (Got (Some l), c') | None => (Panicked, c) end
  | CResetTicker l d => plain (cResetTicker c l d)
  | CStopTicker l => plain (cStopTicker c l)
  | CReceiveTick l => told (cReceiveTick c l) some
  end.

Fixpoint observe {C} `{Clock C} (c : C) (calls : list call) : list observation :=
  match calls with
  | [] => []
  | a :: calls' => let '(o, c') := perform c a in o :: observe c' calls'
  end.

(** ** Simulation *)

Section simulation.
Context `{Scheduler}.

(** The uses of a clock in which package time does not panic and no value that
    was never received is left behind. *)
Definition tidy (r : RealClock) (a : call) : bool :=
  let drained {A} (m : gmap positive A) (c : A → option Time) l :=
    match m !! l with Some x => match c x with Some _ => false | None => true end | None => true end in
  match a with
  | CElapse d => 0 <=? d
  | CResetTimer l _ | CStopTimer l => drained (rtimers r) rt_c l
  | CNewTicker d => 0 <? d
  | CResetTicker l d => (0 <? d) && drained (rtickers r) rk_c l
  | CStopTicker l => drained (rtickers r) rk_c l
  | _ => true
  end.
Fixpoint tidyRun (r : RealClock) (calls : list call) : bool :=
  match calls with [] => true | a :: calls' => tidy r a && tidyRun (perform r a).2 calls' end.

Definition timerRel (t : fakeTimer) (rt : realTimer) : Prop :=
  (t_c t = None ↔ rt_c rt = None) ∧ t_stopped t = negb (rt_active rt) ∧
  (rt_active rt = true → t_deadline t = rt_when rt).
Definition tickerRel (k : fakeTicker) (rk : realTicker) : Prop :=
  (k_c k = None ↔ rk_c rk = None) ∧ k_stopped k = negb (rk_active rk) ∧
  (rk_active rk = true → k_deadline k = rk_next rk ∧ k_period k = rk_period rk ∧ 0 < rk_period rk).
Definition sleeperRel (now : Time) (s : sleepWaiter) (w : Time) : Prop :=
  s_deadline s = w ∧ s_woken s = (w <=? now).

Record sim (f : FakeClock) (r : RealClock) : Prop := {
  sim_now : now f = rnow r;
  sim_fresh : fresh_ f = rfresh r;
  sim_inv : clockInv f;
  sim_listed : NoDup (tickers f) ∧ (∀ l, l ∈ tickers f ↔ is_Some (tickerMem f !! l)) ∧
    ∀ l, is_Some (tickerMem f !! l) → (l < fresh_ f)%positive;
  sim_timers : ∀ l, option_Forall2 timerRel (timerMem f !! l) (rtimers r !! l);
  sim_tickers : ∀ l, option_Forall2 tickerRel (tickerMem f !! l) (rtickers r !! l);
  sim_sleepers : ∀ l, option_Forall2 (sleeperRel (rnow r)) (sleeperMem f !! l) (rsleepers r !! l);
}.

Lemma sim_start t : sim (NewFakeAt t) (NewReal t).
Proof.
  constructor; try done.
  - apply (history_inv t []).
  - cbn. split_and!; [constructor|..]; intros l; rewrite lookup_empty; [|by intros []].
    split; [by intros ?%elem_of_nil|by intros []].
  - intros l. cbn. rewrite !lookup_empty. constructor.
  - intros l. cbn. rewrite !lookup_empty. constructor.
  - intros l. cbn. rewrite !lookup_empty. constructor.
Qed.

(** ** Time passes *)

Lemma fire_timer target t rt : timerRel t rt → timerRel (fireTimer target t) (expire target rt).
Proof.
  intros (Hc & Hs & Hd). unfold fireTimer, expire. rewrite Hs. destruct (rt_active rt) eqn:Ea; cbn.
  2: { split_and!; [done|by rewrite Hs, Ea|by rewrite Ea]. }
  unfold time_Before. rewrite (Hd eq_refl), Z.ltb_antisym. destruct (rt_when rt <=? target); cbn.
  - split_and!; [|done|done]. cbn. destruct (t_c t), (rt_c rt); naive_solver.
  - split_and!; [done|by rewrite Hs, Ea|auto].
Qed.

Lemma fireTicker_due target k : k_stopped k = false → 0 < k_period k → k_deadline k <= target →
  fireTicker target k = Ticker (trySend (k_c k) (k_deadline k)) (k_period k)
    (k_deadline k + ((target - k_deadline k) / k_period k + 1) * k_period k) false.
Proof.
  intros Hs Hp Hd. unfold fireTicker. rewrite Hs. unfold tickFuel. rewrite (proj2 (Z.leb_gt _ _)) by lia.
  pose proof (Z.div_pos (target - k_deadline k) (k_period k) ltac:(lia) Hp).
  rewrite tickLoop_spec; [done|done|done|done|lia].
Qed.

Lemma fireTicker_later target k : target < k_deadline k → fireTicker target k = k.
Proof.
  intros Hd. unfold fireTicker. destruct (k_stopped k) eqn:Es; [done|]. 
  destruct (tickFuel target k); cbn [tickLoop]; unfold time_Before; by rewrite Es, (proj2 (Z.ltb_lt _ _) Hd).
Qed.

Lemma fire_ticker target k rk : tickerRel k rk → tickerRel (fireTicker target k) (tick target rk).
Proof.
  intros (Hc & Hs & Hd). unfold tick. destruct (rk_active rk) eqn:Ea; cbn in *.
  - destruct (Hd eq_refl) as (E1 & E2 & Hp). destruct (rk_next rk <=? target) eqn:E; bool_to_prop.
    + rewrite fireTicker_due by (done || lia). rewrite E1, E2. split_and!; [|done|done].
      cbn. destruct (k_c k), (rk_c rk); naive_solver.
    + rewrite fireTicker_later by lia. split_and!; [done|by rewrite Hs, Ea|auto].
  - unfold fireTicker. rewrite Hs. split_and!; [done|by rewrite Hs, Ea|by rewrite Ea].
Qed.

Lemma sim_elapse f r d : 0 <= d → sim f r → sim (FakeClock.Add f d) (rElapse r d).
Proof.
  intros Hd [Hn Hfr Hi (Hnd & Hl & Hlt) Ht Hk Hs]. unfold FakeClock.Add, rElapse. unfold time_Add. rewrite Hn.
  set (target := rnow r + d).
  destruct (advanceLocked_inv f target Hi) as (Hi' & Htm & Hsm).
  assert (∀ l, tickerMem (advanceLocked f target) !! l = fireTicker target <$> tickerMem f !! l) as Hkm.
  { intros l. cbn. rewrite updateAll_lookup by done. case_decide as Hin; [done|].
    destruct (tickerMem f !! l) eqn:E; [|done]. destruct Hin. apply Hl. eauto. }
  constructor; try done.
  - split_and!; [done|..]; intros l; rewrite Hkm, fmap_is_Some; [apply Hl|apply Hlt].
  - intros l. rewrite Htm. cbn. rewrite lookup_fmap. pose proof (Ht l) as Hr.
    destruct (timerMem f !! l) as [t|] eqn:El, (rtimers r !! l) as [rt|]; inversion Hr as [? ? Hrel|]; subst;
      case_decide as Hin; cbn; constructor; [by apply fire_timer|].
    assert (t_stopped t = true) as Hst.
    { destruct (t_stopped t) eqn:E; [done|]. destruct Hi as [Hreg _].
      destruct (reg_pending _ _ _ _ _ _ Hreg l t El); [by rewrite E|done]. }
    destruct (fire_timer target t rt Hrel) as (H1 & H2 & H3). unfold fireTimer in *. rewrite Hst in *.
    split_and!; done.
  - intros l. rewrite Hkm. cbn. rewrite lookup_fmap. destruct (Hk l); constructor. by apply fire_ticker.
  - intros l. rewrite Hsm. cbn. pose proof (Hs l) as Hr.
    destruct (sleeperMem f !! l) as [s|] eqn:El, (rsleepers r !! l) as [w|]; inversion Hr as [? ? [E1 E2]|]; subst;
      case_decide as Hin; cbn; constructor.
    + unfold wakeSleeper, time_Before. destruct (s_woken s) eqn:Ew.
      * split; [done|]. rewrite Ew. symmetry in E2. apply Z.leb_le in E2. symmetry. apply Z.leb_le. lia.
      * rewrite Z.ltb_antisym. destruct (s_deadline s <=? target) eqn:E; cbn; (split; [done|]); cbn; [done|by rewrite Ew].
    + assert (s_woken s = true) as Hst.
      { destruct (s_woken s) eqn:E; [done|]. destruct Hi as [_ Hreg].
        destruct (reg_pending _ _ _ _ _ _ Hreg l s El); [by rewrite E|done]. }
      split; [done|]. rewrite Hst in *. symmetry in E2. apply Z.leb_le in E2. symmetry. apply Z.leb_le. lia.
Qed.

(** ** Calls *)

Lemma rel_insert {A B} (R : A → B → Prop) (m : gmap positive A) (m' : gmap positive B) l x y :
  (∀ k, option_Forall2 R (m !! k) (m' !! k)) → R x y →
  ∀ k, option_Forall2 R (<[l := x]> m !! k) (<[l := y]> m' !! k).
Proof. intros Hr Hxy k. rewrite !lookup_insert. case_decide; [by constructor|apply Hr]. Qed.

Lemma sim_timer f r l t rt ls : sim f r → clockInv (withTimer f l t ls) → timerRel t rt →
  sim (withTimer f l t ls) (withRTimer r l rt).
Proof. intros [Hn Hfr Hi Hl Ht Hk Hs] Hi' Hr. constructor; try done. cbn. by apply rel_insert. Qed.

Lemma sim_ticker f r l k rk ls : sim f r → tickerRel k rk → is_Some (tickerMem f !! l) → ls = tickers f →
  sim (withTicker f l k ls) (withRTicker r l rk).
Proof.
  intros [Hn Hfr Hi (Hnd & Hl & Hlt) Ht Hk Hs] Hr Hsome ->. constructor; try done; cbn.
  - split_and!; [done|..]; intros l'; rewrite lookup_insert; case_decide; subst; eauto.
    split; [by eauto|]. intros _. by apply Hl.
  - by apply rel_insert.
Qed.

Lemma setTimer_rel now d : timerRel
  (if d <=? 0 then Timer (Some now) (time_Add now d) true else Timer None (time_Add now d) false) (setTimer now d).
Proof. unfold setTimer, time_Add. destruct (d <=? 0); split_and!; done. Qed.

Lemma sim_NewTimer f r d : sim f r →
  (FakeClock.NewTimer f d).1 = (rNewTimer r d).1 ∧ sim (FakeClock.NewTimer f d).2 (rNewTimer r d).2.
Proof.
  intros Hsim. pose proof (apply_inv f (OpNewTimer d) (sim_inv _ _ Hsim)) as Hi'. cbn in Hi'.
  pose proof (setTimer_rel (now f) d) as Hr. destruct Hsim as [Hn Hfr Hi (Hnd & Hl & Hlt) Ht Hk Hs].
  unfold FakeClock.NewTimer, rNewTimer in *. rewrite Hn, Hfr in *.
  assert (∀ l, is_Some (tickerMem f !! l) → (l < Pos.succ (rfresh r))%positive) as Hlt' by (intros l ?%Hlt; lia).
  destruct (d <=? 0); (split; [done|]); constructor; cbn; try done; by apply rel_insert.
Qed.

Lemma sim_Sleep f r d : sim f r →
  (FakeClock.Sleep f d).1 = (rSleep r d).1 ∧ sim (FakeClock.Sleep f d).2 (rSleep r d).2.
Proof.
  intros Hsim. pose proof (apply_inv f (OpSleep d) (sim_inv _ _ Hsim)) as Hi'. cbn in Hi'.
  unfold FakeClock.Sleep, rSleep in *. destruct (d <=? 0) eqn:Ed; [done|]. bool_to_prop.
  destruct Hsim as [Hn Hfr Hi (Hnd & Hl & Hlt) Ht Hk Hs]. rewrite Hn, Hfr in *. split; [done|].
  constructor; cbn; try done.
  - split_and!; [done|done|]. intros l ?%Hlt. lia.
  - apply rel_insert; [done|]. split; cbn; unfold time_Add; [done|]. symmetry. apply Z.leb_gt. lia.
Qed.

Lemma sim_NewTicker f r d : 0 < d → sim f r →
  cNewTicker f d = Some (FakeClock.NewTicker f d) ∧ ∃ r', rNewTicker r d = Some (rfresh r, r') ∧
  (FakeClock.NewTicker f d).1 = rfresh r ∧ sim (FakeClock.NewTicker f d).2 r'.
Proof.
  intros Hd Hsim. pose proof (apply_inv f (OpNewTicker d) (sim_inv _ _ Hsim)) as Hi'. cbn in Hi'.
  split; [done|]. unfold rNewTicker, FakeClock.NewTicker in *. rewrite (proj2 (Z.leb_gt _ _) Hd).
  destruct Hsim as [Hn Hfr Hi (Hnd & Hl & Hlt) Ht Hk Hs].
  rewrite (proj2 (Z.ltb_lt _ _) Hd) in *. eexists. split; [done|]. split; [done|]. rewrite <- Hn in *.
  assert (tickerMem f !! fresh_ f = None) as Hnone.
  { apply eq_None_not_Some. intros ?%Hlt. lia. }
  constructor; cbn; try done.
  - by rewrite Hfr.
  - split_and!.
    + apply NoDup_app. split_and!; [done| |apply NoDup_singleton]. intros l Hin%Hl ->%list_elem_of_singleton.
      rewrite Hnone in Hin. by destruct Hin.
    + intros l. rewrite elem_of_app, list_elem_of_singleton, lookup_insert, Hl. case_decide; subst; naive_solver.
    + intros l. rewrite lookup_insert. case_decide; [lia|]. intros ?%Hlt. lia.
  - rewrite <- Hfr. apply rel_insert; [done|]. split_and!; cbn; [done|done|]. unfold time_Add. by rewrite Hn.
  - by rewrite <- Hn.
Qed.

Ltac open_calls := cbn [perform cNow cSince cUntil cElapse cSleep cWoken cAfter
    cNewTimer cResetTimer cStopTimer cReceive cNewTicker cResetTicker cStopTicker cReceiveTick fake_clock real_clock].

Definition matches (f : FakeClock) (r : RealClock) (a : call) : Prop :=
  (perform f a).1 = (perform r a).1 ∧ sim (perform f a).2 (perform r a).2.

(** Calls on a timer. *)
Lemma sim_timer_calls f r l d : sim f r →
  (tidy r (CResetTimer l d) = true → matches f r (CResetTimer l d)) ∧
  (tidy r (CStopTimer l) = true → matches f r (CStopTimer l)) ∧ matches f r (CReceive l).
Proof.
  intros Hsim. pose proof Hsim as [Hn Hfr Hi _ Ht _ _].
  split_and!; [intros Htidy|intros Htidy|]; unfold matches; open_calls.
  - pose proof (apply_inv f (OpResetTimer l d) Hi) as Hi'. pose proof (setTimer_rel (now f) d) as Hr. cbn in Hi', Htidy.
    unfold FakeClock.ResetTimer, rResetTimer in *. pose proof (Ht l) as Hrl.
    destruct (timerMem f !! l) as [t|], (rtimers r !! l) as [rt|]; inversion Hrl as [? ? (Hc & Hst & _)|]; subst; [|done].
    cbn in *. destruct (rt_c rt) eqn:Ec; [done|]. rewrite Hn in *.
    assert (t_c t = None) as Htc by by apply Hc. rewrite Htc in *. unfold pending. rewrite Ec, orb_false_r.
    destruct (d <=? 0); cbn in *; (split; [by rewrite Hst, negb_involutive|]); apply sim_timer; done.
  - pose proof (apply_inv f (OpStopTimer l) Hi) as Hi'. cbn in Hi', Htidy.
    unfold FakeClock.StopTimer, rStopTimer in *. pose proof (Ht l) as Hrl.
    destruct (timerMem f !! l) as [t|] eqn:El, (rtimers r !! l) as [rt|] eqn:Er; inversion Hrl as [? ? (Hc & Hst & _)|]; subst; [|done].
    cbn in *. destruct (rt_c rt) eqn:Ec; [done|]. unfold pending. rewrite Ec, orb_false_r.
    assert (t_c t = None) as Htc by by apply Hc. rewrite Hst. destruct (rt_active rt) eqn:Ea; cbn.
    + rewrite Hst in Hi'. cbn in Hi'. split; [done|]. apply sim_timer; [done|done|]. rewrite Htc. split_and!; done.
    + split; [done|].
      replace f with (withTimer f l t (timers f)) by (destruct f; unfold withTimer; cbn in *; by rewrite insert_id).
      apply sim_timer; [done| |split_and!; cbn; [by rewrite Htc|by rewrite Hst|done]].
      replace (withTimer f l t (timers f)) with f by (destruct f; unfold withTimer; cbn in *; by rewrite insert_id). done.
  - pose proof (apply_inv f (OpReceive l) Hi) as Hi'. cbn in Hi'.
    unfold FakeClock.receiveTimer, rReceive in *. pose proof (Ht l) as Hrl.
    destruct (timerMem f !! l) as [t|], (rtimers r !! l) as [rt|]; inversion Hrl as [? ? (Hc & Hst & Hd)|]; subst; [|done].
    cbn in *. split; [destruct (t_c t), (rt_c rt); naive_solver|]. by apply sim_timer.
Qed.

(** Calls on tickers. *)
Lemma sim_ticker_calls f r l d : sim f r →
  (tidy r (CNewTicker d) = true → matches f r (CNewTicker d)) ∧
  (tidy r (CResetTicker l d) = true → matches f r (CResetTicker l d)) ∧
  (tidy r (CStopTicker l) = true → matches f r (CStopTicker l)) ∧ matches f r (CReceiveTick l).
Proof.
  intros Hsim. pose proof Hsim as [Hn Hfr Hi (Hnd & Hl & Hlt) _ Hk _].
  split_and!; [intros Htidy|intros Htidy|intros Htidy|]; unfold matches; open_calls.
  - cbn in Htidy. bool_to_prop. destruct (sim_NewTicker f r d Htidy Hsim) as (_ & r' & -> & E & Hs').
    destruct (FakeClock.NewTicker f d). cbn in *. by subst.
  - cbn in Htidy. bool_to_prop. unfold FakeClock.ResetTicker, rResetTicker. pose proof (Hk l) as Hrl.
    destruct (tickerMem f !! l) as [k|] eqn:El, (rtickers r !! l) as [rk|]; inversion Hrl as [? ? (Hc & _)|]; subst; [|done].
    cbn in *. destruct (rk_c rk) eqn:Ec; [done|]. rewrite (proj2 (Z.leb_gt _ _)) by lia. cbn. split; [done|].
    apply sim_ticker; [done| |by rewrite El|].
    + rewrite (proj2 Hc eq_refl). split_and!; cbn; [done|done|]. unfold time_Add. rewrite Hn. done.
    + rewrite bool_decide_true; [done|]. apply Hl. by rewrite El.
  - unfold FakeClock.StopTicker, rStopTicker. pose proof (Hk l) as Hrl. cbn in Htidy.
    destruct (tickerMem f !! l) as [k|] eqn:El, (rtickers r !! l) as [rk|]; inversion Hrl as [? ? (Hc & _)|]; subst; [|done].
    cbn in *. destruct (rk_c rk) eqn:Ec; [done|]. split; [done|]. apply sim_ticker; [done| |by rewrite El|done].
    rewrite (proj2 Hc eq_refl). split_and!; done.
  - unfold receiveTicker, rReceiveTick. pose proof (Hk l) as Hrl.
    destruct (tickerMem f !! l) as [k|] eqn:El, (rtickers r !! l) as [rk|]; inversion Hrl as [? ? (Hc & Hst & Hd)|]; subst; [|done].
    cbn in *. split; [destruct (k_c k), (rk_c rk); naive_solver|]. by apply sim_ticker; [|split_and!|rewrite El|].
Qed.

(** One call on both clocks. *)
Lemma sim_perform f r a : sim f r → tidy r a = true → matches f r a.
Proof.
  intros Hsim Htidy. pose proof Hsim as [Hn _ _ _ _ _ Hs].
  destruct a as [|t|t|d|d|l|d|d|l d|l|l|d|l d|l|l]; 
    [..|by apply (sim_timer_calls f r l d)|by apply (sim_timer_calls f r l 0)|by apply (sim_timer_calls f r l 0)
     |by apply (sim_ticker_calls f r 1 d)|by apply (sim_ticker_calls f r l d)|by apply (sim_ticker_calls f r l 0)
     |by apply (sim_ticker_calls f r l 0)]; unfold matches; open_calls.
  - by unfold FakeClock.Now, rNow; rewrite Hn.
  - by unfold FakeClock.Since, rSince; rewrite Hn.
  - by unfold FakeClock.Until, rUntil; rewrite Hn.
  - cbn in Htidy. bool_to_prop. split; [done|]. by apply sim_elapse.
  - destruct (sim_Sleep f r d Hsim) as [E Hs']. destruct (FakeClock.Sleep f d), (rSleep r d). cbn in *. by subst.
  - split; [|done]. unfold rWoken. pose proof (Hs l) as Hrl.
    destruct (sleeperMem f !! l) as [s|], (rsleepers r !! l) as [w|]; inversion Hrl as [? ? [_ Hw]|]; subst; [|done].
    cbn. by rewrite Hw.
  - destruct (sim_NewTimer f r d Hsim) as [E Hs']. unfold FakeClock.After, rAfter.
    destruct (FakeClock.NewTimer f d), (rNewTimer r d). cbn in *. by subst.
  - destruct (sim_NewTimer f r d Hsim) as [E Hs']. destruct (FakeClock.NewTimer f d), (rNewTimer r d). cbn in *. by subst.
Qed.

(** ** The claim *)

(** C28: after any history of calls from the same time in which package time
    does not panic and no value is left unread when a timer or ticker is stopped
    or reset, code cannot tell the fake clock from the real one: the times, the
    results of [Stop] and [Reset], who has woken, and which channels hold a
    value are the same. *)
Theorem clocks_agree start calls : tidyRun (NewReal start) calls = true →
  observe (NewFakeAt start) calls = observe (NewReal start) calls.
Proof.
  generalize (sim_start start). generalize (NewFakeAt start), (NewReal start).
  induction calls as [|a calls IH]; intros f r Hsim Ht; [done|]. cbn in *. bool_to_prop.
  destruct (sim_perform f r a Hsim) as [E Hs]; [done|].
  destruct (perform f a) as [o f'], (perform r a) as [o' r']. cbn in *. subst. f_equal. by apply IH.
Qed.
End simulation.

(** A runtime that is never late. *)
#[export] Instance punctual : Scheduler.
Proof. refine {| firedAt due now := due |}. lia. Defined.

Definition clockCalls : list call :=
  [CNewTimer Second; CSleep (2 * Second); CNewTicker Second; CElapse Second; CReceive 1; CReceive 1;
   CResetTimer 1 Second; CElapse (2 * Second); CWoken 2; CReceiveTick 3; CStopTicker 3; CReceive 1; CNow].

Lemma clocks_agree_witness :
  observe (NewFakeAt 0) clockCalls = observe (NewReal 0) clockCalls.
Proof. apply clocks_agree. by vm_compute. Defined.

(** A timer that has expired unread and is reset: the fake clock keeps the old
    value in the channel and reports that the timer was not running; package
    time drops the value and reports that it was. *)
Lemma stale_value :
  let calls := [CNewTimer Second; CElapse Second; CResetTimer 1 Second; CReceive 1] in
  observe (NewFakeAt 0) calls = [Got (Some 1%positive); Nothing; Told false; Told true] ∧
  observe (NewReal 0) calls = [Got (Some 1%positive); Nothing; Told true; Told false].
Proof. by vm_compute. Qed.

(** A ticker without a positive period is inert, and panics in package time. *)
Lemma inert_ticker :
  observe (NewFakeAt 0) [CNewTicker 0] = [Got (Some 1%positive)] ∧ observe (NewReal 0) [CNewTicker 0] = [Panicked].
Proof. by vm_compute. Qed.
