(* ===== verification/Fsm.v ===== *)
(** The declarative state machine (fsm/fsm.go): transitions are looked up under
    a key that joins the three names with NUL bytes. *)
From S2P Require Import Prelude.

Record Transition := mkTransition { From : string; To : string; Action : string }.

Record Machine := mkMachine {
  Transitions : list Transition;
  States : gmap string bool;
  transitions : gset string;
}.

Definition NUL : Ascii.ascii := Ascii.ascii_of_nat 0.

Definition transitionKey (from to action : string) : string :=
  from +:+ String NUL (to +:+ String NUL action).

Definition NewMachine (ts : list Transition) : Machine :=
  mkMachine ts
    (foldl (λ m t, <[To t := true]> (<[From t := true]> m)) ∅ ts)
    (foldl (λ s t, s ∪ {[transitionKey (From t) (To t) (Action t)]}) ∅ ts).

Definition CanTransition (m : Machine) (from to action : string) : bool :=
  bool_decide (transitionKey from to action ∈ transitions m).

(** The error messages, without the quoting of the names. *)
Definition ValidateTransition (m : Machine) (from to action : string) : option error :=
  if negb (default false (States m !! from)) then Some (ErrNew ("invalid source state: " +:+ from))
  else if negb (default false (States m !! to)) then Some (ErrNew ("invalid destination state: " +:+ to))
  else if CanTransition m from to action then None
  else Some (ErrNew ("illegal state transition from " +:+ from +:+ " to " +:+ to +:+ " via action " +:+ action)).

(** A name without NUL bytes. *)
Fixpoint nulFree (s : string) : bool :=
  match s with
  | EmptyString => true
  | String a s' => negb (bool_decide (a = NUL)) && nulFree s'
  end.

Lemma cut_unique a a' x y :
  nulFree a = true → nulFree a' = true → a +:+ String NUL x = a' +:+ String NUL y → a = a' ∧ x = y.
Proof.
  revert a'. induction a as [|c a IH]; intros [|c' a']; simpl; intros Ha Ha' [=]; bool_to_prop; simplify_eq; try done.
  destruct (IH a') as [-> ->]; done.
Qed.

Lemma transitionKey_inj from to action from' to' action' :
  nulFree from = true → nulFree to = true → nulFree from' = true → nulFree to' = true →
  transitionKey from to action = transitionKey from' to' action' →
  from = from' ∧ to = to' ∧ action = action'.
Proof.
  intros H1 H2 H3 H4 E. apply cut_unique in E as [-> E]; [|done|done].
  by apply cut_unique in E as [-> ->].
Qed.

Lemma keys_spec ts k (s0 : gset string) :
  k ∈ foldl (λ s t, s ∪ {[transitionKey (From t) (To t) (Action t)]}) s0 ts ↔
  k ∈ s0 ∨ ∃ t, t ∈ ts ∧ k = transitionKey (From t) (To t) (Action t).
Proof.
  revert s0. induction ts as [|t ts IH]; intros s0; simpl; [set_solver|]. rewrite IH. set_solver.
Qed.

Lemma states_spec ts st (m0 : gmap string bool) :
  default false (foldl (λ m t, <[To t := true]> (<[From t := true]> m)) m0 ts !! st) = true ↔
  default false (m0 !! st) = true ∨ ∃ t, t ∈ ts ∧ (st = From t ∨ st = To t).
Proof.
  revert m0. induction ts as [|t ts IH]; intros m0; simpl; [set_solver|]. rewrite IH.
  rewrite !lookup_insert. repeat case_decide; set_solver.
Qed.

Definition clean (t : Transition) : Prop := nulFree (From t) = true ∧ nulFree (To t) = true.

(** For state names without NUL bytes a transition is allowed exactly when
    it is one of the configured ones, and [ValidateTransition] returns no error
    exactly then: the joined key loses nothing. *)
Lemma fsm_exact ts from to action :
  Forall clean ts → nulFree from = true → nulFree to = true →
  (CanTransition (NewMachine ts) from to action = true ↔ mkTransition from to action ∈ ts) ∧
  (ValidateTransition (NewMachine ts) from to action = None ↔ mkTransition from to action ∈ ts).
Proof.
  intros Hts Hf Ht.
  assert (CanTransition (NewMachine ts) from to action = true ↔ mkTransition from to action ∈ ts) as Hcan.
  { unfold CanTransition. rewrite bool_decide_eq_true. simpl. rewrite keys_spec. split.
    - intros [?|(t & Hin & Hk)]; [set_solver|]. rewrite Forall_forall in Hts. destruct (Hts t Hin).
      apply transitionKey_inj in Hk as (-> & -> & ->); [|done..]. by destruct t.
    - intros Hin. right. by exists (mkTransition from to action). }
  split; [done|]. unfold ValidateTransition. split.
  - intros E. apply Hcan. destruct (CanTransition _ _ _ _) eqn:Ec; [done|]. by cases.
  - intros Hin. rewrite (proj2 Hcan Hin).
    assert (∀ st, st = from ∨ st = to →
      default false (States (NewMachine ts) !! st) = true) as Hst.
    { intros st Hst. apply states_spec. right. exists (mkTransition from to action). done. }
    rewrite !Hst by auto. done.
Qed.

Definition door : list Transition := [mkTransition "open" "closed" "shut"; mkTransition "closed" "open" "pull"].

Lemma fsm_exact_witness :
  (CanTransition (NewMachine door) "open" "closed" "shut" = true ↔ mkTransition "open" "closed" "shut" ∈ door) ∧
  (ValidateTransition (NewMachine door) "open" "closed" "shut" = None ↔ mkTransition "open" "closed" "shut" ∈ door).
Proof. apply fsm_exact; [repeat constructor|reflexivity|reflexivity]. Defined.

(** With NUL bytes two transitions can share a key. *)
Lemma fsm_collision :
  let nul := String NUL EmptyString in
  CanTransition (NewMachine [mkTransition "a" ("b" +:+ nul +:+ "c") "d"]) "a" "b" ("c" +:+ nul +:+ "d") = true.
Proof. vm_compute. reflexivity. Qed.
