(* ===== verification/Rbac.v ===== *)
(** Permission matching (rbac/engine.go) and permissions in a request context
    (rbaccontext/rbaccontext.go). *)
From S2P Require Import Prelude Text.

Definition colon : Ascii.ascii := Ascii.ascii_of_nat 58.

(** The loop of [Match] over the segments of the pattern and of the request:
    the answer it returns with, or [None] when it runs to its end. (The length
    check before it rules out the last case.) *)
Fixpoint matchLoop (patternParts requestedParts : list string) : option bool :=
  match patternParts, requestedParts with
  | [], _ => None
  | p :: ps, r :: rs =>
      if bool_decide (p = "*") then
        match ps with [] => Some true | _ => matchLoop ps rs end
      else if bool_decide (p = r) then matchLoop ps rs
      else Some false
  | _ :: _, [] => Some false
  end.

Definition Match (pattern requested : string) : bool :=
  let pattern := TrimSpace (ToLower pattern) in
  let requested := TrimSpace (ToLower requested) in
  if bool_decide (pattern = "") || bool_decide (requested = "") then false
  else if bool_decide (pattern = "*") || bool_decide (pattern = "*:*") then true
  else if bool_decide (pattern = requested) then true
  else
    let patternParts := Split pattern colon in
    let requestedParts := Split requested colon in
    if Z.of_nat (length requestedParts) <? Z.of_nat (length patternParts) then false
    else match matchLoop patternParts requestedParts with
         | Some b => b
         | None => Z.of_nat (length patternParts) =? Z.of_nat (length requestedParts)
         end.

Definition HasPermission (userPerms : list string) (requiredPerm : string) : bool :=
  existsb (λ pattern, Match pattern requiredPerm) userPerms.
Definition HasAnyPermission (userPerms requiredPerms : list string) : bool :=
  existsb (HasPermission userPerms) requiredPerms.
Definition HasAllPermissions (userPerms requiredPerms : list string) : bool :=
  forallb (HasPermission userPerms) requiredPerms.

(** ** Permissions in a context *)

(** What the context holds: nothing, or a set of permissions. *)
Definition context := option (gset string).

Definition WithPermissions (ctx : context) (perms : list string) : context :=
  Some (foldl (λ m p, m ∪ {[p]}) ∅ perms).
Definition Permissions (ctx : context) : list string := from_option elements [] ctx.

Definition Can (ctx : context) (permission : string) : bool :=
  match ctx with
  | None => false
  | Some m => bool_decide (permission ∈ m) || HasPermission (Permissions ctx) permission
  end.
Definition CanAny (ctx : context) (permissions : list string) : bool :=
  match ctx with None => false | Some _ => HasAnyPermission (Permissions ctx) permissions end.
Definition CanAll (ctx : context) (permissions : list string) : bool :=
  match ctx with None => false | Some _ => HasAllPermissions (Permissions ctx) permissions end.

(** ** The reference *)

(** A segment of a pattern admits a segment of a request. *)
Definition admits (p r : string) : Prop := p = "*" ∨ p = r.

(** The pattern admits the request: segment by segment, or with a final
    wildcard for one or more segments. *)
Definition glob (ps rs : list string) : Prop :=
  Forall2 admits ps rs ∨
  ∃ pre r1 r2, ps = pre ++ ["*"] ∧ rs = r1 ++ r2 ∧ r2 ≠ [] ∧ Forall2 admits pre r1.

Lemma glob_cons p ps r rs :
  ps ≠ [] → glob (p :: ps) (r :: rs) ↔ admits p r ∧ glob ps rs.
Proof.
  intros Hne. unfold glob. split.
  - intros [Hf|(pre & r1 & r2 & Hp & Hr & Hr2 & Hf)]; [inversion Hf; auto|].
    destruct pre as [|p' pre]; [by simplify_eq/=|]. destruct r1 as [|r' r1]; [by inversion Hf|].
    simplify_eq/=. inversion Hf; subst. split; [done|]. right. by exists pre, r1, r2.
  - intros [Ha [Hf|(pre & r1 & r2 & -> & -> & Hr2 & Hf)]]; [left; by constructor|].
    right. exists (p :: pre), (r :: r1), r2. split_and!; try done. by constructor.
Qed.

Lemma glob_single p rs : glob [p] rs ↔ rs ≠ [] ∧ p = "*" ∨ rs = [p].
Proof.
  unfold glob. split.
  - intros [Hf|(pre & r1 & r2 & Hp & -> & Hr2 & Hf)].
    + apply Forall2_cons_inv_l in Hf as (r & rs' & Ha & Hn & ->). apply Forall2_nil_inv_l in Hn as ->.
      destruct Ha as [->| ->]; [by left|by right].
    + destruct pre as [|p' pre]; simplify_eq/=; [|by destruct pre].
      inversion Hf; subst. left. done.
  - intros [[Hr ->]| ->]; [right; by exists [], [], rs|]. left. constructor; [by right|constructor].
Qed.

(** The loop decides the reference, when the request is long enough. *)
Lemma matchLoop_glob ps rs :
  ps ≠ [] → (length ps <= length rs)%nat →
  (match matchLoop ps rs with Some b => b | None => Z.of_nat (length ps) =? Z.of_nat (length rs) end) = true
  ↔ glob ps rs.
Proof.
  revert rs. induction ps as [|p ps IH]; intros rs Hne Hlen; [done|].
  destruct rs as [|r rs]; [simpl in Hlen; lia|]. simpl in Hlen. cbn [matchLoop].
  destruct ps as [|p' ps].
  - rewrite glob_single. case_bool_decide as Hp; [subst; split; [by left|done]|].
    case_bool_decide as Hr.
    + subst. cbn [matchLoop]. rewrite Z.eqb_eq. simpl. split.
      * intros Hl. right. by destruct rs; [|simpl in Hl; lia].
      * intros [[_ ?]|[= ->]]; done.
    + split; [done|]. intros [[_ ?]|[= ? ?]]; congruence.
  - assert (∀ b, (match (match matchLoop (p' :: ps) rs with Some b => Some b | None => None end) with
        | Some b => b | None => Z.of_nat (length (p :: p' :: ps)) =? Z.of_nat (length (r :: rs)) end) = b ↔
      (match matchLoop (p' :: ps) rs with
        | Some b => b | None => Z.of_nat (length (p' :: ps)) =? Z.of_nat (length rs) end) = b) as Hshift.
    { intros b. destruct (matchLoop (p' :: ps) rs); [done|].
      assert ((Z.of_nat (length (p :: p' :: ps)) =? Z.of_nat (length (r :: rs))) =
        (Z.of_nat (length (p' :: ps)) =? Z.of_nat (length rs))) as ->; [|done].
      apply eq_true_iff_eq. rewrite !Z.eqb_eq. simpl. lia. }
    specialize (IH rs ltac:(done) ltac:(simpl in *; lia)).
    rewrite glob_cons by done. unfold admits.
    case_bool_decide as Hp; [|case_bool_decide as Hr]; [| |naive_solver].
    + specialize (Hshift true). destruct (matchLoop (p' :: ps) rs); naive_solver.
    + specialize (Hshift true). destruct (matchLoop (p' :: ps) rs); naive_solver.
Qed.

(** C34: after trimming and lowering, a pattern matches a request exactly when
    both are not empty and the pattern is ["*:*"] or admits the request
    segment by segment, a final wildcard standing for one or more segments. *)
Theorem match_glob pattern requested :
  let p := TrimSpace (ToLower pattern) in
  let r := TrimSpace (ToLower requested) in
  Match pattern requested = true ↔
  p ≠ "" ∧ r ≠ "" ∧ (p = "*:*" ∨ glob (Split p colon) (Split r colon)).
Proof.
  cbv zeta. unfold Match. set (p := TrimSpace (ToLower pattern)). set (r := TrimSpace (ToLower requested)).
  clearbody p r. pose proof (Split_nonempty p colon) as Hp. pose proof (Split_nonempty r colon) as Hr.
  do 2 (case_bool_decide; [naive_solver|]). simpl.
  case_bool_decide as Hstar; simpl.
  { subst. split; [|done]. intros _. split_and!; [done|done|]. right. apply glob_single. by left. }
  case_bool_decide as Hss; [naive_solver|]. simpl.
  case_bool_decide as Heq.
  { subst. split; [|done]. intros _. split_and!; [done|done|]. right. left.
    generalize (Split r colon). intros l. induction l; constructor; [by right|done]. }
  destruct (_ <? _) eqn:El; bool_to_prop.
  - split; [done|]. intros (_ & _ & [?|Hg]); [done|]. exfalso.
    destruct Hg as [Hf|(pre & r1 & r2 & Ep & Er & Hr2 & Hf)].
    + apply Forall2_length in Hf. lia.
    + apply Forall2_length in Hf. rewrite Ep, Er, !length_app in El. simpl in El.
      destruct r2; [done|simpl in El; lia].
  - rewrite matchLoop_glob by (done || lia). naive_solver.
Qed.

Lemma elem_of_loaded ps p : p ∈ foldl (λ (m : gset string) p, m ∪ {[p]}) ∅ ps ↔ p ∈ ps.
Proof.
  assert (∀ m : gset string, p ∈ foldl (λ m p, m ∪ {[p]}) m ps ↔ p ∈ m ∨ p ∈ ps) as Hg.
  { induction ps as [|q ps IH]; intros m; simpl; [set_solver|]. rewrite IH. set_solver. }
  rewrite Hg. set_solver.
Qed.

(** The permissions loaded last decide. *)
Lemma Can_spec ctx ps permission :
  Can (WithPermissions ctx ps) permission = true ↔ permission ∈ ps ∨ ∃ p, p ∈ ps ∧ Match p permission = true.
Proof.
  unfold Can, WithPermissions, HasPermission, Permissions. simpl.
  rewrite orb_true_iff, bool_decide_eq_true, elem_of_loaded, existsb_exists.
  setoid_rewrite <-list_elem_of_In. setoid_rewrite elem_of_elements. by setoid_rewrite elem_of_loaded.
Qed.

(** A context grants a permission exactly when the permission is one of
    those loaded or matches a pattern of them; without loaded permissions
    nothing is granted; and more permissions never take one away. *)
Lemma context_grants perms perms' permission :
  let ctx := WithPermissions None perms in
  (Can ctx permission = true ↔ permission ∈ perms ∨ ∃ p, p ∈ perms ∧ Match p permission = true) ∧
  Can None permission = false ∧
  (Can ctx permission = true → Can (WithPermissions None (perms ++ perms')) permission = true).
Proof. cbv zeta. rewrite !Can_spec. split_and!; [done|done|]. set_solver. Qed.
