(* ===== verification/Gin.v ===== *)
(** The gin middlewares (ginmw/): authentication, permissions, tenants and rate
    limits, in a chain of handlers. Gin itself is used through what it documents of a chain,
    the class [Gin]. *)
From S2P Require Import Prelude Text Strconv TokenBucket SlidingWindow RateLimit Rbac.

(** ** Requests and handlers *)

(** [Claims]; the UUIDs by their text. *)
Record Claims := mkClaims { UserID : string; TenantID : string; Email : string; Roles : list string }.

(** A body: a JSON object with its members, or other text. *)
Inductive body := Json (members : list (string * string)) | Raw (text : string).

(** The context of a request: its headers, query parameters and method, the values set on the
    context (strings by their key; the claims; the permissions), the response headers, the status
    that was written first and the bodies written, the abort flag, and the
    route handlers that have run. *)
Record Ctx := mkCtx {
  GetHeader : string → string;
  Query : string → string;
  Method : string;
  c_keys : gmap string string;
  c_claims : option Claims;
  c_perms : context;
  c_headers : list (string * string);
  c_status : option Z;
  c_bodies : list body;
  c_aborted : bool;
  c_handled : list string;
}.

Definition setKey (c : Ctx) k v := mkCtx (GetHeader c) (Query c) (Method c) (<[k := v]> (c_keys c)) (c_claims c)
  (c_perms c) (c_headers c) (c_status c) (c_bodies c) (c_aborted c) (c_handled c).
Definition setClaims (c : Ctx) cl := mkCtx (GetHeader c) (Query c) (Method c) (c_keys c) (Some cl)
  (c_perms c) (c_headers c) (c_status c) (c_bodies c) (c_aborted c) (c_handled c).
Definition setPerms (c : Ctx) ps := mkCtx (GetHeader c) (Query c) (Method c) (c_keys c) (c_claims c)
  ps (c_headers c) (c_status c) (c_bodies c) (c_aborted c) (c_handled c).
Definition addHeaders (c : Ctx) hs := mkCtx (GetHeader c) (Query c) (Method c) (c_keys c) (c_claims c)
  (c_perms c) (c_headers c ++ hs) (c_status c) (c_bodies c) (c_aborted c) (c_handled c).
Definition write (c : Ctx) (status : Z) (bs : list body) := mkCtx (GetHeader c) (Query c) (Method c) (c_keys c) (c_claims c)
  (c_perms c) (c_headers c) (match c_status c with Some s => Some s | None => Some status end)
  (c_bodies c ++ bs) (c_aborted c) (c_handled c).
Definition Abort_ (c : Ctx) := mkCtx (GetHeader c) (Query c) (Method c) (c_keys c) (c_claims c)
  (c_perms c) (c_headers c) (c_status c) (c_bodies c) true (c_handled c).
Definition handled (c : Ctx) name := mkCtx (GetHeader c) (Query c) (Method c) (c_keys c) (c_claims c)
  (c_perms c) (c_headers c) (c_status c) (c_bodies c) (c_aborted c) (c_handled c ++ [name]).

Definition AbortWithStatusJSON (c : Ctx) (status : Z) (b : body) : Ctx := Abort_ (write c status [b]).

(** A handler returns without [Next], or calls it and then does [after]. *)
Inductive handlerEnd :=
| Return (c : Ctx)
| Next (c : Ctx) (after : Ctx → Ctx).
Definition HandlerFunc := Ctx → handlerEnd.

(** What gin documents of a chain: pending handlers run after a handler that
    returns, or inside its [Next], unless the context is aborted. *)
Class Gin := {
  serveChain : list HandlerFunc → Ctx → Ctx;
  serve_nil : ∀ c, serveChain [] c = c;
  serve_return : ∀ h hs c c', h c = Return c' →
    serveChain (h :: hs) c = if c_aborted c' then c' else serveChain hs c';
  serve_next : ∀ h hs c c' after, h c = Next c' after →
    serveChain (h :: hs) c = after (if c_aborted c' then c' else serveChain hs c');
}.

(** A route: a handler that records that it ran. *)
Definition route (name : string) : HandlerFunc := λ c, Return (handled c name).
Definition goOn (c : Ctx) : handlerEnd := Next c id.

(** ** Authentication (ginmw/jwt.go) *)

Definition PrimaryRole (c : Claims) : string := match Roles c with [] => "" | r :: _ => r end.
Definition HasRole (c : Claims) (role : string) : bool := existsb (λ r, bool_decide (r = role)) (Roles c).

(** [SetJWTSecret]: the secret, empty when it is not set, and "no error". *)
Definition SetJWTSecret (secret : string) : string * bool :=
  if bool_decide (TrimSpace secret = "") then ("", false) else (secret, true).

Definition space : Ascii.ascii := Ascii.ascii_of_nat 32.

Definition extractToken (c : Ctx) (allowQueryToken : bool) : string :=
  let query := if allowQueryToken then Query c "token" else "" in
  let h := GetHeader c "Authorization" in
  if bool_decide (h = "") then query
  else match cutFirst space h with
       | Some (scheme, token) => if bool_decide (ToLower scheme = "bearer") then token else query
       | None => query
       end.

Definition unauthorized (msg code : string) : body := Json [("error", msg); ("code", code)].

Section auth.
(** [jwt.ParseWithClaims] with HS256: the claims of a token that is valid now. *)
Context (ParseWithClaims : string → string → option Claims).

Definition AuthMiddleware (secret : string) (allowQueryToken : bool) : HandlerFunc := λ c,
  if bool_decide (secret = "") then
    Return (AbortWithStatusJSON c 401 (unauthorized "JWT secret is uninitialized" "UNAUTHORIZED"))
  else
    let tokenStr := extractToken c allowQueryToken in
    if bool_decide (tokenStr = "") then
      Return (AbortWithStatusJSON c 401 (unauthorized "Authorization required" "UNAUTHORIZED"))
    else match ParseWithClaims tokenStr secret with
         | None => Return (AbortWithStatusJSON c 401 (unauthorized "Invalid or expired token" "TOKEN_EXPIRED"))
         | Some claims => goOn (setClaims c claims)
         end.
End auth.

Definition GetClaims (c : Ctx) : option Claims := c_claims c.

(** ** Permissions (ginmw/rbac.go) *)

(** [PermissionProvider]: the permissions of a user in a tenant, or an error. *)
Definition PermissionProvider := string → string → option (list string).

Definition RBAC (provider : PermissionProvider) : HandlerFunc := λ c,
  match GetClaims c with
  | None => goOn (setPerms c (WithPermissions (c_perms c) []))
  | Some claims =>
      match provider (UserID claims) (TenantID claims) with
      | None => Return (AbortWithStatusJSON c 500 (unauthorized "Permission check failed" "RBAC_ERROR"))
      | Some perms => goOn (setPerms c (WithPermissions (c_perms c) perms))
      end
  end.

Definition RequirePermission (perm : string) : HandlerFunc := λ c,
  if Can (c_perms c) perm then goOn c
  else Return (AbortWithStatusJSON c 403 (Json [("error", "Forbidden"); ("code", "FORBIDDEN"); ("required", perm)])).

Definition RequireAnyPermission (perms : list string) : HandlerFunc := λ c,
  if CanAny (c_perms c) perms then goOn c
  else Return (AbortWithStatusJSON c 403 (unauthorized "Forbidden" "FORBIDDEN")).

Definition toSet (ss : list string) : gset string := foldl (λ m s, {[s]} ∪ m) ∅ ss.

Definition RequireRole (roles : list string) : HandlerFunc := λ c,
  match GetClaims c with
  | None => Return (AbortWithStatusJSON c 403 (unauthorized "Forbidden" "FORBIDDEN"))
  | Some claims =>
      if existsb (λ r, bool_decide (r ∈ toSet roles)) (Roles claims) then goOn c
      else Return (AbortWithStatusJSON c 403 (unauthorized "Forbidden: insufficient role" "FORBIDDEN"))
  end.

Definition AdminOnly (roles : list string) : HandlerFunc :=
  RequireRole (if roles is [] then ["ADMIN"; "SUPERADMIN"; "PLATFORM_ADMIN"] else roles).

(** ** Tenants (ginmw/tenant.go) *)

Definition DefaultTenantContextKey : string := "tenant_id".
Definition DefaultTenantHeader : string := "x-tenant-id".
Definition DefaultTenantQuery : string := "tenant_id".
Definition nilUUID : string := "00000000-0000-0000-0000-000000000000".

Record tenantOptions := mkTenant {
  contextKey : string; headerName : string; queryParam : string; bypassRoles : gset string }.

Inductive TenantOption :=
| WithTenantContextKey (key : string)
| WithTenantHeader (header : string)
| WithTenantQuery (param : string)
| WithBypassRoles (roles : list string).

Definition normalRole (r : string) : string := ToUpper (TrimSpace r).

Definition applyTenantOption (o : tenantOptions) (opt : TenantOption) : tenantOptions :=
  match opt with
  | WithTenantContextKey key => mkTenant key (headerName o) (queryParam o) (bypassRoles o)
  | WithTenantHeader header => mkTenant (contextKey o) header (queryParam o) (bypassRoles o)
  | WithTenantQuery param => mkTenant (contextKey o) (headerName o) param (bypassRoles o)
  | WithBypassRoles roles =>
      mkTenant (contextKey o) (headerName o) (queryParam o) (foldl (λ m r, {[normalRole r]} ∪ m) (bypassRoles o) roles)
  end.
Definition tenantConfig (opts : list TenantOption) : tenantOptions :=
  foldl applyTenantOption (mkTenant DefaultTenantContextKey DefaultTenantHeader DefaultTenantQuery ∅) opts.

Definition orDefault (s dflt : string) : string := if bool_decide (s = "") then dflt else s.

Definition ExtractTenantID (c : Ctx) (contextKey headerName queryParam : string) : string :=
  let contextKey := orDefault contextKey DefaultTenantContextKey in
  let headerName := orDefault headerName DefaultTenantHeader in
  let queryParam := orDefault queryParam DefaultTenantQuery in
  let fromKey := TrimSpace (default "" (c_keys c !! contextKey)) in
  if negb (bool_decide (fromKey = "")) then fromKey
  else
    let fromClaims := match GetClaims c with Some claims => TenantID claims | None => "" end in
    if negb (bool_decide (fromClaims = "")) && negb (bool_decide (fromClaims = nilUUID)) then fromClaims
    else
      let h := TrimSpace (GetHeader c headerName) in
      if negb (bool_decide (h = "")) then h else TrimSpace (Query c queryParam).

Definition tenantRequired : body :=
  Json [("success", "false"); ("code", "TENANT_REQUIRED");
        ("message", "Tenant ID required via header (" +:+ DefaultTenantHeader +:+ ") or query parameter (" +:+
                    DefaultTenantQuery +:+ ")")].

Definition RequireTenant (opts : list TenantOption) : HandlerFunc := λ c,
  let cfg := tenantConfig opts in
  let tenantID := ExtractTenantID c (contextKey cfg) (headerName cfg) (queryParam cfg) in
  if bool_decide (tenantID = "") then
    let bypass := match GetClaims c with
                  | Some claims => existsb (λ r, bool_decide (normalRole r ∈ bypassRoles cfg)) (Roles claims)
                  | None => false
                  end in
    if bypass then goOn c else Return (AbortWithStatusJSON c 400 tenantRequired)
  else goOn (setKey c (contextKey cfg) tenantID).

(** ** Rate limits (ginmw/ratelimit.go) *)

Section limits.
Context {L : Type} `{Limiter L}.

(** [RateLimitWithLimiter] on the limiter's state, for the key of the request. *)
Definition RateLimitWithLimiter (l : L) (key : string) (rd1 rd2 : reads) (c : Ctx) : handlerEnd * L :=
  let '(ok, l1) := lim_Allow l key rd1 in
  if ok then
    let '(rem, l2) := lim_Remaining l1 key rd2 in
    (goOn (addHeaders c [("RateLimit-Remaining", Itoa rem); ("X-RateLimit-Remaining", Itoa rem)]), l2)
  else
    (Return (AbortWithStatusJSON
       (addHeaders c [("RateLimit-Remaining", "0"); ("X-RateLimit-Remaining", "0"); ("Retry-After", "1")])
       429 (Json [("error", "too many requests"); ("code", "RATE_LIMITED")])), l1).
End limits.

(** [gin.WrapH]: a net/http handler with its response writes into the context
    and returns. *)
Definition WrapH (r : response) (c : Ctx) : handlerEnd :=
  let c1 := addHeaders c r.1 in
  Return (match r.2 with Rejected status text => write c1 status [Raw text] | Passed => c1 end).

(** [GlobalRateLimit] and [AuthRateLimit]: the net/http middleware around
    [noopHandler], for the address [ip] of the request. *)
Definition wrappedLimit (capacity : Z) (l : TokenBucketLimiter) (ip : string) (rd1 rd2 : reads) (t3 : Time)
    : HandlerFunc :=
  WrapH (handle capacity Minute (LimitMetrics 0 0) l ip rd1 rd2 t3).1.1.
Definition GlobalRateLimit := wrappedLimit 200.
Definition AuthRateLimit := wrappedLimit 10.

(** ** A chain that satisfies the documented laws *)

Fixpoint serveAll (hs : list HandlerFunc) (c : Ctx) : Ctx :=
  match hs with
  | [] => c
  | h :: hs' =>
      match h c with
      | Return c' => if c_aborted c' then c' else serveAll hs' c'
      | Next c' after => after (if c_aborted c' then c' else serveAll hs' c')
      end
  end.

Program Definition chainGin : Gin := {| serveChain := serveAll |}.
Next Obligation. done. Qed.
Next Obligation. intros h hs c c' E. cbn. by rewrite E. Qed.
Next Obligation. intros h hs c c' after E. cbn. by rewrite E. Qed.

(** ** Guarded routes *)

Section guard.
Context `{Gin}.

Lemma serve_goOn h hs c c' : h c = goOn c' → c_aborted c' = false → serveChain (h :: hs) c = serveChain hs c'.
Proof. intros E Ha. rewrite (serve_next _ _ _ _ _ E), Ha. done. Qed.

Lemma serve_abort h hs c c' : h c = Return c' → c_aborted c' = true → serveChain (h :: hs) c = c'.
Proof. intros E Ha. by rewrite (serve_return _ _ _ _ E), Ha. Qed.

Lemma serve_route name c : serveChain [route name] c = handled c name.
Proof. rewrite (serve_return _ _ _ (handled c name)) by done. rewrite serve_nil. by case_match. Qed.

(** The chain of a protected route. *)
Definition guarded parse secret q provider perm name : list HandlerFunc :=
  [AuthMiddleware parse secret q; RequireTenant []; RBAC provider; RequirePermission perm; route name].

(** A request that no middleware has touched. *)
Definition untouched (c : Ctx) : Prop :=
  c_aborted c = false ∧ c_handled c = [] ∧ c_status c = None ∧ c_keys c = ∅.

(** The request was turned away with the status. *)
Definition refused (c : Ctx) (status : Z) : Prop :=
  c_handled c = [] ∧ c_aborted c = true ∧ c_status c = Some status.

Lemma refuse h hs c status b :
  h c = Return (AbortWithStatusJSON c status b) → c_handled c = [] → c_status c = None →
  refused (serveChain (h :: hs) c) status.
Proof. intros E Hh Hs. rewrite (serve_abort _ _ _ _ E) by done. unfold refused. cbn. by rewrite Hs. Qed.

(** A token that names a tenant; and the tenant of a request with the claims:
    that of the token, or, for a token without one, what the header or the query
    names. *)
Definition hasTenant (claims : Claims) : bool :=
  negb (bool_decide (TenantID claims = "")) && negb (bool_decide (TenantID claims = nilUUID)).
Definition tenantFor (c : Ctx) (claims : Claims) : string :=
  if hasTenant claims then TenantID claims
  else if bool_decide (TrimSpace (GetHeader c "x-tenant-id") = "") then TrimSpace (Query c "tenant_id")
  else TrimSpace (GetHeader c "x-tenant-id").

Lemma tenantFor_claims c claims : hasTenant claims = true → tenantFor c claims = TenantID claims ∧ TenantID claims ≠ "".
Proof.
  intros Ht. unfold tenantFor. rewrite Ht. split; [done|]. unfold hasTenant in Ht.
  by destruct (bool_decide_reflect (TenantID claims = "")).
Qed.

Lemma extract_tenant c claims : c_keys c = ∅ → c_claims c = Some claims →
  ExtractTenantID c "tenant_id" "x-tenant-id" "tenant_id" = tenantFor c claims.
Proof.
  intros Hk Hc. unfold ExtractTenantID, GetClaims, tenantFor, hasTenant. cbv zeta. rewrite Hk, Hc, lookup_empty.
  change (TrimSpace (default "" None)) with "". rewrite (bool_decide_true ("" = "")) by done. cbn [negb].
  change (orDefault "x-tenant-id" DefaultTenantHeader) with "x-tenant-id".
  change (orDefault "tenant_id" DefaultTenantQuery) with "tenant_id".
  destruct (negb (bool_decide (TenantID claims = "")) && negb (bool_decide (TenantID claims = nilUUID))); [done|].
  by destruct (bool_decide (TrimSpace (GetHeader c "x-tenant-id") = "")).
Qed.

Lemma tenant_required c claims : c_keys c = ∅ → c_claims c = Some claims →
  RequireTenant [] c = if bool_decide (tenantFor c claims = "") then Return (AbortWithStatusJSON c 400 tenantRequired)
                       else goOn (setKey c "tenant_id" (tenantFor c claims)).
Proof.
  intros Hk Hc. unfold RequireTenant. cbn [tenantConfig foldl contextKey headerName queryParam bypassRoles].
  change DefaultTenantContextKey with "tenant_id". change DefaultTenantHeader with "x-tenant-id".
  change DefaultTenantQuery with "tenant_id". cbv zeta. rewrite (extract_tenant _ _ Hk Hc).
  destruct (bool_decide (tenantFor c claims = "")); [|done]. unfold GetClaims. rewrite Hc.
  match goal with |- context [existsb ?f ?l] => assert (existsb f l = false) as ->; [|done] end.
  induction (Roles claims) as [|r l IH]; [done|]. cbn [existsb]. by rewrite bool_decide_false, IH by set_solver.
Qed.

(** The last two guards and the route. *)
Lemma guard_permissions provider perm name c claims :
  c_aborted c = false → c_handled c = [] → c_status c = None → c_claims c = Some claims →
  let c' := serveChain [RBAC provider; RequirePermission perm; route name] c in
  match provider (UserID claims) (TenantID claims) with
  | None => refused c' 500
  | Some perms =>
      if Can (WithPermissions None perms) perm
      then c_handled c' = [name] ∧ c_claims c' = Some claims ∧ c_keys c' = c_keys c
      else refused c' 403
  end.
Proof.
  intros Ha Hh Hs Hc. cbv zeta. destruct (provider _ _) as [perms|] eqn:Ep.
  - rewrite (serve_goOn _ _ _ (setPerms c (WithPermissions (c_perms c) perms)))
      by (done || (unfold RBAC, GetClaims; by rewrite Hc, Ep)).
    change (WithPermissions (c_perms c) perms) with (WithPermissions None perms).
    destruct (Can (WithPermissions None perms) perm) eqn:Ecan.
    + rewrite (serve_goOn _ _ _ (setPerms c (WithPermissions None perms)))
        by (done || (unfold RequirePermission; cbn [c_perms setPerms]; by rewrite Ecan)).
      rewrite serve_route. cbn. by rewrite Hh.
    + eapply refuse; [unfold RequirePermission; cbn [c_perms setPerms]; by rewrite Ecan|done..].
  - eapply refuse; [unfold RBAC, GetClaims; by rewrite Hc, Ep|done..].
Qed.

(** What a token must give for the route to run, and the refusal otherwise. *)
Definition admitted parse secret q (provider : PermissionProvider) perm (c : Ctx) (claims : Claims) : Prop :=
  secret ≠ "" ∧ extractToken c q ≠ "" ∧ parse (extractToken c q) secret = Some claims ∧
  tenantFor c claims ≠ "" ∧
  ∃ perms, provider (UserID claims) (TenantID claims) = Some perms ∧
    (perm ∈ perms ∨ ∃ p, p ∈ perms ∧ Match p perm = true).

Lemma guarded_cases parse secret q provider perm name c :
  untouched c →
  let c' := serveChain (guarded parse secret q provider perm name) c in
  (∃ claims, admitted parse secret q provider perm c claims ∧
     c_handled c' = [name] ∧ c_claims c' = Some claims ∧ c_keys c' = {["tenant_id" := tenantFor c claims]}) ∨
  ((∀ claims, ¬ admitted parse secret q provider perm c claims) ∧ ∃ status, refused c' status ∧ status ∈ [401; 400; 500; 403]).
Proof.
  intros (Ha & Hh & Hs & Hk). cbv zeta. unfold guarded, admitted.
  destruct (decide (secret = "")) as [->|Hsec].
  { right. split; [naive_solver|]. exists 401. split; [|set_solver].
    eapply refuse; [unfold AuthMiddleware; by rewrite bool_decide_true|done..]. }
  destruct (decide (extractToken c q = "")) as [Etok|Htok].
  { right. split; [naive_solver|]. exists 401. split; [|set_solver].
    eapply refuse; [unfold AuthMiddleware; by rewrite bool_decide_false, bool_decide_true|done..]. }
  destruct (parse (extractToken c q) secret) as [claims|] eqn:Ep.
  2: { right. split; [naive_solver|]. exists 401. split; [|set_solver].
    eapply refuse; [unfold AuthMiddleware; rewrite !bool_decide_false by done; by rewrite Ep|done..]. }
  rewrite (serve_goOn _ _ _ (setClaims c claims))
    by (done || (unfold AuthMiddleware; rewrite !bool_decide_false by done; by rewrite Ep)).
  pose proof (tenant_required (setClaims c claims) claims Hk eq_refl) as Hreq.
  change (tenantFor (setClaims c claims) claims) with (tenantFor c claims) in Hreq.
  destruct (decide (tenantFor c claims = "")) as [Et|Et].
  { rewrite (bool_decide_true _ Et) in Hreq. right. split; [naive_solver|]. exists 400. split; [|set_solver].
    by eapply refuse. }
  rewrite (bool_decide_false _ Et) in Hreq. rewrite (serve_goOn _ _ _ _ Hreq) by done.
  pose proof (guard_permissions provider perm name (setKey (setClaims c claims) "tenant_id" (tenantFor c claims)) claims
    Ha Hh Hs eq_refl) as Hg. cbv zeta in Hg.
  destruct (provider (UserID claims) (TenantID claims)) as [perms|] eqn:Epr.
  2: { right. split; [naive_solver|]. exists 500. split; [done|set_solver]. }
  destruct (Can (WithPermissions None perms) perm) eqn:Ecan.
  - left. exists claims. apply Can_spec in Ecan. destruct Hg as (? & ? & Hkeys). split_and!; try done; [by exists perms|].
    rewrite Hkeys. cbn. by rewrite Hk.
  - right. split; [|exists 403; split; [done|set_solver]].
    intros claims' (_ & _ & Hc' & _ & perms' & Hpr & Hcan). simplify_eq.
    apply (Can_spec None) in Hcan. congruence.
Qed.
End guard.

(** C19: A route behind AuthMiddleware, RequireTenant, RBAC and RequirePermission
    runs exactly when a secret is set, the request carries a token that the JWT library
    accepts, the request has a tenant, and the provider gives the user, in the tenant of the token, the
    permission or a pattern that matches it; and then it runs with the claims of the token. The tenant it
    runs with is that of the token, whatever tenant the header and the query name, when the token names one, and otherwise the one
    that the header or else the query names, although the permissions are those of the token's empty tenant. Otherwise no
    handler runs and the reply is 401, 400 (no tenant), 403 or 500: a provider that fails
    grants nothing. Without AuthMiddleware no permission is ever granted. *)
Theorem gin_guarded `{Gin} parse secret q provider perm name c :
  untouched c →
  (let c' := serveChain (guarded parse secret q provider perm name) c in
   (∃ claims, admitted parse secret q provider perm c claims ∧
      c_handled c' = [name] ∧ c_claims c' = Some claims ∧ c_keys c' !! "tenant_id" = Some (tenantFor c claims) ∧
      (hasTenant claims = true → c_keys c' !! "tenant_id" = Some (TenantID claims))) ∨
   ((∀ claims, ¬ admitted parse secret q provider perm c claims) ∧
      ∃ status, refused c' status ∧ status ∈ [401; 400; 500; 403])) ∧
  (c_claims c = None → refused (serveChain [RBAC provider; RequirePermission perm; route name] c) 403).
Proof.
  intros Hc. split.
  - destruct (guarded_cases parse secret q provider perm name c Hc) as [(claims & ? & ? & ? & Hk)|?]; [left|by right].
    exists claims. rewrite Hk. split_and!; try done. intros Ht. by rewrite <-(proj1 (tenantFor_claims c claims Ht)).
  - destruct Hc as (Ha & Hh & Hs & _). intros Hcl.
    rewrite (serve_goOn _ _ _ (setPerms c (WithPermissions (c_perms c) [])))
      by (done || (unfold RBAC, GetClaims; by rewrite Hcl)).
    eapply refuse; [|done..]. unfold RequirePermission. cbn [c_perms setPerms].
    destruct (Can _ perm) eqn:E; [|done]. apply Can_spec in E. set_solver.
Qed.

Definition tokenRequest (auth : string) : Ctx :=
  mkCtx (λ h, if bool_decide (h = "Authorization") then auth else if bool_decide (h = "x-tenant-id") then "evil" else "")
    (λ _, "") "GET" ∅ None None [] None [] false [].
Definition alice : Claims := mkClaims "alice" "acme" "" [].

Lemma gin_guarded_witness :
  let parse := λ tok sec, if bool_decide (tok = "good") then Some alice else None in
  let provider := λ u t, if bool_decide (u = "alice" ∧ t = "acme") then Some ["orders:*"] else None in
  let c' := @serveChain chainGin (guarded parse "s3cret" false provider "orders:read" "list") (tokenRequest "Bearer good") in
  c_handled c' = ["list"] ∧ c_keys c' !! "tenant_id" = Some "acme".
Proof.
  intros parse provider.
  destruct (@gin_guarded chainGin parse "s3cret" false provider "orders:read" "list" (tokenRequest "Bearer good"))
    as [[(claims & Ha & Hh & _ & Hk & _)|[_ (st & Hr & _)]] _].
  - by vm_compute.
  - split; [done|]. rewrite Hk. destruct Ha as (_ & _ & Ep & _). vm_compute in Ep. injection Ep as <-. reflexivity.
  - exfalso. destruct Hr as [Hr _]. by vm_compute in Hr.
Defined.

(** ** Limited routes *)

(** RateLimitWithLimiter, with any limiter, lets the route run exactly when
    the limiter allows the request, and otherwise answers 429 without running
    it. GlobalRateLimit and AuthRateLimit write the same refusal but never stop
    the chain: the wrapped net/http handler does not abort the context, so the
    route runs for every request, those answered with 429 included. *)
Lemma gin_limits `{Gin} {L} `{Limiter L} (l : L) key rd1 rd2 name c :
  untouched c →
  (let c' := serveChain [(λ c, (RateLimitWithLimiter l key rd1 rd2 c).1); route name] c in
   if (lim_Allow l key rd1).1 then c_handled c' = [name] else refused c' 429) ∧
  (∀ cap tb t3,
     let c' := serveChain [wrappedLimit cap tb key rd1 rd2 t3; route name] c in
     c_handled c' = [name] ∧
     (c_status c' = Some 429 ↔ (TokenBucket.Allow tb key rd1).1 = false)).
Proof.
  intros (Ha & Hh & Hs & Hk). split.
  - cbv zeta. destruct (lim_Allow l key rd1) as [[] l1] eqn:E; cbn [fst].
    + destruct (lim_Remaining l1 key rd2) as [rem l2] eqn:Er.
      erewrite serve_goOn; [|unfold RateLimitWithLimiter; rewrite E, Er; done|done].
      rewrite serve_route. cbn. by rewrite Hh.
    + erewrite serve_abort; [|unfold RateLimitWithLimiter; rewrite E; done|done].
      unfold refused. cbn. by rewrite Hs.
  - intros cap tb t3. cbv zeta. unfold wrappedLimit, handle.
    destruct (TokenBucket.Allow tb key rd1) as [[] l1] eqn:E.
    + destruct (TokenBucket.Remaining l1 key rd2) as [rem l2] eqn:Er. cbn [fst snd].
      erewrite serve_return; [|done]. cbn. rewrite Ha, serve_route. cbn. by rewrite Hh, Hs.
    + cbn [fst snd]. erewrite serve_return; [|done]. cbn. rewrite Ha, serve_route. cbn. by rewrite Hh, Hs.
Qed.

Lemma gin_limits_witness :
  let rd := Reads 0 0 0 0 0 0 in
  let tb := TokenBucket.NewTokenBucket 1 Second 0 in
  let empty := (TokenBucket.Allow tb "k" rd).2 in
  let c' := @serveChain chainGin [AuthRateLimit empty "k" rd rd 0; route "login"] (tokenRequest "") in
  c_handled c' = ["login"] ∧ c_status c' = Some 429.
Proof.
  intros rd tb empty c'.
  destruct (proj2 (@gin_limits chainGin _ token_limiter tb "k" rd rd "login" (tokenRequest "") ltac:(by vm_compute)) 10 empty 0)
    as [H1 H2].
  split; [exact H1|]. apply H2. by vm_compute.
Defined.
