(* ===== verification/Jwt.v ===== *)
(** Tokens (ginmw/jwt.go): [GenerateToken] and the requests that carry its
    tokens. The JWT library is used through what it documents, the class
    [JWT]. *)
From Stdlib Require Import Ascii.
From S2P Require Import Prelude Text Utf8 Strconv RateLimit Rbac Gin.
#[local] Open Scope Z_scope.
#[local] Open Scope go_scope.

(** ** Claims with their dates *)

(** [jwt.RegisteredClaims], and [Claims] with them ([Custom] is left out). *)
Record RegisteredClaims := mkRegistered {
  Issuer : string; Subject : string; Audience : list string; ExpiresAt : option Time; NotBefore : option Time; IssuedAt : option Time; ID : string;
}.
Record TokenClaims := mkToken { own : Claims; registered : RegisteredClaims }.

(** [jwt.NewNumericDate] keeps whole seconds. *)
Definition NewNumericDate (t : Time) : Time := t - (t - unixEpoch) mod Second.

(** The dates that the library checks by default. *)
Definition validAt (now : Time) (c : TokenClaims) : bool :=
  match ExpiresAt (registered c) with Some e => now <? e | None => true end &&
  match NotBefore (registered c) with Some n => n <=? now | None => true end.

(** Claims that their JSON text keeps: valid UTF-8, and dates in whole seconds
    that a float64 represents. *)
Definition dateOk (d : option Time) : Prop :=
  match d with None => True | Some t => ∃ s, t = unixEpoch + s * Second ∧ - 2 ^ 53 <= s <= 2 ^ 53 end.
Definition claimsOk (c : TokenClaims) : Prop :=
  Forall ValidString ([UserID (own c); TenantID (own c); Email (own c)] ++ Roles (own c) ++
    [Issuer (registered c); Subject (registered c); ID (registered c)] ++ Audience (registered c)) ∧
  dateOk (ExpiresAt (registered c)) ∧ dateOk (NotBefore (registered c)) ∧ dateOk (IssuedAt (registered c)).

(** The library with HS256: a token that was signed with a secret is accepted with it, with
    its claims, while its dates are valid. *)
Class JWT := {
  SignedString : TokenClaims → string → string + error;
  ParseWithClaims : Time → string → string → option TokenClaims;
  parse_signed : ∀ c secret tok now, claimsOk c → SignedString c secret = inl tok →
    ParseWithClaims now tok secret = if validAt now c then Some c else None;
  signed_text : ∀ c secret, SignedString c secret ≠ inl "";
}.

(** ** Operations *)

(** [getJWTSecret]: a copy of the secret; the empty one is [nil]. *)
Definition getJWTSecret (jwtSecret : string) : string := jwtSecret.

Definition stamp (c : TokenClaims) (now : Time) (timeInMins : Z) : TokenClaims :=
  let r := registered c in
  mkToken (own c) (mkRegistered (Issuer r) (Subject r) (Audience r)
    (Some (NewNumericDate (time_Add now (timeInMins *! Minute)))) (NotBefore r) (Some (NewNumericDate now)) (ID r)).

(** [GenerateToken] changes the claims it is given, unless no secret is set. *)
Definition GenerateToken `{JWT} (jwtSecret : string) (claims : TokenClaims) (timeInMins : Z) (now : Time)
    : TokenClaims * (string + error) :=
  let secret := getJWTSecret jwtSecret in
  if bool_decide (secret = "") then (claims, inr (ErrNew "jwt secret is uninitialized"))
  else let claims' := stamp claims now timeInMins in (claims', SignedString claims' secret).

(** The parser that [AuthMiddleware] is given at a time. *)
Definition parseAt `{JWT} (now : Time) (tok secret : string) : option Claims := own <$> ParseWithClaims now tok secret.

(** A request with the token in its header. *)
Definition bears (c : Ctx) (tok : string) : Prop :=
  ∃ scheme, GetHeader c "Authorization" = scheme +:+ " " +:+ tok ∧ ToLower scheme = "bearer".

(** ** Lemmas *)

Lemma numericDate_bounds t : t - Second < NewNumericDate t <= t.
Proof. unfold NewNumericDate. pose proof (Z.mod_pos_bound (t - unixEpoch) Second). unfold Second in *. lia. Qed.

Lemma numericDate_seconds t : ∃ s, NewNumericDate t = unixEpoch + s * Second.
Proof.
  exists ((t - unixEpoch) / Second). unfold NewNumericDate.
  pose proof (Z.div_mod (t - unixEpoch) Second ltac:(unfold Second; lia)). lia.
Qed.

(** The scheme has no space, so the token is what follows it. *)
Lemma lower_space a : lower a = space → a = space.
Proof. destruct a as [[] [] [] [] [] [] [] []]; vm_compute; intros [=]; done. Qed.

Lemma cut_lower s : cutFirst space (ToLower s) = None → ∀ t, cutFirst space (s +:+ String space t) = Some (s, t).
Proof.
  induction s as [|a s IH]; intros Hs t; [done|].
  change (String a s +:+ String space t) with (String a (s +:+ String space t)). cbn [ToLower cutFirst] in *.
  destruct (decide (lower a = space)) as [El|El].
  - by rewrite bool_decide_true in Hs.
  - rewrite bool_decide_false in Hs by done. rewrite bool_decide_false by (intros ->; by apply El).
    rewrite IH; [done|]. by destruct (cutFirst space (ToLower s)) as [[]|].
Qed.

Lemma bears_extract c tok q : bears c tok → extractToken c q = tok.
Proof.
  intros (scheme & Hh & Hs). unfold extractToken. cbv zeta. rewrite Hh.
  change (scheme +:+ " " +:+ tok) with (scheme +:+ String space tok).
  rewrite bool_decide_false by apply append_nonempty. rewrite cut_lower by (by rewrite Hs).
  by rewrite bool_decide_true.
Qed.

Lemma generated `{JWT} secret claims mins now claims' tok :
  GenerateToken secret claims mins now = (claims', inl tok) →
  secret ≠ "" ∧ claims' = stamp claims now mins ∧ SignedString claims' secret = inl tok ∧ tok ≠ "".
Proof.
  unfold GenerateToken, getJWTSecret. case_bool_decide as Hs; [done|]. intros [= <- Ht]. split_and!; try done.
  intros ->. by apply (signed_text (stamp claims now mins) secret).
Qed.

(** What the guards see of the token. *)
Lemma parse_generated `{JWT} secret claims mins now claims' tok t :
  GenerateToken secret claims mins now = (claims', inl tok) → claimsOk claims' →
  parseAt t tok secret = if validAt t claims' then Some (own claims) else None.
Proof.
  intros (Hs & -> & Ht & _)%generated Hok. unfold parseAt. rewrite (parse_signed _ _ _ t Hok Ht). by destruct (validAt _ _).
Qed.

(** ** The round trip *)

(** A lifetime is a number of minutes times a duration, in 64 bits: beyond
    153722867 minutes it wraps. *)
Lemma lifetime_range mins : 0 <= mins <= 153722867 → mins *! Minute = mins * Minute.
Proof. intros Hm. apply wrap64_id. unfold in_int64, minInt64, maxInt64, Minute, Second. lia. Qed.

Lemma lifetime_wraps mins : 153722867 < mins <= 307445734 → mins *! Minute < 0.
Proof.
  intros Hm. unfold wrap64, minInt64, Minute, Second. rewrite (Z.mod_eq _ (2 ^ 64)) by lia.
  rewrite <-(Zdiv_unique _ (2 ^ 64) 1 (mins * 60000000000 - - 2 ^ 63 - 2 ^ 64)) by lia. lia.
Qed.

(** C20: Tokens. For claims whose strings are valid UTF-8 and whose dates are whole seconds, a token that GenerateToken mints with the
    secret that SetJWTSecret stored is accepted at every time before it expires and not before its NotBefore: a request that
    bears it, in whatever case the scheme is written, and that has a tenant and the permission, runs the protected route with the user, tenant, email and roles that were
    signed, and gets 401 at every other time. A lifetime of up to 153722867 minutes ends at the whole second at or before now plus the lifetime; a longer one, up to
    twice that, overflows, and the token has expired when it is minted.
    A blank secret is refused and leaves none set: then no token is minted, the claims stay as they were, and every request is answered 401. *)
Theorem token_round_trip `{JWT} `{Gin} text secret claims mins now claims' tok c q provider perms perm name :
  SetJWTSecret text = (secret, true) → GenerateToken secret claims mins now = (claims', inl tok) → claimsOk claims' →
  untouched c → bears c tok → tenantFor c (own claims) ≠ "" →
  provider (UserID (own claims)) (TenantID (own claims)) = Some perms → perm ∈ perms →
  secret = text ∧
  (∃ e, ExpiresAt (registered claims') = Some e ∧
     (0 <= mins <= 153722867 → now + mins * Minute - Second < e <= now + mins * Minute) ∧
     (153722867 < mins <= 307445734 → e < now ∧ ∀ t, now <= t → validAt t claims' = false)) ∧
  (∀ t, let c' := serveChain (guarded (parseAt t) secret q provider perm name) c in
     if validAt t claims' then c_handled c' = [name] ∧ c_claims c' = Some (own claims) else refused c' 401) ∧
  (∀ blank t, TrimSpace blank = "" → SetJWTSecret blank = ("", false) ∧
     GenerateToken "" claims mins now = (claims, inr (ErrNew "jwt secret is uninitialized")) ∧
     refused (serveChain (guarded (parseAt t) "" q provider perm name) c) 401).
Proof.
  intros Hset Hgen Hok Hc Hb Hten Hp Hin. pose proof (generated _ _ _ _ _ _ Hgen) as (Hs & Ec & _ & Ht).
  split; [|split; [|split]].
  - unfold SetJWTSecret in Hset. case_bool_decide; [done|]. by injection Hset.
  - rewrite Ec. cbn [registered stamp ExpiresAt]. eexists. split; [done|]. unfold time_Add.
    pose proof (numericDate_bounds (now + mins *! Minute)). split; [intros Hm; by rewrite (lifetime_range _ Hm) in *|].
    intros Hm%lifetime_wraps. split; [lia|]. intros t Hlater. unfold validAt. cbn [registered stamp ExpiresAt]. unfold time_Add.
    by rewrite (proj2 (Z.ltb_ge _ _)) by lia.
  - intros t. cbv zeta. pose proof (parse_generated _ _ _ _ _ _ t Hgen Hok) as Hparse.
    destruct (validAt t claims').
    + destruct (guarded_cases (parseAt t) secret q provider perm name c Hc) as [(cl & (_ & _ & Ep & _) & Hh & Hcl & _)|[Hno _]].
      * rewrite (bears_extract c tok), Hparse in Ep by done. by simplify_eq.
      * exfalso. apply (Hno (own claims)). unfold admitted. rewrite (bears_extract c tok) by done.
        split_and!; [done|done|exact Hparse|done|]. exists perms. auto.
    + destruct Hc as (Ha & Hh & Hst & _). eapply refuse; [|done..].
      unfold AuthMiddleware. cbv zeta. rewrite (bears_extract c tok) by done. rewrite !bool_decide_false by done. by rewrite Hparse.
  - intros blank t Hblank. unfold SetJWTSecret. rewrite bool_decide_true by done. split_and!; [done|done|].
    destruct Hc as (Ha & Hh & Hst & _). eapply refuse; [|done..]. unfold AuthMiddleware. by rewrite bool_decide_true.
Qed.

(** ** A library that keeps the documented laws *)

#[local] Instance Claims_dec : EqDecision Claims. Proof. solve_decision. Defined.
#[local] Instance Registered_dec : EqDecision RegisteredClaims. Proof. solve_decision. Defined.
#[local] Instance Token_dec : EqDecision TokenClaims. Proof. solve_decision. Defined.
#[local] Instance Token_countable : Countable TokenClaims.
Proof.
  apply (inj_countable'
    (λ c, (UserID (own c), TenantID (own c), Email (own c), Roles (own c), Issuer (registered c), Subject (registered c), Audience (registered c),
           ExpiresAt (registered c), NotBefore (registered c), IssuedAt (registered c), ID (registered c)))
    (λ '(u, t, e, rs, i, s, au, ex, nb, ia, d), mkToken (mkClaims u t e rs) (mkRegistered i s au ex nb ia d))).
  by intros [[] []].
Defined.

Fixpoint bitsOf (p : positive) : string :=
  match p with xH => "x" | xO p => String "0"%char (bitsOf p) | xI p => String "1"%char (bitsOf p) end.
Fixpoint ofBits (s : string) : option positive :=
  match s with
  | String "x"%char EmptyString => Some xH
  | String "0"%char s => xO <$> ofBits s
  | String "1"%char s => xI <$> ofBits s
  | _ => None
  end.
Lemma ofBits_bitsOf p : ofBits (bitsOf p) = Some p.
Proof. induction p as [p IH|p IH|]; cbn; [by rewrite IH..|done]. Qed.

(** A token is the claims and the secret in the clear. *)
Program Definition clearJWT : JWT := {|
  SignedString c secret := inl (bitsOf (countable.encode (c, secret)));
  ParseWithClaims now tok secret :=
    '(c, k) ← ofBits tok ≫= countable.decode; if bool_decide (k = secret) && validAt now c then Some c else None;
|}.
Next Obligation.
  intros c secret tok now _ [= <-]. rewrite ofBits_bitsOf. cbn. rewrite countable.decode_encode. cbn.
  by rewrite bool_decide_true.
Qed.
Next Obligation. intros c secret [= E]. by destruct (countable.encode (c, secret)). Qed.

Lemma token_round_trip_witness :
  let claims := mkToken alice (mkRegistered "iss" "" ["api"] None None None "") in
  let now := unixEpoch + 5 * Second + 7 in
  let res := @GenerateToken clearJWT "s3cret" claims 15 now in
  let tok := match res.2 with inl t => t | inr _ => "" end in
  let c := tokenRequest ("bEARER" +:+ " " +:+ tok) in
  let at_ t := @serveChain chainGin (guarded (@parseAt clearJWT t) "s3cret" false (λ _ _, Some ["orders:read"]) "orders:read" "list") c in
  ExpiresAt (registered res.1) = Some (unixEpoch + 905 * Second) ∧
  c_handled (at_ (now + 899 * Second)) = ["list"] ∧ refused (at_ (now + 900 * Second)) 401.
Proof.
  intros claims now res tok c at_.
  destruct (@token_round_trip clearJWT chainGin "s3cret" "s3cret" claims 15 now res.1 tok c false (λ _ _, Some ["orders:read"])
    ["orders:read"] "orders:read" "list") as (_ & _ & Hat & _).
  - reflexivity.
  - reflexivity.
  - split; [repeat constructor|]. split; [|split; [exact I|]]; [exists 905|exists 5]; (split; [vm_compute; reflexivity|split; discriminate]).
  - by split_and!.
  - by exists "bEARER".
  - discriminate.
  - reflexivity.
  - apply list_elem_of_here.
  - split; [vm_compute; reflexivity|]. split; [exact (proj1 (Hat (now + 899 * Second)))|exact (Hat (now + 900 * Second))].
Defined.
