(* ===== verification/DayBounds.v ===== *)
(** Days in a location and the parsing of times (timeutil/timeutil.go):
    [StartOfDay], [EndOfDay], [ParseTime]. *)
From S2P Require Import Prelude Text.
#[local] Open Scope Z_scope.

(** ** Locations *)

(** A zone of a location: its offset from UTC and the instants between which it
    is in force, in seconds. *)
Record zone := Zone { offset : Z; zstart : Z; zend : Z }.

(** A [*time.Location]: the zone in force at a Unix time; [None] is [nil]. *)
Definition Location := option (Z → zone).
Definition alpha : Z := minInt64.
Definition omega : Z := maxInt64.
Definition FixedZone (o : Z) : Location := Some (λ _, Zone o alpha omega).
Definition UTC : Z → zone := λ _, Zone 0 alpha omega.

Definition Unix (t : Time) : Z := (t - unixEpoch) / Second.
Definition secondsPerDay : Z := 86400.

(** [t.In(loc).Date()], by the number of the day since January 1, 1970. *)
Definition dayIn (t : Time) (lookup : Z → zone) : Z := (Unix t + offset (lookup (Unix t))) / secondsPerDay.

(** [time.Date(y, m, d, h, min, s, ns, loc)] for the day with the number [d]: the offset is looked up
    as if the date were in UTC, and once more when the zone found is not in force at the result. *)
Definition Date (d h min s ns : Z) (lookup : Z → zone) : Time :=
  let unix := d * secondsPerDay + h * 3600 + min * 60 + s in
  let z := lookup unix in
  let unix :=
    if offset z =? 0 then unix
    else
      let utc := unix - offset z in
      if (utc <? zstart z) || (zend z <=? utc) then unix - offset (lookup utc) else utc in
  unixEpoch + unix * Second + ns.

(** ** Operations *)

Definition locOr (loc : Location) : Z → zone := match loc with Some l => l | None => UTC end.

Definition StartOfDay (t : Time) (loc : Location) : Time :=
  let loc := locOr loc in Date (dayIn t loc) 0 0 0 0 loc.

Definition EndOfDay (t : Time) (loc : Location) : Time :=
  let loc := locOr loc in Date (dayIn t loc) 23 59 59 999999999 loc.

(** [NowIn]: the present time is the same in every location; the location goes
    with it. *)
Definition NowIn (now : Time) (loc : Location) : Time * (Z → zone) := (now, locOr loc).

(** [FormatIn] over package time's [Format]. *)
Definition RFC3339 : string := "2006-01-02T15:04:05Z07:00".
Definition FormatIn (Format : Time → (Z → zone) → string → string) (t : Time) (loc : Location) (layout : string) : string :=
  Format t (locOr loc) (if bool_decide (layout = "") then RFC3339 else layout).

(** The defaults: UTC and RFC 3339, the second of the layouts [ParseTime] tries. *)
Lemma FormatIn_defaults Format t :
  FormatIn Format t None "" = Format t UTC RFC3339 ∧ NowIn t None = (t, UTC).
Proof. done. Qed.

Definition CommonLayouts : list string :=
  ["2006-01-02T15:04:05.999999999Z07:00"; "2006-01-02T15:04:05Z07:00"; "2006-01-02 15:04:05"; "2006-01-02"; "15:04:05";
   "2006-01-02 15:04:05.999999999"; "2006-01-02 15:04:05"; "2006/01/02 15:04:05"; "2006/01/02"; "02-01-2006"; "02/01/2006";
   "Mon, 02 Jan 2006 15:04:05 -0700"; "Mon, 02 Jan 2006 15:04:05 MST"; "02 Jan 06 15:04 -0700"; "02 Jan 06 15:04 MST";
   "Mon Jan _2 15:04:05 2006"; "Mon Jan _2 15:04:05 MST 2006"; "Mon Jan 02 15:04:05 -0700 2006"].

(** [ErrInvalidTimeFormat], wrapped with the input. *)
Definition ErrInvalidTimeFormat : error := ErrNew "timeutil: invalid time format".

Section parse.
(** [time.Parse]. *)
Context (Parse : string → string → option Time).

Fixpoint tryLayouts (s : string) (layouts : list string) : option Time :=
  match layouts with
  | [] => None
  | layout :: ls => match Parse layout s with Some t => Some t | None => tryLayouts s ls end
  end.

Definition ParseTime (s : string) (layouts : list string) : Time + error :=
  if bool_decide (s = "") then inr (ErrWrap "timeutil: invalid time format: empty input" ErrInvalidTimeFormat)
  else
    let layouts := if bool_decide (layouts = []) then CommonLayouts else layouts in
    match tryLayouts s layouts with
    | Some t => inl t
    | None => inr (ErrWrap ("timeutil: invalid time format: " +:+ quoted s) ErrInvalidTimeFormat)
    end.

Lemma tryLayouts_spec s layouts t :
  tryLayouts s layouts = Some t ↔
  ∃ before layout after, layouts = before ++ layout :: after ∧ Parse layout s = Some t ∧ Forall (λ l, Parse l s = None) before.
Proof.
  induction layouts as [|l ls IH]; cbn.
  - split; [done|]. by intros ([] & ? & ? & ? & _).
  - destruct (Parse l s) as [t'|] eqn:E.
    + split.
      * intros [= ->]. exists [], l, ls. by split_and!.
      * intros ([|b bs] & l' & after & [= -> ->] & Hp & Hb); [congruence|].
        apply Forall_cons in Hb as [Hb _]. congruence.
    + rewrite IH. split.
      * intros (b & l' & a & -> & Hp & Hb). exists (l :: b), l', a. split_and!; [done|done|by constructor].
      * intros ([|b bs] & l' & after & [= -> ->] & Hp & Hb); [congruence|].
        apply Forall_cons in Hb as [_ Hb]. by exists bs, l', after.
Qed.
End parse.

(** ** Lemmas *)

Lemma Unix_split t : t = unixEpoch + Unix t * Second + (t - unixEpoch) mod Second ∧ 0 <= (t - unixEpoch) mod Second < Second.
Proof.
  unfold Unix. pose proof (Z.div_mod (t - unixEpoch) Second). pose proof (Z.mod_pos_bound (t - unixEpoch) Second).
  unfold Second in *. lia.
Qed.

Lemma Unix_at s ns : 0 <= ns < Second → Unix (unixEpoch + s * Second + ns) = s.
Proof.
  intros Hns. unfold Unix. replace (unixEpoch + s * Second + ns - unixEpoch) with (ns + s * Second) by lia.
  rewrite Z.div_add by (unfold Second; lia). rewrite (Z.div_small ns) by done. lia.
Qed.

(** [Date] is exact when the offset at the guess and at the result are the same. *)
Lemma Date_exact d h min s ns lookup o :
  let local := d * secondsPerDay + h * 3600 + min * 60 + s in
  offset (lookup local) = o → offset (lookup (local - o)) = o →
  Date d h min s ns lookup = unixEpoch + (local - o) * Second + ns.
Proof.
  cbv zeta. intros H1 H2. unfold Date. rewrite H1. destruct (o =? 0) eqn:E; [f_equal; f_equal; f_equal; lia|].
  destruct (_ || _); [by rewrite H2|done].
Qed.

Lemma day_of_second x : 0 <= x - x / secondsPerDay * secondsPerDay < secondsPerDay.
Proof. pose proof (Z.div_mod x secondsPerDay). pose proof (Z.mod_pos_bound x secondsPerDay). unfold secondsPerDay in *. lia. Qed.

Lemma day_unique d k : 0 <= k < secondsPerDay → (d * secondsPerDay + k) / secondsPerDay = d.
Proof. intros Hk. rewrite Z.div_add_l by (unfold secondsPerDay; lia). rewrite (Z.div_small k) by done. lia. Qed.

(** No change of the offset from the day's first to its last second, nor where the
    offset is looked up. *)
Definition steady (t : Time) (lookup : Z → zone) : Prop :=
  let o := offset (lookup (Unix t)) in
  let d := dayIn t lookup in
  ∀ x, d * secondsPerDay - Z.abs o <= x <= (d + 1) * secondsPerDay + Z.abs o → offset (lookup x) = o.

(** The first nanosecond of the day of [t], with the offset in force at [t]. *)
Definition midnight (t : Time) (lookup : Z → zone) : Time :=
  unixEpoch + (dayIn t lookup * secondsPerDay - offset (lookup (Unix t))) * Second.

Lemma bounds_steady t loc : steady t (locOr loc) →
  StartOfDay t loc = midnight t (locOr loc) ∧ EndOfDay t loc = midnight t (locOr loc) + secondsPerDay * Second - 1.
Proof.
  intros Hs. unfold StartOfDay, EndOfDay, midnight. cbv zeta. set (l := locOr loc) in *.
  set (d := dayIn t l) in *. set (o := offset (l (Unix t))) in *. unfold steady in Hs. cbv zeta in Hs. fold d o in Hs.
  unfold secondsPerDay, Second in *.
  split; rewrite (Date_exact _ _ _ _ _ _ o); unfold secondsPerDay, Second in *; try (apply Hs; lia); lia.
Qed.

(** The day is constant between its bounds. *)
Lemma day_constant t u lookup : steady t lookup →
  midnight t lookup <= u < midnight t lookup + secondsPerDay * Second →
  dayIn u lookup = dayIn t lookup ∧ offset (lookup (Unix u)) = offset (lookup (Unix t)).
Proof.
  intros Hs Hu. unfold midnight in Hu. set (d := dayIn t lookup) in *. set (o := offset (lookup (Unix t))) in *.
  destruct (Unix_split u) as [Eu Hr]. assert (d * secondsPerDay - o <= Unix u < (d + 1) * secondsPerDay - o) as Hb.
  { unfold secondsPerDay, Second in *. lia. }
  assert (offset (lookup (Unix u)) = o) as Eo. { apply Hs. fold d o. unfold secondsPerDay in *. lia. }
  split; [|done]. unfold dayIn. rewrite Eo. replace (Unix u + o) with (d * secondsPerDay + (Unix u + o - d * secondsPerDay)) by lia.
  apply day_unique. unfold secondsPerDay in *. lia.
Qed.

Lemma midnight_before t lookup : midnight t lookup <= t < midnight t lookup + secondsPerDay * Second.
Proof.
  destruct (Unix_split t) as [Et Hr]. unfold midnight, dayIn.
  pose proof (day_of_second (Unix t + offset (lookup (Unix t)))) as Hd. unfold secondsPerDay, Second in *. lia.
Qed.

Lemma steady_same t u lookup : steady t lookup → dayIn u lookup = dayIn t lookup →
  offset (lookup (Unix u)) = offset (lookup (Unix t)) → steady u lookup.
Proof. unfold steady. cbv zeta. by intros Hs -> ->. Qed.

Lemma fixed_steady t o : steady t (locOr (FixedZone o)).
Proof. unfold steady. by intros. Qed.

(** A location whose clocks go forward by an hour from the offset [o] at the midnight with which day [d]
    begins: from UTC-3 in several years in São Paulo, from UTC+2 in Cairo. *)
Definition midnightOf (o d : Z) : Z := d * secondsPerDay - o.
Definition springAtMidnight (o d : Z) : Location :=
  Some (λ x, if x <? midnightOf o d then Zone o alpha (midnightOf o d) else Zone (o + 3600) (midnightOf o d) omega).

Lemma spring_before o d x : x < midnightOf o d → locOr (springAtMidnight o d) x = Zone o alpha (midnightOf o d).
Proof. intros Hx. cbn. by rewrite (proj2 (Z.ltb_lt _ _) Hx). Qed.
Lemma spring_after o d x : midnightOf o d <= x → locOr (springAtMidnight o d) x = Zone (o + 3600) (midnightOf o d) omega.
Proof. intros Hx. cbn. by rewrite (proj2 (Z.ltb_ge _ _) Hx). Qed.

(** [time.Date] for the midnight that the clocks skip: west of Greenwich it is an hour before the change, elsewhere the change. *)
Lemma Date_spring o d :
  Date d 0 0 0 0 (locOr (springAtMidnight o d)) =
  unixEpoch + (if o <? 0 then midnightOf o d - 3600 else midnightOf o d) * Second.
Proof.
  unfold Date. replace (d * secondsPerDay + 0 * 3600 + 0 * 60 + 0) with (midnightOf o d + o) by (unfold midnightOf; lia).
  rewrite Z.add_0_r. f_equal. f_equal. destruct (o <? 0) eqn:Eo; bool_to_prop.
  - rewrite spring_before by lia. cbn [offset zstart zend]. rewrite (proj2 (Z.eqb_neq o 0)) by lia.
    replace (midnightOf o d + o - o) with (midnightOf o d) by lia. rewrite Z.leb_refl, orb_true_r.
    rewrite spring_after by lia. cbn. lia.
  - rewrite spring_after by lia. cbn [offset zstart zend]. rewrite (proj2 (Z.eqb_neq (o + 3600) 0)) by lia.
    rewrite (proj2 (Z.ltb_lt _ _)) by lia. cbn [orb]. rewrite spring_before by lia. cbn. lia.
Qed.

(** The midnight before it. *)
Lemma Date_eve o d : o < 0 →
  Date (d - 1) 0 0 0 0 (locOr (springAtMidnight o d)) = unixEpoch + (midnightOf o d - secondsPerDay) * Second.
Proof.
  intros Ho. rewrite (Date_exact _ _ _ _ _ _ o).
  - unfold midnightOf. lia.
  - rewrite spring_before; [done|]. unfold midnightOf, secondsPerDay. lia.
  - rewrite spring_before; [done|]. unfold midnightOf, secondsPerDay. lia.
Qed.

Lemma dayIn_at s lookup : dayIn (unixEpoch + s * Second) lookup = (s + offset (lookup s)) / secondsPerDay.
Proof. unfold dayIn. replace (unixEpoch + s * Second) with (unixEpoch + s * Second + 0) by lia. rewrite Unix_at; [done|]. unfold Second. lia. Qed.

Lemma spring_start o d t : dayIn t (locOr (springAtMidnight o d)) = d →
  let loc := springAtMidnight o d in
  let change := unixEpoch + midnightOf o d * Second in
  if o <? 0 then
    StartOfDay t loc = change - 60 * Minute ∧ dayIn (StartOfDay t loc) (locOr loc) = d - 1 ∧
    StartOfDay (StartOfDay t loc) loc = StartOfDay t loc - 23 * 60 * Minute
  else StartOfDay t loc = change ∧ dayIn (StartOfDay t loc) (locOr loc) = d ∧ StartOfDay (StartOfDay t loc) loc = StartOfDay t loc.
Proof.
  intros Hd loc change. assert (StartOfDay t loc = Date d 0 0 0 0 (locOr loc)) as -> by (unfold StartOfDay; cbv zeta; unfold loc; by rewrite Hd).
  unfold loc. rewrite Date_spring. destruct (o <? 0) eqn:Eo; bool_to_prop.
  - assert (dayIn (unixEpoch + (midnightOf o d - 3600) * Second) (locOr (springAtMidnight o d)) = d - 1) as Hd1.
    { rewrite dayIn_at, spring_before by lia. cbn [offset].
      replace (midnightOf o d - 3600 + o) with ((d - 1) * secondsPerDay + 82800) by (unfold midnightOf, secondsPerDay; lia).
      apply day_unique. unfold secondsPerDay. lia. }
    split; [unfold change, Minute, Second; lia|]. split; [done|]. unfold StartOfDay. cbv zeta.
    rewrite Hd1, Date_eve by done. unfold Minute, secondsPerDay, Second. lia.
  - assert (dayIn (unixEpoch + midnightOf o d * Second) (locOr (springAtMidnight o d)) = d) as Hd1.
    { rewrite dayIn_at, spring_after by lia. cbn [offset].
      replace (midnightOf o d + (o + 3600)) with (d * secondsPerDay + 3600) by (unfold midnightOf; lia).
      apply day_unique. unfold secondsPerDay. lia. }
    split; [done|]. split; [done|]. unfold StartOfDay. cbv zeta. rewrite Hd1, Date_spring.
    by rewrite (proj2 (Z.ltb_ge _ _) Eo).
Qed.

(** C37: Days in a location. Where the offset from UTC does not change around the day, in UTC and in a fixed zone always,
    StartOfDay is at most the time and EndOfDay at least, they are 24 hours less a
    nanosecond apart and on the day of the time, and they are the same for every time between them, so both are idempotent. On a day whose
    midnight the clocks skip, going forward by an hour, StartOfDay depends on the offset before the change: where it is not negative, StartOfDay
    is 01:00, the first instant of the day, and idempotent; west of Greenwich it is 23:00 of the day before, and StartOfDay of that is the midnight with
    which the day before begins. ParseTime is the first of the layouts
    that parses the text, in their order; its errors all wrap ErrInvalidTimeFormat. *)
Theorem day_bounds :
  (∀ t loc, steady t (locOr loc) →
     StartOfDay t loc <= t <= EndOfDay t loc ∧ EndOfDay t loc - StartOfDay t loc = 24 * 60 * Minute - 1 ∧
     ∀ u, StartOfDay t loc <= u <= EndOfDay t loc →
       dayIn u (locOr loc) = dayIn t (locOr loc) ∧ StartOfDay u loc = StartOfDay t loc ∧ EndOfDay u loc = EndOfDay t loc) ∧
  (∀ t o, steady t (locOr (FixedZone o)) ∧ steady t (locOr None)) ∧
  (∀ o d t, dayIn t (locOr (springAtMidnight o d)) = d →
     let loc := springAtMidnight o d in
     let change := unixEpoch + midnightOf o d * Second in
     if o <? 0 then
       StartOfDay t loc = change - 60 * Minute ∧ dayIn (StartOfDay t loc) (locOr loc) = d - 1 ∧
       StartOfDay (StartOfDay t loc) loc = StartOfDay t loc - 23 * 60 * Minute
     else StartOfDay t loc = change ∧ dayIn (StartOfDay t loc) (locOr loc) = d ∧ StartOfDay (StartOfDay t loc) loc = StartOfDay t loc) ∧
  (∀ Parse s layouts,
     let ls := if decide (layouts = []) then CommonLayouts else layouts in
     match ParseTime Parse s layouts with
     | inl t => s ≠ "" ∧ ∃ before layout after, ls = before ++ layout :: after ∧ Parse layout s = Some t ∧ Forall (λ l, Parse l s = None) before
     | inr e => errors_Is e ErrInvalidTimeFormat = true ∧ (s = "" ∨ Forall (λ l, Parse l s = None) ls)
     end).
Proof.
  split; [|split; [|split]].
  - intros t loc Hs. destruct (bounds_steady t loc Hs) as [-> ->]. pose proof (midnight_before t (locOr loc)).
    split; [lia|]. split; [unfold Minute, secondsPerDay, Second; lia|]. intros u Hu.
    destruct (day_constant t u (locOr loc) Hs) as [Ed Eo]; [lia|]. split; [exact Ed|].
    destruct (bounds_steady u loc) as [-> ->]; [by eapply steady_same|]. unfold midnight. by rewrite Ed, Eo.
  - intros t o. split; [apply fixed_steady|]. apply (fixed_steady t 0).
  - apply spring_start.
  - intros Parse s layouts. cbv zeta. unfold ParseTime. case_bool_decide as Hs; [split; [done|by left]|].
    replace (if bool_decide (layouts = []) then CommonLayouts else layouts) with (if decide (layouts = []) then CommonLayouts else layouts)
      by (by destruct (decide _); case_bool_decide).
    set (ls := if decide _ then _ else _). destruct (tryLayouts Parse s ls) as [t|] eqn:E.
    + apply tryLayouts_spec in E. done.
    + split; [done|]. right. clearbody ls. induction ls as [|l ls IH]; [done|]. cbn in E.
      destruct (Parse l s) eqn:Ep; [done|]. constructor; [done|]. by apply IH.
Qed.

Lemma day_bounds_witness :
  let t := unixEpoch + (20000 * secondsPerDay + 3600) * Second + 5 in
  let tokyo := FixedZone (9 * 3600) in
  StartOfDay t tokyo = unixEpoch + (20000 * secondsPerDay - 9 * 3600) * Second ∧
  StartOfDay t tokyo <= t <= EndOfDay t tokyo ∧ StartOfDay (EndOfDay t tokyo) tokyo = StartOfDay t tokyo ∧
  (let noon := unixEpoch + (17462 * secondsPerDay + 14 * 3600) * Second in let saoPaulo := springAtMidnight (-3 * 3600) 17462 in
   dayIn noon (locOr saoPaulo) = 17462 ∧ dayIn (StartOfDay noon saoPaulo) (locOr saoPaulo) = 17461).
Proof.
  intros t tokyo. destruct day_bounds as (H1 & H2 & H3 & _).
  destruct (H1 t tokyo (proj1 (H2 t (9 * 3600)))) as (Hb & Hd & Hc). split; [vm_compute; reflexivity|]. split; [exact Hb|]. split.
  - apply (Hc (EndOfDay t tokyo)). split; [|apply Z.le_refl]. vm_compute. discriminate.
  - intros noon saoPaulo. assert (dayIn noon (locOr saoPaulo) = 17462) as Hn by (vm_compute; reflexivity).
    split; [exact Hn|]. pose proof (H3 (-3 * 3600) 17462 noon Hn) as H. cbv zeta in H.
    change (-3 * 3600 <? 0) with true in H. destruct H as (_ & H & _). exact H.
Defined.
