(* ===== verification/Calendar.v ===== *)
(** Business days (timeutil/timeutil.go): the day number of a civil date, and
    counting and adding business days in closed form, against the definitions
    by stepping through the days. *)
From S2P Require Import Prelude Text DayBounds.

(** [daysFromCivil], for the month number [m]. *)
Definition daysFromCivil (y m d : Z) : Z :=
  let yInt := if m <=? 2 then y - 1 else y in
  let era := Z.quot yInt 400 in
  let era := if (yInt <? 0) && negb (Z.rem yInt 400 =? 0) then era - 1 else era in
  let yoe := yInt - era * 400 in
  let doy := if 2 <? m then m - 3 else m + 9 in
  let doy := Z.quot (153 * doy + 2) 5 + d - 1 in
  let doe := yoe * 365 + Z.quot yoe 4 - Z.quot yoe 100 + doy in
  era * 146097 + doe - 719468.

(** [Weekday] of a day number: 0 is Sunday; January 1, 1970 was a Thursday. *)
Definition Weekday (day : Z) : Z := (day + 4) mod 7.
Definition Sunday : Z := 0.
Definition Saturday : Z := 6.
Definition isBusinessDay (day : Z) : bool :=
  negb (Weekday day =? Saturday) && negb (Weekday day =? Sunday).

(** A time: its instant, and its civil date in its location. *)
Record time := mkTime { instant : Time; year : Z; month : Z; dayOfMonth : Z }.

(** ** Adding *)

(** [t.Clock()], in seconds, and [t.Nanosecond()]. *)
Definition Clock (t : Time) (lookup : Z → zone) : Z := (Unix t + offset (lookup (Unix t))) mod secondsPerDay.
Definition Nanosecond (t : Time) : Z := (t - unixEpoch) mod Second.

(** [time.Date] for a day, a clock time in seconds and a nanosecond. *)
Definition dateAt (d clock ns : Z) (lookup : Z → zone) : Time :=
  Date d (clock / 3600) (clock mod 3600 / 60) (clock mod 60) ns lookup.

(** [t.AddDate(0, 0, days)] for a time in a location. *)
Definition AddDate (t : Time) (days : Z) (lookup : Z → zone) : Time :=
  dateAt (dayIn t lookup + days) (Clock t lookup) (Nanosecond t) lookup.

Section adding.
Context (lookup : Z → zone).

Definition weekdayOf (t : Time) : Z := Weekday (dayIn t lookup).

(** The loops that move a day at a time until [rem] business days are done; [dir] is 1 or -1.
    [None]: not in so many rounds. *)
Fixpoint skipLoop (fuel : nat) (dir : Z) (t : Time) (rem : Z) : option Time :=
  if 0 <? rem then
    match fuel with
    | O => None
    | S fuel' =>
        let t := AddDate t dir lookup in
        skipLoop fuel' dir t
          (if negb (weekdayOf t =? Saturday) && negb (weekdayOf t =? Sunday) then rem - 1 else rem)
    end
  else Some t.
Definition rounds (rem : Z) : nat := 3 * Z.to_nat rem + 7.

Definition addPositiveBusinessDays (t : Time) (n : Z) : option Time :=
  let '(t, n) := if weekdayOf t =? Saturday then (AddDate t 2 lookup, n - 1)
                 else if weekdayOf t =? Sunday then (AddDate t 1 lookup, n - 1) else (t, n) in
  if 0 <? n then
    let weeks := Z.quot n 5 in
    let rem := Z.rem n 5 in
    let t := if 0 <? weeks then AddDate t (weeks * 7) lookup else t in
    skipLoop (rounds rem) 1 t rem
  else Some t.

Definition subtractBusinessDays (t : Time) (n : Z) : option Time :=
  let '(t, n) := if weekdayOf t =? Sunday then (AddDate t (-2) lookup, n + 1)
                 else if weekdayOf t =? Saturday then (AddDate t (-1) lookup, n + 1) else (t, n) in
  if n <? 0 then
    let pos := - n in
    let weeks := Z.quot pos 5 in
    let rem := Z.rem pos 5 in
    let t := if 0 <? weeks then AddDate t (- weeks * 7) lookup else t in
    skipLoop (rounds rem) (-1) t rem
  else Some t.

Definition maxDays : Z := 1000000.

Definition AddBusinessDays (t : Time) (n : Z) : option Time :=
  if n =? 0 then Some t
  else
    let n := if maxDays <? n then maxDays else if n <? - maxDays then - maxDays else n in
    if 0 <? n then addPositiveBusinessDays t n else subtractBusinessDays t n.
End adding.

(** ** Counting business days *)

(** The loop of [BusinessDaysBetween] over the last incomplete week. *)
Fixpoint countLoop (rem : nat) (cur bDays : Z) : Z :=
  match rem with
  | O => bDays
  | S rem' => countLoop rem' (cur + 1) (if isBusinessDay cur then bDays + 1 else bDays)
  end.

(** The part of [BusinessDaysBetween] after the comparison of the instants. *)
Definition countBetween (day1 day2 : Z) : Z :=
  if day1 =? day2 then 0
  else
    let totalDays := day2 - day1 in
    countLoop (Z.to_nat (Z.rem totalDays 7)) day1 (Z.quot totalDays 7 * 5).

Definition dayNumber (t : time) : Z := daysFromCivil (year t) (month t) (dayOfMonth t).

Definition BusinessDaysBetween (start_ end_ : time) : Z :=
  if time_Equal (instant start_) (instant end_) then 0
  else if time_Before (instant end_) (instant start_) then
    - countBetween (dayNumber end_) (dayNumber start_)
  else countBetween (dayNumber start_) (dayNumber end_).
Definition BusinessDays (start_ end_ : time) : Z := BusinessDaysBetween start_ end_.

(** ** The civil calendar *)

Definition leap (y : Z) : bool := (y mod 4 =? 0) && (negb (y mod 100 =? 0) || (y mod 400 =? 0)).

Definition monthLength (y m : Z) : Z :=
  if m =? 2 then if leap y then 29 else 28
  else if (m =? 4) || (m =? 6) || (m =? 9) || (m =? 11) then 30 else 31.

Definition validDate (y m d : Z) : Prop := 1 <= m <= 12 ∧ 1 <= d <= monthLength y m.

(** The next day of the calendar. *)
Definition nextDate (y m d : Z) : Z * Z * Z :=
  if d <? monthLength y m then (y, m, d + 1)
  else if m <? 12 then (y, m + 1, 1) else (y + 1, 1, 1).

(** The era and the year of the era are those of floor division. *)
Lemma era_floor yInt :
  (if (yInt <? 0) && negb (Z.rem yInt 400 =? 0) then Z.quot yInt 400 - 1 else Z.quot yInt 400) = yInt / 400.
Proof.
  destruct (yInt <? 0) eqn:E; bool_to_prop; simpl.
  - pose proof (Z.quot_rem yInt 400 ltac:(lia)) as Hqr.
    pose proof (Z.rem_bound_abs yInt 400 ltac:(lia)) as Hab.
    pose proof (Z.rem_nonpos yInt 400 ltac:(lia) ltac:(lia)) as Hnp.
    destruct (Z.rem yInt 400 =? 0) eqn:Er; bool_to_prop; simpl.
    + apply (Z.div_unique yInt 400 _ 0); lia.
    + apply (Z.div_unique yInt 400 _ (Z.rem yInt 400 + 400)); lia.
  - by apply Z.quot_div_nonneg.
Qed.

Lemma daysFromCivil_floor y m d :
  1 <= m <= 12 →
  let yInt := if m <=? 2 then y - 1 else y in
  daysFromCivil y m d =
  365 * yInt + yInt / 4 - yInt / 100 + yInt / 400 +
  (153 * (if 2 <? m then m - 3 else m + 9) + 2) / 5 + d - 719469.
Proof.
  intros Hm. cbv zeta. unfold daysFromCivil. rewrite era_floor.
  set (yInt := if m <=? 2 then y - 1 else y). clearbody yInt.
  set (mp := if 2 <? m then m - 3 else m + 9).
  assert (0 <= mp) by (unfold mp; destruct (2 <? m) eqn:E; bool_to_prop; lia). clearbody mp.
  rewrite (Z.quot_div_nonneg (153 * mp + 2)) by lia.
  rewrite !Z.quot_div_nonneg by (pose proof (Z.mod_pos_bound yInt 400); pose proof (Z.div_mod yInt 400); lia).
  pose proof (Z.div_mod yInt 400 ltac:(lia)) as Hdm.
  pose proof (Z.mod_pos_bound yInt 400 ltac:(lia)) as Hmb.
  replace (yInt - yInt / 400 * 400) with (yInt mod 400) by lia.
  set (e := yInt / 400) in *. set (r := yInt mod 400) in *. clearbody e r. subst yInt.
  replace ((400 * e + r) / 4) with (100 * e + r / 4)
    by (replace (400 * e + r) with (r + (100 * e) * 4) by lia; rewrite Z.div_add by lia; lia).
  replace ((400 * e + r) / 100) with (4 * e + r / 100)
    by (replace (400 * e + r) with (r + (4 * e) * 100) by lia; rewrite Z.div_add by lia; lia).
  lia.
Qed.

(** Floor division counts multiples. *)
Lemma div_step y k : 0 < k → y / k = (y - 1) / k + (if y mod k =? 0 then 1 else 0).
Proof.
  intros Hk. pose proof (Z.div_mod y k ltac:(lia)) as Hdm. pose proof (Z.mod_pos_bound y k Hk).
  destruct (y mod k =? 0) eqn:E; bool_to_prop.
  - assert (y / k - 1 = (y - 1) / k); [|lia]. apply (Z.div_unique _ _ _ (k - 1)); lia.
  - rewrite Z.add_0_r. apply (Z.div_unique _ _ _ (y mod k - 1)); lia.
Qed.

(** Computes the closed day-of-year terms. *)
Ltac month_days :=
  repeat match goal with
  | |- context [(153 * ?a + 2) / 5] =>
      let v := eval vm_compute in ((153 * a + 2) / 5) in change ((153 * a + 2) / 5) with v
  end.

(** [daysFromCivil] is the day number of the Gregorian calendar for every
    year, also before year one: January 1, 1970 is day zero, and the next day
    of the calendar has the next number. *)
Lemma civil_next y m d :
  validDate y m d →
  daysFromCivil 1970 1 1 = 0 ∧
  (let '(y', m', d') := nextDate y m d in
   daysFromCivil y' m' d' = daysFromCivil y m d + 1 ∧ validDate y' m' d').
Proof.
  intros [Hm Hd]. split; [reflexivity|]. unfold nextDate.
  assert (∀ y m, 28 <= monthLength y m) as Hlen.
  { intros y0 m0. unfold monthLength. repeat case_match; lia. }
  destruct (d <? monthLength y m) eqn:El; bool_to_prop.
  { rewrite !daysFromCivil_floor by done. split; [lia|]. split; [done|]. lia. }
  assert (d = monthLength y m) as Hdl by lia.
  destruct (m <? 12) eqn:Em; bool_to_prop.
  - rewrite !daysFromCivil_floor by lia. specialize (Hlen y (m + 1)).
    split; [|split; [lia|lia]]. rewrite Hdl. unfold monthLength, leap.
    pose proof (div_step y 4 ltac:(lia)). pose proof (div_step y 100 ltac:(lia)).
    pose proof (div_step y 400 ltac:(lia)).
    assert (y mod 400 = 0 → y mod 100 = 0 ∧ y mod 4 = 0) as H400.
    { intros H400. apply Z.mod_divide in H400 as [k ->]; [|lia]. split; [|].
      - replace (k * 400) with (k * 4 * 100) by lia. apply Z.mod_mul. lia.
      - replace (k * 400) with (k * 100 * 4) by lia. apply Z.mod_mul. lia. }
    assert (y mod 100 = 0 → y mod 4 = 0) as H100.
    { intros H100. apply Z.mod_divide in H100 as [k ->]; [|lia].
      replace (k * 100) with (k * 25 * 4) by lia. apply Z.mod_mul. lia. }
    assert (m = 1 ∨ m = 2 ∨ m = 3 ∨ m = 4 ∨ m = 5 ∨ m = 6 ∨ m = 7 ∨ m = 8 ∨ m = 9 ∨ m = 10 ∨ m = 11) as Hcases by lia.
    destruct Hcases as [->|[->|[->|[->|[->|[->|[->|[->|[->|[->| ->]]]]]]]]]]; simpl; month_days; try lia.
    destruct (y mod 4 =? 0) eqn:E4, (y mod 100 =? 0) eqn:E100, (y mod 400 =? 0) eqn:E400; bool_to_prop;
      simpl; try lia; exfalso; intuition lia.
  - assert (m = 12) as -> by lia. rewrite !daysFromCivil_floor by lia. rewrite Hdl. simpl.
    specialize (Hlen (y + 1) 1). split; [|split; lia].
    replace (y + 1 - 1) with y by lia. unfold monthLength. simpl. month_days. lia.
Qed.

Lemma civil_days_witness :
  daysFromCivil 1970 1 1 = 0 ∧
  (let '(y', m', d') := nextDate 2024 2 28 in
   daysFromCivil y' m' d' = daysFromCivil 2024 2 28 + 1 ∧ validDate y' m' d').
Proof. apply civil_next. vm_compute. intuition discriminate. Defined.

(** ** Counting *)

(** The business days among the [n] days from [d] on, one by one. *)
Fixpoint businessIn (n : nat) (d : Z) : Z :=
  match n with
  | O => 0
  | S n' => (if isBusinessDay d then 1 else 0) + businessIn n' (d + 1)
  end.

Lemma weekday_add d k : Weekday (d + k) = (Weekday d + k) mod 7.
Proof. unfold Weekday. rewrite Z.add_mod_idemp_l by lia. f_equal. lia. Qed.

Lemma weekday_range d : 0 <= Weekday d < 7.
Proof. apply Z.mod_pos_bound. lia. Qed.

(** Case analysis on the weekday [w] of a day. *)
Lemma weekday_cases (P : Z → Prop) d :
  P 0 → P 1 → P 2 → P 3 → P 4 → P 5 → P 6 → P (Weekday d).
Proof.
  pose proof (weekday_range d) as Hr. generalize dependent (Weekday d). intros w Hw.
  assert (w = 0 ∨ w = 1 ∨ w = 2 ∨ w = 3 ∨ w = 4 ∨ w = 5 ∨ w = 6) as Hc by lia.
  by destruct Hc as [->|[->|[->|[->|[->|[->| ->]]]]]].
Qed.

Ltac weekdays d := pattern (Weekday d); apply weekday_cases.

Lemma businessIn_app n1 n2 d : businessIn (n1 + n2) d = businessIn n1 d + businessIn n2 (d + Z.of_nat n1).
Proof.
  revert d. induction n1 as [|n1 IH]; intros d; simpl; [by rewrite Z.add_0_r|].
  rewrite IH. replace (d + 1 + Z.of_nat n1) with (d + Z.of_nat (S n1)) by lia. simpl. lia.
Qed.

Lemma businessIn_week d : businessIn 7 d = 5.
Proof.
  cbn [businessIn]. replace (d + 1 + 1 + 1 + 1 + 1 + 1) with (d + 6) by lia.
  replace (d + 1 + 1 + 1 + 1 + 1) with (d + 5) by lia. replace (d + 1 + 1 + 1 + 1) with (d + 4) by lia.
  replace (d + 1 + 1 + 1) with (d + 3) by lia. replace (d + 1 + 1) with (d + 2) by lia.
  unfold isBusinessDay. rewrite !weekday_add. by weekdays d.
Qed.

Lemma businessIn_weeks w d : businessIn (w * 7) d = Z.of_nat w * 5.
Proof.
  revert d. induction w as [|w IH]; intros d; [done|].
  change (S w * 7)%nat with (7 + w * 7)%nat. rewrite businessIn_app, businessIn_week, IH. lia.
Qed.

Lemma countLoop_spec n d acc : countLoop n d acc = acc + businessIn n d.
Proof. revert d acc. induction n as [|n IH]; intros d acc; simpl; [lia|]. rewrite IH. case_match; lia. Qed.

(** Counting by weeks is counting the days: between two times whose dates
    do not go back, [BusinessDaysBetween] is the number of days from the first
    date on and before the second that are neither Saturday nor Sunday, and
    the negative of it in the other direction. *)
Lemma business_count t1 t2 :
  dayNumber t1 <= dayNumber t2 → instant t1 < instant t2 →
  BusinessDaysBetween t1 t2 = businessIn (Z.to_nat (dayNumber t2 - dayNumber t1)) (dayNumber t1) ∧
  BusinessDaysBetween t2 t1 = - BusinessDaysBetween t1 t2.
Proof.
  intros Hd Hi. unfold BusinessDaysBetween, time_Equal, time_Before.
  rewrite (proj2 (Z.eqb_neq (instant t1) (instant t2))), (proj2 (Z.eqb_neq (instant t2) (instant t1))) by lia.
  rewrite (proj2 (Z.ltb_ge (instant t2) (instant t1))), (proj2 (Z.ltb_lt (instant t1) (instant t2))) by lia.
  split; [|done]. unfold countBetween. destruct (_ =? _) eqn:E; bool_to_prop.
  { rewrite E, Z.sub_diag. done. }
  set (d1 := dayNumber t1) in *. set (n := dayNumber t2 - d1). assert (0 <= n) by lia.
  rewrite countLoop_spec, Z.rem_mod_nonneg, Z.quot_div_nonneg by lia.
  pose proof (Z.div_mod n 7 ltac:(lia)). pose proof (Z.mod_pos_bound n 7 ltac:(lia)).
  pose proof (Z.div_pos n 7 ltac:(lia) ltac:(lia)).
  replace (Z.to_nat n) with (Z.to_nat (n mod 7) + Z.to_nat (n / 7) * 7)%nat by lia.
  rewrite businessIn_app, businessIn_weeks. lia.
Qed.

Lemma business_days_count_witness :
  let t1 := mkTime 1 2024 2 26 in let t2 := mkTime 2 2024 3 9 in
  BusinessDaysBetween t1 t2 = businessIn (Z.to_nat (dayNumber t2 - dayNumber t1)) (dayNumber t1) ∧
  BusinessDaysBetween t2 t1 = - BusinessDaysBetween t1 t2.
Proof. apply business_count; [vm_compute; discriminate | reflexivity]. Defined.

(** ** Adding, by day numbers *)

(** Moving a day at a time until [rem] business days are done; [dir] is 1 or -1. A run of two
    weekend days is the longest, so three rounds per day are enough. *)
Fixpoint skipDays (fuel : nat) (dir : Z) (d rem : Z) : option Z :=
  if 0 <? rem then
    match fuel with
    | O => None
    | S fuel' =>
        let d' := d + dir in skipDays fuel' dir d' (if isBusinessDay d' then rem - 1 else rem)
    end
  else Some d.
Definition skip (dir d rem : Z) : Z := default d (skipDays (3 * Z.to_nat rem) dir d rem).

(** What [addPositiveBusinessDays] and [subtractBusinessDays] do to the number of the day
    as long as [AddDate] moves it by as many days as it is asked to. *)
Definition addDays (d n : Z) : Z :=
  let '(d, n) := if Weekday d =? Saturday then (d + 2, n - 1)
                 else if Weekday d =? Sunday then (d + 1, n - 1) else (d, n) in
  if 0 <? n then skip 1 (if 0 <? Z.quot n 5 then d + Z.quot n 5 * 7 else d) (Z.rem n 5) else d.

Definition subtractDays (d n : Z) : Z :=
  let '(d, n) := if Weekday d =? Sunday then (d - 2, n + 1)
                 else if Weekday d =? Saturday then (d - 1, n + 1) else (d, n) in
  if n <? 0 then skip (-1) (if 0 <? Z.quot (- n) 5 then d - Z.quot (- n) 5 * 7 else d) (Z.rem (- n) 5) else d.

(** The next business day in a direction. *)
Definition nextBusiness (dir d : Z) : Z :=
  if isBusinessDay (d + dir) then d + dir
  else if isBusinessDay (d + 2 * dir) then d + 2 * dir
  else d + 3 * dir.

Definition direction (dir : Z) : Prop := dir = 1 ∨ dir = -1.

Lemma third_day dir d :
  direction dir → isBusinessDay (d + dir) = false → isBusinessDay (d + 2 * dir) = false →
  isBusinessDay (d + 3 * dir) = true.
Proof.
  intros [->| ->]; unfold isBusinessDay; rewrite !weekday_add; by weekdays d.
Qed.

Lemma nextBusiness_business dir d : direction dir → isBusinessDay (nextBusiness dir d) = true.
Proof.
  intros Hdir. unfold nextBusiness. destruct (isBusinessDay (d + dir)) eqn:E1; [done|].
  destruct (isBusinessDay (d + 2 * dir)) eqn:E2; [done|]. by apply third_day.
Qed.

(** Five business days from a business day are a week. *)
Lemma nextBusiness_week dir d :
  direction dir → isBusinessDay d = true → Nat.iter 5 (nextBusiness dir) d = d + 7 * dir.
Proof.
  intros Hdir Hd. cbn [Nat.iter nat_rect].
  assert (∀ k, isBusinessDay (d + k) = negb ((Weekday d + k) mod 7 =? Saturday) && negb ((Weekday d + k) mod 7 =? Sunday)) as Hk.
  { intros k. unfold isBusinessDay. by rewrite weekday_add. }
  assert (∀ k, nextBusiness dir (d + k) =
    if isBusinessDay (d + (k + dir)) then d + (k + dir)
    else if isBusinessDay (d + (k + 2 * dir)) then d + (k + 2 * dir) else d + (k + 3 * dir)) as Hn.
  { intros k. unfold nextBusiness. by rewrite !Z.add_assoc. }
  replace (nextBusiness dir d) with (nextBusiness dir (d + 0)) by (by rewrite Z.add_0_r).
  unfold isBusinessDay in Hd. revert Hd Hk. destruct Hdir as [->| ->]; weekdays d; intros Hd Hk;
    try discriminate; repeat (rewrite Hn; rewrite ?Hk; simpl); lia.
Qed.

Lemma iter_business dir n d :
  direction dir → isBusinessDay d = true → isBusinessDay (Nat.iter n (nextBusiness dir) d) = true.
Proof. intros Hdir Hd. destruct n as [|n]; [done|]. by apply nextBusiness_business. Qed.

Lemma iter_weeks dir w r d :
  direction dir → isBusinessDay d = true →
  Nat.iter (r + w * 5) (nextBusiness dir) d = Nat.iter r (nextBusiness dir) (d + Z.of_nat w * 7 * dir).
Proof.
  intros Hdir. revert d. induction w as [|w IH]; intros d Hd.
  { replace (d + Z.of_nat 0 * 7 * dir) with d by lia. by rewrite Nat.add_0_r. }
  replace (r + S w * 5)%nat with ((r + w * 5) + 5)%nat by lia.
  rewrite Nat.iter_add, nextBusiness_week by done. rewrite IH.
  - f_equal. lia.
  - rewrite <-nextBusiness_week by done. by apply iter_business.
Qed.

(** Moving day by day: three rounds per business day are enough. *)
Lemma skipDays_spec rem fuel dir d :
  direction dir → (3 * rem <= fuel)%nat →
  skipDays fuel dir d (Z.of_nat rem) = Some (Nat.iter rem (nextBusiness dir) d).
Proof.
  intros Hdir. revert fuel d. induction rem as [|rem IH]; intros fuel d Hf; [by destruct fuel|].
  destruct fuel as [|[|[|fuel]]]; [lia..|].
  assert ((0 <? Z.of_nat (S rem)) = true) as Hpos by (apply Z.ltb_lt; lia).
  assert (Z.of_nat (S rem) - 1 = Z.of_nat rem) as Hpred by lia.
  rewrite Nat.iter_succ_r. unfold nextBusiness at 2.
  cbn [skipDays]. rewrite Hpos. destruct (isBusinessDay (d + dir)) eqn:E1.
  { rewrite Hpred. change (skipDays (S (S fuel)) dir (d + dir) (Z.of_nat rem) = Some (Nat.iter rem (nextBusiness dir) (d + dir))).
    apply IH. lia. }
  rewrite Hpos. replace (d + dir + dir) with (d + 2 * dir) by lia.
  destruct (isBusinessDay (d + 2 * dir)) eqn:E2.
  { rewrite Hpred. change (skipDays (S fuel) dir (d + 2 * dir) (Z.of_nat rem) = Some (Nat.iter rem (nextBusiness dir) (d + 2 * dir))).
    apply IH. lia. }
  rewrite Hpos. replace (d + 2 * dir + dir) with (d + 3 * dir) by lia.
  rewrite (third_day dir d Hdir E1 E2), Hpred. apply IH. lia.
Qed.

Lemma skip_spec dir d rem :
  direction dir → 0 <= rem → skip dir d rem = Nat.iter (Z.to_nat rem) (nextBusiness dir) d.
Proof.
  intros Hdir Hr. unfold skip. rewrite <-(Z2Nat.id rem Hr) at 2.
  by rewrite (skipDays_spec (Z.to_nat rem)) by (done || lia).
Qed.

(** From a business day, weeks first and then days. *)
Lemma weeks_then_days dir d n :
  direction dir → isBusinessDay d = true → 0 < n →
  skip dir (if 0 <? Z.quot n 5 then d + Z.quot n 5 * 7 * dir else d) (Z.rem n 5) =
  Nat.iter (Z.to_nat n) (nextBusiness dir) d.
Proof.
  intros Hdir Hd Hn. rewrite Z.quot_div_nonneg, Z.rem_mod_nonneg by lia.
  pose proof (Z.div_mod n 5 ltac:(lia)). pose proof (Z.mod_pos_bound n 5 ltac:(lia)).
  pose proof (Z.div_pos n 5 ltac:(lia) ltac:(lia)).
  rewrite skip_spec by (done || lia).
  replace (Z.to_nat n) with (Z.to_nat (n mod 5) + Z.to_nat (n / 5) * 5)%nat by lia.
  rewrite iter_weeks by done. f_equal. destruct (0 <? n / 5) eqn:E; bool_to_prop; [f_equal; lia|].
  assert (n / 5 = 0) as -> by lia. simpl. lia.
Qed.

Lemma business_weekday d : isBusinessDay d = true → (Weekday d =? Saturday) = false ∧ (Weekday d =? Sunday) = false.
Proof. unfold isBusinessDay. intros [H1 H2]%andb_true_iff. by rewrite negb_true_iff in H1, H2. Qed.

(** On a weekend the nearest business day is one step. *)
Lemma weekend_step d :
  (Weekday d = Saturday → nextBusiness 1 d = d + 2 ∧ nextBusiness (-1) d = d - 1) ∧
  (Weekday d = Sunday → nextBusiness 1 d = d + 1 ∧ nextBusiness (-1) d = d - 2).
Proof.
  unfold nextBusiness, isBusinessDay. rewrite !weekday_add. split; weekdays d; try discriminate;
    intros _; simpl; lia.
Qed.

Lemma addPositive_spec d n :
  0 < n → addDays d n = Nat.iter (Z.to_nat n) (nextBusiness 1) d.
Proof.
  intros Hn. destruct (weekend_step d) as [Hsat Hsun]. assert (direction 1) as Hdir by (by left).
  pose proof (nextBusiness_business 1 d Hdir) as Hnext.
  assert (∀ d0, isBusinessDay d0 = true → nextBusiness 1 d = d0 →
    (if 0 <? n - 1 then skip 1 (if 0 <? Z.quot (n - 1) 5 then d0 + Z.quot (n - 1) 5 * 7 else d0) (Z.rem (n - 1) 5) else d0)
    = Nat.iter (Z.to_nat n) (nextBusiness 1) d) as Hweekend.
  { intros d0 Hd0 E. replace (Z.to_nat n) with (S (Z.to_nat (n - 1))) by lia. rewrite Nat.iter_succ_r, E.
    destruct (0 <? n - 1) eqn:En; bool_to_prop; [|by replace (Z.to_nat (n - 1)) with 0%nat by lia].
    rewrite <-weeks_then_days by (done || lia). by rewrite Z.mul_1_r. }
  unfold addDays. destruct (Weekday d =? Saturday) eqn:E6; bool_to_prop.
  { destruct (Hsat E6) as [E _]. apply Hweekend; [by rewrite <-E|done]. }
  destruct (Weekday d =? Sunday) eqn:E0; bool_to_prop.
  { destruct (Hsun E0) as [E _]. apply Hweekend; [by rewrite <-E|done]. }
  rewrite (proj2 (Z.ltb_lt 0 n)) by done. rewrite <-weeks_then_days; [by rewrite Z.mul_1_r|done| |done].
  unfold isBusinessDay. by rewrite (proj2 (Z.eqb_neq _ _) E6), (proj2 (Z.eqb_neq _ _) E0).
Qed.

Lemma subtract_spec d n :
  n < 0 → subtractDays d n = Nat.iter (Z.to_nat (- n)) (nextBusiness (-1)) d.
Proof.
  intros Hn. destruct (weekend_step d) as [Hsat Hsun]. assert (direction (-1)) as Hdir by (by right).
  pose proof (nextBusiness_business (-1) d Hdir) as Hnext.
  assert (∀ d0 k, d0 - Z.quot k 5 * 7 = d0 + Z.quot k 5 * 7 * -1) as Hneg by (intros; lia).
  assert (∀ d0, isBusinessDay d0 = true → nextBusiness (-1) d = d0 →
    (if n + 1 <? 0 then skip (-1) (if 0 <? Z.quot (- (n + 1)) 5 then d0 - Z.quot (- (n + 1)) 5 * 7 else d0)
       (Z.rem (- (n + 1)) 5) else d0)
    = Nat.iter (Z.to_nat (- n)) (nextBusiness (-1)) d) as Hweekend.
  { intros d0 Hd0 E. replace (Z.to_nat (- n)) with (S (Z.to_nat (- (n + 1)))) by lia. rewrite Nat.iter_succ_r, E.
    destruct (n + 1 <? 0) eqn:En; bool_to_prop; [|by replace (Z.to_nat (- (n + 1))) with 0%nat by lia].
    rewrite Hneg. by apply weeks_then_days; [done|done|lia]. }
  unfold subtractDays. destruct (Weekday d =? Sunday) eqn:E0; bool_to_prop.
  { destruct (Hsun E0) as [_ E]. apply Hweekend; [by rewrite <-E|done]. }
  destruct (Weekday d =? Saturday) eqn:E6; bool_to_prop.
  { destruct (Hsat E6) as [_ E]. apply Hweekend; [by rewrite <-E|done]. }
  rewrite (proj2 (Z.ltb_lt n 0)) by done. rewrite Hneg. apply weeks_then_days; [done| |lia].
  unfold isBusinessDay. by rewrite (proj2 (Z.eqb_neq _ _) E6), (proj2 (Z.eqb_neq _ _) E0).
Qed.

(** ** From day numbers to times *)

(** A clock time that exists on a day, in that [time.Date] returns it. *)
Definition keeps (lookup : Z → zone) (d clock ns : Z) : Prop :=
  let t := dateAt d clock ns lookup in dayIn t lookup = d ∧ Clock t lookup = clock.

(** A time on a day, at a clock time. *)
Definition on (lookup : Z → zone) (d clock ns : Z) (t : Time) : Prop :=
  dayIn t lookup = d ∧ Clock t lookup = clock ∧ Nanosecond t = ns ∧ 0 <= ns < Second.

Lemma dateAt_nanos d clock ns lookup : 0 <= ns < Second → Nanosecond (dateAt d clock ns lookup) = ns.
Proof.
  intros Hns. unfold Nanosecond, dateAt, Date. cbv zeta.
  match goal with |- (unixEpoch + ?u * Second + ns - unixEpoch) mod _ = _ =>
    replace (unixEpoch + u * Second + ns - unixEpoch) with (ns + u * Second) by lia end.
  rewrite Z.mod_add by (unfold Second; lia). by apply Z.mod_small.
Qed.

Lemma on_self lookup t : on lookup (dayIn t lookup) (Clock t lookup) (Nanosecond t) t.
Proof. unfold on, Nanosecond. split_and!; try done; apply Z.mod_pos_bound; unfold Second; lia. Qed.

Lemma AddDate_on lookup d c ns t k : on lookup d c ns t → keeps lookup (d + k) c ns → on lookup (d + k) c ns (AddDate t k lookup).
Proof.
  intros (Hd & Hc & Hn & Hr) [Kd Kc]. unfold AddDate, on. rewrite Hd, Hc, Hn. split_and!; [done|done| |lia|lia].
  by apply dateAt_nanos.
Qed.

(** Where the offset is the same when it is looked up and at the result. *)
Lemma keeps_steady lookup d c ns : 0 <= c < secondsPerDay → 0 <= ns < Second →
  let local := d * secondsPerDay + c in
  offset (lookup (local - offset (lookup local))) = offset (lookup local) → keeps lookup d c ns.
Proof.
  intros Hc Hns local Ho. unfold keeps, dateAt. cbv zeta.
  assert (d * secondsPerDay + c / 3600 * 3600 + c mod 3600 / 60 * 60 + c mod 60 = local) as E.
  { unfold local. pose proof (Z.div_mod c 3600 ltac:(lia)). pose proof (Z.div_mod (c mod 3600) 60 ltac:(lia)).
    replace (c mod 60) with ((c mod 3600) mod 60); [lia|]. change 3600 with (60 * 60). rewrite Z.rem_mul_r by lia.
    rewrite Z.mul_comm, Z.mod_add, Z.mod_mod by lia. done. }
  rewrite (Date_exact _ _ _ _ _ _ (offset (lookup local))) by (by rewrite E). rewrite E.
  unfold dayIn, Clock. rewrite Unix_at by done. rewrite Ho. replace (local - _ + _) with local by lia.
  unfold local. split; [by apply day_unique|].
  rewrite Z.add_comm, Z.mod_add by (unfold secondsPerDay; lia). by apply Z.mod_small.
Qed.

Lemma skipDays_dir fuel dir d rem d' : direction dir → skipDays fuel dir d rem = Some d' → dir * d <= dir * d'.
Proof.
  intros Hdir. revert d rem. induction fuel as [|fuel IH]; intros d rem; cbn [skipDays];
    (destruct (0 <? rem); [|intros [= <-]; lia]); [done|]. intros E%IH. destruct Hdir as [->| ->]; lia.
Qed.

(** The loop over times follows the loop over day numbers, with as many rounds or more. *)
Lemma skipLoop_on lookup fuel fuel' dir d rem d' c ns t : direction dir → (fuel <= fuel')%nat →
  skipDays fuel dir d rem = Some d' → on lookup d c ns t →
  (∀ k, dir * d <= dir * k <= dir * d' → keeps lookup k c ns) →
  ∃ t', skipLoop lookup fuel' dir t rem = Some t' ∧ on lookup d' c ns t'.
Proof.
  intros Hdir. revert fuel' d rem t. induction fuel as [|fuel IH]; intros fuel' d rem t Hf; cbn [skipDays].
  { destruct (0 <? rem) eqn:E; [done|]. intros [= <-] Hon _. exists t. destruct fuel'; cbn; by rewrite E. }
  destruct fuel' as [|fuel']; [lia|]. cbn [skipLoop]. destruct (0 <? rem); [|intros [= <-] Hon _; by exists t].
  intros Es Hon Hk. pose proof (skipDays_dir _ _ _ _ _ Hdir Es) as Hm.
  assert (on lookup (d + dir) c ns (AddDate t dir lookup)) as Hon'.
  { apply AddDate_on; [done|]. apply Hk. destruct Hdir as [->| ->]; lia. }
  assert (weekdayOf lookup (AddDate t dir lookup) = Weekday (d + dir)) as Hw by (unfold weekdayOf; by rewrite (proj1 Hon')).
  cbv zeta. rewrite Hw. fold (isBusinessDay (d + dir)). apply (IH fuel' (d + dir)); [lia|done..|].
  intros k Hr. apply Hk. destruct Hdir as [->| ->]; lia.
Qed.

(** The clock time exists on every day from one to another. *)
Definition keepsFrom (lookup : Z → zone) (d d' c ns : Z) : Prop :=
  ∀ k, Z.min d d' <= k <= Z.max d d' → keeps lookup k c ns.

Lemma skip_dir dir d rem : direction dir → 0 <= rem → dir * d <= dir * skip dir d rem.
Proof.
  intros Hdir Hr. unfold skip. rewrite <- (Z2Nat.id rem Hr) at 2. rewrite (skipDays_spec (Z.to_nat rem)) by (done || lia).
  cbn. eapply (skipDays_dir (3 * Z.to_nat rem) _ _ (Z.of_nat (Z.to_nat rem))); [done|]. by rewrite (skipDays_spec (Z.to_nat rem)) by (done || lia).
Qed.

(** The weeks and the days after them. *)
Definition weeksThenDays (dir d n : Z) : Z :=
  skip dir (if 0 <? Z.quot n 5 then d + Z.quot n 5 * 7 * dir else d) (Z.rem n 5).

Lemma weeksThenDays_dir dir d n : direction dir → 0 < n →
  let d1 := if 0 <? Z.quot n 5 then d + Z.quot n 5 * 7 * dir else d in
  dir * d <= dir * d1 <= dir * weeksThenDays dir d n.
Proof.
  intros Hdir Hn d1. split; [|apply skip_dir; [done|apply Z.rem_nonneg; lia]].
  unfold d1. destruct (0 <? _) eqn:E; bool_to_prop; destruct Hdir as [->| ->]; lia.
Qed.

Lemma weeks_on lookup dir d n c ns t : direction dir → 0 < n → on lookup d c ns t →
  keepsFrom lookup d (weeksThenDays dir d n) c ns →
  ∃ t', skipLoop lookup (rounds (Z.rem n 5)) dir
          (if 0 <? Z.quot n 5 then AddDate t (Z.quot n 5 * 7 * dir) lookup else t) (Z.rem n 5) = Some t' ∧
        on lookup (weeksThenDays dir d n) c ns t'.
Proof.
  intros Hdir Hn Hon Hk. pose proof (weeksThenDays_dir dir d n Hdir Hn) as [Hm1 Hm]. cbv zeta in Hm1, Hm.
  set (d1 := if 0 <? Z.quot n 5 then _ else d) in *. assert (0 <= Z.rem n 5) as Hr by (apply Z.rem_nonneg; lia).
  assert (∀ k, dir * d <= dir * k <= dir * weeksThenDays dir d n → keeps lookup k c ns) as Hk'
    by (intros k ?; apply Hk; destruct Hdir as [->| ->]; lia).
  eapply (skipLoop_on lookup (3 * Z.to_nat (Z.rem n 5)) _ dir d1); [done|unfold rounds; lia| | |intros; apply Hk'; lia].
  - unfold weeksThenDays, skip. fold d1. rewrite <- (Z2Nat.id (Z.rem n 5) Hr) at 2 4.
    by rewrite (skipDays_spec (Z.to_nat (Z.rem n 5))) by (done || lia).
  - unfold d1 in *. destruct (0 <? Z.quot n 5); [|done]. by apply AddDate_on, Hk'.
Qed.

(** After the weekend, if the time is on one. *)
Lemma settled_on lookup dir d k n c ns t : direction dir → 0 <= dir * k → 0 <= n → on lookup d c ns t →
  let d' := if 0 <? n then weeksThenDays dir (d + k) n else d + k in
  keepsFrom lookup d d' c ns →
  let t1 := if k =? 0 then t else AddDate t k lookup in
  ∃ t', (if 0 <? n then skipLoop lookup (rounds (Z.rem n 5)) dir
           (if 0 <? Z.quot n 5 then AddDate t1 (Z.quot n 5 * 7 * dir) lookup else t1) (Z.rem n 5) else Some t1) = Some t' ∧
        on lookup d' c ns t'.
Proof.
  intros Hdir Hk0 Hn Hon d' Hk t1.
  assert (dir * d <= dir * (d + k) <= dir * d') as Hm.
  { unfold d'. destruct (0 <? n) eqn:E; bool_to_prop; [|lia]. pose proof (weeksThenDays_dir dir (d + k) n Hdir E) as [? ?]. lia. }
  assert (on lookup (d + k) c ns t1) as Hon1.
  { unfold t1. destruct (k =? 0) eqn:E; bool_to_prop; [by rewrite E, Z.add_0_r|]. apply AddDate_on; [done|]. apply Hk.
    destruct Hdir as [->| ->]; lia. }
  destruct (0 <? n) eqn:E; bool_to_prop; [|by exists t1]. apply weeks_on; [done..|]. intros j Hj. apply Hk.
  fold d' in Hj. destruct Hdir as [->| ->]; lia.
Qed.

Lemma addPositive_on lookup d n c ns t : 0 < n → on lookup d c ns t → keepsFrom lookup d (addDays d n) c ns →
  ∃ t', addPositiveBusinessDays lookup t n = Some t' ∧ on lookup (addDays d n) c ns t'.
Proof.
  intros Hn Hon. unfold addPositiveBusinessDays, addDays.
  assert (weekdayOf lookup t = Weekday d) as -> by (unfold weekdayOf; by rewrite (proj1 Hon)).
  assert (direction 1) as Hdir by by left.
  pose proof (λ k m Hk Hm, settled_on lookup 1 d k m c ns t Hdir Hk Hm Hon) as Hgo. unfold weeksThenDays in Hgo. cbv zeta in Hgo.
  destruct (Weekday d =? Saturday); [|destruct (Weekday d =? Sunday)]; intros Hk.
  - specialize (Hgo 2 (n - 1) ltac:(lia) ltac:(lia)). rewrite Z.mul_1_r in Hgo. by apply Hgo.
  - specialize (Hgo 1 (n - 1) ltac:(lia) ltac:(lia)). rewrite Z.mul_1_r in Hgo. by apply Hgo.
  - specialize (Hgo 0 n ltac:(lia) ltac:(lia)). rewrite Z.mul_1_r, Z.add_0_r in Hgo. by apply Hgo.
Qed.

Lemma subtract_on lookup d n c ns t : n < 0 → on lookup d c ns t → keepsFrom lookup d (subtractDays d n) c ns →
  ∃ t', subtractBusinessDays lookup t n = Some t' ∧ on lookup (subtractDays d n) c ns t'.
Proof.
  intros Hn Hon. unfold subtractBusinessDays, subtractDays.
  assert (weekdayOf lookup t = Weekday d) as -> by (unfold weekdayOf; by rewrite (proj1 Hon)).
  assert (direction (-1)) as Hdir by by right.
  assert (∀ m, (m <? 0) = (0 <? - m)) as Hlt by (intros m; destruct (m <? 0) eqn:E1, (0 <? - m) eqn:E2; bool_to_prop; lia || done).
  assert (∀ w, - w * 7 = w * 7 * -1) as Hw1 by (intros; lia).
  assert (∀ d0 w, d0 - w * 7 = d0 + w * 7 * -1) as Hw2 by (intros; lia).
  pose proof (λ k m Hk Hm, settled_on lookup (-1) d k m c ns t Hdir Hk Hm Hon) as Hgo. unfold weeksThenDays in Hgo. cbv zeta in Hgo.
  destruct (Weekday d =? Sunday); [|destruct (Weekday d =? Saturday)]; intros Hk; rewrite Hlt, ?Hw1, ?Hw2 in *.
  - by apply (Hgo (-2) (- (n + 1)) ltac:(lia) ltac:(lia)).
  - by apply (Hgo (-1) (- (n + 1)) ltac:(lia) ltac:(lia)).
  - specialize (Hgo 0 (- n) ltac:(lia) ltac:(lia)). rewrite Z.add_0_r in Hgo. by apply Hgo.
Qed.

(** The number of business days [AddBusinessDays] adds. *)
Definition clamped (n : Z) : Z := Z.max (- maxDays) (Z.min maxDays n).
Definition businessDay (d n : Z) : Z := Nat.iter (Z.to_nat (Z.abs n)) (nextBusiness (Z.sgn n)) d.

Lemma business_add lookup t n :
  let d := dayIn t lookup in let d' := businessDay d (clamped n) in
  keepsFrom lookup d d' (Clock t lookup) (Nanosecond t) →
  ∃ t', AddBusinessDays lookup t n = Some t' ∧ dayIn t' lookup = d' ∧ Clock t' lookup = Clock t lookup ∧
    Nanosecond t' = Nanosecond t.
Proof.
  intros d d' Hk. unfold AddBusinessDays. destruct (n =? 0) eqn:E0; bool_to_prop; [subst n; by exists t|].
  replace (if maxDays <? n then maxDays else if n <? - maxDays then - maxDays else n) with (clamped n)
    by (unfold clamped; destruct (maxDays <? n) eqn:E1; [|destruct (n <? - maxDays) eqn:E2]; bool_to_prop; unfold maxDays in *; lia).
  assert (clamped n ≠ 0) as Hc by (unfold clamped, maxDays; lia). unfold d', businessDay in *. clear d'.
  pose proof (on_self lookup t) as Hon. fold d in Hon. destruct (0 <? clamped n) eqn:Ep; bool_to_prop.
  - rewrite Z.abs_eq, Z.sgn_pos, <- addPositive_spec in * by lia.
    destruct (addPositive_on lookup d (clamped n) _ _ t Ep Hon Hk) as (t' & E & ? & ? & ? & _). by exists t'.
  - rewrite Z.abs_neq, Z.sgn_neg, <- subtract_spec in * by lia.
    destruct (subtract_on lookup d (clamped n) _ _ t ltac:(lia) Hon Hk) as (t' & E & ? & ? & ? & _). by exists t'.
Qed.

(** Monday, November 1, 2004, half past midnight in São Paulo, where the clocks went forward at the next midnight. *)
Definition saoPaulo : Z → zone := locOr (springAtMidnight (-3 * 3600) (daysFromCivil 2004 11 2)).
Definition monday : Time := dateAt (daysFromCivil 2004 11 1) 1800 0 saoPaulo.

Lemma fixed_keeps o d c ns : 0 <= c < secondsPerDay → 0 <= ns < Second → keeps (locOr (FixedZone o)) d c ns.
Proof. intros Hc Hns. by apply keeps_steady. Qed.

Lemma utc_adds t n : is_Some (AddBusinessDays UTC t n).
Proof.
  destruct (business_add UTC t n) as (t' & E & _); [|by exists t']. intros k _. apply (fixed_keeps 0).
  - apply Z.mod_pos_bound. by vm_compute.
  - apply Z.mod_pos_bound. by vm_compute.
Qed.

(** C36: business days. [daysFromCivil] numbers the days of the Gregorian
    calendar from 1970-01-01 on, one by one. Between two times in order, whose dates are in that order too, [BusinessDaysBetween] counts by
    weeks the days that are neither Saturday nor Sunday, and with the sign of the direction. [AddBusinessDays] steps from
    business day to business day, [n] times or a million times when [n] is more than that in either direction, and keeps the clock time, in
    a location where that clock time exists on the days from the one to the other, as it does in UTC and in fixed zones. Otherwise it can be
    off: where the clocks skip the midnight after a Monday in São Paulo, one business day from 00:30 is 23:30 of the same Monday. *)
Theorem business_days :
  (∀ y m d,
   validDate y m d →
    daysFromCivil 1970 1 1 = 0 ∧
    (let '(y', m', d') := nextDate y m d in
     daysFromCivil y' m' d' = daysFromCivil y m d + 1 ∧ validDate y' m' d')) ∧
  (∀ t1 t2,
   dayNumber t1 <= dayNumber t2 → instant t1 < instant t2 →
    BusinessDaysBetween t1 t2 = businessIn (Z.to_nat (dayNumber t2 - dayNumber t1)) (dayNumber t1) ∧
    BusinessDaysBetween t2 t1 = - BusinessDaysBetween t1 t2) ∧
  (∀ lookup t n,
   let m := Z.max (- 1000000) (Z.min 1000000 n) in
   let d := dayIn t lookup in let d' := Nat.iter (Z.to_nat (Z.abs m)) (nextBusiness (Z.sgn m)) d in
   (∀ k, Z.min d d' <= k <= Z.max d d' → keeps lookup k (Clock t lookup) (Nanosecond t)) →
   ∃ t', AddBusinessDays lookup t n = Some t' ∧ dayIn t' lookup = d' ∧ Clock t' lookup = Clock t lookup ∧
     Nanosecond t' = Nanosecond t) ∧
  (∀ o d c ns, 0 <= c < secondsPerDay → 0 <= ns < Second → keeps (locOr (FixedZone o)) d c ns) ∧
  (dayIn monday saoPaulo = daysFromCivil 2004 11 1 ∧ Weekday (dayIn monday saoPaulo) = 1 ∧ Clock monday saoPaulo = 1800 ∧
   AddBusinessDays saoPaulo monday 1 = Some (monday + 23 * 60 * Minute) ∧
   dayIn (monday + 23 * 60 * Minute) saoPaulo = dayIn monday saoPaulo).
Proof.
  split_and!; [apply civil_next|apply business_count|apply business_add|apply fixed_keeps|..]; vm_compute; reflexivity.
Qed.

Lemma business_days_witness :
  let t := dateAt (daysFromCivil 2024 3 2) 43200 0 UTC in
  ∃ t', AddBusinessDays UTC t 7 = Some t' ∧ dayIn t' UTC = daysFromCivil 2024 3 12.
Proof.
  intros t. destruct (proj1 (proj2 (proj2 business_days)) UTC t 7) as (t' & E & Hd & _).
  - intros k _. apply (proj1 (proj2 (proj2 (proj2 business_days))) 0 k); vm_compute; split; discriminate || reflexivity.
  - exists t'. split; [exact E|]. rewrite Hd. vm_compute. reflexivity.
Defined.
