(* ===== verification/Paging.v ===== *)
(** Pages and slices (pagination/pagination.go, pagination/slice.go,
    sliceutil/sliceutil.go, maputil/maputil.go): offset pagination with its
    machine arithmetic, and the generic helpers on slices and maps. *)
From S2P Require Import Prelude Text Strconv.
#[local] Open Scope Z_scope.

(** [len(s)]. *)
Definition len {T} (s : list T) : Z := Z.of_nat (length s).

(** ** sliceutil *)

Section slices.
Context {T : Type}.
Implicit Types s : list T.

Definition Reduce {U} s (init : U) (fn : U → T → U) : U := foldl fn init s.

(** [out[k] = append(out[k], v)] for every element. *)
Definition GroupBy {K} `{Countable K} s (fn : T → K) : gmap K (list T) :=
  foldl (λ out v, <[fn v := default [] (out !! fn v) ++ [v]]> out) ∅ s.

(** The loop of [Chunk]: every round takes at least one element. *)
Fixpoint chunkLoop (fuel : nat) s (size : Z) : option (list (list T)) :=
  match s, fuel with
  | [], _ => Some []
  | _, O => None
  | _, S fuel' =>
      let end_ := if len s <? size then len s else size in
      rest ← chunkLoop fuel' (drop (Z.to_nat end_) s) size;
      Some (take (Z.to_nat end_) s :: rest)
  end.

(** [Chunk]; [None] is a panic: [make] refuses a negative capacity. *)
Definition Chunk s (size : Z) : option (list (list T)) :=
  if size <=? 0 then Some []
  else if len s =? 0 then Some []
  else if go_div ((len s +! size) -! 1) size <? 0 then None
  else chunkLoop (length s) s size.

Fixpoint uniqueLoop `{Countable T} s (seen : gset T) (out : list T) : list T :=
  match s with
  | [] => out
  | v :: s' => if bool_decide (v ∈ seen) then uniqueLoop s' seen out
               else uniqueLoop s' ({[v]} ∪ seen) (out ++ [v])
  end.
Definition Unique `{Countable T} s : list T := uniqueLoop s ∅ [].

Definition Flatten (slices : list (list T)) : list T := foldl (λ out s, out ++ s) [] slices.

Fixpoint First s (fn : T → bool) : option T :=
  match s with
  | [] => None
  | v :: s' => if fn v then Some v else First s' fn
  end.
End slices.

(** ** maputil *)

(** [Merge]: later maps override; [Filter]. *)
Definition Merge {K V} `{Countable K} (maps : list (gmap K V)) : gmap K V :=
  foldl (λ out m, m ∪ out) ∅ maps.
Definition Filter {K V} `{Countable K} (m : gmap K V) (fn : K → V → bool) : gmap K V :=
  filter (λ p, fn p.1 p.2 = true) m.

(** ** pagination *)

Definition DefaultPage : Z := 1.
Definition DefaultLimit : Z := 20.
Definition MaxLimit : Z := 100.

Record Params := mkParams { Page : Z; Limit : Z }.

Definition parseIntClamp (s : string) (def minVal maxVal : Z) : Z :=
  if bool_decide (s = "") then def
  else match Sscanf_d s with
       | None => def
       | Some v => if v <? minVal then def else if maxVal <? v then maxVal else v
       end.

(** [Parse], for the query parameters of the request. *)
Definition Parse (page limit : string) : Params :=
  mkParams (parseIntClamp page DefaultPage 1 10000) (parseIntClamp limit DefaultLimit 1 MaxLimit).

(** [ParseCursor]. *)
Record CursorParams := mkCursorParams { cp_Cursor : string; cp_Limit : Z }.
Definition ParseCursor (cursor limit : string) : CursorParams :=
  mkCursorParams cursor (parseIntClamp limit DefaultLimit 1 MaxLimit).

Definition Offset (p : Params) : Z := (Page p -! 1) *! Limit p.

Definition TotalPages (total limit : Z) : Z :=
  if (limit <=? 0) || (total <=? 0) then 0
  else
    let pages := go_div total limit in
    if go_rem total limit =? 0 then pages else pages +! 1.

(** [Response] and [TypedResponse], and [CursorResponse] and
    [TypedCursorResponse]; the untyped ones have the items as they are. *)
Record TypedResponse (T : Type) := mkTyped { r_Items : T; r_Total : Z; r_Page : Z; r_Limit : Z; r_Pages : Z }.
Arguments mkTyped {T} _ _ _ _ _.
Arguments r_Items {T} _.
Arguments r_Total {T} _.
Arguments r_Page {T} _.
Arguments r_Limit {T} _.
Arguments r_Pages {T} _.

Definition NewTypedResponse {T} (items : list T) (total : Z) (p : Params) : TypedResponse (list T) :=
  mkTyped items total (Page p) (Limit p) (TotalPages total (Limit p)).
Definition NewResponse {T} (items : T) (total : Z) (p : Params) : TypedResponse T :=
  mkTyped items total (Page p) (Limit p) (TotalPages total (Limit p)).

Record CursorResponse (T : Type) := mkCursorResponse { cr_Items : T; cr_NextCursor : string; cr_HasMore : bool; cr_Limit : Z }.
Arguments mkCursorResponse {T} _ _ _ _.
Definition NewCursorResponse {T} (items : T) (nextCursor : string) (hasMore : bool) (limit : Z) : CursorResponse T :=
  mkCursorResponse items nextCursor hasMore limit.
Definition NewTypedCursorResponse {T} (items : list T) (nextCursor : string) (hasMore : bool) (limit : Z)
    : CursorResponse (list T) :=
  mkCursorResponse items nextCursor hasMore limit.

Record PageMeta := mkPageMeta {
  mPage : Z; mLimit : Z; mTotal : Z; mTotalPages : Z; mHasMore : bool;
}.

(** [PaginateSlice]; [None] is a panic: a slice bound below zero, or a lower
    bound above the upper one. *)
Definition PaginateSlice {T} (items : list T) (page limit : Z) : option (list T * PageMeta) :=
  let total := len items in
  if limit <=? 0 then Some (items, mkPageMeta 1 total total 1 false)
  else
    let page := if page <=? 0 then 1 else page in
    let totalPages := go_div ((total +! limit) -! 1) limit in
    let totalPages := if totalPages =? 0 then 1 else totalPages in
    let start := (page -! 1) *! limit in
    if total <=? start then Some ([], mkPageMeta page limit total totalPages false)
    else
      let end_ := start +! limit in
      let end_ := if total <? end_ then total else end_ in
      if (start <? 0) || (end_ <? start) then None
      else Some (take (Z.to_nat (end_ - start)) (drop (Z.to_nat start) items),
                 mkPageMeta page limit total totalPages (end_ <? total)).

(** ** Pages are chunks *)

Lemma Flatten_acc {T} (out : list T) cs : foldl (λ out s, out ++ s) out cs = out ++ Flatten cs.
Proof.
  unfold Flatten. revert out. induction cs as [|c cs IH]; intros out; simpl; [by rewrite app_nil_r|].
  by rewrite IH, (IH c), <-app_assoc.
Qed.

Lemma Flatten_cons {T} (c : list T) cs : Flatten (c :: cs) = c ++ Flatten cs.
Proof. unfold Flatten at 1. simpl. apply Flatten_acc. Qed.

(** The number of chunks. *)
Definition ceilDiv (n size : Z) : Z := (n + size - 1) / size.

Lemma ceilDiv_step n size : 0 < size → 0 < n → ceilDiv n size = 1 + ceilDiv (Z.max 0 (n - size)) size.
Proof.
  intros Hs Hn. unfold ceilDiv. destruct (Z.le_gt_cases n size).
  - rewrite Z.max_l by lia. rewrite (Z.div_small (0 + size - 1)) by lia.
    symmetry. apply (Z.div_unique _ _ _ (n - 1)); lia.
  - rewrite Z.max_r by lia. replace (n + size - 1) with (n - size + size - 1 + 1 * size) by lia.
    rewrite Z.div_add by lia. lia.
Qed.

Lemma ceilDiv_lt n size i : 0 < size → i < ceilDiv n size ↔ i * size < n.
Proof.
  intros Hs. unfold ceilDiv. rewrite (Z.lt_le_pred (i * size) n), (Z.lt_le_pred i).
  split; intros Hi.
  - assert (i + 1 <= (n + size - 1) / size) as Hle by lia.
    apply (Z.mul_le_mono_nonneg_r _ _ size) in Hle; [|lia].
    pose proof (Z.mul_div_le (n + size - 1) size Hs). lia.
  - apply Z.lt_le_pred. assert (i + 1 <= (n + size - 1) / size); [|lia].
    apply Z.div_le_lower_bound; lia.
Qed.

(** The rounding-up division of the code. *)
Lemma ceilDiv_go n size :
  0 < size → 0 <= n → n + size - 1 <= maxInt64 → go_div ((n +! size) -! 1) size = ceilDiv n size.
Proof.
  intros Hs Hn Hm. unfold go_div, ceilDiv.
  assert (0 <= (n + size - 1) / size <= n + size - 1) as Hd.
  { split; [apply Z.div_pos; lia|]. apply Z.div_le_upper_bound; nia. }
  destruct (Z.eq_dec (n + size) (maxInt64 + 1)) as [E|Hne].
  - replace (wrap64 (n + size) - 1) with (n + size - 1 - 2 ^ 64) by (rewrite E; reflexivity).
    replace (wrap64 (n + size - 1 - 2 ^ 64)) with (n + size - 1)
      by (replace (n + size - 1) with maxInt64 by lia; reflexivity).
    rewrite Z.quot_div_nonneg by lia. apply wrap64_id. unfold in_int64, minInt64. lia.
  - rewrite (wrap64_id (n + size)) by (unfold in_int64, minInt64, maxInt64 in *; lia).
    rewrite (wrap64_id (n + size - 1)) by (unfold in_int64, minInt64, maxInt64 in *; lia).
    rewrite Z.quot_div_nonneg by lia. apply wrap64_id. unfold in_int64, minInt64. lia.
Qed.

Lemma chunkLoop_spec {T} fuel (s : list T) size :
  0 < size → (length s <= fuel)%nat →
  ∃ cs, chunkLoop fuel s size = Some cs ∧ Flatten cs = s ∧ len cs = ceilDiv (len s) size ∧
    ∀ i, default [] (cs !! i) = take (Z.to_nat size) (drop (i * Z.to_nat size) s).
Proof.
  intros Hs. revert s. induction fuel as [|fuel IH]; intros [|x s0] Hf; try (simpl in Hf; lia).
  1,2: exists []; split_and!; [done|done| |intros i; by rewrite drop_nil, take_nil];
    symmetry; apply Z.div_small; unfold len; simpl; lia.
  remember (x :: s0) as s eqn:Es. assert (0 < length s)%nat as Hpos by (subst s; simpl; lia).
  set (n := if len s <? size then len s else size).
  assert (Z.to_nat n = Z.to_nat size ∨ Z.to_nat n = length s ∧ (length s <= Z.to_nat size)%nat) as Hn.
  { unfold n, len. destruct (_ <? size) eqn:E; [|by left]. apply Z.ltb_lt in E. unfold len in E. right. lia. }
  assert (take (Z.to_nat n) s = take (Z.to_nat size) s ∧ drop (Z.to_nat n) s = drop (Z.to_nat size) s) as [Et Ed].
  { destruct Hn as [->|[-> Hle]]; [done|]. by rewrite !take_ge, !drop_ge by lia. }
  destruct (IH (drop (Z.to_nat size) s)) as (cs & Ec & Hfl & Hlen & Hi).
  { rewrite length_drop. lia. }
  exists (take (Z.to_nat size) s :: cs). split_and!.
  - rewrite Es. cbn [chunkLoop]. rewrite <-Es. fold n. by rewrite Et, Ed, Ec.
  - rewrite Flatten_cons, Hfl. apply take_drop.
  - rewrite ceilDiv_step; [|done|unfold len; lia].
    replace (Z.max 0 (len s - size)) with (len (drop (Z.to_nat size) s));
      [rewrite <-Hlen; unfold len; simpl; lia|].
    unfold len. rewrite length_drop. lia.
  - intros [|i]; [done|]. simpl. rewrite Hi, drop_drop. f_equal.
Qed.

(** What [PaginateSlice] computes when nothing overflows. *)
Lemma paginate_exact {T} (items : list T) page limit :
  1 <= page → 0 < limit → len items + limit - 1 <= maxInt64 → page * limit <= maxInt64 →
  PaginateSlice items page limit =
  Some (take (Z.to_nat limit) (drop (Z.to_nat (page - 1) * Z.to_nat limit) items),
        mkPageMeta page limit (len items) (Z.max 1 (ceilDiv (len items) limit))
          (page <? ceilDiv (len items) limit)).
Proof.
  intros Hp Hl Ht Ho. assert (0 <= len items) by (unfold len; lia).
  assert (page <= page * limit) by nia. set (start := (page - 1) * limit).
  assert (start + limit = page * limit) as Hend by (unfold start; ring).
  assert (0 <= start) by (unfold start; nia). assert (1 <= page * limit) by nia.
  unfold PaginateSlice. rewrite (proj2 (Z.leb_gt limit 0)), (proj2 (Z.leb_gt page 0)) by lia.
  rewrite !(wrap64_id (page - 1)) by (unfold in_int64, minInt64, maxInt64 in *; lia). fold start.
  rewrite !(wrap64_id start), !(wrap64_id (start + limit)) by (unfold in_int64, minInt64, maxInt64 in *; lia).
  assert (go_div ((len items +! limit) -! 1) limit = ceilDiv (len items) limit) as ->.
  { apply ceilDiv_go; lia. }
  assert (Z.to_nat (page - 1) * Z.to_nat limit = Z.to_nat start)%nat as -> by (symmetry; apply Z2Nat.inj_mul; lia).
  assert (0 <= ceilDiv (len items) limit) by (apply Z.div_pos; lia).
  replace (if ceilDiv (len items) limit =? 0 then 1 else ceilDiv (len items) limit)
    with (Z.max 1 (ceilDiv (len items) limit)) by (destruct (Z.eqb_spec (ceilDiv (len items) limit) 0); lia).
  pose proof (ceilDiv_lt (len items) limit page Hl) as Hmore. rewrite Hend in *. clearbody start.
  destruct (len items <=? start) eqn:E; bool_to_prop.
  - rewrite drop_ge, take_nil by (unfold len in *; lia).
    by rewrite (proj2 (Z.ltb_ge page _)) by (apply Z.le_ngt; rewrite Hmore; lia).
  - replace (if len items <? page * limit then len items else page * limit)
      with (Z.min (len items) (page * limit)) by (destruct (Z.ltb_spec (len items) (page * limit)); lia).
    rewrite (proj2 (Z.ltb_ge start 0)), (proj2 (Z.ltb_ge (Z.min _ _) start)) by lia. simpl. do 2 f_equal.
    + destruct (Z.le_gt_cases (page * limit) (len items)).
      * rewrite Z.min_r by lia. f_equal. lia.
      * rewrite Z.min_l by lia. rewrite !take_ge; [done| |]; rewrite length_drop; unfold len in *; lia.
    + f_equal. apply eq_true_iff_eq. rewrite !Z.ltb_lt, Hmore. lia.
Qed.

Lemma chunk_exact {T} (s : list T) size :
  0 < size → len s + size - 1 <= maxInt64 →
  ∃ cs, Chunk s size = Some cs ∧ Flatten cs = s ∧ len cs = ceilDiv (len s) size ∧
    ∀ i, default [] (cs !! i) = take (Z.to_nat size) (drop (i * Z.to_nat size) s).
Proof.
  intros Hs Hm. destruct (chunkLoop_spec (length s) s size Hs (le_n _)) as (cs & Hc).
  exists cs. unfold Chunk. rewrite (proj2 (Z.leb_gt size 0)) by lia.
  destruct (len s =? 0) eqn:E; bool_to_prop.
  - destruct s; [|done]. destruct Hc as [Hc Hrest]. simpl in Hc. injection Hc as <-. done.
  - assert (0 <= len s) by (unfold len; lia). rewrite ceilDiv_go by lia.
    rewrite (proj2 (Z.ltb_ge _ 0)); [done|]. apply Z.div_pos; lia.
Qed.

Lemma TotalPages_ceil total limit :
  0 < limit → 0 <= total <= maxInt64 → TotalPages total limit = ceilDiv total limit.
Proof.
  intros Hl Ht. unfold TotalPages. rewrite (proj2 (Z.leb_gt limit 0)) by lia. simpl.
  destruct (total <=? 0) eqn:E; bool_to_prop.
  { unfold ceilDiv. rewrite Z.div_small; lia. }
  unfold go_div, go_rem, ceilDiv. rewrite Z.quot_div_nonneg, Z.rem_mod_nonneg by lia.
  pose proof (Z.div_mod total limit). pose proof (Z.mod_pos_bound total limit Hl).
  assert (0 <= total / limit <= total) by (split; [apply Z.div_pos; lia|apply Z.div_le_upper_bound; nia]).
  rewrite wrap64_id by (unfold in_int64, minInt64; lia).
  destruct (total mod limit =? 0) eqn:Er; bool_to_prop.
  - apply (Z.div_unique _ _ _ (limit - 1)); lia.
  - assert (total / limit < maxInt64).
    { destruct (Z.eq_dec limit 1) as [->|]; [rewrite Z.mod_1_r in Er; lia|]. apply Z.div_lt_upper_bound; nia. }
    rewrite wrap64_id by (unfold in_int64, minInt64; lia).
    apply (Z.div_unique _ _ _ (total mod limit - 1)); lia.
Qed.

(** C38: offset pagination is chunking. As long as the arithmetic stays within
    64 bits, [Chunk] splits the items into consecutive parts that concatenate
    to them, page [p] of [PaginateSlice] is the [p]-th of these chunks (empty
    past the last), the reported number of pages is theirs (one when there are
    none), [TotalPages] agrees with it, and [HasMore] is true exactly when a
    later page exists. Without that bound a page far out of range can come
    back with the first items, or panic, and [Chunk] can panic. *)
Theorem pages_are_chunks :
  (∀ T (items : list T) page limit,
    1 <= page → 0 < limit → len items + limit - 1 <= maxInt64 → page * limit <= maxInt64 →
    ∃ cs, Chunk items limit = Some cs ∧ Flatten cs = items ∧
      TotalPages (len items) limit = len cs ∧
      PaginateSlice items page limit =
        Some (default [] (cs !! Z.to_nat (page - 1)),
              mkPageMeta page limit (len items) (Z.max 1 (len cs)) (page <? len cs))) ∧
  fst <$> PaginateSlice [1; 2; 3] (2 ^ 62 + 1) 4 = Some [1; 2; 3] ∧
  PaginateSlice [1; 2; 3] (2 ^ 61 + 1) 4 = None ∧
  Chunk [1; 2] maxInt64 = None.
Proof.
  split; [|split_and!; reflexivity].
  intros T items page limit Hp Hl Ht Ho.
  destruct (chunk_exact items limit Hl Ht) as (cs & Hc & Hf & Hn & Hi).
  exists cs. split_and!; [done|done| |].
  - rewrite Hn. apply TotalPages_ceil; [done|]. unfold len in *. lia.
  - by rewrite paginate_exact, Hi, Hn.
Qed.

Lemma pages_are_chunks_witness :
  ∃ cs, Chunk [1; 2; 3; 4; 5] 2 = Some cs ∧ Flatten cs = [1; 2; 3; 4; 5] ∧
    TotalPages (len [1; 2; 3; 4; 5]) 2 = len cs ∧
    PaginateSlice [1; 2; 3; 4; 5] 2 2 =
      Some (default [] (cs !! Z.to_nat (2 - 1)),
            mkPageMeta 2 2 (len [1; 2; 3; 4; 5]) (Z.max 1 (len cs)) (2 <? len cs)).
Proof. apply (proj1 pages_are_chunks Z [1; 2; 3; 4; 5] 2 2); vm_compute; congruence. Defined.

(** ** The other helpers *)

Lemma uniqueLoop_spec {T} `{Countable T} (s : list T) seen out :
  (∀ x, x ∈ seen ↔ x ∈ out) → NoDup out →
  ∃ l, uniqueLoop s seen out = out ++ l ∧ NoDup (out ++ l) ∧ l `sublist_of` s ∧ s ⊆ out ++ l.
Proof.
  revert seen out. induction s as [|v s IH]; intros seen out Hs Hn; simpl.
  - exists []. rewrite app_nil_r. split_and!; [done|done|constructor|set_solver].
  - case_bool_decide as Hv.
    + destruct (IH seen out Hs Hn) as (l & -> & Hnd & Hsub & Hin). exists l.
      split_and!; [done|done|by apply sublist_cons|]. apply Hs in Hv. set_solver.
    + destruct (IH ({[v]} ∪ seen) (out ++ [v])) as (l & -> & Hnd & Hsub & Hin).
      * set_solver.
      * apply NoDup_app. split_and!; [done| |apply NoDup_singleton]. set_solver.
      * exists (v :: l). rewrite <-app_assoc in *. simpl in *.
        split_and!; [done|done|by apply sublist_skip|set_solver].
Qed.

(** [Unique] keeps every element once, in the order of first occurrence. *)
Lemma Unique_spec {T} `{Countable T} (s : list T) :
  NoDup (Unique s) ∧ Unique s `sublist_of` s ∧ ∀ x, x ∈ Unique s ↔ x ∈ s.
Proof.
  destruct (uniqueLoop_spec s ∅ []) as (l & E & Hnd & Hsub & Hin); [set_solver|constructor|].
  unfold Unique. rewrite E. simpl in *. split_and!; [done|done|]. intros x. split; [|set_solver].
  intros Hx. by eapply elem_of_sublist.
Qed.

(** [GroupBy] partitions: the group of a key is the elements with that key, in
    order; there are no empty groups. *)
Lemma GroupBy_spec {T K} `{Countable K} (s : list T) (fn : T → K) k :
  GroupBy s fn !! k =
  (let g := filter (λ v, fn v = k) s in if bool_decide (g = []) then None else Some g).
Proof.
  unfold GroupBy. induction s as [|v s IH] using rev_ind; [done|].
  rewrite foldl_snoc, filter_app. simpl in *. rewrite filter_cons, filter_nil.
  destruct (decide (fn v = k)) as [<-|Hne].
  - rewrite lookup_insert_eq, IH. rewrite (bool_decide_eq_false_2 (_ ++ [v] = [])).
    + by case_bool_decide as E; rewrite ?E.
    + by destruct (filter _ s).
  - by rewrite lookup_insert_ne, IH, app_nil_r.
Qed.

(** [Merge]: the last map that has the key. *)
Lemma Merge_spec {K V} `{Countable K} (maps : list (gmap K V)) k :
  Merge maps !! k = foldl (λ o m, match m !! k with Some v => Some v | None => o end) None maps.
Proof.
  unfold Merge. induction maps as [|m maps IH] using rev_ind; [done|].
  rewrite !foldl_snoc, <-IH, lookup_union. by destruct (m !! k), (foldl _ _ _ !! k).
Qed.

(** Whatever the query says, the parameters are in range and the offset is
    exact. *)
Lemma parseIntClamp_bounds s def hi : 1 <= def <= hi → 1 <= parseIntClamp s def 1 hi <= hi.
Proof.
  intros Hd. unfold parseIntClamp. case_bool_decide; [done|]. destruct (Sscanf_d s) as [v|]; [|done].
  destruct (v <? 1) eqn:E1; [done|]. destruct (hi <? v) eqn:E2; bool_to_prop; lia.
Qed.

Lemma Parse_bounds page limit :
  let p := Parse page limit in
  1 <= Page p <= 10000 ∧ 1 <= Limit p <= MaxLimit ∧ Offset p = (Page p - 1) * Limit p.
Proof.
  unfold Parse. cbv zeta. cbn [Page Limit].
  pose proof (parseIntClamp_bounds page DefaultPage 10000 ltac:(unfold DefaultPage; lia)) as H1.
  pose proof (parseIntClamp_bounds limit DefaultLimit MaxLimit ltac:(unfold DefaultLimit, MaxLimit; lia)) as H2.
  split_and!; try lia. unfold Offset. cbn [Page Limit].
  rewrite (wrap64_id (_ - 1)) by (unfold in_int64, minInt64, maxInt64; lia).
  apply wrap64_id. unfold in_int64, minInt64, maxInt64, MaxLimit in *. nia.
Qed.
