(* ===== verification/Cursor.v ===== *)
(** Cursors in requests (pagination/cursor.go): a cursor that a response hands
    out comes back in the query of the next request, and is decoded there. The
    queries of package net/url are modelled for it. *)
From S2P Require Import Prelude Text AppError Base64 Strconv Paging.
#[local] Open Scope Z_scope.

(** ** Package net/url *)






(** ** Cursors *)











