(* ===== verification/HttpClient.v ===== *)
(** The resilient HTTP client (httpclient/roundtripper.go, options.go): rate
    limit, circuit breaker and retries around a transport. The limiter and the
    breaker are used through their interfaces, so the theorems hold for every
    implementation of them. *)
From S2P Require Import Prelude Float64 Retry Consecutive Breaker TokenBucket RateLimit.
From stdpp Require Import pretty.
#[local] Open Scope Z_scope.

Definition ErrRateLimited : error := ErrNew "httpclient: outbound rate limit exceeded".
Definition ErrAttemptTimeout : error := ErrNew "httpclient: per-attempt timeout exceeded".
Definition DefaultMaxRetryBodySize : Z := 10 * 1024 * 1024.

Definition bytes := list Byte.byte.

(** ** Requests and responses *)

(** The body of a request: none; one with [GetBody], by attempt ([None] is an
    error of it); or a stream, whose first [DefaultMaxRetryBodySize + 1] bytes
    may fail to read. *)
Inductive requestBody :=
| NoBody
| Rewindable (content : bytes) (GetBody : Z → option bytes)
| Stream (content : bytes) (readErr : option error).

Definition bodyContent (b : requestBody) : bytes :=
  match b with NoBody => [] | Rewindable c _ => c | Stream c _ => c end.

(** [prepareRequestBody]: a stream up to the limit is buffered; a longer one is
    put together again and stays a stream. *)
Definition prepareRequestBody (b : requestBody) : requestBody + error :=
  match b with
  | NoBody | Rewindable _ _ => inl b
  | Stream _ (Some e) => inr e
  | Stream c None =>
      if DefaultMaxRetryBodySize <? Z.of_nat (length c) then inl b
      else inl (Rewindable c (λ _, Some c))
  end.

Record httpResponse := mkHttpResponse { hStatusCode : Z; hasBody : bool }.

(** The world of a request, by attempt: what the transport returns, [ctx.Err()]
    before the attempt, whether the context of the attempt alone has ended
    after it failed, [ctx.Err()] when the context ends during the wait after
    it, the random numbers, and what the transport has left of the first body. *)
Record clientWorld := ClientWorld {
  transport : Z → httpResponse + error;
  ctxErrBefore : Z → option error;
  attemptCtxEnded : Z → bool;
  ctxErrWaiting : Z → option error;
  randoms : Z → float64;
  leftover : Z → bytes;
}.

(** What the client does: the bodies it sends, the responses it closes (by
    attempt) and the waits. *)
Record trace := Trace { sent : list bytes; closedBodies : list Z; backoffs : list Duration }.
Definition trace0 : trace := Trace [] [] [].

(** [computeRetryWait]; [toDuration] is the conversion of a float to int64, which
    gives the least integer when the value is out of range, as on amd64. *)
Definition computeRetryWait (cfg : Config) (attempt : Z) (rnd : float64) : Duration :=
  if InitialWait cfg <=? 0 then 0
  else
    let expAttempt := if 30 <? attempt then 30 else attempt in
    let grown := fmul (of_int (InitialWait cfg)) (pow2 expAttempt) in
    let wait := match Strategy_ cfg with
                | Linear => InitialWait cfg *! (attempt +! 1)
                | Exponential => toDuration grown
                | ExponentialJitter => if fleb grown f0 then 0 else toDuration (fmul rnd grown)
                | Constant => InitialWait cfg
                end in
    if (0 <? MaxWait cfg) && (MaxWait cfg <? wait) then MaxWait cfg else wait.

(** ** Attempts *)

Inductive attemptResult := Done (r : httpResponse) | Failed (r : option httpResponse) (e : error).

Definition serverError (prefix : string) (code : Z) : error := ErrNew (prefix +:+ pretty code).

Section client.
Context (cfg : Config) (w : clientWorld) (body : requestBody).

(** The body of an attempt: the request's own first, a rewound one later. *)
Definition attemptBody (attempt : Z) : bytes :=
  if attempt <=? 0 then bodyContent body
  else match body with
       | NoBody => []
       | Rewindable _ get => default (leftover w attempt) (get attempt)
       | Stream _ _ => leftover w attempt
       end.

Definition performAttempt (attempt : Z) : attemptResult :=
  match transport w attempt with
  | inr e => Failed None (if attemptCtxEnded w attempt then ErrAttemptTimeout else e)
  | inl r => if 500 <=? hStatusCode r
             then Failed (Some r) (serverError "httpclient: server error HTTP " (hStatusCode r))
             else Done r
  end.

Definition clientAttempts : Z :=
  match body with
  | Stream _ _ => 1
  | _ => if Attempts cfg <=? 0 then 1 else Attempts cfg
  end.

(** [lastResp] or [lastErr] at the end of the loop. *)
Definition lastResult (r : option httpResponse) (e : error) : httpResponse + error :=
  match r with Some r => inl r | None => inr e end.

(** The loop of [executeRetries], with [left] attempts before the last one. *)
Fixpoint attemptLoop (left : nat) (attempt : Z) (tr : trace) : (httpResponse + error) * trace :=
  match ctxErrBefore w attempt with
  | Some e => (inr e, tr)
  | None =>
      let tr1 := Trace (sent tr ++ [attemptBody attempt]) (closedBodies tr) (backoffs tr) in
      match performAttempt attempt with
      | Done r => (inl r, tr1)
      | Failed r e =>
          if negb (shouldRetry cfg e) then (lastResult r e, tr1)
          else
            match left with
            | O => (lastResult r e, tr1)
            | S left' =>
                let cl := if from_option hasBody false r then [attempt] else [] in
                let wait := computeRetryWait cfg attempt (randoms w attempt) in
                let tr2 := Trace (sent tr1) (closedBodies tr1 ++ cl)
                             (backoffs tr1 ++ (if 0 <? wait then [wait] else [])) in
                if 0 <? wait then
                  match ctxErrWaiting w attempt with
                  | Some e' => (inr e', tr2)
                  | None => attemptLoop left' (attempt + 1) tr2
                  end
                else attemptLoop left' (attempt + 1) tr2
            end
      end
  end.

Definition executeRetries : (httpResponse + error) * trace :=
  attemptLoop (Z.to_nat (clientAttempts - 1)) 0 trace0.
End client.

(** ** The attempts *)

Section attempts.
Context (cfg : Config) (w : clientWorld) (body : requestBody).

(** Attempt [j] failed in a way that allows another one. *)
Definition clientRetried (j : Z) : Prop :=
  ctxErrBefore w j = None ∧ ∃ r e, performAttempt w j = Failed r e ∧ shouldRetry cfg e = true.

(** Why the loop ended when the last attempt of [n] possible ones was [i]. *)
Definition clientEnded (n i : Z) (res : httpResponse + error) : Prop :=
  (∃ e, ctxErrBefore w (i + 1) = Some e ∧ res = inr e) ∨
  ctxErrBefore w i = None ∧
  match performAttempt w i with
  | Done r => res = inl r
  | Failed r e =>
      (shouldRetry cfg e = false ∨ i = n - 1) ∧ res = lastResult r e ∨
      ∃ e', ctxErrWaiting w i = Some e' ∧ res = inr e'
  end.

(** The attempts made from [from] on, given the bodies sent and the responses
    closed: how many, with which bodies, how they end, and that exactly the
    responses that are not returned are closed. *)
Record attempted (from n : Z) (res : httpResponse + error) (bodies : list bytes) (cl : list Z) : Prop := {
  at_count : from + Z.of_nat (length bodies) <= n;
  at_bodies : ∀ i b, bodies !! i = Some b → b = attemptBody w body (from + Z.of_nat i);
  at_retried : ∀ j, from <= j < from + Z.of_nat (length bodies) - 1 → clientRetried j;
  at_ended : bodies = [] ∧ (∃ e, ctxErrBefore w from = Some e ∧ res = inr e) ∨
             bodies ≠ [] ∧ clientEnded n (from + Z.of_nat (length bodies) - 1) res;
  at_range : ∀ j, j ∈ cl → from <= j;
  at_closed : ∀ j r, from <= j < from + Z.of_nat (length bodies) → transport w j = inl r → hasBody r = true →
    j ∈ cl ↔ (j < from + Z.of_nat (length bodies) - 1 ∨ ∃ e, res = inr e);
}.

(** An attempt after which the loop returns. *)
Lemma attempted_last from n res b :
  from < n → b = attemptBody w body from → clientEnded n from res →
  (∀ r, transport w from = inl r → res = inl r) →
  attempted from n res [b] [].
Proof.
  intros Hn -> He Hr. split; simpl.
  - lia.
  - intros [|i] b Hb; [|by destruct i]. injection Hb as <-. f_equal. lia.
  - intros j Hj. lia.
  - right. split; [done|]. replace (from + Z.of_nat 1 - 1) with from by lia. exact He.
  - set_solver.
  - intros j r Hj Ht _. assert (j = from) as -> by lia. split; [set_solver|].
    intros [?|[e He']]; [lia|]. rewrite (Hr r Ht) in He'. done.
Qed.

(** An attempt that is followed by others, or by the end of the context. *)
Lemma attempted_next from n r e res bodies cl :
  ctxErrBefore w from = None → performAttempt w from = Failed r e → shouldRetry cfg e = true →
  attempted (from + 1) n res bodies cl →
  attempted from n res (attemptBody w body from :: bodies)
    ((if from_option hasBody false r then [from] else []) ++ cl).
Proof.
  intros Hc Hp Hs [Hn Hb Hr He Hg Hcl]. split; cbn [length].
  - lia.
  - intros [|i] b Hi; [injection Hi as <-; f_equal; lia|]. rewrite (Hb i b Hi). f_equal. lia.
  - intros j Hj. destruct (decide (j = from)) as [->|]; [split; eauto|]. apply Hr. lia.
  - right. split; [done|]. destruct He as [[-> He]|[Hne He]].
    + left. simpl length. replace (from + Z.of_nat 1 - 1 + 1) with (from + 1) by lia. exact He.
    + replace (from + Z.of_nat (S (length bodies)) - 1) with (from + 1 + Z.of_nat (length bodies) - 1) by lia.
      exact He.
  - intros j [Hj|Hj]%elem_of_app; [destruct (from_option _ _ _); set_solver by lia|].
    apply Hg in Hj. lia.
  - intros j r' Hj Ht Hbody. destruct (decide (j = from)) as [->|Hne].
    + unfold performAttempt in Hp. rewrite Ht in Hp.
      destruct (500 <=? hStatusCode r'); [|done]. injection Hp as <- _. simpl. rewrite Hbody.
      split; [|set_solver]. intros _. destruct bodies as [|b bodies]; [|left; simpl; lia].
      right. destruct He as [[_ (e' & _ & ->)]|[? _]]; [by eauto|done].
    + rewrite elem_of_app, (Hcl j r') by (try done; lia).
      split; [intros [Hin|[?|?]]; [|left; lia|by right]|].
      * destruct (from_option _ _ _); set_solver.
      * intros [?|?]; right; [left; lia|by right].
Qed.

(** No attempt at all. *)
Lemma attempted_none from n e :
  from <= n → ctxErrBefore w from = Some e → attempted from n (inr e) [] [].
Proof.
  intros Hn Hc. split; simpl.
  - lia.
  - intros i b Hb. by destruct i.
  - intros j Hj. lia.
  - left. eauto.
  - set_solver.
  - intros j r Hj. lia.
Qed.

(** The context ends during the wait. *)
Lemma attempted_cancelled from n r e e' :
  from < n → ctxErrBefore w from = None → performAttempt w from = Failed r e →
  ctxErrWaiting w from = Some e' →
  attempted from n (inr e') [attemptBody w body from] (if from_option hasBody false r then [from] else []).
Proof.
  intros Hn Hc Hp Hw. split; simpl length.
  - lia.
  - intros [|i] b Hb; [|by destruct i]. injection Hb as <-. f_equal. lia.
  - intros j Hj. lia.
  - right. split; [done|]. replace (from + Z.of_nat 1 - 1) with from by lia.
    right. rewrite Hp. split; [done|]. right. eauto.
  - intros j Hj. destruct (from_option _ _ _); set_solver by lia.
  - intros j r' Hj Ht Hbody. assert (j = from) as -> by lia.
    unfold performAttempt in Hp. rewrite Ht in Hp.
    destruct (500 <=? hStatusCode r'); [|done]. injection Hp as <- _. simpl. rewrite Hbody.
    split; [by eauto|set_solver].
Qed.

(** The response of an attempt is the one the loop returns. *)
Lemma performAttempt_Done i r r' :
  performAttempt w i = Done r → transport w i = inl r' → @inl _ error r = inl r'.
Proof. unfold performAttempt. intros Hp Ht. rewrite Ht in Hp. destruct (500 <=? _); congruence. Qed.

Lemma performAttempt_Failed i r e r' :
  performAttempt w i = Failed r e → transport w i = inl r' → lastResult r e = inl r'.
Proof.
  unfold performAttempt. intros Hp Ht. rewrite Ht in Hp. destruct (500 <=? _); [|done]. by injection Hp as <- _.
Qed.

Lemma attemptLoop_spec left attempt tr n :
  0 <= attempt → attempt + Z.of_nat left = n - 1 →
  ∃ res tr' bodies cl, attemptLoop cfg w body left attempt tr = (res, tr') ∧
    sent tr' = sent tr ++ bodies ∧ closedBodies tr' = closedBodies tr ++ cl ∧
    attempted attempt n res bodies cl.
Proof.
  revert attempt tr. induction left as [|left IH]; intros attempt tr Ha Hn; cbn [attemptLoop];
    (destruct (ctxErrBefore w attempt) as [e|] eqn:Ec;
     [do 2 eexists; exists [], []; rewrite !app_nil_r; split_and!; [done..|by apply attempted_none; [lia|]]|]);
    destruct (performAttempt w attempt) as [r|r e] eqn:Ep.
  1,3: do 2 eexists; eexists [_], []; rewrite app_nil_r; split_and!; [done..|];
    apply attempted_last; [lia|done|right; by rewrite Ep|intros r'; exact (performAttempt_Done attempt r r' Ep)].
  all: destruct (shouldRetry cfg e) eqn:Es; cbn [negb].
  2,4: do 2 eexists; eexists [_], []; rewrite app_nil_r; split_and!; [done..|];
    apply attempted_last; [lia|done|right; rewrite Ep; by auto|intros r'; exact (performAttempt_Failed attempt r e r' Ep)].
  - do 2 eexists; eexists [_], []; rewrite app_nil_r; split_and!; [done..|].
    apply attempted_last; [lia|done|right; rewrite Ep; split; [done|left; split; [right; lia|done]]|].
    intros r'. exact (performAttempt_Failed attempt r e r' Ep).
  - set (cl := if from_option hasBody false r then [attempt] else []).
    set (wait := computeRetryWait cfg attempt (randoms w attempt)).
    assert (∀ ws, ∃ res tr' bodies cl', attemptLoop cfg w body left (attempt + 1)
      (Trace (sent tr ++ [attemptBody w body attempt]) (closedBodies tr ++ cl) ws) = (res, tr') ∧
      sent tr' = sent tr ++ bodies ∧ closedBodies tr' = closedBodies tr ++ cl' ∧
      attempted attempt n res bodies cl') as Hnext.
    { intros ws. destruct (IH (attempt + 1) (Trace (sent tr ++ [attemptBody w body attempt]) (closedBodies tr ++ cl) ws))
        as (res & tr' & bodies & cl' & E & Hsent & Hclosed & Hatt); [lia|lia|].
      exists res, tr', (attemptBody w body attempt :: bodies), (cl ++ cl').
      rewrite Hsent, Hclosed. simpl. rewrite <-!app_assoc. split_and!; [done..|].
      by eapply attempted_next. }
    destruct (0 <? wait); [|apply Hnext]. destruct (ctxErrWaiting w attempt) as [e'|] eqn:Ew; [|apply Hnext].
    do 2 eexists. eexists [_], cl. split_and!; [done..|].
    by apply (attempted_cancelled attempt n r e e'); [lia|..].
Qed.
End attempts.

(** ** The pipeline *)

(** [options], for one request: what [rateLimiterFunc] says of it, the limiter
    with the key of the request, the breaker. *)
Record clientOptions (L B : Type) := ClientOptions {
  retryCfg : Config;
  circuitBreaker : option B;
  rateLimiter : option L;
  rateLimiterFunc : option bool;
}.
Arguments ClientOptions {L B} _ _ _ _.
Arguments retryCfg {L B} _.
Arguments circuitBreaker {L B} _.
Arguments rateLimiter {L B} _.
Arguments rateLimiterFunc {L B} _.

Section pipeline.
Context {L B : Type} `{Limiter L} `{Breaker B}.
Implicit Types o : clientOptions L B.

Definition checkRateLimit o (key : string) (rd : reads) : option error * clientOptions L B :=
  match rateLimiterFunc o, rateLimiter o with
  | Some ok, _ => (if ok then None else Some ErrRateLimited, o)
  | None, Some l =>
      let '(ok, l') := lim_Allow l key rd in
      (if ok then None else Some ErrRateLimited,
       ClientOptions (retryCfg o) (circuitBreaker o) (Some l') (rateLimiterFunc o))
  | None, None => (None, o)
  end.

(** What the function given to the breaker returns. *)
Definition breakerError (r : httpResponse + error) : option error :=
  match r with
  | inr e => Some e
  | inl resp => if 500 <=? hStatusCode resp
                then Some (serverError "httpclient: downstream returned HTTP " (hStatusCode resp)) else None
  end.

(** [roundTripCircuitBreaker]; [run] is the call of [executeRetries]. *)
Definition roundTripCircuitBreaker (b : B) (run : (httpResponse + error) * trace)
    (ctxErr : option error) (now1 : Time) (ctxErr2 : option error) (now2 : Time)
    : (httpResponse + error) * trace * B :=
  match enter b ctxErr now1 with
  | (inl e, b1) => (inr e, trace0, b1)
  | (inr isProbe, b1) =>
      let '(r, tr) := run in
      let '(res, b2) := leave b1 isProbe (Returned (breakerError r)) ctxErr2 now2 in
      (match res with
       | Ret (Some e) =>
           if errors_Is e ErrCircuitOpen then inr e
           else match r with inl resp => inl resp | inr _ => inr e end
       | _ => r
       end, tr, b2)
  end.

(** [RoundTrip]: the readings of the limiter, of the breaker when the call
    starts and ends, and [ctx.Err()] then. *)
Definition RoundTrip o (w : clientWorld) (key : string) (body : requestBody) (rd : reads)
    (ctxErr : option error) (now1 : Time) (ctxErr2 : option error) (now2 : Time)
    : (httpResponse + error) * trace * clientOptions L B :=
  match prepareRequestBody body with
  | inr e => (inr e, trace0, o)
  | inl body1 =>
      match checkRateLimit o key rd with
      | (Some e, o1) => (inr e, trace0, o1)
      | (None, o1) =>
          let run := executeRetries (retryCfg o1) w body1 in
          match circuitBreaker o1 with
          | None => (run, o1)
          | Some b =>
              let '(r, tr, b1) := roundTripCircuitBreaker b run ctxErr now1 ctxErr2 now2 in
              (r, tr, ClientOptions (retryCfg o1) (Some b1) (rateLimiter o1) (rateLimiterFunc o1))
          end
      end
  end.

(** ** The result of the pipeline *)

(** Errors of the client and of contexts are not the breaker's. *)
Lemma not_circuit_open e : e = Canceled ∨ e = DeadlineExceeded ∨
  (∃ code, e = serverError "httpclient: downstream returned HTTP " code) → errors_Is e ErrCircuitOpen = false.
Proof. intros [->|[->|[code ->]]]; reflexivity. Qed.

Definition contextError (o : option error) : Prop := o = None ∨ o = Some Canceled ∨ o = Some DeadlineExceeded.

(** The breaker hands on the result of the attempts as it is, and learns of
    it: an error or a server error is a failure. *)
Lemma breaker_transparent b r tr ctxErr now1 ctxErr2 now2 isProbe b1 :
  contextError ctxErr2 → enter b ctxErr now1 = (inr isProbe, b1) →
  roundTripCircuitBreaker b (r, tr) ctxErr now1 ctxErr2 now2 =
  (r, tr, (leave b1 isProbe (Returned (breakerError r)) ctxErr2 now2).2).
Proof.
  intros Hc He. unfold roundTripCircuitBreaker. rewrite He. simpl. f_equal. f_equal.
  unfold finalError, breakerError. destruct r as [resp|e]; [|by destruct (errors_Is e _)].
  destruct (500 <=? hStatusCode resp); [rewrite not_circuit_open; by eauto|].
  destruct Hc as [->|[->| ->]]; done.
Qed.

(** [GetBody] never fails. *)
Definition rewinds (body : requestBody) : Prop := ∀ c get, body = Rewindable c get → ∀ i, get i = Some c.

(** Every attempt sends the whole body when [GetBody] works. *)
Lemma attempted_bodies cfg w body from n res bodies cl :
  attempted cfg w body from n res bodies cl → 0 <= from → n <= clientAttempts cfg body →
  rewinds body → Forall (λ b, b = bodyContent body) bodies.
Proof.
  intros [Hn Hb _ _ _ _] Hf Hc Hget. apply Forall_lookup. intros i b Hi. pose proof (lookup_lt_Some _ _ _ Hi).
  rewrite (Hb i b Hi). unfold attemptBody. destruct (_ <=? 0) eqn:E; [done|]. bool_to_prop.
  destruct body as [|c get|c re]; [done|by rewrite (Hget c get eq_refl)|]. simpl in Hc. lia.
Qed.

Lemma executeRetries_spec cfg w body :
  let '(res, tr) := executeRetries cfg w body in
  attempted cfg w body 0 (clientAttempts cfg body) res (sent tr) (closedBodies tr).
Proof.
  assert (1 <= clientAttempts cfg body) as Hn.
  { unfold clientAttempts. destruct body; try lia; destruct (Attempts cfg <=? 0) eqn:E; bool_to_prop; lia. }
  unfold executeRetries.
  destruct (attemptLoop_spec cfg w body (Z.to_nat (clientAttempts cfg body - 1)) 0 trace0 (clientAttempts cfg body))
    as (res & tr & bodies & cl & -> & -> & -> & Hatt); [lia|lia|done].
Qed.

Lemma prepare_spec body body1 :
  prepareRequestBody body = inl body1 → bodyContent body1 = bodyContent body ∧ (rewinds body → rewinds body1).
Proof.
  unfold prepareRequestBody, rewinds.
  destruct body as [|c get|c [e|]]; [by intros [= <-]..|done|].
  destruct (_ <? _); intros [= <-]; [done|]. split; [done|]. by intros _ c' get [= <- <-].
Qed.

Lemma checkRateLimit_spec o key rd :
  let '(e, o1) := checkRateLimit o key rd in
  retryCfg o1 = retryCfg o ∧ circuitBreaker o1 = circuitBreaker o ∧ (e = None ∨ e = Some ErrRateLimited).
Proof.
  unfold checkRateLimit. destruct (rateLimiterFunc o) as [[]|]; [by auto..|].
  destruct (rateLimiter o) as [l|]; [|by auto]. destruct (lim_Allow l key rd) as [[] l']; simpl; auto.
Qed.

(** C29: the client. A request whose body cannot be read, that the limiter
    refuses or that the breaker rejects ends with that error and without an
    attempt. Otherwise at most [Attempts] attempts are made (one for a body
    that cannot be rewound), each one after a failure that allows a retry; the
    loop ends on every branch as the code says; the responses that are closed
    are exactly those that are not returned; and the breaker, for any
    implementation of it, hands on the result and is told of it. Every attempt
    sends the complete body as long as [GetBody] does not fail. *)
Theorem client_pipeline o w key body rd ctxErr now1 ctxErr2 now2 :
  contextError ctxErr2 →
  let '(res, tr, o') := RoundTrip o w key body rd ctxErr now1 ctxErr2 now2 in
  let idle e := res = inr e ∧ tr = trace0 in
  match prepareRequestBody body with
  | inr e => idle e ∧ o' = o
  | inl body1 =>
      match checkRateLimit o key rd with
      | (Some e, o1) => e = ErrRateLimited ∧ idle e ∧ circuitBreaker o' = circuitBreaker o
      | (None, o1) =>
          let made := attempted (retryCfg o) w body1 0 (clientAttempts (retryCfg o) body1)
                        res (sent tr) (closedBodies tr) in
          match circuitBreaker o with
          | None => made ∧ o' = o1
          | Some b =>
              match enter b ctxErr now1 with
              | (inl e, b1) => idle e ∧ circuitBreaker o' = Some b1
              | (inr isProbe, b1) =>
                  made ∧ circuitBreaker o' = Some (leave b1 isProbe (Returned (breakerError res)) ctxErr2 now2).2
              end
          end
      end
  end ∧
  (rewinds body → Forall (λ b, b = bodyContent body) (sent tr)).
Proof.
  intros Hctx. unfold RoundTrip. destruct (prepareRequestBody body) as [body1|e] eqn:Eb; [|by repeat split].
  apply prepare_spec in Eb as [Hcontent Hrew]. rewrite <-Hcontent.
  pose proof (checkRateLimit_spec o key rd) as Hlim.
  destruct (checkRateLimit o key rd) as [[e|] o1]; destruct Hlim as (Hcfg & Hcb & He).
  { destruct He as [?|[= ->]]; [done|]. repeat split; done. }
  rewrite Hcfg, Hcb. pose proof (executeRetries_spec (retryCfg o) w body1) as Hatt.
  destruct (executeRetries (retryCfg o) w body1) as [r tr].
  assert (rewinds body → Forall (λ b, b = bodyContent body1) (sent tr)) as Hbodies.
  { intros Hr. eapply attempted_bodies; [done|lia|lia|by apply Hrew]. }
  destruct (circuitBreaker o) as [b|]; [|done].
  destruct (enter b ctxErr now1) as [[e|isProbe] b1] eqn:Ee.
  - unfold roundTripCircuitBreaker. rewrite Ee. by repeat split.
  - by rewrite (breaker_transparent b r tr ctxErr now1 ctxErr2 now2 isProbe b1 Hctx Ee).
Qed.
End pipeline.

(** A request that is answered by the second attempt. *)
Definition retryOnce : Config := mkConfig 3 0 0 Constant None.
Definition flaky : clientWorld :=
  ClientWorld (λ i, inl (mkHttpResponse (if i =? 0 then 503 else 200) true)) (λ _, None) (λ _, false)
    (λ _, None) (λ _, f0) (λ _, []).
Definition client1 : clientOptions TokenBucketLimiter ConsecutiveBreaker :=
  ClientOptions retryOnce (Some (NewConsecutiveBreaker 1 Second [])) (Some (NewTokenBucket 5 Second 0)) None.
Definition payload1 : requestBody := Stream [Byte.x6f; Byte.x6b] None.

Lemma client_pipeline_witness :
  ∃ res tr o', RoundTrip client1 flaky "api" payload1 (at_ 1) None 1 None 2 = (res, tr, o') ∧
    res = inl (mkHttpResponse 200 true) ∧ length (sent tr) = 2%nat ∧ closedBodies tr = [0] ∧
    Forall (λ b, b = bodyContent payload1) (sent tr).
Proof.
  pose proof (client_pipeline client1 flaky "api" payload1 (at_ 1) None 1 None 2 (or_introl eq_refl)) as Hc.
  assert ((RoundTrip client1 flaky "api" payload1 (at_ 1) None 1 None 2).1.1 = inl (mkHttpResponse 200 true)) as Hres
    by reflexivity.
  assert (length (sent (RoundTrip client1 flaky "api" payload1 (at_ 1) None 1 None 2).1.2) = 2%nat) as Hlen
    by reflexivity.
  assert (closedBodies (RoundTrip client1 flaky "api" payload1 (at_ 1) None 1 None 2).1.2 = [0]) as Hcl
    by reflexivity.
  destruct (RoundTrip client1 flaky "api" payload1 (at_ 1) None 1 None 2) as [[res tr] o'].
  exists res, tr, o'. destruct Hc as [_ Hb]. split_and!; [done..|]. apply Hb. intros c get E. discriminate E.
Defined.

(** Unlike package retry, the client does not guard the conversion of the
    exponential wait: with a first wait of ten seconds and a cap of one minute
    the thirty-first retry does not wait at all. *)
Lemma client_wait_overflows :
  let cfg := mkConfig 40 (10 * Second) Minute Exponential None in
  computeRetryWait cfg 29 f0 = Minute ∧ computeRetryWait cfg 30 f0 < 0 ∧ computeWait cfg 30 f0 = Minute.
Proof. vm_compute. done. Qed.
