(* ===== verification/ClientTime.v ===== *)
(** The resilient HTTP client in time (httpclient/roundtripper.go): the contexts
    of the whole call and of the attempts, the waits between attempts, the
    metrics and the spans. The transport is a parameter that honours contexts;
    the clock of the client and the timers of the contexts go together. [RoundTrip]
    of HttpClient.v, in which the ends of contexts are given, is refined
    by the one below, in which they follow from deadlines. *)
From S2P Require Import Prelude Float64 Retry Consecutive Breaker TokenBucket RateLimit HttpClient.
#[local] Open Scope Z_scope.

(** ** Contexts *)

(** When a context ends, and with which error. *)
Definition context := option (Time * error).

(** [ctx.Err()] at a time. *)
Definition Err (c : context) (t : Time) : option error :=
  match c with Some (te, e) => if te <=? t then Some e else None | None => None end.

(** [context.WithTimeout] at a time: the deadline, unless the parent ends first. *)
Definition WithTimeout (c : context) (now : Time) (d : Duration) : context :=
  match c with
  | Some (te, e) => if te <=? now + d then c else Some (now + d, DeadlineExceeded)
  | None => Some (now + d, DeadlineExceeded)
  end.

(** A context that its [CancelFunc] ends, if it has not ended. *)
Definition cancelAt (c : context) (t : Time) : context :=
  match c with
  | Some (te, e) => if te <=? t then c else Some (t, Canceled)
  | None => Some (t, Canceled)
  end.

Lemma cancelAt_ended c t : Err (cancelAt c t) t ≠ None.
Proof.
  destruct c as [[te e]|]; simpl; [|by rewrite Z.leb_refl].
  destruct (te <=? t) eqn:E; simpl; [by rewrite E|by rewrite Z.leb_refl].
Qed.

Lemma WithTimeout_ends c now d : ∃ te e, WithTimeout c now d = Some (te, e) ∧ te <= now + d.
Proof.
  destruct c as [[te e]|]; simpl; [destruct (te <=? now + d) eqn:E|]; bool_to_prop; eauto with lia.
Qed.

(** ** Attempts in time *)

(** The transport of an attempt that starts at a time with a context: when it
    returns, and what. It returns when the context ends. *)
Class Transport := {
  serve : Z → Time → context → Time * (httpResponse + error);
  serve_after : ∀ i t c, t <= (serve i t c).1;
  serve_ctx : ∀ i t te e, (serve i t (Some (te, e))).1 <= Z.max t te;
}.

(** What an attempt does to the tracer and the metrics. *)
Inductive event :=
| SpanStart (name : string) | Inject
| RequestsInc | DurationObserve (d : Duration)
| RecordError (e : error) | FailuresInc | SpanEnd | CancelAttempt.

(** An attempt that has been made: its times, the reply of the transport,
    whether its own context has ended and the caller's has not, and the error
    of the wait after it. *)
Record attemptLog := Attempt {
  started : Time; finished : Time; reply : httpResponse + error; alone : bool; waitErr : option error;
}.

Definition failedReply (r : httpResponse + error) : bool :=
  match r with inr _ => true | inl r => 500 <=? hStatusCode r end.

Section timed.
Context `{Transport} (cfg : Config) (perAttemptTimeout : Duration) (traced : bool) (method : string).
Context (rnd : Z → float64) (tie : Z → bool).

Definition attemptContext (ctx : context) (now : Time) : context :=
  if 0 <? perAttemptTimeout then WithTimeout ctx now perAttemptTimeout else ctx.

(** The events of an attempt; the deferred calls run in reverse order. *)
Definition attemptEvents (d : Duration) (r : httpResponse + error) : list event :=
  let when (b : bool) l : list event := if b then l else [] in
  when traced [SpanStart ("HTTP " +:+ method); Inject] ++ [RequestsInc; DurationObserve d] ++
  match r with inr e => when traced [RecordError e] | inl _ => [] end ++
  when (failedReply r) [FailuresInc] ++ when traced [SpanEnd] ++
  when (0 <? perAttemptTimeout) [CancelAttempt].

(** [performAttempt]. *)
Definition timedAttempt (ctx : context) (attempt : Z) (now : Time) : attemptLog * attemptResult * list event :=
  let c := attemptContext ctx now in
  let '(t, r) := serve attempt now c in
  let ended := match Err c t, Err ctx t with Some _, None => true | _, _ => false end in
  (Attempt now t r ended None,
   match r with
   | inr e => Failed None (if ended then ErrAttemptTimeout else e)
   | inl r => if 500 <=? hStatusCode r
              then Failed (Some r) (serverError "httpclient: server error HTTP " (hStatusCode r))
              else Done r
   end,
   attemptEvents (time_Sub t now) r).

(** [backoffWait]: the timer or the end of the context; [tie] decides when both
    are ready. *)
Definition backoffWait (ctx : context) (attempt : Z) (now : Time) : option error * Time :=
  let wait := computeRetryWait cfg attempt (rnd attempt) in
  if wait <=? 0 then (None, now)
  else match ctx with
       | Some (te, e) =>
           if (te <? now + wait) || ((te =? now + wait) && tie attempt) then (Some e, Z.max now te)
           else (None, now + wait)
       | None => (None, now + wait)
       end.

(** The outcome of the loop: the result, the time, the events, the attempts,
    and the error if it was stopped before an attempt. *)
Record outcome := Outcome {
  result : httpResponse + error; at_ : Time; events : list event; log : list attemptLog; stopped : option error;
}.

Definition consOutcome (a : attemptLog) (evs : list event) (o : outcome) : outcome :=
  Outcome (result o) (at_ o) (evs ++ events o) (a :: log o) (stopped o).
Definition waited (a : attemptLog) (e : error) : attemptLog :=
  Attempt (started a) (finished a) (reply a) (alone a) (Some e).

(** The loop of [executeRetries]. *)
Fixpoint timedLoop (ctx : context) (left : nat) (attempt : Z) (now : Time) : outcome :=
  match Err ctx now with
  | Some e => Outcome (inr e) now [] [] (Some e)
  | None =>
      let '(a, r, evs) := timedAttempt ctx attempt now in
      let t := finished a in
      match r with
      | Done r => Outcome (inl r) t evs [a] None
      | Failed r e =>
          if negb (shouldRetry cfg e) then Outcome (lastResult r e) t evs [a] None
          else
            match left with
            | O => Outcome (lastResult r e) t evs [a] None
            | S left' =>
                match backoffWait ctx attempt t with
                | (Some e', t') => Outcome (inr e') t' evs [waited a e'] None
                | (None, t') => consOutcome a evs (timedLoop ctx left' (attempt + 1) t')
                end
            end
      end
  end.

(** The context of the whole call. *)
Definition totalContext (totalTimeout : Duration) (req : context) (now : Time) : context :=
  if 0 <? totalTimeout then WithTimeout req now totalTimeout else req.

(** ** Refinement *)

(** A world of HttpClient.v that goes as the attempts from [from] on went. *)
Definition agrees (w : clientWorld) (from : Z) (o : outcome) : Prop :=
  (∀ i a, log o !! i = Some a →
     let j := from + Z.of_nat i in
     transport w j = reply a ∧ ctxErrBefore w j = None ∧ attemptCtxEnded w j = alone a ∧
     ctxErrWaiting w j = waitErr a ∧ randoms w j = rnd j) ∧
  ∀ e, stopped o = Some e → ctxErrBefore w (from + Z.of_nat (length (log o))) = Some e.

Lemma agrees_tail w from a evs o : agrees w from (consOutcome a evs o) → agrees w (from + 1) o.
Proof.
  intros [Hl Hs]. split.
  - intros i b Hb. replace (from + 1 + Z.of_nat i) with (from + Z.of_nat (S i)) by lia. by apply (Hl (S i)).
  - intros e He. replace (from + 1 + Z.of_nat (length (log o))) with (from + Z.of_nat (S (length (log o)))) by lia.
    by apply Hs.
Qed.

Lemma timedAttempt_agrees w ctx attempt now a r evs : timedAttempt ctx attempt now = (a, r, evs) →
  transport w attempt = reply a → attemptCtxEnded w attempt = alone a → performAttempt w attempt = r.
Proof.
  unfold timedAttempt, performAttempt. destruct (serve _ _ _) as [t rep]. intros [= <- <- <-] -> ->. done.
Qed.

Lemma timedAttempt_waitErr ctx attempt now a r evs : timedAttempt ctx attempt now = (a, r, evs) → waitErr a = None.
Proof. unfold timedAttempt. destruct (serve _ _ _) as [t rep]. by intros [= <- <- <-]. Qed.

Lemma timedLoop_refines w body ctx left attempt now tr : agrees w attempt (timedLoop ctx left attempt now) →
  (attemptLoop cfg w body left attempt tr).1 = result (timedLoop ctx left attempt now) ∧
  length (sent (attemptLoop cfg w body left attempt tr).2) =
    (length (sent tr) + length (log (timedLoop ctx left attempt now)))%nat.
Proof.
  revert attempt now tr. induction left as [|left IH]; intros attempt now tr; cbn [timedLoop attemptLoop];
    (destruct (Err ctx now) as [e|] eqn:Ec;
     [intros [_ Hs]; specialize (Hs e eq_refl); cbn in Hs; rewrite Z.add_0_r in Hs; rewrite Hs; cbn; split; [done|lia]|]);
    destruct (timedAttempt ctx attempt now) as [[a r] evs] eqn:Ea; cbv zeta.
  - assert (∀ res, agrees w attempt (Outcome res (finished a) evs [a] None) →
      ctxErrBefore w attempt = None ∧ performAttempt w attempt = r) as Hhd.
    { intros res [Hl _]. destruct (Hl 0%nat a eq_refl) as (H1 & H2 & H3 & _). rewrite Z.add_0_r in *.
      eauto using timedAttempt_agrees. }
    destruct r as [r|r e]; [|destruct (shouldRetry cfg e) eqn:Es]; cbn [negb]; intros Hw;
      destruct (Hhd _ Hw) as [-> ->]; rewrite ?Es; cbn; rewrite length_app; cbn; split; done || lia.
  - assert (∀ o, agrees w attempt o → (∃ a' l, log o = a' :: l ∧ reply a' = reply a ∧ alone a' = alone a) →
      ctxErrBefore w attempt = None ∧ performAttempt w attempt = r ∧ randoms w attempt = rnd attempt) as Hhd.
    { intros o [Hl _] (a' & l & El & E1 & E2). rewrite El in Hl. destruct (Hl 0%nat a' eq_refl) as (H1 & H2 & H3 & _ & H5).
      rewrite Z.add_0_r in *. rewrite E1 in H1. rewrite E2 in H3. eauto using timedAttempt_agrees. }
    destruct r as [r|r e]; [|destruct (shouldRetry cfg e) eqn:Es]; cbn [negb].
    1,3: intros Hw; destruct (Hhd _ Hw ltac:(eexists a, _; split_and!; reflexivity)) as (-> & -> & _); rewrite ?Es; cbn; rewrite length_app; cbn; split; done || lia.
    destruct (backoffWait ctx attempt (finished a)) as [[e'|] t'] eqn:Eb; intros Hw.
    + destruct (Hhd _ Hw ltac:(eexists (waited a e'), _; split_and!; reflexivity)) as (-> & -> & ->).
      destruct (proj1 Hw 0%nat (waited a e') eq_refl) as (_ & _ & _ & Hwt & _). rewrite Z.add_0_r in Hwt. cbn in Hwt.
      rewrite Es, Hwt. cbn [negb]. unfold backoffWait in Eb. destruct (_ <=? 0) eqn:Ew; [done|].
      rewrite (proj2 (Z.ltb_lt _ _)) by (bool_to_prop; lia). cbn. rewrite length_app. cbn. split; [done|lia].
    + destruct (Hhd _ Hw ltac:(eexists a, _; split_and!; reflexivity)) as (-> & -> & ->).
      destruct (proj1 Hw 0%nat a eq_refl) as (_ & _ & _ & Hwt & _). rewrite Z.add_0_r in Hwt.
      rewrite (timedAttempt_waitErr _ _ _ _ _ _ Ea) in Hwt. apply agrees_tail in Hw. rewrite Es, Hwt. cbn [negb].
      cbv zeta. match goal with |- context [attemptLoop cfg w body left (attempt + 1) ?tr'] =>
        destruct (IH (attempt + 1) t' tr' Hw) as [Hr Hn] end.
      destruct (0 <? _); cbn [result log consOutcome length]; rewrite Hr, Hn; cbn [sent]; rewrite length_app; cbn; (split; [done|lia]).
Qed.

(** The world a run shows. *)
Definition worldOf (o : outcome) (leftover : Z → bytes) : clientWorld :=
  let entry (j : Z) := log o !! Z.to_nat j in
  ClientWorld
    (λ j, from_option reply (inr Canceled) (entry j))
    (λ j, if j <? Z.of_nat (length (log o)) then None else stopped o)
    (λ j, from_option alone false (entry j))
    (λ j, from_option waitErr None (entry j)) rnd leftover.

Lemma worldOf_agrees o lo : agrees (worldOf o lo) 0 o.
Proof.
  split; unfold worldOf; cbn [transport ctxErrBefore attemptCtxEnded ctxErrWaiting randoms]; cbv zeta.
  - intros i a Ha. rewrite Z.add_0_l, Nat2Z.id, Ha. cbn [from_option].
    rewrite (proj2 (Z.ltb_lt _ _)) by (apply lookup_lt_Some in Ha; lia). done.
  - intros e He. by rewrite Z.add_0_l, Z.ltb_irrefl.
Qed.

(** ** Times *)

(** A context does not outlive its parent. *)
Lemma attemptContext_parent te e now :
  ∃ te' e', attemptContext (Some (te, e)) now = Some (te', e') ∧ te' <= te.
Proof.
  unfold attemptContext. destruct (0 <? _); cbn; [|eauto with lia].
  destruct (te <=? now + perAttemptTimeout) eqn:E; bool_to_prop; eauto with lia.
Qed.

Lemma timedAttempt_times ctx attempt now a r evs : timedAttempt ctx attempt now = (a, r, evs) →
  started a = now ∧ now <= finished a ∧
  (0 < perAttemptTimeout → finished a <= now + perAttemptTimeout) ∧
  (∀ te e, ctx = Some (te, e) → finished a <= Z.max now te).
Proof.
  unfold timedAttempt. pose proof (serve_after attempt now (attemptContext ctx now)) as Hge.
  pose proof (serve_ctx attempt now) as Hc.
  destruct (serve attempt now (attemptContext ctx now)) as [t rep] eqn:Es. intros [= <- <- <-]. cbn in *.
  split_and!; [done|done|..].
  - intros Hp. unfold attemptContext in Es. rewrite (proj2 (Z.ltb_lt _ _) Hp) in Es.
    destruct (WithTimeout_ends ctx now perAttemptTimeout) as (te & e & Ew & Hte). rewrite Ew in Es.
    specialize (Hc te e). rewrite Es in Hc. cbn in Hc. lia.
  - intros te e ->. destruct (attemptContext_parent te e now) as (te' & e' & Ew & Hte). rewrite Ew in Es.
    specialize (Hc te' e'). rewrite Es in Hc. cbn in Hc. lia.
Qed.

Lemma backoffWait_times ctx attempt now r t : backoffWait ctx attempt now = (r, t) →
  now <= t ∧ ∀ te e, ctx = Some (te, e) → t <= Z.max now te.
Proof.
  unfold backoffWait. set (wait := computeRetryWait _ _ _). intros Hb.
  destruct (wait <=? 0) eqn:Ew; bool_to_prop; [simplify_eq; split; [lia|intros; lia]|].
  destruct ctx as [[te e]|]; [|simplify_eq; split; [lia|done]].
  destruct (te <? now + wait) eqn:E1; cbn in Hb; [simplify_eq; split; [lia|intros ? ? [= <- <-]; lia]|].
  bool_to_prop. destruct (_ && _); simplify_eq; (split; [lia|intros ? ? [= <- <-]; lia]).
Qed.

Definition timely (a : attemptLog) : Prop :=
  started a <= finished a ∧ (0 < perAttemptTimeout → finished a <= started a + perAttemptTimeout).

Lemma timedLoop_times ctx left attempt now :
  let o := timedLoop ctx left attempt now in
  now <= at_ o ∧ (∀ te e, ctx = Some (te, e) → at_ o <= Z.max now te) ∧ Forall timely (log o) ∧
  (length (log o) <= S left)%nat.
Proof.
  revert attempt now. induction left as [|left IH]; intros attempt now; cbn [timedLoop]; cbv zeta;
    (destruct (Err ctx now); [cbn; split_and!; [lia|intros; lia|done|lia]|]);
    destruct (timedAttempt ctx attempt now) as [[a r] evs] eqn:Ea;
    destruct (timedAttempt_times _ _ _ _ _ _ Ea) as (E0 & Hge & Hper & Hctx);
    assert (timely a) as Hta by (unfold timely; rewrite E0; split; [lia|intros; lia]);
    destruct r as [r|r e]; [|destruct (shouldRetry cfg e)| |destruct (shouldRetry cfg e)];
    cbn [negb result at_ log length]; try (split_and!; [lia|done|by apply Forall_singleton|lia]).
  destruct (backoffWait ctx attempt (finished a)) as [[e'|] t'] eqn:Eb;
    destruct (backoffWait_times _ _ _ _ _ Eb) as [Hb1 Hb2]; cbn.
  - split_and!; [lia| |by apply Forall_singleton|lia].
    intros te ee E. specialize (Hb2 te ee E). specialize (Hctx te ee E). lia.
  - destruct (IH (attempt + 1) t') as (H1 & H2 & H3 & H4). split_and!; [lia| |by constructor|lia].
    intros te ee E. specialize (Hb2 te ee E). specialize (Hctx te ee E). specialize (H2 te ee E). lia.
Qed.

(** ** Metrics and spans *)

Definition isRequest (e : event) : bool := match e with RequestsInc => true | _ => false end.
Definition isFailure (e : event) : bool := match e with FailuresInc => true | _ => false end.
Definition isSpanStart (e : event) : bool := match e with SpanStart _ => true | _ => false end.
Definition isSpanEnd (e : event) : bool := match e with SpanEnd => true | _ => false end.
Definition isCancel (e : event) : bool := match e with CancelAttempt => true | _ => false end.
Definition count (p : event → bool) (l : list event) : nat := length (List.filter p l).

Lemma count_app p l l' : count p (l ++ l') = (count p l + count p l')%nat.
Proof. unfold count. by rewrite List.filter_app, length_app. Qed.

(** The counters, spans and cancellations of a run, by its attempts. *)
Definition balanced (evs : list event) (l : list attemptLog) : Prop :=
  count isRequest evs = length l ∧
  count isFailure evs = length (List.filter (λ a, failedReply (reply a)) l) ∧
  count isSpanStart evs = (if traced then length l else 0%nat) ∧
  count isSpanEnd evs = (if traced then length l else 0%nat) ∧
  count isCancel evs = (if 0 <? perAttemptTimeout then length l else 0%nat).

Lemma timedAttempt_balanced ctx attempt now a r evs : timedAttempt ctx attempt now = (a, r, evs) → balanced evs [a].
Proof.
  unfold timedAttempt. destruct (serve _ _ _) as [t rep]. intros [= <- <- <-]. unfold balanced, attemptEvents. cbn.
  destruct rep as [rep|e], traced, (0 <? perAttemptTimeout); cbn; try done; destruct (500 <=? hStatusCode rep); done.
Qed.

Lemma balanced_app evs evs' l l' : balanced evs l → balanced evs' l' → balanced (evs ++ evs') (l ++ l').
Proof.
  unfold balanced. rewrite !count_app, !length_app, !List.filter_app, !length_app.
  intros (-> & -> & -> & -> & ->) (-> & -> & -> & -> & ->). destruct traced, (0 <? _); lia.
Qed.

Lemma timedLoop_balanced ctx left attempt now :
  let o := timedLoop ctx left attempt now in balanced (events o) (log o).
Proof.
  revert attempt now. induction left as [|left IH]; intros attempt now; cbn [timedLoop]; cbv zeta;
    (destruct (Err ctx now); [unfold balanced; by destruct traced, (0 <? _)|]);
    destruct (timedAttempt ctx attempt now) as [[a r] evs] eqn:Ea;
    pose proof (timedAttempt_balanced _ _ _ _ _ _ Ea) as Hb;
    destruct r as [r|r e]; [|destruct (shouldRetry cfg e)| |destruct (shouldRetry cfg e)]; cbn [negb events log]; try done.
  destruct (backoffWait _ _ _) as [[e'|] t']; cbn [events log consOutcome]; [|by apply (balanced_app evs _ [a])].
  unfold balanced in *. cbn in *. by destruct (failedReply (reply a)).
Qed.

(** The context the body of a response is read under: that of its attempt,
    after [performAttempt] and [RoundTrip] have cancelled what they created. *)
Definition bodyContext (totalTimeout : Duration) (req : context) (now : Time) (a : attemptLog) (t : Time) : context :=
  let c := attemptContext (totalContext totalTimeout req now) (started a) in
  let c' := if 0 <? perAttemptTimeout then cancelAt c (finished a) else c in
  if 0 <? totalTimeout then cancelAt c' t else c'.

(** With either timeout, a response is returned with its context ended: net/http
    refuses to read the rest of its body. *)
Lemma body_context_ended totalTimeout req now a t :
  0 < totalTimeout ∨ 0 < perAttemptTimeout → finished a <= t →
  Err (bodyContext totalTimeout req now a t) t ≠ None.
Proof.
  intros Hp Hle. unfold bodyContext. cbv zeta. destruct (0 <? totalTimeout) eqn:Et; [apply cancelAt_ended|].
  bool_to_prop. rewrite (proj2 (Z.ltb_lt 0 perAttemptTimeout)) by lia.
  set (c := attemptContext _ _). pose proof (cancelAt_ended c (finished a)) as Hc.
  destruct (cancelAt c (finished a)) as [[te e]|]; cbn in *; [|done].
  destruct (te <=? finished a) eqn:E; [|done]. bool_to_prop. by rewrite (proj2 (Z.leb_le _ _)) by lia.
Qed.
End timed.

(** ** The whole call *)

Section call.
Context {L B : Type} `{Limiter L} `{Breaker B} `{Transport}.
Context (perAttemptTimeout : Duration) (traced : bool) (method : string) (rnd : Z → float64) (tie : Z → bool).
Implicit Types o : clientOptions L B.

(** When [prepareRequestBody] has read a stream, which takes [readFor], and when the limiter
    has answered, which takes [limitFor]: neither knows the contexts. *)
Definition bodyReadAt (body : requestBody) (readFor : Duration) (now : Time) : Time :=
  match body with Stream _ _ => now + readFor | _ => now end.
Definition limiterAt o (limitFor : Duration) (now : Time) : Time :=
  match rateLimiterFunc o, rateLimiter o with None, None => now | _, _ => now + limitFor end.

Definition refusedAt (e : error) (t : Time) : outcome := Outcome (inr e) t [] [] None.

(** [roundTripCircuitBreaker], whose function makes the attempts [run]; the breaker
    itself takes no time. *)
Definition timedBreaker (b : B) (ctx : context) (now : Time) (run : outcome) : outcome * B :=
  match enter b (Err ctx now) now with
  | (inl e, b1) => (refusedAt e now, b1)
  | (inr isProbe, b1) =>
      let r := result run in
      let '(res, b2) := leave b1 isProbe (Returned (breakerError r)) (Err ctx (at_ run)) (at_ run) in
      (Outcome (match res with
                | Ret (Some e) =>
                    if errors_Is e ErrCircuitOpen then inr e
                    else match r with inl resp => inl resp | inr _ => inr e end
                | _ => r
                end) (at_ run) (events run) (log run) (stopped run), b2)
  end.

(** [RoundTrip]: the total timeout runs from when the body has been read. *)
Definition timedRoundTrip o (totalTimeout : Duration) (key : string) (body : requestBody) (rd : reads)
    (readFor limitFor : Duration) (req : context) (now : Time) : outcome * clientOptions L B :=
  let t0 := bodyReadAt body readFor now in
  match prepareRequestBody body with
  | inr e => (refusedAt e t0, o)
  | inl body1 =>
      let ctx := totalContext totalTimeout req t0 in
      let t1 := limiterAt o limitFor t0 in
      match checkRateLimit o key rd with
      | (Some e, o1) => (refusedAt e t1, o1)
      | (None, o1) =>
          let run := timedLoop (retryCfg o1) perAttemptTimeout traced method rnd tie ctx
                       (Z.to_nat (clientAttempts (retryCfg o1) body1 - 1)) 0 t1 in
          match circuitBreaker o1 with
          | None => (run, o1)
          | Some b =>
              let '(out, b1) := timedBreaker b ctx t1 run in
              (out, ClientOptions (retryCfg o1) (Some b1) (rateLimiter o1) (rateLimiterFunc o1))
          end
      end
  end.

(** What holds of a call that ends with an outcome, from the time [t1] on, under a context. *)
Record inTime (ctx : context) (t1 : Time) (attempts : Z) (out : outcome) : Prop := {
  it_after : t1 <= at_ out;
  it_ctx : ∀ te e, ctx = Some (te, e) → at_ out <= Z.max t1 te;
  it_attempts : Forall (timely perAttemptTimeout) (log out);
  it_count : Z.of_nat (length (log out)) <= attempts;
  it_balanced : balanced perAttemptTimeout traced (events out) (log out);
}.

Lemma refused_inTime ctx t n e : 0 <= n → inTime ctx t n (refusedAt e t).
Proof. intros Hn. constructor; cbn; try done; try (intros; lia). unfold balanced. by destruct traced, (0 <? _). Qed.

Lemma clientAttempts_pos cfg body : 1 <= clientAttempts cfg body.
Proof. unfold clientAttempts. destruct body; [case_match; bool_to_prop; lia..|lia]. Qed.

Lemma loop_inTime cfg ctx body t :
  inTime ctx t (clientAttempts cfg body)
    (timedLoop cfg perAttemptTimeout traced method rnd tie ctx (Z.to_nat (clientAttempts cfg body - 1)) 0 t).
Proof.
  pose proof (timedLoop_times cfg perAttemptTimeout traced method rnd tie ctx (Z.to_nat (clientAttempts cfg body - 1)) 0 t) as Ht.
  cbv zeta in Ht. destruct Ht as (Ha & Hc & Hp & Hn). pose proof (clientAttempts_pos cfg body) as Hat.
  constructor; [done..| |]; [lia|apply timedLoop_balanced].
Qed.

(** The parts of [timedRoundTrip] in time. *)
Lemma timedRoundTrip_inTime o totalTimeout key body body1 rd readFor limitFor req now :
  prepareRequestBody body = inl body1 →
  let t0 := bodyReadAt body readFor now in
  inTime (totalContext totalTimeout req t0) (limiterAt o limitFor t0) (clientAttempts (retryCfg o) body1)
    (timedRoundTrip o totalTimeout key body rd readFor limitFor req now).1.
Proof.
  intros Eb t0. unfold timedRoundTrip. fold t0. rewrite Eb. pose proof (clientAttempts_pos (retryCfg o) body1).
  pose proof (checkRateLimit_spec o key rd) as Hs. destruct (checkRateLimit o key rd) as [[e|] o1].
  { apply refused_inTime. lia. }
  destruct Hs as (-> & _). pose proof (loop_inTime (retryCfg o) (totalContext totalTimeout req t0) body1 (limiterAt o limitFor t0)) as Hl.
  destruct (circuitBreaker o1) as [b|]; [|done]. unfold timedBreaker.
  destruct (enter b _ _) as [[e|isProbe] b1]; [apply refused_inTime; lia|].
  destruct (leave b1 _ _ _ _). destruct Hl. by constructor.
Qed.

(** The call is one of HttpClient.v in the world its run shows. *)
Lemma timedRoundTrip_refines o totalTimeout key body rd readFor limitFor req now lo :
  let t0 := bodyReadAt body readFor now in let t1 := limiterAt o limitFor t0 in
  let ctx := totalContext totalTimeout req t0 in
  let '(out, o') := timedRoundTrip o totalTimeout key body rd readFor limitFor req now in
  ∃ tr, RoundTrip o (worldOf rnd out lo) key body rd (Err ctx t1) t1 (Err ctx (at_ out)) (at_ out) = (result out, tr, o') ∧
    length (sent tr) = length (log out).
Proof.
  intros t0 t1 ctx. unfold timedRoundTrip, RoundTrip. fold t0 t1 ctx.
  destruct (prepareRequestBody body) as [body1|e]; [|by exists trace0].
  destruct (checkRateLimit o key rd) as [[e|] o1]; [by exists trace0|].
  set (run := timedLoop (retryCfg o1) perAttemptTimeout traced method rnd tie ctx _ 0 t1).
  destruct (timedLoop_refines (retryCfg o1) perAttemptTimeout traced method rnd tie (worldOf rnd run lo) body1 ctx
    (Z.to_nat (clientAttempts (retryCfg o1) body1 - 1)) 0 t1 trace0 (worldOf_agrees rnd run lo)) as [Hres Hsent].
  fold run in Hres, Hsent. destruct (circuitBreaker o1) as [b|].
  - unfold timedBreaker, roundTripCircuitBreaker. destruct (enter b _ _) as [[e|isProbe] b1]; [by exists trace0|].
    destruct (leave b1 _ _ _ _) as [res b2] eqn:El.
    change (worldOf rnd (Outcome _ (at_ run) (events run) (log run) (stopped run)) lo) with (worldOf rnd run lo).
    unfold executeRetries. destruct (attemptLoop _ _ _ _ _ _) as [r tr]. cbn in Hres, Hsent. subst r.
    cbn [at_ result log]. rewrite El. by exists tr.
  - unfold executeRetries. destruct (attemptLoop _ _ _ _ _ _) as [r tr]. cbn in Hres, Hsent. subst r. by exists tr.
Qed.

(** ** The claim *)

(** C30: [RoundTrip] in time, for any limiter and breaker, the breaker taking no time of its own, and any transport
    that returns when its context ends. A body that is a stream is read before there is a deadline, for as long as
    the read takes, and the limiter is not bounded by the deadlines either. From when the body has been read, the call ends within the
    total timeout, and within the caller's context, unless the limiter takes longer; no attempt exceeds the per-attempt timeout; at most the
    configured attempts are made. [Requests] counts the attempts and [Failures] those that failed; every span that
    is started is ended and every attempt's context cancelled. The result is the one [RoundTrip] of
    HttpClient.v gives in the world the run shows. *)
Theorem client_deadlines o totalTimeout key body rd readFor limitFor req now lo :
  0 <= readFor → 0 <= limitFor →
  let '(out, o') := timedRoundTrip o totalTimeout key body rd readFor limitFor req now in
  let t0 := bodyReadAt body readFor now in
  let t1 := limiterAt o limitFor t0 in
  let ctx := totalContext totalTimeout req t0 in
  now <= t0 <= at_ out ∧ (∀ c re, body = Stream c re → now + readFor <= at_ out) ∧
  (0 < totalTimeout → at_ out <= Z.max t1 (t0 + totalTimeout)) ∧
  (∀ te e, req = Some (te, e) → at_ out <= Z.max t1 te) ∧
  Forall (timely perAttemptTimeout) (log out) ∧
  match prepareRequestBody body with
  | inl body1 => Z.of_nat (length (log out)) <= clientAttempts (retryCfg o) body1
  | inr _ => log out = []
  end ∧
  balanced perAttemptTimeout traced (events out) (log out) ∧
  ∃ tr, RoundTrip o (worldOf rnd out lo) key body rd (Err ctx t1) t1 (Err ctx (at_ out)) (at_ out) = (result out, tr, o') ∧
    length (sent tr) = length (log out).
Proof.
  intros Hr Hl. pose proof (timedRoundTrip_refines o totalTimeout key body rd readFor limitFor req now lo) as Href. cbv zeta in Href.
  assert (now <= bodyReadAt body readFor now) as Hread by (unfold bodyReadAt; destruct body; lia).
  assert (bodyReadAt body readFor now <= limiterAt o limitFor (bodyReadAt body readFor now)) as Hlim by (unfold limiterAt; repeat case_match; lia).
  assert (∀ c re, body = Stream c re → bodyReadAt body readFor now = now + readFor) as Hs by by intros c re ->.
  destruct (prepareRequestBody body) as [body1|e] eqn:Eb.
  - pose proof (timedRoundTrip_inTime o totalTimeout key body body1 rd readFor limitFor req now Eb) as Ht. cbv zeta in Ht.
    destruct (timedRoundTrip _ _ _ _ _ _ _ _ _) as [out o']. cbn [fst] in Ht. destruct Ht as [Ha Hc Hp Hn Hb].
    split_and!; try done; [lia| | |].
    + intros c re E. rewrite <- (Hs c re E). lia.
    + intros Hpos. unfold totalContext in Hc. rewrite (proj2 (Z.ltb_lt _ _) Hpos) in Hc.
      destruct (WithTimeout_ends req (bodyReadAt body readFor now) totalTimeout) as (te & e & Ew & Hte).
      specialize (Hc te e Ew). lia.
    + intros te e ->. unfold totalContext in Hc. destruct (0 <? totalTimeout) eqn:Et; [|by apply (Hc te e)].
      cbn [WithTimeout] in Hc. destruct (te <=? _) eqn:E; [by apply (Hc te e)|].
      specialize (Hc _ _ eq_refl). bool_to_prop. lia.
  - unfold timedRoundTrip in *. rewrite Eb in *. cbn [at_ refusedAt log events] in *. split_and!; try done; try lia.
    + intros c re E. rewrite <- (Hs c re E). lia.
    + unfold balanced. by destruct traced, (0 <? _).
Qed.
End call.

(** A transport that answers 503 after 30 ms and then 200, unless the context
    ends before. *)
#[export] Instance slowTransport : Transport.
Proof.
  refine {|
    serve i t c :=
      let r := if i =? 0 then inl (mkHttpResponse 503 true) else inl (mkHttpResponse 200 true) in
      match c with
      | Some (te, e) => if t + 30000000 <=? te then (t + 30000000, r) else (Z.max t te, inr e)
      | None => (t + 30000000, r)
      end |}.
  - intros i t [[te e]|]; [destruct (_ <=? te)|]; cbn; lia.
  - intros i t te e. destruct (_ <=? te) eqn:E; bool_to_prop; cbn; lia.
Defined.

Definition twoTries : Config := mkConfig 3 (20000000) (100000000) Constant None.

Definition timedClient : clientOptions TokenBucketLimiter ConsecutiveBreaker :=
  ClientOptions twoTries (Some (NewConsecutiveBreaker 5 Second [])) (Some (NewTokenBucket 5 Second 0)) None.

Example timed_run :
  let out := (timedRoundTrip Second true "GET" (λ _, f0) (λ _, false) timedClient (2 * Second) "api" NoBody
                (TokenBucket.at_ 0) 0 0 None 0).1 in
  result out = inl (mkHttpResponse 200 true) ∧ at_ out = 80000000 ∧ length (log out) = 2%nat ∧
  count isFailure (events out) = 1%nat.
Proof. vm_compute. done. Qed.

(** A total timeout of one second, and a call of more than three: the body is read for three seconds first. *)
Example slow_body :
  let out := (timedRoundTrip Second true "GET" (λ _, f0) (λ _, false) timedClient Second "api" payload1
                (TokenBucket.at_ 0) (3 * Second) 0 None 0).1 in
  result out = inl (mkHttpResponse 200 true) ∧ at_ out = 3 * Second + 80000000.
Proof. vm_compute. done. Qed.

Lemma client_deadlines_witness :
  let out := (timedRoundTrip Second true "GET" (λ _, f0) (λ _, false) timedClient (60 * 1000000) "api" payload1
                (TokenBucket.at_ 0) (5 * 1000000) 0 None 0).1 in
  5 * 1000000 <= at_ out ∧ at_ out <= 65 * 1000000 ∧ result out = inr DeadlineExceeded ∧
  Forall (timely Second) (log out) ∧ log out ≠ [].
Proof.
  intros out.
  pose proof (client_deadlines Second true "GET" (λ _, f0) (λ _, false) timedClient (60 * 1000000) "api" payload1
    (TokenBucket.at_ 0) (5 * 1000000) 0 None 0 (λ _, []) ltac:(lia) ltac:(lia)) as Hc.
  assert (timedRoundTrip Second true "GET" (λ _, f0) (λ _, false) timedClient (60 * 1000000) "api" payload1
    (TokenBucket.at_ 0) (5 * 1000000) 0 None 0 = (out, (timedRoundTrip Second true "GET" (λ _, f0) (λ _, false) timedClient
      (60 * 1000000) "api" payload1 (TokenBucket.at_ 0) (5 * 1000000) 0 None 0).2)) as E by (vm_compute; reflexivity).
  rewrite E in Hc. cbv zeta in Hc. destruct Hc as (_ & H1 & H2 & _ & H4 & _).
  split; [exact (H1 _ _ eq_refl)|]. split; [apply H2; lia|]. split; [by vm_compute|]. split; [exact H4|by vm_compute].
Defined.
