(* ===== verification/Options.v ===== *)
(** Components from functional options: the HTTP client (httpclient/options.go,
    httpclient/client.go), the rate limiting middleware
    (ratelimit/ratelimit.go, ratelimit/realip.go), the worker pool
    (workerpool/workerpool.go), the recovery middlewares
    (recovery/recovery.go, ginmw/recovery.go), the access log
    (logger/middleware.go), the tracer provider (telemetry/telemetry.go) and
    database connections (db/db.go).
    A value that may be nil is an [option], and so is an element of a list of options. *)
From S2P Require Import Prelude Text Float64 NetIP RealIP Retry HttpClient.
#[local] Open Scope Z_scope.

(** ** Collaborators *)

(** The implementations that the packages fall back to, and those of a caller. *)
Inductive counter := NoopCounter | CounterOf (id : nat).
Inductive gauge := NoopGauge | GaugeOf (id : nat).
Inductive histogram := NoopHistogram | HistogramOf (id : nat).
Inductive clockSource := RealClock | ClockOf (id : nat).
Inductive logSink := DefaultLogger | StderrLogger | LoggerOf (id : nat).
Inductive roundTripper := DefaultTransport | TransportOf (id : nat).

(** [if x == nil { x = fallback }]. *)
Definition orElse {A} (x : option A) (fallback : A) : option A := match x with Some a => Some a | None => Some fallback end.

Lemma orElse_some {A} (x : option A) a : orElse x a ≠ None.
Proof. by destruct x. Qed.

(** A list of options applied in order: nil options are skipped, or called and panic ([None]). *)
Definition applyAll {C O} (apply : C → O → C) (opts : list (option O)) (c : C) : C :=
  foldl (λ c o, match o with Some o => apply c o | None => c end) c opts.
Fixpoint callAll {C O} (apply : C → O → C) (opts : list (option O)) (c : C) : option C :=
  match opts with
  | [] => Some c
  | None :: _ => None
  | Some o :: opts' => callAll apply opts' (apply c o)
  end.

(** The last option that sets a field decides it. *)
Lemma applyAll_last {C O A} (apply : C → O → C) (get : C → A) (sets : O → option A) :
  (∀ c o, get (apply c o) = default (get c) (sets o)) → ∀ opts c,
  get (applyAll apply opts c) = default (get c) (last (omap (λ o, o ≫= sets) opts)).
Proof.
  intros Hget opts. induction opts as [|o opts IH] using rev_ind; intros c; [done|].
  unfold applyAll in *. rewrite foldl_app, omap_app. cbn. destruct o as [o|]; cbn; [|by rewrite app_nil_r].
  rewrite Hget, IH. destruct (sets o) as [a|]; cbn; [by rewrite last_snoc|by rewrite app_nil_r].
Qed.

Definition noNil {O} (opts : list (option O)) : bool := forallb (λ o, match o with Some _ => true | None => false end) opts.

Lemma callAll_spec {C O} (apply : C → O → C) opts c :
  callAll apply opts c = if noNil opts then Some (applyAll apply opts c) else None.
Proof. revert c. induction opts as [|[o|] opts IH]; intros c; cbn; [done|apply IH|done]. Qed.

(** ** The HTTP client *)

Module Client.
Record Metrics := mkMetrics { Requests : option counter; Failures : option counter; Duration_ : option histogram }.

(** [B], [L] and [R] are the breakers, the limiters and the requests. *)
Record options (B L R : Type) := mkOptions {
  transport : option roundTripper;
  circuitBreaker : option B;
  retryCfg : Config;
  rateLimiter : option L;
  rateLimiterKeyFunc : option (R → string);
  rateLimiterFunc : option (R → bool);
  perAttemptTimeout : Duration;
  totalTimeout : Duration;
  metrics : Metrics;
  tracer : option nat;
  clock : option clockSource;
}.
Arguments mkOptions {B L R} _ _ _ _ _ _ _ _ _ _ _.
Arguments transport {B L R} _. Arguments circuitBreaker {B L R} _. Arguments retryCfg {B L R} _.
Arguments rateLimiter {B L R} _. Arguments rateLimiterKeyFunc {B L R} _. Arguments rateLimiterFunc {B L R} _.
Arguments perAttemptTimeout {B L R} _. Arguments totalTimeout {B L R} _. Arguments metrics {B L R} _.
Arguments tracer {B L R} _. Arguments clock {B L R} _.

Section options.
Context {B L R : Type} (host : R → string).

Inductive Option_ :=
| WithTransport (rt : option roundTripper)
| WithCircuitBreaker (cb : option B)
| WithRetry (cfg : Config)
| WithRateLimiter (rl : option L)
| WithRateLimiterKey (rl : option L) (keyFunc : option (R → string))
| WithRateLimiterFunc (fn : option (R → bool))
| WithPerAttemptTimeout (d : Duration)
| WithTotalTimeout (d : Duration)
| WithMetrics (m : Metrics)
| WithTelemetry (t : option nat)
| WithClock (c : option clockSource).

Definition applyOption (o : options B L R) (opt : Option_) : options B L R :=
  let set tr cb rc rl kf lf pa tot m t c := mkOptions tr cb rc rl kf lf pa tot m t c in
  let '(mkOptions tr cb rc rl kf lf pa tot m t c) := o in
  match opt with
  | WithTransport rt => set (match rt with Some _ => rt | None => tr end) cb rc rl kf lf pa tot m t c
  | WithCircuitBreaker cb => set tr cb rc rl kf lf pa tot m t c
  | WithRetry rc => set tr cb rc rl kf lf pa tot m t c
  | WithRateLimiter rl => set tr cb rc rl (Some host) lf pa tot m t c
  | WithRateLimiterKey rl kf => set tr cb rc rl kf lf pa tot m t c
  | WithRateLimiterFunc lf => set tr cb rc rl kf lf pa tot m t c
  | WithPerAttemptTimeout pa => set tr cb rc rl kf lf pa tot m t c
  | WithTotalTimeout tot => set tr cb rc rl kf lf pa tot m t c
  | WithMetrics m => set tr cb rc rl kf lf pa tot m t c
  | WithTelemetry t => set tr cb rc rl kf lf pa tot m t c
  | WithClock ck => set tr cb rc rl kf lf pa tot m t (match ck with Some _ => ck | None => c end)
  end.

(** The zero [retry.Config]. *)
Definition noRetry : Config := mkConfig 0 0 0 Constant None.

Definition NewRoundTripper (opts : list (option Option_)) : options B L R :=
  let cfg := applyAll applyOption opts
    (mkOptions (Some DefaultTransport) None noRetry None None None 0 0
       (mkMetrics (Some NoopCounter) (Some NoopCounter) (Some NoopHistogram)) None None) in
  let m := metrics cfg in
  mkOptions (orElse (transport cfg) DefaultTransport) (circuitBreaker cfg) (retryCfg cfg) (rateLimiter cfg)
    (rateLimiterKeyFunc cfg) (rateLimiterFunc cfg) (perAttemptTimeout cfg) (totalTimeout cfg)
    (mkMetrics (orElse (Requests m) NoopCounter) (orElse (Failures m) NoopCounter) (orElse (Duration_ m) NoopHistogram))
    (tracer cfg) (orElse (clock cfg) RealClock).

(** What [RoundTrip] uses for a request: its options, and the key of the limiter. *)
Definition forRequest (o : options B L R) (r : R) : clientOptions L B * string :=
  (ClientOptions (retryCfg o) (circuitBreaker o) (rateLimiter o) ((λ f, f r) <$> rateLimiterFunc o),
   match rateLimiterKeyFunc o with Some f => f r | None => host r end).
End options.
End Client.

(** ** The rate limiting middleware *)

Module Limit.
Record options := mkOptions { Allowed : option counter; Blocked : option counter; trustedProxies : list IPNet; clock : option clockSource }.

Inductive Option_ :=
| WithClock (c : option clockSource)
| WithMetrics (allowed blocked : option counter)
| WithTrustedProxies (cidrs : list string)
| WithTrustedIPNets (nets : list IPNet)
| WithDefaultTrustedProxies.

Definition applyOption (o : options) (opt : Option_) : options :=
  match opt with
  | WithClock (Some c) => mkOptions (Allowed o) (Blocked o) (trustedProxies o) (Some c)
  | WithClock None => o
  | WithMetrics a b => mkOptions a b (trustedProxies o) (clock o)
  | WithTrustedProxies cidrs => mkOptions (Allowed o) (Blocked o) (trustedProxies o ++ ParseTrustedProxies cidrs) (clock o)
  | WithTrustedIPNets nets => mkOptions (Allowed o) (Blocked o) (trustedProxies o ++ nets) (clock o)
  | WithDefaultTrustedProxies =>
      mkOptions (Allowed o) (Blocked o) (trustedProxies o ++ ParseTrustedProxies DefaultTrustedCIDRs) (clock o)
  end.

(** The options of [New]; [None] is the panic of a nil option. *)
Definition newOptions (opts : list (option Option_)) : option options :=
  cfg ← callAll applyOption opts (mkOptions None None [] None);
  Some (mkOptions (orElse (Allowed cfg) NoopCounter) (orElse (Blocked cfg) NoopCounter) (trustedProxies cfg)
          (orElse (clock cfg) RealClock)).

(** [TrustedProxies] and [KeyFuncWithTrustedProxies]. *)
Definition IPNets (tp : list string) : list IPNet := ParseTrustedProxies tp.
Definition proxiesRealIP (tp : list string) (r : httpRequest) : string := RealIP r (IPNets tp).
Definition KeyFuncWithTrustedProxies (cidrs : list string) : httpRequest → string :=
  let trusted := ParseTrustedProxies cidrs in λ r, RealIP r trusted.

Definition proxiesOf (o : Option_) : list IPNet :=
  match o with
  | WithTrustedProxies cidrs => ParseTrustedProxies cidrs
  | WithTrustedIPNets nets => nets
  | WithDefaultTrustedProxies => ParseTrustedProxies DefaultTrustedCIDRs
  | _ => []
  end.

Lemma proxies_all opts c :
  trustedProxies (applyAll applyOption opts c) = trustedProxies c ++ (opts ≫= λ o, from_option proxiesOf [] o).
Proof.
  revert c. induction opts as [|[o|] opts IH]; intros c; unfold applyAll in *; cbn [foldl].
  - by rewrite app_nil_r.
  - rewrite IH. destruct o as [[]| | | |]; cbn -[ParseTrustedProxies DefaultTrustedCIDRs]; by rewrite ?app_assoc.
  - by rewrite IH.
Qed.
End Limit.

(** ** The worker pool *)

Module Pool.
Record options := mkOptions {
  logger : option logSink; panicHandler : option nat;
  Submitted : option counter; Completed : option counter; Dropped : option counter; Panics : option counter; QueueSize : option gauge;
}.

Inductive Option_ :=
| WithLogger (l : option logSink)
| WithPanicHandler (fn : option nat)
| WithMetrics (submitted completed dropped panics : option counter) (queueSize : option gauge).

Definition applyOption (o : options) (opt : Option_) : options :=
  match opt with
  | WithLogger l => mkOptions l (panicHandler o) (Submitted o) (Completed o) (Dropped o) (Panics o) (QueueSize o)
  | WithPanicHandler fn => mkOptions (logger o) fn (Submitted o) (Completed o) (Dropped o) (Panics o) (QueueSize o)
  | WithMetrics s c d p q => mkOptions (logger o) (panicHandler o) s c d p q
  end.

Definition newOptions (opts : list (option Option_)) : option options :=
  p ← callAll applyOption opts (mkOptions (Some DefaultLogger) None (Some NoopCounter) (Some NoopCounter) (Some NoopCounter)
        (Some NoopCounter) (Some NoopGauge));
  Some (mkOptions (logger p) (panicHandler p) (orElse (Submitted p) NoopCounter) (orElse (Completed p) NoopCounter)
          (orElse (Dropped p) NoopCounter) (orElse (Panics p) NoopCounter) (orElse (QueueSize p) NoopGauge)).

(** What [executeSafely] does with a task that returns or panics: it counts the
    task as completed or as a panic and the worker goes on, or the deferred function itself panics, which ends
    the process: a nil logger is used. *)
Inductive taskEnd := CountedCompleted | CountedPanic | Crash.
Definition logError (l : option logSink) : taskEnd := match l with Some _ => CountedPanic | None => Crash end.
Definition executeSafely (o : options) (taskPanics handlerPanics : bool) : taskEnd :=
  if taskPanics then
    match panicHandler o with
    | Some _ => if handlerPanics then logError (logger o) else CountedPanic
    | None => logError (logger o)
    end
  else CountedCompleted.

Definition loggerOf (o : Option_) : option (option logSink) := match o with WithLogger l => Some l | _ => None end.
End Pool.

(** ** Recovery *)

(** [recovery.Middleware] and [ginmw.Recovery]: the logger of the options (nil options are skipped), and the
    reply to a panic; with a nil logger the deferred function panics and sends nothing. *)
Module Recover.
Inductive Option_ := WithLogger (l : option logSink).
Definition applyOption (l : option logSink) (o : Option_) : option logSink := match o with WithLogger l => l end.
Definition newConfig (opts : list (option Option_)) : option logSink := applyAll applyOption opts (Some StderrLogger).

(** The label of the route in the log and on the span. *)
Definition routeOf (pattern path : string) : string :=
  let route := if bool_decide (pattern = "") then path else pattern in
  if bool_decide (route = "") then "unmatched" else route.

Inductive panicEnd := Replied500 (route : string) | PanicsAgain.
Definition onPanic (logger : option logSink) (pattern path : string) : panicEnd :=
  match logger with Some _ => Replied500 (routeOf pattern path) | None => PanicsAgain end.
End Recover.

(** ** The access log and the tracer provider *)

Module Access.
Record MiddlewareOptions := mkOptions { Logger : option logSink; RequestIDHeader : string; ExtraAttributes : option nat }.
Inductive MiddlewareOption :=
| WithLogger (l : option logSink)
| WithRequestIDHeader (header : string)
| WithExtraAttributes (fn : option nat).
Definition applyOption (o : MiddlewareOptions) (opt : MiddlewareOption) : MiddlewareOptions :=
  match opt with
  | WithLogger (Some l) => mkOptions (Some l) (RequestIDHeader o) (ExtraAttributes o)
  | WithLogger None => o
  | WithRequestIDHeader h => if bool_decide (h = "") then o else mkOptions (Logger o) h (ExtraAttributes o)
  | WithExtraAttributes fn => mkOptions (Logger o) (RequestIDHeader o) fn
  end.
Definition newOptions (opts : list (option MiddlewareOption)) : option MiddlewareOptions :=
  callAll applyOption opts (mkOptions None "X-Request-ID" None).

(** The logger of a request: the configured one, or that of its context. *)
Definition baseLogger (o : MiddlewareOptions) (fromContext : logSink) : logSink := default fromContext (Logger o).
End Access.

Module Tracer.
Record Config := mkConfig { ServiceName : string; ServiceVersion : string; Environment : string; SampleRate : float64 }.
Inductive Option_ := WithServiceName (s : string) | WithServiceVersion (s : string) | WithEnvironment (s : string) | WithSampleRate (r : float64).
Definition applyOption (c : Config) (o : Option_) : Config :=
  match o with
  | WithServiceName s => mkConfig s (ServiceVersion c) (Environment c) (SampleRate c)
  | WithServiceVersion s => mkConfig (ServiceName c) s (Environment c) (SampleRate c)
  | WithEnvironment s => mkConfig (ServiceName c) (ServiceVersion c) s (SampleRate c)
  | WithSampleRate r => mkConfig (ServiceName c) (ServiceVersion c) (Environment c) r
  end.

(** A provider: the no-op one of [NewTracerProvider], with the configuration; a nil [TracerProvider] is [None]. *)
Definition NewTracerProvider (opts : list (option Option_)) : option Config :=
  c ← callAll applyOption opts (mkConfig "unknown-service" "" "" f0);
  Some (if bool_decide (ServiceName c = "") then mkConfig "unknown-service" (ServiceVersion c) (Environment c) (SampleRate c) else c).

Definition ConfigOf (tp : option Config) : Config := default (mkConfig "" "" "" f0) tp.
Inductive provider := Noop | Global.
Definition TracerOf (tp : option Config) : provider := match tp with Some _ => Noop | None => Global end.

(** [Shutdown] and the cleanup function have nothing to do. *)
Definition Shutdown (tp : option Config) : option error := None.

(** OpenTelemetry's process-wide registry: the provider and the propagators;
    [InitProvider] sets both, [StartSpan] and the middlewares use them. *)
Inductive propagator := TraceContext | Baggage | PropagatorOf (id : nat).
Record registry := mkRegistry { globalProvider : nat; globalPropagator : list propagator }.
Definition InitProvider (r : registry) (tp : nat) : registry := mkRegistry tp [TraceContext; Baggage].
Definition StartSpan (r : registry) (tracerName spanName : string) : nat * string * string :=
  (globalProvider r, tracerName, spanName).

(** The options of the middleware: the propagator of its requests. *)
Inductive MiddlewareOption := WithPropagator (p : option (list propagator)).
Definition applyMiddlewareOption (p : list propagator) (o : MiddlewareOption) : list propagator :=
  match o with WithPropagator (Some q) => q | WithPropagator None => p end.
Definition middlewarePropagator (r : registry) (opts : list (option MiddlewareOption)) : option (list propagator) :=
  callAll applyMiddlewareOption opts (globalPropagator r).
End Tracer.

(** ** Authentication (ginmw/jwt.go) *)

Module Auth.
Record authOptions := mkAuthOptions { allowQueryToken : bool }.
Inductive AuthOption := WithAllowQueryToken.
Definition applyOption (o : authOptions) (opt : AuthOption) : authOptions :=
  match opt with WithAllowQueryToken => mkAuthOptions true end.
Definition newOptions (opts : list (option AuthOption)) : option authOptions :=
  callAll applyOption opts (mkAuthOptions false).

(** Tokens in the query are accepted only when asked for. *)
Lemma query_opt_in opts o : newOptions opts = Some o → allowQueryToken o = true → Some WithAllowQueryToken ∈ opts.
Proof.
  unfold newOptions. rewrite callAll_spec. destruct (noNil opts); [|done]. intros [= <-].
  destruct opts as [|[[]|] opts]; cbn; [done|set_solver|].
  induction opts as [|[[]|] opts IH]; cbn; [done|set_solver|]. intros Hq. apply IH in Hq. set_solver.
Qed.
End Auth.

(** ** Database connections (db/db.go, db/context.go) *)

Module Conn.
Record config := mkConfig { url : string; MaxConns : Z; MinConns : Z }.
Inductive Option_ := WithMaxConns (n : Z) | WithMinConns (n : Z).
Definition applyOption (c : config) (o : Option_) : config :=
  match o with
  | WithMaxConns n => mkConfig (url c) n (MinConns c)
  | WithMinConns n => mkConfig (url c) (MaxConns c) n
  end.

Section connect.
(** pgx: [pgxpool.ParseConfig], [pgxpool.NewWithConfig], which may give a pool, and [pool.Ping]. *)
Context (ParseConfig : string → config + error) (NewWithConfig : config → option nat + error) (Ping : option nat → option error).

(** [Connect]: its result and the pools it leaves open; [None] is the panic of a nil option. *)
Definition Connect (databaseURL : string) (opts : list (option Option_)) : option ((option nat + error) * list nat) :=
  if bool_decide (databaseURL = "") then Some (inr (ErrNew "db: connection string is required"), [])
  else
    match ParseConfig databaseURL with
    | inr e => Some (inr (ErrWrap "unable to parse database url" e), [])
    | inl c =>
        c' ← callAll applyOption opts c;
        match NewWithConfig c' with
        | inr e => Some (inr (ErrWrap "unable to create connection pool" e), [])
        | inl pool =>
            let opened := from_option (λ p, [p]) [] pool in
            match Ping pool with
            | Some e => Some (inr (ErrWrap "unable to ping database" e), match pool with Some _ => [] | None => opened end)
            | None => Some (inl pool, opened)
            end
        end
    end.

(** A pool stays open exactly when [Connect] returns it. *)
Lemma Connect_leaks databaseURL opts res opened : Connect databaseURL opts = Some (res, opened) →
  opened = match res with inl (Some p) => [p] | _ => [] end.
Proof.
  unfold Connect. case_bool_decide; [naive_solver|]. destruct (ParseConfig databaseURL) as [c|e]; [|naive_solver].
  destruct (callAll applyOption opts c) as [c'|]; cbn; [|done]. destruct (NewWithConfig c') as [[p|]|e]; [| |naive_solver];
    destruct (Ping _); naive_solver.
Qed.
End connect.

(** [GetQuerier]: the connection of the context, or the pool. *)
Inductive querier := ConnOf (id : nat) | PoolOf (id : nat).
Definition GetQuerier (conn : option nat) (pool : nat) : querier := match conn with Some c => ConnOf c | None => PoolOf pool end.
End Conn.

(** ** Well-formedness *)

Definition retryOf {B L R} (o : @Client.Option_ B L R) : option Config := match o with Client.WithRetry c => Some c | _ => None end.
Definition breakerOf {B L R} (o : @Client.Option_ B L R) : option (option B) := match o with Client.WithCircuitBreaker b => Some b | _ => None end.
Definition limiterOf {B L R} (o : @Client.Option_ B L R) : option (option L) :=
  match o with Client.WithRateLimiter l => Some l | Client.WithRateLimiterKey l _ => Some l | _ => None end.
Definition keyOf {B L R} (host : R → string) (o : @Client.Option_ B L R) : option (option (R → string)) :=
  match o with Client.WithRateLimiter _ => Some (Some host) | Client.WithRateLimiterKey _ k => Some k | _ => None end.

(** The last option of a list that sets a field. *)
Definition lastOf {O A} (sets : O → option A) (opts : list (option O)) : option A := last (omap (λ o, o ≫= sets) opts).

Lemma client_options {B L R} (host : R → string) opts (o : Client.options B L R) :
  o = Client.NewRoundTripper host opts →
  Client.transport o ≠ None ∧ Client.clock o ≠ None ∧ Client.Requests (Client.metrics o) ≠ None ∧
  Client.Failures (Client.metrics o) ≠ None ∧ Client.Duration_ (Client.metrics o) ≠ None ∧
  Client.retryCfg o = default Client.noRetry (lastOf retryOf opts) ∧
  Client.circuitBreaker o = default None (lastOf breakerOf opts) ∧
  Client.rateLimiter o = default None (lastOf limiterOf opts) ∧
  Client.rateLimiterKeyFunc o = default None (lastOf (keyOf host) opts).
Proof.
  intros ->. unfold Client.NewRoundTripper. cbn. split_and!; try apply orElse_some.
  - apply (applyAll_last _ Client.retryCfg). by intros [] [].
  - apply (applyAll_last _ Client.circuitBreaker). by intros [] [].
  - apply (applyAll_last _ Client.rateLimiter). by intros [] [].
  - apply (applyAll_last _ Client.rateLimiterKeyFunc). by intros [] [].
Qed.

Lemma limit_options opts :
  match Limit.newOptions opts with
  | None => noNil opts = false
  | Some o => noNil opts = true ∧ Limit.Allowed o ≠ None ∧ Limit.Blocked o ≠ None ∧ Limit.clock o ≠ None ∧
      Limit.trustedProxies o = opts ≫= λ o, from_option Limit.proxiesOf [] o
  end.
Proof.
  unfold Limit.newOptions. rewrite callAll_spec. destruct (noNil opts); cbn; [|done].
  split_and!; try apply orElse_some; [done|]. by rewrite Limit.proxies_all.
Qed.

Lemma pool_options opts :
  match Pool.newOptions opts with
  | None => noNil opts = false
  | Some o => noNil opts = true ∧
      Forall (λ c, c ≠ None) [Pool.Submitted o; Pool.Completed o; Pool.Dropped o; Pool.Panics o] ∧ Pool.QueueSize o ≠ None ∧
      Pool.logger o = default (Some DefaultLogger) (lastOf Pool.loggerOf opts)
  end.
Proof.
  unfold Pool.newOptions. rewrite callAll_spec. destruct (noNil opts); cbn; [|done].
  split_and!; [done|repeat constructor; apply orElse_some|apply orElse_some|].
  apply (applyAll_last _ Pool.logger). by intros [] [].
Qed.

Lemma access_header opts :
  match Access.newOptions opts with
  | None => noNil opts = false
  | Some o => noNil opts = true ∧ Access.RequestIDHeader o ≠ ""
  end.
Proof.
  unfold Access.newOptions. rewrite callAll_spec. destruct (noNil opts); [|done]. split; [done|]. unfold applyAll.
  assert (∀ c, Access.RequestIDHeader c ≠ "" →
    Access.RequestIDHeader (foldl (λ c o, match o with Some o => Access.applyOption c o | None => c end) c opts) ≠ "") as Hfold.
  { induction opts as [|[o|] opts IH]; intros c Hc; cbn [foldl]; [done| |auto]. apply IH.
    destruct o as [[]|h|]; cbn; try done. by case_bool_decide. }
  by apply Hfold.
Qed.

Lemma tracer_name opts :
  match Tracer.NewTracerProvider opts with
  | None => noNil opts = false
  | Some c => noNil opts = true ∧ Tracer.ServiceName c ≠ ""
  end.
Proof.
  unfold Tracer.NewTracerProvider. rewrite callAll_spec. destruct (noNil opts); cbn; [|done].
  split; [done|]. by case_bool_decide.
Qed.

(** C40: Construction from options. Whatever options are given to it, nil ones and nil values included, the HTTP client has a transport, a clock
    and all its collectors, and its retries, breaker, limiter and key function are those of
    the last option that sets them. The other constructors panic exactly when an option is nil: the rate limiting middleware, the worker
    pool, the access log and the tracer provider. Otherwise, nil values included, the rate limiting middleware has its collectors and a clock and
    trusts the networks of all its options, in order; the worker pool has its collectors; the access log has a
    header for the request identifier and the tracer provider a service name. A nil logger is not replaced: then a task that panics brings down the process, unless a panic handler deals with it,
    and the recovery middlewares panic again instead of answering 500. *)
Theorem options_wellformed :
  (∀ B L R (host : R → string) opts (o : Client.options B L R), o = Client.NewRoundTripper host opts →
     Client.transport o ≠ None ∧ Client.clock o ≠ None ∧ Client.Requests (Client.metrics o) ≠ None ∧
     Client.Failures (Client.metrics o) ≠ None ∧ Client.Duration_ (Client.metrics o) ≠ None ∧
     ∀ r, Client.forRequest host o r =
       (ClientOptions (default Client.noRetry (lastOf retryOf opts)) (default None (lastOf breakerOf opts))
          (default None (lastOf limiterOf opts)) ((λ f, f r) <$> Client.rateLimiterFunc o),
        from_option (λ f, f r) (host r) (default None (lastOf (keyOf host) opts)))) ∧
  (∀ opts, match Limit.newOptions opts with
     | None => noNil opts = false
     | Some o => noNil opts = true ∧ Limit.Allowed o ≠ None ∧ Limit.Blocked o ≠ None ∧ Limit.clock o ≠ None ∧
         Limit.trustedProxies o = opts ≫= λ o, from_option Limit.proxiesOf [] o
     end) ∧
  (∀ opts, match Pool.newOptions opts with
     | None => noNil opts = false
     | Some o => noNil opts = true ∧
         Forall (λ c, c ≠ None) [Pool.Submitted o; Pool.Completed o; Pool.Dropped o; Pool.Panics o] ∧ Pool.QueueSize o ≠ None ∧
         ∀ tp hp, Pool.executeSafely o tp hp = Pool.Crash ↔
           tp = true ∧ lastOf Pool.loggerOf opts = Some None ∧ (Pool.panicHandler o = None ∨ hp = true)
     end) ∧
  (∀ opts pattern path, Recover.onPanic (Recover.newConfig opts) pattern path = Recover.PanicsAgain ↔
     lastOf (λ o, match o with Recover.WithLogger l => Some l end) opts = Some None) ∧
  (∀ opts, match Access.newOptions opts with
     | None => noNil opts = false
     | Some o => noNil opts = true ∧ Access.RequestIDHeader o ≠ ""
     end) ∧
  (∀ opts, match Tracer.NewTracerProvider opts with
     | None => noNil opts = false
     | Some c => noNil opts = true ∧ Tracer.ServiceName c ≠ ""
     end).
Proof.
  split; [|split; [exact limit_options|split; [|split; [|split; [exact access_header|exact tracer_name]]]]].
  - intros B L R host opts o Ho. destruct (client_options host opts o Ho) as (H1 & H2 & H3 & H4 & H5 & H6 & H7 & H8 & H9).
    split_and!; try done. intros r. unfold Client.forRequest. rewrite H6, H7, H8, H9. by destruct (default _ _).
  - intros opts. pose proof (pool_options opts) as H. destruct (Pool.newOptions opts) as [o|]; [|done].
    destruct H as (H1 & H2 & H3 & H4). split_and!; try done. intros tp hp. unfold Pool.executeSafely, Pool.logError.
    rewrite H4. destruct tp; [|naive_solver]. destruct (lastOf Pool.loggerOf opts) as [[l|]|], (Pool.panicHandler o), hp; naive_solver.
  - intros opts pattern path. unfold Recover.onPanic, Recover.newConfig.
    rewrite (applyAll_last _ (λ l, l) (λ o, match o with Recover.WithLogger l => Some l end)) by by intros ? [].
    unfold lastOf. destruct (last _) as [[]|]; naive_solver.
Qed.

Lemma options_wellformed_witness :
  let o := Client.NewRoundTripper (λ r : string, r)
    [None; Some (Client.WithTransport None); Some (Client.WithMetrics (Client.mkMetrics None None None)); Some (Client.WithRateLimiter (Some 5%nat))] in
  Client.transport (B := nat) (L := nat) o ≠ None ∧ Client.Requests (Client.metrics o) ≠ None ∧ (Client.forRequest (λ r, r) o "a.example").2 = "a.example" ∧
  Pool.executeSafely (default (Pool.mkOptions None None None None None None None) (Pool.newOptions [Some (Pool.WithLogger None)])) true false = Pool.Crash.
Proof.
  intros o. destruct options_wellformed as (H1 & _ & H3 & _).
  destruct (H1 _ _ _ (λ r, r) _ o eq_refl) as (Ht & _ & Hr & _ & _ & Hf). split; [exact Ht|]. split; [exact Hr|]. split; [by rewrite Hf|].
  pose proof (H3 [Some (Pool.WithLogger None)]) as Hp. destruct Hp as (_ & _ & _ & Hp). apply Hp. auto.
Defined.
