(* ===== verification/Spans.v ===== *)
(** Server spans: the tracing middleware (telemetry/middleware.go) and the
    recovery middleware (recovery/recovery.go) around a net/http handler, in
    both orders; and the loggers of contexts (logger/logger.go). *)
From S2P Require Import Prelude Text Base64 Float64 Strconv Env Idempotency Recorder Web Options.
#[local] Open Scope Z_scope.

(** ** What handlers do *)

Inductive spanStatus := StatusOk | StatusError (description : string).
Inductive spanEvent :=
| Started (name : string) (attributes : list (string * string))
| Attr (key value : string)
| SetStatus (s : spanStatus)
| RecordError (text : string)
| SpanEnd.

(** A panic value: an error, or another value. *)
Inductive panicValue := PanicError (text : string) | PanicOther (text : string).
Definition panicText (p : panicValue) : string := match p with PanicError t => t | PanicOther t => t end.
Definition panicErrText (p : panicValue) : string :=
  match p with PanicError t => t | PanicOther t => "panic: " +:+ t end.

(** A run of a handler: what it does to the response, to the span of its context
    and to the log, and how it ends. *)
Inductive op := Act (a : act) | OnSpan (ev : spanEvent) | Log (line : string).
Inductive ending := Finished | Panicked (p : panicValue).
Record script := Script { ops : list op; s_end : ending }.

Definition acts (l : list op) : list act := omap (λ o, match o with Act a => Some a | _ => None end) l.
Definition events (l : list op) : list spanEvent := omap (λ o, match o with OnSpan e => Some e | _ => None end) l.
Definition withoutSpan (l : list op) : list op := omap (λ o, match o with OnSpan _ => None | _ => Some o end) l.
Definition logs (l : list op) : list string := omap (λ o, match o with Log s => Some s | _ => None end) l.

(** What the client gets. *)
Definition response (s : script) : ResponseWriter := sr_writer (foldl sr_perform (mkSR fresh 200 0) (acts (ops s))).

Record request := mkReq { method : string; path : string; pattern : string; agent : string }.

(** ** The middlewares *)

Section middlewares.
(** [http.StatusText]. *)
Context (StatusText : Z → string) (r : request).

Definition startSpan : list spanEvent :=
  [Started (method r +:+ " " +:+ path r)
     [("http.request.method", method r); ("url.path", path r); ("http.user_agent", agent r)]].

(** The status of the recorder when the handler has returned. *)
Definition recordedStatus (s : script) : Z := sr_statusCode (foldl sr_perform (mkSR fresh 200 0) (acts (ops s))).

Definition finishSpan (status : Z) : list spanEvent :=
  [Attr "http.response.status_code" (Itoa status);
   SetStatus (if 500 <=? status then StatusError (StatusText status) else StatusOk)].

(** [telemetry.Middleware]: the span of the request, and what is left for the handlers around it. *)
Definition traced (next : script) : list spanEvent * script :=
  (startSpan ++ events (ops next) ++
     (match s_end next with Finished => finishSpan (recordedStatus next) | Panicked _ => [] end) ++ [SpanEnd],
   Script (withoutSpan (ops next)) (s_end next)).

(** [recovery.Middleware], with a logger. *)
Definition panicOps (p : panicValue) : list op :=
  let route := Recover.routeOf (pattern r) (path r) in
  (OnSpan <$> [SetStatus (StatusError ("panic: " +:+ panicText p)); RecordError (panicErrText p);
               Attr "http.route" route; Attr "http.status_code" "500"]) ++
  [Log ("PANIC RECOVERED " +:+ panicText p +:+ " " +:+ route +:+ " " +:+ path r)] ++
  (Act <$> [DoSetHeader "Content-Type" ["application/json; charset=utf-8"]; DoWriteHeader 500; DoWrite panicBody]).

Definition recovering (next : script) : script :=
  match s_end next with
  | Finished => next
  | Panicked p => Script (ops next ++ panicOps p) Finished
  end.
End middlewares.

(** ** Loggers (logger/logger.go) *)

(** [Default]: the level from LOG_LEVEL. *)
Definition defaultLevel (e : environment) : Z :=
  let l := ToUpper (Getenv e "LOG_LEVEL") in
  if bool_decide (l = "DEBUG") then -4
  else if bool_decide (l = "WARN") || bool_decide (l = "WARNING") then LevelWarn
  else if bool_decide (l = "ERROR") then LevelError else LevelInfo.

(** A logger: the level of its handler and its attributes. A context holds one or none, and may be nil. *)
Record logger := mkLogger { l_level : Z; l_fields : list (string * string) }.
Definition context := option logger.
Definition WithContext (ctx : context) (l : option logger) : context := match l with None => ctx | Some l => Some l end.
Definition FromContext (dflt : logger) (ctx : context) : logger := default dflt ctx.
Definition WithFields (dflt : logger) (ctx : context) (fields : list (string * string)) : context :=
  let l := FromContext dflt ctx in WithContext ctx (Some (mkLogger (l_level l) (l_fields l ++ fields))).
Definition WithField (dflt : logger) (ctx : context) (key val : string) : context := WithFields dflt ctx [(key, val)].

(** ** The two orders *)

Lemma acts_withoutSpan l : acts (withoutSpan l) = acts l.
Proof. unfold acts, withoutSpan. induction l as [|[] l IH]; cbn; by rewrite ?IH. Qed.

Lemma logs_withoutSpan l : logs (withoutSpan l) = logs l.
Proof. unfold logs, withoutSpan. induction l as [|[] l IH]; cbn; by rewrite ?IH. Qed.

Lemma acts_app l l' : acts (l ++ l') = acts l ++ acts l'.
Proof. apply omap_app. Qed.
Lemma logs_app l l' : logs (l ++ l') = logs l ++ logs l'.
Proof. apply omap_app. Qed.
Lemma events_app l l' : events (l ++ l') = events l ++ events l'.
Proof. apply omap_app. Qed.

(** A panic leaves 500 in the recorder. *)
Lemma recorded_panic r l p : recordedStatus (Script (l ++ panicOps r p) Finished) = 500.
Proof. unfold recordedStatus. cbn [ops]. by rewrite acts_app, foldl_app. Qed.

(** What the span has of a run of a handler, with and without recovery inside. *)
Definition panicEvents (r : request) (h : script) : list spanEvent :=
  match s_end h with Finished => [] | Panicked p => events (panicOps r p) end.
Definition finalStatus (h : script) : Z := match s_end h with Finished => recordedStatus h | Panicked _ => 500 end.

(** Server spans. For a handler that leaves its span alone, tracing around recovery and recovery around tracing send the same
    response, log the same lines and let no panic through. With tracing outside, the span is started and ended once,
    carries the panic and its error, and its status is an error exactly if the status is 500 or more, as it is
    after every panic; for a handler that sets headers, at most one final status, and a body, the status on the span is the one sent.
    With recovery outside, the span of a request that panics
    ends with no status and no error: the trace of the request does not show that it failed. Of the loggers of contexts: fields accumulate in order,
    a nil logger leaves the context as it is, and unknown levels are INFO. *)
Lemma server_spans StatusText r h :
  events (ops h) = [] →
  let inside := traced StatusText r (recovering r h) in
  let outside := recovering r (traced StatusText r h).2 in
  response inside.2 = response outside ∧ logs (ops inside.2) = logs (ops outside) ∧
  s_end inside.2 = Finished ∧ s_end outside = Finished ∧
  inside.1 = startSpan r ++ panicEvents r h ++ finishSpan StatusText (finalStatus h) ++ [SpanEnd] ∧
  ((∃ text, SetStatus (StatusError text) ∈ finishSpan StatusText (finalStatus h)) ↔ 500 <= finalStatus h) ∧
  (∀ hs code bs, acts (ops h) = ordinary hs code bs → s_end h = Finished →
     from_option (λ c, informational c = false ∧ (bs ≠ [] → bodyAllowed c = true)) True code →
     finalStatus h = sentStatus (response inside.2)) ∧
  (∀ p, s_end h = Panicked p → (traced StatusText r h).1 = startSpan r ++ [SpanEnd]) ∧
  (∀ dflt ctx f1 f2, l_fields (FromContext dflt (WithFields dflt (WithFields dflt ctx f1) f2)) = l_fields (FromContext dflt ctx) ++ f1 ++ f2 ∧
     WithContext ctx None = ctx) ∧
  (∀ e, e !! "LOG_LEVEL" = None → defaultLevel e = LevelInfo).
Proof.
  intros Hev. cbv zeta. unfold traced, recovering, response, panicEvents, finalStatus.
  split_and!.
  - destruct (s_end h) as [|p] eqn:E; cbn [ops snd s_end]; rewrite ?E; cbn [ops]; rewrite ?acts_app, !acts_withoutSpan, ?acts_app; done.
  - destruct (s_end h) as [|p] eqn:E; cbn [ops snd s_end]; rewrite ?E; cbn [ops]; rewrite ?logs_app, !logs_withoutSpan, ?logs_app; done.
  - destruct (s_end h) eqn:E; cbn; by rewrite ?E.
  - destruct (s_end h) eqn:E; cbn; by rewrite ?E.
  - destruct (s_end h) as [|p] eqn:E; cbn [ops fst s_end]; rewrite ?E, ?events_app, Hev, ?recorded_panic; done.
  - unfold finishSpan. split.
    + intros [text Ht]. destruct (500 <=? _) eqn:E5 in Ht; [by apply Z.leb_le|]. set_solver.
    + intros H5. rewrite (proj2 (Z.leb_le _ _) H5). eexists. right. left.
  - intros hs code bs Ha E Hc. rewrite E. cbn [ops snd]. rewrite acts_withoutSpan. unfold recordedStatus. rewrite Ha.
    by apply ordinary_status.
  - intros p E. by rewrite E, Hev.
  - intros dflt ctx f1 f2. cbn. by rewrite app_assoc.
  - intros e He. unfold defaultLevel, Getenv. by rewrite He.
Qed.

Lemma server_spans_witness :
  let r := mkReq "GET" "/a" "/a" "curl" in
  let h := Script [Act (DoSetHeader "X" ["1"])] (Panicked (PanicOther "boom")) in
  sentStatus (response (traced (λ _, "Internal Server Error") r (recovering r h)).2) = 500 ∧
  finalStatus h = 500 ∧ (traced (λ _, "Internal Server Error") r h).1 = startSpan r ++ [SpanEnd].
Proof.
  intros r h. destruct (server_spans (λ _, "Internal Server Error") r h eq_refl) as (_ & _ & _ & _ & _ & _ & _ & Hp & _).
  split; [vm_compute; reflexivity|]. split; [reflexivity|]. exact (Hp _ eq_refl).
Defined.
