(* ===== verification/Validation.v ===== *)
(** Validation errors (validation/validation.go) and identifiers
    (uuidutil/uuidutil.go). The validator and the UUID package are used
    through the values they return. *)
From S2P Require Import Prelude Text.

(** ** Validation errors *)

(** What [validator.FieldError] gives: [Field()], [Tag()] and [Param()]. *)
Record fieldError := mkField { e_Field : string; e_Tag : string; e_Param : string }.

(** An error: [validator.ValidationErrors], with its text, another error, or one that wraps. *)
Inductive verror :=
| ValidationErrors (text : string) (es : list fieldError)
| OtherError (text : string)
| Wrapping (text : string) (e : verror).

Definition verrorText (e : verror) : string :=
  match e with ValidationErrors t _ => t | OtherError t => t | Wrapping t _ => t end.

(** [errors.As] with the target [validator.ValidationErrors]. *)
Fixpoint asValidation (e : verror) : option (list fieldError) :=
  match e with ValidationErrors _ es => Some es | OtherError _ => None | Wrapping _ e => asValidation e end.

Record FieldError := mkFieldError { Field : string; Message : string }.

Definition msgForTag (e : fieldError) : string :=
  if bool_decide (e_Tag e = "required") then "This field is required"
  else if bool_decide (e_Tag e = "email") then "Invalid email format"
  else if bool_decide (e_Tag e = "min") then "Must be at least " +:+ e_Param e
  else if bool_decide (e_Tag e = "max") then "Must be at most " +:+ e_Param e
  else "Invalid value".

(** The loop over the errors of the validator. *)
Fixpoint formatLoop (es : list fieldError) (acc : list FieldError) : list FieldError :=
  match es with
  | [] => acc
  | e :: es' => formatLoop es' (acc ++ [mkFieldError (ToLower (e_Field e)) (msgForTag e)])
  end.

Definition FormatErrors (err : option verror) : list FieldError :=
  match err with
  | None => []
  | Some e =>
      match asValidation e with
      | Some es => formatLoop es []
      | None => [mkFieldError "unknown" (verrorText e)]
      end
  end.

Lemma formatLoop_map es acc : formatLoop es acc = acc ++ ((λ e, mkFieldError (ToLower (e_Field e)) (msgForTag e)) <$> es).
Proof.
  revert acc. induction es as [|e es IH]; intros acc; cbn; [by rewrite app_nil_r|].
  by rewrite IH, <- app_assoc.
Qed.

(** One message for each failed field, in order, however deep the validator's error is wrapped;
    an error of another kind is reported as unknown. *)
Lemma FormatErrors_spec e :
  match asValidation e with
  | Some es => length (FormatErrors (Some e)) = length es ∧
      ∀ i f, es !! i = Some f → FormatErrors (Some e) !! i = Some (mkFieldError (ToLower (e_Field f)) (msgForTag f))
  | None => FormatErrors (Some e) = [mkFieldError "unknown" (verrorText e)]
  end.
Proof.
  unfold FormatErrors. destruct (asValidation e) as [es|]; [|done]. rewrite formatLoop_map. cbn [app].
  split; [apply length_fmap|]. intros i f Hf. by rewrite list_lookup_fmap, Hf.
Qed.

Lemma FormatErrors_wrapped text e : FormatErrors (Some (Wrapping text e)) = FormatErrors (Some e) ∨ asValidation e = None.
Proof. unfold FormatErrors. cbn. destruct (asValidation e); auto. Qed.

(** ** Identifiers *)

Section uuid.
(** [uuid.UUID], [uuid.Nil], and [uuid.Parse] with its error. *)
Context {UUID : Type} `{EqDecision UUID} (Nil : UUID) (uuid_Parse : string → UUID + error).

Definition Parse (s : string) : UUID + error := uuid_Parse s.
Definition ParsePtr (s : string) : option UUID + error :=
  if bool_decide (TrimSpace s = "") then inl None
  else match uuid_Parse s with inr e => inr e | inl u => inl (Some u) end.
Definition IsValid (s : string) : bool := match uuid_Parse s with inl _ => true | inr _ => false end.
Definition IsNil (id : UUID) : bool := bool_decide (id = Nil).

(** [ParsePtr] takes the blank strings besides the valid ones. *)
Lemma ParsePtr_spec s :
  (∃ u, ParsePtr s = inl (Some u)) ↔ IsValid s = true ∧ TrimSpace s ≠ "".
Proof. unfold ParsePtr, IsValid. case_bool_decide; destruct (uuid_Parse s); naive_solver. Qed.

(** [uuid.New] on sixteen random bytes, the text of an identifier, and
    [uuid.MustParse], which panics ([None]) where [uuid.Parse] fails; a text
    that was printed is parsed back. *)
Context {bytes : Type} (uuid_New : bytes → UUID) (uuid_String : UUID → string) (uuid_MustParse : string → option UUID).
Hypothesis parse_String : ∀ u, uuid_Parse (uuid_String u) = inl u.
Hypothesis must_Parse : ∀ s, uuid_MustParse s = match uuid_Parse s with inl u => Some u | inr _ => None end.

Definition New (random : bytes) : UUID := uuid_New random.
Definition NewString (random : bytes) : string := uuid_String (uuid_New random).
Definition MustParse (s : string) : option UUID := uuid_MustParse s.

(** A new string is the text of a new identifier and is accepted everywhere, and
    [MustParse] panics exactly on the strings [IsValid] refuses. *)
Lemma NewString_valid random : IsValid (NewString random) = true ∧ MustParse (NewString random) = Some (New random).
Proof. unfold IsValid, MustParse, NewString. by rewrite must_Parse, parse_String. Qed.

Lemma MustParse_panics s : MustParse s = None ↔ IsValid s = false.
Proof. unfold IsValid, MustParse. rewrite must_Parse. by destruct (uuid_Parse s). Qed.
End uuid.
