(* ===== verification/Quotes.v ===== *)
(** The quote endpoint of the reference service
    (examples/microservice/main.go): a circuit breaker around retries around an
    HTTP client that has the same circuit breaker. *)
From S2P Require Import Prelude Text Base64 Float64 Strconv AppError Retry Breaker Consecutive TokenBucket RateLimit HttpClient DayBounds Calendar.
#[local] Open Scope Z_scope.

Definition Millisecond : Duration := 1000000.

Record Quote := mkQuote { Symbol : string; Price : float64; FetchedAt : Time; ValidUntil : Time }.

(** [timeutil.AddBusinessDays] on a time in UTC, where its loops end ([utc_adds]). *)
Definition addBusinessDaysUTC (t : Time) (n : Z) : Time := default t (AddBusinessDays DayBounds.UTC t n).

(** The breaker and the retries of the service. *)
Definition appBreaker : ConsecutiveBreaker := NewConsecutiveBreaker 5 (15 * Second) [WithOnStateChange true].
Definition retryConfig : Config := mkConfig 3 (20 * Millisecond) (100 * Millisecond) ExponentialJitter None.

(** ** One fetch *)

(** What happens in a call of [FetchQuoteHTTP]: the attempts of the client,
    [ctx.Err()] and the clock when the breaker is entered and left, what the
    body decodes to, and the clock afterwards. *)
Record fetch := Fetch {
  f_world : clientWorld;
  f_ctx1 : option error; f_now1 : Time; f_ctx2 : option error; f_now2 : Time;
  f_decoded : Quote + error; f_now3 : Time;
}.

Fixpoint trimSlash (s : string) : string :=
  match s with
  | EmptyString => EmptyString
  | String a s' => match trimSlash s' with EmptyString => if byteOf a =? 47 then EmptyString else String a EmptyString | t => String a t end
  end.
Definition targetURL (quoteServiceURL symbol : string) : string := trimSlash quoteServiceURL +:+ "/quotes?symbol=" +:+ symbol.

(** The client's [RoundTrip] of a request without body on its breaker, and what
    [http.Client.Do] makes of an error; no limiter is configured. *)
Definition clientDo (cb : ConsecutiveBreaker) (f : fetch) : (httpResponse + error) * ConsecutiveBreaker :=
  let '(r, _, cb') := roundTripCircuitBreaker cb (executeRetries retryConfig (f_world f) NoBody)
                        (f_ctx1 f) (f_now1 f) (f_ctx2 f) (f_now2 f) in
  (match r with inl resp => inl resp | inr e => inr (ErrWrap "Get" e) end, cb').

(** [FetchQuoteHTTP]; [validURL] tells whether the request can be made. *)
Definition FetchQuoteHTTP (validURL : string → bool) (url symbol : string) (cb : ConsecutiveBreaker) (f : fetch)
    : (Quote + error) * ConsecutiveBreaker :=
  if negb (validURL (targetURL url symbol)) then (inr (ErrNew "invalid URL"), cb)
  else
    let '(r, cb') := clientDo cb f in
    (match r with
     | inr e => inr e
     | inl resp =>
         if negb (hStatusCode resp =? 200) then inr (ErrNew ("quote upstream returned status " +:+ Itoa (hStatusCode resp)))
         else match f_decoded f with
              | inr e => inr e
              | inl q =>
                  let q1 := if time_IsZero (FetchedAt q) then mkQuote (Symbol q) (Price q) (f_now3 f) (ValidUntil q) else q in
                  inl (if time_IsZero (ValidUntil q1)
                       then mkQuote (Symbol q1) (Price q1) (FetchedAt q1) (addBusinessDaysUTC (FetchedAt q1) 1) else q1)
              end
     end, cb').

(** [app.FetchQuote]: over HTTP when an upstream is configured. *)
Definition FetchQuote (validURL : string → bool) (url symbol : string) (cb : ConsecutiveBreaker) (f : fetch)
    : (Quote + error) * ConsecutiveBreaker :=
  if bool_decide (url = "")
  then (inl (mkQuote symbol (fdiv (of_int 285) (of_int 2)) (f_now3 f) (addBusinessDaysUTC (f_now3 f) 1)), cb)
  else FetchQuoteHTTP validURL url symbol cb f.

(** ** The endpoint *)

(** A request: [ctx.Err()] and the clock when the outer breaker is entered and
    left, the fetches of the attempts, and the context and the random numbers of the retries. *)
Record quoteRequest := QuoteRequest {
  qr_symbol : string;
  qr_ctx1 : option error; qr_now1 : Time; qr_ctx2 : option error; qr_now2 : Time;
  qr_fetch : nat → fetch; qr_before : Z → option error; qr_waiting : Z → option error; qr_random : Z → float64;
  qr_now3 : Time;
}.

Inductive quoteReply := QuoteOK (q : Quote) | QuoteError (r : httpReply).
Definition quoteStatus (r : quoteReply) : Z := match r with QuoteOK _ => 200 | QuoteError r => rStatus r end.

Section endpoint.
Context (validURL : string → bool) (url : string).

(** The breaker before attempt [i]: the client uses it in every attempt. *)
Fixpoint breakerBefore (cb : ConsecutiveBreaker) (r : quoteRequest) (i : nat) : ConsecutiveBreaker :=
  match i with
  | O => cb
  | S i' => (FetchQuote validURL url (qr_symbol r) (breakerBefore cb r i') (qr_fetch r i')).2
  end.

(** The function given to the outer breaker: retries of [FetchQuote]. *)
Definition fetchWithRetries (cb : ConsecutiveBreaker) (r : quoteRequest) : (Quote + error) * ConsecutiveBreaker :=
  let rep := DoWithResult retryConfig
    (World (λ i, (FetchQuote validURL url (qr_symbol r) (breakerBefore cb r (Z.to_nat i)) (qr_fetch r (Z.to_nat i))).1)
       (qr_before r) (qr_waiting r) (qr_random r)) in
  (Retry.result rep, breakerBefore cb r (Z.to_nat (calls rep))).

Definition quoteFailed (err : error) : quoteReply :=
  QuoteError (if errors_Is err ErrCircuitOpen
              then ErrorFromDomain (Unavailable "external quote service is currently unavailable")
              else ErrorFromDomain (Wrap (Some (goerrOf err)) CodeInternal "failed to fetch quote")).

Definition completeQuote (q : Quote) (now : Time) : Quote :=
  if time_IsZero (ValidUntil q) then
    let baseTime := if time_IsZero (FetchedAt q) then now else FetchedAt q in
    mkQuote (Symbol q) (Price q) (FetchedAt q) (addBusinessDaysUTC baseTime 1)
  else q.

Definition handleGetQuote (cb : ConsecutiveBreaker) (r : quoteRequest) : quoteReply * ConsecutiveBreaker :=
  if bool_decide (qr_symbol r = "") then (QuoteError (ErrorFromDomain (BadRequest "symbol query parameter is required")), cb)
  else
    match enter cb (qr_ctx1 r) (qr_now1 r) with
    | (inl err, cb1) => (quoteFailed err, cb1)
    | (inr isProbe, cb1) =>
        let '(res, cb2) := fetchWithRetries cb1 r in
        let err := match res with inl _ => None | inr e => Some e end in
        let '(out, cb3) := leave cb2 isProbe (Returned err) (qr_ctx2 r) (qr_now2 r) in
        (match out, res with
         | Ret (Some e), _ => quoteFailed e
         | _, inl q => QuoteOK (completeQuote q (qr_now3 r))
         | _, inr e => quoteFailed e
         end, cb3)
    end.

(** Requests one after the other. *)
Fixpoint handleQuotes (cb : ConsecutiveBreaker) (rs : list quoteRequest) : list quoteReply * ConsecutiveBreaker :=
  match rs with
  | [] => ([], cb)
  | r :: rs' =>
      let '(q, cb1) := handleGetQuote cb r in
      let '(qs, cb2) := handleQuotes cb1 rs' in (q :: qs, cb2)
  end.
End endpoint.

(** ** The shared breaker *)

(** Not closed, and no probe is running. *)
Definition stuck (cb : ConsecutiveBreaker) : Prop :=
  state (gate_ cb) ≠ StateClosed ∧ halfOpenInFlight (gate_ cb) = 0 ∧ maxHalfOpen (gate_ cb) = 1.
(** The one probe is running. *)
Definition probing (cb : ConsecutiveBreaker) : Prop :=
  state (gate_ cb) = StateHalfOpen ∧ halfOpenInFlight (gate_ cb) = 1 ∧ maxHalfOpen (gate_ cb) = 1.

(** While the probe is running every other call is refused. *)
Lemma enter_probing cb ctxErr now : probing cb → ∃ e cb', enter cb ctxErr now = (inl e, cb') ∧ probing cb'.
Proof.
  intros (Hs & Hn & Hm). unfold enter. destruct ctxErr as [e|]; [by exists e, cb|].
  cbn. unfold canExecute, admission. cbn. rewrite Hs, Hn, Hm. cbn. eexists _, _. split; [done|].
  unfold probing. cbn. by rewrite Hs, Hn, Hm.
Qed.

Lemma enter_stuck cb ctxErr now : stuck cb →
  (∃ e cb', enter cb ctxErr now = (inl e, cb') ∧ stuck cb') ∨ (∃ cb', enter cb ctxErr now = (inr true, cb') ∧ probing cb').
Proof.
  intros (Hs & Hn & Hm). unfold enter. destruct ctxErr as [e|]; [left; by exists e, cb|].
  cbn. unfold canExecute. set (cb0 := Consecutive.initDefaults cb).
  assert (state (gate_ cb0) = state (gate_ cb) ∧ halfOpenInFlight (gate_ cb0) = 0 ∧ maxHalfOpen (gate_ cb0) = 1) as (Hs0 & Hn0 & Hm0).
  { unfold cb0, Consecutive.initDefaults, gateDefaults. cbn. by rewrite Hm. }
  clearbody cb0. unfold admission. rewrite Hs0. destruct (state (gate_ cb)) eqn:Es; [done| |].
  - destruct (_ <? _) eqn:Et.
    + right. eexists. split; [done|]. unfold probing. cbn. by rewrite transition_state, transition_max, Hm0.
    + left. eexists _, _. split; [done|]. unfold stuck. cbn. by rewrite Hs0, Hn0, Hm0.
  - rewrite Hn0, Hm0. right. eexists. split; [done|]. unfold probing. cbn. by rewrite Hs0, Hm0.
Qed.

Section stuck.
Context (validURL : string → bool) (url : string) (Hurl : url ≠ "").

Lemma fetch_probing symbol cb f : probing cb →
  ∃ e cb', FetchQuote validURL url symbol cb f = (inr e, cb') ∧ probing cb'.
Proof using Hurl.
  intros Hp. unfold FetchQuote. rewrite bool_decide_false by done. unfold FetchQuoteHTTP.
  destruct (negb _); [by exists (ErrNew "invalid URL"), cb|]. unfold clientDo, roundTripCircuitBreaker.
  destruct (enter_probing cb (f_ctx1 f) (f_now1 f) Hp) as (e & cb' & -> & Hp'). by exists (ErrWrap "Get" e), cb'.
Qed.

Lemma breakerBefore_probing cb r i : probing cb → probing (breakerBefore validURL url cb r i).
Proof using Hurl.
  intros Hp. induction i as [|i IH]; [done|]. cbn.
  by destruct (fetch_probing (qr_symbol r) _ (qr_fetch r i) IH) as (e & cb' & -> & ?).
Qed.

(** The retries of a probe all fail. *)
Lemma retries_probing cb r : probing cb →
  ∃ e cb', fetchWithRetries validURL url cb r = (inr e, cb') ∧ probing cb'.
Proof using Hurl.
  intros Hp. unfold fetchWithRetries, DoWithResult. cbv zeta.
  set (w := World _ _ _ _). destruct (loop_branches retryConfig w) as (_ & _ & (i & _ & _ & He) & _).
  assert (∃ e, Retry.result (doInternal retryConfig w) = inr e) as [e Ee].
  { unfold ended in He. destruct (ctxBefore w i) as [e|]; [destruct He; by eauto|]. destruct He as [_ He].
    destruct (fn w i) as [q|e] eqn:Ef.
    - exfalso. unfold w in Ef. cbn in Ef.
      destruct (fetch_probing (qr_symbol r) _ (qr_fetch r (Z.to_nat i)) (breakerBefore_probing cb r (Z.to_nat i) Hp))
        as (e & cb' & E & _). rewrite E in Ef. done.
    - destruct (negb _); [by eauto|]. destruct (_ =? _); [by eauto|]. destruct He as (_ & e' & _ & ?). by eauto. }
  rewrite Ee. eexists _, _. split; [done|]. by apply breakerBefore_probing.
Qed.

Lemma leave_probing cb e ctxErr now : probing cb →
  (leave cb true (Returned (Some e)) ctxErr now).1 = Ret (Some e) ∧
  stuck (leave cb true (Returned (Some e)) ctxErr now).2.
Proof using.
  intros (Hs & Hn & Hm). split; [done|]. cbn. unfold recordResult, stuck.
  destruct (errors_Is e Canceled); cbn; unfold decrementHalfOpen, failProbe; cbn; rewrite Hn; cbn.
  - by rewrite Hs, Hm.
  - rewrite transition_state, transition_inFlight, transition_max. cbn. by rewrite Hm.
Qed.

Lemma quoteFailed_status e : quoteStatus (quoteFailed e) = if errors_Is e ErrCircuitOpen then 503 else 500.
Proof using. unfold quoteFailed. by destruct (errors_Is e ErrCircuitOpen). Qed.

Lemma handle_stuck cb r : stuck cb →
  let '(q, cb') := handleGetQuote validURL url cb r in
  stuck cb' ∧ (quoteStatus q = 400 ∨ quoteStatus q = 500 ∨ quoteStatus q = 503).
Proof using Hurl.
  intros Hst. unfold handleGetQuote. case_bool_decide; [by auto|].
  assert (Hq : ∀ e, quoteStatus (quoteFailed e) = 400 ∨ quoteStatus (quoteFailed e) = 500 ∨ quoteStatus (quoteFailed e) = 503).
  { intros e. rewrite quoteFailed_status. destruct (errors_Is e _); auto. }
  destruct (enter_stuck cb (qr_ctx1 r) (qr_now1 r) Hst) as [(e & cb1 & -> & Hst1)|(cb1 & -> & Hp)]; [by auto|].
  destruct (retries_probing cb1 r Hp) as (e & cb2 & -> & Hp2).
  destruct (leave_probing cb2 e (qr_ctx2 r) (qr_now2 r) Hp2) as [H1 H2].
  destruct (leave cb2 true (Returned (Some e)) (qr_ctx2 r) (qr_now2 r)) as [out cb3]. cbn in H1, H2. subst out. auto.
Qed.

Lemma handleQuotes_stuck rs cb : stuck cb →
  let '(qs, cb') := handleQuotes validURL url cb rs in
  stuck cb' ∧ Forall (λ q, quoteStatus q = 400 ∨ quoteStatus q = 500 ∨ quoteStatus q = 503) qs.
Proof using Hurl.
  revert cb. induction rs as [|r rs IH]; intros cb Hst; cbn; [done|].
  pose proof (handle_stuck cb r Hst) as Hh. destruct (handleGetQuote validURL url cb r) as [q cb1].
  destruct Hh as [Hst1 Hq]. specialize (IH cb1 Hst1). destruct (handleQuotes validURL url cb1 rs) as [qs cb2].
  destruct IH as [? ?]. split; [done|]. by constructor.
Qed.
End stuck.

(** ** A closed breaker *)

Lemma closed_pass cb now1 : state (gate_ cb) = StateClosed →
  ∃ cb1, enter cb None now1 = (inr false, cb1) ∧ state (gate_ cb1) = StateClosed ∧
    ∀ now2, (leave cb1 false (Returned None) None now2).1 = Ret None ∧
      state (gate_ (leave cb1 false (Returned None) None now2).2) = StateClosed ∧
      failures (leave cb1 false (Returned None) None now2).2 = 0.
Proof.
  intros Hs. unfold enter. cbn. unfold canExecute, admission. cbn. rewrite Hs. eexists. split; [done|].
  split; [done|]. intros now2. cbn. unfold recordResult. cbn. by rewrite Hs.
Qed.

Lemma closed_leave cb now2 : state (gate_ cb) = StateClosed →
  (leave cb false (Returned None) None now2).1 = Ret None ∧
  state (gate_ (leave cb false (Returned None) None now2).2) = StateClosed ∧
  failures (leave cb false (Returned None) None now2).2 = 0.
Proof. intros Hs. cbn. unfold recordResult. by rewrite bool_decide_true. Qed.

(** The upstream answers the first attempt with 200 and a quote. *)
Definition answers (f : fetch) (q : Quote) : Prop :=
  f_ctx1 f = None ∧ f_ctx2 f = None ∧ ctxErrBefore (f_world f) 0 = None ∧
  (∃ resp, transport (f_world f) 0 = inl resp ∧ hStatusCode resp = 200) ∧ f_decoded f = inl q.

Lemma fetch_answers validURL url symbol cb f q :
  url ≠ "" → validURL (targetURL url symbol) = true → state (gate_ cb) = StateClosed → answers f q →
  ∃ q' cb', FetchQuote validURL url symbol cb f = (inl q', cb') ∧ Symbol q' = Symbol q ∧ Price q' = Price q ∧
    state (gate_ cb') = StateClosed.
Proof.
  intros Hurl Hv Hs (H1 & H2 & H3 & (resp & Ht & H200) & Hd). unfold FetchQuote, FetchQuoteHTTP.
  rewrite bool_decide_false, Hv by done. cbn [negb]. unfold clientDo.
  assert (executeRetries retryConfig (f_world f) NoBody = (inl resp, Trace [[]] [] [])) as ->.
  { unfold executeRetries. cbn [clientAttempts]. change (Z.to_nat _) with 2%nat. cbn [attemptLoop]. rewrite H3.
    unfold performAttempt. rewrite Ht, H200. done. }
  rewrite H1, H2. destruct (closed_pass cb (f_now1 f) Hs) as (cb1 & E & _ & Hl).
  assert (HE : roundTripCircuitBreaker cb (inl resp, Trace [[]] [] []) None (f_now1 f) None (f_now2 f)
    = (inl resp, Trace [[]] [] [], (leave cb1 false (Returned None) None (f_now2 f)).2)).
  { rewrite (breaker_transparent cb (inl resp) _ None _ None _ false cb1) by (done || by left).
    cbn [breakerError]. by rewrite H200. }
  rewrite HE, H200. cbn [negb Z.eqb Pos.eqb]. rewrite Hd. eexists _, _. split; [done|].
  split_and!; [by repeat case_match|by repeat case_match|apply Hl].
Qed.

Lemma handle_answers validURL url cb r q :
  url ≠ "" → validURL (targetURL url (qr_symbol r)) = true → qr_symbol r ≠ "" → state (gate_ cb) = StateClosed →
  qr_ctx1 r = None → qr_ctx2 r = None → qr_before r 0 = None → answers (qr_fetch r 0) q →
  ∃ q' cb', handleGetQuote validURL url cb r = (QuoteOK q', cb') ∧ Symbol q' = Symbol q ∧ Price q' = Price q ∧
    state (gate_ cb') = StateClosed ∧ failures cb' = 0.
Proof.
  intros Hurl Hv Hsym Hs H1 H2 Hb Ha. unfold handleGetQuote. rewrite bool_decide_false, H1, H2 by done.
  destruct (closed_pass cb (qr_now1 r) Hs) as (cb1 & -> & Hs1 & _).
  destruct (fetch_answers validURL url (qr_symbol r) cb1 _ q Hurl Hv Hs1 Ha) as (q' & cb2 & Ef & Hq1 & Hq2 & Hs2).
  assert (fetchWithRetries validURL url cb1 r = (inl q', cb2)) as ->.
  { unfold fetchWithRetries, DoWithResult, doInternal. change (Z.to_nat (attempts retryConfig - 1)) with 2%nat.
    cbn [loop ctxBefore]. rewrite Hb. cbn [fn]. change (Z.to_nat 0) with 0%nat. cbn [breakerBefore]. rewrite Ef. cbn [fst Retry.result calls].
    change (Z.to_nat (0 + 1)) with 1%nat. cbn [breakerBefore]. by rewrite Ef. }
  destruct (closed_leave cb2 (qr_now2 r) Hs2) as (E1 & E2 & E3).
  destruct (leave cb2 false (Returned None) None (qr_now2 r)) as [out cb3] eqn:El. cbn in E1, E2, E3. subst out.
  eexists _, _. split; [done|]. unfold completeQuote. by repeat case_match.
Qed.

(** An upstream that is down. *)
Definition downWorld : clientWorld :=
  ClientWorld (λ _, inr (ErrNew "connection refused")) (λ _, None) (λ _, false) (λ _, None) (λ _, f0) (λ _, []).
Definition downAt (t : Time) : quoteRequest :=
  QuoteRequest "AAPL" None t None t (λ _, Fetch downWorld None t None t (inr (ErrNew "")) t) (λ _, None) (λ _, None) (λ _, f0) t.
(** One that is up again. *)
Definition upWorld : clientWorld :=
  ClientWorld (λ _, inl (mkHttpResponse 200 true)) (λ _, None) (λ _, false) (λ _, None) (λ _, f0) (λ _, []).
Definition upAt (t : Time) : quoteRequest :=
  QuoteRequest "AAPL" None t None t (λ _, Fetch upWorld None t None t (inl (mkQuote "AAPL" f1 1 1)) t) (λ _, None) (λ _, None) (λ _, f0) t.

(** C31: The quote endpoint with an upstream service. While the breaker is
    closed an answer of the upstream is handed on with 200 and counts as a
    success. But the client of the endpoint has the same breaker as the
    endpoint itself. A request that fails counts up to four failures, so the
    second one opens the breaker that is set to five. And once it is open
    it never closes again, whatever the upstream answers and whenever requests come (one after the
    other): the probe that the endpoint takes makes the
    client's own call be refused, so every request fails with 500 or 503
    (400 without a symbol). *)
Theorem quotes_shared_breaker :
  (∀ validURL url cb r q,
     url ≠ "" → validURL (targetURL url (qr_symbol r)) = true → qr_symbol r ≠ "" → state (gate_ cb) = StateClosed →
     qr_ctx1 r = None → qr_ctx2 r = None → qr_before r 0 = None → answers (qr_fetch r 0) q →
     ∃ q' cb', handleGetQuote validURL url cb r = (QuoteOK q', cb') ∧ Symbol q' = Symbol q ∧ Price q' = Price q ∧
       state (gate_ cb') = StateClosed ∧ failures cb' = 0) ∧
  (∀ validURL url cb rs, url ≠ "" → stuck cb →
     let '(qs, cb') := handleQuotes validURL url cb rs in
     state (gate_ cb') ≠ StateClosed ∧ Forall (λ q, quoteStatus q = 400 ∨ quoteStatus q = 500 ∨ quoteStatus q = 503) qs) ∧
  (let after2 := (handleQuotes (λ _, true) "http://q" appBreaker [downAt 1; downAt 2]).2 in
   failures (handleQuotes (λ _, true) "http://q" appBreaker [downAt 1]).2 = 4 ∧ maxFailures appBreaker = 5 ∧
   state (gate_ after2) = StateOpen ∧ stuck after2).
Proof.
  split_and!.
  - apply handle_answers.
  - intros validURL url cb rs Hurl Hst. pose proof (handleQuotes_stuck validURL url Hurl rs cb Hst) as Hq.
    destruct (handleQuotes validURL url cb rs) as [qs cb']. destruct Hq as [[? _] ?]. done.
  - vm_compute. split_and!; done.
Qed.

(** An hour after the upstream is back the endpoint still fails. *)
Lemma quotes_shared_breaker_witness :
  let after2 := (handleQuotes (λ _, true) "http://q" appBreaker [downAt 1; downAt 2]).2 in
  let '(qs, cb') := handleQuotes (λ _, true) "http://q" after2 [upAt (60 * Minute); upAt (61 * Minute)] in
  state (gate_ cb') ≠ StateClosed ∧ Forall (λ q, quoteStatus q = 400 ∨ quoteStatus q = 500 ∨ quoteStatus q = 503) qs.
Proof.
  apply (proj1 (proj2 quotes_shared_breaker)); [discriminate|vm_compute; split_and!; done].
Defined.
