(* ===== verification/Items.v ===== *)
(** The item endpoints of the reference service
    (examples/microservice/main.go): pages of a catalogue through a cache, and
    single items. *)
From S2P Require Import Prelude Text Base64 Float64 Strconv AppError Paging CacheIface Sampled TypedCache Quotes.

Record Item := mkItem { ID : string; Name : string; Category : string }.

#[global] Instance Item_eq_dec : EqDecision Item.
Proof. solve_decision. Defined.

(** ** Pages *)

Definition itemAt (idx : Z) : Item :=
  mkItem ("item-" +:+ Itoa idx) ("Product " +:+ Itoa idx) (if go_rem idx 2 =? 0 then "premium" else "standard").

(** The loop of the function that fetches a page. *)
Fixpoint itemsLoop (left : nat) (i : Z) (p : Params) : list Item :=
  match left with
  | O => []
  | S left' =>
      let idx := (Offset p +! i) +! 1 in
      if 100 <? idx then [] else itemAt idx :: itemsLoop left' (i + 1) p
  end.
Definition fetchItems (p : Params) : list Item := itemsLoop (Z.to_nat (Limit p)) 0 p.

Definition itemsKey (p : Params) : string := "items:page:" +:+ Itoa (Page p) +:+ ":limit:" +:+ Itoa (Limit p).

(** [strings.EqualFold]. *)
Definition EqualFold (s t : string) : bool := bool_decide (ToLower s = ToLower t).

(** A reply of the endpoint, or a panic. *)
Inductive itemsReply :=
| ItemsPage (r : TypedResponse (list Item))
| ItemsChunks (chunks : list (list Item)) (total : Z)
| ItemsError (r : httpReply)
| ItemsPanic.

(** What is sent for the items of a page: the filter by category, then chunks
    when a positive size is given, else the page. *)
Definition sendItems (p : Params) (category chunkSize : string) (items : list Item) : itemsReply :=
  let filtered := if bool_decide (category = "") then items
                  else filter (λ it, EqualFold (Category it) category = true) items in
  let page := ItemsPage (NewTypedResponse filtered 100 p) in
  if bool_decide (chunkSize = "") then page
  else match Atoi chunkSize with
       | Some size =>
           if 0 <? size then
             match Chunk filtered size with
             | Some chunks => ItemsChunks chunks (len filtered)
             | None => ItemsPanic
             end
           else page
       | None => page
       end.

(** A request: its query, and [ctx.Err()] and the clock readings of the call of
    the cache. *)
Record itemsRequest := ItemsRequest {
  ir_page : string; ir_limit : string; ir_category : string; ir_chunkSize : string;
  ir_ctx : option error; ir_done : option error; ir_clk1 : readings; ir_clk2 : readings;
}.

Section pages.
Context `{RangeOrder (list Item)}.

Definition handleGetItems (c : TypedCache (list Item)) (r : itemsRequest) : option (itemsReply * TypedCache (list Item)) :=
  let p := Parse (ir_page r) (ir_limit r) in
  '(res, c') ← GetOrFetch c (ir_ctx r) (itemsKey p) (2 * Minute) (inl (fetchItems p)) Leader (ir_done r) (ir_clk1 r) (ir_clk2 r);
  Some (match res with
        | inr e => ItemsError (Error (errorText (goerrOf e)) 500)
        | inl items => sendItems p (ir_category r) (ir_chunkSize r) items
        end, c').

Fixpoint serveItems (c : TypedCache (list Item)) (rs : list itemsRequest) : option (list itemsReply * TypedCache (list Item)) :=
  match rs with
  | [] => Some ([], c)
  | r :: rs' => '(q, c1) ← handleGetItems c r; '(qs, c2) ← serveItems c1 rs'; Some (q :: qs, c2)
  end.
End pages.

(** ** Single items *)

Inductive itemReply := ItemOK (it : Item) | ItemError (r : httpReply).

(** [strings.TrimPrefix]. *)
Fixpoint trimPrefix (s pre : string) : string :=
  match pre, s with
  | EmptyString, _ => s
  | String a pre', String b s' => if bool_decide (a = b) then trimPrefix s' pre' else s
  | _, EmptyString => s
  end.
Definition TrimPrefix (s pre : string) : string := if HasPrefix s pre then trimPrefix s pre else s.

(** [%q] of an identifier of printable ASCII characters. *)
Definition handleGetItemByID (id : string) : itemReply :=
  if bool_decide (id = "") then ItemError (ErrorFromDomain (BadRequest "missing item id"))
  else if negb (HasPrefix id "item-") then ItemError (ErrorFromDomain (NotFound ("item " +:+ quoted id +:+ " not found")))
  else ItemOK (mkItem id ("Product " +:+ TrimPrefix id "item-") "standard").

(** ** The catalogue *)

Definition catalogue : list Item := itemAt <$> seqZ 1 100.

Lemma itemsLoop_spec left i p : 0 <= i → 1 <= Page p <= 10000 → 1 <= Limit p <= MaxLimit → Offset p = (Page p - 1) * Limit p →
  i + Z.of_nat left <= Limit p →
  itemsLoop left i p = take left (drop (Z.to_nat (Offset p + i)) catalogue).
Proof.
  intros Hi Hp Hl Ho. revert i Hi. induction left as [|left IH]; intros i Hi Hle; [done|].
  assert (0 <= Offset p <= 1000000) as Hoff by (unfold MaxLimit in Hl; nia).
  assert ((Offset p +! i) +! 1 = Offset p + i + 1) as E.
  { unfold MaxLimit in Hl. rewrite (wrap64_id (Offset p + i)), wrap64_id; unfold in_int64, minInt64, maxInt64; lia. }
  cbn [itemsLoop]. rewrite E. destruct (Z.ltb_spec 100 (Offset p + i + 1)).
  - rewrite drop_ge; [by destruct left|]. unfold catalogue. rewrite length_fmap, length_seqZ. lia.
  - assert (catalogue !! Z.to_nat (Offset p + i) = Some (itemAt (Offset p + i + 1))) as Hk.
    { unfold catalogue. rewrite list_lookup_fmap, lookup_seqZ_lt by lia. cbn. do 2 f_equal. lia. }
    rewrite (drop_S _ _ _ Hk). cbn [take]. rewrite IH by lia. do 3 f_equal. lia.
Qed.

(** A page is the slice of the catalogue at its offset. *)
Lemma fetchItems_spec page limit : let p := Parse page limit in
  fetchItems p = take (Z.to_nat (Limit p)) (drop (Z.to_nat ((Page p - 1) * Limit p)) catalogue).
Proof.
  cbv zeta. destruct (Parse_bounds page limit) as (Hp & Hl & Ho). set (p := Parse page limit) in *.
  unfold fetchItems. rewrite itemsLoop_spec by (done || lia). by rewrite Z.add_0_r, Ho.
Qed.

(** ** Keys *)

Lemma append_inj_l s t u : s +:+ t = s +:+ u → t = u.
Proof. induction s as [|a s IH]; [done|]. intros E. apply IH. by injection E. Qed.

Lemma Itoa_inj n m : Itoa n = Itoa m → n = m.
Proof. apply (inj pretty.pretty). Qed.

Lemma itemsKey_inj p p' : 0 <= Page p → 0 <= Page p' → itemsKey p = itemsKey p' → p = p'.
Proof.
  intros Hp Hp' E. unfold itemsKey in E. apply append_inj_l in E.
  destruct (pretty_digits (Page p) Hp) as (Hd & _). destruct (pretty_digits (Page p') Hp') as (Hd' & _).
  pose proof (f_equal spanDigits E) as Es. rewrite !spanDigits_all in Es by done.
  injection Es as E1 E2. apply Itoa_inj in E1. apply Itoa_inj in E2. destruct p, p'. cbn in *. congruence.
Qed.

(** ** The cache is transparent *)

Section transparent.
Context `{RangeOrder (list Item)}.
Implicit Types c : TypedCache (list Item).

(** Every page in the cache is the one that would be fetched. *)
Definition cacheOk c : Prop :=
  typedInv c ∧ ∀ page limit v e, contents c !! itemsKey (Parse page limit) = Some (v, e) → v = fetchItems (Parse page limit).

(** The clock of a request does not go back and is before 2262. *)
Definition requestOk (r : itemsRequest) : Prop :=
  steady (ir_clk1 r) ∧ steady (ir_clk2 r) ∧ expiryOk [2 * Minute] (ir_clk2 r 0%nat).

(** The slice of the catalogue a request asks for. *)
Definition wanted (r : itemsRequest) : list Item :=
  let p := Parse (ir_page r) (ir_limit r) in
  take (Z.to_nat (Limit p)) (drop (Z.to_nat ((Page p - 1) * Limit p)) catalogue).

(** The reply to a request that is not cancelled. *)
Definition itemsSpec (r : itemsRequest) (q : itemsReply) : Prop :=
  (ir_ctx r = None → ir_done r = None →
     q = sendItems (Parse (ir_page r) (ir_limit r)) (ir_category r) (ir_chunkSize r) (wanted r)) ∧
  (∀ e, ir_ctx r = Some e → q = ItemsError (Error (errorText (goerrOf e)) 500)).

Lemma Parse_key_inj page limit page' limit' :
  itemsKey (Parse page limit) = itemsKey (Parse page' limit') → Parse page limit = Parse page' limit'.
Proof.
  destruct (Parse_bounds page limit) as (Hp & _). destruct (Parse_bounds page' limit') as (Hp' & _).
  apply itemsKey_inj; lia.
Qed.

Lemma handleGetItems_spec c r : cacheOk c → requestOk r →
  ∃ q c', handleGetItems c r = Some (q, c') ∧ cacheOk c' ∧ itemsSpec r q.
Proof.
  intros [HI Hok] (H1 & H2 & He). unfold handleGetItems, itemsSpec, wanted. cbv zeta.
  pose proof (fetchItems_spec (ir_page r) (ir_limit r)) as Hf. cbv zeta in Hf. rewrite <-Hf. set (p := Parse (ir_page r) (ir_limit r)) in *.
  destruct (GetOrFetch_spec c (ir_ctx r) (itemsKey p) (2 * Minute) (inl (fetchItems p)) (ir_done r) (ir_clk1 r) (ir_clk2 r) HI H1 H2 He)
    as (res & c' & -> & HI' & _ & Hs). cbn [mbind option_bind]. eexists _, c'. split; [done|]. unfold fetchSpec in Hs.
  destruct (ir_ctx r) as [e|].
  { destruct Hs as [-> Hc]. split; [split; [done|by rewrite Hc]|]. split; [done|]. by intros e' [= <-]. }
  destruct (live (ir_clk1 r 0%nat) (contents c !! itemsKey p)) as [v|] eqn:El.
  - destruct Hs as [-> Hc]. split; [split; [done|by rewrite Hc]|]. split; [|done]. intros _ _.
    unfold live in El. destruct (contents c !! itemsKey p) as [[v' e]|] eqn:Ek; [|done].
    destruct (expired e _); [done|]. injection El as ->. unfold p in Ek. by rewrite (Hok _ _ _ _ Ek).
  - destruct Hs as (-> & Hk & Hother). split.
    + split; [done|]. intros page limit v e Hv. destruct (decide (itemsKey (Parse page limit) = itemsKey p)) as [E|Hne].
      * rewrite E, Hk in Hv. injection Hv as <- _. unfold p in *. by rewrite (Parse_key_inj _ _ _ _ E).
      * destruct (Hother _ Hne) as [Ho|Ho]; rewrite Ho in Hv; [by apply (Hok _ _ _ e)|done].
    + split; [|done]. by intros _ ->.
Qed.

Lemma serveItems_spec rs c : cacheOk c → Forall requestOk rs →
  ∃ qs c', serveItems c rs = Some (qs, c') ∧ cacheOk c' ∧ Forall2 itemsSpec rs qs.
Proof.
  intros Hc Hrs. revert c Hc. induction Hrs as [|r rs Hr Hrs IH]; intros c Hc; cbn; [by eauto|].
  destruct (handleGetItems_spec c r Hc Hr) as (q & c1 & -> & Hc1 & Hq). cbn.
  destruct (IH c1 Hc1) as (qs & c2 & -> & Hc2 & Hqs). cbn. eauto 10.
Qed.

(** The list of items. For every configuration of the cache and every
    history of requests, each request that is not cancelled is answered with the slice of
    the catalogue that its page and limit (as clamped) name, filtered and
    chunked as it asks: the cache never shows. But the page reports a total
    of 100 items whatever the filter leaves, and a chunk size
    just below [2^63] makes the handler panic. *)
Lemma items_transparent opts rs :
  Forall requestOk rs →
  (∃ qs c, serveItems (NewTypedCache opts) rs = Some (qs, c) ∧ Forall2 itemsSpec rs qs) ∧
  (∀ p items, r_Total <$> (match sendItems p "no such category" "" items with ItemsPage r => Some r | _ => None end) = Some 100) ∧
  sendItems (mkParams 1 100) "" "9223372036854775748" catalogue = ItemsPanic.
Proof.
  intros Hrs. split_and!.
  - destruct (typed_new (T := list Item) opts) as (HI & Hc & _).
    destruct (serveItems_spec rs (NewTypedCache opts)) as (qs & c & ? & _ & ?); [|done|by eauto].
    split; [done|]. intros page limit v e. by rewrite Hc.
  - done.
  - by vm_compute.
Qed.
End transparent.

Lemma items_transparent_witness :
  let r := ItemsRequest "2" "30" "PREMIUM" "" None None clk2024 clk2024 in
  ∃ qs c, @serveItems (mapOrder (list Item)) (NewTypedCache []) [r; r] = Some (qs, c) ∧ Forall2 itemsSpec [r; r] qs.
Proof.
  intros r. apply (@items_transparent (mapOrder (list Item)) [] [r; r]).
  repeat constructor; try apply clk2024_steady; vm_compute; discriminate.
Defined.
