(* ===== verification/Microservice.v ===== *)
(** The reference service (examples/microservice/main.go): its configuration
    and metrics, the middleware stack around the endpoints, the tasks endpoint
    and the metrics endpoint. The item and quote endpoints are in Items.v and
    Quotes.v. *)
From S2P Require Import Prelude WorkerPool Text Base64 Float64 Strconv Env AppError Cors SecHeaders RedMetrics TokenBucket RateLimit.
From S2P Require Import Idempotency Recorder Web Pipeline Breaker.
#[local] Open Scope Z_scope.

(** ** Configuration *)

Record Config := mkConfig {
  Port : string; ReadHeaderTimeout : Duration; WorkerPoolSize : Z; WorkerQueueCap : Z;
  ShutdownTimeout : Duration; QuoteServiceURL : string;
}.

Definition LoadConfig (e : environment) : Config :=
  mkConfig (String_ e "PORT" ":8080") (Duration_ e "READ_HEADER_TIMEOUT" (5 * Second))
    (Int e "WORKER_POOL_SIZE" 4) (Int e "WORKER_QUEUE_CAP" 100)
    (Duration_ e "SHUTDOWN_TIMEOUT" (10 * Second)) (String_ e "QUOTE_SERVICE_URL" "").

(** ** Metrics *)

(** [AtomicCounter] and [AtomicGauge]; the conversion of a float that is out of
    range is left to the implementation, and 0 here. *)
Definition counterInc (v : Z) : Z := wrapU64 (v + 1).
Definition counterAdd (v : Z) (delta : float64) : Z :=
  if fleb delta f0 then v else wrapU64 (v + default 0 (to_uint64 delta)).
Definition gaugeSet (value : float64) : Z := default 0 (to_int64 value).
Definition gaugeAdd (v : Z) (delta : float64) : Z := v +! default 0 (to_int64 delta).

Record AppMetrics := mkAppMetrics {
  BreakerRequests : Z; BreakerFailures : Z; BreakerState : Z;
  PoolSubmitted : Z; PoolCompleted : Z; PoolDropped : Z; PoolPanics : Z; PoolQueueSize : Z;
  CacheHits : Z; CacheMisses : Z; CacheEvictions : Z;
  HTTPRequestsTotal : Z; HTTPResponses2xx : Z; HTTPResponses4xx : Z; HTTPResponses5xx : Z; HTTPDurationSumMs : Z;
}.
Definition NewAppMetrics : AppMetrics := mkAppMetrics 0 0 0 0 0 0 0 0 0 0 0 0 0 0 0 0.

(** The counters of HTTP requests after [c.Next()]. *)
Definition countRequest (m : AppMetrics) (status durationMs : Z) : AppMetrics :=
  let one v (p : bool) := if p then counterAdd v f1 else v in
  let is2 := (200 <=? status) && (status <? 300) in
  let is4 := negb is2 && (400 <=? status) && (status <? 500) in
  let is5 := negb is2 && negb is4 && (500 <=? status) in
  mkAppMetrics (BreakerRequests m) (BreakerFailures m) (BreakerState m)
    (PoolSubmitted m) (PoolCompleted m) (PoolDropped m) (PoolPanics m) (PoolQueueSize m)
    (CacheHits m) (CacheMisses m) (CacheEvictions m)
    (counterAdd (HTTPRequestsTotal m) f1) (one (HTTPResponses2xx m) is2) (one (HTTPResponses4xx m) is4)
    (one (HTTPResponses5xx m) is5) (counterAdd (HTTPDurationSumMs m) (of_int durationMs)).

(** The parts of [App] the requests below change: the metrics and the pool. *)
Record App := mkApp { Metrics : AppMetrics; Pool_ : Pool }.
Definition NewApp (cfg : Config) : App := mkApp NewAppMetrics (WorkerPool.New (WorkerPoolSize cfg) (WorkerQueueCap cfg)).
Definition setMetrics (a : App) (m : AppMetrics) : App := mkApp m (Pool_ a).

(** ** The stack *)

(** [GlobalRateLimit]: the wrapped handler writes its response and returns. *)
Definition rateLimit {W} (r : RateLimit.response) : handler W := λ c,
  let w := setHeaders (c_w c) (setAll (w_headers (c_w c)) r.1) in
  Returns (setW c (match r.2 with Rejected status text => writeBody (setStatus w status) (PText text) | Passed => w end)).

(** The last middleware of the stack. *)
Definition countRequests (durationMs : Z) : handler App := λ c,
  goOnThen c (λ c, let a := c_world c in
    setWorld c (setMetrics a (countRequest (Metrics a) (w_status (c_w c)) durationMs))).

(** [r.Use(...)]; [limited] is the response of the limiter to the address of
    the request. *)
Definition stack (uuid : string) (carrier : list (string * string)) (limited : RateLimit.response) (durationMs : Z)
    : list (handler App) :=
  [RequestID uuid; SecurityHeaders []; Pipeline.CORS ["*"]; Recovery; Logger; Telemetry carrier;
   rateLimit limited; LimitBodyDefault; countRequests durationMs].

(** [registerRoutes]. *)
Inductive endpoint := Liveness | Readiness | HealthCheck | Metrics_ | GetItems | GetItemByID | GetQuote | CreateTask.
Definition registerRoutes : list (string * string * endpoint) :=
  [("GET", "/health/live", Liveness); ("GET", "/health/ready", Readiness); ("GET", "/health", HealthCheck);
   ("GET", "/metrics", Metrics_); ("GET", "/api/v1/items", GetItems); ("GET", "/api/v1/items/:id", GetItemByID);
   ("GET", "/api/v1/quotes", GetQuote); ("POST", "/api/v1/tasks", CreateTask)].

(** ** Tasks *)

(** [httputil.WriteJSON] and the replies made of it, on gin's writer. *)
Definition jsonHeaders : list (string * string) :=
  [("Content-Type", "application/json; charset=utf-8"); ("X-Content-Type-Options", "nosniff")].
Definition httpJSON (w : writer) (status : Z) (v : json) : writer :=
  writeBody (setStatus (setHeaders w (setAll (w_headers w) jsonHeaders)) status) (PJson v).
Definition OK (w : writer) (data : json) : writer := httpJSON w 200 data.
Definition Created (w : writer) (data : json) : writer := httpJSON w 201 data.
Definition NoContent (w : writer) : writer := setStatus w 204.

(** [c.ShouldBindJSON]: the payload, or the text of an error; [parsed] is what a body
    that can be read decodes to, with "" for a missing payload, which the tag [required]
    refuses with the text [missing]. *)
Definition bindTask (limit : option Z) (size : Z) (parsed : string + string) (missing : string) : string + string :=
  match readAll limit size with
  | None => inr "http: request body too large"
  | Some _ =>
      match parsed with
      | inr e => inr e
      | inl "" => inr missing
      | inl payload => inl payload
      end
  end.

(** [Pool.Submit] with the metrics of the service attached to the pool. *)
Definition poolMetrics (m : AppMetrics) (submitted dropped queueSize : Z) : AppMetrics :=
  mkAppMetrics (BreakerRequests m) (BreakerFailures m) (BreakerState m)
    submitted (PoolCompleted m) dropped (PoolPanics m) queueSize
    (CacheHits m) (CacheMisses m) (CacheEvictions m)
    (HTTPRequestsTotal m) (HTTPResponses2xx m) (HTTPResponses4xx m) (HTTPResponses5xx m) (HTTPDurationSumMs m).
Definition submitTask (a : App) (t : nat) : option error * App :=
  let m := Metrics a in
  let '(err, p) := Submit (Pool_ a) (Some t) in
  (err, mkApp (match err with
               | None => poolMetrics m (counterInc (PoolSubmitted m)) (PoolDropped m) (gaugeSet (of_int (Z.of_nat (length (queue p)))))
               | Some _ => poolMetrics m (PoolSubmitted m) (counterInc (PoolDropped m)) (PoolQueueSize m)
               end) p).

(** [handleCreateTask]; [t] stands for the closure it submits. *)
Definition handleCreateTask (parsed : string + string) (missing : string) (t : nat) : handler App := λ c,
  match bindTask (c_limit c) (q_size (c_req c)) parsed missing with
  | inr e => Returns (setW c (httpReplyTo (c_w c) (ValidationError e)))
  | inl payload =>
      let '(err, a) := submitTask (c_world c) t in
      let c := setWorld c a in
      Returns (setW c
        match err with
        | Some err => httpReplyTo (c_w c) (Error (errorText (goerrOf err)) 503)
        | None => Created (c_w c) (JObj [("status", JText "queued"); ("payload", JText payload)])
        end)
  end.

(** ** The metrics endpoint *)

Definition sample (name : string) (v : Z) : string := name +:+ " " +:+ Itoa v.
Definition simpleMetric (name help kind : string) (v : Z) : list string := metric name help kind [sample name v].
Definition statusSample (class : string) (v : Z) : string :=
  "http_requests_total{status=" +:+ quoted class +:+ "} " +:+ Itoa v.

Definition appExposition (m : AppMetrics) : list (list string) :=
  [simpleMetric "app_circuit_breaker_requests_total" "Total number of requests through circuit breaker" "counter" (BreakerRequests m);
   simpleMetric "app_circuit_breaker_failures_total" "Total number of failed requests through circuit breaker" "counter" (BreakerFailures m);
   simpleMetric "app_circuit_breaker_state" "Current state of circuit breaker (0=Closed, 1=HalfOpen, 2=Open)" "gauge" (BreakerState m);
   simpleMetric "app_workerpool_tasks_submitted_total" "Total number of tasks submitted to worker pool" "counter" (PoolSubmitted m);
   simpleMetric "app_workerpool_tasks_completed_total" "Total number of tasks completed by worker pool" "counter" (PoolCompleted m);
   simpleMetric "app_workerpool_tasks_dropped_total" "Total number of tasks dropped by worker pool" "counter" (PoolDropped m);
   simpleMetric "app_workerpool_queue_size" "Current queue size of worker pool" "gauge" (PoolQueueSize m);
   simpleMetric "app_cache_hits_total" "Total number of cache hits" "counter" (CacheHits m);
   simpleMetric "app_cache_misses_total" "Total number of cache misses" "counter" (CacheMisses m);
   simpleMetric "app_cache_evictions_total" "Total number of cache evictions" "counter" (CacheEvictions m);
   metric "http_requests_total" "Total number of HTTP requests processed" "counter"
     [statusSample "2xx" (HTTPResponses2xx m); statusSample "4xx" (HTTPResponses4xx m); statusSample "5xx" (HTTPResponses5xx m)];
   simpleMetric "http_request_duration_ms_total" "Total duration of HTTP requests in milliseconds" "counter" (HTTPDurationSumMs m)].

Definition appMetricsJSON (m : AppMetrics) : json :=
  JObj [("http", JObj [("requests_total", JNum (HTTPRequestsTotal m)); ("responses_2xx", JNum (HTTPResponses2xx m));
           ("responses_4xx", JNum (HTTPResponses4xx m)); ("responses_5xx", JNum (HTTPResponses5xx m));
           ("duration_ms_total", JNum (HTTPDurationSumMs m))]);
        ("circuit_breaker", JObj [("requests", JNum (BreakerRequests m)); ("failures", JNum (BreakerFailures m));
           ("state", JNum (BreakerState m))]);
        ("worker_pool", JObj [("submitted", JNum (PoolSubmitted m)); ("completed", JNum (PoolCompleted m));
           ("dropped", JNum (PoolDropped m)); ("queue_size", JNum (PoolQueueSize m))]);
        ("cache", JObj [("hits", JNum (CacheHits m)); ("misses", JNum (CacheMisses m)); ("evictions", JNum (CacheEvictions m))])].

(** The text of metrics: their lines, with an empty line between metrics. *)
Definition textOf (ms : list (list string)) : string :=
  JoinWith ((λ ls, foldr (λ l acc, l +:+ newline +:+ acc) "" ls) <$> ms) newline.

Definition handleMetrics : handler App := λ c,
  let accept := q_header (c_req c) "Accept" in
  Returns (setW c
    (if Contains accept "text/plain" || Contains accept "openmetrics" || bool_decide (q_query (c_req c) "format" = "prometheus")
     then writeBody (setStatus (setHeaders (c_w c)
            (<["Content-Type" := ["text/plain; version=0.0.4; charset=utf-8"]]> (w_headers (c_w c)))) 200)
            (PText (textOf (appExposition (Metrics (c_world c)))))
     else OK (c_w c) (appMetricsJSON (Metrics (c_world c))))).

(** ** What the stack does to a request *)

Lemma setAll_others h kvs k : k ∉ kvs.*1 → setAll h kvs !! k = h !! k.
Proof.
  unfold setAll. revert h. induction kvs as [|[k' v] kvs IH]; intros h Hk; [done|]. cbn.
  rewrite IH by set_solver. apply lookup_insert_ne. set_solver.
Qed.

(** The context on which the stack calls its endpoint, and what happens after the
    endpoint has returned or panicked. *)
Definition arrived (uuid : string) (carrier : list (string * string)) (limited : RateLimit.response) (r : request) (m : App)
    : ctx App :=
  let id := requestID (q_header r "X-Request-ID") uuid in
  let h0 := New [WithServerName "api"] (<["X-Request-ID" := [id]]> ∅) in
  let h1 := (ginCORS ["*"] (q_header r "Origin") (q_method r) h0).1 in
  let w := setHeaders newWriter (setAll (setAll h1 carrier) limited.1) in
  let w1 := match limited.2 with Rejected status text => writeBody (setStatus w status) (PText text) | Passed => w end in
  let route := if bool_decide (q_fullPath r = "") then "unmatched" else q_fullPath r in
  mkCtx r w1 id [] false (Some (Z.shiftl 2 20)) false (Some true)
    [SpanStart route; SpanAttr "http.route" route; SpanAttr "http.method" (q_method r)] [] m.

#[local] Opaque New setAll ginCORS requestID.

Lemma ginCORS_answered os o m h : (ginCORS os o m h).2 = bool_decide (m = "OPTIONS").
Proof. with_strategy transparent [ginCORS] done. Qed.

(** The response, the metrics and the log do not depend on the span. *)
Lemma record_same {W} (c : ctx W) evs :
  c_w (record c evs) = c_w c ∧ c_world (record c evs) = c_world c ∧ c_log (record c evs) = c_log c ∧
  c_req (record c evs) = c_req c ∧ c_reqID (record c evs) = c_reqID c ∧ c_errors (record c evs) = c_errors c.
Proof. unfold record. by destruct (c_span c) as [[]|]. Qed.

Lemma chain_nexts {W} (h : handler W) hs c c' f g : h c = Nexts c' f g → c_aborted c' = false →
  serveAll (h :: hs) c = match serveAll hs c' with Done c1 => f c1 | Panicking c1 p => g c1 p end.
Proof. intros E Ha. cbn. by rewrite E, Ha. Qed.

Lemma chain_returns {W} (h : handler W) hs c c' : h c = Returns c' → c_aborted c' = false →
  serveAll (h :: hs) c = serveAll hs c'.
Proof. intros E Ha. cbn. by rewrite E, Ha. Qed.

Lemma CORS_passes {W} os (c : ctx W) : q_method (c_req c) ≠ "OPTIONS" →
  Pipeline.CORS os c =
  goOn (setW c (setHeaders (c_w c) (ginCORS os (q_header (c_req c) "Origin") (q_method (c_req c)) (w_headers (c_w c))).1)).
Proof.
  intros Hm. unfold Pipeline.CORS.
  pose proof (ginCORS_answered os (q_header (c_req c) "Origin") (q_method (c_req c)) (w_headers (c_w c))) as Ha.
  destruct (ginCORS _ _ _ _) as [h ans]. cbn in Ha. by rewrite Ha, bool_decide_false.
Qed.

(** The chain up to the endpoint, and what is done afterwards. *)
Definition finished (d : Z) (c : ctx App) : ctx App :=
  drain (let a := c_world c in setWorld c (setMetrics a (countRequest (Metrics a) (w_status (c_w c)) d))).

Lemma stack_arrives uuid carrier limited d r m (h : handler App) :
  q_method r ≠ "OPTIONS" →
  ∃ (ended : ctx App → ctx App) (noticed : ctx App → panicValue → ctx App),
    (∀ c, c_w (ended c) = c_w c ∧ c_world (ended c) = c_world c ∧ c_log (ended c) = c_log c ∧
       c_req (ended c) = c_req c ∧ c_reqID (ended c) = c_reqID c) ∧
    (∀ c p, c_w (noticed c p) = c_w c ∧ c_world (noticed c p) = c_world c ∧ c_log (noticed c p) = c_log c ∧
       c_req (noticed c p) = c_req c) ∧
    serveAll (stack uuid carrier limited d ++ [h]) (newCtx r m) =
    Done (match serveAll [h] (arrived uuid carrier limited r m) with
          | Done c =>
              let c1 := ended (finished d c) in
              logged c1 (AccessLine (c_reqID c1) (q_method (c_req c1)) (q_path (c_req c1)) (w_status (c_w c1)) (q_remote (c_req c1)))
          | Panicking c p => recoverPanic (noticed c p) p
          end).
Proof.
  intros Hm. unfold stack. cbn [app].
  erewrite chain_nexts by reflexivity. erewrite chain_returns by reflexivity.
  erewrite chain_nexts; [|apply CORS_passes; exact Hm|reflexivity].
  do 2 erewrite chain_nexts by reflexivity.
  set (ended := λ c : ctx App, match c_span c with Some true => setSpan c (Some false) (c_events c ++ [SpanEnd]) | _ => c end).
  set (closing := λ c : ctx App,
    let status := w_status (c_w c) in
    let c := record c [SpanAttr "http.status_code" (Itoa status)] in
    ended (match c_errors c with
           | [] => if 500 <=? status then record c [SpanStatus ("HTTP " +:+ Itoa status); SpanError (httpErrorText status)] else c
           | es => record c (SpanStatus (errorsString es) :: (SpanError <$> (errorText <$> es)))
           end)).
  set (noticed := λ (c : ctx App) p, ended (record c [SpanStatus ("panic: " +:+ panicText p); SpanError (panicErr p)])).
  assert (Hended : ∀ c, c_w (ended c) = c_w c ∧ c_world (ended c) = c_world c ∧ c_log (ended c) = c_log c ∧
    c_req (ended c) = c_req c ∧ c_reqID (ended c) = c_reqID c).
  { intros c. unfold ended. by destruct (c_span c) as [[]|]. }
  exists closing, noticed. split_and!.
  - intros c. unfold closing. cbv zeta. set (c1 := record c _). destruct (record_same c [SpanAttr "http.status_code" (Itoa (w_status (c_w c)))])
      as (R1 & R2 & R3 & R4 & R5 & R6). fold c1 in R1, R2, R3, R4, R5, R6.
    assert (∀ c2, c_w c2 = c_w c1 → c_world c2 = c_world c1 → c_log c2 = c_log c1 → c_req c2 = c_req c1 → c_reqID c2 = c_reqID c1 →
      c_w (ended c2) = c_w c ∧ c_world (ended c2) = c_world c ∧ c_log (ended c2) = c_log c ∧ c_req (ended c2) = c_req c ∧ c_reqID (ended c2) = c_reqID c) as Hc.
    { intros c2. destruct (Hended c2) as (-> & -> & -> & -> & ->). intros. split_and!; congruence. }
    destruct (c_errors c1); [destruct (500 <=? _)|]; apply Hc; try done; apply record_same.
  - intros c p. unfold noticed. destruct (record_same c [SpanStatus ("panic: " +:+ panicText p); SpanError (panicErr p)]) as (R1 & R2 & R3 & R4 & _).
    destruct (Hended (record c [SpanStatus ("panic: " +:+ panicText p); SpanError (panicErr p)])) as (-> & -> & -> & -> & _). done.
  - erewrite chain_nexts by reflexivity. erewrite chain_returns; [|reflexivity|destruct limited as [? []]; reflexivity].
    erewrite chain_nexts; [|reflexivity|destruct limited as [? []]; reflexivity].
    erewrite chain_nexts; [|reflexivity|destruct limited as [? []]; reflexivity].
    match goal with |- context [serveAll [h] ?c] => change c with (arrived uuid carrier limited r m) end.
    by destruct (serveAll [h] (arrived uuid carrier limited r m)).
Qed.

Lemma star_allows_nobody origin : origin ≠ "*" → isOriginAllowed origin ["*"] = false.
Proof. intros Hne. cbn. rewrite bool_decide_false by done. done. Qed.

(** A header that neither the carrier nor the limiter sets. *)
Lemma arrived_header uuid carrier limited r m k :
  k ∉ carrier.*1 → k ∉ limited.1.*1 →
  w_headers (c_w (arrived uuid carrier limited r m)) !! k =
  (ginCORS ["*"] (q_header r "Origin") (q_method r)
     (New [WithServerName "api"] (<["X-Request-ID" := [requestID (q_header r "X-Request-ID") uuid]]> ∅))).1 !! k.
Proof.
  intros H1 H2. unfold arrived. cbn [c_w].
  transitivity (setAll (setAll (ginCORS ["*"] (q_header r "Origin") (q_method r)
     (New [WithServerName "api"] (<["X-Request-ID" := [requestID (q_header r "X-Request-ID") uuid]]> ∅))).1 carrier) limited.1 !! k).
  - by destruct limited as [hs []].
  - by rewrite !setAll_others.
Qed.

Lemma ginCORS_headers os o m h :
  (o = "" ∨ isOriginAllowed o os = false →
     (ginCORS os o m h).1 !! "Access-Control-Allow-Origin" = h !! "Access-Control-Allow-Origin") ∧
  (ginCORS os o m h).1 !! "X-Frame-Options" = h !! "X-Frame-Options".
Proof.
  with_strategy transparent [ginCORS] unfold ginCORS. cbn [fst]. split.
  - intros Ho. rewrite !lookup_insert_ne by done.
    destruct Ho as [->| ->]; [rewrite bool_decide_true by done|rewrite andb_false_r]; done.
  - rewrite !lookup_insert_ne by done. destruct (negb _ && _); [by rewrite lookup_insert_ne|done].
Qed.

Lemma New_default_headers id :
  let h := New [WithServerName "api"] (<["X-Request-ID" := [id]]> ∅) in
  h !! "Access-Control-Allow-Origin" = None ∧ h !! "X-Frame-Options" = Some ["DENY"].
Proof.
  split; [|apply (New_headers [WithServerName "api"]); set_solver].
  rewrite New_others; [by rewrite lookup_insert_ne|]. by apply (bool_decide_unpack _).
Qed.

(** C32: The middleware stack of the service, for any engine that keeps what gin documents
    and any request but OPTIONS. An endpoint runs with the security headers set
    and a body limit of 2 MiB; its response is sent as it is, counted by the class of its status and
    logged. An endpoint that panics is answered with 500, but the request is neither counted nor logged as
    a request. A request over the rate limit still reaches its
    endpoint, whose body follows the refusal and whose status is lost. And the allowed
    origin "*" of the stack allows no origin. *)
Theorem app_stack `{Engine} uuid carrier limited d r m :
  q_method r ≠ "OPTIONS" →
  let c0 := arrived uuid carrier limited r m in
  let result (h : handler App) := serve (stack uuid carrier limited d ++ [h]) (newCtx r m) in
  (∀ (h : handler App) c1, h c0 = Returns c1 → ∃ c', result h = Done c' ∧ c_w c' = c_w c1 ∧
     c_world c' = setMetrics (c_world c1) (countRequest (Metrics (c_world c1)) (w_status (c_w c1)) d) ∧
     c_log c' = c_log c1 ++ [AccessLine (c_reqID c1) (q_method (c_req c1)) (q_path (c_req c1)) (w_status (c_w c1)) (q_remote (c_req c1))]) ∧
  (∀ (h : handler App) c1 p, h c0 = Panics c1 p → ∃ c', result h = Done c' ∧ c_w c' = writeJSON (c_w c1) 500 panicReply ∧
     c_world c' = c_world c1 ∧ c_log c' = c_log c1 ++ [PanicLine (panicErr p) (RouteLabel c1) (q_path (c_req c1))]) ∧
  (∀ text code v, limited.2 = Rejected 429 text →
     let w := httpJSON (c_w c0) code v in w_status w = 429 ∧ w_bodies w = [PText text; PJson v]) ∧
  (∀ parsed missing t, limited.2 = Passed → Z.shiftl 2 20 < q_size r →
     ∃ c1, handleCreateTask parsed missing t c0 = Returns c1 ∧ w_status (c_w c1) = 400 ∧ c_world c1 = m) ∧
  ("X-Frame-Options" ∉ carrier.*1 → "X-Frame-Options" ∉ limited.1.*1 →
     w_headers (c_w c0) !! "X-Frame-Options" = Some ["DENY"]) ∧
  (q_header r "Origin" ≠ "*" → "Access-Control-Allow-Origin" ∉ carrier.*1 → "Access-Control-Allow-Origin" ∉ limited.1.*1 →
     w_headers (c_w c0) !! "Access-Control-Allow-Origin" = None).
Proof.
  intros Hm c0 result. destruct (New_default_headers (requestID (q_header r "X-Request-ID") uuid)) as [Hn1 Hn2].
  split_and!.
  - intros h c1 Eh. destruct (stack_arrives uuid carrier limited d r m h Hm) as (ended & noticed & He & _ & E).
    unfold c0 in Eh. assert (serveAll [h : handler _] (arrived uuid carrier limited r m) = Done c1) as E1 by (cbn [serveAll]; rewrite Eh; by destruct (c_aborted c1)).
    rewrite E1 in E. eexists. split; [unfold result; rewrite serve_all; exact E|].
    destruct (He (finished d c1)) as (F1 & F2 & F3 & F4 & F5). cbv zeta. cbn [c_w c_world c_log logged].
    rewrite F1, F2, F3, F4, F5. done.
  - intros h c1 p Eh. destruct (stack_arrives uuid carrier limited d r m h Hm) as (ended & noticed & _ & Hn & E).
    unfold c0 in Eh. assert (serveAll [h : handler _] (arrived uuid carrier limited r m) = Panicking c1 p) as E1 by (cbn [serveAll]; by rewrite Eh).
    rewrite E1 in E. eexists. split; [unfold result; rewrite serve_all; exact E|].
    destruct (Hn c1 p) as (N1 & N2 & N3 & N4). unfold recoverPanic, AbortWithStatusJSON, reply.
    cbn [c_w c_world c_log logged setW abort].
    match goal with |- context [record (noticed c1 p) ?evs] => destruct (record_same (noticed c1 p) evs) as (R1 & R2 & R3 & _) end.
    rewrite R1, R2, R3, N1, N2, N3. split_and!; try done. unfold RouteLabel. by rewrite N4.
  - intros text code v El. unfold c0, arrived. cbn [c_w]. rewrite El. done.
  - intros parsed missing t El Hsize. unfold handleCreateTask, bindTask, c0, arrived. cbn [c_limit c_req].
    unfold readAll. rewrite (proj2 (Z.ltb_lt _ _) Hsize), El. by eexists.
  - intros H1 H2. unfold c0. rewrite arrived_header by done. by rewrite (proj2 (ginCORS_headers _ _ _ _)).
  - intros Ho H1 H2. unfold c0. rewrite arrived_header by done.
    rewrite (proj1 (ginCORS_headers _ _ _ _)); [done|]. right. by apply star_allows_nobody.
Qed.

Definition sampleApp : App := NewApp (LoadConfig ∅).

Lemma app_stack_witness :
  let r := mkReq "POST" "/api/v1/tasks" "/api/v1/tasks" "1.2.3.4" (λ h, if bool_decide (h = "Origin") then "https://a.example" else "")
             (λ _, "") (λ _, "") 40 in
  let c0 := arrived "u-1" [] ([], Passed) r sampleApp in
  ∃ c', @serve chainEngine _ (stack "u-1" [] ([], Passed) 3 ++ [handleCreateTask (inl "job") "missing" 7%nat]) (newCtx r sampleApp) = Done c' ∧
    w_status (c_w c') = 201 ∧ HTTPResponses2xx (Metrics (c_world c')) = 1 ∧ queue (Pool_ (c_world c')) = [7%nat] ∧
    w_headers (c_w c0) !! "Access-Control-Allow-Origin" = None.
Proof.
  intros r c0. pose proof (@app_stack chainEngine "u-1" [] ([], Passed) 3 r sampleApp ltac:(discriminate)) as H.
  cbv zeta in H. destruct H as (H1 & _ & _ & _ & _ & H6).
  destruct (H1 (handleCreateTask (inl "job") "missing" 7%nat) _ eq_refl) as (c' & E & Hw & Hm & _).
  exists c'. split; [exact E|]. rewrite Hw, Hm. split; [reflexivity|]. split; [reflexivity|]. split; [reflexivity|].
  apply H6; [discriminate|apply not_elem_of_nil|apply not_elem_of_nil].
Defined.
