(* ===== verification/Tasks.v ===== *)
(** The life of the tasks of the reference service: requests to
    POST /api/v1/tasks (handleCreateTask of examples/microservice/main.go)
    interleaved with the workers of the pool and with its stop on shutdown
    (main.go, workerpool/workerpool.go). *)
From S2P Require Import Prelude WorkerPool Text AppError SecHeaders RedMetrics Web Pipeline Microservice.
#[local] Open Scope Z_scope.

(** ** The service over time *)

(** What the workers do to the metrics they are given. *)
Definition workerMetrics (m : AppMetrics) (completed panics queueSize : Z) : AppMetrics :=
  mkAppMetrics (BreakerRequests m) (BreakerFailures m) (BreakerState m)
    (PoolSubmitted m) completed (PoolDropped m) panics queueSize
    (CacheHits m) (CacheMisses m) (CacheEvictions m)
    (HTTPRequestsTotal m) (HTTPResponses2xx m) (HTTPResponses4xx m) (HTTPResponses5xx m) (HTTPDurationSumMs m).

(** [worker] and [executeSafely] with the metrics of the service. *)
Inductive workerMoves : App → App → Prop :=
| Receives m p t q :
    0 < idle p → queue p = t :: q →
    workerMoves (mkApp m p)
      (mkApp (workerMetrics m (PoolCompleted m) (PoolPanics m) (gaugeSet (Float64.of_int (Z.of_nat (length q)))))
         (setWorkers p q (idle p - 1) (t :: running p) (exited p) (WorkerPool.finished p) (completed p) (panics p)))
| Completes m p rs1 t rs2 :
    running p = rs1 ++ t :: rs2 →
    workerMoves (mkApp m p)
      (mkApp (workerMetrics m (counterInc (PoolCompleted m)) (PoolPanics m) (PoolQueueSize m))
         (setWorkers p (queue p) (idle p + 1) (rs1 ++ rs2) (exited p) (t :: WorkerPool.finished p) (completed p + 1) (panics p)))
| PanicsIn m p rs1 t rs2 :
    running p = rs1 ++ t :: rs2 →
    workerMoves (mkApp m p)
      (mkApp (workerMetrics m (PoolCompleted m) (counterInc (PoolPanics m)) (PoolQueueSize m))
         (setWorkers p (queue p) (idle p + 1) (rs1 ++ rs2) (exited p) (t :: WorkerPool.finished p) (completed p) (panics p + 1)))
| Leaves m p :
    0 < idle p → queue p = [] → tasksClosed p = true →
    workerMoves (mkApp m p)
      (mkApp m (setWorkers p (queue p) (idle p - 1) (running p) (exited p + 1) (WorkerPool.finished p) (completed p) (panics p))).

(** What becomes of the task of a request: the pool takes it, the pool refuses
    it, or the body of the request is not that of a task. *)
Inductive verdict := Accepted | Refused | Invalid.
#[global] Instance verdict_eq_dec : EqDecision verdict.
Proof. solve_decision. Defined.

(** A request the endpoint has answered: its task, whether the limiter had refused it, what
    became of the task, and the status of the response. *)
Record answer := Answer { a_task : nat; a_over : bool; a_verdict : verdict; a_status : Z }.

(** The service: [decided], the requests whose endpoint has returned; [replies], those whose
    whole chain has returned. *)
Record service := Service { app : App; decided : list answer; replies : list answer }.

Definition overLimit (limited : RateLimit.response) : bool :=
  match limited.2 with RateLimit.Rejected _ _ => true | RateLimit.Passed => false end.

Definition verdictOf (bound : string + string) (a : App) (t : nat) : verdict :=
  match bound with
  | inr _ => Invalid
  | inl _ => match (submitTask a t).1 with None => Accepted | Some _ => Refused end
  end.

(** A request reaches its endpoint through the stack, on the context [arrived]; the
    limiter lets it pass or has answered it ([RateLimit.handle]), and the endpoint runs in either
    case. It submits when the write lock of the pool is free. Then, in any order with the
    other requests, the last middleware counts it and it is answered. *)
Inductive serviceStep : service → service → Prop :=
| TaskRequest s uuid carrier lm l ip rd1 rd2 t3 r c' parsed missing t :
    let limited := (RateLimit.handle 200 Minute lm l ip rd1 rd2 t3).1.1 in
    let c := arrived uuid carrier limited r (app s) in
    let bound := bindTask (c_limit c) (q_size r) parsed missing in
    (verdictOf bound (app s) t ≠ Invalid → WorkerPool.writer (Pool_ (app s)) = false) →
    handleCreateTask parsed missing t c = Returns c' →
    serviceStep s (Service (c_world c')
      (decided s ++ [Answer t (overLimit limited) (verdictOf bound (app s) t) (w_status (c_w c'))]) (replies s))
| TaskReplied s ds1 a ds2 durationMs :
    decided s = ds1 ++ a :: ds2 →
    serviceStep s (Service (setMetrics (app s) (countRequest (Metrics (app s)) (a_status a) durationMs))
      (ds1 ++ ds2) (replies s ++ [a]))
| WorkerMoves s a' : workerMoves (app s) a' → serviceStep s (Service a' (decided s) (replies s))
| Stopping s p' : stopStep (Pool_ (app s)) p' →
    serviceStep s (Service (mkApp (Metrics (app s)) p') (decided s) (replies s)).

(** ** Accounting *)

Definition tasksWith (v : verdict) (rs : list answer) : list nat := a_task <$> filter (λ r, a_verdict r = v) rs.

(** The status a request is answered with. *)
Definition answerTo (over : bool) (v : verdict) : Z :=
  if over then 429 else match v with Accepted => 201 | Refused => 503 | Invalid => 400 end.

Definition answers (s : service) : list answer := decided s ++ replies s.

Record accounted (workers size : Z) (s : service) : Prop := {
  acc_run : rtc WorkerPool.step (WorkerPool.New workers size) (Pool_ (app s));
  acc_accepted : tasksWith Accepted (answers s) ≡ₚ accepted (Pool_ (app s));
  acc_submitted : PoolSubmitted (Metrics (app s)) = wrapU64 (Z.of_nat (length (tasksWith Accepted (answers s))));
  acc_dropped : PoolDropped (Metrics (app s)) = wrapU64 (Z.of_nat (length (tasksWith Refused (answers s))));
  acc_completed : PoolCompleted (Metrics (app s)) = wrapU64 (completed (Pool_ (app s)));
  acc_panics : PoolPanics (Metrics (app s)) = wrapU64 (panics (Pool_ (app s)));
  acc_status : Forall (λ r, a_status r = answerTo (a_over r) (a_verdict r)) (answers s);
}.

Lemma counterInc_wrap n : counterInc (wrapU64 n) = wrapU64 (n + 1).
Proof. unfold counterInc, wrapU64. by rewrite Zplus_mod_idemp_l. Qed.

#[global] Instance tasksWith_perm v : Proper ((≡ₚ) ==> (≡ₚ)) (tasksWith v).
Proof. intros rs rs' E. unfold tasksWith. by rewrite E. Qed.

Lemma tasksWith_cons v r rs :
  tasksWith v (r :: rs) = (if decide (a_verdict r = v) then [a_task r] else []) ++ tasksWith v rs.
Proof. unfold tasksWith. rewrite filter_cons. by case_decide. Qed.

(** The requests answered and to be answered only matter up to their order. *)
Lemma accounted_perm w n a ds rs ds' rs' : ds ++ rs ≡ₚ ds' ++ rs' →
  accounted w n (Service a ds rs) → accounted w n (Service a ds' rs').
Proof.
  intros E [H1 H2 H3 H4 H5 H6 H7]. unfold answers in *. cbn in *. constructor; unfold answers; cbn; rewrite <- ?E; done.
Qed.

(** The outcomes of a request for a task. *)
Lemma task_outcomes parsed missing t uuid carrier limited r a (c' : ctx App) :
  (∀ st text, limited.2 = RateLimit.Rejected st text → st = 429) →
  let c := arrived uuid carrier limited r a in
  let v := verdictOf (bindTask (c_limit c) (q_size r) parsed missing) a t in
  handleCreateTask parsed missing t c = Returns c' →
  c_world c' = match v with Invalid => a | _ => (submitTask a t).2 end ∧
  w_status (c_w c') = answerTo (overLimit limited) v ∧
  (v = Accepted → (submitTask a t).1 = None) ∧ (v = Refused → (submitTask a t).1 ≠ None).
Proof.
  intros Hl c v. unfold v, handleCreateTask, verdictOf, answerTo, overLimit. change (q_size (c_req c)) with (q_size r).
  destruct (bindTask _ _ _ _) as [payload|e].
  - change (c_world c) with a. destruct (submitTask a t) as [[e|] a'] eqn:E; intros [= <-]; cbn [fst snd]; (split; [done|]);
      (split; [|by split]); unfold c, arrived; cbn [c_w setWorld];
      destruct limited as [hs [st text|]]; cbn; rewrite ?(Hl _ _ eq_refl); done.
  - intros [= <-]. split; [done|]. split; [|by split]. unfold c, arrived. cbn [c_w].
    destruct limited as [hs [st text|]]; cbn; rewrite ?(Hl _ _ eq_refl); done.
Qed.

(** The limiter refuses with 429. *)
Lemma handle_rejects capacity window lm l ip rd1 rd2 t3 st text :
  (RateLimit.handle capacity window lm l ip rd1 rd2 t3).1.1.2 = RateLimit.Rejected st text → st = 429.
Proof.
  unfold RateLimit.handle. destruct (TokenBucket.Allow l ip rd1) as [[] l1].
  - by destruct (TokenBucket.Remaining l1 ip rd2).
  - by intros [= <- _].
Qed.

(** A request whose task the pool takes, and one whose task it refuses. *)
Lemma submitted w a t : poolInv w (Pool_ a) → (submitTask a t).1 = None →
  accepted (Pool_ (submitTask a t).2) = t :: accepted (Pool_ a).
Proof.
  intros Hi. pose proof (closed_reported w (Pool_ a) Hi) as Hc. unfold IsClosed in Hc. unfold submitTask, Submit, send.
  destruct (isClosed (Pool_ a)); [discriminate|]. destruct (closed (Pool_ a)); [discriminate|].
  destruct (tasksClosed (Pool_ a)); [by specialize (Hc eq_refl)|]. cbn [orb].
  by destruct (_ <? _).
Qed.

Lemma submit_metrics a t :
  let m := Metrics a in let a' := (submitTask a t).2 in
  PoolSubmitted (Metrics a') = match (submitTask a t).1 with None => counterInc (PoolSubmitted m) | Some _ => PoolSubmitted m end ∧
  PoolDropped (Metrics a') = match (submitTask a t).1 with None => PoolDropped m | Some _ => counterInc (PoolDropped m) end ∧
  PoolCompleted (Metrics a') = PoolCompleted m ∧ PoolPanics (Metrics a') = PoolPanics m ∧
  completed (Pool_ a') = completed (Pool_ a) ∧ panics (Pool_ a') = panics (Pool_ a) ∧
  ((submitTask a t).1 ≠ None → accepted (Pool_ a') = accepted (Pool_ a)).
Proof.
  unfold submitTask, Submit, send.
  destruct (isClosed (Pool_ a)), (closed (Pool_ a)), (tasksClosed (Pool_ a)), (Z.of_nat (length (queue (Pool_ a))) <? queueSize (Pool_ a)); cbn; done.
Qed.

(** One more answer. *)
Lemma accounted_more w n a ds rs a' r :
  accounted w n (Service a ds rs) →
  rtc WorkerPool.step (Pool_ a) (Pool_ a') →
  accepted (Pool_ a') = (if decide (a_verdict r = Accepted) then [a_task r] else []) ++ accepted (Pool_ a) →
  PoolSubmitted (Metrics a') = (if decide (a_verdict r = Accepted) then counterInc else id) (PoolSubmitted (Metrics a)) →
  PoolDropped (Metrics a') = (if decide (a_verdict r = Refused) then counterInc else id) (PoolDropped (Metrics a)) →
  PoolCompleted (Metrics a') = PoolCompleted (Metrics a) → PoolPanics (Metrics a') = PoolPanics (Metrics a) →
  completed (Pool_ a') = completed (Pool_ a) → panics (Pool_ a') = panics (Pool_ a) →
  a_status r = answerTo (a_over r) (a_verdict r) →
  accounted w n (Service a' (ds ++ [r]) rs).
Proof.
  intros [H1 H2 H3 H4 H5 H6 H7] Hr A S D C P C' P' St. apply (accounted_perm _ _ _ (r :: ds) rs).
  { by rewrite (Permutation_cons_append ds r). }
  unfold answers in *. cbn [app decided replies] in *. constructor; unfold answers; cbn [app decided replies Datatypes.app].
  - by etrans.
  - by rewrite tasksWith_cons, H2, A.
  - rewrite tasksWith_cons, S, H3. clear D A. case_decide; [|done]. rewrite counterInc_wrap. f_equal. cbn [length Datatypes.app]. lia.
  - rewrite tasksWith_cons, D, H4. clear S A. case_decide; [|done]. rewrite counterInc_wrap. f_equal. cbn [length Datatypes.app]. lia.
  - by rewrite C, C'.
  - by rewrite P, P'.
  - by constructor.
Qed.

Lemma request_accounted w n s uuid carrier limited r c' parsed missing t :
  accounted w n s → (∀ st text, limited.2 = RateLimit.Rejected st text → st = 429) →
  let c := arrived uuid carrier limited r (app s) in
  let v := verdictOf (bindTask (c_limit c) (q_size r) parsed missing) (app s) t in
  (v ≠ Invalid → WorkerPool.writer (Pool_ (app s)) = false) → handleCreateTask parsed missing t c = Returns c' →
  accounted w n (Service (c_world c') (decided s ++ [Answer t (overLimit limited) v (w_status (c_w c'))]) (replies s)).
Proof.
  intros Ha Hl c v Hfree Hh. destruct (task_outcomes _ _ _ _ _ _ _ _ _ Hl Hh) as (Ew & Es & Hacc & Href).
  fold c in Ew, Es, Hacc, Href. fold v in Ew, Es, Hacc, Href. rewrite Ew.
  pose proof (submit_metrics (app s) t) as (M1 & M2 & M3 & M4 & M5 & M6 & M7).
  assert (v ≠ Invalid → rtc WorkerPool.step (Pool_ (app s)) (Pool_ (submitTask (app s) t).2)) as Hrun.
  { intros Hv. unfold submitTask. pose proof (Submit_run (Pool_ (app s)) (Some t) (Hfree Hv)) as Hr.
    by destruct (Submit (Pool_ (app s)) (Some t)). }
  pose proof (reachable_inv _ _ _ (acc_run _ _ _ Ha)) as Hinv.
  destruct s as [a ds rs]. cbn [app decided replies] in *. clearbody v.
  apply (accounted_more w n a); cbn [a_task a_over a_verdict a_status]; try done; destruct v; auto; try done.
  - by apply (submitted _ _ _ Hinv), Hacc.
  - by rewrite M1, (Hacc eq_refl).
  - rewrite M1. destruct (submitTask a t).1; [done|]. by destruct (Href eq_refl).
  - by rewrite M2, (Hacc eq_refl).
  - rewrite M2. destruct (submitTask a t).1; [done|]. by destruct (Href eq_refl).
Qed.

Lemma replied_accounted w n s ds1 r ds2 d : accounted w n s → decided s = ds1 ++ r :: ds2 →
  accounted w n (Service (setMetrics (app s) (countRequest (Metrics (app s)) (a_status r) d)) (ds1 ++ ds2) (replies s ++ [r])).
Proof.
  intros Ha E. apply (accounted_perm _ _ _ (decided s) (replies s)).
  { rewrite E. solve_Permutation. }
  destruct Ha as [H1 H2 H3 H4 H5 H6 H7]. destruct s. by constructor.
Qed.

Lemma worker_step a a' : workerMoves a a' → workerStep (Pool_ a) (Pool_ a').
Proof. destruct 1; cbn; [by constructor|by apply WorkDone|by apply WorkPanic|by constructor]. Qed.

Lemma worker_accounted w n s a' : accounted w n s → workerMoves (app s) a' →
  accounted w n (Service a' (decided s) (replies s)).
Proof.
  intros [H1 H2 H3 H4 H5 H6 H7] Hm.
  assert (rtc WorkerPool.step (WorkerPool.New w n) (Pool_ a')) as Hrun
    by (eapply rtc_r; [exact H1|right; right; right; by apply worker_step]).
  destruct s as [a ds rs]. unfold answers in *. cbn [app decided replies] in *.
  destruct Hm; constructor; unfold answers; cbn in *; rewrite ?H5, ?H6, ?counterInc_wrap; auto.
Qed.

Lemma stop_accounted w n s p' : accounted w n s → stopStep (Pool_ (app s)) p' →
  accounted w n (Service (mkApp (Metrics (app s)) p') (decided s) (replies s)).
Proof.
  intros [H1 H2 H3 H4 H5 H6 H7] Hm.
  assert (rtc WorkerPool.step (WorkerPool.New w n) p') as Hrun by (eapply rtc_r; [exact H1|right; right; by left]).
  destruct s as [[m p] ds rs]. unfold answers in *. cbn [app decided replies Pool_ Metrics] in *.
  by destruct Hm; constructor; unfold answers; cbn in *.
Qed.

Lemma step_accounted w n s s' : accounted w n s → serviceStep s s' → accounted w n s'.
Proof.
  intros Ha. destruct 1; eauto using request_accounted, handle_rejects, replied_accounted, worker_accounted, stop_accounted.
Qed.

Definition newService (cfg : Config) : service := Service (NewApp cfg) [] [].

Lemma reachable_accounted cfg s : rtc serviceStep (newService cfg) s →
  accounted (WorkerPoolSize cfg) (WorkerQueueCap cfg) s.
Proof.
  intros Hs. assert (accounted (WorkerPoolSize cfg) (WorkerQueueCap cfg) (newService cfg)) as Hi by by constructor.
  revert Hi. induction Hs; eauto using step_accounted.
Qed.

(** ** The claim *)

(** The limiter of the service when an address has taken all its tokens. *)
Definition spent : TokenBucket.TokenBucketLimiter :=
  Nat.iter 200 (λ l, (TokenBucket.Allow l "1.2.3.4" (TokenBucket.at_ 1)).2) (RateLimit.NewGlobal 1).

Definition taskRequest : request :=
  mkReq "POST" "/api/v1/tasks" "/api/v1/tasks" "1.2.3.4" (λ _, "") (λ _, "") (λ _, "") 40.

Ltac computed := match goal with |- rtc _ ?s _ =>
  let s' := eval vm_compute in s in replace s with s' by (vm_compute; reflexivity) end.
Ltac asks l x t := eapply (TaskRequest _ "u-1" [] (RateLimit.LimitMetrics 0 0) l "1.2.3.4" (TokenBucket.at_ 1) (TokenBucket.at_ 1) 1
  taskRequest _ (inl x) "missing" t); [intros _; reflexivity|vm_compute; reflexivity].
Ltac moves t := eapply rtc_l; [t|computed].

(** A task accepted and executed, a request with no payload, and a request over the limit, whose
    task is executed though its answer is 429. *)
Lemma task_run : ∃ s, rtc serviceStep (newService (LoadConfig ∅)) s ∧
  replies s = [Answer 8 false Invalid 400; Answer 7 false Accepted 201; Answer 9 true Accepted 429] ∧ decided s = [] ∧
  WorkerPool.finished (Pool_ (app s)) = [9%nat; 7%nat].
Proof.
  eexists. split.
  - computed. moves ltac:(asks (RateLimit.NewGlobal 1) "job" 7%nat).
    moves ltac:(apply WorkerMoves; eapply Receives; reflexivity).
    moves ltac:(asks (RateLimit.NewGlobal 1) "" 8%nat).
    moves ltac:(apply (TaskReplied _ [Answer 7 false Accepted 201] (Answer 8 false Invalid 400) [] 3); reflexivity).
    moves ltac:(asks spent "job" 9%nat).
    moves ltac:(apply WorkerMoves; apply (Completes _ _ [] 7%nat []); reflexivity).
    moves ltac:(apply (TaskReplied _ [] (Answer 7 false Accepted 201) [Answer 9 true Accepted 429] 3); reflexivity).
    moves ltac:(apply WorkerMoves; eapply Receives; reflexivity).
    moves ltac:(apply WorkerMoves; apply (Completes _ _ [] 9%nat []); reflexivity).
    moves ltac:(apply (TaskReplied _ [] (Answer 9 true Accepted 429) [] 3); reflexivity). apply rtc_refl.
  - split; [reflexivity|]. split; reflexivity.
Qed.

(** C24: the tasks of the service in every interleaving of requests, within the rate limit and over it, of
    their answers, the workers and the stop of the pool. The tasks the pool has accepted are, one for one, those
    queued, running or finished; the counters of submitted and dropped tasks count the tasks accepted and
    refused, those of completed tasks and panics the tasks finished. A request within the limit is answered
    201 if and only if its task was accepted, 503 if the pool refused it and 400 if its body was not that of a task. A
    request over the limit is answered 429, but its endpoint runs: its task may be accepted and executed all the
    same. When all workers have left on shutdown, the accepted tasks are exactly the tasks that have been executed. *)
Theorem tasks_accounted :
  (∀ cfg s, rtc serviceStep (newService cfg) s →
   let p := Pool_ (app s) in let m := Metrics (app s) in let taken := tasksWith Accepted (answers s) in
   taken ≡ₚ queue p ++ running p ++ WorkerPool.finished p ∧
   PoolSubmitted m = wrapU64 (Z.of_nat (length taken)) ∧
   PoolDropped m = wrapU64 (Z.of_nat (length (tasksWith Refused (answers s)))) ∧
   wrapU64 (PoolCompleted m + PoolPanics m) = wrapU64 (Z.of_nat (length (WorkerPool.finished p))) ∧
   (∀ r, r ∈ answers s → a_status r =
      if a_over r then 429 else match a_verdict r with Accepted => 201 | Refused => 503 | Invalid => 400 end) ∧
   (exited p = (if WorkerPoolSize cfg <=? 0 then 1 else WorkerPoolSize cfg) → taken ≡ₚ WorkerPool.finished p)) ∧
  (∃ s, rtc serviceStep (newService (LoadConfig ∅)) s ∧
     Answer 9 true Accepted 429 ∈ replies s ∧ 9%nat ∈ WorkerPool.finished (Pool_ (app s))).
Proof.
  split.
  - intros cfg s Hs. destruct (reachable_accounted cfg s Hs) as [H1 H2 H3 H4 H5 H6 H7]. cbv zeta.
    destruct (pool_counts _ _ _ H1) as (_ & _ & Ht & Hf). split_and!; try done.
    + by rewrite H2.
    + rewrite H5, H6, Hf. unfold wrapU64. by rewrite <- Zplus_mod.
    + by apply Forall_forall.
    + intros Hex. destruct (pool_drains _ _ _ _ H1 Hex (rtc_refl _ _)) as (_ & _ & Ha & _). by rewrite H2.
  - destruct task_run as (s & Hs & Hr & _ & Hf). exists s. rewrite Hr, Hf. split; [done|]. split; set_solver.
Qed.

Lemma tasks_accounted_witness : ∃ s, WorkerPool.finished (Pool_ (app s)) = [9%nat; 7%nat] ∧
  tasksWith Accepted (answers s) = [7%nat; 9%nat] ∧ PoolSubmitted (Metrics (app s)) = 2 ∧ PoolDropped (Metrics (app s)) = 0.
Proof.
  destruct task_run as (s & Hs & Hr & Hd & Hf). exists s.
  destruct (proj1 tasks_accounted (LoadConfig ∅) s Hs) as (_ & H2 & H3 & _).
  unfold answers in *. rewrite Hr, Hd in *. split; [exact Hf|]. split; [reflexivity|]. split; [exact H2|exact H3].
Defined.
