(* ===== verification/Lifecycle.v ===== *)
(** The reference service from start to exit (main, NewApp and their hooks in
    examples/microservice/main.go): the construction with its options, requests
    that are in flight while the workers run, the signal, and the three hooks of
    the shutdown manager, which run at the same time: [pool.StopWait],
    [itemCache.Close] and [srv.Shutdown]. *)
From S2P Require Import Prelude WorkerPool Text AppError SecHeaders RedMetrics Web Pipeline Microservice Shutdown Health Options Retry Tasks Quotes.
#[local] Open Scope Z_scope.

(** ** Construction *)

(** [AppOption]; the arguments are interface values or pointers, [None] nil. *)
Inductive AppOption :=
| WithClock (c : option clockSource)
| WithHTTPClient (client : option nat)
| WithLoggerHandler (h : option nat).

Record appOptions := mkAppOptions { clk : clockSource; httpClient : option nat; loggerHandler : option nat }.

Definition applyAppOption (o : appOptions) (opt : AppOption) : appOptions :=
  match opt with
  | WithClock (Some c) => mkAppOptions c (httpClient o) (loggerHandler o)
  | WithHTTPClient (Some client) => mkAppOptions (clk o) (Some client) (loggerHandler o)
  | WithLoggerHandler (Some h) => mkAppOptions (clk o) (httpClient o) (Some h)
  | _ => o
  end.

Definition newAppOptions (opts : list (option AppOption)) : appOptions :=
  applyAll applyAppOption opts (mkAppOptions RealClock None None).

(** Nil options and nil arguments change nothing; the last other one decides. *)
Definition lastSet {A} (f : AppOption → option A) (opts : list (option AppOption)) : option A :=
  last (omap (λ o, o ≫= f) opts).
Lemma newAppOptions_last opts :
  clk (newAppOptions opts) = default RealClock (lastSet (λ o, match o with WithClock c => c | _ => None end) opts) ∧
  httpClient (newAppOptions opts) = lastSet (λ o, match o with WithHTTPClient c => c | _ => None end) opts ∧
  loggerHandler (newAppOptions opts) = lastSet (λ o, match o with WithLoggerHandler h => h | _ => None end) opts.
Proof.
  unfold newAppOptions, lastSet. split_and!.
  - rewrite (applyAll_last applyAppOption clk (λ o, match o with WithClock c => c | _ => None end)); [done|].
    by intros c [[]|[]|[]].
  - rewrite (applyAll_last applyAppOption httpClient (λ o, match o with WithHTTPClient (Some c) => Some (Some c) | _ => None end)).
    2: by intros c [[]|[]|[]].
    induction opts as [|o opts IH] using rev_ind; [done|]. rewrite !omap_app. destruct o as [[|[c|]|]|]; cbn;
      rewrite ?app_nil_r, ?last_snoc; done.
  - rewrite (applyAll_last applyAppOption loggerHandler (λ o, match o with WithLoggerHandler (Some c) => Some (Some c) | _ => None end)).
    2: by intros c [[]|[]|[]].
    induction opts as [|o opts IH] using rev_ind; [done|]. rewrite !omap_app. destruct o as [[| |[c|]]|]; cbn;
      rewrite ?app_nil_r, ?last_snoc; done.
Qed.

(** The handler below the redacting one, and the keys it redacts. *)
Inductive baseHandler := DefaultHandler | HandlerOf (h : nat).
Definition appHandler (o : appOptions) : baseHandler * list string :=
  (match loggerHandler o with Some h => HandlerOf h | None => DefaultHandler end,
   ["password"; "token"; "secret"; "authorization"]).

(** The HTTP client: the one given, or the resilient one over the breaker [b]. *)
Inductive appClient (B L R : Type) := ClientOf (c : nat) | Resilient (o : Client.options B L R).
Arguments ClientOf {B L R} _.
Arguments Resilient {B L R} _.

Definition newClient {B L R} (host : R → string) (b : B) (o : appOptions) : appClient B L R :=
  match httpClient o with
  | Some c => ClientOf c
  | None =>
      Resilient (Client.NewRoundTripper host
        [Some (Client.WithCircuitBreaker (Some b)); Some (Client.WithRetry retryConfig);
         Some (Client.WithTotalTimeout (2 * Second)); Some (Client.WithClock (Some (clk o)))])
  end.

(** The checkers of the health service: [itemCache] and [pool] are the values
    just built, which are not nil. *)
Definition notNil {A} (x : option A) (what : string) : checkEnd :=
  match x with Some _ => CheckOk | None => CheckErr (what +:+ " not initialized") end.
Definition appHealth {C} (itemCache : option C) (pool : option Pool) (now : Time) : Health.Service :=
  Health.New now [WithChecker "cache" (notNil itemCache "item cache"); WithChecker "workerpool" (notNil pool "workerpool")].

(** The shutdown manager: two hooks of [NewApp], one of [main]. *)
Definition appManager (cfg : Microservice.Config) : Manager :=
  Register (Register (Register (Shutdown.New (ShutdownTimeout cfg)) "workerpool") "cache") "http_server".

(** The service answers /health with 200 whatever has become of its parts. *)
Lemma appHealth_always {C} (itemCache : C) pool now order t1 t2 info :
  order ≡ₚ map_to_list (checkers (appHealth (Some itemCache) (Some pool) now)) →
  ∃ r, Handler (appHealth (Some itemCache) (Some pool) now) order t1 t2 info = Reply 200 r ∧ Status r = "healthy".
Proof.
  intros Ho. assert (order = [("cache", CheckOk); ("workerpool", CheckOk)] ∨ order = [("workerpool", CheckOk); ("cache", CheckOk)]) as [->| ->].
  { vm_compute in Ho. apply Permutation_sym, Permutation_length_2_inv in Ho. naive_solver. }
  all: eexists; split; reflexivity.
Qed.

(** ** Life *)

(** net/http's server: accepting connections, failed to, or shutting down. *)
Inductive serverPhase := Serving | ServeFailed | ShuttingDown.

(** [waiting]: the requests for tasks the server has taken and whose endpoint has not
    run; those whose endpoint has run are in [decided] of the service until they are answered.
    [closeErr]: what closing the listener returns. [sd] is the state of
    [Execute], once the signal has come. *)
Record life := Life {
  svc : service;
  cacheClosed : bool;
  server : serverPhase;
  waiting : list nat;
  closeErr : option error;
  sd : option Shutdown.state;
}.

(** [main] up to [Shutdown.Wait]. *)
Definition begun (cfg : Microservice.Config) (closeErr : option error) : life :=
  Life (newService cfg) false Serving [] closeErr None.

(** The requests the server has taken and not answered. *)
Definition inFlight (l : life) : list nat := waiting l ++ (a_task <$> decided (svc l)).

(** The process ends when [main] returns. *)
Definition alive (l : life) : bool :=
  match sd l with Some s => match main s with MReturned _ => false | _ => true end | None => true end.

Definition setSd (l : life) s := Life (svc l) (cacheClosed l) (server l) (waiting l) (closeErr l) (Some s).
Definition setSvc (l : life) s := Life s (cacheClosed l) (server l) (waiting l) (closeErr l) (sd l).

(** The steps [Execute] and the goroutines of the hooks make by themselves; the
    context of [Wait] can only run out. *)
Definition ofManager (a : Shutdown.action) : bool :=
  match a with EndHook _ _ => false | CtxDone e => bool_decide (e = DeadlineExceeded) | _ => true end.

(** A hook that has been started and has not returned. *)
Definition hookRuns (s : Shutdown.state) (i : nat) : Prop := ∃ name, Shutdown.hooks s !! i = Some (name, HRun).

Inductive lifeMove (cfg : Microservice.Config) (l : life) : life → Prop :=
| Arrives t :
    server l = Serving →
    lifeMove cfg l (Life (svc l) (cacheClosed l) (server l) (waiting l ++ [t]) (closeErr l) (sd l))
(* the endpoint of a request runs, within the limit or over it *)
| Handles w1 w2 s' a :
    waiting l = w1 ++ a_task a :: w2 → serviceStep (svc l) s' → decided s' = decided (svc l) ++ [a] →
    lifeMove cfg l (Life s' (cacheClosed l) (server l) (w1 ++ w2) (closeErr l) (sd l))
(* the response of a request is out *)
| Answers s' a :
    serviceStep (svc l) s' → replies s' = replies (svc l) ++ [a] → lifeMove cfg l (setSvc l s')
| Works a' :
    workerMoves (app (svc l)) a' → lifeMove cfg l (setSvc l (Service a' (decided (svc l)) (replies (svc l))))
| ListenFails :
    server l = Serving →
    lifeMove cfg l (Life (svc l) (cacheClosed l) ServeFailed (waiting l) (closeErr l) (sd l))
| Signal : sd l = None → lifeMove cfg l (setSd l (Wait (appManager cfg)))
| Manages s a s' :
    sd l = Some s → ofManager a = true → Shutdown.act s a = Some s' → lifeMove cfg l (setSd l s')
(* the hook "workerpool": pool.StopWait() *)
| PoolStops s p' :
    sd l = Some s → hookRuns s 0 → stopStep (Pool_ (app (svc l))) p' →
    lifeMove cfg l (setSvc l (Service (mkApp (Metrics (app (svc l))) p') (decided (svc l)) (replies (svc l))))
| PoolStopped s s' :
    sd l = Some s → StopWaitReturns (WorkerPoolSize cfg) (Pool_ (app (svc l))) = true →
    Shutdown.act s (EndHook 0 HookOk) = Some s' → lifeMove cfg l (setSd l s')
(* the hook "cache": itemCache.Close() *)
| CacheCloses s s' :
    sd l = Some s → Shutdown.act s (EndHook 1 HookOk) = Some s' →
    lifeMove cfg l (Life (svc l) true (server l) (waiting l) (closeErr l) (Some s'))
(* the hook "http_server": srv.Shutdown(ctx) *)
| ServerCloses s :
    sd l = Some s → hookRuns s 2 →
    lifeMove cfg l (Life (svc l) (cacheClosed l) ShuttingDown (waiting l) (closeErr l) (sd l))
| ServerDrained s s' :
    sd l = Some s → server l = ShuttingDown → inFlight l = [] →
    Shutdown.act s (EndHook 2 (match closeErr l with None => HookOk | Some e => HookErr e end)) = Some s' →
    lifeMove cfg l (setSd l s')
| ServerGivesUp s s' e :
    sd l = Some s → server l = ShuttingDown → Shutdown.ctxErr s = Some e →
    Shutdown.act s (EndHook 2 (HookErr e)) = Some s' → lifeMove cfg l (setSd l s').

Definition lifeStep cfg (l l' : life) : Prop := alive l = true ∧ lifeMove cfg l l'.

(** ** Invariant *)

Lemma exited_mono p p' : WorkerPool.step p p' → exited p <= exited p'.
Proof.
  intros [Hs|[Hs|[Hs|Hs]]]; destruct Hs; cbn; try lia. unfold send. case_match; cbn; lia.
Qed.

Lemma service_pool s s' : serviceStep s s' → rtc WorkerPool.step (Pool_ (app s)) (Pool_ (app s')).
Proof.
  intros Hs. destruct Hs as [s uuid carrier lm l ip rd1 rd2 t3 r c' parsed missing t limited c bound Hfree Hh|s ds1 a ds2 d E
    |s a' Hm|s p' Hp].
  - cbn. destruct (task_outcomes _ _ _ _ _ _ _ _ _ (handle_rejects _ _ _ _ _ _ _ _) Hh) as (-> & _).
    fold limited c bound. destruct (verdictOf bound (app s) t); [..|done].
    all: unfold submitTask; pose proof (Submit_run (Pool_ (app s)) (Some t) (Hfree ltac:(done))) as Hr;
      by destruct (Submit (Pool_ (app s)) (Some t)).
  - done.
  - apply rtc_once. right; right; right. by apply worker_step.
  - apply rtc_once. right; right; by left.
Qed.

Lemma service_exited s s' : serviceStep s s' → exited (Pool_ (app s)) <= exited (Pool_ (app s')).
Proof.
  intros Hr%service_pool. induction Hr as [|p1 p2 p3 H12 _ IH]; [lia|]. apply exited_mono in H12. lia.
Qed.

Definition poolWorkers (cfg : Microservice.Config) : Z := if WorkerPoolSize cfg <=? 0 then 1 else WorkerPoolSize cfg.

(** All workers have left, for good. *)
Lemma service_gone cfg s s' : rtc serviceStep (newService cfg) s → serviceStep s s' →
  exited (Pool_ (app s)) = poolWorkers cfg → exited (Pool_ (app s')) = poolWorkers cfg.
Proof.
  intros Hr Hs He. pose proof (service_exited _ _ Hs).
  assert (rtc serviceStep (newService cfg) s') as [H1 _ _ _ _ _ _]%reachable_accounted by by eapply rtc_r.
  apply reachable_inv in H1. destruct (inv_workers _ _ H1) as (? & ? & ?). unfold poolWorkers in *. lia.
Qed.

Lemma inFlight_nil l : inFlight l = [] → waiting l = [] ∧ decided (svc l) = [].
Proof. by intros [? ?%fmap_nil_inv]%app_nil. Qed.

(** Nothing can be answered but what is decided. *)
Lemma replies_drain s s' r : serviceStep s s' → replies s' = replies s ++ [r] → decided s = [] → decided s' = [].
Proof.
  assert (∀ rs : list answer, rs ≠ rs ++ [r]) as Hne.
  { intros rs E%(f_equal length). rewrite length_app in E. cbn in E. lia. }
  destruct 1 as [|s ds1 a ds2 d E0| |]; cbn [replies decided]; intros E Hd; try by destruct (Hne _ E).
  rewrite Hd in E0. by destruct ds1.
Qed.

(** The outcome of a hook that has returned. *)
Definition ended (ph : hookPhase) : option hookEnd :=
  match ph with HRun => None | HSend o | HWg o | HOver o => Some o end.

(** Only [EndHook] ends a hook. *)
Lemma act_ended s a s' i name ph' : Shutdown.act s a = Some s' → Shutdown.hooks s' !! i = Some (name, ph') →
  ∃ ph, Shutdown.hooks s !! i = Some (name, ph) ∧
    (ended ph' = ended ph ∨ ∃ o, a = EndHook i o ∧ ph = HRun ∧ ended ph' = Some o).
Proof.
  intros Ha Hi.
  assert (∀ j n ph, Shutdown.hooks s !! j = Some (n, ph) → ∀ ph1, Shutdown.hooks s' = <[j := (n, ph1)]> (Shutdown.hooks s) →
    (ended ph1 = ended ph ∨ ∃ o, a = EndHook j o ∧ ph = HRun ∧ ended ph1 = Some o) →
    ∃ ph, Shutdown.hooks s !! i = Some (name, ph) ∧
      (ended ph' = ended ph ∨ ∃ o, a = EndHook i o ∧ ph = HRun ∧ ended ph' = Some o)) as Hmoved.
  { intros j n ph Hj ph1 E Hend. rewrite E in Hi. destruct (decide (i = j)) as [->|Hne].
    - rewrite list_lookup_insert_eq in Hi by eauto using lookup_lt_Some. simplify_eq. eauto.
    - rewrite list_lookup_insert_ne in Hi by done. eauto. }
  destruct a as [j o|j|j| | | | | |]; cbn in Ha; repeat (case_match; simplify_eq/=); eauto.
  all: eapply Hmoved; [done|reflexivity|]; cbn; eauto.
Qed.

(** What a hook that has returned leaves behind. *)
Definition hookLeaves (cfg : Microservice.Config) (l : life) (i : nat) (o : hookEnd) : Prop :=
  match i with
  | 0%nat => o = HookOk ∧ exited (Pool_ (app (svc l))) = poolWorkers cfg
  | 1%nat => o = HookOk ∧ cacheClosed l = true
  | 2%nat => server l = ShuttingDown ∧ (o = HookOk → inFlight l = []) ∧
      (∀ r, o ≠ HookPanic r) ∧ ∀ e, o = HookErr e → closeErr l = Some e ∨ e = DeadlineExceeded
  | _ => True
  end.

Record lifeInv (cfg : Microservice.Config) (l : life) : Prop := {
  li_service : rtc serviceStep (newService cfg) (svc l);
  li_manager : ∀ s, sd l = Some s → Shutdown.inv (registered (appManager cfg)) s;
  li_ctx : ∀ s e, sd l = Some s → Shutdown.ctxErr s = Some e → e = DeadlineExceeded;
  li_hooks : ∀ s i name ph o, sd l = Some s → Shutdown.hooks s !! i = Some (name, ph) → ended ph = Some o →
    hookLeaves cfg l i o;
}.

(** A change of the manager that ends at most one hook. *)
Lemma lifeInv_manager cfg l s a s' : lifeInv cfg l → sd l = Some s → Shutdown.act s a = Some s' →
  (∀ i o, a = EndHook i o → hookLeaves cfg l i o) → (∀ e, a = CtxDone e → e = DeadlineExceeded) →
  lifeInv cfg (setSd l s').
Proof.
  intros [Hs Hm Hc Hh] Hsd Ha Hend Hctx. constructor; cbn; [done|..].
  - intros ? [= <-]. eauto using sd_inv_act.
  - intros ? e [= <-] He. destruct a; cbn in Ha; repeat (case_match; simplify_eq/=); eauto.
  - intros ? i name ph o [= <-] Hi Ho. destruct (act_ended _ _ _ _ _ _ Ha Hi) as (ph0 & Hi0 & [E|(o' & -> & -> & E)]).
    + rewrite E in Ho. by eapply (Hh s i name ph0).
    + simplify_eq. by apply Hend.
Qed.

(** A change outside the manager that takes nothing back. *)
Lemma lifeInv_outside cfg l l' : lifeInv cfg l → sd l' = sd l → rtc serviceStep (newService cfg) (svc l') →
  (∀ i o, hookLeaves cfg l i o → hookLeaves cfg l' i o) → lifeInv cfg l'.
Proof. intros [Hs Hm Hc Hh] Esd Hsvc Hl. constructor; rewrite ?Esd; eauto. Qed.

Lemma leaves_service cfg l s' fl : rtc serviceStep (newService cfg) (svc l) → serviceStep (svc l) s' →
  (inFlight l = [] → fl = [] ∧ decided s' = []) → ∀ i o, hookLeaves cfg l i o →
  hookLeaves cfg (Life s' (cacheClosed l) (server l) fl (closeErr l) (sd l)) i o.
Proof.
  intros Hr Hs Hfl i o Hl. destruct i as [|[|[|]]]; cbn in *; [|done| |done].
  - destruct Hl. split; [done|]. by eapply service_gone.
  - destruct Hl as (? & Ho & ? & ?). split_and!; [done| |done..]. intros Hok. unfold inFlight. cbn.
    by destruct (Hfl (Ho Hok)) as [-> ->].
Qed.

Lemma lifeInv_service cfg l s' fl : lifeInv cfg l → serviceStep (svc l) s' → (inFlight l = [] → fl = [] ∧ decided s' = []) →
  lifeInv cfg (Life s' (cacheClosed l) (server l) fl (closeErr l) (sd l)).
Proof.
  intros Hi Hs Hfl. pose proof (li_service _ _ Hi) as Hr.
  eapply (lifeInv_outside cfg l); [done|done|by eapply rtc_r|]. by apply leaves_service.
Qed.

Lemma lifeInv_step cfg l l' : lifeInv cfg l → lifeMove cfg l l' → lifeInv cfg l'.
Proof.
  intros Hi Hm. pose proof (li_service _ _ Hi) as Hr.
  destruct Hm as [t Hsv|w1 w2 s' r Hwt Hs _|s' r Hs Hrep|a' Ha|Hsv|Hsd|s a s' Hsd Hof Ha|s p' Hsd _ Hp|s s' Hsd Hst Ha
    |s s' Hsd Ha|s Hsd _|s s' Hsd Hsv Hfl Ha|s s' e Hsd Hsv He Ha].
  - apply (lifeInv_outside cfg l); try done. intros i o Hl. destruct i as [|[|[|]]]; cbn in *; try done.
    destruct Hl as (? & _). congruence.
  - apply (lifeInv_service cfg l); [done|done|]. unfold inFlight. rewrite Hwt. by destruct w1.
  - apply (lifeInv_service cfg l); [done|done|]. intros [Hw Hd]%inFlight_nil. split; [done|]. by eapply replies_drain.
  - apply (lifeInv_service cfg l); [done|by apply WorkerMoves|]. apply inFlight_nil.
  - apply (lifeInv_outside cfg l); try done. intros i o Hl. destruct i as [|[|[|]]]; cbn in *; try done.
    destruct Hl as (? & _). congruence.
  - constructor; cbn; [done|..]; intros s; intros.
    + simplify_eq. apply (inv_Execute (appManager cfg)).
    + simplify_eq. cbn in *. by case_match; simplify_eq.
    + simplify_eq. destruct i as [|[|[|]]]; by simplify_eq/=.
  - eapply (lifeInv_manager cfg l s a); try done; [intros i o ->; done|].
    intros e ->. cbn in Hof. by bool_to_prop.
  - apply (lifeInv_service cfg l); [done|by apply Stopping|]. apply inFlight_nil.
  - eapply (lifeInv_manager cfg l s); try done. intros i o [= <- <-]. unfold StopWaitReturns in Hst.
    bool_to_prop. done.
  - eapply (lifeInv_manager cfg (Life (svc l) true (server l) (waiting l) (closeErr l) (sd l)) s); try done.
    + apply (lifeInv_outside cfg l); try done. intros i o Hl. destruct i as [|[|[|]]]; cbn in *; naive_solver.
    + by intros i o [= <- <-].
  - apply (lifeInv_outside cfg l); try done. intros i o Hl. destruct i as [|[|[|]]]; cbn in *; naive_solver.
  - eapply (lifeInv_manager cfg l s); try done. intros i o [= <- <-]. cbn. destruct (closeErr l); naive_solver.
  - eapply (lifeInv_manager cfg l s); try done. intros i o [= <- <-]. cbn. pose proof (li_ctx _ _ Hi _ _ Hsd He).
    naive_solver.
Qed.

Lemma lifeInv_run cfg ce l : rtc (lifeStep cfg) (begun cfg ce) l → lifeInv cfg l.
Proof.
  intros Hr. assert (lifeInv cfg (begun cfg ce)) as Hi by (constructor; cbn; done).
  induction Hr as [|l1 l2 l3 [_ H12] _ IH]; eauto using lifeInv_step.
Qed.

(** ** The claim *)

(** The errors the hooks of the service can report. *)
Lemma hook_error cfg l s e : lifeInv cfg l → sd l = Some s → e ∈ sent s →
  e = DeadlineExceeded ∨ closeErr l = Some e.
Proof.
  intros Hi Hsd He. pose proof (li_manager _ _ Hi _ Hsd) as Hm. rewrite (i_sent _ _ Hm) in He.
  apply list_elem_of_omap in He as ([name ph] & Hin & He). apply list_elem_of_lookup in Hin as (i & Hh).
  assert (∃ o, ended ph = Some o ∧ hookErr name o = Some e) as (o & Ho & Herr).
  { unfold sentErr in He. destruct ph; cbn in *; naive_solver. }
  pose proof (li_hooks _ _ Hi _ _ _ _ _ Hsd Hh Ho) as Hl. pose proof (i_names _ _ Hm) as Hn.
  assert (i < 3)%nat as Hlt.
  { apply lookup_lt_Some in Hh. rewrite <- (length_fmap fst), Hn in Hh. done. }
  destruct i as [|[|[|]]]; [| | |lia]; cbn in Hl.
  - destruct Hl as [-> _]. done.
  - destruct Hl as [-> _]. done.
  - destruct Hl as (_ & _ & Hp & Hl). destruct o as [|e'|m]; cbn in Herr; [done| |by destruct (Hp m)].
    simplify_eq. naive_solver.
Qed.

(** C25: the service stops gracefully: in every interleaving of requests for tasks, within the rate limit
    and over it, the workers, the signal and the concurrent hooks, when [main] returns without an
    error, every request the server had taken has been answered, the cache is
    closed, and the tasks the pool has accepted are exactly those executed. A request within the limit is answered 201 when its task was accepted, 503 when the pool
    refused it, 400 when its body was not that of a task; one over the limit 429, whatever becomes of its task. An error of
    the shutdown is the deadline or the error of closing the listener; and after
    the deadline [main] returns without waiting for any hook. *)
Theorem graceful_shutdown cfg ce l s :
  rtc (lifeStep cfg) (begun cfg ce) l → sd l = Some s →
  let p := Pool_ (app (svc l)) in
  (main s = MReturned None →
     inFlight l = [] ∧ cacheClosed l = true ∧ queue p = [] ∧ running p = [] ∧
     tasksWith Accepted (replies (svc l)) ≡ₚ WorkerPool.finished p ∧
     ∀ r, r ∈ replies (svc l) → a_status r = answerTo (a_over r) (a_verdict r)) ∧
  (∀ e, main s = MReturned (Some e) →
     errors_Is e DeadlineExceeded = true ∨ ∃ e', closeErr l = Some e' ∧ errors_Is e e' = true) ∧
  (Shutdown.ctxErr s ≠ None → alive l = true →
     ∃ a l', a ∈ [TakeCtx; Receive; Default] ∧ Shutdown.act s a = Some l' ∧ lifeStep cfg l (setSd l l')).
Proof.
  intros Hi%lifeInv_run Hsd p. pose proof (li_manager _ _ Hi _ Hsd) as Hm.
  pose proof (i_names _ _ Hm) as Hn. split_and!.
  - intros Hr. assert (∀ i, (i < 3)%nat → hookLeaves cfg l i HookOk) as Hl.
    { intros i Hlt. assert (i < length (Shutdown.hooks s))%nat as [[name ph] Hh]%lookup_lt_is_Some.
      { by rewrite <- (length_fmap fst), Hn. }
      pose proof (sd_returned_nil _ _ _ _ _ Hm Hr Hh) as ->. by eapply (li_hooks _ _ Hi s i name). }
    destruct (Hl 0%nat) as [_ Hp]; [lia|]. destruct (Hl 1%nat) as [_ Hc]; [lia|].
    destruct (Hl 2%nat) as (_ & Hf & _); [lia|].
    destruct (reachable_accounted cfg _ (li_service _ _ Hi)) as [H1 H2 _ _ _ _ H7].
    destruct (inFlight_nil l (Hf eq_refl)) as [_ Hd]. unfold Tasks.answers in H2, H7. rewrite Hd in H2, H7.
    destruct (pool_drains _ _ _ _ H1 Hp (rtc_refl _ _)) as (Hq & Hrun & Ha & _).
    split_and!; auto; [by rewrite H2|]. by apply Forall_forall.
  - intros e Hr. destruct (sd_returned _ _ _ Hm Hr) as [[_ Hj]|(c & got & rest & Hc & _ & [= ->])].
    + destruct (joinAll_reports (sent s)) as [Hrep _]. rewrite <- Hj in Hrep.
      destruct (sent s) as [|e0 es] eqn:Es; [done|].
      destruct (Hrep e0 ltac:(set_solver)) as (f & [= <-] & Hf).
      destruct (hook_error cfg l s e0 Hi Hsd ltac:(rewrite Es; set_solver)) as [->|?]; [by left|right; eauto].
    + left. rewrite (li_ctx _ _ Hi _ _ Hsd Hc). apply foldl_join_Is. left. apply errors_Is_refl.
  - intros Hc Hal. destruct (main_enabled _ _ Hm Hc) as (a & Ha & [s' Hs']).
    { unfold alive in Hal. rewrite Hsd in Hal. intros r Er. by rewrite Er in Hal. }
    exists a, s'. split_and!; [done..|]. split; [done|]. eapply Manages; [done| |done].
    by repeat (apply elem_of_cons in Ha as [->|Ha]; [done|]); apply elem_of_nil in Ha.
Qed.

(** One worker. *)
Definition smallConfig : Microservice.Config := Microservice.mkConfig ":8080" (5 * Second) 1 1 (10 * Second) "".

Ltac lifeMoves t := eapply rtc_l; [split; [reflexivity|t]|computed].
Ltac managed a := lifeMoves ltac:(eapply (Manages _ _ _ a); reflexivity).
Ltac handled l t := lifeMoves ltac:(eapply (Handles _ _ [] _ _ (Answer t _ _ _)); [reflexivity|asks l "job" t|reflexivity]).
Ltac answered d := lifeMoves ltac:(eapply Answers; [eapply (TaskReplied _ [] _ _ d); reflexivity|reflexivity]).

(** Three requests are in flight when the signal comes, the second over the limit; the pool stops while
    the server still waits for the third, whose task is refused with 503. *)
Lemma refused_in_flight : ∃ l s,
  rtc (lifeStep smallConfig) (begun smallConfig None) l ∧ sd l = Some s ∧ main s = MReturned None ∧
  replies (svc l) = [Answer 7 false Accepted 201; Answer 9 true Accepted 429; Answer 8 false Refused 503] ∧
  WorkerPool.finished (Pool_ (app (svc l))) = [9%nat; 7%nat].
Proof.
  do 2 eexists. split.
  - computed. lifeMoves ltac:(apply (Arrives _ _ 7%nat); reflexivity).
    lifeMoves ltac:(apply (Arrives _ _ 9%nat); reflexivity).
    lifeMoves ltac:(apply (Arrives _ _ 8%nat); reflexivity).
    handled (RateLimit.NewGlobal 1) 7%nat.
    lifeMoves ltac:(apply Works; eapply Receives; reflexivity).
    handled spent 9%nat.
    lifeMoves ltac:(apply Signal; reflexivity).
    lifeMoves ltac:(eapply PoolStops; [reflexivity|exists "workerpool"; reflexivity|apply StopSignal; reflexivity]).
    handled (RateLimit.NewGlobal 1) 8%nat.
    answered 3.
    lifeMoves ltac:(apply Works; apply (Completes _ _ [] 7%nat []); reflexivity).
    answered 3. answered 3.
    lifeMoves ltac:(eapply PoolStops; [reflexivity|exists "workerpool"; reflexivity|apply StopLock; reflexivity]).
    lifeMoves ltac:(eapply PoolStops; [reflexivity|exists "workerpool"; reflexivity|apply StopFlag; reflexivity]).
    lifeMoves ltac:(eapply PoolStops; [reflexivity|exists "workerpool"; reflexivity|apply StopTasks; reflexivity]).
    lifeMoves ltac:(eapply PoolStops; [reflexivity|exists "workerpool"; reflexivity|apply StopUnlock; reflexivity]).
    lifeMoves ltac:(apply Works; eapply Receives; reflexivity).
    lifeMoves ltac:(apply Works; apply (Completes _ _ [] 9%nat []); reflexivity).
    lifeMoves ltac:(apply Works; apply Leaves; reflexivity).
    lifeMoves ltac:(eapply PoolStopped; reflexivity).
    lifeMoves ltac:(eapply CacheCloses; reflexivity).
    lifeMoves ltac:(eapply ServerCloses; [reflexivity|exists "http_server"; reflexivity]).
    lifeMoves ltac:(eapply ServerDrained; reflexivity).
    managed (WgDone 0). managed (WgDone 1). managed (WgDone 2). managed CloseDone. managed TakeDone.
    apply rtc_refl.
  - split; [reflexivity|]. split; [reflexivity|]. split; reflexivity.
Qed.

Lemma graceful_shutdown_witness : ∃ l s, sd l = Some s ∧ main s = MReturned None ∧
  inFlight l = [] ∧ cacheClosed l = true ∧ tasksWith Accepted (replies (svc l)) = [7%nat; 9%nat].
Proof.
  destruct refused_in_flight as (l & s & Hr & Hsd & Hm & Hrep & _). exists l, s.
  destruct (graceful_shutdown smallConfig None l s Hr Hsd) as [(H1 & H2 & _) _]; [exact Hm|].
  split; [exact Hsd|]. split; [exact Hm|]. split; [exact H1|]. split; [exact H2|]. rewrite Hrep. reflexivity.
Defined.
