(* ===== verification/Instruments.v ===== *)
(** The instruments of the libraries (metrics/metrics.go): the interfaces of
    counters, gauges and histograms as classes, the instruments that discard what
    they are given, and the atomic counters and gauges of the reference service
    (examples/microservice/main.go). *)
From S2P Require Import Prelude RedMetrics WorkerPool Float64 Microservice.
#[local] Open Scope Z_scope.

(** ** Interfaces *)

Class Counter (C : Type) := { Inc : C → C; Add : C → float64 → C }.
Class Gauge (G : Type) := { Set_ : G → float64 → G; GAdd : G → float64 → G }.
Class Histogram (H : Type) := { Observe : H → float64 → H }.
#[global] Hint Mode Counter ! : typeclass_instances.
#[global] Hint Mode Gauge ! : typeclass_instances.
#[global] Hint Mode Histogram ! : typeclass_instances.

(** ** Instruments that discard *)

Inductive NoopCounter := mkNoopCounter.
Inductive NoopGauge := mkNoopGauge.
Inductive NoopHistogram := mkNoopHistogram.
Definition noop_counter : Counter NoopCounter := {| Inc c := c; Add c _ := c |}.
Definition noop_gauge : Gauge NoopGauge := {| Set_ g _ := g; GAdd g _ := g |}.
Definition noop_histogram : Histogram NoopHistogram := {| Observe h _ := h |}.
#[global] Existing Instances noop_counter noop_gauge noop_histogram.

(** ** Atomic instruments *)

Record AtomicCounter := mkCounter { cval : Z }.
Record AtomicGauge := mkGauge { gval : Z }.
Definition atomic_counter : Counter AtomicCounter :=
  {| Inc c := mkCounter (counterInc (cval c)); Add c d := mkCounter (counterAdd (cval c) d) |}.
Definition atomic_gauge : Gauge AtomicGauge :=
  {| Set_ _ v := mkGauge (gaugeSet v); GAdd g d := mkGauge (gaugeAdd (gval g) d) |}.
#[global] Existing Instances atomic_counter atomic_gauge.
Definition Value (c : AtomicCounter) : Z := cval c.
Definition GValue (g : AtomicGauge) : Z := gval g.

(** ** Reports *)

(** What a component reports to its counter and its gauge, and an instrument
    after a sequence of reports. *)
Inductive counted := ByOne | By (delta : float64).
Inductive gauged := ToValue (v : float64) | ByDelta (delta : float64).
Definition tell {C} `{Counter C} (c : C) (r : counted) : C := match r with ByOne => Inc c | By d => Add c d end.
Definition show {G} `{Gauge G} (g : G) (r : gauged) : G := match r with ToValue v => Set_ g v | ByDelta d => GAdd g d end.

(** What a report adds to an atomic counter: a delta is cut to a whole number,
    and one that is not positive is ignored. *)
Definition whole (r : counted) : Z :=
  match r with ByOne => 1 | By d => if fleb d f0 then 0 else default 0 (to_uint64 d) end.
Definition total (rs : list counted) : Z := foldr (λ r acc, whole r + acc) 0 rs.

Lemma default_uint64_nonneg f : 0 <= default 0 (to_uint64 f).
Proof. unfold to_uint64. repeat case_match; simpl; bool_to_prop; lia. Qed.

Lemma whole_nonneg r : 0 <= whole r.
Proof. destruct r as [|d]; unfold whole; [lia|]. destruct (fleb d f0); [lia|apply default_uint64_nonneg]. Qed.

Lemma total_nonneg rs : 0 <= total rs.
Proof. induction rs as [|r rs IH]; [done|]. pose proof (whole_nonneg r). cbn [total foldr]. unfold total in IH. lia. Qed.

Lemma whole_total_app rs rs' : total (rs ++ rs') = total rs + total rs'.
Proof. induction rs as [|r rs IH]; [done|]. cbn [app total foldr]. unfold total in *. rewrite IH. lia. Qed.

Lemma tell_atomic n r : tell (mkCounter (wrapU64 n)) r = mkCounter (wrapU64 (n + whole r)).
Proof.
  destruct r as [|d]; cbn [tell Inc Add atomic_counter cval whole]; unfold counterInc, counterAdd, wrapU64; [by rewrite Zplus_mod_idemp_l|].
  destruct (fleb d f0); [by rewrite Z.add_0_r|by rewrite Zplus_mod_idemp_l].
Qed.

(** An atomic counter holds the sum of what it was told, modulo 2^64. *)
Lemma atomic_sum n rs : Value (foldl tell (mkCounter (wrapU64 n)) rs) = wrapU64 (n + total rs).
Proof.
  revert n. induction rs as [|r rs IH]; intros n; [cbn; by rewrite Z.add_0_r|].
  cbn [foldl total foldr]. rewrite tell_atomic, IH. unfold total. f_equal. lia.
Qed.

(** A counter never decreases while it does not overflow, and the order of the
    reports, those of concurrent callers among them, does not matter. *)
Lemma counter_monotone rs rs' : total (rs ++ rs') < 2 ^ 64 →
  Value (foldl tell (mkCounter 0) rs) <= Value (foldl tell (mkCounter 0) (rs ++ rs')) ∧
  Value (foldl tell (mkCounter 0) (rs ++ rs')) = total (rs ++ rs').
Proof.
  intros Hlt. change (mkCounter 0) with (mkCounter (wrapU64 0)). rewrite !atomic_sum. unfold wrapU64.
  pose proof (total_nonneg rs). pose proof (total_nonneg rs'). rewrite whole_total_app in *. rewrite !Z.mod_small by lia. lia.
Qed.

Lemma counter_order rs rs' : Permutation rs rs' →
  Value (foldl tell (mkCounter 0) rs) = Value (foldl tell (mkCounter 0) rs').
Proof.
  intros Hp. change (mkCounter 0) with (mkCounter (wrapU64 0)). rewrite !atomic_sum. f_equal. f_equal.
  induction Hp; cbn [total foldr]; unfold total in *; lia.
Qed.

(** A gauge holds the last value it was set to and the deltas since, each cut to
    a whole number. *)
Lemma gauge_last g v ds :
  GValue (foldl show g (ToValue v :: map ByDelta ds)) =
  foldl (λ z d, z +! default 0 (to_int64 d)) (default 0 (to_int64 v)) ds.
Proof.
  cbn. unfold gaugeSet. generalize (default 0 (to_int64 v)) as z. induction ds as [|d ds IH]; intros z; [done|].
  cbn. unfold gaugeAdd. cbn. apply IH.
Qed.

(** Fractions are lost: two halves leave the counter at 0. *)
Lemma fractions_lost : Value (foldl tell (mkCounter 0) [By fhalf; By fhalf]) = 0.
Proof. reflexivity. Qed.

(** An instrument that discards is the same after any reports. *)
Lemma noop_discards rs ss (c : NoopCounter) (g : NoopGauge) : foldl tell c rs = c ∧ foldl show g ss = g.
Proof. split; [by destruct c, (foldl tell _ rs)|by destruct g, (foldl show _ ss)]. Qed.
