(* ===== verification/LoadGen.v ===== *)
(** The traffic generator of the reference service
    (examples/microservice/loadgen/main.go): the requests it makes, and its
    workers, tokens and statistics as a transition system, and its reports. *)
From S2P Require Import Prelude WorkerPool Text Base64 Float64 Strconv PgLimiter AppError NetIP RealIP RedMetrics Web Pipeline Items Microservice.
#[local] Open Scope Z_scope.

(** ** Pace *)

(** [intervalPerReq]; [None] where the conversion is left to the implementation. *)
Definition intervalPerReq (targetRPM : Z) : option Duration :=
  let targetRPS := fdiv (of_int targetRPM) (of_int 60) in
  to_int64 (fdiv (of_int Second) targetRPS).

(** The capacity of [tokenChan]. *)
Definition tokenCap : Z := 10000.

(** ** Requests *)

(** The random numbers of a request: [rng.Intn(100)], [rng.Intn(8)],
    [rng.Intn(256)] and the number drawn for the endpoint. *)
Record roll := Roll { dice : Z; net3 : Z; net4 : Z; pick : Z }.

(** The bound of the last [rng.Intn]; 1 where the code draws no number. *)
Definition pickBound (d : Z) : Z :=
  if d <? 60 then 5 else if d <? 75 then 4 else if d <? 85 then 1 else if d <? 92 then 100
  else if d <? 95 then 1000 else 1.
Definition rollOk (r : roll) : Prop :=
  0 <= dice r < 100 ∧ 0 <= net3 r < 8 ∧ 0 <= net4 r < 256 ∧ 0 <= pick r < pickBound (dice r).

Definition simIP (r : roll) : string :=
  if dice r =? 99 then "192.168.100.99" else "10.0." +:+ Itoa (net3 r) +:+ "." +:+ Itoa (net4 r).

Definition symbolAt (i : Z) : string := nth (Z.to_nat i) ["AAPL"; "GOOG"; "MSFT"; "AMZN"] "".

(** The method, the path and the query of the request. *)
Record target := Target { t_method : string; t_path : string; t_query : string }.

Definition choose (r : roll) : target :=
  let d := dice r in
  if d <? 60 then Target "GET" "/api/v1/items" ("page=" +:+ Itoa (pick r + 1) +:+ "&limit=" +:+ Itoa 10)
  else if d <? 75 then Target "GET" "/api/v1/quotes" ("symbol=" +:+ symbolAt (pick r))
  else if d <? 85 then (if d mod 2 =? 0 then Target "GET" "/health/live" "" else Target "GET" "/health/ready" "")
  else if d <? 92 then Target "GET" ("/api/v1/items/item-" +:+ Itoa (pick r + 1)) ""
  else if d <? 95 then Target "GET" ("/api/v1/items/nonexistent-" +:+ Itoa (pick r)) ""
  else if d <? 98 then Target "POST" "/api/v1/tasks" ""
  else Target "GET" "/api/v1/quotes" "symbol=FAIL".

Definition headers (r : roll) : list (string * string) :=
  (if bool_decide (t_method (choose r) = "POST") then [("Content-Type", "application/json")] else []) ++
  [("X-Forwarded-For", simIP r); ("User-Agent", "GoldenSignals-LoadGen/1.1")].

(** ** Statistics *)

Record Stats := mkStats {
  TotalRequests : Z; Status200 : Z; Status404 : Z; Status429 : Z; Status500 : Z; Status503 : Z;
  OtherStatus : Z; Errors : Z;
}.
Definition noStats : Stats := mkStats 0 0 0 0 0 0 0 0.

(** How a request ends: with the status of a response, or with no response. *)
Inductive outcome := Answered (status : Z) | Failed.

(** The counter of an outcome. *)
Inductive bucket := B200 | B404 | B429 | B500 | B503 | BOther | BError.
#[global] Instance bucket_eq_dec : EqDecision bucket.
Proof. solve_decision. Defined.

Definition bucketOf (o : outcome) : bucket :=
  match o with
  | Failed => BError
  | Answered s =>
      if (s =? 200) || (s =? 201) then B200 else if s =? 404 then B404 else if s =? 429 then B429
      else if s =? 500 then B500 else if s =? 503 then B503 else BOther
  end.

Definition counted (s : Stats) (b : bucket) : Z :=
  match b with
  | B200 => Status200 s | B404 => Status404 s | B429 => Status429 s | B500 => Status500 s | B503 => Status503 s
  | BOther => OtherStatus s | BError => Errors s
  end.

Definition started (s : Stats) : Stats :=
  mkStats (wrapU64 (TotalRequests s + 1)) (Status200 s) (Status404 s) (Status429 s) (Status500 s) (Status503 s) (OtherStatus s) (Errors s).

Definition ended (s : Stats) (o : outcome) : Stats :=
  let at_ b := if bool_decide (b = bucketOf o) then wrapU64 (counted s b + 1) else counted s b in
  mkStats (TotalRequests s) (at_ B200) (at_ B404) (at_ B429) (at_ B500) (at_ B503) (at_ BOther) (at_ BError).

(** ** The generator over time *)

(** A worker waits for a token, has one, has sent a request, or has returned. *)
Inductive worker := Waiting | Holding | Sending (r : roll) | Returned_.

Record generator := Gen { tokens : Z; stats : Stats; workers_ : list worker; cancelled : bool; outcomes : list outcome }.

Definition start (concurrency : Z) : generator :=
  Gen 0 noStats (replicate (Z.to_nat concurrency) Waiting) false [].

Inductive genStep : generator → generator → Prop :=
| Tick n s ws os : n < tokenCap → genStep (Gen n s ws false os) (Gen (n + 1) s ws false os)
| Saturated n s ws os : tokenCap <= n → genStep (Gen n s ws false os) (Gen n s ws false os)
| Take n s ws1 ws2 c os : 0 < n →
    genStep (Gen n s (ws1 ++ Waiting :: ws2) c os) (Gen (n - 1) s (ws1 ++ Holding :: ws2) c os)
| Dispatch n s ws1 ws2 c os r : rollOk r →
    genStep (Gen n s (ws1 ++ Holding :: ws2) c os) (Gen n (started s) (ws1 ++ Sending r :: ws2) c os)
| Ends n s ws1 r ws2 c os o :
    genStep (Gen n s (ws1 ++ Sending r :: ws2) c os) (Gen n (ended s o) (ws1 ++ Waiting :: ws2) c (o :: os))
| Cancel n s ws c os : genStep (Gen n s ws c os) (Gen n s ws true os)
| Returns_ n s ws1 ws2 os :
    genStep (Gen n s (ws1 ++ Waiting :: ws2) true os) (Gen n s (ws1 ++ Returned_ :: ws2) true os).

(** ** Reports *)

(** The flags of the command line and their defaults. *)
Record flags := mkFlags { targetRPM : Z; duration : Duration; targetURL : string; concurrency : Z }.
Definition defaultFlags : flags := mkFlags 100000 (15 * Minute) "http://localhost:8080" 64.

(** [Duration.Minutes], a float64. *)
Definition Minutes (d : Duration) : float64 :=
  fadd (of_int (Z.quot d Minute)) (fdiv (of_int (Z.rem d Minute)) (of_int Minute)).

(** A line of progress: the minutes and seconds since the start, the rates of the
    window, its requests, and the counters. *)
Record progressLine := Line {
  l_minutes : option Z; l_seconds : option Z; instRPM : float64; instRPS : float64; deltaReqs : Z; l_stats : Stats }.

(** What the reporting goroutine keeps between two ticks. *)
Record reporter := Reporter { lastTotal : Z; lastReportTime : Time }.

Definition report (startTime : Time) (p : reporter) (t : Time) (s : Stats) : progressLine * reporter :=
  let elapsed := time_Sub t startTime in
  let windowDuration := Seconds (time_Sub t (lastReportTime p)) in
  let currentTotal := TotalRequests s in
  let delta := wrapU64 (currentTotal - lastTotal p) in
  let rps := fdiv (of_int delta) windowDuration in
  (Line (to_int64 (Minutes elapsed)) ((λ z, Z.rem z 60) <$> to_int64 (Seconds elapsed))
     (fmul rps (of_int 60)) rps delta s,
   Reporter currentTotal t).

Fixpoint reports (startTime : Time) (p : reporter) (ticks : list (Time * Stats)) : list progressLine * reporter :=
  match ticks with
  | [] => ([], p)
  | (t, s) :: ticks' =>
      let '(l, p1) := report startTime p t s in
      let '(ls, p2) := reports startTime p1 ticks' in (l :: ls, p2)
  end.

(** The closing report: the averages, and the counters with their shares in
    percent; network errors have no share. *)
Record closing := Closing { finalTotal : Z; avgRPM : float64; avgRPS : float64; breakdown : list (bucket * Z * float64); netErrors : Z }.

Definition closingReport (totalDuration : Duration) (s : Stats) : closing :=
  let n := TotalRequests s in
  let part b := (b, counted s b, fmul (fdiv (of_int (counted s b)) (of_int n)) (of_int 100)) in
  Closing n (fdiv (of_int n) (Minutes totalDuration)) (fdiv (of_int n) (Seconds totalDuration))
    (map part [B200; B404; B429; B503; B500]) (Errors s).

(** ** Accounting *)

Definition isSending (w : worker) : Z := match w with Sending _ => 1 | _ => 0 end.
Definition inFlight (ws : list worker) : Z := foldr (λ w acc, isSending w + acc) 0 ws.
Definition ofBucket (b : bucket) (os : list outcome) : Z :=
  foldr (λ o acc, (if bool_decide (bucketOf o = b) then 1 else 0) + acc) 0 os.

Record genInv (k : Z) (g : generator) : Prop := {
  gi_tokens : 0 <= tokens g <= tokenCap;
  gi_workers : Z.of_nat (length (workers_ g)) = k;
  gi_total : TotalRequests (stats g) = wrapU64 (Z.of_nat (length (outcomes g)) + inFlight (workers_ g));
  gi_buckets : ∀ b, counted (stats g) b = wrapU64 (ofBucket b (outcomes g));
}.

Lemma inFlight_app ws1 w ws2 : inFlight (ws1 ++ w :: ws2) = inFlight (ws1 ++ ws2) + isSending w.
Proof. unfold inFlight. induction ws1 as [|w1 ws1 IH]; cbn in *; lia. Qed.

Lemma inFlight_bounds ws : 0 <= inFlight ws <= Z.of_nat (length ws).
Proof. unfold inFlight. induction ws as [|[] ws IH]; cbn in *; lia. Qed.

Lemma wrapU64_succ n : wrapU64 (wrapU64 n + 1) = wrapU64 (n + 1).
Proof. unfold wrapU64. by rewrite Zplus_mod_idemp_l. Qed.

Lemma counted_started s b : counted (started s) b = counted s b.
Proof. by destruct b. Qed.

Lemma counted_ended s o b :
  counted (ended s o) b = if bool_decide (bucketOf o = b) then wrapU64 (counted s b + 1) else counted s b.
Proof.
  unfold ended. destruct b; cbn [counted Status200 Status404 Status429 Status500 Status503 OtherStatus Errors];
    case_bool_decide; case_bool_decide; congruence.
Qed.

Lemma genStep_inv k g g' : genInv k g → genStep g g' → genInv k g'.
Proof.
  intros [H1 H2 H3 H4] Hstep. destruct Hstep; constructor; cbn in *; rewrite ?length_app in *; cbn in *;
    rewrite ?H3, ?inFlight_app in *; cbn [isSending] in *; rewrite ?wrapU64_succ; try lia; auto; try (f_equal; lia).
  intros b. rewrite counted_ended, H4. cbn [ofBucket foldr]. case_bool_decide; [rewrite wrapU64_succ|]; f_equal; cbn; lia.
Qed.

Lemma reachable_genInv k g : 0 <= k → rtc genStep (start k) g → genInv k g.
Proof.
  intros Hk Hg. assert (genInv k (start k)) as Hi.
  { constructor; cbn; [unfold tokenCap; lia|rewrite length_replicate; lia| |by intros []].
    replace (inFlight _) with 0; [done|]. induction (Z.to_nat k); cbn in *; auto. }
  revert Hi. induction Hg; eauto using genStep_inv.
Qed.

Lemma buckets_sum os :
  ofBucket B200 os + ofBucket B404 os + ofBucket B429 os + ofBucket B500 os + ofBucket B503 os + ofBucket BOther os +
  ofBucket BError os = Z.of_nat (length os).
Proof.
  induction os as [|o os IH]; [done|]. cbn [ofBucket foldr length] in *. unfold ofBucket in IH.
  destruct (bucketOf o); repeat first [rewrite bool_decide_true by done|rewrite bool_decide_false by done]; lia.
Qed.

(** ** The endpoints *)

(** A path against a route of the service: a parameter stands for a last segment
    that is not empty. *)
Fixpoint noSlash (s : string) : bool :=
  match s with EmptyString => true | String a s' => negb (byteOf a =? 47) && noSlash s' end.
Fixpoint matches (route path : string) : bool :=
  match route, path with
  | EmptyString, EmptyString => true
  | String a route', String b path' =>
      if byteOf a =? 58 then noSlash path else bool_decide (a = b) && matches route' path'
  | _, _ => false
  end.

Definition routed (t : target) : list endpoint :=
  (filter (λ r : string * string * endpoint, t_method t = r.1.1 ∧ matches r.1.2 (t_path t) = true) registerRoutes).*2.

(** The endpoint the numbers are meant for. *)
Definition meant (d : Z) : endpoint :=
  if d <? 60 then GetItems else if d <? 75 then GetQuote
  else if d <? 85 then (if d mod 2 =? 0 then Liveness else Readiness)
  else if d <? 95 then GetItemByID else if d <? 98 then CreateTask else GetQuote.

Definition share (e : endpoint → bool) : Z := Z.of_nat (length (filter (λ d, e (meant d) = true) (seqZ 0 100))).

#[global] Instance endpoint_eq_dec : EqDecision endpoint.
Proof. solve_decision. Defined.

(** All pairs of a die and a pick, for the evaluation of a property of the requests. *)
Definition allRolls : list (Z * Z) := d ← seqZ 0 100; p ← seqZ 0 (pickBound d); [(d, p)].

Lemma all_rolls (P : Z → Z → bool) r : rollOk r →
  forallb (λ dp, P dp.1 dp.2) allRolls = true → P (dice r) (pick r) = true.
Proof.
  intros (H1 & _ & _ & H4) Hall. rewrite forallb_forall in Hall. apply (Hall (dice r, pick r)).
  apply list_elem_of_In. unfold allRolls. apply list_elem_of_bind. exists (dice r). split; [|apply elem_of_seqZ; lia].
  apply list_elem_of_bind. exists (pick r). split; [by apply list_elem_of_singleton|]. apply elem_of_seqZ. lia.
Qed.

(** The identifier in the path of a request for one item. *)
Definition itemID (t : target) : string := TrimPrefix (t_path t) "/api/v1/items/".
Definition itemStatus (r : itemReply) : Z := match r with ItemOK _ => 200 | ItemError r => rStatus r end.

Definition hits (d p : Z) : bool :=
  let t := choose (Roll d 0 0 p) in
  bool_decide (routed t = [meant d]) &&
  (if bool_decide (meant d = GetItemByID)
   then bool_decide (itemStatus (handleGetItemByID (itemID t)) = if d <? 92 then 200 else 404) else true).

Lemma hits_all : forallb (λ dp, hits dp.1 dp.2) allRolls = true.
Proof. vm_compute. reflexivity. Qed.

Lemma choose_hits r : rollOk r →
  routed (choose r) = [meant (dice r)] ∧
  (meant (dice r) = GetItemByID →
   itemStatus (handleGetItemByID (itemID (choose r))) = if dice r <? 92 then 200 else 404).
Proof.
  intros Hr. pose proof (all_rolls hits r Hr hits_all) as Hh. unfold hits in Hh.
  change (choose (Roll (dice r) 0 0 (pick r))) with (choose r) in Hh.
  apply andb_true_iff in Hh as [H1%bool_decide_eq_true H2]. split; [exact H1|]. intros Hm.
  rewrite (bool_decide_true _ Hm) in H2. by apply bool_decide_eq_true in H2.
Qed.

Lemma shares :
  share (λ e, bool_decide (e = GetItems)) = 60 ∧ share (λ e, bool_decide (e = GetQuote)) = 17 ∧
  share (λ e, bool_decide (e = Liveness ∨ e = Readiness)) = 10 ∧ share (λ e, bool_decide (e = GetItemByID)) = 10 ∧
  share (λ e, bool_decide (e = CreateTask)) = 3.
Proof. repeat split; vm_compute; reflexivity. Qed.

Lemma default_interval : intervalPerReq 100000 = Some (600 * 1000).
Proof. vm_compute. reflexivity. Qed.

Lemma wrapU64_shift a b k : a = b + k * 2 ^ 64 → wrapU64 a = wrapU64 b.
Proof. intros ->. apply Z_mod_plus_full. Qed.

Lemma wrapU64_part a : ∃ k, wrapU64 a = a + k * 2 ^ 64.
Proof. exists (- (a / 2 ^ 64)). unfold wrapU64. pose proof (Z.div_mod a (2 ^ 64)). lia. Qed.

(** When no request is in flight, the counters add up. *)
Lemma settled k g : genInv k g → inFlight (workers_ g) = 0 →
  let s := stats g in
  TotalRequests s = wrapU64 (Status200 s + Status404 s + Status429 s + Status500 s + Status503 s + OtherStatus s + Errors s).
Proof.
  intros [_ _ H3 H4] E0. cbv zeta. rewrite H3, E0, Z.add_0_r, <- buckets_sum.
  pose proof (λ b, wrapU64_part (ofBucket b (outcomes g))) as Hp. setoid_rewrite <- H4 in Hp.
  destruct (Hp B200) as [k1 E1], (Hp B404) as [k2 E2], (Hp B429) as [k3 E3], (Hp B500) as [k4 E4], (Hp B503) as [k5 E5],
    (Hp BOther) as [k6 E6], (Hp BError) as [k7 E7]. cbn [counted] in *.
  symmetry. apply wrapU64_shift with (k1 + k2 + k3 + k4 + k5 + k6 + k7). lia.
Qed.

(** The traffic generator. In every interleaving of its ticker, its workers and its cancellation the tokens never exceed the
    capacity of their channel, and the requests counted are those that have ended, each in exactly one of the counters, and those in
    flight, at most one for each worker; when all workers have returned the counters add up to the
    total (modulo 2^64). Every request it makes is served by exactly one route of the service, the one it is meant for; of the hundred faces of the die
    60 go to the items, 17 to the quotes, 10 to the probes, 10 to single items, of which 7 are found and 3 are answered 404,
    and 3 to the tasks. The default rate is a request every 600 microseconds. And the rotating client addresses have no effect on the
    service, which trusts no proxy. *)
Lemma loadgen_accounts k g :
  0 <= k → rtc genStep (start k) g →
  let s := stats g in
  0 <= tokens g <= tokenCap ∧
  (∀ b, counted s b = wrapU64 (ofBucket b (outcomes g))) ∧
  TotalRequests s = wrapU64 (Z.of_nat (length (outcomes g)) + inFlight (workers_ g)) ∧ 0 <= inFlight (workers_ g) <= k ∧
  (Forall (λ w, w = Returned_) (workers_ g) →
   TotalRequests s = wrapU64 (Status200 s + Status404 s + Status429 s + Status500 s + Status503 s + OtherStatus s + Errors s)) ∧
  (∀ r, rollOk r → routed (choose r) = [meant (dice r)] ∧
    (meant (dice r) = GetItemByID →
     itemStatus (handleGetItemByID (itemID (choose r))) = if dice r <? 92 then 200 else 404)) ∧
  (share (λ e, bool_decide (e = GetItems)) = 60 ∧ share (λ e, bool_decide (e = GetQuote)) = 17 ∧
   share (λ e, bool_decide (e = Liveness ∨ e = Readiness)) = 10 ∧ share (λ e, bool_decide (e = GetItemByID)) = 10 ∧
   share (λ e, bool_decide (e = CreateTask)) = 3) ∧
  intervalPerReq 100000 = Some (600 * 1000) ∧
  (∀ r addr, RealIP.RealIP (RealIP.Request addr [simIP r] "") [] = ExtractIP addr).
Proof.
  intros Hk Hg. pose proof (reachable_genInv k g Hk Hg) as Hi. pose proof Hi as [H1 H2 H3 H4]. cbv zeta.
  split; [exact H1|]. split; [exact H4|]. split; [exact H3|]. split; [rewrite <- H2; apply inFlight_bounds|].
  split; [|split; [exact choose_hits|split; [exact shares|split; [exact default_interval|done]]]].
  intros Hall. apply (settled k); [done|]. clear -Hall. unfold inFlight. induction Hall as [|w ws -> _ IH]; cbn; [done|exact IH].
Qed.

Lemma loadgen_accounts_witness :
  ∃ g, outcomes g = [Answered 404] ∧ Status404 (stats g) = 1 ∧ TotalRequests (stats g) = 1 ∧
    routed (choose (Roll 93 0 0 7)) = [GetItemByID].
Proof.
  eexists. split.
  2: { assert (rtc genStep (start 1) (Gen 0 (ended (started noStats) (Answered 404)) [Waiting] false [Answered 404])) as Hg.
       { eapply rtc_l; [by apply (Tick 0)|]. eapply rtc_l; [by apply (Take 1 _ [] [])|].
         eapply rtc_l; [apply (Dispatch 0 _ [] [] _ _ (Roll 93 0 0 7)); vm_compute; intuition discriminate|].
         eapply rtc_l; [apply (Ends 0 _ [] (Roll 93 0 0 7) [] _ _ (Answered 404))|]. apply rtc_refl. }
       destruct (loadgen_accounts 1 _ ltac:(discriminate) Hg) as (_ & Hb & Ht & _ & _ & Hr & _).
       split; [exact (Hb B404)|]. split; [exact Ht|].
       apply (Hr (Roll 93 0 0 7)). vm_compute. intuition discriminate. }
  reflexivity.
Defined.

(** ** What the reports show *)

Definition deltas (ls : list progressLine) : Z := foldr (λ l acc, deltaReqs l + acc) 0 ls.

Lemma reports_length st p ticks : length (reports st p ticks).1 = length ticks.
Proof.
  revert p. induction ticks as [|[t s] ticks IH]; intros p; [done|]. cbn.
  specialize (IH (Reporter (TotalRequests s) t)). destruct (reports _ _ ticks). cbn in *. lia.
Qed.

(** The requests of the windows add up to the last total reported: no request is
    left out of a window or counted in two. *)
Lemma reports_telescope st p ticks :
  wrapU64 (lastTotal p + deltas (reports st p ticks).1) = wrapU64 (lastTotal (reports st p ticks).2).
Proof.
  revert p. induction ticks as [|[t s] ticks IH]; intros p; [by cbn; rewrite Z.add_0_r|].
  cbn [reports report]. specialize (IH (Reporter (TotalRequests s) t)). destruct (reports _ _ ticks) as [ls p2].
  cbn [fst snd lastTotal deltas foldr deltaReqs] in *. rewrite <- IH. unfold deltas.
  destruct (wrapU64_part (TotalRequests s - lastTotal p)) as [k ->].
  apply wrapU64_shift with k. lia.
Qed.

(** The totals of a run grow from report to report and fit in 64 bits, so the sum
    is exact. *)
Fixpoint growing (n : Z) (ticks : list (Time * Stats)) : Prop :=
  match ticks with [] => True | (_, s) :: ticks' => n <= TotalRequests s < 2 ^ 64 ∧ growing (TotalRequests s) ticks' end.

Lemma reports_exact st p ticks : 0 <= lastTotal p → growing (lastTotal p) ticks →
  lastTotal p + deltas (reports st p ticks).1 = lastTotal (reports st p ticks).2 ∧
  Forall (λ l, 0 <= deltaReqs l) (reports st p ticks).1.
Proof.
  revert p. induction ticks as [|[t s] ticks IH]; intros p H0 Hg; [by cbn; split; [lia|]|]. destruct Hg as [Hn Hg].
  cbn [reports report]. specialize (IH (Reporter (TotalRequests s) t) ltac:(cbn; lia) Hg).
  destruct (reports _ _ ticks) as [ls p2]. cbn [fst snd lastTotal deltas foldr] in *. destruct IH as [<- Hall].
  unfold wrapU64, deltas. cbn [deltaReqs]. rewrite Z.mod_small by lia. split; [lia|]. constructor; [cbn; lia|done].
Qed.

(** The breakdown leaves out the responses with another status: a run of one
    request answered 413 reports a total of 1 and no request in any line. *)
Lemma breakdown_omits :
  let c := closingReport Second (ended (started noStats) (Answered 413)) in
  finalTotal c = 1 ∧ (breakdown c).*1.*2 = [0; 0; 0; 0; 0] ∧ netErrors c = 0.
Proof. repeat split; reflexivity. Qed.

(** And a run that sent no request reports the shares 0/0. *)
Lemma empty_breakdown : Forall (λ l, l.2 = S754_nan) (breakdown (closingReport Second noStats)).
Proof. cbv. repeat constructor. Qed.

(** With the default flags a run sends a token every 600 microseconds for fifteen
    minutes, 1.5 million in all. *)
Lemma default_run : ∃ i, intervalPerReq (targetRPM defaultFlags) = Some i ∧ duration defaultFlags / i = 1500000.
Proof. exists 600000. split; [exact default_interval|reflexivity]. Qed.
